(* ===== verification/_CoqProject ===== *)
-Q . S2P
Prelude.v
Numerals.v
CacheEntry.v
Cache.v
CacheSpec.v
CacheRefine.v
CacheProps.v
LruTracker.v
HybridClock.v
ConsistentHash.v
RoutingTable.v
VersionedStore.v
ShardedCache.v
SingleFlight.v
HealthChecker.v
Workers.v
Membership.v
RoutingCache.v
Resp.v
Parser.v
Fuzz.v
ReplicaWire.v
Cluster.v
ClusterLemmas.v
ClusterProps.v
Register.v
RegisterInv.v
Linearizability.v
Doubles.v
Metrics.v
CommandHandler.v
HandlerProps.v
Rebalance.v
Session.v
TcpServer.v
PeerChannel.v
PeerPool.v
PeerChannels.v
ClientApi.v
Snapshot.v
Startup.v
ClusterOps.v
Shutdown.v
MetricsServer.v
Logger.v
Process.v
Chaos.v
ChaosClient.v
ChaosRuns.v
ChaosProxy.v
ChaosNemesis.v
ChaosLaunch.v
ChaosWorkload.v
