(* ===== verification/Prelude.v ===== *)
(** * ShardCache verification: overview

    ShardCache is a replicated in-memory cache that speaks the Redis protocol.
    A node accepts connections, parses commands, and coordinates each of them:
    the key's replicas are found on a consistent-hash ring, writes go to all of
    them and wait for a write quorum, reads ask them and wait for a read quorum.
    Replicas order writes by version stamps of a hybrid clock.  Missed writes are
    kept as hints and delivered later, membership spreads by gossip, data moves
    when the ring changes, and a node can save its cache and load it again.

    This library models the program and proves what it promises.  The paths below
    are relative to the root of the sources; include/ is include/shardcache/.

    ** Conventions

    A pure function is a Rocq function with the source's name; a method [m] of a
    class [C] is [C_m], takes the object and returns it changed.  Operations that
    C++ leaves undefined or that throw, and loops that run out of fuel, give
    [None]; theorems that an operation works say that it gives [Some].  Integers
    are [Z], with the wrap-around of their width written out ([u64], [i64]).
    Strings are lists of bytes.  Clocks, random numbers, the answers of peers and
    the results of file operations are arguments.  Times are nanoseconds, TTLs
    milliseconds.  Code under a mutex is one step; where threads interleave there
    is a step function or relation, and the theorems quantify over all sequences
    of steps.  Hash maps are [gmap]; where the iteration order matters it is an
    argument or proved irrelevant.

    ** Files

    Foundations.
    - Prelude: machine integers, byte strings, lists, tactics, the hint database
      [shard].
    - Numerals, Doubles: decimal text of integers and doubles, as the C++
      library reads and writes them.

    The local store.
    - CacheEntry (include/cache_entry.hpp): versions and the last-write order.
    - Cache (src/cache.cpp): one shard, an LRU list with an index of iterators.
      CacheSpec is the abstract LRU store, CacheRefine the simulation, CacheProps
      its consequences.
    - VersionedStore: the interface a store offers to the coordinator, as a class
      of operations and laws; one shard is an instance.
    - ShardedCache (src/sharded_cache.cpp): shards, placement, get_or_load; an
      instance of the same class.
    - LruTracker (src/lru.cpp), SingleFlight (src/single_flight.cpp), Metrics
      (include/metrics.hpp), Snapshot (src/snapshot.cpp).

    The cluster.
    - HybridClock (include/hybrid_clock.hpp), ConsistentHash
      (src/consistent_hash.cpp), RoutingTable (src/routing_table.cpp),
      RoutingCache (the epoch protocol of Cluster::routing), HealthChecker
      (src/health_checker.cpp), Membership (gossip and the ring in
      src/cluster.cpp).
    - Cluster (src/cluster.cpp: replicate, collect, read, put, del, expire_key,
      hints), for any store of the class; ClusterLemmas and ClusterProps are its
      theory.
    - Register: many coordinators serving one key, a step for each critical
      section, made of the pieces of Cluster; RegisterInv its invariant,
      Linearizability the result.
    - Rebalance (rebalance_now), ClusterOps (wrappers, statistics, gossip_once,
      replay_hints, leave), Workers (the background threads of
      src/ttl_manager.cpp, src/health_checker.cpp, src/cluster.cpp, src/main.cpp).

    The network.
    - Resp (protocol/resp.cpp), Parser (protocol/parser.cpp), ReplicaWire (the
      calls between nodes: network/client.cpp, network/request_result.hpp).
    - CommandHandler (network/command_handler.cpp) and HandlerProps.
    - Session (network/session.cpp), TcpServer (network/tcp_server.cpp,
      network/io_context_pool.cpp), MetricsServer (network/metrics_server.cpp).
    - PeerChannel and PeerChannels (network/peer_channel.cpp), PeerPool
      (network/peer_pool.cpp and the blocking client), ClientApi (the calls of
      network/client.cpp).

    The program and its tests.
    - Startup and Shutdown (src/main.cpp), Process (the rest of src/main.cpp:
      threads, exceptions and the destruction of what the process is made of),
      Logger (src/logger.cpp).
    - Fuzz (fuzz/): the fuzz target and its driver.
    - Chaos, ChaosClient, ChaosRuns (chaos/model.go, chaos/anomaly.go,
      chaos/resp.go): the checker, the client and what they see of the register.
    - ChaosProxy (chaos/proxy.go), ChaosNemesis, ChaosLaunch and ChaosWorkload
      (chaos/main.go): the links between the nodes, the faults, the nodes as they
      are launched, and the clients with the verdict.

    ** What is proved

    - The cache: every operation refines the abstract LRU store, so no iterator
      dangles; sharding changes nothing; capacities hold; versioned writes
      converge whatever their order.
    - The coordinator: a write accounts for every replica; with overlapping
      quorums a read sees every acknowledged write, returns the newest answer and
      repairs the rest; in linearizable mode it returns only what a write quorum
      holds.  Reads, writes and deletes of a key by any number of coordinators
      are linearizable, under loss, delay and reordering.  The overlap is needed
      ([small_quorums_not_linearizable]), and EXPIRE, which is a read and then a
      write, is not part of it ([expire_undoes_del]).
    - Membership: gossip converges; the ring, the node table and the routing
      table agree; the table routes as the ring; a node joins with one round of
      gossip, and one that leaves hands over its data; rebalancing loses nothing.
    - The wire: requests and replies survive encoding, in any pieces; each call
      between nodes and each call of the client is followed end to end; every
      command gets one reply, and sessions reply in order; every call on a
      channel is answered once, by the reply meant for it.
    - Persistence: a snapshot restores what was saved, damage is noticed, a failed
      save changes nothing; a node stopped and started again has its data.
    - Concurrency: clock stamps increase under any interleaving; concurrent loads
      share one call; background threads stop, with no lost wake-up.
    - The process: after a signal it can always end, with status 0, and what it
      destroys is not used again while no command is on the RPC pool
      ([shutdown_race] shows what happens otherwise); a server that cannot be built
      ends it with status 1, or aborts it if there are snapshots
      ([failed_start_exit]).
    - Tools: the metrics page reports what was executed; the fuzz target's checks
      hold; the log is made of whole lines.
    - The chaos test: whatever it records of the register passes its checker; its
      verdict is about the whole store, the anomalies it reports are real and its
      counters add up; a client never mistakes one reply for another; a partition
      of a link is silent, only one node is faulty at a time and everything is
      healed in the end; all traffic between nodes passes the proxies; and the
      test leaves nothing running.

    ** Bounds and fuel

    The parsers, the read loop of a channel and the loops of a session recurse on
    fuel set to the length of the input plus one, as every round takes a byte;
    that this is enough is proved ([resp_reply_total], [handler_one_reply]).  The
    routing table holds 16-bit indices, so theorems about it assume at most
    65536 nodes.  Counters wrap at 2^64; theorems that need them exact assume
    fewer events.  Theorems about the hybrid clock assume it is not at the end of
    its range, those about hints a positive queue limit, and round trips the
    protocol's own limits on lengths.

    ** Not modelled

    Sockets, the event loop and files, which are the source of the arguments
    above; the text of log messages and of what the chaos test prints; memory use
    and memory order beyond atomic words; tests, benchmarks and deployment files;
    Porcupine, which is third-party and appears as the property it decides.  In
    the register membership is fixed, and a restart that loses the key is
    excluded, as quorums are then not kept; so the chaos test with faults of the
    kind kill is modelled as a program, but nothing is promised of its verdict. *)

From Stdlib Require Export ZArith Lia Ascii.
From stdpp Require Export base numbers list gmap strings option sorting.

(** ** Scopes, machine integers and byte strings *)

Declare Scope shard_scope.
Delimit Scope shard_scope with shard.
Open Scope shard_scope.

(** [std::string] holds bytes: a list of 8-bit characters. *)
Abbreviation bytes := (list ascii).

(** A C++ string literal. *)
Definition lit (s : string) : bytes := String.list_ascii_of_string s.

(** The value of a [char] seen as [unsigned char]. *)
Definition uchar (c : ascii) : Z := Z.of_N (N_of_ascii c).

(** Unsigned arithmetic of width [w]: results are taken modulo 2^w. *)
Definition wrap (w x : Z) : Z := x mod 2 ^ w.
Abbreviation u8 := (wrap 8).
Abbreviation u16 := (wrap 16).
Abbreviation u32 := (wrap 32).
Abbreviation u64 := (wrap 64).

(** The signed 64-bit reading of a 64-bit pattern ([static_cast<int64_t>]). *)
Definition i64 (x : Z) : Z :=
  let y := u64 x in if (y <? 2 ^ 63)%Z then y else (y - 2 ^ 64)%Z.

(** Lexicographic comparison of strings by unsigned character value, the order
    of [std::string::operator<] and [operator>]. *)
Fixpoint bytes_compare (a b : bytes) : comparison :=
  match a, b with
  | [], [] => Eq
  | [], _ :: _ => Lt
  | _ :: _, [] => Gt
  | x :: a', y :: b' =>
      match (uchar x ?= uchar y)%Z with
      | Eq => bytes_compare a' b'
      | c => c
      end
  end.

Definition bytes_gtb (a b : bytes) : bool :=
  match bytes_compare a b with Gt => true | _ => false end.

(** Equality test of strings. *)
Definition bytes_eqb (a b : bytes) : bool := bool_decide (a = b).

(** ** Tactics *)

(** Case analysis on the innermost [match] or [if] of the goal, keeping the
    equation. *)
Ltac case_goal :=
  match goal with
  | |- context [match ?x with _ => _ end] =>
      lazymatch x with
      | context [match _ with _ => _ end] => fail
      | _ => let E := fresh "E" in destruct x eqn:E
      end
  end.

(** The same on a hypothesis. *)
Ltac case_hyp H :=
  match type of H with
  | context [match ?x with _ => _ end] =>
      lazymatch x with
      | context [match _ with _ => _ end] => fail
      | _ => let E := fresh "E" in destruct x eqn:E
      end
  end.

(** Decides a closed proposition by evaluation. *)
Ltac by_eval := apply (bool_decide_eq_true_1 _); vm_compute; reflexivity.

(** Turns boolean tests among the hypotheses into propositions. *)
Ltac bool_facts :=
  repeat match goal with
  | H : bool_decide _ = true |- _ => apply bool_decide_eq_true_1 in H
  | H : bool_decide _ = false |- _ => apply bool_decide_eq_false_1 in H
  | H : (_ && _)%bool = true |- _ => apply andb_true_iff in H as [? ?]
  | H : (_ || _)%bool = false |- _ => apply orb_false_iff in H as [? ?]
  | H : negb _ = true |- _ => apply negb_true_iff in H
  | H : negb _ = false |- _ => apply negb_false_iff in H
  | H : (_ <? _)%Z = true |- _ => apply Z.ltb_lt in H
  | H : (_ <? _)%Z = false |- _ => apply Z.ltb_ge in H
  | H : (_ <=? _)%Z = true |- _ => apply Z.leb_le in H
  | H : (_ <=? _)%Z = false |- _ => apply Z.leb_gt in H
  | H : (_ =? _)%Z = true |- _ => apply Z.eqb_eq in H
  | H : (_ =? _)%Z = false |- _ => apply Z.eqb_neq in H
  | H : (_ <? _)%nat = true |- _ => apply Nat.ltb_lt in H
  | H : (_ <? _)%nat = false |- _ => apply Nat.ltb_ge in H
  | H : (_ <=? _)%nat = true |- _ => apply Nat.leb_le in H
  | H : (_ <=? _)%nat = false |- _ => apply Nat.leb_gt in H
  | H : (_ =? _)%nat = true |- _ => apply Nat.eqb_eq in H
  | H : (_ =? _)%nat = false |- _ => apply Nat.eqb_neq in H
  end.

(** The hint database of the development. *)
Create HintDb shard.
Create Rewrite HintDb shard.

(** ** Facts about machine integers *)

Lemma wrap_small w x : (0 <= x < 2 ^ w)%Z -> wrap w x = x.
Proof. intros H. unfold wrap. by apply Z.mod_small. Qed.

Lemma wrap_range w x : (0 <= w)%Z -> (0 <= wrap w x < 2 ^ w)%Z.
Proof. intros H. unfold wrap. apply Z.mod_pos_bound. apply Z.pow_pos_nonneg; lia. Qed.

Lemma lxor_range a b w : (0 <= w -> 0 <= a < 2 ^ w -> 0 <= b < 2 ^ w -> 0 <= Z.lxor a b < 2 ^ w)%Z.
Proof.
  intros Hw Ha Hb. split; [apply Z.lxor_nonneg; lia|].
  destruct (decide (Z.lxor a b = 0%Z)) as [->|Hne]; [lia|].
  assert (0 <= Z.lxor a b)%Z by (apply Z.lxor_nonneg; lia).
  apply Z.log2_lt_pow2; [lia|].
  pose proof (Z.log2_lxor a b ltac:(lia) ltac:(lia)).
  assert (0 < w)%Z by (destruct (decide (w = 0%Z)) as [->|]; [|lia];
    replace a with 0%Z in * by lia; replace b with 0%Z in * by lia; done).
  assert (Hlog : forall x, (0 <= x < 2 ^ w -> Z.log2 x < w)%Z).
  { intros x Hx. destruct (decide (x = 0%Z)) as [->|]; [done|]. apply Z.log2_lt_pow2; lia. }
  pose proof (Hlog a Ha). pose proof (Hlog b Hb). lia.
Qed.

Lemma wrap_wrap w x : wrap w (wrap w x) = wrap w x.
Proof. unfold wrap. apply Zmod_mod. Qed.

Lemma wrap_add_l w x y : wrap w (wrap w x + y) = wrap w (x + y).
Proof. unfold wrap. apply Zplus_mod_idemp_l. Qed.

Lemma wrap_sub_l w x y : wrap w (wrap w x - y) = wrap w (x - y).
Proof. unfold wrap. apply Zminus_mod_idemp_l. Qed.

Lemma wrap_sub_r w x y : wrap w (x - wrap w y) = wrap w (x - y).
Proof. unfold wrap. apply Zminus_mod_idemp_r. Qed.

#[export] Hint Rewrite wrap_wrap wrap_add_l wrap_sub_l wrap_sub_r : shard.

(** Casting to signed and back is the identity on 64-bit patterns. *)
Lemma u64_i64 x : u64 (i64 x) = u64 x.
Proof.
  unfold i64, wrap. destruct (_ <? _)%Z; [apply Zmod_mod|].
  rewrite Zminus_mod, Zmod_mod, Z_mod_same_full, Z.sub_0_r. apply Zmod_mod.
Qed.

Lemma i64_range x : (- 2 ^ 63 <= i64 x < 2 ^ 63)%Z.
Proof.
  unfold i64. pose proof (wrap_range 64 x ltac:(lia)).
  destruct (_ <? _)%Z eqn:E; bool_facts; lia.
Qed.

Lemma uchar_range c : (0 <= uchar c < 256)%Z.
Proof.
  unfold uchar. pose proof (N_ascii_bounded c). lia.
Qed.

#[export] Instance uchar_inj : Inj (=) (=) uchar.
Proof.
  intros a b H. unfold uchar in H. apply N2Z.inj in H.
  by rewrite <-(ascii_N_embedding a), <-(ascii_N_embedding b), H.
Qed.

(** ** The string order is a strict total order *)

Lemma bytes_compare_refl a : bytes_compare a a = Eq.
Proof. induction a as [|x a IH]; simpl; [done|]. by rewrite Z.compare_refl. Qed.

Lemma bytes_compare_eq a b : bytes_compare a b = Eq <-> a = b.
Proof.
  split; [|intros ->; apply bytes_compare_refl].
  revert b. induction a as [|x a IH]; intros [|y b]; simpl; try done.
  destruct (uchar x ?= uchar y)%Z eqn:E; try done.
  apply Z.compare_eq, (inj uchar) in E as ->. intros ->%IH. done.
Qed.

Lemma bytes_compare_antisym a b : bytes_compare b a = CompOpp (bytes_compare a b).
Proof.
  revert b. induction a as [|x a IH]; intros [|y b]; simpl; try done.
  rewrite (Z.compare_antisym (uchar x)). destruct (uchar x ?= uchar y)%Z; simpl; auto.
Qed.

Lemma bytes_gt_trans a b c :
  bytes_compare a b = Gt -> bytes_compare b c = Gt -> bytes_compare a c = Gt.
Proof.
  revert b c. induction a as [|x a IH]; intros [|y b] [|z c]; simpl; try done.
  destruct (Z.compare_spec (uchar x) (uchar y)) as [Exy|Hxy|Hxy];
    destruct (Z.compare_spec (uchar y) (uchar z)) as [Eyz|Hyz|Hyz];
    destruct (Z.compare_spec (uchar x) (uchar z)) as [Exz|Hxz|Hxz];
    try done; try lia; eauto.
Qed.

Lemma bytes_gtb_irrefl a : bytes_gtb a a = false.
Proof. unfold bytes_gtb. by rewrite bytes_compare_refl. Qed.

Lemma bytes_gtb_trans a b c :
  bytes_gtb a b = true -> bytes_gtb b c = true -> bytes_gtb a c = true.
Proof.
  unfold bytes_gtb. intros H1 H2.
  destruct (bytes_compare a b) eqn:E1; try done.
  destruct (bytes_compare b c) eqn:E2; try done.
  by rewrite (bytes_gt_trans a b c).
Qed.

Lemma bytes_gtb_total a b : bytes_gtb a b = true \/ a = b \/ bytes_gtb b a = true.
Proof.
  unfold bytes_gtb. rewrite (bytes_compare_antisym a b).
  destruct (bytes_compare a b) eqn:E; simpl; auto.
  right. left. by apply bytes_compare_eq.
Qed.

Lemma bytes_eqb_eq a b : bytes_eqb a b = true <-> a = b.
Proof. unfold bytes_eqb. by rewrite bool_decide_eq_true. Qed.

Lemma bytes_eqb_spec a b : reflect (a = b) (bytes_eqb a b).
Proof. unfold bytes_eqb. case_bool_decide; by constructor. Qed.

Lemma bytes_eqb_refl a : bytes_eqb a a = true.
Proof. by apply bytes_eqb_eq. Qed.

Lemma bytes_eqb_ne a b : a <> b -> bytes_eqb a b = false.
Proof. by destruct (bytes_eqb_spec a b). Qed.

(** ** Lists of lists *)

Lemma elem_of_concat {A} (x : A) (ls : list (list A)) :
  x ∈ concat ls <-> exists l, x ∈ l /\ l ∈ ls.
Proof.
  rewrite list_elem_of_In, in_concat. setoid_rewrite list_elem_of_In. naive_solver.
Qed.

(** ** First occurrences of a list, by a key *)

Section dedup.
Context {A K : Type} `{EqDecision K} (f : A -> K).

(** Keeps the first element of every key, in order. *)
Fixpoint dedup_by (l : list A) : list A :=
  match l with
  | [] => []
  | x :: r => x :: filter (fun y => f y <> f x) (dedup_by r)
  end.

(** A loop that appends every element whose key is new, until there are [n]. *)
Fixpoint push_distinct (n : nat) (l : list A) (out : list A) : list A :=
  match l with
  | [] => out
  | x :: r =>
      if (length out <? n)%nat then
        push_distinct n r (if decide (f x ∈ f <$> out) then out else out ++ [x])
      else out
  end.

Lemma dedup_by_sub l x : x ∈ dedup_by l -> x ∈ l.
Proof.
  induction l as [|y l IH]; simpl; [done|].
  rewrite elem_of_cons, list_elem_of_filter, elem_of_cons. naive_solver.
Qed.

Lemma dedup_by_key l x : x ∈ l -> f x ∈ f <$> dedup_by l.
Proof.
  induction l as [|y l IH]; cbn [dedup_by]; [set_solver|].
  rewrite elem_of_cons. intros [->|H]; [rewrite fmap_cons; by left|].
  destruct (decide (f x = f y)) as [->|Hne]; [rewrite fmap_cons; by left|].
  rewrite fmap_cons. right. apply IH in H as (z & Ez & Hz)%list_elem_of_fmap.
  apply list_elem_of_fmap. exists z. split; [done|].
  apply list_elem_of_filter. split; [congruence|done].
Qed.

Lemma filter_NoDup_key (P : A -> Prop) `{!forall x, Decision (P x)} l :
  NoDup (f <$> l) -> NoDup (f <$> filter P l).
Proof.
  induction l as [|x l IH]; intros ND; [done|]. rewrite fmap_cons in ND.
  apply NoDup_cons in ND as [Hx ND]. rewrite filter_cons. case_decide; [|auto].
  rewrite fmap_cons. apply NoDup_cons. split; [|auto].
  intros (y & E & Hy)%list_elem_of_fmap. apply Hx. rewrite E.
  apply list_elem_of_fmap. exists y. split; [done|]. by apply list_elem_of_filter in Hy as [_ Hy].
Qed.

Lemma dedup_by_NoDup l : NoDup (f <$> dedup_by l).
Proof.
  induction l as [|x l IH]; cbn [dedup_by]; [constructor|]. rewrite fmap_cons.
  apply NoDup_cons. split; [|by apply filter_NoDup_key].
  intros (y & E & Hy)%list_elem_of_fmap. apply list_elem_of_filter in Hy as [Hy _]. by apply Hy.
Qed.

(** A filter that depends on the key only commutes with deduplication. *)
Lemma filter_dedup_by (P : K -> Prop) `{!forall k, Decision (P k)} l :
  filter (fun x => P (f x)) (dedup_by l) = dedup_by (filter (fun x => P (f x)) l).
Proof.
  induction l as [|x l IH]; simpl; [done|]. rewrite !filter_cons.
  destruct (decide (P (f x))) as [Hx|Hx]; simpl.
  - f_equal. rewrite <-IH, !list_filter_filter. apply list_filter_iff. tauto.
  - rewrite <-IH, list_filter_filter. apply list_filter_iff. intros y. split; [tauto|].
    intros Hy. split; [done|]. intros E. apply Hx. by rewrite <-E.
Qed.

Lemma push_distinct_spec n l out :
  push_distinct n l out =
  out ++ take (n - length out) (filter (fun x => f x ∉ f <$> out) (dedup_by l)).
Proof.
  revert out. induction l as [|x l IH]; intros out;
    cbn [push_distinct dedup_by].
  { by rewrite filter_nil, take_nil, app_nil_r. }
  destruct (Nat.ltb_spec (length out) n) as [Hn|Hn].
  2: { replace (n - length out)%nat with 0%nat by lia. by rewrite take_0, app_nil_r. }
  rewrite IH, filter_cons. case_decide as Hx.
  - rewrite decide_False by (intros Hx'; by apply Hx'). do 2 f_equal.
    rewrite list_filter_filter. apply list_filter_iff. intros y.
    split; [|tauto]. intros Hy. split; [done|]. intros E. apply Hy. by rewrite E.
  - rewrite decide_True by done. rewrite length_app. simpl.
    replace (n - length out)%nat with (S (n - (length out + 1))) by lia. simpl.
    rewrite <-app_assoc. simpl. do 3 f_equal. rewrite list_filter_filter.
    apply list_filter_iff. intros y. rewrite fmap_app. set_solver.
Qed.

Lemma push_distinct_nil n l : push_distinct n l [] = take n (dedup_by l).
Proof.
  rewrite push_distinct_spec. cbn [length app]. rewrite Nat.sub_0_r. f_equal.
  induction (dedup_by l) as [|x r IH]; [done|]. rewrite filter_cons, decide_True by set_solver.
  by rewrite IH.
Qed.

End dedup.

(** Deduplication preserves a pointwise relation that respects and reflects the
    keys. *)
Lemma Forall2_dedup_by {A B K K' : Type} `{EqDecision K, EqDecision K'}
    (f : A -> K) (f' : B -> K') (R : A -> B -> Prop) (l : list A) (l' : list B) :
  (forall x y x' y', R x x' -> R y y' -> f x = f y <-> f' x' = f' y') ->
  Forall2 R l l' -> Forall2 R (dedup_by f l) (dedup_by f' l').
Proof.
  intros Hk. induction 1 as [|x x' l l' Hx _ IH]; simpl; constructor; [done|].
  induction IH as [|y y' r r' Hy _ IHr]; [constructor|]. rewrite !filter_cons.
  pose proof (Hk y x y' x' Hy Hx).
  destruct (decide (f y <> f x)), (decide (f' y' <> f' x')); try tauto. by constructor.
Qed.
