(* ===== verification/Numerals.v ===== *)
(** * Decimal numerals

    What the program uses of the C++ library's number formatting and parsing:
    [std::to_string] on integers, and [std::from_chars] as wrapped by
    [parse_u64] (protocol/parser.cpp) and [parse_int] (protocol/resp.cpp). *)

From S2P Require Import Prelude.

Local Open Scope Z_scope.

(** ** Printing *)

Definition digit_char (d : Z) : ascii := ascii_of_N (Z.to_N (48 + d)).

(** Digits of [n >= 0], most significant first, in front of [acc]. *)
Fixpoint udec_go (fuel : nat) (n : Z) (acc : bytes) : bytes :=
  match fuel with
  | O => acc
  | S f => if n <? 10 then digit_char n :: acc
           else udec_go f (n / 10) (digit_char (n mod 10) :: acc)
  end.

(** A number below 2^k has at most k decimal digits. *)
Definition udec (n : Z) : bytes := udec_go (S (Z.to_nat (Z.log2 n))) n [].

(** [std::to_string] of an integer. *)
Definition to_dec (n : Z) : bytes :=
  if n <? 0 then "-"%char :: udec (- n) else udec n.

(** ** Parsing *)

Definition is_digit (c : ascii) : bool := (48 <=? uchar c) && (uchar c <=? 57).

(** The value of a digit string. *)
Definition dec_value (s : bytes) : Z :=
  foldl (fun acc c => acc * 10 + (uchar c - 48)) 0 s.

(** A nonempty string of digits only. *)
Definition all_digits (s : bytes) : bool :=
  match s with [] => false | _ => forallb is_digit s end.

(** [parse_u64]: the whole string is one unsigned number below 2^64. *)
Definition parse_u64 (s : bytes) : option Z :=
  if all_digits s && (dec_value s <? 2 ^ 64) then Some (dec_value s) else None.

(** [parse_int]: the whole string is one signed 64-bit number. *)
Definition parse_int (s : bytes) : option Z :=
  match s with
  | c :: s' =>
      if Ascii.eqb c "-" then
        if all_digits s' && (dec_value s' <=? 2 ^ 63) then Some (- dec_value s') else None
      else if all_digits s && (dec_value s <? 2 ^ 63) then Some (dec_value s) else None
  | [] => None
  end.

(** ** [std::stoi] and [std::stoull] *)

(** [isspace] in the "C" locale. *)
Definition is_space (c : ascii) : bool := Ascii.eqb c " " || ((9 <=? uchar c) && (uchar c <=? 13)).

Fixpoint drop_spaces (s : bytes) : bytes :=
  match s with c :: s' => if is_space c then drop_spaces s' else s | [] => [] end.

(** The longest prefix of digits. *)
Fixpoint digits_prefix (s : bytes) : bytes :=
  match s with c :: s' => if is_digit c then c :: digits_prefix s' else [] | [] => [] end.

(** What [strtol] and [strtoull] accept in base 10: white space, a sign, and
    digits, anything after them being ignored.  [None]: no digits. *)
Definition strto (s : bytes) : option (bool * Z) :=
  let s := drop_spaces s in
  let '(neg, s) := match s with
                   | c :: s' => if Ascii.eqb c "-" then (true, s')
                                else if Ascii.eqb c "+" then (false, s') else (false, s)
                   | [] => (false, [])
                   end in
  match digits_prefix s with
  | [] => None
  | ds => Some (neg, dec_value ds)
  end.

(** [std::stoi]; [None] is an exception. *)
Definition stoi (s : bytes) : option Z :=
  '(neg, m) ← strto s;
  let n := if (neg : bool) then - m else m in
  if (- 2 ^ 31 <=? n) && (n <? 2 ^ 31) then Some n else None.

(** [std::stoull]: a minus sign negates modulo 2^64. *)
Definition stoull (s : bytes) : option Z :=
  '(neg, m) ← strto s;
  if m <? 2 ^ 64 then Some (if (neg : bool) then u64 (- m) else m) else None.

(** ** Round trips *)

Lemma uchar_digit d : 0 <= d < 10 -> uchar (digit_char d) = 48 + d.
Proof.
  intros H. unfold uchar, digit_char. rewrite N_ascii_embedding by lia. lia.
Qed.

Lemma is_digit_char d : 0 <= d < 10 -> is_digit (digit_char d) = true.
Proof. intros H. unfold is_digit. rewrite uchar_digit by done. lia. Qed.

Lemma is_digit_range c : is_digit c = true -> 48 <= uchar c <= 57.
Proof. unfold is_digit. intros H. bool_facts. lia. Qed.

Lemma dec_value_acc s a :
  foldl (fun acc c => acc * 10 + (uchar c - 48)) a s = a * 10 ^ Z.of_nat (length s) + dec_value s.
Proof.
  unfold dec_value. revert a. induction s as [|c s IH]; intros a; cbn [foldl length]; [simpl; lia|].
  rewrite IH, (IH (0 * 10 + _)). rewrite Nat2Z.inj_succ, Z.pow_succ_r by lia. ring.
Qed.

Lemma dec_value_cons c s :
  dec_value (c :: s) = (uchar c - 48) * 10 ^ Z.of_nat (length s) + dec_value s.
Proof. unfold dec_value at 1. cbn [foldl]. rewrite dec_value_acc. lia. Qed.

Lemma udec_go_spec fuel n acc :
  0 <= n < 10 ^ Z.of_nat fuel -> forallb is_digit acc = true -> (0 < fuel)%nat ->
  all_digits (udec_go fuel n acc) = true /\
  dec_value (udec_go fuel n acc) = n * 10 ^ Z.of_nat (length acc) + dec_value acc.
Proof.
  revert n acc. induction fuel as [|f IH]; intros n acc Hn Ha Hf; [lia|]. simpl.
  destruct (n <? 10) eqn:E; bool_facts.
  - split; [simpl; rewrite is_digit_char by lia; done|].
    rewrite dec_value_cons, uchar_digit by lia. lia.
  - rewrite Nat2Z.inj_succ, Z.pow_succ_r in Hn by lia.
    pose proof (Z.mod_pos_bound n 10 ltac:(lia)).
    assert (Hf' : (0 < f)%nat) by (destruct f; [simpl in Hn; lia|lia]).
    destruct (IH (n / 10) (digit_char (n mod 10) :: acc)) as [I1 I2]; try done.
    + split; [apply Z.div_pos; lia|]. apply Z.div_lt_upper_bound; lia.
    + simpl. rewrite is_digit_char by lia. done.
    + split; [done|]. rewrite I2, dec_value_cons, uchar_digit by lia.
      simpl length. rewrite Nat2Z.inj_succ, Z.pow_succ_r by lia.
      rewrite (Z.div_mod n 10) at 3 by lia. ring.
Qed.

Lemma udec_fuel n : 0 <= n -> n < 10 ^ Z.of_nat (S (Z.to_nat (Z.log2 n))).
Proof.
  intros H. rewrite Nat2Z.inj_succ, Z2Nat.id by apply Z.log2_nonneg.
  destruct (decide (n = 0)) as [->|Hne]; [simpl; lia|].
  destruct (Z.log2_spec n) as [_ L]; [lia|].
  eapply Z.lt_le_trans; [exact L|]. apply Z.pow_le_mono_l. lia.
Qed.

Lemma udec_spec n : 0 <= n -> all_digits (udec n) = true /\ dec_value (udec n) = n.
Proof.
  intros H. destruct (udec_go_spec (S (Z.to_nat (Z.log2 n))) n []) as [H1 H2]; try done.
  - split; [done|]. by apply udec_fuel.
  - lia.
  - split; [done|]. unfold udec. rewrite H2. simpl. unfold dec_value. simpl. lia.
Qed.

Lemma parse_u64_to_dec n : 0 <= n < 2 ^ 64 -> parse_u64 (to_dec n) = Some n.
Proof.
  intros H. unfold to_dec. rewrite (proj2 (Z.ltb_ge _ _)) by lia.
  destruct (udec_spec n) as [H1 H2]; [lia|]. unfold parse_u64. rewrite H1, H2.
  by rewrite (proj2 (Z.ltb_lt _ _)) by lia.
Qed.

Lemma all_digits_head c s : all_digits (c :: s) = true -> Ascii.eqb c "-" = false.
Proof.
  intros H. simpl in H. bool_facts. apply is_digit_range in H.
  apply Ascii.eqb_neq. intros ->. change (uchar "-") with 45 in H. lia.
Qed.

Lemma parse_int_to_dec n : - 2 ^ 63 <= n < 2 ^ 63 -> parse_int (to_dec n) = Some n.
Proof.
  intros H. unfold to_dec. destruct (n <? 0) eqn:E; bool_facts.
  - destruct (udec_spec (- n)) as [H1 H2]; [lia|]. simpl. rewrite H1, H2.
    rewrite (proj2 (Z.leb_le _ _)) by lia. simpl. f_equal. lia.
  - destruct (udec_spec n) as [H1 H2]; [lia|]. unfold parse_int.
    destruct (udec n) as [|c s]; [done|]. rewrite (all_digits_head c s H1), H1, H2.
    by rewrite (proj2 (Z.ltb_lt _ _)) by lia.
Qed.

Lemma dec_value_nonneg s : forallb is_digit s = true -> 0 <= dec_value s.
Proof.
  induction s as [|c s IH]; intros H; [done|]. simpl in H. bool_facts.
  rewrite dec_value_cons. apply is_digit_range in H. specialize (IH H0).
  pose proof (Z.pow_nonneg 10 (Z.of_nat (length s))). nia.
Qed.

Lemma parse_u64_range s n : parse_u64 s = Some n -> 0 <= n < 2 ^ 64.
Proof.
  unfold parse_u64. case_match; intros [= <-]. bool_facts. split; [|done].
  destruct s; [done|]. by apply dec_value_nonneg.
Qed.

(** Digits and the minus sign: what a printed number consists of. *)
Definition numeral_char (c : ascii) : bool := is_digit c || Ascii.eqb c "-".

Lemma to_dec_chars n : forallb numeral_char (to_dec n) = true.
Proof.
  assert (forall s, all_digits s = true -> forallb numeral_char s = true) as Hd.
  { intros s H. destruct s as [|c s]; [done|]. unfold all_digits in H.
    apply forallb_forall. intros x Hx. rewrite forallb_forall in H. unfold numeral_char.
    by rewrite (H x Hx). }
  unfold to_dec. destruct (n <? 0) eqn:E; bool_facts.
  - simpl. apply Hd, udec_spec. lia.
  - apply Hd, udec_spec. lia.
Qed.

Lemma to_dec_nonempty n : to_dec n <> [].
Proof.
  unfold to_dec. destruct (n <? 0) eqn:E; [done|]. bool_facts.
  destruct (udec_spec n) as [H _]; [lia|]. by destruct (udec n).
Qed.

Lemma digits_prefix_all s : forallb is_digit s = true -> digits_prefix s = s.
Proof. induction s as [|c s IH]; intros H; [done|]. simpl in *. bool_facts. rewrite H, IH; done. Qed.

Lemma strto_to_dec n : 0 <= n -> strto (to_dec n) = Some (false, n).
Proof.
  intros H. unfold to_dec. rewrite (proj2 (Z.ltb_ge _ _)) by lia.
  destruct (udec_spec n H) as [H1 H2]. unfold strto. destruct (udec n) as [|c s] eqn:E; [done|].
  unfold all_digits in H1. assert (Hc : is_digit c = true) by (simpl in H1; by bool_facts).
  pose proof (is_digit_range c Hc) as Hr. cbn [drop_spaces].
  assert (Hs : is_space c = false).
  { unfold is_space. destruct (Ascii.eqb_spec c " ") as [->|]; [by vm_compute in Hc|]. simpl.
    apply andb_false_intro2. apply Z.leb_gt. lia. }
  rewrite Hs. destruct (Ascii.eqb_spec c "-") as [->|]; [by vm_compute in Hc|].
  destruct (Ascii.eqb_spec c "+") as [->|]; [by vm_compute in Hc|].
  rewrite digits_prefix_all by done. by rewrite H2.
Qed.

Lemma stoi_to_dec n : 0 <= n < 2 ^ 31 -> stoi (to_dec n) = Some n.
Proof.
  intros H. unfold stoi. rewrite strto_to_dec by lia. simpl.
  rewrite (proj2 (Z.leb_le _ _)), (proj2 (Z.ltb_lt _ _)) by lia. done.
Qed.

Lemma stoull_to_dec n : 0 <= n < 2 ^ 64 -> stoull (to_dec n) = Some n.
Proof.
  intros H. unfold stoull. rewrite strto_to_dec by lia. simpl.
  by rewrite (proj2 (Z.ltb_lt _ _)) by lia.
Qed.
