(* ===== verification/CacheEntry.v ===== *)
(** * Cache entries and the last-writer-wins order

    Models include/shardcache/cache_entry.hpp: [CacheEntry], [VersionedValue],
    [is_expired] and [supersedes].  Time points are steady-clock ticks in
    nanoseconds, durations are in the unit their name says; both are integers. *)

From S2P Require Import Prelude.

Local Open Scope Z_scope.

(** Nanoseconds in a millisecond and in a second. *)
Definition ns_per_ms : Z := 1000000.
Definition ns_per_s : Z := 1000000000.

(** [struct CacheEntry]. *)
Record CacheEntry := mkEntry {
  ce_value : bytes;
  ce_expires_at : option Z;
  ce_version : Z;
  ce_tombstone : bool
}.

(** [struct VersionedValue]; [vv_ttl] is in milliseconds. *)
Record VersionedValue := mkVV {
  vv_value : bytes;
  vv_version : Z;
  vv_tombstone : bool;
  vv_ttl : option Z
}.

#[export] Instance CacheEntry_eq_dec : EqDecision CacheEntry.
Proof. solve_decision. Defined.
#[export] Instance VersionedValue_eq_dec : EqDecision VersionedValue.
Proof. solve_decision. Defined.

(** [CacheEntry::is_expired]. *)
Definition is_expired (e : CacheEntry) (now : Z) : bool :=
  match ce_expires_at e with
  | None => false
  | Some t => t <=? now
  end.

(** [is_live] (cache.cpp): visible to reads. *)
Definition is_live (e : CacheEntry) (now : Z) : bool :=
  negb (ce_tombstone e) && negb (is_expired e now).

(** [supersedes]: higher version wins; on a tie deletes win, then the larger
    value. *)
Definition supersedes (version : Z) (tombstone : bool) (value : bytes)
    (current : CacheEntry) : bool :=
  if negb (version =? ce_version current) then ce_version current <? version
  else if negb (Bool.eqb tombstone (ce_tombstone current)) then tombstone
  else bytes_gtb value (ce_value current).

(** ** The order as a relation on stamps *)

(** What [supersedes] compares. *)
Record Stamp := mkStamp { st_version : Z; st_tombstone : bool; st_value : bytes }.

#[export] Instance Stamp_eq_dec : EqDecision Stamp.
Proof. solve_decision. Defined.

Definition stamp_gtb (a b : Stamp) : bool :=
  supersedes (st_version a) (st_tombstone a) (st_value a)
    (mkEntry (st_value b) None (st_version b) (st_tombstone b)).

Definition stamp_of_entry (e : CacheEntry) : Stamp :=
  mkStamp (ce_version e) (ce_tombstone e) (ce_value e).

Definition stamp_of_vv (v : VersionedValue) : Stamp :=
  mkStamp (vv_version v) (vv_tombstone v) (vv_value v).

(** [supersedes] ignores the expiry of the current entry. *)
Lemma supersedes_stamp ver tb val e :
  supersedes ver tb val e = stamp_gtb (mkStamp ver tb val) (stamp_of_entry e).
Proof. done. Qed.

Lemma stamp_gtb_cases a b :
  stamp_gtb a b = true <->
  st_version b < st_version a \/
  (st_version a = st_version b /\
    ((st_tombstone a = true /\ st_tombstone b = false) \/
     (st_tombstone a = st_tombstone b /\ bytes_gtb (st_value a) (st_value b) = true))).
Proof.
  unfold stamp_gtb, supersedes; simpl.
  destruct (Z.eqb_spec (st_version a) (st_version b)) as [Ev|Ev]; simpl.
  - destruct (st_tombstone a), (st_tombstone b); simpl;
      intuition (try lia; try congruence; auto).
  - rewrite Z.ltb_lt. intuition lia.
Qed.

Lemma stamp_gtb_irrefl a : stamp_gtb a a = false.
Proof.
  apply not_true_iff_false. rewrite stamp_gtb_cases, bytes_gtb_irrefl.
  intuition (try lia; congruence).
Qed.

Lemma stamp_gtb_trans a b c :
  stamp_gtb a b = true -> stamp_gtb b c = true -> stamp_gtb a c = true.
Proof.
  rewrite !stamp_gtb_cases.
  intros [H1|(E1 & [[T1 T1']|[T1 V1]])] [H2|(E2 & [[T2 T2']|[T2 V2]])];
    try (left; lia); right; (split; [lia|]).
  - congruence.
  - left. split; congruence.
  - left. split; congruence.
  - right. split; [congruence|]. eauto using bytes_gtb_trans.
Qed.

Lemma stamp_gtb_total a b : stamp_gtb a b = true \/ a = b \/ stamp_gtb b a = true.
Proof.
  destruct a as [va ta xa], b as [vb tb xb]. rewrite !stamp_gtb_cases; simpl.
  destruct (Z.lt_trichotomy va vb) as [H|[->|H]]; [right; right; left; lia| |left; left; lia].
  destruct (bytes_gtb_total xa xb) as [G|[->|G]], ta, tb; auto 10.
Qed.

Lemma stamp_gtb_asym a b : stamp_gtb a b = true -> stamp_gtb b a = false.
Proof.
  intros H. apply not_true_iff_false. intros H'.
  pose proof (stamp_gtb_trans _ _ _ H H') as Hc. by rewrite stamp_gtb_irrefl in Hc.
Qed.

#[export] Hint Resolve stamp_gtb_irrefl stamp_gtb_trans stamp_gtb_asym : shard.

(** The larger of two stamps. *)
Definition stamp_max (a b : Stamp) : Stamp := if stamp_gtb b a then b else a.

Lemma stamp_max_comm a b : stamp_max a b = stamp_max b a.
Proof.
  unfold stamp_max. destruct (stamp_gtb_total a b) as [H|[->|H]]; [| done |].
  - by rewrite H, (stamp_gtb_asym _ _ H).
  - by rewrite H, (stamp_gtb_asym _ _ H).
Qed.

Lemma stamp_max_assoc a b c : stamp_max a (stamp_max b c) = stamp_max (stamp_max a b) c.
Proof.
  unfold stamp_max.
  destruct (stamp_gtb c b) eqn:Ecb; destruct (stamp_gtb b a) eqn:Eba;
    rewrite ?Ecb, ?Eba; try done.
  - by rewrite (stamp_gtb_trans _ _ _ Ecb Eba).
  - destruct (stamp_gtb c a) eqn:Eca; [|done].
    destruct (stamp_gtb_total a b) as [H|[->|H]]; [|congruence|congruence].
    pose proof (stamp_gtb_trans _ _ _ Eca H). congruence.
Qed.

Lemma stamp_max_idemp a : stamp_max a a = a.
Proof. unfold stamp_max. by rewrite stamp_gtb_irrefl. Qed.
