(* ===== verification/Cache.v ===== *)
(** * One cache shard

    Models src/cache.cpp and include/shardcache/cache.hpp.  The shard is an
    intrusive LRU list of nodes and a hash index from keys to list iterators.
    An iterator is the handle of a list node; dereferencing a handle that is no
    longer in the list is undefined behaviour in C++ and [None] here, so every
    operation is partial and its totality is something to prove.  Each
    definition below is one critical section of the shard's mutex; [now] is the
    steady-clock reading the operation takes. *)

From S2P Require Import Prelude CacheEntry.

Local Open Scope Z_scope.

(** ** State *)

(** [struct Cache::Node]. *)
Record Node := mkNode {
  node_key : bytes;
  node_entry : CacheEntry;
  last_promoted : Z
}.

(** [struct CacheMetrics]: monotonic 64-bit counters. *)
Record CacheMetrics := mkMetrics {
  hits : Z; misses : Z; sets : Z; deletes : Z; evictions : Z; expirations : Z
}.

(** [class Cache].  [next_handle] names the next list node to be allocated. *)
Record Cache := mkCache {
  capacity_ : Z;
  tombstone_ttl_ : Z;
  tombstones_ : Z;
  lru_list_ : list (nat * Node);
  entries_ : gmap bytes nat;
  next_handle : nat;
  metrics_ : CacheMetrics
}.

Definition kPromoteInterval : Z := 100.

Definition add_hit (m : CacheMetrics) : CacheMetrics :=
  mkMetrics (u64 (hits m + 1)) (misses m) (sets m) (deletes m) (evictions m) (expirations m).
Definition add_miss (m : CacheMetrics) : CacheMetrics :=
  mkMetrics (hits m) (u64 (misses m + 1)) (sets m) (deletes m) (evictions m) (expirations m).
Definition add_set (m : CacheMetrics) : CacheMetrics :=
  mkMetrics (hits m) (misses m) (u64 (sets m + 1)) (deletes m) (evictions m) (expirations m).
Definition add_delete (m : CacheMetrics) : CacheMetrics :=
  mkMetrics (hits m) (misses m) (sets m) (u64 (deletes m + 1)) (evictions m) (expirations m).
Definition add_eviction (m : CacheMetrics) : CacheMetrics :=
  mkMetrics (hits m) (misses m) (sets m) (deletes m) (u64 (evictions m + 1)) (expirations m).
Definition add_expiration (m : CacheMetrics) : CacheMetrics :=
  mkMetrics (hits m) (misses m) (sets m) (deletes m) (evictions m) (u64 (expirations m + 1)).

Definition with_metrics (c : Cache) (f : CacheMetrics -> CacheMetrics) : Cache :=
  mkCache (capacity_ c) (tombstone_ttl_ c) (tombstones_ c) (lru_list_ c) (entries_ c)
    (next_handle c) (f (metrics_ c)).

(** ** The linked list *)

(** [*it]. *)
Definition lru_deref (h : nat) (l : list (nat * Node)) : option Node :=
  snd <$> List.find (fun p => (p.1 =? h)%nat) l.

(** [list.erase(it)]. *)
Definition lru_erase (h : nat) (l : list (nat * Node)) : list (nat * Node) :=
  List.filter (fun p => negb (p.1 =? h)%nat) l.

(** [list.splice(list.begin(), list, it)]. *)
Definition lru_splice_front (h : nat) (l : list (nat * Node)) : option (list (nat * Node)) :=
  n ← lru_deref h l; Some ((h, n) :: lru_erase h l).

(** Assignment through [it->...]. *)
Definition lru_modify (h : nat) (f : Node -> Node) (l : list (nat * Node)) : list (nat * Node) :=
  (fun p => if (p.1 =? h)%nat then (p.1, f p.2) else p) <$> l.

Definition set_entry (e : CacheEntry) (n : Node) : Node :=
  mkNode (node_key n) e (last_promoted n).
Definition set_promoted (t : Z) (n : Node) : Node :=
  mkNode (node_key n) (node_entry n) t.

(** ** Operations *)

(** The constructor. *)
Definition Cache_new (capacity tombstone_ttl : Z) : Cache :=
  mkCache capacity tombstone_ttl 0 [] ∅ 0 (mkMetrics 0 0 0 0 0 0).

(** [Cache::erase_unsafe]. *)
Definition Cache_erase_unsafe (h : nat) (c : Cache) : option Cache :=
  n ← lru_deref h (lru_list_ c);
  Some (mkCache (capacity_ c) (tombstone_ttl_ c)
          (if ce_tombstone (node_entry n) then u64 (tombstones_ c - 1) else tombstones_ c)
          (lru_erase h (lru_list_ c))
          (delete (node_key n) (entries_ c))
          (next_handle c) (metrics_ c)).

(** [Cache::evict_lru_unsafe]. *)
Definition Cache_evict_lru_unsafe (c : Cache) : option Cache :=
  match last (lru_list_ c) with
  | None => Some c
  | Some (h, _) =>
      c' ← Cache_erase_unsafe h c;
      Some (with_metrics c' add_eviction)
  end.

(** [if (capacity_ > 0 && entries_.size() >= capacity_) evict_lru_unsafe();] *)
Definition Cache_make_room (c : Cache) : option Cache :=
  if (0 <? capacity_ c) && (capacity_ c <=? Z.of_nat (size (entries_ c)))
  then Cache_evict_lru_unsafe c
  else Some c.

(** [lru_list_.emplace_front(key, e); entries_.emplace(key, lru_list_.begin());]
    [emplace] leaves an existing mapping alone. *)
Definition Cache_emplace_front (key : bytes) (e : CacheEntry) (c : Cache) : Cache :=
  mkCache (capacity_ c) (tombstone_ttl_ c) (tombstones_ c)
    ((next_handle c, mkNode key e 0) :: lru_list_ c)
    (match entries_ c !! key with
     | Some _ => entries_ c
     | None => <[key := next_handle c]> (entries_ c)
     end)
    (S (next_handle c)) (metrics_ c).

(** [Cache::set]. *)
Definition Cache_set (now : Z) (key value : bytes) (ttl : option Z) (c : Cache) : option Cache :=
  let expires_at := (fun ms => now + ms * ns_per_ms) <$> ttl in
  let c := with_metrics c add_set in
  match entries_ c !! key with
  | Some h =>
      n ← lru_deref h (lru_list_ c);
      let tombs := if ce_tombstone (node_entry n) then u64 (tombstones_ c - 1)
                   else tombstones_ c in
      l ← lru_splice_front h
            (lru_modify h (set_entry (mkEntry value expires_at 0 false)) (lru_list_ c));
      Some (mkCache (capacity_ c) (tombstone_ttl_ c) tombs l (entries_ c)
              (next_handle c) (metrics_ c))
  | None =>
      c' ← Cache_make_room c;
      Some (Cache_emplace_front key (mkEntry value expires_at 0 false) c')
  end.

(** The first critical section of [Cache::get], under the shared lock: the
    value read, and whether the entry is due for promotion. *)
Definition Cache_get_shared (now : Z) (key : bytes) (c : Cache)
    : option (Cache * option (bytes * bool)) :=
  match entries_ c !! key with
  | None => Some (with_metrics c add_miss, None)
  | Some h =>
      n ← lru_deref h (lru_list_ c);
      if is_live (node_entry n) now then
        let fresh := negb (last_promoted n =? 0)
                     && (now - last_promoted n <? kPromoteInterval * ns_per_ms) in
        Some (with_metrics c add_hit, Some (ce_value (node_entry n), negb fresh))
      else Some (with_metrics c add_miss, None)
  end.

(** The second critical section of [Cache::get], under the exclusive lock. *)
Definition Cache_get_promote (now : Z) (key : bytes) (c : Cache) : option Cache :=
  match entries_ c !! key with
  | None => Some c
  | Some h =>
      l ← lru_splice_front h (lru_list_ c);
      Some (mkCache (capacity_ c) (tombstone_ttl_ c) (tombstones_ c)
              (lru_modify h (set_promoted now) l) (entries_ c) (next_handle c) (metrics_ c))
  end.

(** [Cache::get] when no other thread runs between its two sections. *)
Definition Cache_get (now : Z) (key : bytes) (c : Cache) : option (Cache * option bytes) :=
  '(c1, r) ← Cache_get_shared now key c;
  match r with
  | None => Some (c1, None)
  | Some (v, false) => Some (c1, Some v)
  | Some (v, true) => c2 ← Cache_get_promote now key c1; Some (c2, Some v)
  end.

(** [Cache::remove]. *)
Definition Cache_remove (now : Z) (key : bytes) (c : Cache) : option (Cache * bool) :=
  match entries_ c !! key with
  | None => Some (c, false)
  | Some h =>
      n ← lru_deref h (lru_list_ c);
      c' ← Cache_erase_unsafe h c;
      Some (with_metrics c' add_delete, is_live (node_entry n) now)
  end.

(** [Cache::contains]. *)
Definition Cache_contains (now : Z) (key : bytes) (c : Cache) : option bool :=
  match entries_ c !! key with
  | None => Some false
  | Some h => n ← lru_deref h (lru_list_ c); Some (is_live (node_entry n) now)
  end.

(** The deadline [Cache::apply] gives a replicated write. *)
Definition apply_expiry (now tombstone_ttl : Z) (v : VersionedValue) : option Z :=
  if vv_tombstone v then Some (now + tombstone_ttl * ns_per_ms)
  else (fun ms => now + ms * ns_per_ms) <$> vv_ttl v.

(** [Cache::apply]: whether the store changed, and whether the key was visible
    to reads before. *)
Definition Cache_apply (now : Z) (key : bytes) (v : VersionedValue) (c : Cache)
    : option (Cache * bool * bool) :=
  let e' := mkEntry (vv_value v) (apply_expiry now (tombstone_ttl_ c) v)
              (vv_version v) (vv_tombstone v) in
  match entries_ c !! key with
  | Some h =>
      n ← lru_deref h (lru_list_ c);
      let e := node_entry n in
      let was_live := is_live e now in
      if negb (is_expired e now) &&
         negb (supersedes (vv_version v) (vv_tombstone v) (vv_value v) e)
      then Some (c, false, was_live)
      else
        let t1 := if ce_tombstone e then u64 (tombstones_ c - 1) else tombstones_ c in
        let t2 := if vv_tombstone v then u64 (t1 + 1) else t1 in
        l ← lru_splice_front h (lru_modify h (set_entry e') (lru_list_ c));
        Some (with_metrics
                (mkCache (capacity_ c) (tombstone_ttl_ c) t2 l (entries_ c)
                   (next_handle c) (metrics_ c)) add_set, true, was_live)
  | None =>
      c1 ← Cache_make_room c;
      let c2 := Cache_emplace_front key e' c1 in
      let t := if vv_tombstone v then u64 (tombstones_ c2 + 1) else tombstones_ c2 in
      Some (with_metrics
              (mkCache (capacity_ c2) (tombstone_ttl_ c2) t (lru_list_ c2) (entries_ c2)
                 (next_handle c2) (metrics_ c2)) add_set, true, false)
  end.

(** The versioned view of an unexpired entry, as [get_versioned] and [snapshot]
    build it: the remaining time is truncated to milliseconds. *)
Definition versioned_of_entry (now : Z) (e : CacheEntry) : VersionedValue :=
  mkVV (ce_value e) (ce_version e) (ce_tombstone e)
    (if ce_tombstone e then None
     else (fun t => Z.quot (t - now) ns_per_ms) <$> ce_expires_at e).

(** [Cache::get_versioned]. *)
Definition Cache_get_versioned (now : Z) (key : bytes) (c : Cache)
    : option (Cache * option VersionedValue) :=
  match entries_ c !! key with
  | None => Some (with_metrics c add_miss, None)
  | Some h =>
      n ← lru_deref h (lru_list_ c);
      let e := node_entry n in
      if is_expired e now then Some (with_metrics c add_miss, None)
      else Some (with_metrics c (if ce_tombstone e then add_miss else add_hit),
                 Some (versioned_of_entry now e))
  end.

(** [Cache::snapshot], appending to [out]. *)
Definition Cache_snapshot (now : Z) (c : Cache) (out : list (bytes * VersionedValue))
    : list (bytes * VersionedValue) :=
  out ++ ((fun p => (node_key p.2, versioned_of_entry now (node_entry p.2)))
          <$> List.filter (fun p => negb (is_expired (node_entry p.2) now)) (lru_list_ c)).

(** [Cache::size]: [size_t] subtraction. *)
Definition Cache_size (c : Cache) : Z := u64 (Z.of_nat (size (entries_ c)) - tombstones_ c).

(** [Cache::capacity]. *)
Definition Cache_capacity (c : Cache) : Z := capacity_ c.

(** [Cache::clear]. *)
Definition Cache_clear (c : Cache) : Cache :=
  mkCache (capacity_ c) (tombstone_ttl_ c) 0 [] ∅ (next_handle c) (metrics_ c).

(** [Cache::expire]. *)
Definition Cache_expire (now : Z) (key : bytes) (ttl : Z) (c : Cache) : option (Cache * bool) :=
  match entries_ c !! key with
  | None => Some (c, false)
  | Some h =>
      n ← lru_deref h (lru_list_ c);
      let e := node_entry n in
      if ce_tombstone e then Some (c, false)
      else if is_expired e now then
        c' ← Cache_erase_unsafe h c;
        Some (with_metrics c' add_expiration, false)
      else
        let e' := mkEntry (ce_value e) (Some (now + ttl * ns_per_ms)) (ce_version e)
                    (ce_tombstone e) in
        Some (mkCache (capacity_ c) (tombstone_ttl_ c) (tombstones_ c)
                (lru_modify h (set_entry e') (lru_list_ c)) (entries_ c)
                (next_handle c) (metrics_ c), true)
  end.

(** [Cache::ttl], in seconds. *)
Definition Cache_ttl (now : Z) (key : bytes) (c : Cache) : option (option Z) :=
  match entries_ c !! key with
  | None => Some None
  | Some h =>
      n ← lru_deref h (lru_list_ c);
      if negb (is_live (node_entry n) now) then Some None
      else match ce_expires_at (node_entry n) with
           | None => Some None
           | Some t =>
               let diff := Z.quot (t - now) ns_per_s in
               Some (Some (if 0 <=? diff then diff else 0))
           end
  end.

(** [Cache::pttl], in milliseconds. *)
Definition Cache_pttl (now : Z) (key : bytes) (c : Cache) : option Z :=
  match entries_ c !! key with
  | None => Some (-2)
  | Some h =>
      n ← lru_deref h (lru_list_ c);
      if negb (is_live (node_entry n) now) then Some (-2)
      else match ce_expires_at (node_entry n) with
           | None => Some (-1)
           | Some t => Some (Z.quot (t - now) ns_per_ms)
           end
  end.

(** The loop of [Cache::purge_expired]: [it] walks the list it started on while
    nodes are unlinked behind it. *)
Fixpoint purge_loop (now : Z) (it : list (nat * Node)) (c : Cache) : Cache :=
  match it with
  | [] => c
  | (h, n) :: rest =>
      purge_loop now rest
        (if is_expired (node_entry n) now then
           mkCache (capacity_ c) (tombstone_ttl_ c)
             (if ce_tombstone (node_entry n) then u64 (tombstones_ c - 1) else tombstones_ c)
             (lru_erase h (lru_list_ c)) (delete (node_key n) (entries_ c))
             (next_handle c) (add_expiration (metrics_ c))
         else c)
  end.

(** [Cache::purge_expired]. *)
Definition Cache_purge_expired (now : Z) (c : Cache) : Cache :=
  purge_loop now (lru_list_ c) c.
