(* ===== verification/CacheSpec.v ===== *)
(** * What a shard promises: the abstract LRU store

    The abstract store is the list of nodes, most recently used first, with one
    node per key; there is no index, no iterator and no counter to keep
    consistent.  [CacheRefine] proves that the shard of src/cache.cpp implements
    it. *)

From S2P Require Import Prelude CacheEntry Cache.

Local Open Scope Z_scope.

Record LruStore := mkStore {
  sp_capacity : Z;
  sp_tombstone_ttl : Z;
  sp_nodes : list Node
}.

Definition with_nodes (s : LruStore) (ns : list Node) : LruStore :=
  mkStore (sp_capacity s) (sp_tombstone_ttl s) ns.

Definition sp_find (k : bytes) (ns : list Node) : option Node :=
  List.find (fun n => bytes_eqb (node_key n) k) ns.

Definition sp_drop (k : bytes) (ns : list Node) : list Node :=
  List.filter (fun n => negb (bytes_eqb (node_key n) k)) ns.

(** At capacity, the least recently used node goes. *)
Definition sp_room (cap : Z) (ns : list Node) : list Node :=
  if (0 <? cap) && (cap <=? Z.of_nat (length ns)) then removelast ns else ns.

(** Stores [e] under [k] as the most recently used entry. *)
Definition sp_put (k : bytes) (e : CacheEntry) (s : LruStore) : LruStore :=
  with_nodes s
    match sp_find k (sp_nodes s) with
    | Some n => set_entry e n :: sp_drop k (sp_nodes s)
    | None => mkNode k e 0 :: sp_room (sp_capacity s) (sp_nodes s)
    end.

(** Tombstones among the nodes. *)
Fixpoint tomb_count (ns : list Node) : Z :=
  match ns with
  | [] => 0
  | n :: ns' => (if ce_tombstone (node_entry n) then 1 else 0) + tomb_count ns'
  end.

(** ** The operations of a shard, as one type *)

(** One critical section.  [OpGetShared] and [OpGetPromote] are the two halves
    of [Cache::get], which other threads can interleave with; [OpGet] is the
    whole call run undisturbed. *)
Inductive CacheOp :=
  | OpSet (k v : bytes) (ttl : option Z)
  | OpGetShared (k : bytes)
  | OpGetPromote (k : bytes)
  | OpGet (k : bytes)
  | OpRemove (k : bytes)
  | OpContains (k : bytes)
  | OpApply (k : bytes) (v : VersionedValue)
  | OpGetVersioned (k : bytes)
  | OpSnapshot
  | OpSize
  | OpCapacity
  | OpClear
  | OpExpire (k : bytes) (ttl : Z)
  | OpTtl (k : bytes)
  | OpPttl (k : bytes)
  | OpPurgeExpired.

Inductive CacheReply :=
  | RUnit
  | RBool (b : bool)
  | RApplied (changed was_live : bool)
  | RShared (r : option (bytes * bool))
  | RValue (r : option bytes)
  | RVersioned (r : option VersionedValue)
  | RSnapshot (l : list (bytes * VersionedValue))
  | RSeconds (r : option Z)
  | RInt (z : Z).

(** Runs a critical section on the shard of src/cache.cpp. *)
Definition Cache_exec (now : Z) (op : CacheOp) (c : Cache) : option (Cache * CacheReply) :=
  match op with
  | OpSet k v ttl => c' ← Cache_set now k v ttl c; Some (c', RUnit)
  | OpGetShared k => '(c', r) ← Cache_get_shared now k c; Some (c', RShared r)
  | OpGetPromote k => c' ← Cache_get_promote now k c; Some (c', RUnit)
  | OpGet k => '(c', r) ← Cache_get now k c; Some (c', RValue r)
  | OpRemove k => '(c', b) ← Cache_remove now k c; Some (c', RBool b)
  | OpContains k => b ← Cache_contains now k c; Some (c, RBool b)
  | OpApply k v => '(c', b, w) ← Cache_apply now k v c; Some (c', RApplied b w)
  | OpGetVersioned k => '(c', r) ← Cache_get_versioned now k c; Some (c', RVersioned r)
  | OpSnapshot => Some (c, RSnapshot (Cache_snapshot now c []))
  | OpSize => Some (c, RInt (Cache_size c))
  | OpCapacity => Some (c, RInt (Cache_capacity c))
  | OpClear => Some (Cache_clear c, RUnit)
  | OpExpire k ttl => '(c', b) ← Cache_expire now k ttl c; Some (c', RBool b)
  | OpTtl k => r ← Cache_ttl now k c; Some (c, RSeconds r)
  | OpPttl k => r ← Cache_pttl now k c; Some (c, RInt r)
  | OpPurgeExpired => Some (Cache_purge_expired now c, RUnit)
  end.

(** ** The abstract operations *)

Definition store_get_shared (now : Z) (k : bytes) (s : LruStore) : option (bytes * bool) :=
  match sp_find k (sp_nodes s) with
  | Some n =>
      if is_live (node_entry n) now then
        Some (ce_value (node_entry n),
              (last_promoted n =? 0)
              || (kPromoteInterval * ns_per_ms <=? now - last_promoted n))
      else None
  | None => None
  end.

Definition store_get_promote (now : Z) (k : bytes) (s : LruStore) : LruStore :=
  match sp_find k (sp_nodes s) with
  | Some n => with_nodes s (set_promoted now n :: sp_drop k (sp_nodes s))
  | None => s
  end.

(** The entry a reader of [k] sees: present, not expired, not a tombstone. *)
Definition store_live (now : Z) (k : bytes) (s : LruStore) : option CacheEntry :=
  match sp_find k (sp_nodes s) with
  | Some n => if is_live (node_entry n) now then Some (node_entry n) else None
  | None => None
  end.

(** The unexpired entry of [k], tombstones included. *)
Definition store_unexpired (now : Z) (k : bytes) (s : LruStore) : option CacheEntry :=
  match sp_find k (sp_nodes s) with
  | Some n => if is_expired (node_entry n) now then None else Some (node_entry n)
  | None => None
  end.

Definition applied_entry (now : Z) (v : VersionedValue) (s : LruStore) : CacheEntry :=
  mkEntry (vv_value v) (apply_expiry now (sp_tombstone_ttl s) v) (vv_version v) (vv_tombstone v).

(** Last writer wins against what is stored and has not expired. *)
Definition store_apply (now : Z) (k : bytes) (v : VersionedValue) (s : LruStore)
    : LruStore * bool :=
  match store_unexpired now k s with
  | Some e =>
      if stamp_gtb (stamp_of_vv v) (stamp_of_entry e)
      then (sp_put k (applied_entry now v s) s, true)
      else (s, false)
  | None => (sp_put k (applied_entry now v s) s, true)
  end.

Definition store_purge (now : Z) (s : LruStore) : LruStore :=
  with_nodes s (List.filter (fun n => negb (is_expired (node_entry n) now)) (sp_nodes s)).

Definition store_exec (now : Z) (op : CacheOp) (s : LruStore) : LruStore * CacheReply :=
  match op with
  | OpSet k v ttl =>
      (sp_put k (mkEntry v ((fun ms => now + ms * ns_per_ms) <$> ttl) 0 false) s, RUnit)
  | OpGetShared k => (s, RShared (store_get_shared now k s))
  | OpGetPromote k => (store_get_promote now k s, RUnit)
  | OpGet k =>
      (match store_get_shared now k s with
       | Some (_, true) => store_get_promote now k s
       | _ => s
       end, RValue (ce_value <$> store_live now k s))
  | OpRemove k =>
      (with_nodes s (sp_drop k (sp_nodes s)), RBool (bool_decide (is_Some (store_live now k s))))
  | OpContains k => (s, RBool (bool_decide (is_Some (store_live now k s))))
  | OpApply k v =>
      let '(s', b) := store_apply now k v s in
      (s', RApplied b (bool_decide (is_Some (store_live now k s))))
  | OpGetVersioned k => (s, RVersioned (versioned_of_entry now <$> store_unexpired now k s))
  | OpSnapshot =>
      (s, RSnapshot ((fun n => (node_key n, versioned_of_entry now (node_entry n)))
                     <$> sp_nodes (store_purge now s)))
  | OpSize => (s, RInt (u64 (Z.of_nat (length (sp_nodes s)) - tomb_count (sp_nodes s))))
  | OpCapacity => (s, RInt (sp_capacity s))
  | OpClear => (with_nodes s [], RUnit)
  | OpExpire k ttl =>
      match sp_find k (sp_nodes s) with
      | Some n =>
          let e := node_entry n in
          if ce_tombstone e then (s, RBool false)
          else if is_expired e now then (with_nodes s (sp_drop k (sp_nodes s)), RBool false)
          else
            (with_nodes s
               ((fun m => if bytes_eqb (node_key m) k
                          then set_entry (mkEntry (ce_value e) (Some (now + ttl * ns_per_ms))
                                            (ce_version e) false) m
                          else m) <$> sp_nodes s), RBool true)
      | None => (s, RBool false)
      end
  | OpTtl k =>
      (s, RSeconds (match store_live now k s with
                    | Some e => (fun t => (t - now) / ns_per_s) <$> ce_expires_at e
                    | None => None
                    end))
  | OpPttl k =>
      (s, RInt (match store_live now k s with
                | Some e => match ce_expires_at e with
                            | Some t => (t - now) / ns_per_ms
                            | None => -1
                            end
                | None => -2
                end))
  | OpPurgeExpired => (store_purge now s, RUnit)
  end.
