(* ===== verification/CacheRefine.v ===== *)
(** * The shard implements the abstract LRU store

    The representation invariant of src/cache.cpp, and the simulation of every
    critical section by the abstract store of [CacheSpec]. *)

From S2P Require Import Prelude CacheEntry Cache CacheSpec.

Local Open Scope Z_scope.

(** ** The representation invariant *)

(** The hash index that belongs to a list. *)
Definition index_of (l : list (nat * Node)) : gmap bytes nat :=
  list_to_map ((fun p => (node_key p.2, p.1)) <$> l).

Definition keys_of (l : list (nat * Node)) : list bytes := (fun p => node_key p.2) <$> l.

Record cache_wf (c : Cache) : Prop := mkWf {
  wf_handles : NoDup (lru_list_ c).*1;
  wf_fresh : Forall (fun p => (p.1 < next_handle c)%nat) (lru_list_ c);
  wf_keys : NoDup (keys_of (lru_list_ c));
  wf_index : entries_ c = index_of (lru_list_ c);
  wf_tombs : tombstones_ c = u64 (tomb_count (lru_list_ c).*2);
  wf_cap : 0 < capacity_ c -> Z.of_nat (length (lru_list_ c)) <= capacity_ c
}.

(** The abstraction function. *)
Definition cache_abs (c : Cache) : LruStore :=
  mkStore (capacity_ c) (tombstone_ttl_ c) (lru_list_ c).*2.

(** ** Lists split at one node *)

(** [l] is [l1 ++ (h, n) :: l2], and neither [h] nor the key of [n] occurs
    elsewhere. *)
Record split_at (l l1 : list (nat * Node)) (h : nat) (n : Node) (l2 : list (nat * Node)) : Prop := {
  sa_eq : l = l1 ++ (h, n) :: l2;
  sa_h1 : h ∉ l1.*1;
  sa_h2 : h ∉ l2.*1;
  sa_k1 : node_key n ∉ keys_of l1;
  sa_k2 : node_key n ∉ keys_of l2
}.

Arguments sa_eq {_ _ _ _ _} _.
Arguments sa_h1 {_ _ _ _ _} _.
Arguments sa_h2 {_ _ _ _ _} _.
Arguments sa_k1 {_ _ _ _ _} _.
Arguments sa_k2 {_ _ _ _ _} _.

Lemma split_at_intro l h n :
  NoDup l.*1 -> NoDup (keys_of l) -> (h, n) ∈ l -> exists l1 l2, split_at l l1 h n l2.
Proof.
  intros Hh Hk (l1 & l2 & ->)%list_elem_of_split.
  exists l1, l2. unfold keys_of in *.
  rewrite fmap_app, fmap_cons in Hh. rewrite fmap_app, fmap_cons in Hk. simpl in *.
  apply NoDup_app in Hh as (_ & Hd & [H2 _]%NoDup_cons).
  apply NoDup_app in Hk as (_ & Hd' & [H2' _]%NoDup_cons).
  split; try done.
  - intros Hin. apply (Hd h Hin). by left.
  - intros Hin. apply (Hd' _ Hin). by left.
Qed.

Lemma split_unique (pre l1 : list (nat * Node)) x it l2 :
  pre ++ x :: it = l1 ++ x :: l2 -> x.1 ∉ pre.*1 -> x.1 ∉ l1.*1 -> l1 = pre /\ l2 = it.
Proof.
  revert l1. induction pre as [|p pre IH]; intros [|q l1] E Hp Hq; simpl in *;
    injection E; clear E.
  - done.
  - intros _ <-. exfalso. apply Hq. by left.
  - intros _ ->. exfalso. apply Hp. by left.
  - intros E <-. destruct (IH l1 E) as [-> ->]; set_solver.
Qed.

Lemma find_app_skip {A} (f : A -> bool) (l1 l2 : list A) :
  (forall x, x ∈ l1 -> f x = false) -> List.find f (l1 ++ l2) = List.find f l2.
Proof.
  induction l1 as [|x l1 IH]; intros H; [done|]. simpl.
  rewrite (H x) by (by left). apply IH. intros y Hy. apply H. by right.
Qed.

Lemma filter_all {A} (f : A -> bool) (l : list A) :
  (forall x, x ∈ l -> f x = true) -> List.filter f l = l.
Proof.
  induction l as [|x l IH]; intros H; [done|]. simpl.
  rewrite (H x) by (by left). f_equal. apply IH. intros y Hy. apply H. by right.
Qed.

Lemma fmap_id_in {A} (f : A -> A) (l : list A) : (forall x, x ∈ l -> f x = x) -> f <$> l = l.
Proof.
  induction l as [|x l IH]; intros H; [done|]. rewrite fmap_cons.
  rewrite (H x) by (by left). f_equal. apply IH. intros y Hy. apply H. by right.
Qed.

Lemma handle_neq (l : list (nat * Node)) h p : h ∉ l.*1 -> p ∈ l -> (p.1 =? h)%nat = false.
Proof.
  intros Hh Hp. apply Nat.eqb_neq. intros <-. apply Hh.
  apply list_elem_of_fmap. eauto.
Qed.

Lemma key_neq (l : list (nat * Node)) k m : k ∉ keys_of l -> m ∈ l.*2 -> bytes_eqb (node_key m) k = false.
Proof.
  intros Hk (p & -> & Hp)%list_elem_of_fmap. apply bool_decide_eq_false. intros <-.
  apply Hk. apply list_elem_of_fmap. eauto.
Qed.

Section split.
Context {l l1 l2 : list (nat * Node)} {h : nat} {n : Node}.
Context (S : split_at l l1 h n l2).

Lemma split_deref : lru_deref h l = Some n.
Proof.
  unfold lru_deref. rewrite (sa_eq S), find_app_skip.
  - simpl. by rewrite Nat.eqb_refl.
  - intros p Hp. by apply (handle_neq l1), Hp; apply S.
Qed.

Lemma split_erase : lru_erase h l = l1 ++ l2.
Proof.
  unfold lru_erase. rewrite (sa_eq S), List.filter_app. simpl.
  rewrite Nat.eqb_refl. simpl. f_equal; apply filter_all; intros p Hp.
  - by rewrite (handle_neq _ _ _ (sa_h1 S) Hp).
  - by rewrite (handle_neq _ _ _ (sa_h2 S) Hp).
Qed.

Lemma split_splice_front : lru_splice_front h l = Some ((h, n) :: l1 ++ l2).
Proof. unfold lru_splice_front. by rewrite split_deref, <-split_erase. Qed.

Lemma split_modify f : lru_modify h f l = l1 ++ (h, f n) :: l2.
Proof.
  unfold lru_modify. rewrite (sa_eq S), fmap_app, fmap_cons. simpl.
  rewrite Nat.eqb_refl. f_equal; [|f_equal]; apply fmap_id_in; intros p Hp.
  - by rewrite (handle_neq _ _ _ (sa_h1 S) Hp).
  - by rewrite (handle_neq _ _ _ (sa_h2 S) Hp).
Qed.

Lemma split_sp_find : sp_find (node_key n) l.*2 = Some n.
Proof.
  unfold sp_find. rewrite (sa_eq S), fmap_app, find_app_skip.
  - simpl. unfold bytes_eqb. by rewrite bool_decide_eq_true_2.
  - intros p Hp. by apply (key_neq l1), Hp; apply S.
Qed.

Lemma split_sp_drop : sp_drop (node_key n) l.*2 = (l1 ++ l2).*2.
Proof.
  unfold sp_drop. rewrite (sa_eq S), !fmap_app, List.filter_app. simpl.
  unfold bytes_eqb at 2. rewrite bool_decide_eq_true_2 by done. simpl.
  f_equal; apply filter_all; intros p Hp.
  - by rewrite (key_neq _ _ _ (sa_k1 S) Hp).
  - by rewrite (key_neq _ _ _ (sa_k2 S) Hp).
Qed.

Lemma split_replace n' : node_key n' = node_key n ->
  split_at (l1 ++ (h, n') :: l2) l1 h n' l2.
Proof. destruct S. intros E. by split; rewrite ?E. Qed.

End split.

(** ** The hash index *)

Lemma index_lookup l k h :
  NoDup (keys_of l) ->
  index_of l !! k = Some h <-> exists n, (h, n) ∈ l /\ node_key n = k.
Proof.
  intros Hk. unfold index_of.
  rewrite <-elem_of_list_to_map.
  - rewrite list_elem_of_fmap. split.
    + intros ([h' n] & [= -> ->] & Hin). eauto.
    + intros (n & Hin & <-). by exists (h, n).
  - by rewrite <-list_fmap_compose.
Qed.

Lemma index_size l : NoDup (keys_of l) -> size (index_of l) = length l.
Proof.
  intros Hk. unfold index_of. rewrite map_size_list_to_map.
  - by rewrite length_fmap.
  - by rewrite <-list_fmap_compose.
Qed.

Lemma index_lookup_None l k : index_of l !! k = None <-> k ∉ keys_of l.
Proof.
  unfold index_of. rewrite <-not_elem_of_list_to_map, <-list_fmap_compose. done.
Qed.

Lemma index_middle l1 h n l2 :
  NoDup (keys_of (l1 ++ (h, n) :: l2)) ->
  index_of (l1 ++ (h, n) :: l2) = <[node_key n := h]> (index_of (l1 ++ l2)).
Proof.
  intros Hk. change (<[node_key n := h]> (index_of (l1 ++ l2)))
    with (index_of ((h, n) :: l1 ++ l2)).
  unfold index_of. apply list_to_map_proper.
  - by rewrite <-list_fmap_compose.
  - by rewrite <-Permutation_middle.
Qed.

Lemma keys_middle l1 (p : nat * Node) l2 : keys_of (l1 ++ p :: l2) ≡ₚ node_key p.2 :: keys_of (l1 ++ l2).
Proof. unfold keys_of. by rewrite <-Permutation_middle. Qed.

Lemma tomb_count_app a b : tomb_count (a ++ b) = tomb_count a + tomb_count b.
Proof. induction a as [|n a IH]; simpl; [done|]. rewrite IH. lia. Qed.

Lemma tomb_count_bounds ns : 0 <= tomb_count ns <= Z.of_nat (length ns).
Proof. induction ns as [|n ns IH]; simpl; [lia|]. case_match; lia. Qed.

(** ** The invariant at a found key *)

Lemma wf_lookup c k h :
  cache_wf c -> entries_ c !! k = Some h ->
  exists n l1 l2, split_at (lru_list_ c) l1 h n l2 /\ node_key n = k.
Proof.
  intros W E. rewrite (wf_index c W) in E.
  apply index_lookup in E as (n & Hin & Ek); [|apply W].
  destruct (split_at_intro (lru_list_ c) h n) as (l1 & l2 & S); [apply W|apply W|done|].
  by exists n, l1, l2.
Qed.

Lemma sp_find_key k ns n : sp_find k ns = Some n -> node_key n = k.
Proof. intros H. apply List.find_some in H as [_ H]. by apply bytes_eqb_eq. Qed.

Lemma sp_find_None k l : k ∉ keys_of l -> sp_find k l.*2 = None.
Proof.
  intros Hk. unfold sp_find. rewrite <-(app_nil_r l.*2), find_app_skip; [done|].
  eauto using key_neq.
Qed.

Lemma wf_lookup_None c k :
  cache_wf c -> entries_ c !! k = None ->
  (k ∉ keys_of (lru_list_ c)) /\ (sp_find k (lru_list_ c).*2 = None).
Proof.
  intros W E. rewrite (wf_index c W) in E. apply index_lookup_None in E.
  split; [done|]. by apply sp_find_None.
Qed.

(** ** Rebuilding the invariant *)

(** Removing one node. *)
Lemma wf_erased c l1 h n l2 m :
  cache_wf c -> split_at (lru_list_ c) l1 h n l2 ->
  cache_wf (mkCache (capacity_ c) (tombstone_ttl_ c)
    (if ce_tombstone (node_entry n) then u64 (tombstones_ c - 1) else tombstones_ c)
    (l1 ++ l2) (delete (node_key n) (entries_ c)) (next_handle c) m).
Proof.
  intros [Hh Hf Hk Hi Ht Hc] S. pose proof (sa_eq S) as E. rewrite E in *.
  split; simpl.
  - rewrite fmap_app, fmap_cons in Hh. rewrite fmap_app.
    by rewrite <-Permutation_middle, NoDup_cons in Hh; destruct Hh.
  - rewrite Forall_app, Forall_cons in *. tauto.
  - by rewrite keys_middle, NoDup_cons in Hk; destruct Hk.
  - rewrite Hi, index_middle by done. apply delete_insert_id.
    apply index_lookup_None. rewrite keys_middle, NoDup_cons in Hk. apply Hk.
  - rewrite Ht, !fmap_app, fmap_cons, !tomb_count_app. simpl.
    destruct (ce_tombstone _); autorewrite with shard; f_equal; lia.
  - rewrite length_app in *. simpl in *. lia.
Qed.

(** Replacing the entry of one node and moving it to the front. *)
Lemma wf_replaced_front c l1 h n l2 n' t m :
  cache_wf c -> split_at (lru_list_ c) l1 h n l2 -> node_key n' = node_key n ->
  t = u64 (tomb_count (n' :: (l1 ++ l2).*2)) ->
  cache_wf (mkCache (capacity_ c) (tombstone_ttl_ c) t ((h, n') :: l1 ++ l2) (entries_ c)
    (next_handle c) m).
Proof.
  intros [Hh Hf Hk Hi Ht Hc] S En Et. pose proof (sa_eq S) as E. rewrite E in *.
  assert (Hk' : NoDup (keys_of ((h, n') :: l1 ++ l2))).
  { rewrite keys_middle in Hk. unfold keys_of in *. simpl. by rewrite En. }
  split; simpl.
  - rewrite fmap_app. rewrite fmap_app, fmap_cons in Hh. by rewrite <-Permutation_middle in Hh.
  - rewrite Forall_cons, Forall_app in *. rewrite Forall_cons in Hf. tauto.
  - done.
  - rewrite Hi, index_middle by done. unfold index_of. simpl. by rewrite En.
  - done.
  - rewrite !length_app in *. simpl in *. rewrite ?length_app. lia.
Qed.

(** Replacing the entry of one node in place. *)
Lemma wf_replaced c l1 h n l2 n' m :
  cache_wf c -> split_at (lru_list_ c) l1 h n l2 -> node_key n' = node_key n ->
  ce_tombstone (node_entry n') = ce_tombstone (node_entry n) ->
  cache_wf (mkCache (capacity_ c) (tombstone_ttl_ c) (tombstones_ c) (l1 ++ (h, n') :: l2)
    (entries_ c) (next_handle c) m).
Proof.
  intros [Hh Hf Hk Hi Ht Hc] S En Et. pose proof (sa_eq S) as E. rewrite E in *.
  assert (Hk' : NoDup (keys_of (l1 ++ (h, n') :: l2))).
  { rewrite keys_middle in *. simpl in *. by rewrite En. }
  split; simpl.
  - rewrite fmap_app, fmap_cons in *. done.
  - rewrite Forall_app, Forall_cons in *. done.
  - done.
  - rewrite Hi, !index_middle by done. by rewrite En.
  - rewrite Ht, !fmap_app, !fmap_cons, !tomb_count_app. simpl. by rewrite Et.
  - rewrite length_app in *. done.
Qed.

Lemma wf_with_metrics c f : cache_wf c -> cache_wf (with_metrics c f).
Proof. intros []. by split. Qed.

Lemma abs_with_metrics c f : cache_abs (with_metrics c f) = cache_abs c.
Proof. done. Qed.

(** Adding a node under a new key, with room for it. *)
Lemma wf_emplaced c k e t :
  cache_wf c -> k ∉ keys_of (lru_list_ c) ->
  (0 < capacity_ c -> Z.of_nat (length (lru_list_ c)) < capacity_ c) ->
  t = u64 ((if ce_tombstone e then 1 else 0) + tomb_count (lru_list_ c).*2) ->
  let c' := Cache_emplace_front k e c in
  cache_wf (mkCache (capacity_ c') (tombstone_ttl_ c') t (lru_list_ c') (entries_ c')
    (next_handle c') (metrics_ c')).
Proof.
  intros [Hh Hf Hk Hi Ht Hc] Hnew Hroom Et. simpl. split; simpl.
  - apply NoDup_cons. split; [|done].
    intros (p & E & Hp)%list_elem_of_fmap. rewrite Forall_forall in Hf.
    apply Hf in Hp. lia.
  - constructor; simpl; [lia|]. eapply Forall_impl; [done|]. simpl. lia.
  - by apply NoDup_cons.
  - rewrite Hi. rewrite (proj2 (index_lookup_None _ _) Hnew). done.
  - by rewrite Et.
  - lia.
Qed.

(** ** Eviction *)

Lemma last_split (l : list (nat * Node)) h n : last l = Some (h, n) -> exists l1, l = l1 ++ [(h, n)].
Proof. intros H. apply last_Some in H. done. Qed.

Lemma removelast_snoc {A} (l : list A) x : removelast (l ++ [x]) = l.
Proof. apply List.removelast_last. Qed.

(** [make_room] always succeeds, keeps the invariant, drops at most the last
    node, and leaves room for one more. *)
Lemma make_room_correct c :
  cache_wf c ->
  exists c', Cache_make_room c = Some c' /\ cache_wf c' /\
    cache_abs c' = with_nodes (cache_abs c) (sp_room (capacity_ c) (lru_list_ c).*2) /\
    (0 < capacity_ c' -> Z.of_nat (length (lru_list_ c')) < capacity_ c') /\
    (forall k, k ∉ keys_of (lru_list_ c) -> k ∉ keys_of (lru_list_ c')).
Proof.
  intros W. unfold Cache_make_room, sp_room.
  rewrite (wf_index c W), index_size, length_fmap by apply W.
  destruct (_ && _) eqn:Efull; bool_facts.
  2: { exists c. split_and!; try done.
       intros Hcap. apply andb_false_iff in Efull as [E|E]; bool_facts; lia. }
  unfold Cache_evict_lru_unsafe.
  destruct (last (lru_list_ c)) as [[h n]|] eqn:El.
  2: { apply last_None in El. rewrite El in *. simpl in *. lia. }
  apply last_split in El as (l1 & El).
  destruct (split_at_intro (lru_list_ c) h n) as (l1' & l2' & S);
    [apply W|apply W|rewrite El; set_solver|].
  unfold Cache_erase_unsafe. rewrite (split_deref S), (split_erase S). simpl.
  eexists. split; [done|]. pose proof (wf_cap c W) as Hc.
  pose proof (sa_eq S) as E.
  assert (l1' ++ l2' = l1) as E'.
  { destruct l2' as [|[h2 n2] l2' _] using rev_ind.
    - rewrite app_nil_r. rewrite El in E. by apply app_inj_tail in E as [-> _].
    - rewrite app_comm_cons, app_assoc in E. rewrite El in E.
      apply app_inj_tail in E as [_ [= -> ->]].
      destruct (sa_h2 S). rewrite fmap_app. set_solver. }
  split_and!.
  - by apply wf_with_metrics, (wf_erased c l1' h n l2').
  - rewrite abs_with_metrics. unfold cache_abs, with_nodes; simpl. f_equal.
    rewrite E', El, fmap_app. simpl. by rewrite removelast_snoc.
  - simpl. intros _. rewrite E'. rewrite El, length_app in Hc. simpl in Hc. lia.
  - intros k Hk. simpl. rewrite E in Hk. unfold keys_of in *. set_solver.
Qed.

(** ** Every critical section simulates the abstract store *)

Lemma is_live_not_expired e now : is_live e now = true -> is_expired e now = false.
Proof. unfold is_live. intros H. by bool_facts. Qed.

(** Overwriting the entry of a stored key and making it the most recent. *)
Lemma overwrite_correct c k h n l1 l2 e t m :
  cache_wf c -> split_at (lru_list_ c) l1 h n l2 -> node_key n = k ->
  t = u64 ((if ce_tombstone e then 1 else 0) + tomb_count (l1 ++ l2).*2) ->
  exists l, lru_splice_front h (lru_modify h (set_entry e) (lru_list_ c)) = Some l /\
    let c' := mkCache (capacity_ c) (tombstone_ttl_ c) t l (entries_ c) (next_handle c) m in
    cache_wf c' /\ cache_abs c' = sp_put k e (cache_abs c).
Proof.
  intros W S <- Et. rewrite (split_modify S).
  rewrite (split_splice_front (split_replace S (set_entry e n) eq_refl)).
  eexists. split; [done|]. split.
  - eapply wf_replaced_front; done.
  - unfold sp_put, cache_abs, with_nodes. simpl.
    rewrite (split_sp_find S), (split_sp_drop S). done.
Qed.

Lemma tombs_without c l1 h n l2 :
  cache_wf c -> split_at (lru_list_ c) l1 h n l2 ->
  (if ce_tombstone (node_entry n) then u64 (tombstones_ c - 1) else tombstones_ c)
  = u64 (tomb_count (l1 ++ l2).*2).
Proof.
  intros W S. rewrite (wf_tombs c W), (sa_eq S), !fmap_app, fmap_cons, !tomb_count_app.
  simpl. destruct (ce_tombstone _); autorewrite with shard; f_equal; lia.
Qed.

(** Inserting under a new key. *)
Lemma insert_correct c k e :
  cache_wf c -> entries_ c !! k = None ->
  exists c1, Cache_make_room c = Some c1 /\
    let c2 := Cache_emplace_front k e c1 in
    let t := if ce_tombstone e then u64 (tombstones_ c2 + 1) else tombstones_ c2 in
    forall f,
    let c' := with_metrics (mkCache (capacity_ c2) (tombstone_ttl_ c2) t (lru_list_ c2)
                (entries_ c2) (next_handle c2) (metrics_ c2)) f in
    cache_wf c' /\ cache_abs c' = sp_put k e (cache_abs c).
Proof.
  intros W E. destruct (make_room_correct c W) as (c1 & -> & W1 & A1 & R1 & K1).
  destruct (wf_lookup_None c k W E) as [Hk Hf].
  exists c1. split; [done|]. intros c2 t f c'. split.
  - apply wf_with_metrics, wf_emplaced; auto.
    subst t c2. simpl. rewrite (wf_tombs c1 W1).
    destruct (ce_tombstone e); autorewrite with shard; f_equal; lia.
  - unfold sp_put. simpl. rewrite Hf. injection A1 as A1c A1t A1n.
    subst c' c2. unfold cache_abs, with_nodes. simpl. rewrite A1c, A1t. by rewrite <-A1n.
Qed.

Lemma set_correct now k v ttl c :
  cache_wf c ->
  exists c', Cache_set now k v ttl c = Some c' /\ cache_wf c' /\
    cache_abs c' =
      sp_put k (mkEntry v ((fun ms => now + ms * ns_per_ms) <$> ttl) 0 false) (cache_abs c).
Proof.
  intros W. unfold Cache_set. set (e := mkEntry _ _ _ _).
  change (entries_ (with_metrics c add_set)) with (entries_ c).
  destruct (entries_ c !! k) as [h|] eqn:E.
  - destruct (wf_lookup c k h W E) as (n & l1 & l2 & S & Ek). simpl.
    rewrite (split_deref S). simpl. rewrite (tombs_without c _ _ _ _ W S).
    destruct (overwrite_correct c k h n l1 l2 e (u64 (tomb_count (l1 ++ l2).*2))
      (add_set (metrics_ c)) W S Ek eq_refl) as (l & -> & W' & A'). simpl. eauto.
  - destruct (insert_correct (with_metrics c add_set) k e) as (c1 & -> & H);
      [by apply wf_with_metrics|done|]. simpl.
    specialize (H (fun m => m)). simpl in H. eauto.
Qed.

Lemma get_promote_correct now k c :
  cache_wf c ->
  exists c', Cache_get_promote now k c = Some c' /\ cache_wf c' /\
    cache_abs c' = store_get_promote now k (cache_abs c).
Proof.
  intros W. unfold Cache_get_promote, store_get_promote. simpl.
  destruct (entries_ c !! k) as [h|] eqn:E.
  - destruct (wf_lookup c k h W E) as (n & l1 & l2 & S & <-).
    rewrite (split_splice_front S), (split_sp_find S), (split_sp_drop S).
    cbn [mbind option_bind].
    assert (lru_modify h (set_promoted now) ((h, n) :: l1 ++ l2)
            = (h, set_promoted now n) :: l1 ++ l2) as Em.
    { apply (split_modify (l1 := [])). destruct S.
      split; unfold keys_of in *; simpl; rewrite ?fmap_app; set_solver. }
    rewrite Em. eexists. split; [done|]. split.
    + eapply wf_replaced_front; try done. rewrite (wf_tombs c W), (sa_eq S).
      rewrite !fmap_app, fmap_cons. simpl. rewrite !tomb_count_app. simpl. f_equal. lia.
    + done.
  - exists c. destruct (wf_lookup_None c k W E) as [_ ->]. done.
Qed.

Lemma get_shared_correct now k c :
  cache_wf c ->
  exists c', Cache_get_shared now k c = Some (c', store_get_shared now k (cache_abs c)) /\
    cache_wf c' /\ cache_abs c' = cache_abs c.
Proof.
  intros W. unfold Cache_get_shared, store_get_shared. simpl.
  destruct (entries_ c !! k) as [h|] eqn:E.
  - destruct (wf_lookup c k h W E) as (n & l1 & l2 & S & <-).
    rewrite (split_deref S), (split_sp_find S). simpl.
    destruct (is_live _ _); eexists; (split; [|split; [by apply wf_with_metrics|done]]); [|done].
    do 4 f_equal. rewrite negb_andb, negb_involutive. f_equal. by rewrite Z.ltb_antisym, negb_involutive.
  - destruct (wf_lookup_None c k W E) as [_ ->].
    eexists. split; [done|]. split; [by apply wf_with_metrics|done].
Qed.

Lemma store_live_shared now k s :
  ce_value <$> store_live now k s = fst <$> store_get_shared now k s.
Proof. unfold store_live, store_get_shared. by repeat case_match. Qed.

Lemma get_correct now k c :
  cache_wf c ->
  exists c', Cache_get now k c = Some (c', ce_value <$> store_live now k (cache_abs c)) /\
    cache_wf c' /\
    cache_abs c' = match store_get_shared now k (cache_abs c) with
                   | Some (_, true) => store_get_promote now k (cache_abs c)
                   | _ => cache_abs c
                   end.
Proof.
  intros W. unfold Cache_get. rewrite store_live_shared.
  destruct (get_shared_correct now k c W) as (c1 & -> & W1 & A1). simpl.
  destruct (store_get_shared _ _ _) as [[v []]|]; simpl; eauto.
  destruct (get_promote_correct now k c1 W1) as (c2 & -> & W2 & A2). simpl.
  rewrite A1 in A2. eauto.
Qed.

Lemma erase_correct c h n l1 l2 :
  cache_wf c -> split_at (lru_list_ c) l1 h n l2 ->
  exists c', Cache_erase_unsafe h c = Some c' /\ cache_wf c' /\
    cache_abs c' = with_nodes (cache_abs c) (sp_drop (node_key n) (lru_list_ c).*2).
Proof.
  intros W S. unfold Cache_erase_unsafe.
  rewrite (split_deref S), (split_erase S), (split_sp_drop S). simpl.
  eexists. split; [done|]. split; [|done]. by apply wf_erased with h.
Qed.

Lemma sp_drop_absent k l : k ∉ keys_of l -> sp_drop k l.*2 = l.*2.
Proof.
  intros Hk. apply filter_all. intros n Hn. by rewrite (key_neq l k n Hk Hn).
Qed.

Lemma live_decide now n :
  bool_decide (is_Some (if is_live (node_entry n) now then Some (node_entry n) else None))
  = is_live (node_entry n) now.
Proof.
  destruct (is_live _ _); [apply bool_decide_eq_true_2; eauto|].
  apply bool_decide_eq_false_2. by intros [? ?].
Qed.

Lemma remove_correct now k c :
  cache_wf c ->
  exists c', Cache_remove now k c = Some (c', bool_decide (is_Some (store_live now k (cache_abs c)))) /\
    cache_wf c' /\ cache_abs c' = with_nodes (cache_abs c) (sp_drop k (lru_list_ c).*2).
Proof.
  intros W. unfold Cache_remove, store_live. simpl.
  destruct (entries_ c !! k) as [h|] eqn:E.
  - destruct (wf_lookup c k h W E) as (n & l1 & l2 & S & <-).
    rewrite (split_deref S), (split_sp_find S), live_decide. simpl.
    destruct (erase_correct c h n l1 l2 W S) as (c' & -> & W' & A').
    simpl. eexists. split; [done|]. split; [by apply wf_with_metrics|done].
  - destruct (wf_lookup_None c k W E) as [Hk ->]. exists c. split; [done|].
    split; [done|]. by rewrite (sp_drop_absent _ _ Hk).
Qed.

Lemma contains_correct now k c :
  cache_wf c ->
  Cache_contains now k c = Some (bool_decide (is_Some (store_live now k (cache_abs c)))).
Proof.
  intros W. unfold Cache_contains, store_live. simpl.
  destruct (entries_ c !! k) as [h|] eqn:E.
  - destruct (wf_lookup c k h W E) as (n & l1 & l2 & S & <-).
    by rewrite (split_deref S), (split_sp_find S), live_decide.
  - by destruct (wf_lookup_None c k W E) as [_ ->].
Qed.

Lemma apply_correct now k v c :
  cache_wf c ->
  exists c', Cache_apply now k v c =
      Some (c', snd (store_apply now k v (cache_abs c)),
            bool_decide (is_Some (store_live now k (cache_abs c)))) /\
    cache_wf c' /\ cache_abs c' = fst (store_apply now k v (cache_abs c)).
Proof.
  intros W. unfold Cache_apply, store_apply, store_unexpired, store_live. simpl.
  set (e' := mkEntry _ _ _ _).
  change (applied_entry now v (cache_abs c)) with e'.
  destruct (entries_ c !! k) as [h|] eqn:E.
  - destruct (wf_lookup c k h W E) as (n & l1 & l2 & S & Ek). subst k.
    rewrite (split_deref S), (split_sp_find S), live_decide. simpl.
    rewrite supersedes_stamp.
    change (mkStamp (vv_version v) (vv_tombstone v) (vv_value v)) with (stamp_of_vv v).
    destruct (negb _ && negb _) eqn:G; bool_facts.
    { rewrite H, H0. eauto. }
    rewrite (tombs_without c _ _ _ _ W S).
    destruct (overwrite_correct c (node_key n) h n l1 l2 e'
      (if vv_tombstone v then u64 (u64 (tomb_count (l1 ++ l2).*2) + 1)
       else u64 (tomb_count (l1 ++ l2).*2)) (add_set (metrics_ c)) W S eq_refl)
      as (l & -> & W' & A').
    { simpl. destruct (vv_tombstone v); autorewrite with shard; f_equal; lia. }
    simpl. destruct (is_expired _ _); [eauto|]. simpl in G.
    destruct (stamp_gtb _ _); [eauto|done].
  - destruct (wf_lookup_None c k W E) as [_ ->].
    destruct (insert_correct c k e' W E) as (c1 & -> & H). simpl.
    specialize (H add_set). simpl in H. eauto.
Qed.

Lemma get_versioned_correct now k c :
  cache_wf c ->
  exists c', Cache_get_versioned now k c =
      Some (c', versioned_of_entry now <$> store_unexpired now k (cache_abs c)) /\
    cache_wf c' /\ cache_abs c' = cache_abs c.
Proof.
  intros W. unfold Cache_get_versioned, store_unexpired. simpl.
  destruct (entries_ c !! k) as [h|] eqn:E.
  - destruct (wf_lookup c k h W E) as (n & l1 & l2 & S & <-).
    rewrite (split_deref S), (split_sp_find S). simpl.
    destruct (is_expired _ _); eexists;
      (split; [done|split; [by apply wf_with_metrics|done]]).
  - destruct (wf_lookup_None c k W E) as [_ ->].
    eexists. split; [done|]. split; [by apply wf_with_metrics|done].
Qed.

Lemma snapshot_correct now c :
  Cache_snapshot now c [] =
  (fun n => (node_key n, versioned_of_entry now (node_entry n)))
    <$> sp_nodes (store_purge now (cache_abs c)).
Proof.
  unfold Cache_snapshot, store_purge. simpl.
  induction (lru_list_ c) as [|[h n] l IH]; [done|]. simpl.
  destruct (is_expired _ _); simpl; [done|]. by f_equal.
Qed.

Lemma size_correct c :
  cache_wf c ->
  Cache_size c = u64 (Z.of_nat (length (sp_nodes (cache_abs c))) - tomb_count (sp_nodes (cache_abs c))).
Proof.
  intros W. unfold Cache_size. simpl.
  rewrite (wf_index c W), index_size, (wf_tombs c W), length_fmap by apply W.
  by autorewrite with shard.
Qed.

Lemma clear_correct c : cache_wf c -> cache_wf (Cache_clear c) /\ cache_abs (Cache_clear c) = with_nodes (cache_abs c) [].
Proof. intros []. split; [|done]. split; simpl; try done; try constructor. lia. Qed.

Lemma fmap_update_split k (f : Node -> Node) l l1 h n l2 :
  split_at l l1 h n l2 -> node_key n = k ->
  (fun m => if bytes_eqb (node_key m) k then f m else m) <$> l.*2 = (l1 ++ (h, f n) :: l2).*2.
Proof.
  intros S <-. rewrite (sa_eq S), !fmap_app, !fmap_cons. simpl.
  unfold bytes_eqb at 2. rewrite bool_decide_eq_true_2 by done.
  f_equal; [|f_equal]; apply fmap_id_in; intros m Hm.
  - by rewrite (key_neq _ _ _ (sa_k1 S) Hm).
  - by rewrite (key_neq _ _ _ (sa_k2 S) Hm).
Qed.

Lemma expire_correct now k ttl c :
  cache_wf c ->
  exists c' b, Cache_expire now k ttl c = Some (c', b) /\ cache_wf c' /\
    store_exec now (OpExpire k ttl) (cache_abs c) = (cache_abs c', RBool b).
Proof.
  intros W. unfold Cache_expire. cbn [store_exec cache_abs sp_nodes].
  destruct (entries_ c !! k) as [h|] eqn:E.
  - destruct (wf_lookup c k h W E) as (n & l1 & l2 & S & Ek).
    rewrite (split_deref S), <-Ek, (split_sp_find S). cbn [mbind option_bind].
    destruct (ce_tombstone (node_entry n)) eqn:Et; [eauto|].
    destruct (is_expired (node_entry n) now) eqn:Ex.
    + destruct (erase_correct c h n l1 l2 W S) as (c' & -> & W' & A'). simpl.
      eexists _, _. split; [done|]. split; [by apply wf_with_metrics|].
      by rewrite abs_with_metrics, A'.
    + set (e' := mkEntry _ _ _ _). eexists _, _. split; [done|].
      rewrite (split_modify S). split.
      * by eapply wf_replaced.
      * f_equal. rewrite (fmap_update_split _ (set_entry e') _ _ _ _ _ S eq_refl). done.
  - destruct (wf_lookup_None c k W E) as [_ ->]. eauto.
Qed.

Lemma quot_div_live t now u : now < t -> 0 < u -> Z.quot (t - now) u = (t - now) / u.
Proof. intros. apply Z.quot_div_nonneg; lia. Qed.

Lemma live_deadline e now t : is_live e now = true -> ce_expires_at e = Some t -> now < t.
Proof.
  intros H E. apply is_live_not_expired in H. unfold is_expired in H.
  rewrite E in H. by bool_facts.
Qed.

Lemma ttl_correct now k c :
  cache_wf c ->
  Cache_ttl now k c =
  Some (match store_live now k (cache_abs c) with
        | Some e => (fun t => (t - now) / ns_per_s) <$> ce_expires_at e
        | None => None
        end).
Proof.
  intros W. unfold Cache_ttl, store_live. simpl.
  destruct (entries_ c !! k) as [h|] eqn:E.
  - destruct (wf_lookup c k h W E) as (n & l1 & l2 & S & <-).
    rewrite (split_deref S), (split_sp_find S). simpl.
    destruct (is_live _ _) eqn:L; simpl; [|done].
    destruct (ce_expires_at _) as [t|] eqn:Et; [|done]. simpl.
    pose proof (live_deadline _ _ _ L Et).
    rewrite quot_div_live by (unfold ns_per_s; lia).
    rewrite (proj2 (Z.leb_le _ _)); [done|]. apply Z.div_pos; unfold ns_per_s; lia.
  - by destruct (wf_lookup_None c k W E) as [_ ->].
Qed.

Lemma pttl_correct now k c :
  cache_wf c ->
  Cache_pttl now k c =
  Some (match store_live now k (cache_abs c) with
        | Some e => match ce_expires_at e with
                    | Some t => (t - now) / ns_per_ms
                    | None => -1
                    end
        | None => -2
        end).
Proof.
  intros W. unfold Cache_pttl, store_live. simpl.
  destruct (entries_ c !! k) as [h|] eqn:E.
  - destruct (wf_lookup c k h W E) as (n & l1 & l2 & S & <-).
    rewrite (split_deref S), (split_sp_find S). simpl.
    destruct (is_live _ _) eqn:L; simpl; [|done].
    destruct (ce_expires_at _) as [t|] eqn:Et; [|done]. simpl.
    pose proof (live_deadline _ _ _ L Et).
    rewrite quot_div_live by (unfold ns_per_ms; lia). done.
  - by destruct (wf_lookup_None c k W E) as [_ ->].
Qed.

(** The sweep: with [pre] already visited and kept, and [it] still to visit. *)
Lemma purge_loop_correct now it pre c :
  cache_wf c -> lru_list_ c = pre ++ it ->
  cache_wf (purge_loop now it c) /\
  cache_abs (purge_loop now it c) =
    with_nodes (cache_abs c)
      (pre.*2 ++ List.filter (fun n => negb (is_expired (node_entry n) now)) it.*2).
Proof.
  revert pre c. induction it as [|[h n] it IH]; intros pre c W El; simpl.
  { split; [done|]. unfold cache_abs, with_nodes. simpl. by rewrite El, fmap_app. }
  destruct (split_at_intro (lru_list_ c) h n) as (l1 & l2 & S);
    [apply W|apply W|rewrite El; set_solver|].
  assert (l1 = pre /\ l2 = it) as [-> ->].
  { pose proof (sa_eq S) as E. rewrite El in E. pose proof (wf_handles c W) as Hh.
    rewrite El, fmap_app, fmap_cons in Hh. apply NoDup_app in Hh as (_ & Hd & _).
    apply (split_unique pre l1 (h, n)); [done| |apply S].
    intros Hin. apply (Hd h Hin). by left. }
  destruct (is_expired (node_entry n) now) eqn:Ex; simpl.
  - rewrite (split_erase S).
    destruct (IH pre (mkCache (capacity_ c) (tombstone_ttl_ c)
      (if ce_tombstone (node_entry n) then u64 (tombstones_ c - 1) else tombstones_ c)
      (pre ++ it) (delete (node_key n) (entries_ c)) (next_handle c)
      (add_expiration (metrics_ c)))) as [W' A']; [|done|].
    + by apply wf_erased with h.
    + split; [done|]. rewrite A'. done.
  - destruct (IH (pre ++ [(h, n)]) c W) as [W' A']; [by rewrite El, <-app_assoc|].
    split; [done|]. rewrite A', fmap_app, <-app_assoc. done.
Qed.

Lemma purge_correct now c :
  cache_wf c ->
  cache_wf (Cache_purge_expired now c) /\
  cache_abs (Cache_purge_expired now c) = store_purge now (cache_abs c).
Proof. intros W. by destruct (purge_loop_correct now (lru_list_ c) [] c W eq_refl). Qed.

(** The whole simulation, one critical section at a time. *)
Lemma exec_correct now op c :
  cache_wf c ->
  exists c', Cache_exec now op c = Some (c', snd (store_exec now op (cache_abs c))) /\
    cache_wf c' /\ cache_abs c' = fst (store_exec now op (cache_abs c)).
Proof.
  intros W. destruct op; simpl.
  - destruct (set_correct now k v ttl c W) as (c' & -> & H). eauto.
  - destruct (get_shared_correct now k c W) as (c' & -> & H). simpl. eauto.
  - destruct (get_promote_correct now k c W) as (c' & -> & H). eauto.
  - destruct (get_correct now k c W) as (c' & -> & H). simpl. eauto.
  - destruct (remove_correct now k c W) as (c' & -> & H). simpl. eauto.
  - rewrite (contains_correct now k c W). simpl. eauto.
  - destruct (apply_correct now k v c W) as (c' & -> & H). simpl.
    destruct (store_apply _ _ _ _). eauto.
  - destruct (get_versioned_correct now k c W) as (c' & -> & H). simpl. eauto.
  - rewrite snapshot_correct. eauto.
  - rewrite (size_correct c W). eauto.
  - eauto.
  - destruct (clear_correct c W). eauto.
  - destruct (expire_correct now k ttl c W) as (c' & b & -> & W' & A'). simpl in *.
    rewrite A'. eauto.
  - rewrite (ttl_correct now k c W). simpl. eauto.
  - rewrite (pttl_correct now k c W). simpl. eauto.
  - destruct (purge_correct now c W). eauto.
Qed.

Lemma new_wf cap ttl : 0 <= cap -> cache_wf (Cache_new cap ttl).
Proof. intros H. split; simpl; try done; try constructor. Qed.

#[export] Hint Resolve new_wf wf_with_metrics : shard.
