(* ===== verification/CacheProps.v ===== *)
(** * What the shard guarantees

    Consequences of the refinement of [CacheRefine], stated of the operations of
    src/cache.cpp: safety of every interleaving of critical sections, the shape
    of the LRU list and its index, last-writer-wins convergence, time to live,
    exact LRU order, and the invisibility of the sweep. *)

From S2P Require Import Prelude CacheEntry Cache CacheSpec CacheRefine.

Local Open Scope Z_scope.

(** ** Traces *)

(** A sequence of critical sections, from any threads, each with its own clock
    reading. *)
Fixpoint Cache_run (tr : list (Z * CacheOp)) (c : Cache) : option (Cache * list CacheReply) :=
  match tr with
  | [] => Some (c, [])
  | (now, op) :: tr' =>
      '(c1, r) ← Cache_exec now op c;
      '(c2, rs) ← Cache_run tr' c1;
      Some (c2, r :: rs)
  end.

Fixpoint store_run (tr : list (Z * CacheOp)) (s : LruStore) : LruStore * list CacheReply :=
  match tr with
  | [] => (s, [])
  | (now, op) :: tr' =>
      let '(s1, r) := store_exec now op s in
      let '(s2, rs) := store_run tr' s1 in
      (s2, r :: rs)
  end.

Lemma run_correct tr c :
  cache_wf c ->
  exists c', Cache_run tr c = Some (c', snd (store_run tr (cache_abs c))) /\
    cache_wf c' /\ cache_abs c' = fst (store_run tr (cache_abs c)).
Proof.
  revert c. induction tr as [|[now op] tr IH]; intros c W; simpl; [eauto|].
  destruct (exec_correct now op c W) as (c1 & -> & W1 & A1). simpl.
  destruct (IH c1 W1) as (c2 & -> & W2 & A2). simpl. rewrite A1 in *.
  destruct (store_exec _ _ _) as [s1 r]. simpl in *.
  destruct (store_run tr s1) as [s2 rs]. simpl in *. eauto.
Qed.

Lemma store_run_cons now op tr s :
  fst (store_run ((now, op) :: tr) s) = fst (store_run tr (fst (store_exec now op s))).
Proof. simpl. destruct (store_exec _ _ _) as [s1 r]. simpl. by destruct (store_run _ _). Qed.

Lemma store_exec_apply now k v s :
  fst (store_exec now (OpApply k v) s) = fst (store_apply now k v s).
Proof. simpl. by destruct (store_apply _ _ _ _). Qed.

Lemma run_new tr cap ttl :
  0 <= cap ->
  exists c, Cache_run tr (Cache_new cap ttl) =
      Some (c, snd (store_run tr (mkStore cap ttl []))) /\
    cache_wf c /\ cache_abs c = fst (store_run tr (mkStore cap ttl [])).
Proof. intros H. apply (run_correct tr (Cache_new cap ttl)). by apply new_wf. Qed.

Lemma store_exec_params now op s :
  sp_capacity (fst (store_exec now op s)) = sp_capacity s /\
  sp_tombstone_ttl (fst (store_exec now op s)) = sp_tombstone_ttl s.
Proof.
  destruct op; simpl; unfold store_get_promote, store_apply, store_purge, sp_put;
    repeat (case_match; simpl); simplify_eq/=; done.
Qed.

(** ** Lookups of the abstract store *)

Lemma sp_find_cons k n ns :
  sp_find k (n :: ns) = if bytes_eqb (node_key n) k then Some n else sp_find k ns.
Proof. done. Qed.

Lemma sp_drop_cons k n ns :
  sp_drop k (n :: ns) = if bytes_eqb (node_key n) k then sp_drop k ns else n :: sp_drop k ns.
Proof. unfold sp_drop. simpl. by destruct (bytes_eqb _ _). Qed.

Lemma sp_find_drop_ne k k' ns : k <> k' -> sp_find k (sp_drop k' ns) = sp_find k ns.
Proof.
  intros Hne. induction ns as [|n ns IH]; [done|].
  rewrite sp_drop_cons, sp_find_cons. destruct (bytes_eqb_spec (node_key n) k') as [->|].
  - by rewrite bytes_eqb_ne.
  - by rewrite sp_find_cons, IH.
Qed.

Lemma sp_find_drop_eq k ns : sp_find k (sp_drop k ns) = None.
Proof.
  induction ns as [|n ns IH]; [done|]. rewrite sp_drop_cons.
  destruct (bytes_eqb_spec (node_key n) k); [done|]. by rewrite sp_find_cons, bytes_eqb_ne.
Qed.

Lemma sp_put_find k e s :
  exists lp, sp_find k (sp_nodes (sp_put k e s)) = Some (mkNode k e lp).
Proof.
  unfold sp_put. cbn [with_nodes sp_nodes]. destruct (sp_find k (sp_nodes s)) as [n|] eqn:E.
  - pose proof (sp_find_key _ _ _ E) as <-. exists (last_promoted n).
    rewrite sp_find_cons. by rewrite bytes_eqb_refl.
  - exists 0. rewrite sp_find_cons. by rewrite bytes_eqb_refl.
Qed.

Lemma sp_put_find_ne k k' e s :
  k <> k' -> (0 < sp_capacity s -> Z.of_nat (length (sp_nodes s)) < sp_capacity s) ->
  sp_find k' (sp_nodes (sp_put k e s)) = sp_find k' (sp_nodes s).
Proof.
  intros Hne Hroom. unfold sp_put. cbn [with_nodes sp_nodes].
  destruct (sp_find k (sp_nodes s)) as [n|] eqn:E; rewrite sp_find_cons.
  - simpl. rewrite (sp_find_key _ _ _ E), bytes_eqb_ne by done. by apply sp_find_drop_ne.
  - simpl. rewrite bytes_eqb_ne by done.
    unfold sp_room. destruct (_ && _) eqn:F; [|done]. bool_facts. lia.
Qed.

Lemma sp_drop_length k ns : (length (sp_drop k ns) <= length ns)%nat.
Proof. apply List.filter_length_le. Qed.

Lemma sp_put_length k e s : (length (sp_nodes (sp_put k e s)) <= S (length (sp_nodes s)))%nat.
Proof.
  unfold sp_put. simpl. case_match; simpl.
  - pose proof (sp_drop_length k (sp_nodes s)). lia.
  - unfold sp_room. case_match; [|done]. rewrite removelast_firstn_len.
    rewrite List.firstn_length. lia.
Qed.

(** ** Last-writer-wins convergence *)

(** The stamp a reader of the replica protocol gets for a key. *)
Definition cache_view (now : Z) (k : bytes) (c : Cache) : option Stamp :=
  '(_, r) ← Cache_get_versioned now k c; stamp_of_vv <$> r.

(** A replicated write: arrival time, key, value. *)
Record Write := mkWrite { w_time : Z; w_key : bytes; w_val : VersionedValue }.

Definition apply_op (w : Write) : Z * CacheOp := (w_time w, OpApply (w_key w) (w_val w)).

(** The largest of two optional stamps. *)
Definition ostamp_max (a b : option Stamp) : option Stamp :=
  match a, b with
  | Some x, Some y => Some (stamp_max x y)
  | Some x, None => Some x
  | None, b => b
  end.

(** The winner among the writes to [k]. *)
Definition lww_winner (k : bytes) (ws : list Write) : option Stamp :=
  foldr (fun w acc => if bytes_eqb (w_key w) k then ostamp_max (Some (stamp_of_vv (w_val w))) acc
                      else acc) None ws.

Lemma ostamp_max_comm a b : ostamp_max a b = ostamp_max b a.
Proof. destruct a, b; simpl; try done. by rewrite stamp_max_comm. Qed.

Lemma ostamp_max_assoc a b c : ostamp_max a (ostamp_max b c) = ostamp_max (ostamp_max a b) c.
Proof. destruct a, b, c; simpl; try done. by rewrite stamp_max_assoc. Qed.

Arguments ostamp_max : simpl never.

Lemma lww_winner_app k a b : lww_winner k (a ++ b) = ostamp_max (lww_winner k a) (lww_winner k b).
Proof.
  induction a as [|w a IH]; simpl; [done|].
  case_match; [|done]. by rewrite IH, ostamp_max_assoc.
Qed.

(** The winner does not depend on arrival order or arrival times. *)
Lemma lww_winner_perm k ws ws' :
  ((fun w => (w_key w, w_val w)) <$> ws) ≡ₚ ((fun w => (w_key w, w_val w)) <$> ws') ->
  lww_winner k ws = lww_winner k ws'.
Proof.
  set (f := fun p acc => if bytes_eqb (fst p) k
                         then ostamp_max (Some (stamp_of_vv (snd p))) acc else acc).
  assert (forall l, lww_winner k l = foldr f None ((fun w => (w_key w, w_val w)) <$> l)) as Hf.
  { intros l. induction l as [|w l IH]; [done|]. simpl. by rewrite IH. }
  intros P. rewrite !Hf. apply (foldr_permutation (=) f); [apply _| |done].
  intros j1 a1 j2 a2 b _ _ _. unfold f.
  destruct (bytes_eqb a1.1 k), (bytes_eqb a2.1 k); try done.
  by rewrite !ostamp_max_assoc, (ostamp_max_comm (Some _) (Some _)).
Qed.

(** Writes that arrive within one tombstone lifetime and carry no TTL. *)
Definition write_in_window (t0 t1 : Z) (w : Write) : Prop :=
  t0 <= w_time w <= t1 /\ vv_ttl (w_val w) = None.

(** Nothing stored expires before the end of the window. *)
Definition unexpiring (t1 : Z) (ns : list Node) : Prop :=
  Forall (fun n => forall t, ce_expires_at (node_entry n) = Some t -> t1 < t) ns.

Lemma unexpiring_find t1 ns k n t :
  unexpiring t1 ns -> sp_find k ns = Some n -> t <= t1 -> is_expired (node_entry n) t = false.
Proof.
  intros U F Ht. apply List.find_some in F as [F _]. unfold unexpiring in U.
  rewrite Forall_forall in U. apply list_elem_of_In in F. specialize (U n F).
  unfold is_expired. destruct (ce_expires_at _) as [d|] eqn:E; [|done].
  apply Z.leb_gt. specialize (U d eq_refl). lia.
Qed.

Lemma unexpiring_put t1 k e s :
  unexpiring t1 (sp_nodes s) -> (forall t, ce_expires_at e = Some t -> t1 < t) ->
  unexpiring t1 (sp_nodes (sp_put k e s)).
Proof.
  intros U He. unfold sp_put, unexpiring in *. simpl. case_match; constructor; simpl; try done.
  - unfold sp_drop. rewrite Forall_forall in *. intros m Hm.
    apply list_elem_of_In, List.filter_In in Hm as [Hm _]. by apply U, list_elem_of_In.
  - unfold sp_room. case_match; [|done]. rewrite removelast_firstn_len. by apply Forall_take.
Qed.

Definition store_view (t : Z) (k : bytes) (s : LruStore) : option Stamp :=
  stamp_of_entry <$> store_unexpired t k s.

Lemma cache_view_store t k c : cache_wf c -> cache_view t k c = store_view t k (cache_abs c).
Proof.
  intros W. unfold cache_view, store_view.
  destruct (get_versioned_correct t k c W) as (c' & -> & _). simpl.
  by destruct (store_unexpired _ _ _).
Qed.

(** One replicated write joins its stamp into the view. *)
Lemma store_apply_view t0 t1 w s :
  write_in_window t0 t1 w -> t1 < t0 + sp_tombstone_ttl s * ns_per_ms ->
  unexpiring t1 (sp_nodes s) ->
  (0 < sp_capacity s -> Z.of_nat (length (sp_nodes s)) < sp_capacity s) ->
  let s' := fst (store_apply (w_time w) (w_key w) (w_val w) s) in
  unexpiring t1 (sp_nodes s') /\ (length (sp_nodes s') <= S (length (sp_nodes s)))%nat /\
  sp_capacity s' = sp_capacity s /\ sp_tombstone_ttl s' = sp_tombstone_ttl s /\
  forall k, store_view t1 k s' =
    if bytes_eqb (w_key w) k then ostamp_max (store_view t1 k s) (Some (stamp_of_vv (w_val w)))
    else store_view t1 k s.
Proof.
  intros [Ht Httl] Hwin U Hroom. unfold store_apply.
  set (e' := applied_entry _ _ _).
  assert (He' : forall t, ce_expires_at e' = Some t -> t1 < t).
  { unfold e', applied_entry, apply_expiry. simpl. rewrite Httl.
    destruct (vv_tombstone _); simpl; [|done]. intros t [= <-]. lia. }
  assert (Ex' : is_expired e' t1 = false).
  { unfold is_expired. destruct (ce_expires_at e') eqn:E; [|done].
    apply Z.leb_gt. by apply He'. }
  assert (Hput : forall k, store_view t1 k (sp_put (w_key w) e' s) =
    if bytes_eqb (w_key w) k then Some (stamp_of_vv (w_val w)) else store_view t1 k s).
  { intros k. unfold store_view at 1, store_unexpired.
    destruct (bytes_eqb_spec (w_key w) k) as [Hk|Hk].
    - subst k. destruct (sp_put_find (w_key w) e' s) as (lp & ->). simpl. by rewrite Ex'.
    - rewrite sp_put_find_ne by done. done. }
  assert (Hun : store_unexpired (w_time w) (w_key w) s = store_unexpired t1 (w_key w) s).
  { unfold store_unexpired. destruct (sp_find _ _) as [n|] eqn:F; [|done].
    rewrite (unexpiring_find t1 _ _ _ _ U F), (unexpiring_find t1 _ _ _ _ U F) by lia. done. }
  rewrite Hun. destruct (store_unexpired t1 (w_key w) s) as [e|] eqn:E.
  2: { simpl. split_and!; try done; try apply sp_put_length; [by apply unexpiring_put|].
       intros k. rewrite Hput.
       destruct (bytes_eqb_spec (w_key w) k) as [Hk|Hk]; [|done]. subst k.
       unfold store_view, ostamp_max. by rewrite E. }
  destruct (stamp_gtb _ _) eqn:G; simpl.
  - split_and!; try done; try apply sp_put_length; [by apply unexpiring_put|].
       intros k. rewrite Hput.
    destruct (bytes_eqb_spec (w_key w) k) as [Hk|Hk]; [|done]. subst k.
    unfold store_view, ostamp_max, stamp_max. rewrite E. simpl. by rewrite G.
  - split_and!; auto. intros k. destruct (bytes_eqb_spec (w_key w) k) as [Hk|Hk]; [|done]. subst k.
    unfold store_view, ostamp_max, stamp_max. rewrite E. simpl. by rewrite G.
Qed.

(** One write joins its stamp into the view, and reports a change exactly when
    the view changed. *)
Lemma store_apply_joins now k v s :
  0 < sp_tombstone_ttl s -> (forall ms, vv_ttl v = Some ms -> 0 < ms) ->
  let '(s', b) := store_apply now k v s in
  store_view now k s' = ostamp_max (store_view now k s) (Some (stamp_of_vv v)) /\
  b = bool_decide (store_view now k s' <> store_view now k s).
Proof.
  intros Ht Hv.
  assert (P : store_view now k (sp_put k (applied_entry now v s) s) = Some (stamp_of_vv v)).
  { unfold store_view, store_unexpired. destruct (sp_put_find k (applied_entry now v s) s) as (lp & ->).
    cbn [node_entry].
    assert (is_expired (applied_entry now v s) now = false) as ->; [|done].
    unfold is_expired, applied_entry, apply_expiry. cbn [ce_expires_at].
    destruct (vv_tombstone v); [apply Z.leb_gt; unfold ns_per_ms; lia|].
    destruct (vv_ttl v) as [ms|]; [|done]. specialize (Hv ms eq_refl).
    apply Z.leb_gt. unfold ns_per_ms. lia. }
  unfold store_apply. destruct (store_unexpired now k s) as [e|] eqn:F.
  - assert (V : store_view now k s = Some (stamp_of_entry e)) by (unfold store_view; by rewrite F).
    rewrite V. unfold ostamp_max, stamp_max. destruct (stamp_gtb _ _) eqn:G.
    + rewrite P. split; [done|]. symmetry. apply bool_decide_eq_true_2. intros Heq.
      apply (inj Some) in Heq. rewrite Heq, stamp_gtb_irrefl in G. done.
    + rewrite V. split; [done|]. symmetry. apply bool_decide_eq_false_2. auto.
  - assert (V : store_view now k s = None) by (unfold store_view; by rewrite F).
    rewrite P, V. split; [done|]. symmetry. by apply bool_decide_eq_true_2.
Qed.

(** A run of replicated writes joins all their stamps. *)
Lemma store_run_view t0 t1 ws s :
  Forall (write_in_window t0 t1) ws -> t1 < t0 + sp_tombstone_ttl s * ns_per_ms ->
  unexpiring t1 (sp_nodes s) ->
  (0 < sp_capacity s -> Z.of_nat (length (sp_nodes s) + length ws) <= sp_capacity s) ->
  forall k, store_view t1 k (fst (store_run (apply_op <$> ws) s)) =
    ostamp_max (store_view t1 k s) (lww_winner k ws).
Proof.
  revert s. induction ws as [|w ws IH]; intros s Hws Hwin U Hroom k.
  { unfold ostamp_max. simpl. by destruct (store_view t1 k s). }
  inversion_clear Hws as [|? ? Hw Hws'].
  destruct (store_apply_view t0 t1 w s Hw Hwin U) as (U' & L' & Ec & Et & V').
  { intros Hc. specialize (Hroom Hc). simpl in Hroom. lia. }
  rewrite fmap_cons. unfold apply_op at 1. rewrite store_run_cons, store_exec_apply.
  rewrite IH; try done.
  - rewrite V'. simpl. destruct (bytes_eqb _ k); [|done]. by rewrite <-ostamp_max_assoc.
  - by rewrite Et.
  - rewrite Ec. intros Hc. specialize (Hroom Hc). simpl in Hroom. lia.
Qed.

Lemma run_writes_view cap ttl t0 t1 ws :
  0 <= cap -> Forall (write_in_window t0 t1) ws -> t1 < t0 + ttl * ns_per_ms ->
  (0 < cap -> Z.of_nat (length ws) <= cap) ->
  exists c rs, Cache_run (apply_op <$> ws) (Cache_new cap ttl) = Some (c, rs) /\
    forall k, cache_view t1 k c = lww_winner k ws.
Proof.
  intros Hc Hws Hwin Hroom.
  destruct (run_new (apply_op <$> ws) cap ttl Hc) as (c & -> & W & A).
  eexists _, _. split; [done|]. intros k. rewrite (cache_view_store _ _ _ W), A.
  rewrite (store_run_view t0 t1); try done. constructor.
Qed.

(** ** Exact LRU order *)

(** The latest write per key, most recent first; the argument is the list of
    writes, most recent first. *)
Definition latest_writes (kvs : list (bytes * bytes)) : list (bytes * bytes) := dedup_by fst kvs.

(** A write without a TTL. *)
Definition set_op (p : Z * (bytes * bytes)) : Z * CacheOp :=
  let '(now, (k, v)) := p in (now, OpSet k v None).

Definition node_pair (n : Node) : bytes * bytes := (node_key n, ce_value (node_entry n)).

(** The contents of a shard, most recently used first. *)
Definition cache_contents (c : Cache) : list (bytes * bytes) :=
  (fun p => node_pair p.2) <$> lru_list_ c.

Lemma pairs_sp_drop k ns :
  node_pair <$> sp_drop k ns = filter (fun p => p.1 <> k) (node_pair <$> ns).
Proof.
  induction ns as [|n ns IH]; [done|]. rewrite sp_drop_cons, fmap_cons, filter_cons.
  change (node_pair n).1 with (node_key n).
  destruct (bytes_eqb_spec (node_key n) k).
  - rewrite decide_False by tauto. done.
  - rewrite decide_True by done. by rewrite fmap_cons, IH.
Qed.

Lemma sp_find_pairs k ns : is_Some (sp_find k ns) <-> k ∈ (node_pair <$> ns).*1.
Proof.
  rewrite <-list_fmap_compose. induction ns as [|n ns IH].
  - split; [by intros []|set_solver].
  - rewrite sp_find_cons, fmap_cons. cbn. destruct (bytes_eqb_spec (node_key n) k) as [<-|Hne].
    + split; [by left|eauto].
    + rewrite IH, elem_of_cons. naive_solver.
Qed.

Lemma removelast_take {A} (l : list A) m :
  (m <= length l)%nat -> removelast (take m l) = take (pred m) l.
Proof.
  intros H. rewrite removelast_firstn_len, length_take, take_take. f_equal. lia.
Qed.

Section lru.
Context (k v : bytes).

Local Abbreviation other := (fun p : bytes * bytes => p.1 <> k).

Lemma other_id (l : list (bytes * bytes)) : k ∉ l.*1 -> filter other l = l.
Proof.
  induction l as [|p l IH]; intros H; [done|]. rewrite fmap_cons in H.
  rewrite filter_cons, decide_True by set_solver. f_equal. apply IH. set_solver.
Qed.

Lemma other_split (A B : list (bytes * bytes)) x :
  k ∉ A.*1 -> k ∉ B.*1 -> filter other (A ++ (k, x) :: B) = A ++ B.
Proof.
  intros HA HB. rewrite filter_app, filter_cons, decide_False by (simpl; tauto).
  by rewrite !other_id.
Qed.

(** Moving [k] to the front of the kept prefix is keeping a prefix of the list
    with [k] moved to its front. *)
Lemma take_touch (F : list (bytes * bytes)) m :
  NoDup F.*1 -> (0 < m)%nat ->
  (k, v) :: (if bool_decide (k ∈ (take m F).*1) then filter other (take m F)
             else if (m <=? length (take m F))%nat then removelast (take m F) else take m F)
  = take m ((k, v) :: filter other F).
Proof.
  intros ND Hm. destruct m as [|m]; [lia|]. simpl (take (S m) (_ :: _)). f_equal.
  destruct (decide (k ∈ F.*1)) as [HF|HF].
  - apply list_elem_of_fmap in HF as ([k' x] & Ek & HF). simpl in Ek. subst k'.
    apply list_elem_of_split in HF as (A & B & ->).
    rewrite fmap_app, fmap_cons in ND. apply NoDup_app in ND as (_ & HA & [HB _]%NoDup_cons).
    assert (HA' : k ∉ A.*1) by (intros Hin; apply (HA k Hin); by left).
    simpl in HB. rewrite (other_split A B x HA' HB).
    destruct (decide (length A <= m)%nat) as [Hl|Hl].
    + rewrite !(take_app_ge A) by lia. replace (S m - length A)%nat with (S (m - length A)) by lia.
      simpl. rewrite bool_decide_eq_true_2 by (rewrite fmap_app; set_solver).
      rewrite other_split; [done|done|]. intros Hin. apply HB.
      rewrite <-(take_drop (m - length A) B), fmap_app. set_solver.
    + rewrite !(take_app_le A) by lia.
      rewrite bool_decide_eq_false_2.
      2: { intros Hin. apply HA'. rewrite <-(take_drop (S m) A), fmap_app. set_solver. }
      rewrite (proj2 (Nat.leb_le _ _)) by (rewrite length_take; lia).
      by rewrite removelast_take by lia.
  - rewrite bool_decide_eq_false_2.
    2: { intros Hin. apply HF. rewrite <-(take_drop (S m) F), fmap_app. set_solver. }
    rewrite (other_id F HF). destruct (Nat.leb_spec (S m) (length (take (S m) F))) as [H|H];
      rewrite length_take in H.
    + by rewrite removelast_take by lia.
    + by rewrite !take_ge by lia.
Qed.

End lru.

Lemma store_run_app a b s :
  fst (store_run (a ++ b) s) = fst (store_run b (fst (store_run a s))).
Proof.
  revert s. induction a as [|[now op] a IH]; intros s; [done|].
  rewrite <-app_comm_cons, !store_run_cons. apply IH.
Qed.

Lemma store_set_contents cap ttl ps :
  0 < cap ->
  let s := fst (store_run (set_op <$> ps) (mkStore cap ttl [])) in
  sp_capacity s = cap /\
  (node_pair <$> sp_nodes s) = take (Z.to_nat cap) (latest_writes (reverse ps.*2)).
Proof.
  intros Hc. induction ps as [|[now [k v]] ps IH] using rev_ind; simpl.
  { split; [done|]. by rewrite take_nil. }
  rewrite !fmap_app, store_run_app, reverse_app. simpl.
  destruct IH as [Ec En]. set (s := fst (store_run (set_op <$> ps) _)) in *. split; [done|].
  rewrite <-(take_touch k v _ (Z.to_nat cap)) by (try apply (dedup_by_NoDup fst); lia).
  rewrite <-En. pose proof (sp_find_pairs k (sp_nodes s)) as HF.
  destruct (sp_find k (sp_nodes s)) as [n|] eqn:F.
  - rewrite bool_decide_eq_true_2 by (apply HF; eauto). rewrite fmap_cons, pairs_sp_drop.
    unfold node_pair at 1. simpl. by rewrite (sp_find_key _ _ _ F).
  - rewrite bool_decide_eq_false_2 by (rewrite <-HF; by intros []).
    rewrite fmap_cons, length_fmap. f_equal. unfold sp_room. rewrite Ec.
    rewrite (proj2 (Z.ltb_lt _ _) Hc). simpl.
    destruct (Z.leb_spec cap (Z.of_nat (length (sp_nodes s))));
      destruct (Nat.leb_spec (Z.to_nat cap) (length (sp_nodes s))); try lia; [|done].
    rewrite !removelast_firstn_len, fmap_take, length_fmap. done.
Qed.

(** ** The sweep *)

Lemma sp_find_filter (f : Node -> bool) k ns :
  NoDup (node_key <$> ns) ->
  sp_find k (List.filter f ns) =
  match sp_find k ns with Some n => if f n then Some n else None | None => None end.
Proof.
  induction ns as [|n ns IH]; intros ND; [done|]. rewrite fmap_cons in ND.
  apply NoDup_cons in ND as [Hn ND]. rewrite sp_find_cons. simpl.
  destruct (bytes_eqb_spec (node_key n) k) as [<-|Hne].
  - destruct (f n); [by rewrite sp_find_cons, bytes_eqb_refl|].
    rewrite IH by done. destruct (sp_find (node_key n) ns) as [m|] eqn:F; [|done].
    exfalso. apply Hn, list_elem_of_fmap. exists m. split; [by rewrite (sp_find_key _ _ _ F)|].
    apply List.find_some in F as [F _]. by apply list_elem_of_In.
  - destruct (f n); [|by apply IH]. rewrite sp_find_cons, bytes_eqb_ne by done. by apply IH.
Qed.

Lemma expired_mono e now t : now <= t -> is_expired e now = true -> is_expired e t = true.
Proof. unfold is_expired. intros H. destruct (ce_expires_at e); [|done]. rewrite !Z.leb_le. lia. Qed.

Lemma wf_node_keys c : cache_wf c -> NoDup (node_key <$> (lru_list_ c).*2).
Proof. intros W. rewrite <-list_fmap_compose. apply (wf_keys c W). Qed.

Lemma purge_unexpired now t k c :
  cache_wf c -> now <= t ->
  store_unexpired t k (store_purge now (cache_abs c)) = store_unexpired t k (cache_abs c).
Proof.
  intros W Ht. unfold store_unexpired, store_purge. simpl.
  rewrite (sp_find_filter _ _ _ (wf_node_keys c W)).
  destruct (sp_find k _) as [n|]; [|done].
  destruct (is_expired (node_entry n) now) eqn:E; [|done]. simpl.
  by rewrite (expired_mono _ _ _ Ht E).
Qed.

Lemma store_live_unexpired t k s :
  store_live t k s =
  match store_unexpired t k s with
  | Some e => if ce_tombstone e then None else Some e
  | None => None
  end.
Proof.
  unfold store_live, store_unexpired, is_live. destruct (sp_find k _) as [n|]; [|done].
  destruct (is_expired _ _), (ce_tombstone _) eqn:E; simpl; rewrite ?E; done.
Qed.

Lemma purge_live now t k c :
  cache_wf c -> now <= t ->
  store_live t k (store_purge now (cache_abs c)) = store_live t k (cache_abs c).
Proof. intros W Ht. by rewrite !store_live_unexpired, purge_unexpired. Qed.

(** The operations that read one key without changing the order. *)
Inductive is_read (k : bytes) : CacheOp -> Prop :=
  | read_get : is_read k (OpGet k)
  | read_versioned : is_read k (OpGetVersioned k)
  | read_contains : is_read k (OpContains k)
  | read_ttl : is_read k (OpTtl k)
  | read_pttl : is_read k (OpPttl k).

Definition reply_of (now : Z) (op : CacheOp) (c : Cache) : option CacheReply :=
  snd <$> Cache_exec now op c.

Lemma reply_store now op c :
  cache_wf c -> reply_of now op c = Some (snd (store_exec now op (cache_abs c))).
Proof. intros W. unfold reply_of. by destruct (exec_correct now op c W) as (c' & -> & _). Qed.

(** The keys visible to readers at [now]. *)
Definition live_nodes (now : Z) (c : Cache) : list (nat * Node) :=
  List.filter (fun p => is_live (node_entry p.2) now) (lru_list_ c).

Lemma live_count now ns :
  Z.of_nat (length (List.filter (fun n => negb (is_expired (node_entry n) now)) ns))
  - tomb_count (List.filter (fun n => negb (is_expired (node_entry n) now)) ns)
  = Z.of_nat (length (List.filter (fun n => is_live (node_entry n) now) ns)).
Proof.
  induction ns as [|n ns IH]; [done|]. simpl. unfold is_live at 1.
  destruct (is_expired _ _) eqn:Ex, (ce_tombstone (node_entry n)) eqn:Et; simpl;
    rewrite ?Et; simpl; lia.
Qed.

(** ** The theorems *)



(** On every reachable shard the hash index and the LRU list agree: every
    indexed iterator points to a node of its key, every node is indexed, the
    sizes agree, a bounded shard is within its capacity, and the tombstone
    counter counts the stored tombstones. *)
Theorem cache_index_consistent (cap ttl : Z) (tr : list (Z * CacheOp)) :
  0 <= cap ->
  exists c rs, Cache_run tr (Cache_new cap ttl) = Some (c, rs) /\
    (forall k h, entries_ c !! k = Some h ->
       exists n, lru_deref h (lru_list_ c) = Some n /\ node_key n = k) /\
    (forall h n, (h, n) ∈ lru_list_ c -> entries_ c !! node_key n = Some h) /\
    size (entries_ c) = length (lru_list_ c) /\
    (0 < cap -> Z.of_nat (size (entries_ c)) <= cap) /\
    tombstones_ c = u64 (tomb_count (lru_list_ c).*2).
Proof.
  intros H. destruct (run_new tr cap ttl H) as (c & E & W & A).
  assert (Ecap : capacity_ c = cap).
  { change (sp_capacity (cache_abs c) = cap). rewrite A. clear E W A H c.
    cut (forall s, sp_capacity (fst (store_run tr s)) = sp_capacity s); [intros ->; done|].
    induction tr as [|[now op] tr IH]; intros s; [done|].
    rewrite store_run_cons, IH. apply store_exec_params. }
  eexists _, _. split; [exact E|]. split_and!.
  - intros k h Hk. destruct (wf_lookup c k h W Hk) as (n & l1 & l2 & S & Ek).
    exists n. split; [apply (split_deref S)|done].
  - intros h n Hin. rewrite (wf_index c W). apply index_lookup; [apply W|eauto].
  - rewrite (wf_index c W). apply index_size, W.
  - intros Hc. rewrite (wf_index c W), index_size, <-Ecap by apply W. apply (wf_cap c W). lia.
  - apply W.
Qed.

Lemma cache_index_consistent_witness :
  exists c rs, Cache_run [(1, OpSet (lit "a") (lit "1") None); (2, OpSet (lit "b") (lit "2") None)]
                 (Cache_new 1 60000) = Some (c, rs) /\ size (entries_ c) = 1%nat.
Proof.
  destruct (cache_index_consistent 1 60000
    [(1, OpSet (lit "a") (lit "1") None); (2, OpSet (lit "b") (lit "2") None)])
    as (c & rs & E & _ & _ & Es & _ & _); [lia|].
  exists c, rs. split; [exact E|]. rewrite Es. vm_compute in E. injection E as <- _. reflexivity.
Defined.



(** A replicated write never undoes a newer one: after [apply] the shard
    holds the larger, in the last-writer-wins order, of what it held and what
    was written, and [apply] reports a change exactly when what it holds
    changed. *)
Theorem cache_apply_joins (now : Z) (k : bytes) (v : VersionedValue) (c : Cache) :
  cache_wf c -> 0 < tombstone_ttl_ c -> (forall ms, vv_ttl v = Some ms -> 0 < ms) ->
  exists c' changed was_live, Cache_apply now k v c = Some (c', changed, was_live) /\
    cache_wf c' /\
    cache_view now k c' = ostamp_max (cache_view now k c) (Some (stamp_of_vv v)) /\
    changed = bool_decide (cache_view now k c' <> cache_view now k c).
Proof.
  intros W Ht Hv. destruct (apply_correct now k v c W) as (c' & E & W' & A').
  eexists c', _, _. split; [exact E|]. split; [done|].
  rewrite !cache_view_store, A' by done. pose proof (store_apply_joins now k v (cache_abs c) Ht Hv).
  by destruct (store_apply _ _ _ _).
Qed.

Lemma cache_apply_joins_witness :
  exists c' changed was_live,
    Cache_apply 0 (lit "k") (mkVV (lit "v") 3 false (Some 5)) (Cache_new 4 60000)
      = Some (c', changed, was_live) /\
    cache_view 0 (lit "k") c' = Some (mkStamp 3 false (lit "v")) /\ changed = true.
Proof.
  destruct (cache_apply_joins 0 (lit "k") (mkVV (lit "v") 3 false (Some 5)) (Cache_new 4 60000))
    as (c' & b & w & E & _ & V & B).
  - apply new_wf. lia.
  - simpl. lia.
  - simpl. intros ms [= <-]. lia.
  - exists c', b, w. split; [exact E|]. rewrite B, V. split; reflexivity.
Defined.

(** A value set with a time to live is returned by [get] until the
    deadline and never afterwards; without one it does not expire. *)
Theorem cache_set_get_ttl (now t : Z) (k v : bytes) (ttl : option Z) (c : Cache) :
  cache_wf c ->
  exists c1 c2 r, Cache_set now k v ttl c = Some c1 /\ Cache_get t k c1 = Some (c2, r) /\
    r = match ttl with
        | None => Some v
        | Some ms => if t <? now + ms * ns_per_ms then Some v else None
        end.
Proof.
  intros W. destruct (set_correct now k v ttl c W) as (c1 & E1 & W1 & A1).
  destruct (get_correct t k c1 W1) as (c2 & E2 & _). eexists c1, c2, _. split; [done|].
  split; [done|]. rewrite A1. unfold store_live.
  match goal with |- context [sp_put k ?e ?s] => destruct (sp_put_find k e s) as (lp & ->) end.
  unfold is_live, is_expired. simpl. destruct ttl as [ms|]; simpl; [|done].
  rewrite <-Z.ltb_antisym. by destruct (_ <? _).
Qed.

Lemma cache_set_get_ttl_witness :
  exists c1 c2 r, Cache_set 0 (lit "k") (lit "v") (Some 10) (Cache_new 4 60000) = Some c1 /\
    Cache_get 10000000 (lit "k") c1 = Some (c2, r) /\ r = None.
Proof.
  destruct (cache_set_get_ttl 0 10000000 (lit "k") (lit "v") (Some 10) (Cache_new 4 60000))
    as (c1 & c2 & r & E & G & R); [apply new_wf; lia|].
  exists c1, c2, r. split; [exact E|]. split; [exact G|]. rewrite R. reflexivity.
Defined.

(** Eviction is exactly LRU: after any sequence of writes to a shard of
    capacity [cap], it holds the latest value of the [cap] most recently
    written distinct keys, most recent first, and nothing else. *)
Theorem cache_lru_exact (cap ttl : Z) (ps : list (Z * (bytes * bytes))) :
  0 < cap ->
  exists c rs, Cache_run (set_op <$> ps) (Cache_new cap ttl) = Some (c, rs) /\
    cache_contents c = take (Z.to_nat cap) (latest_writes (reverse ps.*2)).
Proof.
  intros Hc. destruct (run_new (set_op <$> ps) cap ttl) as (c & E & W & A); [lia|].
  eexists _, _. split; [exact E|].
  destruct (store_set_contents cap ttl ps Hc) as [_ En]. rewrite <-En, <-A.
  unfold cache_contents, cache_abs. simpl. by rewrite <-list_fmap_compose.
Qed.

Lemma cache_lru_exact_witness :
  exists c rs, Cache_run (set_op <$> [(1, (lit "a", lit "1")); (2, (lit "b", lit "2"));
                                      (3, (lit "a", lit "3")); (4, (lit "c", lit "4"))])
                 (Cache_new 2 60000) = Some (c, rs) /\
    cache_contents c = [(lit "c", lit "4"); (lit "a", lit "3")].
Proof.
  destruct (cache_lru_exact 2 60000 [(1, (lit "a", lit "1")); (2, (lit "b", lit "2"));
                                     (3, (lit "a", lit "3")); (4, (lit "c", lit "4"))])
    as (c & rs & E & H); [lia|].
  exists c, rs. split; [exact E|]. rewrite H. reflexivity.
Defined.

(** The active sweep is invisible to readers: whatever [purge_expired]
    removes, every later read of every key replies as if the sweep had not
    run, and no entry that had expired is left. *)
Theorem cache_purge_invisible (now t : Z) (k : bytes) (op : CacheOp) (c : Cache) :
  cache_wf c -> now <= t -> is_read k op ->
  reply_of t op (Cache_purge_expired now c) = reply_of t op c /\
  Forall (fun p => is_expired (node_entry p.2) now = false)
    (lru_list_ (Cache_purge_expired now c)).
Proof.
  intros W Ht R. destruct (purge_correct now c W) as [W' A']. split.
  - rewrite !reply_store, A' by done.
    destruct R; simpl; rewrite ?(purge_live now t k c W Ht), ?(purge_unexpired now t k c W Ht); done.
  - assert (F : Forall (fun n => is_expired (node_entry n) now = false)
                  (lru_list_ (Cache_purge_expired now c)).*2).
    { change (lru_list_ (Cache_purge_expired now c)).*2
        with (sp_nodes (cache_abs (Cache_purge_expired now c))).
      rewrite A'. simpl. apply Forall_forall. intros n Hn.
      apply list_elem_of_In, List.filter_In in Hn as [_ Hn]. by apply negb_true_iff. }
    by rewrite Forall_fmap in F.
Qed.

Lemma cache_purge_invisible_witness :
  reply_of 5 (OpGet (lit "k")) (Cache_purge_expired 5 (Cache_new 4 60000)) = Some (RValue None).
Proof.
  destruct (cache_purge_invisible 5 5 (lit "k") (OpGet (lit "k")) (Cache_new 4 60000)) as [E _].
  - apply new_wf. lia.
  - lia.
  - constructor.
  - rewrite E. reflexivity.
Defined.

(** [size] right after a sweep is the number of live keys, on any shard
    with fewer than 2^64 entries. *)
Theorem cache_size_live (now : Z) (c : Cache) :
  cache_wf c -> Z.of_nat (length (lru_list_ c)) < 2 ^ 64 ->
  Cache_size (Cache_purge_expired now c) = Z.of_nat (length (live_nodes now c)).
Proof.
  intros W Hl. destruct (purge_correct now c W) as [W' A'].
  rewrite (size_correct _ W'), A'. simpl. rewrite live_count.
  assert (E : length (live_nodes now c) =
    length (List.filter (fun n => is_live (node_entry n) now) (lru_list_ c).*2)).
  { unfold live_nodes. induction (lru_list_ c) as [|p l IH]; [done|]. simpl.
    simpl in Hl. destruct (is_live _ _); simpl; rewrite IH by lia; done. }
  rewrite E. apply wrap_small. rewrite <-E. unfold live_nodes.
  pose proof (List.filter_length_le (fun p => is_live (node_entry p.2) now) (lru_list_ c)). lia.
Qed.

Lemma cache_size_live_witness :
  exists c rs, Cache_run [(1, OpSet (lit "a") (lit "1") (Some 1)); (2, OpSet (lit "b") (lit "2") None)]
                 (Cache_new 4 60000) = Some (c, rs) /\
    Cache_size (Cache_purge_expired 2000000 c) = 1.
Proof.
  destruct (run_new [(1, OpSet (lit "a") (lit "1") (Some 1)); (2, OpSet (lit "b") (lit "2") None)]
    4 60000) as (c & E & W & A); [lia|].
  eexists _, _. split; [exact E|]. rewrite (cache_size_live 2000000 c W).
  - vm_compute in E. injection E as <-. reflexivity.
  - vm_compute in E. injection E as <-. reflexivity.
Defined.
