(* ===== verification/LruTracker.v ===== *)
(** * The recency tracker

    Models src/lru.cpp: a list of keys, the most recently touched first, and a
    hash map from keys to list iterators.  An iterator is a number given to a
    list node when it is made; using one whose node is gone is [None].

    The theorem says that the tracker is a recency list: no dangling iterator is
    ever used, every operation acts as on the list of the keys in the order of
    their last touch, and the key evicted is the one touched longest ago. *)

From S2P Require Import Prelude.

Local Open Scope nat_scope.

Record LRUTracker := mkTracker {
  tr_capacity : Z;
  tr_list : list (nat * bytes);
  tr_map : gmap bytes nat;
  tr_next : nat
}.

Definition LRUTracker_new (capacity : Z) : LRUTracker := mkTracker capacity [] ∅ 0.

(** The list without the node of an iterator. *)
Definition list_erase (h : nat) (l : list (nat * bytes)) : list (nat * bytes) :=
  List.filter (fun p => negb (p.1 =? h)) l.

Definition list_deref (h : nat) (l : list (nat * bytes)) : option bytes :=
  snd <$> List.find (fun p => p.1 =? h) l.

Definition LRUTracker_touch (key : bytes) (t : LRUTracker) : option LRUTracker :=
  match tr_map t !! key with
  | Some h =>
      k ← list_deref h (tr_list t);
      Some (mkTracker (tr_capacity t) ((h, k) :: list_erase h (tr_list t)) (tr_map t) (tr_next t))
  | None =>
      Some (mkTracker (tr_capacity t) ((tr_next t, key) :: tr_list t) (<[key := tr_next t]> (tr_map t)) (S (tr_next t)))
  end.

Definition LRUTracker_evict_lru (t : LRUTracker) : LRUTracker * option bytes :=
  match last (tr_list t) with
  | None => (t, None)
  | Some (_, key) =>
      (mkTracker (tr_capacity t) (removelast (tr_list t)) (delete key (tr_map t)) (tr_next t), Some key)
  end.

Definition LRUTracker_remove (key : bytes) (t : LRUTracker) : option LRUTracker :=
  match tr_map t !! key with
  | Some h =>
      _ ← list_deref h (tr_list t);
      Some (mkTracker (tr_capacity t) (list_erase h (tr_list t)) (delete key (tr_map t)) (tr_next t))
  | None => Some t
  end.

Definition LRUTracker_clear (t : LRUTracker) : LRUTracker := mkTracker (tr_capacity t) [] ∅ (tr_next t).

Definition LRUTracker_size (t : LRUTracker) : nat := size (tr_map t).

Inductive TrackerOp := TTouch (key : bytes) | TEvict | TRemove (key : bytes) | TClear | TSize.
Inductive TrackerReply := TUnit | TKey (k : option bytes) | TCount (n : nat).

Definition Tracker_exec (op : TrackerOp) (t : LRUTracker) : option (LRUTracker * TrackerReply) :=
  match op with
  | TTouch key => t' ← LRUTracker_touch key t; Some (t', TUnit)
  | TEvict => let '(t', r) := LRUTracker_evict_lru t in Some (t', TKey r)
  | TRemove key => t' ← LRUTracker_remove key t; Some (t', TUnit)
  | TClear => Some (LRUTracker_clear t, TUnit)
  | TSize => Some (t, TCount (LRUTracker_size t))
  end.

Fixpoint Tracker_run (ops : list TrackerOp) (t : LRUTracker) : option (LRUTracker * list TrackerReply) :=
  match ops with
  | [] => Some (t, [])
  | op :: rest =>
      '(t1, r) ← Tracker_exec op t;
      '(t2, rs) ← Tracker_run rest t1;
      Some (t2, r :: rs)
  end.

(** ** The recency list *)

Definition without (key : bytes) (l : list bytes) : list bytes := List.filter (fun k => negb (bytes_eqb k key)) l.

Definition recency_exec (op : TrackerOp) (l : list bytes) : list bytes * TrackerReply :=
  match op with
  | TTouch key => (key :: without key l, TUnit)
  | TEvict => (removelast l, TKey (last l))
  | TRemove key => (without key l, TUnit)
  | TClear => ([], TUnit)
  | TSize => (l, TCount (length l))
  end.

Fixpoint recency_run (ops : list TrackerOp) (l : list bytes) : list bytes * list TrackerReply :=
  match ops with
  | [] => (l, [])
  | op :: rest =>
      let '(l1, r) := recency_exec op l in
      let '(l2, rs) := recency_run rest l1 in
      (l2, r :: rs)
  end.

(** ** The invariant *)

Record tracker_wf (t : LRUTracker) : Prop := {
  tw_handles : NoDup (tr_list t).*1;
  tw_keys : NoDup (tr_list t).*2;
  tw_map : forall k h, tr_map t !! k = Some h <-> (h, k) ∈ tr_list t;
  tw_next : forall h k, (h, k) ∈ tr_list t -> h < tr_next t
}.

Lemma tracker_new_wf cap : tracker_wf (LRUTracker_new cap).
Proof.
  split; cbn; [constructor|constructor| |]; intros x y; rewrite ?lookup_empty; [split; [done|]|]; intros H; by apply elem_of_nil in H.
Qed.

(** A node splits the list; erasing by iterator and by key agree. *)
Lemma erase_split t h k :
  tracker_wf t -> (h, k) ∈ tr_list t ->
  exists l1 l2, tr_list t = l1 ++ (h, k) :: l2 /\ list_erase h (tr_list t) = l1 ++ l2 /\ list_deref h (tr_list t) = Some k /\
    without k (tr_list t).*2 = (l1 ++ l2).*2.
Proof.
  intros W Hin. apply list_elem_of_split in Hin as (l1 & l2 & El). exists l1, l2. split; [done|].
  pose proof (tw_handles t W) as Nh. pose proof (tw_keys t W) as Nk. rewrite El in Nh, Nk |- *. clear El.
  rewrite fmap_app, fmap_cons in Nh. rewrite fmap_app, fmap_cons in Nk. apply NoDup_app in Nh as (_ & H1 & H2). apply NoDup_app in Nk as (_ & K1 & K2).
  apply NoDup_cons in H2 as [H2 _]. apply NoDup_cons in K2 as [K2 _]. cbn [fst snd] in *.
  assert (F : forall l, h ∉ l.*1 -> list_erase h l = l /\ forall r, List.find (fun p => p.1 =? h) (l ++ r) = List.find (fun p => p.1 =? h) r).
  { induction l as [|[h' k'] l IH]; intros Hn; [done|]. rewrite fmap_cons, not_elem_of_cons in Hn. destruct Hn as [Hn1 Hn2].
    destruct (IH Hn2) as [I1 I2]. unfold list_erase in *. cbn [List.filter List.find app fst] in *.
    rewrite (proj2 (Nat.eqb_neq h' h)) by congruence. cbn [negb]. split; [by rewrite I1|exact I2]. }
  assert (G : forall l : list (nat * bytes), k ∉ l.*2 -> without k l.*2 = l.*2).
  { induction l as [|[h' k'] l IH]; intros Hn; [done|]. rewrite fmap_cons, not_elem_of_cons in Hn. destruct Hn as [Hn1 Hn2].
    unfold without in *. cbn [fmap list_fmap List.filter snd] in *. rewrite bytes_eqb_ne by congruence. cbn [negb]. by rewrite IH. }
  assert (N1 : h ∉ l1.*1) by (intros Hc; apply (H1 h Hc); by left). assert (M1 : k ∉ l1.*2) by (intros Hc; apply (K1 k Hc); by left).
  destruct (F l1 N1) as [F1 F2]. destruct (F l2 H2) as [F3 _]. split; [|split].
  - unfold list_erase in *. rewrite List.filter_app, F1. cbn [List.filter fst]. rewrite Nat.eqb_refl. cbn [negb]. by rewrite F3.
  - unfold list_deref. rewrite F2. cbn [List.find fst]. by rewrite Nat.eqb_refl.
  - rewrite !fmap_app, fmap_cons. unfold without. rewrite List.filter_app. cbn [List.filter snd]. rewrite bytes_eqb_refl. cbn [negb].
    pose proof (G l1 M1) as G1. pose proof (G l2 K2) as G2. unfold without in G1, G2. by rewrite G1, G2.
Qed.

Lemma without_absent k t : tracker_wf t -> tr_map t !! k = None -> (k ∉ (tr_list t).*2) /\ without k (tr_list t).*2 = (tr_list t).*2.
Proof.
  intros W E. assert (Hn : ~ (k ∈ (tr_list t).*2)).
  { intros ([h k'] & -> & Hin)%list_elem_of_fmap. apply (tw_map t W) in Hin. cbn in E. congruence. }
  split; [done|]. revert Hn. generalize (tr_list t).*2 as l. induction l as [|x l IH]; intros Hn; [done|]. rewrite not_elem_of_cons in Hn.
  destruct Hn as [H1 H2]. unfold without in *. cbn. rewrite bytes_eqb_ne by congruence. cbn. by rewrite IH.
Qed.

Lemma middle_wf t h k l1 l2 next :
  tracker_wf t -> tr_list t = l1 ++ (h, k) :: l2 -> tr_next t <= next ->
  (forall m, tracker_wf (mkTracker m ((h, k) :: l1 ++ l2) (tr_map t) next)) /\
  (forall m, tracker_wf (mkTracker m (l1 ++ l2) (delete k (tr_map t)) next)).
Proof.
  intros [W1 W2 W3 W4] El Hn.
  assert (P : tr_list t ≡ₚ (h, k) :: l1 ++ l2) by (rewrite El; symmetry; apply Permutation_middle).
  pose proof W1 as N1. pose proof W2 as N2. rewrite P in N1, N2. rewrite fmap_cons in N1. rewrite fmap_cons in N2. split; intros m; split; cbn [tr_list tr_map tr_next].
  - by rewrite fmap_cons.
  - by rewrite fmap_cons.
  - intros k' h'. rewrite W3. by rewrite P.
  - intros h' k' Hin. rewrite <-P in Hin. specialize (W4 _ _ Hin). lia.
  - by apply NoDup_cons in N1 as [_ ?].
  - by apply NoDup_cons in N2 as [_ ?].
  - apply NoDup_cons in N2 as [N2 _]. intros k' h'. rewrite lookup_delete_Some, W3, P, elem_of_cons. split.
    + intros [Hne [[= <- <-]|?]]; [done|done].
    + intros Hin. split; [|by right]. intros <-. apply N2. by apply (list_elem_of_fmap_2 snd _ (h', k)).
  - intros h' k' Hin. assert (Hin' : (h', k') ∈ tr_list t) by (rewrite P; by right). specialize (W4 _ _ Hin'). lia.
Qed.

Lemma tracker_exec_refines op t :
  tracker_wf t ->
  exists t', Tracker_exec op t = Some (t', (recency_exec op (tr_list t).*2).2) /\ tracker_wf t' /\
    (tr_list t').*2 = (recency_exec op (tr_list t).*2).1.
Proof.
  intros W. destruct op as [key| |key| |]; cbn [Tracker_exec recency_exec fst snd].
  - unfold LRUTracker_touch. destruct (tr_map t !! key) as [h|] eqn:E.
    + apply (tw_map t W) in E. destruct (erase_split t h key W E) as (l1 & l2 & El & E1 & -> & E3). rewrite E1, E3. cbn [mbind option_bind].
      eexists. split; [reflexivity|]. split; [|done]. by apply (middle_wf t h key l1 l2).
    + destruct (without_absent key t W E) as [Hk ->]. cbn [mbind option_bind]. eexists. split; [reflexivity|]. split; [|done].
      assert (Hh : tr_next t ∉ (tr_list t).*1).
      { intros ([h k] & Eh & Hin)%list_elem_of_fmap. cbn in Eh. subst h. apply (tw_next t W) in Hin. lia. }
      destruct W as [W1 W2 W3 W4]. split; cbn [tr_list tr_map tr_next].
      * rewrite fmap_cons. by constructor.
      * rewrite fmap_cons. by constructor.
      * intros k h. rewrite lookup_insert_Some, W3, elem_of_cons. split.
        { intros [[-> ->]|[_ ?]]; auto. }
        intros [[= -> ->]|Hin]; [by left|]. right. split; [|done]. intros <-. apply Hk. by apply (list_elem_of_fmap_2 snd _ (h, key)).
      * intros h k [[= -> ->]|Hin]%elem_of_cons; [lia|]. specialize (W4 _ _ Hin). lia.
  - unfold LRUTracker_evict_lru. destruct (last (tr_list t)) as [[h k]|] eqn:E.
    + apply last_Some in E as [l1 El]. rewrite El, removelast_last, fmap_app. change ([(h, k)].*2) with [k]. rewrite removelast_last, last_snoc.
      eexists. split; [reflexivity|]. split; [|done]. rewrite <-(app_nil_r l1). by apply (middle_wf t h k l1 []).
    + apply last_None in E. exists t. by rewrite E.
  - unfold LRUTracker_remove. destruct (tr_map t !! key) as [h|] eqn:E.
    + apply (tw_map t W) in E. destruct (erase_split t h key W E) as (l1 & l2 & El & E1 & -> & E3). rewrite E1, E3. cbn [mbind option_bind].
      eexists. split; [reflexivity|]. split; [|done]. by apply (middle_wf t h key l1 l2).
    + destruct (without_absent key t W E) as [_ ->]. cbn [mbind option_bind]. eauto.
  - eexists. split; [reflexivity|]. split; [|done]. destruct (tracker_new_wf (tr_capacity t)). split; try done.
    intros h k Hin. by apply elem_of_nil in Hin.
  - exists t. split; [|done]. do 3 f_equal. rewrite length_fmap. unfold LRUTracker_size.
    assert (Em : tr_map t = list_to_map (prod_swap <$> tr_list t)).
    { apply map_eq. intros k. apply option_eq. intros h. rewrite (tw_map t W).
      rewrite <-elem_of_list_to_map by (rewrite <-list_fmap_compose; apply (tw_keys t W)). rewrite list_elem_of_fmap. split.
      - intros Hin. by exists (h, k).
      - intros ([h' k'] & [= <- <-] & Hin). done. }
    rewrite Em, <-(length_fmap prod_swap (tr_list t)). apply map_size_list_to_map. rewrite <-list_fmap_compose. apply (tw_keys t W).
Qed.

(** ** Properties *)

(** The tracker is a recency list: on every sequence of calls it never uses a
    dangling iterator and answers as the list of the keys in the order of their
    last touch, without repetition; evict_lru takes the key touched longest ago
    and size is the number of keys. *)
Theorem lru_tracker_refines capacity ops :
  exists t, Tracker_run ops (LRUTracker_new capacity) = Some (t, (recency_run ops []).2) /\
    (tr_list t).*2 = (recency_run ops []).1 /\ NoDup (recency_run ops []).1.
Proof.
  assert (K : forall t l, tracker_wf t -> (tr_list t).*2 = l ->
    exists t', Tracker_run ops t = Some (t', (recency_run ops l).2) /\ tracker_wf t' /\ (tr_list t').*2 = (recency_run ops l).1).
  { induction ops as [|op ops IH]; intros t l W El; [eauto|]. cbn [Tracker_run recency_run].
    destruct (tracker_exec_refines op t W) as (t1 & E1 & W1 & A1). rewrite El in E1, A1. rewrite E1. cbn [mbind option_bind].
    destruct (recency_exec op l) as [l1 r]. cbn [fst snd] in *. destruct (IH t1 l1 W1 A1) as (t2 & E2 & W2 & A2). rewrite E2.
    cbn [mbind option_bind]. destruct (recency_run ops l1) as [l2 rs]. eauto. }
  destruct (K (LRUTracker_new capacity) [] (tracker_new_wf capacity) eq_refl) as (t & E & W & A).
  exists t. split; [done|]. split; [done|]. rewrite <-A. apply W.
Qed.
