(* ===== verification/HybridClock.v ===== *)
(** * The hybrid logical clock

    Models include/shardcache/hybrid_clock.hpp.  [last_] is one atomic word that
    any number of threads advance with compare-exchange loops; the loops are
    modelled as a step relation in which every load and every (possibly
    spuriously failing) compare-exchange is one step. *)

From S2P Require Import Prelude.

Local Open Scope Z_scope.

Definition kLogicalBits : Z := 16.

(** [physical_now() << kLogicalBits], on 64-bit unsigned integers. *)
Definition physical_stamp (ms : Z) : Z := u64 (Z.shiftl ms kLogicalBits).

(** [HybridClock::physical_ms]. *)
Definition physical_ms (timestamp : Z) : Z := Z.shiftr timestamp kLogicalBits.

(** The value a [now()] call tries to install: past the physical clock and past
    [last]. *)
Definition next_stamp (physical last : Z) : Z :=
  if last <? physical then physical else u64 (last + 1).

(** [HybridClock::now] and [HybridClock::observe] without interference, on the
    value of [last_]. *)
Definition HybridClock_now (ms last : Z) : Z := next_stamp (physical_stamp ms) last.
Definition HybridClock_observe (remote last : Z) : Z := if last <? remote then remote else last.

(** ** Concurrent execution *)

(** Where a thread is: outside the clock, or in one of the two loops with its
    local copy of [last_]. *)
Inductive ClockPc :=
  | Idle
  | InNow (physical last : Z)
  | InObserve (remote last : Z).

(** A call takes effect when its loop exits. *)
Inductive ClockEvent :=
  | Issued (ts : Z)
  | Observed (remote : Z).

Record ClockState := mkClock {
  last_ : Z;
  threads : gmap nat ClockPc;
  log : list ClockEvent  (** newest first *)
}.

Definition pc_of (s : ClockState) (t : nat) : ClockPc := default Idle (threads s !! t).

Definition set_pc (s : ClockState) (t : nat) (p : ClockPc) : ClockState :=
  mkClock (last_ s) (<[t := p]> (threads s)) (log s).

(** Installs [v] and records the call's effect. *)
Definition commit (s : ClockState) (t : nat) (v : Z) (e : ClockEvent) : ClockState :=
  mkClock v (<[t := Idle]> (threads s)) (e :: log s).

Inductive clock_step : ClockState -> ClockState -> Prop :=
  | step_now_load s t ms :
      pc_of s t = Idle ->
      clock_step s (set_pc s t (InNow (physical_stamp ms) (last_ s)))
  | step_now_cas s t p l :
      pc_of s t = InNow p l -> last_ s = l ->
      clock_step s (commit s t (next_stamp p l) (Issued (next_stamp p l)))
  | step_now_fail s t p l :
      pc_of s t = InNow p l ->
      clock_step s (set_pc s t (InNow p (last_ s)))
  | step_observe_load s t r :
      pc_of s t = Idle -> 0 <= r < 2 ^ 64 ->
      clock_step s (set_pc s t (InObserve r (last_ s)))
  | step_observe_old s t r l :
      pc_of s t = InObserve r l -> r <= l ->
      clock_step s (commit s t (last_ s) (Observed r))
  | step_observe_cas s t r l :
      pc_of s t = InObserve r l -> l < r -> last_ s = l ->
      clock_step s (commit s t r (Observed r))
  | step_observe_fail s t r l :
      pc_of s t = InObserve r l -> l < r ->
      clock_step s (set_pc s t (InObserve r (last_ s))).

Definition clock_init : ClockState := mkClock 0 ∅ [].

Definition event_stamp (e : ClockEvent) : Z :=
  match e with Issued ts => ts | Observed r => r end.

Definition is_issued (e : ClockEvent) : bool :=
  match e with Issued _ => true | Observed _ => false end.

Definition issued_count (l : list ClockEvent) : Z := Z.of_nat (length (List.filter is_issued l)).

(** Every issued timestamp is above everything the clock issued or observed
    before it. *)
Fixpoint strictly_ordered (l : list ClockEvent) : Prop :=
  match l with
  | [] => True
  | Issued ts :: l' => Forall (fun e => event_stamp e < ts) l' /\ strictly_ordered l'
  | Observed _ :: l' => strictly_ordered l'
  end.

(** The physical and observed timestamps of threads in flight. *)
Definition pc_input (p : ClockPc) : Z :=
  match p with Idle => 0 | InNow p _ => p | InObserve r _ => r end.

Definition pc_last (p : ClockPc) : Z :=
  match p with Idle => 0 | InNow _ l | InObserve _ l => l end.

(** The inputs of an execution stay within [B]. *)
Definition inputs_within (B : Z) (s : ClockState) : Prop :=
  (forall t, pc_input (pc_of s t) <= B) /\ B + issued_count (log s) < 2 ^ 64.

(** Executions whose every state has bounded inputs. *)
Inductive clock_reachable (B : Z) : ClockState -> Prop :=
  | reach_init : inputs_within B clock_init -> clock_reachable B clock_init
  | reach_step s s' :
      clock_reachable B s -> clock_step s s' -> inputs_within B s' -> clock_reachable B s'.

Record clock_inv (B : Z) (s : ClockState) : Prop := {
  ci_range : 0 <= last_ s <= B + issued_count (log s);
  ci_log : Forall (fun e => event_stamp e <= last_ s) (log s);
  ci_ordered : strictly_ordered (log s);
  ci_pcs : forall t, 0 <= pc_input (pc_of s t) /\ pc_last (pc_of s t) <= last_ s
}.

Lemma pc_of_set s t t' p :
  pc_of (set_pc s t p) t' = if decide (t = t') then p else pc_of s t'.
Proof. unfold pc_of, set_pc. simpl. rewrite lookup_insert. by case_decide. Qed.

Lemma pc_of_commit s t t' v e :
  pc_of (commit s t v e) t' = if decide (t = t') then Idle else pc_of s t'.
Proof. unfold pc_of, commit. simpl. rewrite lookup_insert. by case_decide. Qed.

Lemma issued_count_cons e l :
  issued_count (e :: l) = (if is_issued e then 1 else 0) + issued_count l.
Proof. unfold issued_count. simpl. destruct (is_issued e); simpl; lia. Qed.

Lemma issued_count_nonneg l : 0 <= issued_count l.
Proof. unfold issued_count. lia. Qed.

Lemma physical_stamp_nonneg ms : 0 <= physical_stamp ms.
Proof. unfold physical_stamp. apply wrap_range. lia. Qed.

Lemma inputs_within_init B : 0 <= B < 2 ^ 64 -> inputs_within B clock_init.
Proof.
  intros H. split; [|unfold issued_count; simpl; lia].
  intros t. unfold pc_of. simpl. rewrite lookup_empty. simpl. lia.
Qed.

Lemma inputs_within_set B s t p :
  inputs_within B s -> pc_input p <= B -> inputs_within B (set_pc s t p).
Proof.
  intros [H1 H2] Hp. split; [|done]. intros t'. rewrite pc_of_set. case_decide; auto.
Qed.

Lemma inputs_within_commit B s t v e :
  0 <= B -> inputs_within B s -> B + issued_count (e :: log s) < 2 ^ 64 ->
  inputs_within B (commit s t v e).
Proof. intros HB [H1 H2] Hc. split; [|done]. intros t'. rewrite pc_of_commit. by case_decide. Qed.

(** A step that only moves a thread keeps the invariant. *)
Lemma inv_set_pc B s t p :
  clock_inv B s -> 0 <= pc_input p -> pc_last p <= last_ s -> clock_inv B (set_pc s t p).
Proof.
  intros [H1 H2 H3 H4] Hi Hl. split; simpl; try done.
  intros t'. rewrite pc_of_set. case_decide; [done|apply H4].
Qed.

(** A step that installs a value at least as large as [last_] keeps it. *)
Lemma inv_commit B s t v e :
  clock_inv B s -> last_ s <= v -> event_stamp e <= v ->
  v <= B + issued_count (e :: log s) -> strictly_ordered (e :: log s) ->
  clock_inv B (commit s t v e).
Proof.
  intros [H1 H2 H3 H4] Hv He Hb Ho. split; simpl; try done.
  - lia.
  - constructor; [done|]. eapply Forall_impl; [done|]. simpl. lia.
  - intros t'. rewrite pc_of_commit. case_decide; simpl; [lia|]. specialize (H4 t'). lia.
Qed.

Lemma clock_step_inv B s s' :
  clock_inv B s -> inputs_within B s -> inputs_within B s' -> clock_step s s' -> clock_inv B s'.
Proof.
  intros I [Hin Hc] [_ Hc'] St. pose proof I as [H1 H2 H3 H4].
  pose proof (issued_count_nonneg (log s)) as Hpos.
  inversion St as [? t ms Hp|? t p l Hp Hl|? t p l Hp|? t r Hp Hr|? t r l Hp Hr|? t r l Hp Hr Hl|
                   ? t r l Hp Hr]; subst; clear St; pose proof (Hin t) as Ht;
    pose proof (H4 t) as H4t; rewrite Hp in Ht, H4t; simpl in *.
  - apply inv_set_pc; simpl; auto using physical_stamp_nonneg. lia.
  - rewrite issued_count_cons in Hc'. simpl in Hc'.
    assert (last_ s < next_stamp p (last_ s) /\
            next_stamp p (last_ s) <= B + (1 + issued_count (log s))) as [Hn Hb].
    { unfold next_stamp. destruct (_ <? _) eqn:E; bool_facts; [lia|].
      rewrite wrap_small; lia. }
    apply inv_commit; simpl; try done; try lia.
    + by rewrite issued_count_cons.
    + split; [|done]. eapply Forall_impl; [done|]. simpl. lia.
  - apply inv_set_pc; simpl; try done; lia.
  - apply inv_set_pc; simpl; try done; lia.
  - apply inv_commit; simpl; try done; try lia. rewrite issued_count_cons. simpl. lia.
  - apply inv_commit; simpl; try done; try lia.
    rewrite issued_count_cons. simpl. lia.
  - apply inv_set_pc; simpl; try done; lia.
Qed.

Lemma clock_reachable_inv B s : 0 <= B -> clock_reachable B s -> clock_inv B s /\ inputs_within B s.
Proof.
  intros HB R. induction R as [Hin|s s' R [I Hin] St Hin'].
  - split; [|done]. split; simpl; try done; try constructor; unfold issued_count; simpl; lia.
  - split; [|done]. by eapply clock_step_inv.
Qed.

(** C37: Across any interleaving of any number of threads calling [now] and
    [observe], as long as the 64-bit counter is not exhausted, every timestamp
    [now] returns is strictly larger than every timestamp the clock returned or
    observed before; in particular no timestamp is issued twice. *)
Theorem hlc_strictly_increasing (B : Z) (s : ClockState) :
  0 <= B -> clock_reachable B s ->
  strictly_ordered (log s) /\ Forall (fun e => event_stamp e <= last_ s) (log s).
Proof. intros HB R. destruct (clock_reachable_inv B s HB R) as [[] _]. done. Qed.

(** The clock's physical part never lags the wall clock: a timestamp read
    at [ms] Unix milliseconds (below 2^48) has a physical part of at least
    [ms], and is above [last_], unless the counter is exhausted. *)
Theorem hlc_now_bounds (ms last : Z) :
  0 <= ms < 2 ^ 48 -> 0 <= last < 2 ^ 64 - 1 ->
  ms <= physical_ms (HybridClock_now ms last) /\ last < HybridClock_now ms last < 2 ^ 64.
Proof.
  intros Hm Hl. unfold HybridClock_now, physical_ms, next_stamp, physical_stamp, kLogicalBits.
  rewrite Z.shiftl_mul_pow2, Z.shiftr_div_pow2 by lia. rewrite wrap_small by lia.
  destruct (_ <? _) eqn:E; bool_facts.
  - rewrite Z.div_mul by lia. lia.
  - rewrite wrap_small by lia. split; [|lia].
    apply Z.div_le_lower_bound; lia.
Qed.

Lemma hlc_now_bounds_witness :
  5 <= physical_ms (HybridClock_now 5 1000000) /\
  1000000 < HybridClock_now 5 1000000 < 2 ^ 64.
Proof. apply (hlc_now_bounds 5 1000000); lia. Defined.

(** Two threads race: both load, one wins, the other retries. *)
Definition race_final : ClockState :=
  commit (set_pc (commit (set_pc (set_pc clock_init 0 (InNow (physical_stamp 3) 0))
                            1 (InNow (physical_stamp 2) 0))
                   0 (physical_stamp 3) (Issued (physical_stamp 3)))
            1 (InNow (physical_stamp 2) (physical_stamp 3)))
    1 (physical_stamp 3 + 1) (Issued (physical_stamp 3 + 1)).

Lemma hlc_strictly_increasing_witness : strictly_ordered (log race_final).
Proof.
  apply (hlc_strictly_increasing (2 ^ 60) race_final); [lia|].
  unfold race_final.
  eapply reach_step; [eapply reach_step; [eapply reach_step; [eapply reach_step;
    [eapply reach_step; [apply reach_init; apply inputs_within_init; lia| |]| |]| |]| |]| |].
  - by apply (step_now_load clock_init 0 3).
  - apply inputs_within_set; [apply inputs_within_init; lia|vm_compute; congruence].
  - by apply (step_now_load (set_pc clock_init 0 (InNow (physical_stamp 3) 0)) 1 2).
  - repeat (apply inputs_within_set; [|vm_compute; congruence]). apply inputs_within_init; lia.
  - apply (step_now_cas _ 0 (physical_stamp 3) 0); reflexivity.
  - apply inputs_within_commit; [lia| |vm_compute; reflexivity].
    repeat (apply inputs_within_set; [|vm_compute; congruence]). apply inputs_within_init; lia.
  - apply (step_now_fail _ 1 (physical_stamp 2) 0). reflexivity.
  - apply inputs_within_set; [|vm_compute; congruence].
    apply inputs_within_commit; [lia| |vm_compute; reflexivity].
    repeat (apply inputs_within_set; [|vm_compute; congruence]). apply inputs_within_init; lia.
  - apply (step_now_cas _ 1 (physical_stamp 2) (physical_stamp 3)); reflexivity.
  - apply inputs_within_commit; [lia| |vm_compute; reflexivity].
    apply inputs_within_set; [|vm_compute; congruence].
    apply inputs_within_commit; [lia| |vm_compute; reflexivity].
    repeat (apply inputs_within_set; [|vm_compute; congruence]). apply inputs_within_init; lia.
Defined.
