(* ===== verification/ConsistentHash.v ===== *)
(** * The consistent-hash ring

    Models src/consistent_hash.cpp and include/shardcache/consistent_hash.hpp.
    The [std::map] of ring points is a list sorted by point; an iterator is the
    list from its position on, and the empty list is [end()]. *)

From S2P Require Import Prelude Numerals.

Local Open Scope Z_scope.

(** [struct CacheNode]. *)
Record CacheNode := mkCN { cn_id : bytes; cn_host : bytes; cn_port : Z }.

#[export] Instance CacheNode_eq_dec : EqDecision CacheNode.
Proof. solve_decision. Defined.

(** [ConsistentHashRing::hash_fn]: FNV-1a and the MurmurHash3 finalizer, on
    32-bit unsigned integers. *)
Definition fnv1a32 (key : bytes) : Z :=
  foldl (fun hash c => u32 (Z.lxor hash (uchar c) * 16777619)) 2166136261 key.

Definition hash_fn (key : bytes) : Z :=
  let hash := fnv1a32 key in
  let hash := Z.lxor hash (Z.shiftr hash 16) in
  let hash := u32 (hash * 0x85ebca6b) in
  let hash := Z.lxor hash (Z.shiftr hash 13) in
  let hash := u32 (hash * 0xc2b2ae35) in
  Z.lxor hash (Z.shiftr hash 16).

(** ** [std::map<uint32_t, CacheNode>] *)

(** [m[k] = v]. *)
Fixpoint points_insert (k : Z) (v : CacheNode) (m : list (Z * CacheNode)) : list (Z * CacheNode) :=
  match m with
  | [] => [(k, v)]
  | (k', v') :: r =>
      if k <? k' then (k, v) :: m
      else if k =? k' then (k, v) :: r
      else (k', v') :: points_insert k v r
  end.

(** [m.erase(k)]. *)
Definition points_erase (k : Z) (m : list (Z * CacheNode)) : list (Z * CacheNode) :=
  filter (fun p => p.1 <> k) m.

(** [m.lower_bound(k)]. *)
Fixpoint lower_bound (k : Z) (m : list (Z * CacheNode)) : list (Z * CacheNode) :=
  match m with
  | [] => []
  | p :: r => if p.1 <? k then lower_bound k r else m
  end.

(** ** The ring *)

(** [class ConsistentHashRing]. *)
Record Ring := mkRing {
  num_vnodes_ : nat;
  physical_nodes_ : gmap bytes CacheNode;
  ring_ : list (Z * CacheNode)
}.

Definition Ring_new (vnodes : nat) : Ring := mkRing vnodes ∅ [].

(** [hash_fn(node.id + "#" + std::to_string(i))]. *)
Definition vnode_hash (id : bytes) (i : nat) : Z :=
  hash_fn (id ++ lit "#" ++ to_dec (Z.of_nat i)).

(** [ConsistentHashRing::add_node]. *)
Definition Ring_add_node (node : CacheNode) (r : Ring) : Ring :=
  mkRing (num_vnodes_ r)
    (<[cn_id node := node]> (physical_nodes_ r))
    (foldl (fun m i => points_insert (vnode_hash (cn_id node) i) node m)
       (ring_ r) (seq 0 (num_vnodes_ r))).

(** [ConsistentHashRing::remove_node]. *)
Definition Ring_remove_node (node_id : bytes) (r : Ring) : Ring :=
  match physical_nodes_ r !! node_id with
  | None => r
  | Some _ =>
      mkRing (num_vnodes_ r) (delete node_id (physical_nodes_ r))
        (foldl (fun m i => points_erase (vnode_hash node_id i) m)
           (ring_ r) (seq 0 (num_vnodes_ r)))
  end.

(** [ConsistentHashRing::locate]. *)
Definition Ring_locate (key : bytes) (r : Ring) : option CacheNode :=
  match ring_ r with
  | [] => None
  | first :: _ =>
      match lower_bound (hash_fn key) (ring_ r) with
      | [] => Some first.2
      | p :: _ => Some p.2
      end
  end.

(** The loop of [locate_replicas]; [remaining] is [ring_.size() - steps]. *)
Fixpoint replicas_loop (ring : list (Z * CacheNode)) (count : nat) (remaining : nat)
    (it : list (Z * CacheNode)) (seen : gset bytes) (replicas : list CacheNode)
    : list CacheNode :=
  match remaining with
  | O => replicas
  | S remaining' =>
      if (size seen <? count)%nat then
        match (match it with [] => ring | _ => it end) with
        | [] => replicas
        | (_, node) :: it' =>
            if decide (cn_id node ∈ seen)
            then replicas_loop ring count remaining' it' seen replicas
            else replicas_loop ring count remaining' it' ({[cn_id node]} ∪ seen)
                   (replicas ++ [node])
        end
      else replicas
  end.

(** [ConsistentHashRing::locate_replicas]. *)
Definition Ring_locate_replicas (key : bytes) (count : nat) (r : Ring) : list CacheNode :=
  match ring_ r with
  | [] => []
  | _ =>
      if (count =? 0)%nat then []
      else replicas_loop (ring_ r) count (length (ring_ r))
             (lower_bound (hash_fn key) (ring_ r)) ∅ []
  end.

Definition Ring_node_count (r : Ring) : nat := size (physical_nodes_ r).
Definition Ring_ring_size (r : Ring) : nat := length (ring_ r).

(** ** The hash is a 32-bit value *)

Lemma shiftr_range a n w : 0 <= n -> 0 <= a < 2 ^ w -> 0 <= Z.shiftr a n < 2 ^ w.
Proof.
  intros Hn Ha. rewrite Z.shiftr_div_pow2 by done.
  pose proof (Z.pow_pos_nonneg 2 n ltac:(lia) Hn).
  split; [apply Z.div_pos; lia|]. apply Z.div_lt_upper_bound; [lia|]. nia.
Qed.

Lemma fnv1a32_range key : 0 <= fnv1a32 key < 2 ^ 32.
Proof.
  unfold fnv1a32. assert (0 <= 2166136261 < 2 ^ 32) as H by lia. revert H.
  generalize 2166136261. induction key as [|c key IH]; intros h Hh; simpl; [done|].
  apply IH, wrap_range. lia.
Qed.

Lemma hash_fn_range key : 0 <= hash_fn key < 2 ^ 32.
Proof.
  unfold hash_fn. cbv zeta.
  assert (forall x, 0 <= u32 x < 2 ^ 32) by (intros; apply wrap_range; lia).
  apply lxor_range; [lia|auto|]. apply shiftr_range; [lia|auto].
Qed.

(** ** The order of the points *)

(** The map is strictly sorted. *)
Definition points_sorted (m : list (Z * CacheNode)) : Prop := StronglySorted Z.lt m.*1.

Lemma points_insert_keys k v m p :
  p ∈ points_insert k v m -> p = (k, v) \/ p ∈ m.
Proof.
  induction m as [|[k' v'] r IH]; simpl; [set_solver|].
  repeat case_match; rewrite ?elem_of_cons; intros; naive_solver.
Qed.

Lemma points_insert_sorted k v m : points_sorted m -> points_sorted (points_insert k v m).
Proof.
  unfold points_sorted. induction m as [|[k' v'] r IH]; simpl; intros H.
  { repeat constructor. }
  apply StronglySorted_inv in H as [Hr Hk].
  destruct (Z.ltb_spec k k') as [L|L]; [|destruct (Z.eqb_spec k k') as [->|Ne]].
  - simpl. constructor; [by constructor|]. constructor; [done|].
    eapply Forall_impl; [exact Hk|]. simpl. lia.
  - simpl. by constructor.
  - simpl. constructor; [by apply IH|]. rewrite Forall_fmap, Forall_forall in *.
    intros p Hp. apply points_insert_keys in Hp as [->|Hp]; simpl; [lia|]. by apply Hk.
Qed.

Lemma filter_sorted (P : Z * CacheNode -> Prop) `{!forall p, Decision (P p)} m :
  points_sorted m -> points_sorted (filter P m).
Proof.
  unfold points_sorted. induction m as [|p r IH]; intros HS; [done|].
  rewrite fmap_cons in HS. apply StronglySorted_inv in HS as [Hr Hk].
  rewrite filter_cons. case_decide; [|auto]. rewrite fmap_cons. constructor; [auto|].
  rewrite Forall_fmap, Forall_forall in *. intros q Hq.
  apply list_elem_of_filter in Hq as [_ Hq]. by apply Hk.
Qed.

(** The points from [h] on, then the points before it: the clockwise walk. *)
Definition walk (h : Z) (m : list (Z * CacheNode)) : list (Z * CacheNode) :=
  filter (fun p => h <= p.1) m ++ filter (fun p => p.1 < h) m.

Lemma lower_bound_filter h m :
  points_sorted m -> lower_bound h m = filter (fun p => h <= p.1) m.
Proof.
  unfold points_sorted. induction m as [|p r IH]; intros HS; [done|]. simpl.
  rewrite fmap_cons in HS. apply StronglySorted_inv in HS as [Hr Hk]. rewrite filter_cons.
  destruct (Z.ltb_spec p.1 h) as [L|L].
  - rewrite decide_False by lia. auto.
  - rewrite decide_True by lia. f_equal. rewrite <-IH by done.
    destruct r as [|q r']; [done|]. simpl. rewrite fmap_cons in Hk.
    apply Forall_cons in Hk as [Hq _]. destruct (Z.ltb_spec q.1 h); [lia|done].
Qed.

Lemma lower_bound_split h m : exists pre, m = pre ++ lower_bound h m /\ Forall (fun p => p.1 < h) pre.
Proof.
  induction m as [|p r (pre & E & F)]; simpl; [by exists []|].
  destruct (Z.ltb_spec p.1 h) as [L|L]; [|by exists []].
  exists (p :: pre). split; [by rewrite <-app_comm_cons, <-E|by constructor].
Qed.

Lemma walk_split h m :
  points_sorted m -> exists pre,
    m = pre ++ lower_bound h m /\ walk h m = lower_bound h m ++ pre.
Proof.
  intros HS. destruct (lower_bound_split h m) as (pre & E & F). exists pre. split; [done|].
  unfold walk. rewrite <-lower_bound_filter by done. f_equal.
  assert (Hge : Forall (fun p => h <= p.1) (lower_bound h m)).
  { rewrite lower_bound_filter by done. apply Forall_forall. intros p Hp.
    by apply list_elem_of_filter in Hp as [Hp _]. }
  rewrite E at 1. rewrite filter_app. clear E.
  assert (filter (fun p => p.1 < h) (lower_bound h m) = []) as ->.
  { induction Hge; [done|]. rewrite filter_cons, decide_False by lia. done. }
  rewrite app_nil_r. induction F; [done|]. rewrite filter_cons, decide_True by done. by f_equal.
Qed.

Lemma walk_elem h m p : p ∈ walk h m <-> p ∈ m.
Proof.
  unfold walk. rewrite elem_of_app, !list_elem_of_filter.
  destruct (decide (h <= p.1)); intuition lia.
Qed.

Lemma walk_filter (P : Z * CacheNode -> Prop) `{!forall p, Decision (P p)} h m :
  walk h (filter P m) = filter P (walk h m).
Proof.
  unfold walk. rewrite filter_app, !list_filter_filter.
  f_equal; apply list_filter_iff; tauto.
Qed.

(** ** The replica loop collects the distinct nodes of the walk *)

Lemma replicas_loop_spec ring count rem it replicas :
  (rem <= length it + length ring)%nat -> NoDup (cn_id <$> replicas) ->
  replicas_loop ring count rem it (list_to_set (cn_id <$> replicas)) replicas =
  push_distinct cn_id count (take rem (it ++ ring)).*2 replicas.
Proof.
  revert it replicas. induction rem as [|rem IH]; intros it replicas Hl ND; [done|].
  cbn [replicas_loop]. rewrite size_list_to_set, length_fmap by done.
  assert (Hstep : forall (q : Z * CacheNode) it', (rem <= length it' + length ring)%nat ->
    (if (length replicas <? count)%nat
     then if decide (cn_id q.2 ∈@{gset bytes} list_to_set (cn_id <$> replicas))
          then replicas_loop ring count rem it' (list_to_set (cn_id <$> replicas)) replicas
          else replicas_loop ring count rem it' ({[cn_id q.2]} ∪ list_to_set (cn_id <$> replicas))
                 (replicas ++ [q.2])
     else replicas) =
    push_distinct cn_id count (q.2 :: (take rem (it' ++ ring)).*2) replicas).
  { intros q it' Hit. cbn [push_distinct]. destruct (_ <? _)%nat; [|done].
    destruct (decide (cn_id q.2 ∈ cn_id <$> replicas)) as [Hin|Hin].
    - rewrite decide_True by set_solver. auto.
    - rewrite decide_False by set_solver. rewrite <-IH; [|done|].
      + f_equal. rewrite fmap_app, list_to_set_app_L. cbn [fmap list_fmap list_to_set]. set_solver.
      + rewrite fmap_app. apply NoDup_app. set_solver by eauto using NoDup_singleton. }
  destruct it as [|[k node] it'].
  - destruct ring as [|[k node] ring']; [simpl in Hl; lia|].
    etransitivity; [apply (Hstep (k, node) ring'); simpl in *; lia|].
    cbn [app take]. rewrite fmap_cons. by rewrite (take_app_le ring') by (simpl in *; lia).
  - apply (Hstep (k, node) it'). simpl in *. lia.
Qed.

Lemma locate_replicas_walk key count r :
  points_sorted (ring_ r) ->
  Ring_locate_replicas key count r =
  take count (dedup_by cn_id (walk (hash_fn key) (ring_ r)).*2).
Proof.
  intros HS. unfold Ring_locate_replicas. destruct (ring_ r) as [|p m] eqn:E; [by destruct count|].
  rewrite <-E in *. clear p m E. destruct (Nat.eqb_spec count 0) as [->|Hc]; [done|].
  destruct (walk_split (hash_fn key) (ring_ r) HS) as (pre & E & ->).
  replace (∅ : gset bytes) with (list_to_set (cn_id <$> []) : gset bytes) by done.
  rewrite replicas_loop_spec, push_distinct_nil by (lia || constructor).
  do 3 f_equal. rewrite E at 1. rewrite length_app, Nat.add_comm, take_app_add.
  f_equal. rewrite E at 1. by rewrite take_app_length.
Qed.

Lemma locate_walk key r :
  points_sorted (ring_ r) ->
  Ring_locate key r = snd <$> head (walk (hash_fn key) (ring_ r)).
Proof.
  intros HS. unfold Ring_locate. destruct (walk_split (hash_fn key) (ring_ r) HS) as (pre & E & ->).
  destruct (lower_bound (hash_fn key) (ring_ r)) as [|q lb]; [|by rewrite E; destruct pre].
  rewrite app_nil_r in E. rewrite E. by destruct pre.
Qed.

(** ** The ring invariant *)

(** The hash of vnode [i < v] of [id]. *)
Definition is_vnode (v : nat) (id : bytes) (h : Z) : Prop :=
  exists i, (i < v)%nat /\ h = vnode_hash id i.

Lemma is_vnode_elem v id h : is_vnode v id h <-> h ∈ vnode_hash id <$> seq 0 v.
Proof.
  unfold is_vnode. rewrite list_elem_of_fmap. setoid_rewrite elem_of_seq. naive_solver lia.
Qed.

#[export] Instance is_vnode_dec v id h : Decision (is_vnode v id h).
Proof.
  refine (cast_if (decide (h ∈ vnode_hash id <$> seq 0 v))); by rewrite is_vnode_elem.
Defined.

(** The points are sorted, and each one is a vnode of the node registered under
    its id. *)
Record ring_wf (r : Ring) : Prop := {
  rw_sorted : points_sorted (ring_ r);
  rw_point : forall p, p ∈ ring_ r ->
    physical_nodes_ r !! cn_id p.2 = Some p.2 /\ is_vnode (num_vnodes_ r) (cn_id p.2) p.1;
  rw_ids : forall id n, physical_nodes_ r !! id = Some n -> cn_id n = id
}.

Lemma Ring_new_wf v : ring_wf (Ring_new v).
Proof. split; simpl; [constructor|set_solver|set_solver]. Qed.

Lemma points_insert_elem k v m p :
  points_sorted m -> p ∈ points_insert k v m <-> p = (k, v) \/ p ∈ m /\ p.1 <> k.
Proof.
  unfold points_sorted. induction m as [|[k' v'] r IH]; intros HS; simpl; [set_solver|].
  rewrite fmap_cons in HS. apply StronglySorted_inv in HS as [Hr Hk].
  rewrite Forall_fmap, Forall_forall in Hk. cbn [compose] in Hk. simpl in Hk.
  destruct (Z.ltb_spec k k') as [L|L]; [|destruct (Z.eqb_spec k k') as [->|Ne]].
  - rewrite !elem_of_cons. split; [|naive_solver].
    intros [->|[->|Hp]]; [by left|right; simpl; split; [by left|lia]|].
    right. split; [by right|]. specialize (Hk p Hp). lia.
  - rewrite !elem_of_cons. split; [|naive_solver].
    intros [->|Hp]; [by left|]. right. split; [by right|]. specialize (Hk p Hp). lia.
  - rewrite !elem_of_cons, IH by done. split; [|naive_solver].
    intros [->|[->|[Hp Hne]]]; [right; split; [by left|simpl; lia]|by left|].
    right. split; [by right|done].
Qed.

(** Inserting the points [hs] of one node. *)
Lemma insert_all_spec (node : CacheNode) (hs : list nat) (h : nat -> Z) m :
  points_sorted m ->
  points_sorted (foldl (fun m i => points_insert (h i) node m) m hs) /\
  forall p, p ∈ foldl (fun m i => points_insert (h i) node m) m hs <->
    p.2 = node /\ p.1 ∈ h <$> hs \/ p ∈ m /\ p.1 ∉ h <$> hs.
Proof.
  revert m. induction hs as [|i hs IH]; intros m HS; cbn [foldl].
  { split; [done|]. set_solver. }
  destruct (IH (points_insert (h i) node m)) as [I1 I2]; [by apply points_insert_sorted|].
  split; [done|]. intros p. rewrite I2, points_insert_elem, fmap_cons by done.
  rewrite elem_of_cons. destruct p as [k v]. simpl.
  destruct (decide (k ∈ h <$> hs)); naive_solver.
Qed.

Lemma erase_all_filter (h : nat -> Z) (hs : list nat) m :
  foldl (fun m i => points_erase (h i) m) m hs = filter (fun p => p.1 ∉ h <$> hs) m.
Proof.
  revert m. induction hs as [|i hs IH]; intros m; cbn [foldl].
  - symmetry. induction m as [|p m IHm]; [done|]. rewrite filter_cons, decide_True by set_solver.
    by f_equal.
  - rewrite IH. unfold points_erase. rewrite list_filter_filter. apply list_filter_iff.
    set_solver.
Qed.

Lemma Ring_add_elem node r p :
  points_sorted (ring_ r) ->
  p ∈ ring_ (Ring_add_node node r) <->
    p.2 = node /\ is_vnode (num_vnodes_ r) (cn_id node) p.1 \/
    p ∈ ring_ r /\ ~ is_vnode (num_vnodes_ r) (cn_id node) p.1.
Proof.
  intros HS. rewrite is_vnode_elem. simpl.
  by apply (insert_all_spec node (seq 0 (num_vnodes_ r)) (vnode_hash (cn_id node))).
Qed.

Lemma Ring_remove_points id r :
  ring_wf r ->
  ring_ (Ring_remove_node id r) =
  filter (fun p => is_Some (physical_nodes_ r !! id) -> ~ is_vnode (num_vnodes_ r) id p.1) (ring_ r).
Proof.
  intros _. unfold Ring_remove_node. destruct (physical_nodes_ r !! id) eqn:E; simpl.
  - rewrite erase_all_filter. apply list_filter_iff. intros p. rewrite is_vnode_elem. naive_solver.
  - symmetry. induction (ring_ r) as [|p m IH]; [done|].
    rewrite filter_cons, decide_True by (intros []; done). by f_equal.
Qed.

Lemma Ring_add_wf node r : ring_wf r -> ring_wf (Ring_add_node node r).
Proof.
  intros [HS HP HI]. split.
  - by apply insert_all_spec.
  - intros p Hp. apply Ring_add_elem in Hp as [[E Hv]|[Hp Hv]]; [| |done]; simpl.
    + rewrite E, lookup_insert_eq. done.
    + destruct (HP p Hp) as [H1 H2]. split; [|done]. rewrite lookup_insert_ne; [done|].
      intros E. apply Hv. by rewrite E.
  - intros id n. simpl. rewrite lookup_insert_Some. naive_solver.
Qed.

Lemma Ring_remove_wf id r : ring_wf r -> ring_wf (Ring_remove_node id r).
Proof.
  intros W. destruct (physical_nodes_ r !! id) eqn:E.
  2: { unfold Ring_remove_node. by rewrite E. }
  assert (Hn : num_vnodes_ (Ring_remove_node id r) = num_vnodes_ r)
    by (unfold Ring_remove_node; by rewrite E).
  assert (Hd : physical_nodes_ (Ring_remove_node id r) = delete id (physical_nodes_ r))
    by (unfold Ring_remove_node; by rewrite E).
  pose proof (Ring_remove_points id r W) as Hr. destruct W as [HS HP HI]. split.
  - rewrite Hr. by apply filter_sorted.
  - intros p. rewrite Hr, list_elem_of_filter, Hn, Hd. intros [Hv Hp].
    destruct (HP p Hp) as [H1 H2]. split; [|done]. rewrite lookup_delete_ne; [done|].
    intros ->. by apply Hv.
  - intros id' n. rewrite Hd, lookup_delete_Some. naive_solver.
Qed.

(** Every ring a cluster can build: any sequence of additions and removals. *)
Inductive RingOp := RingAdd (node : CacheNode) | RingRemove (id : bytes).

Definition Ring_exec (r : Ring) (op : RingOp) : Ring :=
  match op with
  | RingAdd node => Ring_add_node node r
  | RingRemove id => Ring_remove_node id r
  end.

Definition Ring_run (v : nat) (ops : list RingOp) : Ring := foldl Ring_exec (Ring_new v) ops.

Lemma Ring_run_wf v ops : ring_wf (Ring_run v ops).
Proof.
  unfold Ring_run. assert (H : ring_wf (Ring_new v)) by apply Ring_new_wf. revert H.
  generalize (Ring_new v). induction ops as [|[n|id] ops IH]; intros r H; simpl; auto.
  - apply IH. by apply Ring_add_wf.
  - apply IH. by apply Ring_remove_wf.
Qed.

#[export] Hint Resolve Ring_run_wf rw_sorted Ring_add_wf Ring_remove_wf : shard.

(** ** Walks of sorted point lists are determined by the points *)

Lemma sorted_ext m1 m2 :
  points_sorted m1 -> points_sorted m2 -> (forall p, p ∈ m1 <-> p ∈ m2) -> m1 = m2.
Proof.
  unfold points_sorted. revert m2. induction m1 as [|p1 m1 IH]; intros m2 H1 H2 H.
  { destruct m2 as [|p m2]; [done|]. exfalso. specialize (H p). set_solver. }
  destruct m2 as [|p2 m2]. { exfalso. specialize (H p1). set_solver. }
  rewrite fmap_cons in H1, H2.
  apply StronglySorted_inv in H1 as [S1 F1]. apply StronglySorted_inv in H2 as [S2 F2].
  rewrite Forall_fmap, Forall_forall in F1, F2. simpl in F1, F2.
  assert (p1 = p2) as ->.
  { pose proof (proj1 (H p1) ltac:(by left)) as A1. pose proof (proj2 (H p2) ltac:(by left)) as A2.
    apply elem_of_cons in A1 as [->|A1]; [done|]. apply elem_of_cons in A2 as [->|A2]; [done|].
    specialize (F1 _ A2). specialize (F2 _ A1). lia. }
  f_equal. apply IH; [done..|]. intros p. specialize (H p). rewrite !elem_of_cons in H.
  split; intros Hp; [specialize (F1 p Hp)|specialize (F2 p Hp)];
    (destruct H as [Ha Hb]; naive_solver lia).
Qed.

(** The points of the other nodes are untouched by [id]'s vnodes. *)
Definition no_collision (id : bytes) (r : Ring) : Prop :=
  forall p, p ∈ ring_ r -> cn_id p.2 <> id -> ~ is_vnode (num_vnodes_ r) id p.1.

(** Adding a node leaves the points of the others in place. *)
Lemma add_other_points node r :
  ring_wf r -> no_collision (cn_id node) r ->
  filter (fun p => cn_id p.2 <> cn_id node) (ring_ (Ring_add_node node r)) =
  filter (fun p => cn_id p.2 <> cn_id node) (ring_ r).
Proof.
  intros W NC. apply sorted_ext; [apply filter_sorted; eauto with shard..|].
  intros p. rewrite !list_elem_of_filter, Ring_add_elem by eauto with shard.
  split; [intros [Hne [[E _]|[Hp _]]]; [by rewrite E in Hne|done]|].
  intros [Hne Hp]. split; [done|]. right. split; [done|]. by apply NC.
Qed.

(** Removing a node removes its points and no others. *)
Lemma remove_own_points id r :
  ring_wf r -> no_collision id r ->
  ring_ (Ring_remove_node id r) = filter (fun p => cn_id p.2 <> id) (ring_ r).
Proof.
  intros W NC. apply sorted_ext; [eauto with shard|apply filter_sorted; eauto with shard|].
  intros p. rewrite Ring_remove_points, !list_elem_of_filter by done.
  split; intros [H Hp]; (split; [|done]).
  - destruct (rw_point r W p Hp) as [H1 H2]. intros <-. apply H; [by rewrite H1|done].
  - intros _. by apply NC.
Qed.

Lemma filter_walk_nodes (P : bytes -> Prop) `{!forall i, Decision (P i)} h (m : list (Z * CacheNode)) :
  filter (fun n => P (cn_id n)) (walk h m).*2 = (walk h (filter (fun p => P (cn_id p.2)) m)).*2.
Proof.
  rewrite walk_filter. induction (walk h m) as [|p l IH]; [done|].
  rewrite fmap_cons, !filter_cons. case_decide; [|done]. rewrite fmap_cons. by f_equal.
Qed.

(** The nodes of the clockwise walk from a key, each once. *)
Definition successors (key : bytes) (r : Ring) : list CacheNode :=
  dedup_by cn_id (walk (hash_fn key) (ring_ r)).*2.

Lemma successors_filter key r id :
  filter (fun n => cn_id n <> id) (successors key r) =
  dedup_by cn_id (walk (hash_fn key) (filter (fun p => cn_id p.2 <> id) (ring_ r))).*2.
Proof.
  unfold successors.
  pose proof (filter_dedup_by cn_id (fun i => i <> id) (walk (hash_fn key) (ring_ r)).*2) as E1.
  pose proof (filter_walk_nodes (fun i => i <> id) (hash_fn key) (ring_ r)) as E2.
  etransitivity; [exact E1|]. f_equal. exact E2.
Qed.

(** A list without duplicates that holds [x] is the list without [x] with [x]
    put back at one position. *)
Lemma insert_back (x : CacheNode) (l : list CacheNode) :
  NoDup (cn_id <$> l) -> x ∈ l ->
  exists k, l = take k (filter (fun n => cn_id n <> cn_id x) l) ++
            x :: drop k (filter (fun n => cn_id n <> cn_id x) l).
Proof.
  intros ND (l1 & l2 & ->)%list_elem_of_split. exists (length l1).
  rewrite fmap_app, fmap_cons in ND. apply NoDup_app in ND as (_ & N1 & N2).
  apply NoDup_cons in N2 as [N2 _].
  assert (Hall : forall l : list CacheNode, (forall y, y ∈ l -> cn_id y <> cn_id x) ->
    filter (fun n => cn_id n <> cn_id x) l = l).
  { induction l as [|y l IH]; intros H; [done|]. rewrite filter_cons, decide_True by set_solver.
    f_equal. apply IH. set_solver. }
  rewrite filter_app, filter_cons, decide_False by tauto.
  rewrite !Hall, take_app_length, drop_app_length; [done|..].
  - intros y Hy E. apply N2. rewrite <-E. by apply list_elem_of_fmap_2.
  - intros y Hy E. apply (N1 (cn_id y)); [by apply list_elem_of_fmap_2|].
    rewrite E. by left.
Qed.

(** Truncating such a list to [n]. *)
Lemma take_insert_back {A} (n k : nat) (x : A) (l : list A) :
  exists k', take n (take k l ++ x :: drop k l) = take n (take k' (take n l) ++ x :: drop k' (take n l)).
Proof.
  destruct (decide (k <= n)%nat) as [Hk|Hk].
  - exists k. rewrite take_take, Nat.min_l by done. rewrite List.skipn_firstn_comm.
    destruct (decide (k <= length l)%nat) as [Hl|Hl].
    + rewrite !take_app, !length_take, !Nat.min_l by lia. f_equal.
      destruct (n - k)%nat as [|j] eqn:E; [done|]. cbn [take]. f_equal.
      by rewrite take_take, Nat.min_l by lia.
    + rewrite !drop_ge by lia. by rewrite take_nil.
  - exists n. rewrite take_take, Nat.min_id.
    destruct (decide (n <= length l)%nat) as [Hl|Hl].
    + rewrite !take_app_le by (rewrite length_take; lia). rewrite !take_take. f_equal. lia.
    + rewrite !(take_ge l) by lia. rewrite !drop_ge by lia. done.
Qed.

(** ** Properties of the ring *)

(** The ids that own a point of the ring. *)
Definition point_owners (r : Ring) : gset bytes := list_to_set ((fun p => cn_id p.2) <$> ring_ r).

Lemma successors_size key r : length (successors key r) = size (point_owners r).
Proof.
  unfold successors. set (l := (walk (hash_fn key) (ring_ r)).*2).
  rewrite <-(length_fmap cn_id (dedup_by cn_id l)).
  rewrite <-(size_list_to_set (C := gset bytes)) by apply dedup_by_NoDup. f_equal.
  apply set_eq. intros id. unfold point_owners. rewrite !elem_of_list_to_set, !list_elem_of_fmap.
  split.
  - intros (n & -> & Hn%dedup_by_sub). apply list_elem_of_fmap in Hn as (p & -> & Hp).
    exists p. split; [done|]. by apply walk_elem in Hp.
  - intros (p & -> & Hp). apply (walk_elem (hash_fn key)) in Hp.
    assert (Hin : p.2 ∈ l) by (by apply list_elem_of_fmap_2).
    apply (dedup_by_key cn_id) in Hin. by apply list_elem_of_fmap in Hin.
Qed.

Lemma successors_registered key r n :
  ring_wf r -> n ∈ successors key r -> physical_nodes_ r !! cn_id n = Some n.
Proof.
  intros W Hn. apply dedup_by_sub, list_elem_of_fmap in Hn as (p & -> & Hp).
  apply walk_elem in Hp. by apply (rw_point r W).
Qed.

Lemma take_head {A} (n : nat) (l : list A) : (0 < n)%nat -> head (take n l) = head l.
Proof. destruct n; [lia|]. by destruct l. Qed.

Lemma locate_successors key r : points_sorted (ring_ r) -> Ring_locate key r = head (successors key r).
Proof.
  intros HS. rewrite locate_walk by done. unfold successors. by destruct (walk _ _).
Qed.

Lemma new_node_successors key node r :
  ring_wf r -> physical_nodes_ r !! cn_id node = None -> no_collision (cn_id node) r ->
  filter (fun n => cn_id n <> cn_id node) (successors key (Ring_add_node node r)) = successors key r.
Proof.
  intros W Hnew NC. rewrite successors_filter, add_other_points by done. unfold successors.
  do 3 f_equal. assert (Hreg : forall p, p ∈ ring_ r -> cn_id p.2 <> cn_id node).
  { intros p Hp E. apply (rw_point r W) in Hp as [Hp _]. rewrite E in Hp. congruence. }
  induction (ring_ r) as [|p m IH]; [done|]. rewrite filter_cons, decide_True by set_solver.
  f_equal. apply IH. set_solver.
Qed.

(** One more point changes the owner of a hash to that point's node or not at
    all. *)
Definition owner (h : Z) (m : list (Z * CacheNode)) : option CacheNode :=
  snd <$> match lower_bound h m with [] => head m | p :: _ => Some p end.

Lemma locate_owner key r : Ring_locate key r = owner (hash_fn key) (ring_ r).
Proof. unfold Ring_locate, owner. by destruct (ring_ r); [|case_match]. Qed.

Lemma head_insert k v m : head (points_insert k v m) = Some (k, v) \/ head (points_insert k v m) = head m.
Proof. destruct m as [|[k' v'] m]; simpl; [by left|]. repeat case_match; auto. Qed.

Lemma lower_bound_insert h k v m :
  head (lower_bound h (points_insert k v m)) = Some (k, v) \/
  head (lower_bound h (points_insert k v m)) = head (lower_bound h m).
Proof.
  induction m as [|[k' v'] m IH]; simpl; [destruct (k <? h); auto|].
  destruct (k <? k') eqn:E1; [|destruct (k =? k') eqn:E2]; bool_facts; simpl.
  - destruct (k <? h); auto.
  - subst k'. destruct (k <? h); auto.
  - destruct (k' <? h); auto.
Qed.

Lemma owner_insert h k v m :
  owner h (points_insert k v m) = Some v \/ owner h (points_insert k v m) = owner h m.
Proof.
  unfold owner. pose proof (lower_bound_insert h k v m) as H1. pose proof (head_insert k v m) as H2.
  destruct (lower_bound h (points_insert k v m)), (lower_bound h m); simpl in *;
    destruct H1 as [H1|H1]; simplify_eq; auto.
  destruct H2 as [-> | ->]; auto.
Qed.

Lemma Ring_run_vnodes v ops : num_vnodes_ (Ring_run v ops) = v.
Proof.
  unfold Ring_run. change v with (num_vnodes_ (Ring_new v)) at 2. generalize (Ring_new v).
  induction ops as [|[n|id] ops IH]; intros r; cbn [foldl]; [done|by rewrite IH|].
  rewrite IH. simpl. unfold Ring_remove_node. by case_match.
Qed.

Lemma new_node_in_successors key node r :
  ring_wf r -> (0 < num_vnodes_ r)%nat -> node ∈ successors key (Ring_add_node node r).
Proof.
  intros W Hv. set (r' := Ring_add_node node r). assert (W' : ring_wf r') by eauto with shard.
  assert (Hp : (vnode_hash (cn_id node) 0, node) ∈ ring_ r').
  { apply Ring_add_elem; [eauto with shard|]. left. split; [done|]. by exists 0%nat. }
  apply (walk_elem (hash_fn key)), (list_elem_of_fmap_2 snd), (dedup_by_key cn_id) in Hp.
  apply list_elem_of_fmap in Hp as (n & E & Hn). simpl in E.
  pose proof (successors_registered key r' n W' Hn) as Hreg. rewrite <-E in Hreg.
  unfold r' in Hreg. simpl in Hreg. rewrite lookup_insert_eq in Hreg. by simplify_eq.
Qed.

Lemma take_filter_one id n (l : list CacheNode) :
  NoDup (cn_id <$> l) ->
  take n (filter (fun x => cn_id x <> id) l) = take n (filter (fun x => cn_id x <> id) (take (S n) l)).
Proof.
  revert n. induction l as [|x l IH]; intros n ND; [done|].
  rewrite fmap_cons in ND. apply NoDup_cons in ND as [Hx ND]. cbn [take]. rewrite !filter_cons.
  case_decide as Hid; [destruct n as [|n]; [done|]; cbn [take]; f_equal; by apply IH|].
  assert (Hall : forall l' : list CacheNode, (forall y, y ∈ l' -> y ∈ l) ->
    filter (fun y => cn_id y <> id) l' = l').
  { clear IH. induction l' as [|y l' IH']; intros Hs; [done|].
    rewrite filter_cons, decide_True; [f_equal; apply IH'; set_solver|].
    intros E. apply Hx. rewrite Hid, <-E. apply list_elem_of_fmap_2, Hs. by left. }
  rewrite !Hall; [by rewrite take_take, Nat.min_id| |done].
  intros y (i & Hi & _)%elem_of_take. by apply list_elem_of_lookup_2 in Hi.
Qed.

(** On every ring built by additions and removals, [locate_replicas]
    terminates with the first [count] distinct nodes met walking clockwise from
    the key's hash: the ids are distinct, every replica is a registered node,
    there are as many as asked for unless the ring has fewer owners, and the
    first one is the node [locate] returns. *)
Theorem ring_replicas_spec v ops key count :
  let r := Ring_run v ops in
  let reps := Ring_locate_replicas key count r in
  reps = take count (successors key r) /\
  NoDup (cn_id <$> reps) /\
  (forall n, n ∈ reps -> physical_nodes_ r !! cn_id n = Some n) /\
  length reps = (count `min` size (point_owners r))%nat /\
  ((0 < count)%nat -> head reps = Ring_locate key r).
Proof.
  intros r reps. assert (W : ring_wf r) by apply Ring_run_wf.
  assert (E : reps = take count (successors key r)).
  { unfold reps. by rewrite locate_replicas_walk by eauto with shard. }
  split; [done|]. rewrite E. repeat split.
  - rewrite fmap_take. eapply sublist_NoDup; [apply (dedup_by_NoDup cn_id)|apply sublist_take].
  - intros n Hn. eapply successors_registered; [done|]. by apply elem_of_take in Hn as (i & Hi%list_elem_of_lookup_2 & _).
  - by rewrite length_take, successors_size.
  - intros Hc. by rewrite take_head, locate_successors by eauto with shard.
Qed.

(** Adding a node to a ring moves a key only to the new node: every other
    key stays where it was, whatever hash collisions the vnodes have. *)
Theorem ring_add_moves_only_to_new v ops node key :
  let r := Ring_run v ops in
  Ring_locate key (Ring_add_node node r) = Some node \/
  Ring_locate key (Ring_add_node node r) = Ring_locate key r.
Proof.
  intros r. rewrite !locate_owner. simpl. generalize (ring_ r).
  induction (seq 0 (num_vnodes_ r)) as [|i hs IH]; intros m; simpl; [by right|].
  destruct (IH (points_insert (vnode_hash (cn_id node) i) node m)) as [H|H]; [by left|].
  rewrite H. apply owner_insert.
Qed.

(** Adding a node that collides with nobody changes each key's replica list
    by inserting the new node at one position and cutting the list back to the
    replication factor: the others keep their order, and at most the last
    replica is displaced. *)
Theorem ring_add_displaces_one v ops node key n :
  let r := Ring_run v ops in
  physical_nodes_ r !! cn_id node = None -> no_collision (cn_id node) r -> (0 < v)%nat ->
  exists k, Ring_locate_replicas key n (Ring_add_node node r) =
    take n (take k (Ring_locate_replicas key n r) ++ node :: drop k (Ring_locate_replicas key n r)).
Proof.
  intros r Hnew NC Hv. assert (W : ring_wf r) by apply Ring_run_wf.
  rewrite !locate_replicas_walk by eauto with shard.
  fold (successors key r) (successors key (Ring_add_node node r)).
  rewrite <-(new_node_successors key node r) by done.
  assert (Hin : node ∈ successors key (Ring_add_node node r)).
  { apply new_node_in_successors; [done|]. unfold r. by rewrite Ring_run_vnodes. }
  destruct (insert_back node _ (dedup_by_NoDup cn_id _) Hin) as [k Hk].
  destruct (take_insert_back n k node
    (filter (fun x => cn_id x <> cn_id node) (successors key (Ring_add_node node r)))) as [k' Hk'].
  exists k'. rewrite <-Hk'. unfold successors at 1. by rewrite Hk at 1.
Qed.

(** Removing a node that collides with nobody takes it out of each key's
    replica list and lets the next successor in: the new list is the old list
    of one more replica without the node.  Keys that did not use the node keep
    their replicas. *)
Theorem ring_remove_promotes_next v ops id key n :
  let r := Ring_run v ops in
  no_collision id r ->
  Ring_locate_replicas key n (Ring_remove_node id r) =
    take n (filter (fun x => cn_id x <> id) (Ring_locate_replicas key (S n) r)).
Proof.
  intros r NC. assert (W : ring_wf r) by apply Ring_run_wf.
  rewrite !locate_replicas_walk by eauto with shard. rewrite remove_own_points by done.
  rewrite <-successors_filter. fold (successors key r).
  apply take_filter_one, (dedup_by_NoDup cn_id).
Qed.

(** Adding a node and removing it again restores the ring exactly, when its
    vnodes collide with nobody's. *)
Theorem ring_add_remove v ops node :
  let r := Ring_run v ops in
  physical_nodes_ r !! cn_id node = None ->
  (forall p, p ∈ ring_ r -> ~ is_vnode v (cn_id node) p.1) ->
  Ring_remove_node (cn_id node) (Ring_add_node node r) = r.
Proof.
  intros r Hnew NC. assert (W : ring_wf r) by apply Ring_run_wf.
  assert (Hv : num_vnodes_ r = v) by apply Ring_run_vnodes.
  assert (Hring : ring_ (Ring_remove_node (cn_id node) (Ring_add_node node r)) = ring_ r).
  { apply sorted_ext; [eauto with shard..|]. intros p.
    rewrite Ring_remove_points, list_elem_of_filter, Ring_add_elem by eauto with shard.
    simpl. rewrite lookup_insert_eq, Hv. split; [|naive_solver].
    intros [H1 [[_ H2]|[H2 _]]]; [|done]. by destruct (H1 ltac:(done)). }
  revert Hring. unfold Ring_remove_node. simpl. rewrite lookup_insert_eq. simpl. intros ->.
  rewrite delete_insert_id by done. by destruct r.
Qed.

(** ** The ring is determined by its nodes *)

(** No vnode of one node falls on a vnode of another. *)
Definition disjoint_vnodes (v : nat) (ids : gset bytes) : Prop :=
  forall id id' h, id ∈ ids -> id' ∈ ids -> is_vnode v id h -> is_vnode v id' h -> id = id'.

(** Every vnode of every registered node is on the ring. *)
Definition ring_complete (r : Ring) : Prop :=
  forall id n h, physical_nodes_ r !! id = Some n -> is_vnode (num_vnodes_ r) id h -> (h, n) ∈ ring_ r.

Lemma Ring_add_complete ids node r :
  ring_wf r -> ring_complete r -> disjoint_vnodes (num_vnodes_ r) ids ->
  cn_id node ∈ ids -> dom (physical_nodes_ r) ⊆ ids -> ring_complete (Ring_add_node node r).
Proof.
  intros W C D Hin Hdom id n h Hn Hv. simpl in Hv. apply Ring_add_elem; [eauto with shard|].
  simpl in Hn. apply lookup_insert_Some in Hn as [[<- <-]|[Hne Hn]]; [by left|].
  right. split; [by eapply C|]. intros Hv'. apply Hne. eapply (D _ _ h); try done.
  apply Hdom, elem_of_dom. eauto.
Qed.

Lemma Ring_remove_complete ids id r :
  ring_wf r -> ring_complete r -> disjoint_vnodes (num_vnodes_ r) ids ->
  dom (physical_nodes_ r) ⊆ ids -> ring_complete (Ring_remove_node id r).
Proof.
  intros W C D Hdom id' n h Hn Hv. rewrite Ring_remove_points by done. apply list_elem_of_filter.
  unfold Ring_remove_node in Hn, Hv. destruct (physical_nodes_ r !! id) as [m|] eqn:E; simpl in Hn, Hv.
  - apply lookup_delete_Some in Hn as [Hne Hn]. split; [|by eapply C].
    intros _ Hv'. apply Hne. eapply (D _ _ h); try done; apply Hdom, elem_of_dom; eauto.
  - split; [|by eapply C]. by intros [].
Qed.

(** The id an operation is about. *)
Definition ring_op_id (op : RingOp) : bytes :=
  match op with RingAdd n => cn_id n | RingRemove id => id end.

Lemma Ring_run_complete v ids ops :
  disjoint_vnodes v ids -> Forall (fun op => ring_op_id op ∈ ids) ops ->
  ring_complete (Ring_run v ops) /\ dom (physical_nodes_ (Ring_run v ops)) ⊆ ids.
Proof.
  intros D. induction ops as [|op ops IH] using rev_ind; intros HF.
  { split; [|set_solver]. intros id n h Hn. simpl in Hn. by rewrite lookup_empty in Hn. }
  apply Forall_app in HF as [HF Hop]. rewrite Forall_singleton in Hop.
  destruct (IH HF) as [C Hd]. pose proof (Ring_run_wf v ops) as W.
  pose proof (Ring_run_vnodes v ops) as Hv.
  unfold Ring_run in *. rewrite foldl_app. cbn [foldl]. set (r := foldl _ _ ops) in *.
  rewrite <-Hv in D. destruct op as [n|id]; cbn [ring_op_id Ring_exec] in Hop |- *.
  - split; [by apply (Ring_add_complete ids)|]. simpl. rewrite dom_insert. set_solver.
  - split; [by apply (Ring_remove_complete ids)|]. unfold Ring_remove_node. case_match; simpl; [|done].
    rewrite dom_delete. set_solver.
Qed.

(** The ring is a function of the set of nodes: two sequences of joins and leaves
    that agree on who is in give the same ring, as long as no two node ids have
    colliding vnodes. *)
Lemma rings_agree v ids ops ops' :
  disjoint_vnodes v ids ->
  Forall (fun op => ring_op_id op ∈ ids) ops -> Forall (fun op => ring_op_id op ∈ ids) ops' ->
  physical_nodes_ (Ring_run v ops) = physical_nodes_ (Ring_run v ops') ->
  Ring_run v ops = Ring_run v ops'.
Proof.
  intros D H H' E.
  assert (Hin : forall o o', ring_complete (Ring_run v o') ->
    physical_nodes_ (Ring_run v o) = physical_nodes_ (Ring_run v o') ->
    forall p, p ∈ ring_ (Ring_run v o) -> p ∈ ring_ (Ring_run v o')).
  { intros o o' C Ep [h n] Hp. destruct (rw_point _ (Ring_run_wf v o) _ Hp) as [H1 H2].
    simpl in *. rewrite Ring_run_vnodes in H2. apply (C (cn_id n)); [by rewrite <-Ep|].
    by rewrite Ring_run_vnodes. }
  destruct (Ring_run_complete v ids ops D H) as [C _].
  destruct (Ring_run_complete v ids ops' D H') as [C' _].
  assert (Er : ring_ (Ring_run v ops) = ring_ (Ring_run v ops')).
  { apply sorted_ext; [eauto with shard..|]. intros p. split; by apply Hin. }
  pose proof (Ring_run_vnodes v ops). pose proof (Ring_run_vnodes v ops').
  destruct (Ring_run v ops), (Ring_run v ops'). simpl in *. by subst.
Qed.

(** Colliding vnodes make the ring depend on the order of joins: these two ids
    have vnodes that hash alike, and which node owns the shared points depends on
    which was added last, so two members of a cluster can disagree about the
    owner of a key for good. *)
Theorem ring_collision_order_matters :
  let n1 := mkCN (lit "node1189") (lit "h1") 7001 in
  let n2 := mkCN (lit "node1746") (lit "h2") 7001 in
  let r12 := Ring_run 256 [RingAdd n1; RingAdd n2] in
  let r21 := Ring_run 256 [RingAdd n2; RingAdd n1] in
  physical_nodes_ r12 = physical_nodes_ r21 /\
  exists key, Ring_locate key r12 = Some n2 /\ Ring_locate key r21 = Some n1.
Proof.
  cbv zeta. split; [by apply insert_insert_ne|]. exists (lit "node1189#18"). split; vm_compute; reflexivity.
Qed.

(** ** Witnesses: a ring of three nodes with eight vnodes each *)

#[export] Instance no_collision_dec id r : Decision (no_collision id r).
Proof.
  refine (cast_if (decide (Forall
    (fun p => cn_id p.2 <> id -> ~ is_vnode (num_vnodes_ r) id p.1) (ring_ r))));
    unfold no_collision; by rewrite <-Forall_forall.
Defined.

Definition node_a := mkCN (lit "a") (lit "10.0.0.1") 6379.
Definition node_b := mkCN (lit "b") (lit "10.0.0.2") 6379.
Definition node_c := mkCN (lit "c") (lit "10.0.0.3") 6379.
Definition node_d := mkCN (lit "d") (lit "10.0.0.4") 6379.
Definition ring3 := [RingAdd node_a; RingAdd node_b; RingAdd node_d; RingRemove (lit "d"); RingAdd node_c].

Lemma ring_add_displaces_one_witness :
  physical_nodes_ (Ring_run 8 ring3) !! cn_id node_d = None /\
  no_collision (cn_id node_d) (Ring_run 8 ring3) /\
  exists k, Ring_locate_replicas (lit "user:7") 2 (Ring_add_node node_d (Ring_run 8 ring3)) =
    take 2 (take k (Ring_locate_replicas (lit "user:7") 2 (Ring_run 8 ring3)) ++ node_d ::
            drop k (Ring_locate_replicas (lit "user:7") 2 (Ring_run 8 ring3))).
Proof.
  assert (H1 : physical_nodes_ (Ring_run 8 ring3) !! cn_id node_d = None)
    by (vm_compute; reflexivity).
  assert (H2 : no_collision (cn_id node_d) (Ring_run 8 ring3))
    by (by_eval).
  split; [exact H1|split; [exact H2|]].
  apply (ring_add_displaces_one 8 ring3 node_d (lit "user:7") 2 H1 H2). lia.
Defined.

Lemma ring_remove_promotes_next_witness :
  no_collision (lit "b") (Ring_run 8 ring3) /\
  Ring_locate_replicas (lit "user:7") 2 (Ring_remove_node (lit "b") (Ring_run 8 ring3)) =
    take 2 (filter (fun x => cn_id x <> lit "b")
      (Ring_locate_replicas (lit "user:7") 3 (Ring_run 8 ring3))).
Proof.
  assert (H : no_collision (lit "b") (Ring_run 8 ring3))
    by (by_eval).
  split; [exact H|]. exact (ring_remove_promotes_next 8 ring3 (lit "b") (lit "user:7") 2 H).
Defined.

Lemma ring_add_remove_witness :
  Ring_remove_node (cn_id node_d) (Ring_add_node node_d (Ring_run 8 ring3)) = Ring_run 8 ring3.
Proof.
  apply (ring_add_remove 8 ring3 node_d).
  - vm_compute. reflexivity.
  - apply Forall_forall.
    apply (bool_decide_eq_true_1 (Forall (fun p => ~ is_vnode 8 (cn_id node_d) p.1) (ring_ (Ring_run 8 ring3)))).
    vm_compute. reflexivity.
Defined.

Lemma disjoint_vnodes_check v (ids : list bytes) :
  NoDup (concat ((fun id => remove_dups (vnode_hash id <$> seq 0 v)) <$> ids)) ->
  disjoint_vnodes v (list_to_set ids).
Proof.
  induction ids as [|i ids IH]; intros ND id id' h Hi Hi' Hv Hv'; [by apply elem_of_empty in Hi|].
  rewrite fmap_cons in ND. cbn [concat] in ND. apply NoDup_app in ND as (_ & N & ND).
  assert (Hhead : forall j, j ∈ ids -> is_vnode v i h -> is_vnode v j h -> False).
  { intros j Hj H1 H2. apply (N h).
    - by apply elem_of_remove_dups, is_vnode_elem.
    - apply elem_of_concat. exists (remove_dups (vnode_hash j <$> seq 0 v)).
      split; [by apply elem_of_remove_dups, is_vnode_elem|].
      by apply (list_elem_of_fmap_2 (fun id => remove_dups (vnode_hash id <$> seq 0 v))). }
  cbn [list_to_set] in Hi, Hi'. apply elem_of_union in Hi as [Hi|Hi], Hi' as [Hi'|Hi'];
    rewrite ?elem_of_singleton in *; subst.
  - done.
  - exfalso. apply (Hhead id'); [by apply elem_of_list_to_set in Hi'|done..].
  - exfalso. apply (Hhead id); [by apply elem_of_list_to_set in Hi|done..].
  - by apply (IH ND id id' h).
Qed.
