(* ===== verification/RoutingTable.v ===== *)
(** * The precomputed routing table

    Models src/routing_table.cpp: the immutable table the cluster publishes on
    every membership change, whose preference lists hold 16-bit node indices.
    It is proved to route exactly as the ring it was built from. *)

From S2P Require Import Prelude Numerals ConsistentHash.

Local Open Scope Z_scope.

(** [class RoutingTable]. *)
Record RoutingTable := mkRT {
  rt_nodes_ : list CacheNode;
  rt_points_ : list Z;
  rt_replicas_ : list (list Z);
  rt_local_member_ : list bool
}.

(** ** The constructor *)

(** The locals of the first loop: [index_of], [nodes_], [points_], [owner]. *)
Record IndexState := mkIndex {
  index_of : gmap bytes Z;
  ix_nodes : list CacheNode;
  ix_points : list Z;
  ix_owner : list Z
}.

(** One iteration: [emplace] keeps an index that is already there. *)
Definition index_step (st : IndexState) (p : Z * CacheNode) : IndexState :=
  match index_of st !! cn_id p.2 with
  | Some i => mkIndex (index_of st) (ix_nodes st) (ix_points st ++ [p.1]) (ix_owner st ++ [i])
  | None =>
      let i := u16 (Z.of_nat (length (ix_nodes st))) in
      mkIndex (<[cn_id p.2 := i]> (index_of st)) (ix_nodes st ++ [p.2])
        (ix_points st ++ [p.1]) (ix_owner st ++ [i])
  end.

(** The loop over [step] that fills [replicas_[p]]; [remaining] is
    [points - step]. *)
Fixpoint prefer_loop (owner : list Z) (p n : nat) (remaining step : nat) (lst : list Z) : list Z :=
  match remaining with
  | O => lst
  | S remaining' =>
      if (length lst <? n)%nat then
        let candidate := default 0 (owner !! ((p + step) mod length owner)%nat) in
        prefer_loop owner p n remaining' (S step)
          (if decide (candidate ∈ lst) then lst else lst ++ [candidate])
      else lst
  end.

(** [nodes_[idx].id == local_id] for some index of the list. *)
Definition has_local (nodes : list CacheNode) (local_id : bytes) (l : list Z) : bool :=
  existsb (fun idx => match nodes !! Z.to_nat idx with
                      | Some n => bytes_eqb (cn_id n) local_id
                      | None => false
                      end) l.

(** [RoutingTable::RoutingTable]. *)
Definition RoutingTable_new (r : Ring) (replication_factor : nat) (local_id : bytes) : RoutingTable :=
  let st := foldl index_step (mkIndex ∅ [] [] []) (ring_ r) in
  let n := (replication_factor `min` length (ix_nodes st))%nat in
  let points := length (ix_points st) in
  let replicas := (fun p => prefer_loop (ix_owner st) p n points 0 []) <$> seq 0 points in
  mkRT (ix_nodes st) (ix_points st) replicas
    (has_local (ix_nodes st) local_id <$> replicas).

(** [std::lower_bound] on the sorted vector: the first position not below
    [h], the length when there is none. *)
Fixpoint lower_bound_index (h : Z) (l : list Z) : nat :=
  match l with
  | [] => 0
  | x :: r => if x <? h then S (lower_bound_index h r) else 0
  end.

(** [RoutingTable::point_for]. *)
Definition RoutingTable_point_for (key : bytes) (t : RoutingTable) : nat :=
  let it := lower_bound_index (hash_fn key) (rt_points_ t) in
  if (it =? length (rt_points_ t))%nat then 0%nat else it.

(** [RoutingTable::preference_list(point)]; [None] is an index out of range. *)
Definition RoutingTable_preference_list_at (point : nat) (t : RoutingTable) : option (list CacheNode) :=
  idxs ← rt_replicas_ t !! point;
  mapM (fun idx => rt_nodes_ t !! Z.to_nat idx) idxs.

(** [RoutingTable::preference_list(key)]. *)
Definition RoutingTable_preference_list (key : bytes) (t : RoutingTable) : option (list CacheNode) :=
  match rt_points_ t with
  | [] => Some []
  | _ => RoutingTable_preference_list_at (RoutingTable_point_for key t) t
  end.

(** [RoutingTable::local_is_replica]; [None] is a point out of range. *)
Definition RoutingTable_local_is_replica (point : nat) (t : RoutingTable) : option bool :=
  rt_local_member_ t !! point.

(** ** The index loop numbers the nodes by first occurrence *)

(** What the first loop has established after the points [ps]. *)
Record index_inv (ps : list (Z * CacheNode)) (st : IndexState) : Prop := {
  ii_points : ix_points st = ps.*1;
  ii_nodes : forall n, n ∈ ix_nodes st -> n ∈ ps.*2;
  ii_nodup : NoDup (cn_id <$> ix_nodes st);
  ii_index : forall id i, index_of st !! id = Some i <->
    exists j n, i = Z.of_nat j /\ ix_nodes st !! j = Some n /\ cn_id n = id;
  ii_owner : Forall2 (fun i p => index_of st !! cn_id p.2 = Some i) (ix_owner st) ps
}.

Lemma NoDup_length_incl (l k : list bytes) : NoDup l -> (forall x, x ∈ l -> x ∈ k) -> (length l <= length k)%nat.
Proof. intros ND H. apply NoDup_incl_length; [by apply NoDup_ListNoDup|]. intros x. rewrite <-!list_elem_of_In. apply H. Qed.

Lemma index_step_inv ps p st :
  index_inv ps st -> Z.of_nat (length (ix_nodes (index_step st p))) <= 65536 ->
  index_inv (ps ++ [p]) (index_step st p).
Proof.
  intros [Hp Hn Hd Hi Ho] Hlen. unfold index_step in *. destruct (index_of st !! cn_id p.2) as [i|] eqn:E.
  - split; simpl; [by rewrite fmap_app, Hp|set_solver|done|done|].
    apply Forall2_app; [done|]. by repeat constructor.
  - assert (Hu : u16 (Z.of_nat (length (ix_nodes st))) = Z.of_nat (length (ix_nodes st)))
      by (apply wrap_small; simpl in Hlen; rewrite length_app in Hlen; simpl in Hlen; lia).
    assert (Hfresh : cn_id p.2 ∉ cn_id <$> ix_nodes st).
    { intros (n & En & (j & Hj)%list_elem_of_lookup)%list_elem_of_fmap.
      assert (index_of st !! cn_id p.2 = Some (Z.of_nat j)) by (apply Hi; eauto). congruence. }
    rewrite Hu. split; simpl.
    + by rewrite fmap_app, Hp.
    + intros n. rewrite fmap_app, !elem_of_app. set_solver.
    + rewrite fmap_app. apply NoDup_app. split; [done|]. split; [|apply NoDup_singleton]. set_solver.
    + intros id i. rewrite lookup_insert_Some, Hi. split.
      * intros [[<- <-]|[Hne (j & n & -> & Hj & <-)]].
        -- exists (length (ix_nodes st)), p.2. by rewrite lookup_app_r, Nat.sub_diag by lia.
        -- exists j, n. by rewrite lookup_app_l by (by eapply lookup_lt_Some).
      * intros (j & n & -> & Hj & <-). apply lookup_app_Some in Hj as [Hj|[Hge Hj]].
        -- right. split; [|by eauto]. intros En. apply Hfresh. rewrite En.
           by eapply list_elem_of_fmap_2, list_elem_of_lookup_2.
        -- apply list_lookup_singleton_Some in Hj as [Hj <-]. left. split; [done|]. lia.
    + apply Forall2_app; [|repeat constructor; by rewrite lookup_insert_eq].
      eapply Forall2_impl; [exact Ho|]. intros i q Hq. simpl in *.
      rewrite lookup_insert_ne; [done|]. intros Eq. rewrite Eq in E. congruence.
Qed.

(** The ids among some points. *)
Definition ids_of (ps : list (Z * CacheNode)) : gset bytes := list_to_set ((fun p => cn_id p.2) <$> ps).

Lemma index_inv_ids ps st : index_inv ps st -> list_to_set (cn_id <$> ix_nodes st) = ids_of ps.
Proof.
  intros [Hp Hn Hd Hi Ho]. apply set_eq. intros id. unfold ids_of.
  rewrite !elem_of_list_to_set, !list_elem_of_fmap. split.
  - intros (n & -> & Hin%Hn). apply list_elem_of_fmap in Hin as (q & -> & Hq). eauto.
  - intros (q & -> & (j & Hj)%list_elem_of_lookup).
    destruct (Forall2_lookup_r _ _ _ _ _ Ho Hj) as (i & _ & Hq).
    apply Hi in Hq as (k & n & _ & Hk%list_elem_of_lookup_2 & En). eauto.
Qed.

Lemma index_inv_length ps st : index_inv ps st -> length (ix_nodes st) = size (ids_of ps).
Proof.
  intros I. rewrite <-(index_inv_ids ps st I), size_list_to_set by apply I. by rewrite length_fmap.
Qed.

Lemma index_run_inv ps :
  Z.of_nat (size (ids_of ps)) <= 65536 ->
  index_inv ps (foldl index_step (mkIndex ∅ [] [] []) ps).
Proof.
  induction ps as [|p ps IH] using rev_ind; intros Hs.
  { split; simpl; [done|set_solver|constructor| |constructor].
    intros id i. rewrite lookup_empty. split; [done|]. intros (j & n & _ & Hj & _). done. }
  rewrite foldl_app. cbn [foldl]. set (st := foldl _ _ ps) in *.
  assert (Hsplit : ids_of (ps ++ [p]) = ids_of ps ∪ {[cn_id p.2]}).
  { unfold ids_of. rewrite fmap_app, list_to_set_app_L. set_solver. }
  assert (I : index_inv ps st).
  { apply IH. pose proof (subseteq_size (ids_of ps) (ids_of (ps ++ [p]))) as Hsub.
    rewrite Hsplit in *. specialize (Hsub ltac:(set_solver)). lia. }
  apply index_step_inv; [done|]. pose proof (index_inv_length ps st I) as Hl.
  unfold index_step. destruct (index_of st !! cn_id p.2) eqn:E; simpl.
  - rewrite Hl. pose proof (subseteq_size (ids_of ps) (ids_of (ps ++ [p]))) as Hsub.
    rewrite Hsplit in *. specialize (Hsub ltac:(set_solver)). lia.
  - rewrite length_app, Hl. simpl. rewrite Hsplit, size_union in Hs; [rewrite size_singleton in Hs; lia|].
    rewrite <-(index_inv_ids ps st I). intros id Hid Heq. apply elem_of_singleton in Heq as ->.
    apply elem_of_list_to_set, list_elem_of_fmap in Hid as (n & En & (j & Hj)%list_elem_of_lookup).
    assert (index_of st !! cn_id p.2 = Some (Z.of_nat j)) by (apply I; eauto). congruence.
Qed.

(** ** The preference loop walks the owners clockwise *)

Lemma prefer_loop_spec owner p n rem step lst :
  (step + rem = length owner)%nat -> (p < length owner)%nat ->
  prefer_loop owner p n rem step lst =
  push_distinct id n (drop step (drop p owner ++ take p owner)) lst.
Proof.
  revert step lst. induction rem as [|rem IH]; intros step lst Hs Hp.
  { rewrite drop_ge by (rewrite length_app, length_drop, length_take; lia). done. }
  cbn [prefer_loop].
  assert (exists c, owner !! ((p + step) mod length owner)%nat = Some c /\
    drop step (drop p owner ++ take p owner) = c :: drop (S step) (drop p owner ++ take p owner)) as (c & Hc & ->).
  { destruct (lookup_lt_is_Some_2 owner ((p + step) mod length owner)) as [c Hc].
    { apply Nat.mod_upper_bound. lia. }
    exists c. split; [done|]. apply drop_S. rewrite <-Hc.
    destruct (decide (p + step < length owner)%nat) as [L|L].
    - rewrite Nat.mod_small by done. rewrite lookup_app_l by (rewrite length_drop; lia).
      by rewrite lookup_drop.
    - rewrite lookup_app_r by (rewrite length_drop; lia). rewrite length_drop, lookup_take_lt by lia.
      f_equal. rewrite (Nat.mod_eq (p + step)) by lia.
      replace ((p + step) / length owner)%nat with 1%nat; [lia|].
      apply (Nat.div_unique _ _ 1 (p + step - length owner)); lia. }
  rewrite Hc. simpl. destruct (_ <? _)%nat; [|done]. rewrite IH by lia. by rewrite list_fmap_id.
Qed.

Lemma lower_bound_index_spec h (m : list (Z * CacheNode)) :
  lower_bound h m = drop (lower_bound_index h m.*1) m /\ (lower_bound_index h m.*1 <= length m)%nat.
Proof.
  induction m as [|p m [IH1 IH2]]; [done|]. rewrite fmap_cons. cbn [lower_bound lower_bound_index].
  destruct (p.1 <? h); cbn [drop length]; [split; [done|lia]|split; [done|lia]].
Qed.

(** The table's point for a key starts the walk of the ring. *)
Lemma point_for_walk key r t :
  points_sorted (ring_ r) -> rt_points_ t = (ring_ r).*1 -> ring_ r <> [] ->
  let p := RoutingTable_point_for key t in
  (p < length (ring_ r))%nat /\
  walk (hash_fn key) (ring_ r) = drop p (ring_ r) ++ take p (ring_ r).
Proof.
  intros HS Hp Hne. cbv zeta. unfold RoutingTable_point_for. rewrite Hp, length_fmap.
  destruct (walk_split (hash_fn key) (ring_ r) HS) as (pre & E & ->).
  destruct (lower_bound_index_spec (hash_fn key) (ring_ r)) as [Hlb Hle].
  set (i := lower_bound_index _ _) in *. rewrite Hlb in E.
  assert (Hpre : pre = take i (ring_ r)).
  { rewrite <-(take_drop i (ring_ r)) in E at 1. by apply app_inv_tail in E. }
  destruct (Nat.eqb_spec i (length (ring_ r))) as [Ei|Ei].
  - split; [destruct (ring_ r); [done|simpl; lia]|].
    rewrite Hlb, Hpre, Ei, drop_ge, take_ge by lia. simpl. by rewrite drop_0, app_nil_r.
  - split; [lia|]. by rewrite Hlb, Hpre.
Qed.

(** ** The table routes as the ring does *)

(** The table index [i] stands for the node [n]. *)
Definition index_rel (st : IndexState) (i : Z) (n : CacheNode) : Prop :=
  index_of st !! cn_id n = Some i /\ ix_nodes st !! Z.to_nat i = Some n.

Lemma index_rel_key ps st i j n m :
  index_inv ps st -> index_rel st i n -> index_rel st j m -> i = j <-> cn_id n = cn_id m.
Proof.
  intros I [Hi Hn] [Hj Hm]. split; [intros ->; congruence|]. intros E. rewrite E in Hi. congruence.
Qed.

Lemma owners_rel r st :
  ring_wf r -> index_inv (ring_ r) st -> Forall2 (index_rel st) (ix_owner st) (ring_ r).*2.
Proof.
  intros W I. apply Forall2_fmap_r, Forall2_same_length_lookup_2.
  { by eapply Forall2_length, (ii_owner _ _ I). }
  intros k i p Hki Hkp. pose proof (Forall2_lookup_lr _ _ _ _ _ _ (ii_owner _ _ I) Hki Hkp) as Hi.
  apply list_elem_of_lookup_2 in Hkp as Hp. split; [done|].
  apply (ii_index _ _ I) in Hi as (j & n & -> & Hj & En). rewrite Nat2Z.id.
  assert (Hn : n ∈ (ring_ r).*2) by (eapply (ii_nodes _ _ I), list_elem_of_lookup_2, Hj).
  apply list_elem_of_fmap in Hn as (q & -> & Hq).
  destruct (rw_point r W p Hp) as [H1 _]. destruct (rw_point r W q Hq) as [H2 _].
  rewrite En in H2. congruence.
Qed.

Lemma mapM_rel st l (ns : list CacheNode) :
  Forall2 (index_rel st) l ns -> mapM (fun i => ix_nodes st !! Z.to_nat i) l = Some ns.
Proof.
  intros H. apply mapM_Some. eapply Forall2_impl; [exact H|]. by intros i n [_ Hn].
Qed.

Lemma has_local_rel st l (ns : list CacheNode) local_id :
  Forall2 (index_rel st) l ns ->
  has_local (ix_nodes st) local_id l = bool_decide (local_id ∈ cn_id <$> ns).
Proof.
  induction 1 as [|i n l ns [_ Hn] _ IH]; [done|]. cbn [has_local existsb].
  fold (has_local (ix_nodes st) local_id l). rewrite Hn, IH, fmap_cons.
  unfold bytes_eqb. repeat case_bool_decide; set_solver.
Qed.

(** What the table stores at the point of a key. *)
Lemma table_row r rf local_id key :
  let t := RoutingTable_new r rf local_id in
  let st := foldl index_step (mkIndex ∅ [] [] []) (ring_ r) in
  ring_wf r -> Z.of_nat (size (point_owners r)) <= 65536 -> ring_ r <> [] ->
  exists row, rt_replicas_ t !! RoutingTable_point_for key t = Some row /\
    Forall2 (index_rel st) row (Ring_locate_replicas key rf r).
Proof.
  intros t st W Hsize Hne.
  assert (I : index_inv (ring_ r) st) by (by apply index_run_inv).
  assert (Hpts : rt_points_ t = (ring_ r).*1) by apply I.
  destruct (point_for_walk key r t (rw_sorted r W) Hpts Hne) as [Hp Hwalk].
  set (p := RoutingTable_point_for key t) in *.
  assert (Hlen : length (ix_points st) = length (ring_ r)) by (rewrite (ii_points _ _ I); apply length_fmap).
  pose proof (owners_rel r st W I) as HR.
  assert (Hown : length (ix_owner st) = length (ring_ r)) by (apply Forall2_length in HR; by rewrite length_fmap in HR).
  eexists. split.
  { unfold t, RoutingTable_new. cbn [rt_replicas_]. fold st. rewrite list_lookup_fmap, Hlen.
    rewrite lookup_seq_lt by done. reflexivity. }
  cbn [Nat.add]. rewrite prefer_loop_spec, drop_0, push_distinct_nil by lia.
  rewrite locate_replicas_walk, Hwalk by eauto with shard.
  assert (HD : Forall2 (index_rel st) (dedup_by id (drop p (ix_owner st) ++ take p (ix_owner st)))
    (dedup_by cn_id (drop p (ring_ r) ++ take p (ring_ r)).*2)).
  { apply Forall2_dedup_by; [intros; by eapply index_rel_key|].
    rewrite fmap_app, fmap_drop, fmap_take. apply Forall2_app; [by apply Forall2_drop|by apply Forall2_take]. }
  rewrite (index_inv_length _ _ I). change (ids_of (ring_ r)) with (point_owners r).
  pose proof (successors_size key r) as Hs. unfold successors in Hs. rewrite Hwalk in Hs.
  rewrite <-Hs. set (D := dedup_by cn_id _) in *.
  replace (take rf D) with (take (rf `min` length D) D); [by apply Forall2_take|].
  rewrite <-take_take. by rewrite (take_ge D (length D)).
Qed.

Lemma routing_table_correct r rf local_id key :
  let t := RoutingTable_new r rf local_id in
  ring_wf r -> Z.of_nat (size (point_owners r)) <= 65536 ->
  RoutingTable_preference_list key t = Some (Ring_locate_replicas key rf r) /\
  (ring_ r <> [] ->
   RoutingTable_local_is_replica (RoutingTable_point_for key t) t =
   Some (bool_decide (local_id ∈ cn_id <$> Ring_locate_replicas key rf r))).
Proof.
  intros t W Hsize. destruct (decide (ring_ r = [])) as [E|Hne].
  { split; [|done]. unfold RoutingTable_preference_list, t, RoutingTable_new, Ring_locate_replicas.
    by rewrite E. }
  destruct (table_row r rf local_id key W Hsize Hne) as (row & Hrow & HR). fold t in Hrow, HR.
  split.
  - unfold RoutingTable_preference_list, RoutingTable_preference_list_at. rewrite Hrow.
    assert (Hpts : rt_points_ t = (ring_ r).*1) by (by apply index_run_inv).
    rewrite Hpts. destruct (ring_ r).*1 eqn:Er; [by apply fmap_nil_inv in Er|].
    by apply mapM_rel.
  - intros _. unfold RoutingTable_local_is_replica, t, RoutingTable_new in *. simpl in *.
    rewrite list_lookup_fmap, Hrow. simpl. f_equal. by apply has_local_rel.
Qed.

(** C26: The precomputed table gives every key the replica list the ring's own
    walk gives it, and its local-membership flag is set exactly when the local
    node is one of them, as long as the 16-bit node indices do not run out. *)
Theorem routing_table_routes_as_ring v ops rf local_id key :
  let r := Ring_run v ops in
  let t := RoutingTable_new r rf local_id in
  Z.of_nat (size (point_owners r)) <= 65536 ->
  RoutingTable_preference_list key t = Some (Ring_locate_replicas key rf r) /\
  (ring_ r <> [] ->
   RoutingTable_local_is_replica (RoutingTable_point_for key t) t =
   Some (bool_decide (local_id ∈ cn_id <$> Ring_locate_replicas key rf r))).
Proof. intros r t Hsize. apply routing_table_correct; [apply Ring_run_wf|done]. Qed.

Lemma routing_table_routes_as_ring_witness :
  RoutingTable_preference_list (lit "user:7") (RoutingTable_new (Ring_run 8 ring3) 2 (lit "a")) =
    Some (Ring_locate_replicas (lit "user:7") 2 (Ring_run 8 ring3)).
Proof.
  apply (routing_table_routes_as_ring 8 ring3 2 (lit "a") (lit "user:7")).
  vm_compute. discriminate.
Defined.
