(* ===== verification/VersionedStore.v ===== *)
(** * What a replica's store promises to the cluster

    The cluster (src/cluster.cpp) uses its local cache through four calls:
    [apply], [get_versioned], [remove] and [for_each_shard_snapshot].  This file
    states what they promise as a type class; [Cache] implements it here and
    [ShardedCache] in its own file, and the cluster's theorems are proved against
    the class. *)

From S2P Require Import Prelude CacheEntry Cache CacheSpec CacheRefine CacheProps.

Local Open Scope Z_scope.

Class VersionedStore (S : Type) := {
  vs_wf : S -> Prop;
  (** [apply]: the new state, whether it changed, and [was_live]. *)
  vs_apply : Z -> bytes -> VersionedValue -> S -> option (S * bool * bool);
  vs_get_versioned : Z -> bytes -> S -> option (S * option VersionedValue);
  vs_remove : Z -> bytes -> S -> option (S * bool);
  (** The batches of a snapshot; the argument is the time of each shard's visit. *)
  vs_snapshot : (nat -> Z) -> S -> list (list (bytes * VersionedValue))
}.

(** The stamp [get_versioned] would report. *)
Definition vs_view {S} `{VersionedStore S} (now : Z) (k : bytes) (s : S) : option Stamp :=
  '(_, r) ← vs_get_versioned now k s; stamp_of_vv <$> r.

(** A TTL that has not run out on arrival. *)
Definition ttl_positive (v : VersionedValue) : Prop := forall ms, vv_ttl v = Some ms -> 0 < ms.

(** A stamp a reader takes for a value. *)
Definition live_stamp (o : option Stamp) : bool :=
  match o with Some st => negb (st_tombstone st) | None => false end.

Class VersionedStoreLaws (S : Type) `{VersionedStore S} : Prop := {
  (** [apply] keeps the larger stamp of the key, unless its TTL has run out on
      arrival; other keys keep theirs or are evicted. *)
  vs_apply_law now k v s : vs_wf s ->
    exists s' changed was_live, vs_apply now k v s = Some (s', changed, was_live) /\ vs_wf s' /\
      (ttl_positive v ->
        vs_view now k s' = ostamp_max (vs_view now k s) (Some (stamp_of_vv v)) /\
        changed = bool_decide (vs_view now k s' <> vs_view now k s)) /\
      was_live = live_stamp (vs_view now k s) /\
      forall t k', k' <> k -> vs_view t k' s' = vs_view t k' s \/ vs_view t k' s' = None;
  vs_get_law now k s : vs_wf s ->
    exists s' r, vs_get_versioned now k s = Some (s', r) /\ vs_wf s' /\
      forall t k', vs_view t k' s' = vs_view t k' s;
  vs_remove_law now k s : vs_wf s ->
    exists s' b, vs_remove now k s = Some (s', b) /\ vs_wf s' /\
      (forall t, vs_view t k s' = None) /\
      forall t k', k' <> k -> vs_view t k' s' = vs_view t k' s;
  (** Time only makes entries disappear. *)
  vs_age_law t t' k s : vs_wf s -> t <= t' ->
    vs_view t' k s = vs_view t k s \/ vs_view t' k s = None;
  (** A snapshot lists every key once, with a stamp it had during the visit,
      and misses no key that outlives the visit. *)
  vs_snapshot_sound clk s k v : vs_wf s -> (k, v) ∈ concat (vs_snapshot clk s) ->
    exists i, vs_view (clk i) k s = Some (stamp_of_vv v);
  vs_snapshot_complete clk t s k st : vs_wf s -> (forall i, clk i <= t) ->
    vs_view t k s = Some st -> exists v, (k, v) ∈ concat (vs_snapshot clk s) /\ stamp_of_vv v = st;
  vs_snapshot_nodup clk s : vs_wf s -> NoDup (concat (vs_snapshot clk s)).*1
}.

(** ** One shard is such a store *)

#[export] Instance Cache_store : VersionedStore Cache := {
  vs_wf c := cache_wf c /\ 0 < tombstone_ttl_ c;
  vs_apply := Cache_apply;
  vs_get_versioned := Cache_get_versioned;
  vs_remove := Cache_remove;
  vs_snapshot clk c := [Cache_snapshot (clk 0%nat) c []]
}.

Lemma sp_find_removelast k ns :
  sp_find k (removelast ns) = sp_find k ns \/ sp_find k (removelast ns) = None.
Proof.
  induction ns as [|n ns IH]; [by left|]. destruct ns as [|m ns]; [by right|].
  change (removelast (n :: m :: ns)) with (n :: removelast (m :: ns)).
  rewrite !(sp_find_cons k n). destruct (bytes_eqb _ _); [by left|exact IH].
Qed.

Lemma sp_put_find_other k k' e s :
  k' <> k -> sp_find k' (sp_nodes (sp_put k e s)) = sp_find k' (sp_nodes s) \/
             sp_find k' (sp_nodes (sp_put k e s)) = None.
Proof.
  intros Hne. unfold sp_put. cbn [with_nodes sp_nodes].
  destruct (sp_find k (sp_nodes s)) as [n|] eqn:E; rewrite sp_find_cons; cbn [node_key set_entry].
  - rewrite (sp_find_key _ _ _ E), bytes_eqb_ne by done. left. by apply sp_find_drop_ne.
  - rewrite bytes_eqb_ne by done. unfold sp_room. case_match; [apply sp_find_removelast|by left].
Qed.

Lemma store_apply_other now k k' v s :
  k' <> k ->
  sp_find k' (sp_nodes (fst (store_apply now k v s))) = sp_find k' (sp_nodes s) \/
  sp_find k' (sp_nodes (fst (store_apply now k v s))) = None.
Proof.
  intros Hne. unfold store_apply. repeat case_match; simpl; try (by left);
    by apply sp_put_find_other.
Qed.

(** The view of a shard, through the abstract store. *)
Lemma cache_vs_view t k c : cache_wf c -> vs_view t k c = store_view t k (cache_abs c).
Proof. apply cache_view_store. Qed.

Lemma store_view_find t k s s' :
  sp_find k (sp_nodes s') = sp_find k (sp_nodes s) \/ sp_find k (sp_nodes s') = None ->
  store_view t k s' = store_view t k s \/ store_view t k s' = None.
Proof. unfold store_view, store_unexpired. intros [-> | ->]; auto. Qed.

Lemma live_stamp_view t k s :
  bool_decide (is_Some (store_live t k s)) = live_stamp (store_view t k s).
Proof.
  unfold store_live, store_view, store_unexpired, is_live.
  destruct (sp_find k (sp_nodes s)) as [n|]; simpl; [|done].
  destruct (is_expired _ _), (ce_tombstone (node_entry n)) eqn:E; simpl; by rewrite ?E.
Qed.

Lemma store_view_age t t' k s :
  t <= t' -> store_view t' k s = store_view t k s \/ store_view t' k s = None.
Proof.
  intros Ht. unfold store_view, store_unexpired. destruct (sp_find _ _) as [n|]; [|by left].
  destruct (is_expired (node_entry n) t') eqn:E'; [by right|].
  destruct (is_expired (node_entry n) t) eqn:E; [|by left].
  by rewrite (expired_mono _ _ _ Ht E) in E'.
Qed.

(** ** Snapshots of a shard *)

Lemma sp_find_in ns n :
  NoDup (node_key <$> ns) -> n ∈ ns -> sp_find (node_key n) ns = Some n.
Proof.
  induction ns as [|m ns IH]; intros ND Hin; [by apply elem_of_nil in Hin|].
  rewrite fmap_cons in ND. apply NoDup_cons in ND as [Hm ND]. rewrite sp_find_cons.
  apply elem_of_cons in Hin as [->|Hin]; [by rewrite bytes_eqb_refl|].
  rewrite bytes_eqb_ne; [by apply IH|]. intros E. apply Hm. rewrite E. by apply list_elem_of_fmap_2.
Qed.

Lemma cache_snapshot_elem now c k v :
  cache_wf c -> (k, v) ∈ Cache_snapshot now c [] -> vs_view now k c = Some (stamp_of_vv v).
Proof.
  intros W. rewrite snapshot_correct, list_elem_of_fmap. intros (n & E & Hn).
  simplify_eq. simpl in Hn. apply list_elem_of_In, List.filter_In in Hn as [Hn Hx].
  rewrite cache_vs_view by done. unfold store_view, store_unexpired.
  rewrite sp_find_in; [|by apply wf_node_keys|by apply list_elem_of_In].
  apply negb_true_iff in Hx. by rewrite Hx.
Qed.

Lemma cache_snapshot_has now t c k st :
  cache_wf c -> now <= t -> vs_view t k c = Some st ->
  exists v, (k, v) ∈ Cache_snapshot now c [] /\ stamp_of_vv v = st.
Proof.
  intros W Ht. rewrite cache_vs_view by done. unfold store_view, store_unexpired.
  destruct (sp_find k _) as [n|] eqn:F; [|done]. destruct (is_expired (node_entry n) t) eqn:E; [done|].
  intros [= <-]. exists (versioned_of_entry now (node_entry n)). split; [|done].
  rewrite snapshot_correct, list_elem_of_fmap. exists n. split; [by rewrite (sp_find_key _ _ _ F)|].
  apply list_elem_of_In, List.filter_In. apply List.find_some in F as [F _]. split; [done|].
  apply negb_true_iff. destruct (is_expired (node_entry n) now) eqn:E'; [|done].
  by rewrite (expired_mono _ _ _ Ht E') in E.
Qed.

Lemma cache_snapshot_keys now c : cache_wf c -> NoDup (Cache_snapshot now c []).*1.
Proof.
  intros W. rewrite snapshot_correct, <-list_fmap_compose. cbn [store_purge sp_nodes with_nodes].
  pose proof (wf_node_keys c W) as ND. revert ND. simpl.
  generalize (lru_list_ c).*2. intros ns. induction ns as [|n ns IH]; intros ND; [constructor|].
  rewrite fmap_cons in ND. apply NoDup_cons in ND as [Hn ND]. simpl. case_match; [|auto]. simpl.
  apply NoDup_cons. split; [|auto]. intros (m & E & Hm)%list_elem_of_fmap. apply Hn. simpl in E.
  rewrite E. apply list_elem_of_fmap_2. apply list_elem_of_In, List.filter_In in Hm as [Hm _].
  by apply list_elem_of_In.
Qed.

#[export] Instance Cache_store_laws : VersionedStoreLaws Cache.
Proof.
  split.
  - intros now k v c [W Ht]. destruct (apply_correct now k v c W) as (c' & E & W' & A').
    pose proof (store_apply_joins now k v (cache_abs c) Ht) as J.
    pose proof (store_exec_params now (OpApply k v) (cache_abs c)) as [_ Pt].
    rewrite store_exec_apply, <-A' in Pt.
    eexists c', _, _. split; [exact E|]. rewrite !cache_vs_view, live_stamp_view by done.
    destruct (store_apply now k v (cache_abs c)) as [s' b] eqn:Es. simpl in A', Pt |- *. rewrite A'.
    split_and!; try done; [by rewrite Pt|].
    intros t k' Hne. rewrite !cache_vs_view, A' by done.
    apply store_view_find. change s' with (fst (s', b)). rewrite <-Es. by apply store_apply_other.
  - intros now k c [W Ht]. destruct (get_versioned_correct now k c W) as (c' & E & W' & A').
    eexists c', _. split; [exact E|]. assert (tombstone_ttl_ c' = tombstone_ttl_ c).
    { change (sp_tombstone_ttl (cache_abs c') = sp_tombstone_ttl (cache_abs c)). by rewrite A'. }
    split; [split; [done|lia]|]. intros t k'. by rewrite !cache_vs_view, A' by done.
  - intros now k c [W Ht]. destruct (remove_correct now k c W) as (c' & E & W' & A').
    eexists c', _. split; [exact E|]. assert (tombstone_ttl_ c' = tombstone_ttl_ c).
    { change (sp_tombstone_ttl (cache_abs c') = sp_tombstone_ttl (cache_abs c)). by rewrite A'. }
    split; [split; [done|lia]|]. split.
    + intros t. rewrite cache_vs_view, A' by done. unfold store_view, store_unexpired. simpl.
      by rewrite sp_find_drop_eq.
    + intros t k' Hne. rewrite !cache_vs_view, A' by done. unfold store_view, store_unexpired. simpl.
      by rewrite sp_find_drop_ne.
  - intros t t' k c [W Ht] Hle. rewrite !cache_vs_view by done. by apply store_view_age.
  - intros clk c k v [W Ht] Hin. exists 0%nat. simpl in Hin. rewrite app_nil_r in Hin.
    by apply cache_snapshot_elem.
  - intros clk t c k st [W Ht] Hclk Hv. simpl. rewrite app_nil_r.
    by apply (cache_snapshot_has (clk 0%nat) t).
  - intros clk c [W Ht]. simpl. rewrite app_nil_r. by apply cache_snapshot_keys.
Qed.
