(* ===== verification/ShardedCache.v ===== *)
(** * The sharded local cache

    Models src/sharded_cache.cpp: a vector of shards, a key going to the shard of
    its hash modulo their number.  Every call on a key is one call on one shard;
    calls on the whole cache visit the shards one after the other, and each visit
    reads the clock itself, so their clock is a function of the shard number. *)

From S2P Require Import Prelude Numerals CacheEntry Cache CacheSpec CacheRefine CacheProps VersionedStore ConsistentHash.

Local Open Scope Z_scope.

(** ** State and operations *)

Record ShardedCache := mkSharded { shards_ : list Cache }.

(** [ShardedCache::ShardedCache]; the sweeper thread it starts calls
    [ShardedCache_purge_expired]. *)
Definition ShardedCache_new (total_capacity shard_count tombstone_ttl : Z) : ShardedCache :=
  let shard_count := if shard_count =? 0 then 1 else shard_count in
  let capacity_per_shard := total_capacity / shard_count in
  let capacity_per_shard := if capacity_per_shard =? 0 then 1 else capacity_per_shard in
  mkSharded (replicate (Z.to_nat shard_count) (Cache_new capacity_per_shard tombstone_ttl)).

(** [ShardedCache::get_shard_index], with the number of shards. *)
Definition shard_index (count : nat) (key : bytes) : nat :=
  Z.to_nat (hash_fn key mod Z.of_nat count).

Definition get_shard_index (key : bytes) (s : ShardedCache) : nat :=
  shard_index (length (shards_ s)) key.

(** A call on shard [i]; [None] is an index out of range. *)
Definition with_shard {R} (i : nat) (f : Cache -> option (Cache * R)) (s : ShardedCache)
    : option (ShardedCache * R) :=
  c ← shards_ s !! i;
  '(c', r) ← f c;
  Some (mkSharded (<[i := c']> (shards_ s)), r).

Definition ShardedCache_set (now : Z) (key value : bytes) (ttl : option Z) (s : ShardedCache)
    : option ShardedCache :=
  '(s', _) ← with_shard (get_shard_index key s)
    (fun c => c' ← Cache_set now key value ttl c; Some (c', tt)) s;
  Some s'.

Definition ShardedCache_get (now : Z) (key : bytes) (s : ShardedCache)
    : option (ShardedCache * option bytes) :=
  with_shard (get_shard_index key s) (Cache_get now key) s.

Definition ShardedCache_remove (now : Z) (key : bytes) (s : ShardedCache)
    : option (ShardedCache * bool) :=
  with_shard (get_shard_index key s) (Cache_remove now key) s.

Definition ShardedCache_apply (now : Z) (key : bytes) (v : VersionedValue) (s : ShardedCache)
    : option (ShardedCache * bool * bool) :=
  '(s', (changed, was_live)) ← with_shard (get_shard_index key s)
    (fun c => '(c', b, w) ← Cache_apply now key v c; Some (c', (b, w))) s;
  Some (s', changed, was_live).

Definition ShardedCache_get_versioned (now : Z) (key : bytes) (s : ShardedCache)
    : option (ShardedCache * option VersionedValue) :=
  with_shard (get_shard_index key s) (Cache_get_versioned now key) s.

(** [for_each_shard_snapshot]: the batches [fn] is called on, in order; the
    batch is cleared between shards. *)
Definition ShardedCache_snapshots (clk : nat -> Z) (s : ShardedCache)
    : list (list (bytes * VersionedValue)) :=
  imap (fun i c => Cache_snapshot (clk i) c []) (shards_ s).

Definition ShardedCache_contains (now : Z) (key : bytes) (s : ShardedCache) : option bool :=
  c ← shards_ s !! get_shard_index key s; Cache_contains now key c.

Definition ShardedCache_expire (now : Z) (key : bytes) (ttl : Z) (s : ShardedCache)
    : option (ShardedCache * bool) :=
  with_shard (get_shard_index key s) (Cache_expire now key ttl) s.

Definition ShardedCache_ttl (now : Z) (key : bytes) (s : ShardedCache) : option (option Z) :=
  c ← shards_ s !! get_shard_index key s; Cache_ttl now key c.

Definition ShardedCache_pttl (now : Z) (key : bytes) (s : ShardedCache) : option Z :=
  c ← shards_ s !! get_shard_index key s; Cache_pttl now key c.

(** [ShardedCache::get_or_load] with no other call for the key in flight, so
    that [single_flight_.do_call] runs the function itself.  [loader] is what
    the loader returns or throws; the last component tells whether it ran. *)
Definition ShardedCache_get_or_load {E} (t0 t1 t2 : Z) (key : bytes) (loader : bytes + E)
    (ttl : option Z) (s : ShardedCache) : option (ShardedCache * (bytes + E) * bool) :=
  '(s1, val) ← ShardedCache_get t0 key s;
  match val with
  | Some v => Some (s1, inl v, false)
  | None =>
      '(s2, cached) ← ShardedCache_get t1 key s1;
      match cached with
      | Some v => Some (s2, inl v, false)
      | None =>
          match loader with
          | inr e => Some (s2, inr e, true)
          | inl loaded =>
              s3 ← ShardedCache_set t2 key loaded ttl s2;
              Some (s3, inl loaded, true)
          end
      end
  end.

Definition ShardedCache_purge_expired (clk : nat -> Z) (s : ShardedCache) : ShardedCache :=
  mkSharded (imap (fun i c => Cache_purge_expired (clk i) c) (shards_ s)).

Definition ShardedCache_size (s : ShardedCache) : Z :=
  foldl (fun total c => u64 (total + Cache_size c)) 0 (shards_ s).

Definition ShardedCache_capacity (s : ShardedCache) : Z :=
  foldl (fun total c => u64 (total + Cache_capacity c)) 0 (shards_ s).

Definition ShardedCache_clear (s : ShardedCache) : ShardedCache :=
  mkSharded (Cache_clear <$> shards_ s).

(** [struct Totals] and [ShardedCache::totals]. *)
Definition add_totals (t m : CacheMetrics) : CacheMetrics :=
  mkMetrics (u64 (hits t + hits m)) (u64 (misses t + misses m)) (u64 (sets t + sets m))
    (u64 (deletes t + deletes m)) (u64 (evictions t + evictions m))
    (u64 (expirations t + expirations m)).

Definition ShardedCache_totals (s : ShardedCache) : CacheMetrics :=
  foldl (fun t c => add_totals t (metrics_ c)) (mkMetrics 0 0 0 0 0 0) (shards_ s).

Definition ShardedCache_total_hits (s : ShardedCache) : Z :=
  foldl (fun h c => u64 (h + hits (metrics_ c))) 0 (shards_ s).

Definition ShardedCache_total_misses (s : ShardedCache) : Z :=
  foldl (fun h c => u64 (h + misses (metrics_ c))) 0 (shards_ s).

(** ** Critical sections and the placement invariant *)

(** One critical section on shard [i]. *)
Definition ShardedCache_exec (i : nat) (now : Z) (op : CacheOp) (s : ShardedCache)
    : option (ShardedCache * CacheReply) :=
  with_shard i (Cache_exec now op) s.

(** The key an operation is about; [None] for those on the whole shard. *)
Definition op_key (op : CacheOp) : option bytes :=
  match op with
  | OpSet k _ _ | OpGetShared k | OpGetPromote k | OpGet k | OpRemove k | OpContains k
  | OpApply k _ | OpGetVersioned k | OpExpire k _ | OpTtl k | OpPttl k => Some k
  | OpSnapshot | OpSize | OpCapacity | OpClear | OpPurgeExpired => None
  end.

(** An operation the sharded cache would run on shard [i] of [count]. *)
Definition routed (count i : nat) (op : CacheOp) : Prop :=
  (i < count)%nat /\ forall k, op_key op = Some k -> i = shard_index count k.

(** Every stored key is on the shard it hashes to. *)
Definition placed (count i : nat) (c : Cache) : Prop :=
  forall k, k ∈ node_key <$> (lru_list_ c).*2 -> shard_index count k = i.

Record sharded_wf (s : ShardedCache) : Prop := {
  sw_some : (0 < length (shards_ s))%nat;
  sw_shard : forall i c, shards_ s !! i = Some c ->
    vs_wf c /\ placed (length (shards_ s)) i c
}.

Lemma shard_index_lt count key : (0 < count)%nat -> (shard_index count key < count)%nat.
Proof.
  intros H. unfold shard_index. pose proof (Z.mod_pos_bound (hash_fn key) (Z.of_nat count) ltac:(lia)). lia.
Qed.

Lemma get_shard_index_some key s : sharded_wf s -> is_Some (shards_ s !! get_shard_index key s).
Proof. intros W. apply lookup_lt_is_Some_2, shard_index_lt, W. Qed.

Lemma sp_room_keys cap ns k : k ∈ node_key <$> sp_room cap ns -> k ∈ node_key <$> ns.
Proof.
  unfold sp_room. case_match; [|done]. intros (n & -> & Hn)%list_elem_of_fmap.
  apply list_elem_of_fmap_2. rewrite removelast_firstn_len in Hn.
  by apply elem_of_take in Hn as (j & Hj%list_elem_of_lookup_2 & _).
Qed.

Lemma filter_keys (f : Node -> bool) ns k :
  k ∈ node_key <$> List.filter f ns -> k ∈ node_key <$> ns.
Proof.
  intros (n & -> & Hn)%list_elem_of_fmap. apply list_elem_of_fmap_2.
  apply list_elem_of_In, List.filter_In in Hn as [Hn _]. by apply list_elem_of_In.
Qed.

Lemma sp_put_keys k e s k' :
  k' ∈ node_key <$> sp_nodes (sp_put k e s) -> k' = k \/ k' ∈ node_key <$> sp_nodes s.
Proof.
  unfold sp_put. cbn [with_nodes sp_nodes]. case_match; rewrite fmap_cons, elem_of_cons; simpl.
  - intros [->|Hk]; [right; by eapply list_elem_of_fmap_2, list_elem_of_In, List.find_some|].
    right. by apply filter_keys in Hk.
  - intros [->|Hk]; [by left|]. right. by apply sp_room_keys in Hk.
Qed.

(** An operation stores no key but its own. *)
Lemma store_exec_keys now op s k :
  k ∈ node_key <$> sp_nodes (fst (store_exec now op s)) ->
  op_key op = Some k \/ k ∈ node_key <$> sp_nodes s.
Proof.
  assert (Hprom : forall k', k ∈ node_key <$> sp_nodes (store_get_promote now k' s) ->
    k ∈ node_key <$> sp_nodes s).
  { intros k'. unfold store_get_promote. case_match; [|done]. simpl. rewrite elem_of_cons.
    intros [->|Hk]; [by eapply list_elem_of_fmap_2, list_elem_of_In, List.find_some|].
    by apply filter_keys in Hk. }
  destruct op; simpl; try (by right); try (intros Hk; right; by apply filter_keys in Hk).
  - intros [->|Hk]%sp_put_keys; [by left|by right].
  - intros Hk. right. by apply Hprom in Hk.
  - intros Hk. right. repeat case_match; try done; by apply Hprom in Hk.
  - unfold store_apply. repeat case_match; simplify_eq/=; try (by right);
      intros [->|Hk]%sp_put_keys; auto.
  - intros Hk. by apply elem_of_nil in Hk.
  - intros Hk. right. repeat case_match; simpl in Hk; try done; [by apply filter_keys in Hk|].
    apply list_elem_of_fmap in Hk as (m & -> & Hm). apply list_elem_of_fmap in Hm as (n' & -> & Hn').
    case_match; by apply list_elem_of_fmap_2 with (f := node_key) in Hn'.
Qed.

(** A critical section on the right shard succeeds and keeps the invariant. *)
Lemma sharded_exec_correct i now op s :
  sharded_wf s -> routed (length (shards_ s)) i op ->
  exists c c' r, shards_ s !! i = Some c /\ Cache_exec now op c = Some (c', r) /\
    ShardedCache_exec i now op s = Some (mkSharded (<[i := c']> (shards_ s)), r) /\
    sharded_wf (mkSharded (<[i := c']> (shards_ s))).
Proof.
  intros W [Hi Hr]. destruct (lookup_lt_is_Some_2 _ _ Hi) as [c Hc].
  destruct (sw_shard s W i c Hc) as [[Wc Ht] Hp].
  destruct (exec_correct now op c Wc) as (c' & E & W' & A').
  exists c, c', (snd (store_exec now op (cache_abs c))). split_and!; try done.
  { unfold ShardedCache_exec, with_shard. rewrite Hc. simpl. by rewrite E. }
  split; simpl; rewrite length_insert; [apply W|]. intros j d Hj.
  destruct (decide (i = j)) as [<-|Hne].
  - rewrite list_lookup_insert_eq in Hj by done. injection Hj as <-. split.
    + split; [done|]. change (0 < sp_tombstone_ttl (cache_abs c')). rewrite A'.
      pose proof (store_exec_params now op (cache_abs c)) as [_ ->]. done.
    + intros k. change (lru_list_ c').*2 with (sp_nodes (cache_abs c')). rewrite A'.
      intros [Hk|Hk]%store_exec_keys; [by rewrite <-(Hr k Hk)|by apply Hp].
  - rewrite list_lookup_insert_ne in Hj by done. by apply (sw_shard s W).
Qed.

Lemma sharded_new_wf total count ttl :
  0 <= total -> 0 <= count -> 0 < ttl -> sharded_wf (ShardedCache_new total count ttl).
Proof.
  intros Ht Hc Httl. unfold ShardedCache_new.
  set (n := if count =? 0 then 1 else count).
  assert (Hn : 0 < n) by (unfold n; case_match; bool_facts; lia).
  set (cap := if total / n =? 0 then 1 else total / n).
  assert (Hcap : 0 <= cap) by (unfold cap; pose proof (Z.div_pos total n); case_match; lia).
  split; simpl; rewrite length_replicate; [lia|].
  intros i c Hi. apply lookup_replicate in Hi as [-> _]. split; [split; [by apply new_wf|done]|].
  intros k Hk. by apply elem_of_nil in Hk.
Qed.

#[export] Hint Resolve sharded_new_wf : shard.

(** ** Traces: the shards evolve independently *)

Fixpoint ShardedCache_run (tr : list (nat * (Z * CacheOp))) (s : ShardedCache)
    : option (ShardedCache * list CacheReply) :=
  match tr with
  | [] => Some (s, [])
  | (i, (now, op)) :: tr' =>
      '(s1, r) ← ShardedCache_exec i now op s;
      '(s2, rs) ← ShardedCache_run tr' s1;
      Some (s2, r :: rs)
  end.

(** What shard [i] sees of a sequence of steps, or of their replies. *)
Definition of_shard {A} (i : nat) (l : list (nat * A)) : list A :=
  (filter (fun p => p.1 = i) l).*2.

Lemma of_shard_cons {A} i j (a : A) l :
  of_shard i ((j, a) :: l) = if decide (j = i) then a :: of_shard i l else of_shard i l.
Proof. unfold of_shard. rewrite filter_cons. simpl. by case_decide. Qed.

Lemma sharded_run_projects tr s :
  sharded_wf s -> Forall (fun st => routed (length (shards_ s)) st.1 st.2.2) tr ->
  exists s' rs, ShardedCache_run tr s = Some (s', rs) /\ sharded_wf s' /\
    length (shards_ s') = length (shards_ s) /\ length rs = length tr /\
    forall i c, shards_ s !! i = Some c -> exists c', shards_ s' !! i = Some c' /\
      Cache_run (of_shard i tr) c = Some (c', of_shard i (zip tr.*1 rs)).
Proof.
  revert s. induction tr as [|[j [now op]] tr IH]; intros s W HF; simpl.
  { exists s, []. split_and!; eauto. }
  apply Forall_cons in HF as [Hr HF]. simpl in Hr.
  destruct (sharded_exec_correct j now op s W Hr) as (c & c' & r & Hc & E & -> & W'). simpl.
  destruct (IH _ W') as (s2 & rs & -> & W2 & L2 & Lr & P2).
  { simpl. by rewrite length_insert. }
  simpl in *. rewrite length_insert in L2. eexists s2, (r :: rs). split_and!; try done; [simpl; lia|].
  intros i d Hd. rewrite !of_shard_cons. destruct (decide (j = i)) as [<-|Hne].
  - rewrite Hc in Hd. injection Hd as <-.
    destruct (P2 j c') as (c2 & H1 & H2).
    { rewrite list_lookup_insert_eq; [done|]. by eapply lookup_lt_Some. }
    exists c2. split; [done|]. simpl. rewrite E. simpl. by rewrite H2.
  - apply P2. by rewrite list_lookup_insert_ne.
Qed.

(** ** The sharded cache is a replica store *)

#[export] Instance ShardedCache_store : VersionedStore ShardedCache := {
  vs_wf := sharded_wf;
  vs_apply := ShardedCache_apply;
  vs_get_versioned := ShardedCache_get_versioned;
  vs_remove := ShardedCache_remove;
  vs_snapshot := ShardedCache_snapshots
}.

Lemma sharded_clear_wf s : sharded_wf s -> sharded_wf (ShardedCache_clear s).
Proof.
  intros [W0 W]. split; unfold ShardedCache_clear; cbn [shards_]; rewrite length_fmap; [done|].
  intros i c. rewrite list_lookup_fmap. destruct (shards_ s !! i) as [d|] eqn:E; [|done].
  intros [= <-]. destruct (W i d E) as [[Wd Ht] _]. split; [|intros k Hk; by apply elem_of_nil in Hk].
  split; [by apply clear_correct|done].
Qed.

(** A key's view is the view of its shard. *)
Lemma sharded_view t k s c :
  shards_ s !! get_shard_index k s = Some c -> vs_view t k s = vs_view t k c.
Proof.
  intros Hc. unfold vs_view. simpl. unfold ShardedCache_get_versioned, with_shard. rewrite Hc. simpl.
  by destruct (Cache_get_versioned t k c) as [[c' r]|].
Qed.

(** Replacing a shard changes the views of its own keys only. *)
Lemma sharded_view_insert t k i s c' :
  is_Some (shards_ s !! i) ->
  vs_view t k (mkSharded (<[i := c']> (shards_ s))) =
  if decide (get_shard_index k s = i) then vs_view t k c' else vs_view t k s.
Proof.
  intros Hi. unfold vs_view, get_shard_index. simpl.
  unfold ShardedCache_get_versioned, with_shard, get_shard_index. simpl. rewrite length_insert.
  case_decide as E.
  - rewrite E, list_lookup_insert_eq by (by apply lookup_lt_is_Some_1). simpl.
    by destruct (Cache_get_versioned t k c') as [[d r]|].
  - rewrite list_lookup_insert_ne by done. clear Hi.
    destruct (shards_ s !! _) as [d|]; [|done]. simpl.
    by destruct (Cache_get_versioned t k d) as [[d' r]|].
Qed.

Lemma insert_shard_wf i c c' now op r s :
  sharded_wf s -> shards_ s !! i = Some c -> routed (length (shards_ s)) i op ->
  Cache_exec now op c = Some (c', r) -> sharded_wf (mkSharded (<[i := c']> (shards_ s))).
Proof.
  intros W Hc Hr E. destruct (sharded_exec_correct i now op s W Hr) as (d & d' & r' & Hd & E' & _ & W').
  rewrite Hc in Hd. injection Hd as <-. rewrite E in E'. by injection E' as <- _.
Qed.

Lemma routed_key k s op :
  sharded_wf s -> op_key op = Some k -> routed (length (shards_ s)) (get_shard_index k s) op.
Proof.
  intros W E. split; [apply shard_index_lt, W|]. intros k' E'. rewrite E in E'. by injection E' as <-.
Qed.

(** A snapshot batch holds the snapshot of one shard. *)
Lemma sharded_snapshot_elem clk s p :
  p ∈ concat (ShardedCache_snapshots clk s) <->
  exists i c, shards_ s !! i = Some c /\ p ∈ Cache_snapshot (clk i) c [].
Proof.
  unfold ShardedCache_snapshots. rewrite elem_of_concat. split.
  - intros (b & Hp & (i & Hb)%list_elem_of_lookup). rewrite list_lookup_imap in Hb.
    destruct (shards_ s !! i) as [c|] eqn:E; simplify_eq/=. eauto.
  - intros (i & c & Hc & Hp). exists (Cache_snapshot (clk i) c []). split; [done|].
    apply list_elem_of_lookup. exists i. by rewrite list_lookup_imap, Hc.
Qed.

(** A key seen by a shard's snapshot is stored on that shard. *)
Lemma snapshot_placed now count i c k v :
  placed count i c -> (k, v) ∈ Cache_snapshot now c [] -> shard_index count k = i.
Proof.
  intros P Hin. apply P. rewrite snapshot_correct, list_elem_of_fmap in Hin.
  destruct Hin as (n & E & Hn). simplify_eq. eapply filter_keys, list_elem_of_fmap_2, Hn.
Qed.

Lemma snapshots_nodup (clk : nat -> Z) off count cs :
  (forall i c, cs !! i = Some c -> vs_wf c /\ placed count (off + i) c) ->
  NoDup (concat (imap (fun i c => Cache_snapshot (clk i) c []) cs)).*1.
Proof.
  revert clk off. induction cs as [|c cs IH]; intros clk off Hsh; [constructor|].
  rewrite imap_cons. cbn [concat]. rewrite fmap_app. apply NoDup_app.
  destruct (Hsh 0%nat c eq_refl) as [[Wc Ht] Pc]. split; [by apply cache_snapshot_keys|].
  split; [|apply (IH (clk ∘ S) (S off)); intros i d Hd;
    replace (S off + i)%nat with (off + S i)%nat by lia; by apply Hsh].
  intros k (p & -> & Hp)%list_elem_of_fmap (q & Eq & Hq)%list_elem_of_fmap.
  destruct p as [k v], q as [k' v']. simpl in Eq. subst k'.
  pose proof (snapshot_placed _ _ _ _ _ _ Pc Hp) as E1.
  apply elem_of_concat in Hq as (b & Hq & (i & Hb)%list_elem_of_lookup).
  rewrite list_lookup_imap in Hb. destruct (cs !! i) as [d|] eqn:Ed; simplify_eq/=.
  destruct (Hsh (S i) d Ed) as [_ Pd]. pose proof (snapshot_placed _ _ _ _ _ _ Pd Hq) as E2. lia.
Qed.

#[export] Instance ShardedCache_store_laws : VersionedStoreLaws ShardedCache.
Proof.
  split.
  - intros now k v s W. destruct (get_shard_index_some k s W) as [c Hc].
    destruct (sw_shard s W _ c Hc) as [Wc _].
    destruct (vs_apply_law now k v c Wc) as (c' & b & w & E & Wc' & V & L & O).
    exists (mkSharded (<[get_shard_index k s := c']> (shards_ s))), b, w.
    assert (Vs : vs_view now k s = vs_view now k c) by (by apply sharded_view).
    split_and!.
    + simpl in *. unfold ShardedCache_apply, with_shard. rewrite Hc. simpl. by rewrite E.
    + eapply (insert_shard_wf _ c c' now (OpApply k v) (RApplied b w)); try done; [by apply routed_key|].
      simpl in *. by rewrite E.
    + rewrite sharded_view_insert, decide_True, Vs by done. done.
    + by rewrite Vs.
    + intros t k' Hne. rewrite sharded_view_insert by done.
      destruct (decide (get_shard_index k' s = get_shard_index k s)) as [Ek|]; [|by left].
      rewrite (sharded_view t k' s c) by (by rewrite Ek). by apply O.
  - intros now k s W. destruct (get_shard_index_some k s W) as [c Hc].
    destruct (sw_shard s W _ c Hc) as [Wc _].
    destruct (vs_get_law now k c Wc) as (c' & r & E & Wc' & V).
    exists (mkSharded (<[get_shard_index k s := c']> (shards_ s))), r. simpl in E. split_and!.
    + simpl. unfold ShardedCache_get_versioned, with_shard. rewrite Hc. simpl. by rewrite E.
    + eapply (insert_shard_wf _ c c' now (OpGetVersioned k) (RVersioned r)); try done; [by apply routed_key|].
      simpl. by rewrite E.
    + intros t k'. rewrite sharded_view_insert by done. case_decide as Ek; [|done].
      rewrite (sharded_view t k' s c) by (by rewrite Ek). by apply V.
  - intros now k s W. destruct (get_shard_index_some k s W) as [c Hc].
    destruct (sw_shard s W _ c Hc) as [Wc _].
    destruct (vs_remove_law now k c Wc) as (c' & b & E & Wc' & V & O).
    exists (mkSharded (<[get_shard_index k s := c']> (shards_ s))), b. simpl in E. split_and!.
    + simpl. unfold ShardedCache_remove, with_shard. rewrite Hc. simpl. by rewrite E.
    + eapply (insert_shard_wf _ c c' now (OpRemove k) (RBool b)); try done; [by apply routed_key|].
      simpl. by rewrite E.
    + intros t. rewrite sharded_view_insert, decide_True by done. apply V.
    + intros t k' Hne. rewrite sharded_view_insert by done. case_decide as Ek; [|done].
      rewrite (sharded_view t k' s c) by (by rewrite Ek). by apply O.
  - intros t t' k s W Hle. destruct (get_shard_index_some k s W) as [c Hc].
    rewrite !(sharded_view _ k s c Hc). apply vs_age_law; [|done].
    by destruct (sw_shard s W _ c Hc).
  - intros clk s k v W Hin. simpl in Hin. apply sharded_snapshot_elem in Hin as (i & c & Hc & Hin).
    exists i. destruct (sw_shard s W i c Hc) as [[Wc Ht] Pc].
    rewrite (sharded_view _ k s c); [by apply cache_snapshot_elem|].
    unfold get_shard_index. by rewrite (snapshot_placed _ _ _ _ _ _ Pc Hin).
  - intros clk t s k st W Hclk Hv. destruct (get_shard_index_some k s W) as [c Hc].
    destruct (sw_shard s W _ c Hc) as [[Wc Ht] _]. rewrite (sharded_view t k s c Hc) in Hv.
    destruct (cache_snapshot_has (clk (get_shard_index k s)) t c k st Wc (Hclk _) Hv) as (v & Hin & E).
    exists v. split; [|done]. simpl. apply sharded_snapshot_elem. eauto.
  - intros clk s W. simpl. apply (snapshots_nodup clk 0 (length (shards_ s))). apply W.
Qed.

(** ** Sums over the shards *)

Definition zsum {A} (f : A -> Z) (l : list A) : Z := foldr (fun a acc => f a + acc) 0 l.

Lemma foldl_sum {A} (f : A -> Z) (l : list A) (a : Z) :
  0 <= a < 2 ^ 64 -> foldl (fun total c => u64 (total + f c)) a l = u64 (a + zsum f l).
Proof.
  revert a. induction l as [|x l IH]; intros a Ha; simpl.
  - rewrite Z.add_0_r. symmetry. by apply wrap_small.
  - rewrite IH by (apply wrap_range; lia). rewrite wrap_add_l. f_equal. lia.
Qed.

Lemma zsum_le {A} (f g : A -> Z) (l : list A) :
  (forall i x, l !! i = Some x -> f x <= g x) -> zsum f l <= zsum g l.
Proof.
  induction l as [|x l IH]; intros H; simpl; [done|]. pose proof (H 0%nat x eq_refl).
  specialize (IH (fun i y Hy => H (S i) y Hy)). lia.
Qed.

Lemma zsum_const {A} (f : A -> Z) (z : Z) (l : list A) :
  (forall i x, l !! i = Some x -> f x = z) -> zsum f l = Z.of_nat (length l) * z.
Proof.
  induction l as [|x l IH]; intros H; cbn [zsum foldr length]; [lia|].
  fold (zsum f l). rewrite (H 0%nat x eq_refl), IH; [lia|]. intros i y Hy. by apply (H (S i) y).
Qed.

(** A bounded shard holds between 0 and its capacity keys. *)
Lemma cache_size_bounds c :
  cache_wf c -> 0 < capacity_ c < 2 ^ 64 -> 0 <= Cache_size c <= Cache_capacity c.
Proof.
  intros W Hc. rewrite size_correct by done. simpl.
  pose proof (tomb_count_bounds (lru_list_ c).*2) as Hb. rewrite length_fmap in *.
  pose proof (wf_cap c W ltac:(lia)). unfold Cache_capacity. rewrite wrap_small; lia.
Qed.

Lemma exec_capacity now op c c' r :
  cache_wf c -> Cache_exec now op c = Some (c', r) -> capacity_ c' = capacity_ c.
Proof.
  intros W E. destruct (exec_correct now op c W) as (d & E' & _ & A). rewrite E in E'.
  injection E' as <- _. change (sp_capacity (cache_abs c') = sp_capacity (cache_abs c)).
  rewrite A. apply store_exec_params.
Qed.

Lemma run_capacity tr c c' rs :
  cache_wf c -> Cache_run tr c = Some (c', rs) -> capacity_ c' = capacity_ c.
Proof.
  revert c rs. induction tr as [|[now op] tr IH]; intros c rs W E; simpl in E; [by simplify_eq|].
  destruct (exec_correct now op c W) as (c1 & E1 & W1 & _).
  rewrite E1 in E. simpl in E. destruct (Cache_run tr c1) as [[c2 rs']|] eqn:E2; [|done].
  simplify_eq/=. rewrite (IH c1 rs' W1 E2). by eapply exec_capacity.
Qed.

(** ** Reads and loads *)

(** What a reader of [k] gets at [now]. *)
Definition sharded_value (now : Z) (k : bytes) (s : ShardedCache) : option bytes :=
  c ← shards_ s !! get_shard_index k s; ce_value <$> store_live now k (cache_abs c).

Lemma store_live_promote now t k s : store_live t k (store_get_promote now k s) = store_live t k s.
Proof.
  unfold store_live, store_get_promote. destruct (sp_find k (sp_nodes s)) as [n|] eqn:F; [|by rewrite F].
  cbn [with_nodes sp_nodes]. rewrite sp_find_cons. cbn [node_key set_promoted].
  by rewrite (sp_find_key _ _ _ F), bytes_eqb_refl.
Qed.

Lemma sharded_value_insert t k s c' :
  is_Some (shards_ s !! get_shard_index k s) ->
  sharded_value t k (mkSharded (<[get_shard_index k s := c']> (shards_ s))) =
  (ce_value <$> store_live t k (cache_abs c')).
Proof.
  intros Hi. unfold sharded_value, get_shard_index. simpl. rewrite length_insert.
  by rewrite list_lookup_insert_eq by (by apply lookup_lt_is_Some_1).
Qed.

(** [get] returns the visible value and changes no visible value of the key. *)
Lemma sharded_get_correct now k s :
  sharded_wf s ->
  exists s', ShardedCache_get now k s = Some (s', sharded_value now k s) /\ sharded_wf s' /\
    forall t, sharded_value t k s' = sharded_value t k s.
Proof.
  intros W. destruct (get_shard_index_some k s W) as [c Hc].
  destruct (sw_shard s W _ c Hc) as [[Wc _] _].
  destruct (get_correct now k c Wc) as (c' & E & W' & A').
  exists (mkSharded (<[get_shard_index k s := c']> (shards_ s))). split_and!.
  - unfold ShardedCache_get, with_shard, sharded_value. rewrite Hc. simpl. by rewrite E.
  - eapply (insert_shard_wf _ c c' now (OpGet k)); try done; [by apply routed_key|].
    simpl. rewrite E. done.
  - intros t. rewrite sharded_value_insert by done. unfold sharded_value. rewrite Hc. simpl.
    rewrite A'. repeat case_match; by rewrite ?store_live_promote.
Qed.

Lemma sharded_set_correct now k v ttl s :
  sharded_wf s ->
  exists s', ShardedCache_set now k v ttl s = Some s' /\ sharded_wf s' /\
    forall t, sharded_value t k s' =
      match ttl with
      | None => Some v
      | Some ms => if t <? now + ms * ns_per_ms then Some v else None
      end.
Proof.
  intros W. destruct (get_shard_index_some k s W) as [c Hc].
  destruct (sw_shard s W _ c Hc) as [[Wc _] _].
  destruct (set_correct now k v ttl c Wc) as (c' & E & W' & A').
  exists (mkSharded (<[get_shard_index k s := c']> (shards_ s))). split_and!.
  - unfold ShardedCache_set, with_shard. rewrite Hc. simpl. by rewrite E.
  - eapply (insert_shard_wf _ c c' now (OpSet k v ttl) RUnit); try done; [by apply routed_key|].
    simpl. by rewrite E.
  - intros t. rewrite sharded_value_insert, A' by done. unfold store_live.
    match goal with |- context [sp_put k ?e ?s] => destruct (sp_put_find k e s) as (lp & ->) end.
    unfold is_live, is_expired. simpl. destruct ttl as [ms|]; simpl; [|done].
    rewrite <-Z.ltb_antisym. by destruct (_ <? _).
Qed.

Lemma sharded_value_age t t' k s : t <= t' -> sharded_value t k s = None -> sharded_value t' k s = None.
Proof.
  intros Ht. unfold sharded_value, store_live. destruct (shards_ s !! _) as [c|]; [|done]. simpl.
  destruct (sp_find _ _) as [n|]; [|done]. unfold is_live. destruct (ce_tombstone _); simpl; [done|].
  destruct (is_expired (node_entry n) t) eqn:E; [|done]. by rewrite (expired_mono _ _ _ Ht E).
Qed.

(** ** Properties *)


(** C40: The sharded cache never holds more keys than its capacity, and that
    capacity is the requested total rounded down to a multiple of the number of
    shards, but at least one key per shard. *)
Theorem sharded_capacity_bound total count ttl tr s' rs :
  let s := ShardedCache_new total count ttl in
  let per_shard := Z.max 1 (total / count) in
  0 <= total -> 0 < count -> 0 < ttl -> count * per_shard < 2 ^ 64 ->
  Forall (fun st => routed (length (shards_ s)) st.1 st.2.2) tr ->
  ShardedCache_run tr s = Some (s', rs) ->
  ShardedCache_capacity s' = count * per_shard /\
  0 <= ShardedCache_size s' <= count * per_shard.
Proof.
  intros s per Ht Hc Httl Hov Hr E. assert (W : sharded_wf s) by (apply sharded_new_wf; lia).
  destruct (sharded_run_projects tr s W Hr) as (s2 & rs2 & E2 & W' & L & _ & P).
  rewrite E in E2. injection E2 as <- <-. assert (Hper : 0 < per) by lia.
  assert (Hnew : shards_ s = replicate (Z.to_nat count) (Cache_new per ttl)).
  { unfold s, ShardedCache_new. simpl. rewrite (proj2 (Z.eqb_neq count 0)) by lia.
    do 2 f_equal. unfold per. pose proof (Z.div_pos total count). case_match; bool_facts; lia. }
  assert (Hcap : forall i c, shards_ s' !! i = Some c -> Cache_capacity c = per /\ cache_wf c).
  { intros i c Hi. destruct (sw_shard s' W' i c Hi) as [[Wc _] _]. split; [|done].
    assert (Hlt : (i < Z.to_nat count)%nat).
    { apply lookup_lt_Some in Hi. by rewrite L, Hnew, length_replicate in Hi. }
    destruct (P i (Cache_new per ttl)) as (d & Hd & Hrun).
    { rewrite Hnew. by apply lookup_replicate_2. }
    rewrite Hi in Hd. injection Hd as <-. apply run_capacity in Hrun; [done|]. apply new_wf. lia. }
  assert (Hlen : Z.of_nat (length (shards_ s')) = count) by (rewrite L, Hnew, length_replicate; lia).
  assert (Hsum : zsum Cache_capacity (shards_ s') = count * per).
  { rewrite (zsum_const _ per); [by rewrite Hlen|]. intros i c Hi. by apply (Hcap i c). }
  assert (Hbound : forall i c, shards_ s' !! i = Some c -> 0 <= Cache_size c <= Cache_capacity c).
  { intros i c Hi. destruct (Hcap i c Hi) as [E1 Wc]. apply cache_size_bounds; [done|].
    unfold Cache_capacity in E1. nia. }
  assert (H0 : zsum (fun _ : Cache => 0) (shards_ s') <= zsum Cache_size (shards_ s'))
    by (apply zsum_le; intros; by eapply Hbound).
  assert (H1 : zsum Cache_size (shards_ s') <= zsum Cache_capacity (shards_ s'))
    by (apply zsum_le; intros; by eapply Hbound).
  rewrite (zsum_const _ 0) in H0 by done.
  unfold ShardedCache_capacity, ShardedCache_size. rewrite !foldl_sum, !wrap_small by lia. lia.
Qed.

(** [get_or_load] runs the loader exactly when the key is not visible, hands
    the loader's exception through without storing anything, and otherwise the
    loaded value is what every later read returns until its TTL runs out. *)
Theorem sharded_get_or_load {E} (t0 t1 t2 : Z) (k : bytes) (loader : bytes + E)
    (ttl : option Z) (s : ShardedCache) :
  sharded_wf s -> t0 <= t1 ->
  exists s' r ran, ShardedCache_get_or_load t0 t1 t2 k loader ttl s = Some (s', r, ran) /\
    sharded_wf s' /\
    match sharded_value t0 k s with
    | Some v => r = inl v /\ ran = false
    | None => r = loader /\ ran = true /\
        forall t, sharded_value t k s' =
          match loader with
          | inl v => match ttl with
                     | None => Some v
                     | Some ms => if t <? t2 + ms * ns_per_ms then Some v else None
                     end
          | inr _ => sharded_value t k s
          end
    end.
Proof.
  intros W Ht. unfold ShardedCache_get_or_load.
  destruct (sharded_get_correct t0 k s W) as (s1 & -> & W1 & V1). simpl.
  destruct (sharded_value t0 k s) as [v|] eqn:E0; [by eauto 10|].
  destruct (sharded_get_correct t1 k s1 W1) as (s2 & -> & W2 & V2). simpl.
  rewrite V1, (sharded_value_age t0 t1 k s Ht E0).
  destruct loader as [v|e].
  - destruct (sharded_set_correct t2 k v ttl s2 W2) as (s3 & -> & W3 & V3). simpl. eauto 10.
  - eexists _, _, _. split; [done|]. split; [done|]. split_and!; try done.
    intros t. by rewrite V2, V1.
Qed.

Definition small_sharded := ShardedCache_new 4 2 60000.


Lemma sharded_capacity_bound_witness :
  exists s' rs, ShardedCache_run
    [(get_shard_index (lit "a") (ShardedCache_new 7 2 60000), (1, OpSet (lit "a") (lit "1") None))]
    (ShardedCache_new 7 2 60000) = Some (s', rs) /\ ShardedCache_capacity s' = 6.
Proof.
  eexists _, _. split; [vm_compute; reflexivity|].
  eapply (sharded_capacity_bound 7 2 60000
    [(get_shard_index (lit "a") (ShardedCache_new 7 2 60000), (1, OpSet (lit "a") (lit "1") None))]);
    [lia|lia|lia|vm_compute; reflexivity| |vm_compute; reflexivity].
  apply Forall_cons. split; [|apply Forall_nil; done]. split; [apply shard_index_lt; vm_compute; lia|].
  intros k [= <-]. reflexivity.
Defined.

Lemma sharded_get_or_load_witness :
  exists s' ran, ShardedCache_get_or_load (E := unit) 1 2 3 (lit "k") (inl (lit "v")) None small_sharded
    = Some (s', inl (lit "v"), ran) /\ ran = true.
Proof.
  destruct (sharded_get_or_load (E := unit) 1 2 3 (lit "k") (inl (lit "v")) None small_sharded)
    as (s' & r & ran & E & _ & M); [apply sharded_new_wf; lia|lia|].
  assert (sharded_value 1 (lit "k") small_sharded = None) as V by (vm_compute; reflexivity).
  rewrite V in M. destruct M as (-> & -> & _). exists s', true. split; [exact E|reflexivity].
Defined.
