(* ===== verification/SingleFlight.v ===== *)
(** * Call coalescing

    Models src/single_flight.cpp: concurrent calls for one key share one
    execution of the function.  Each constructor of [flight_step] is one critical
    section of [do_call] by one thread; the function itself runs between the
    leader's first and second critical section and may return or throw. *)

From S2P Require Import Prelude.

(** What the function returned, or the exception it threw. *)
Abbreviation FlightResult := (bytes + nat)%type.

(** [struct Call]: the result is [None] while [done] is false.  [call_key] is a
    ghost field: the key the call was made for. *)
Record Call := mkCall { call_key : bytes; call_result : option FlightResult }.

(** Where a thread is in [do_call]. *)
Inductive FlightPc :=
  | FIdle
  | FLead (key : bytes) (call : nat)                          (* running fn *)
  | FPublished (key : bytes) (call : nat) (r : FlightResult)  (* done set, not yet erased *)
  | FWait (key : bytes) (call : nat)                          (* in cv.wait *)
  | FReturned (key : bytes) (call : nat) (r : FlightResult).

(** [class SingleFlight]: [calls_], the shared [Call] objects, the threads. *)
Record Flight := mkFlight {
  calls_ : gmap bytes nat;
  call_heap : gmap nat Call;
  next_call : nat;
  flight_threads : gmap nat FlightPc
}.

Definition Flight_new : Flight := mkFlight ∅ ∅ 0 ∅.

Definition thread_pc (s : Flight) (t : nat) : FlightPc := default FIdle (flight_threads s !! t).

Definition set_thread (t : nat) (p : FlightPc) (s : Flight) : Flight :=
  mkFlight (calls_ s) (call_heap s) (next_call s) (<[t := p]> (flight_threads s)).

(** First critical section: join the call in flight, or become its leader. *)
Definition do_call_enter (t : nat) (key : bytes) (s : Flight) : Flight :=
  match calls_ s !! key with
  | Some c => set_thread t (FWait key c) s
  | None =>
      let c := next_call s in
      mkFlight (<[key := c]> (calls_ s)) (<[c := mkCall key None]> (call_heap s)) (S c)
        (<[t := FLead key c]> (flight_threads s))
  end.

(** The leader publishes what the function returned or threw. *)
Definition do_call_publish (t : nat) (key : bytes) (c : nat) (r : FlightResult) (s : Flight) : Flight :=
  mkFlight (calls_ s) (<[c := mkCall key (Some r)]> (call_heap s)) (next_call s)
    (<[t := FPublished key c r]> (flight_threads s)).

(** The leader erases the key and returns or rethrows. *)
Definition do_call_erase (t : nat) (key : bytes) (c : nat) (r : FlightResult) (s : Flight) : Flight :=
  mkFlight (delete key (calls_ s)) (call_heap s) (next_call s)
    (<[t := FReturned key c r]> (flight_threads s)).

Inductive flight_step : Flight -> Flight -> Prop :=
  | step_enter t key s :
      thread_pc s t = FIdle -> flight_step s (do_call_enter t key s)
  | step_publish t key c r s :
      thread_pc s t = FLead key c -> flight_step s (do_call_publish t key c r s)
  | step_erase t key c r s :
      thread_pc s t = FPublished key c r -> flight_step s (do_call_erase t key c r s)
  (** The predicate of [cv.wait] holds: the follower takes the shared result. *)
  | step_wake t key c r s :
      thread_pc s t = FWait key c -> call_heap s !! c = Some (mkCall key (Some r)) ->
      flight_step s (set_thread t (FReturned key c r) s)
  (** The thread comes back with another call. *)
  | step_again t key c r s :
      thread_pc s t = FReturned key c r -> flight_step s (set_thread t FIdle s).

Definition flight_reachable (s : Flight) : Prop := rtc flight_step Flight_new s.

(** ** The invariant *)

(** The thread leads call [c] of [key], running it or finishing it. *)
Definition leads (s : Flight) (t : nat) (key : bytes) (c : nat) : Prop :=
  thread_pc s t = FLead key c \/ exists r, thread_pc s t = FPublished key c r.

Record flight_inv (s : Flight) : Prop := {
  fi_fresh : forall c x, call_heap s !! c = Some x -> (c < next_call s)%nat;
  fi_calls : forall key c, calls_ s !! key = Some c <-> exists t, leads s t key c;
  fi_unique : forall t t' key c c', leads s t key c -> leads s t' key c' -> t = t';
  fi_lead : forall t key c, thread_pc s t = FLead key c -> call_heap s !! c = Some (mkCall key None);
  fi_done : forall t key c r, thread_pc s t = FPublished key c r \/ thread_pc s t = FReturned key c r ->
    call_heap s !! c = Some (mkCall key (Some r));
  fi_wait : forall t key c, thread_pc s t = FWait key c ->
    exists o, call_heap s !! c = Some (mkCall key o) /\ (o = None -> exists t', thread_pc s t' = FLead key c)
}.

(** Changing thread [t]'s place, whatever happens to the rest of the state. *)
Definition moved (t : nat) (p : FlightPc) (s s' : Flight) : Prop :=
  flight_threads s' = <[t := p]> (flight_threads s).

Lemma moved_pc t p s s' t' :
  moved t p s s' -> thread_pc s' t' = if decide (t = t') then p else thread_pc s t'.
Proof.
  unfold moved, thread_pc. intros ->.
  case_decide as E; [subst; by rewrite lookup_insert_eq|by rewrite lookup_insert_ne].
Qed.

(** A step that keeps who leads what. *)
Lemma leads_same t p s s' :
  moved t p s s' ->
  (forall key c, (p = FLead key c \/ exists r, p = FPublished key c r) <-> leads s t key c) ->
  forall t' key c, leads s' t' key c <-> leads s t' key c.
Proof.
  intros M H t' key c. unfold leads at 1. rewrite (moved_pc t p s s' t' M).
  destruct (decide (t = t')) as [<-|]; [apply H|done].
Qed.

(** Rewrites a thread's place after a step and splits on whether it moved. *)
Ltac pc_cases M H :=
  rewrite (moved_pc _ _ _ _ _ M) in H;
  match type of H with context [decide (?a = ?b)] => destruct (decide (a = b)) as [<-|] end.

Lemma enter_follow_inv t key c s :
  flight_inv s -> thread_pc s t = FIdle -> calls_ s !! key = Some c ->
  flight_inv (set_thread t (FWait key c) s).
Proof.
  intros I Ht Hc. set (s' := set_thread t (FWait key c) s).
  assert (M : moved t (FWait key c) s s') by done.
  assert (L : forall t' k' c', leads s' t' k' c' <-> leads s t' k' c').
  { apply (leads_same t (FWait key c)); [done|]. intros k' c'. unfold leads. rewrite Ht. naive_solver. }
  split; simpl.
  - apply I.
  - intros k' c'. setoid_rewrite L. apply I.
  - intros t1 t2 k' c1 c2. rewrite !L. apply I.
  - intros t' k' c' H. pc_cases M H; [done|by eapply (fi_lead s I)].
  - intros t' k' c' r [H|H]; pc_cases M H; try done; eapply (fi_done s I); eauto.
  - intros t' k' c' H. pc_cases M H.
    + simplify_eq. apply (fi_calls s I) in Hc as (t2 & [H2|[r H2]]).
      * exists None. split; [by apply (fi_lead s I) in H2|]. intros _. exists t2.
        rewrite (moved_pc _ _ _ _ _ M). destruct (decide (t = t2)) as [<-|]; congruence.
      * exists (Some r). split; [|done]. eapply (fi_done s I). eauto.
    + destruct (fi_wait s I t' k' c' H) as (o & Ho & Hn). exists o. split; [done|].
      intros Eo. destruct (Hn Eo) as [t2 H2]. exists t2. rewrite (moved_pc _ _ _ _ _ M).
      destruct (decide (t = t2)) as [<-|]; congruence.
Qed.

Lemma enter_lead_inv t key s :
  flight_inv s -> thread_pc s t = FIdle -> calls_ s !! key = None ->
  flight_inv (do_call_enter t key s).
Proof.
  intros I Ht Hc. unfold do_call_enter. rewrite Hc. set (c := next_call s).
  match goal with |- flight_inv ?x => set (s' := x) end.
  assert (M : moved t (FLead key c) s s') by done.
  assert (L : forall t' k' c', leads s' t' k' c' <->
    (t' = t /\ k' = key /\ c' = c) \/ (t' <> t /\ leads s t' k' c')).
  { intros t' k' c'. unfold leads at 1. rewrite (moved_pc _ _ _ _ t' M).
    destruct (decide (t = t')) as [<-|]; unfold leads; naive_solver. }
  assert (Nk : forall t' c', ~ leads s t' key c').
  { intros t' c' H. assert (calls_ s !! key = Some c') by (apply (fi_calls s I); eauto). congruence. }
  assert (Nt : forall k' c', ~ leads s t k' c') by (intros k' c'; unfold leads; rewrite Ht; naive_solver).
  assert (Hh : forall c' x, call_heap s !! c' = Some x -> call_heap s' !! c' = Some x).
  { intros c' x Hx. simpl. rewrite lookup_insert_ne; [done|]. apply (fi_fresh s I) in Hx.
    unfold c. lia. }
  split.
  - intros c' x. simpl. rewrite lookup_insert_Some. intros [[<- _]|[_ Hx]]; [lia|].
    apply (fi_fresh s I) in Hx. unfold c. lia.
  - intros k' c'. setoid_rewrite L. simpl. rewrite lookup_insert_Some, (fi_calls s I). split.
    + intros [[-> ->]|[Hne [t' H]]]; [exists t; auto|]. exists t'. right. split; [|done].
      intros ->. by eapply Nt.
    + intros (t' & [(-> & -> & ->)|[Hne H]]); [by left|]. right. split; [|eauto]. intros ->.
      by eapply Nk.
  - intros t1 t2 k' c1 c2. rewrite !L. intros [(-> & -> & ->)|[H1 H1']] [(-> & E & ->)|[H2 H2']];
      subst; try done; try (by exfalso; eapply Nk). by eapply (fi_unique s I).
  - intros t' k' c' H. pc_cases M H; [simplify_eq; simpl; by rewrite lookup_insert_eq|].
    by apply Hh, (fi_lead s I t').
  - intros t' k' c' r [H|H]; pc_cases M H; try done; apply Hh; eapply (fi_done s I); eauto.
  - intros t' k' c' H. pc_cases M H; [done|].
    destruct (fi_wait s I t' k' c' H) as (o & Ho & Hn). exists o. split; [by apply Hh|].
    intros Eo. destruct (Hn Eo) as [t2 H2]. exists t2. rewrite (moved_pc _ _ _ _ _ M).
    destruct (decide (t = t2)) as [<-|]; congruence.
Qed.

Lemma publish_inv t key c r s :
  flight_inv s -> thread_pc s t = FLead key c -> flight_inv (do_call_publish t key c r s).
Proof.
  intros I Ht. set (s' := do_call_publish t key c r s).
  assert (M : moved t (FPublished key c r) s s') by done.
  pose proof (fi_lead s I t key c Ht) as Hc.
  assert (L : forall t' k' c', leads s' t' k' c' <-> leads s t' k' c').
  { apply (leads_same t (FPublished key c r)); [done|]. intros k' c'. unfold leads. rewrite Ht.
    naive_solver. }
  assert (Hh : forall c' k' r', call_heap s !! c' = Some (mkCall k' (Some r')) ->
    call_heap s' !! c' = Some (mkCall k' (Some r'))).
  { intros c' k' r' Hx. simpl. rewrite lookup_insert_ne; [done|]. intros <-. congruence. }
  split.
  - intros c' x. simpl. rewrite lookup_insert_Some. intros [[<- _]|[_ Hx]]; by eapply (fi_fresh s I).
  - intros k' c'. setoid_rewrite L. apply I.
  - intros t1 t2 k' c1 c2. rewrite !L. apply I.
  - intros t' k' c' H. pc_cases M H; [done|]. simpl. rewrite lookup_insert_ne; [by apply (fi_lead s I t')|].
    intros <-. pose proof (fi_lead s I t' k' c H). simplify_eq.
    assert (t = t') by (eapply (fi_unique s I); left; eauto). done.
  - intros t' k' c' r' [H|H]; pc_cases M H; try done; simplify_eq.
    + simpl. by rewrite lookup_insert_eq.
    + apply Hh. eapply (fi_done s I); eauto.
    + apply Hh. eapply (fi_done s I); eauto.
  - intros t' k' c' H. pc_cases M H; [done|].
    destruct (fi_wait s I t' k' c' H) as (o & Ho & Hn). simpl.
    destruct (decide (c = c')) as [<-|Hne].
    + rewrite lookup_insert_eq. exists (Some r). split; [|done]. congruence.
    + rewrite lookup_insert_ne by done. exists o. split; [done|]. intros Eo.
      destruct (Hn Eo) as [t2 H2]. exists t2. rewrite (moved_pc _ _ _ _ _ M).
      destruct (decide (t = t2)) as [<-|]; congruence.
Qed.

Lemma erase_inv t key c r s :
  flight_inv s -> thread_pc s t = FPublished key c r -> flight_inv (do_call_erase t key c r s).
Proof.
  intros I Ht. set (s' := do_call_erase t key c r s).
  assert (M : moved t (FReturned key c r) s s') by done.
  assert (Lt : leads s t key c) by (right; eauto).
  assert (L : forall t' k' c', leads s' t' k' c' <-> t' <> t /\ leads s t' k' c').
  { intros t' k' c'. unfold leads at 1. rewrite (moved_pc _ _ _ _ t' M).
    destruct (decide (t = t')) as [<-|]; unfold leads; naive_solver. }
  split; simpl.
  - apply I.
  - intros k' c'. setoid_rewrite L. rewrite lookup_delete_Some, (fi_calls s I). split.
    + intros [Hne [t' H]]. exists t'. split; [|done]. intros ->. destruct H as [H|[r' H]]; congruence.
    + intros (t' & Hne & H). split; [|eauto]. intros <-. apply Hne. by eapply (fi_unique s I).
  - intros t1 t2 k' c1 c2. rewrite !L. intros [_ H1] [_ H2]. by eapply (fi_unique s I).
  - intros t' k' c' H. pc_cases M H; [done|by eapply (fi_lead s I)].
  - intros t' k' c' r' [H|H]; pc_cases M H; try done; simplify_eq; eapply (fi_done s I); eauto.
  - intros t' k' c' H. pc_cases M H; [done|].
    destruct (fi_wait s I t' k' c' H) as (o & Ho & Hn). exists o. split; [done|].
    intros Eo. destruct (Hn Eo) as [t2 H2]. exists t2. rewrite (moved_pc _ _ _ _ _ M).
    destruct (decide (t = t2)) as [<-|]; congruence.
Qed.

(** A thread that neither leads nor will lead moves on. *)
Lemma set_thread_inv t p s :
  flight_inv s -> (forall key c, ~ leads s t key c) ->
  (p = FIdle \/ exists key c r, p = FReturned key c r /\ call_heap s !! c = Some (mkCall key (Some r))) ->
  flight_inv (set_thread t p s).
Proof.
  intros I Nl Hp. set (s' := set_thread t p s). assert (M : moved t p s s') by done.
  assert (L : forall t' k' c', leads s' t' k' c' <-> leads s t' k' c').
  { apply (leads_same t p); [done|]. intros k' c'. split; [naive_solver|]. intros H. by apply Nl in H. }
  split; simpl.
  - apply I.
  - intros k' c'. setoid_rewrite L. apply I.
  - intros t1 t2 k' c1 c2. rewrite !L. apply I.
  - intros t' k' c' H. pc_cases M H; [naive_solver|by eapply (fi_lead s I)].
  - intros t' k' c' r' [H|H]; pc_cases M H; try naive_solver; eapply (fi_done s I); eauto.
  - intros t' k' c' H. pc_cases M H; [naive_solver|].
    destruct (fi_wait s I t' k' c' H) as (o & Ho & Hn). exists o. split; [done|].
    intros Eo. destruct (Hn Eo) as [t2 H2]. exists t2. rewrite (moved_pc _ _ _ _ _ M).
    destruct (decide (t = t2)) as [<-|]; [|done]. exfalso. eapply Nl. left. exact H2.
Qed.

Lemma flight_step_inv s s' : flight_inv s -> flight_step s s' -> flight_inv s'.
Proof.
  intros I Hs. revert I.
  destruct Hs as [t key s0 Ht|t key c r s0 Ht|t key c r s0 Ht|t key c r s0 Ht Hc|t key c r s0 Ht]; intros I.
  - destruct (calls_ s0 !! key) as [c|] eqn:E; [|by apply enter_lead_inv].
    unfold do_call_enter. rewrite E. by apply enter_follow_inv.
  - by apply publish_inv.
  - by apply erase_inv.
  - apply set_thread_inv; [done|unfold leads; rewrite Ht; naive_solver|]. right. eauto.
  - apply set_thread_inv; [done|unfold leads; rewrite Ht; naive_solver|]. by left.
Qed.

Lemma Flight_new_inv : flight_inv Flight_new.
Proof.
  split; unfold leads, thread_pc; simpl; try setoid_rewrite lookup_empty; simpl; naive_solver.
Qed.

Lemma flight_reachable_inv s : flight_reachable s -> flight_inv s.
Proof.
  unfold flight_reachable. revert s.
  apply (rtc_ind_r (R := flight_step) flight_inv Flight_new); [apply Flight_new_inv|].
  intros y z _ Hs I. by eapply flight_step_inv.
Qed.

(** ** Properties *)

(** C38: At any moment at most one thread runs the function for a given key, and
    all calls of a flight that have returned returned what its one execution
    produced: the value, or the exception. *)
Theorem single_flight_shared s :
  flight_reachable s ->
  (forall t t' key c c', thread_pc s t = FLead key c -> thread_pc s t' = FLead key c' -> t = t') /\
  (forall t t' key key' c r r', thread_pc s t = FReturned key c r ->
     thread_pc s t' = FReturned key' c r' -> key = key' /\ r = r').
Proof.
  intros R. pose proof (flight_reachable_inv s R) as I. split.
  - intros t t' key c c' H H'. apply (fi_unique s I t t' key c c'); by left.
  - intros t t' key key' c r r' H H'.
    pose proof (fi_done s I t key c r (or_intror H)).
    pose proof (fi_done s I t' key' c r' (or_intror H')). by simplify_eq.
Qed.

(** No caller is left waiting: in every reachable state a waiting thread can
    take its result now, or the leader of its flight is still running the
    function and its publishing step enables it. *)
Theorem single_flight_no_lost_wakeup s t key c :
  flight_reachable s -> thread_pc s t = FWait key c ->
  (exists r, flight_step s (set_thread t (FReturned key c r) s)) \/
  (exists t', thread_pc s t' = FLead key c /\ forall r,
     let s' := do_call_publish t' key c r s in
     flight_step s s' /\ flight_step s' (set_thread t (FReturned key c r) s')).
Proof.
  intros R Ht. destruct (fi_wait s (flight_reachable_inv s R) t key c Ht) as ([r|] & Hc & Hn).
  - left. exists r. by apply step_wake.
  - right. destruct (Hn eq_refl) as [t' Ht']. exists t'. split; [done|]. intros r. split; [by constructor|].
    apply step_wake; [|simpl; by rewrite lookup_insert_eq].
    rewrite (moved_pc t' (FPublished key c r) s) by done. rewrite decide_False; [done|].
    intros ->. congruence.
Qed.

(** Two threads ask for the same key; the first one leads. *)
Definition two_callers : Flight := do_call_enter 2 (lit "k") (do_call_enter 1 (lit "k") Flight_new).

Lemma two_callers_reachable : flight_reachable two_callers.
Proof. eapply rtc_l; [by apply (step_enter 1)|]. apply rtc_once. by apply (step_enter 2). Qed.

Lemma single_flight_shared_witness :
  flight_reachable two_callers /\
  forall t t' key c c', thread_pc two_callers t = FLead key c ->
    thread_pc two_callers t' = FLead key c' -> t = t'.
Proof.
  split; [exact two_callers_reachable|].
  exact (proj1 (single_flight_shared two_callers two_callers_reachable)).
Defined.

Lemma single_flight_no_lost_wakeup_witness :
  thread_pc two_callers 2 = FWait (lit "k") 0 /\
  ((exists r, flight_step two_callers (set_thread 2 (FReturned (lit "k") 0 r) two_callers)) \/
   (exists t', thread_pc two_callers t' = FLead (lit "k") 0 /\ forall r,
     let s' := do_call_publish t' (lit "k") 0 r two_callers in
     flight_step two_callers s' /\ flight_step s' (set_thread 2 (FReturned (lit "k") 0 r) s'))).
Proof.
  assert (H : thread_pc two_callers 2 = FWait (lit "k") 0) by (vm_compute; reflexivity).
  split; [exact H|]. exact (single_flight_no_lost_wakeup two_callers 2 (lit "k") 0 two_callers_reachable H).
Defined.
