(* ===== verification/HealthChecker.v ===== *)
(** * Failure detection

    Models src/health_checker.cpp: every probe round pings each known node and
    moves its state; three failures in a row make it unhealthy, two successes in
    a row healthy again.  Whether a ping succeeds is the network's choice and an
    argument here; starting and stopping the worker thread is not modelled. *)

From S2P Require Import Prelude Numerals ConsistentHash.

Local Open Scope Z_scope.

Inductive NodeHealth := Healthy | Suspect | Unhealthy.

#[export] Instance NodeHealth_eq_dec : EqDecision NodeHealth.
Proof. solve_decision. Defined.

(** [struct NodeHealthState]. *)
Record NodeHealthState := mkNHS { hs_status : NodeHealth; hs_failures : Z; hs_successes : Z }.

Definition fresh_health : NodeHealthState := mkNHS Healthy 0 0.

(** [class HealthChecker]. *)
Record HealthChecker := mkHC {
  hc_nodes_ : list CacheNode;
  node_states_ : gmap bytes NodeHealthState
}.

Definition HealthChecker_new : HealthChecker := mkHC [] ∅.

Definition HealthChecker_add_node (node : CacheNode) (h : HealthChecker) : HealthChecker :=
  mkHC (hc_nodes_ h ++ [node]) (<[cn_id node := fresh_health]> (node_states_ h)).

Definition HealthChecker_remove_node (node_id : bytes) (h : HealthChecker) : HealthChecker :=
  mkHC (filter (fun n => cn_id n <> node_id) (hc_nodes_ h)) (delete node_id (node_states_ h)).

Definition HealthChecker_get_node_health (node_id : bytes) (h : HealthChecker) : NodeHealth :=
  match node_states_ h !! node_id with Some st => hs_status st | None => Unhealthy end.

(** The state change of one probe, and the event it reports. *)
Definition probe_step (st : NodeHealthState) (healthy : bool) : NodeHealthState * option bool :=
  if healthy then
    let successes := hs_successes st + 1 in
    if bool_decide (hs_status st <> Healthy) && (2 <=? successes)
    then (mkNHS Healthy 0 successes, Some true)
    else (mkNHS (hs_status st) 0 successes, None)
  else
    let failures := hs_failures st + 1 in
    let status := if bool_decide (hs_status st = Healthy) && (1 <=? failures)
                  then Suspect else hs_status st in
    if bool_decide (status <> Unhealthy) && (3 <=? failures)
    then (mkNHS Unhealthy failures 0, Some false)
    else (mkNHS status failures 0, None).

(** One iteration of [run_check]'s loop: [node_states_[node.id]] creates a
    default state when the node was removed meanwhile. *)
Definition check_node (node : CacheNode) (healthy : bool) (h : HealthChecker)
    : HealthChecker * option (bytes * bool) :=
  let '(st, ev) := probe_step (default fresh_health (node_states_ h !! cn_id node)) healthy in
  (mkHC (hc_nodes_ h) (<[cn_id node := st]> (node_states_ h)), (fun b => (cn_id node, b)) <$> ev).

Definition check_loop (ping : CacheNode -> bool) (target_nodes : list CacheNode)
    (acc : HealthChecker * list (bytes * bool)) : HealthChecker * list (bytes * bool) :=
  foldl (fun '(h, events) node =>
           let '(h', ev) := check_node node (ping node) h in
           (h', events ++ match ev with Some e => [e] | None => [] end)) acc target_nodes.

(** [HealthChecker::run_check] undisturbed: the events are the callback's
    arguments, in order. *)
Definition HealthChecker_run_check (ping : CacheNode -> bool) (h : HealthChecker)
    : HealthChecker * list (bytes * bool) :=
  check_loop ping (hc_nodes_ h) (h, []).

(** ** One node's history of probes *)

Definition probe_history (bs : list bool) : NodeHealthState :=
  foldl (fun st b => fst (probe_step st b)) fresh_health bs.

(** Two successes in a row somewhere. *)
Fixpoint has_two_successes (bs : list bool) : bool :=
  match bs with
  | true :: ((true :: _) as r) => true
  | _ :: r => has_two_successes r
  | [] => false
  end.

(** Three failures in a row and no two successes in a row since. *)
Definition declared_down (bs : list bool) : Prop :=
  exists a b, bs = a ++ [false; false; false] ++ b /\ has_two_successes b = false.

(** How many times [x] ends the list. *)
Definition trailing (x : bool) (bs : list bool) : Z :=
  foldl (fun n b => if Bool.eqb x b then n + 1 else 0) 0 bs.

Lemma trailing_snoc x bs b :
  trailing x (bs ++ [b]) = if Bool.eqb x b then trailing x bs + 1 else 0.
Proof. unfold trailing. by rewrite foldl_app. Qed.

Lemma two_successes_snoc bs b :
  has_two_successes (bs ++ [b]) = has_two_successes bs || (b && bool_decide (last bs = Some true)).
Proof.
  induction bs as [|a bs IH]; [by destruct b|]. destruct bs as [|a' bs].
  - by destruct a, b.
  - change ((a :: a' :: bs) ++ [b]) with (a :: (a' :: bs) ++ [b]).
    destruct a; cbn [has_two_successes app]; [destruct a'; [done|]|]; exact IH.
Qed.

Lemma trailing_nonneg x bs : 0 <= trailing x bs.
Proof. induction bs as [|b bs IH] using rev_ind; [done|]. rewrite trailing_snoc. case_match; lia. Qed.

Lemma trailing_last x bs : 0 < trailing x bs <-> last bs = Some x.
Proof.
  destruct bs as [|b bs _] using rev_ind; [unfold trailing; simpl; split; [lia|done]|].
  rewrite trailing_snoc, last_snoc. pose proof (trailing_nonneg x bs).
  destruct x, b; simpl; split; intros; simplify_eq; try done; try lia; by exfalso; lia.
Qed.

(** ** The state is the history's verdict *)

Lemma down_snoc bs b :
  declared_down (bs ++ [b]) <->
  (b = false /\ 2 <= trailing false bs) \/
  (declared_down bs /\ ~ (b = true /\ last bs = Some true)).
Proof.
  split.
  - intros (u & v & E & Hv). destruct v as [|x v _] using rev_ind.
    + left. replace (u ++ [false; false; false] ++ []) with ((u ++ [false; false]) ++ [false]) in E
        by (by rewrite <-app_assoc).
      apply app_inj_tail in E as [-> ->]. split; [done|].
      change [false; false] with ([false] ++ [false]). rewrite app_assoc, !trailing_snoc. simpl.
      pose proof (trailing_nonneg false u). lia.
    + right. rewrite !app_assoc in E. apply app_inj_tail in E as [-> ->].
      rewrite two_successes_snoc in Hv. apply orb_false_iff in Hv as [Hv Hl].
      split; [exists u, v; by rewrite <-app_assoc|]. intros [-> Hlast]. simpl in Hl.
      apply bool_decide_eq_false_1 in Hl. apply Hl.
      destruct v as [|y v _] using rev_ind; [by rewrite app_nil_r, last_app in Hlast|].
      rewrite app_assoc, last_snoc in Hlast. by rewrite last_snoc.
  - intros [[-> Ht]|[(u & v & -> & Hv) Hn]].
    + destruct bs as [|x bs _] using rev_ind; [simpl in Ht; unfold trailing in Ht; simpl in Ht; lia|].
      destruct x; rewrite trailing_snoc in Ht; simpl in Ht; [lia|].
      destruct bs as [|y bs _] using rev_ind; [unfold trailing in Ht; simpl in Ht; lia|].
      destruct y; rewrite trailing_snoc in Ht; simpl in Ht; [lia|].
      exists bs, []. split; [by rewrite <-!app_assoc|done].
    + exists u, (v ++ [b]). split; [by rewrite <-!app_assoc|].
      rewrite two_successes_snoc, Hv. simpl. destruct b; [|done]. simpl.
      apply bool_decide_eq_false_2. intros Hl. apply Hn. split; [done|].
      destruct v as [|y v _] using rev_ind; [done|]. rewrite last_snoc in Hl.
      by rewrite !app_assoc, last_snoc.
Qed.

(** The counters are the runs at the end of the history, and the status is
    unhealthy exactly on the histories that declare the node down. *)
Lemma history_inv bs :
  let st := probe_history bs in
  hs_failures st = trailing false bs /\ hs_successes st = trailing true bs /\
  (hs_status st = Unhealthy <-> declared_down bs) /\
  (hs_status st = Healthy -> trailing false bs = 0).
Proof.
  induction bs as [|b bs IH] using rev_ind.
  { simpl. split_and!; try done. split; [done|]. intros (u & v & E & _). by destruct u. }
  unfold probe_history in *. rewrite foldl_app. cbn [foldl].
  set (st := foldl _ _ _) in *. destruct IH as (Hf & Hs & Hd & Hh). cbv zeta.
  rewrite !trailing_snoc, down_snoc, <-Hd, <-(trailing_last true).
  pose proof (trailing_nonneg true bs). pose proof (trailing_nonneg false bs).
  unfold probe_step. destruct b; cbn [Bool.eqb].
  - destruct (hs_status st) eqn:E; cbn [fst]; rewrite Hs;
      destruct (Z.leb_spec 2 (trailing true bs + 1));
      rewrite ?bool_decide_eq_true_2, ?bool_decide_eq_false_2 by naive_solver; simpl;
      rewrite ?E; split_and!; try done; naive_solver lia.
  - rewrite Hf. destruct (hs_status st) eqn:E; cbn [fst];
      destruct (Z.leb_spec 3 (trailing false bs + 1));
      destruct (Z.leb_spec 1 (trailing false bs + 1)); try lia;
      repeat (rewrite ?bool_decide_eq_true_2, ?bool_decide_eq_false_2 by naive_solver; simpl);
      rewrite ?E; split_and!; try done; naive_solver lia.
Qed.

(** ** A round of checks *)

(** The probe of [node] in state [h]. *)
Definition probe_of (ping : CacheNode -> bool) (h : HealthChecker) (node : CacheNode)
    : NodeHealthState * option bool :=
  probe_step (default fresh_health (node_states_ h !! cn_id node)) (ping node).

Lemma check_loop_spec ping l h evs :
  NoDup (cn_id <$> l) ->
  let '(h', evs') := check_loop ping l (h, evs) in
  hc_nodes_ h' = hc_nodes_ h /\
  (forall n, n ∈ l -> node_states_ h' !! cn_id n = Some (fst (probe_of ping h n))) /\
  (forall id, id ∉ cn_id <$> l -> node_states_ h' !! id = node_states_ h !! id) /\
  (forall id b, (id, b) ∈ evs' <-> (id, b) ∈ evs \/
     exists n, n ∈ l /\ cn_id n = id /\ snd (probe_of ping h n) = Some b).
Proof.
  revert h evs. induction l as [|n l IH]; intros h evs ND.
  { simpl. split_and!; [done|intros n Hn; by apply elem_of_nil in Hn|done|]. intros id b. split; [auto|].
    intros [H|(n & Hn & _)]; [done|by apply elem_of_nil in Hn]. }
  rewrite fmap_cons in ND. apply NoDup_cons in ND as [Hn ND].
  destruct (probe_of ping h n) as [st ev] eqn:Ep.
  set (h1 := mkHC (hc_nodes_ h) (<[cn_id n := st]> (node_states_ h))).
  set (ev1 := evs ++ match (fun b => (cn_id n, b)) <$> ev with Some e => [e] | None => [] end).
  assert (Hstep : check_loop ping (n :: l) (h, evs) = check_loop ping l (h1, ev1)).
  { unfold check_loop. cbn [foldl]. unfold check_node. fold (probe_of ping h n). by rewrite Ep. }
  rewrite Hstep. specialize (IH h1 ev1 ND).
  destruct (check_loop ping l (h1, ev1)) as [h' evs']. unfold ev1 in IH.
  destruct IH as (I1 & I2 & I3 & I4).
  assert (Hp : forall m, m ∈ l -> probe_of ping h1 m = probe_of ping h m).
  { intros m Hm. unfold probe_of, h1. simpl. rewrite lookup_insert_ne; [done|]. intros E.
    apply Hn. rewrite E. by apply list_elem_of_fmap_2. }
  split_and!.
  - done.
  - intros m [->|Hm]%elem_of_cons; [rewrite I3 by done; simpl; by rewrite lookup_insert_eq, Ep|].
    by rewrite I2, Hp.
  - intros id Hid. rewrite fmap_cons, elem_of_cons in Hid. rewrite I3 by tauto. simpl.
    rewrite lookup_insert_ne; [done|]. intros <-. tauto.
  - intros id b. rewrite I4, elem_of_app. setoid_rewrite elem_of_cons. split.
    + intros [[H|H]|(m & Hm & E & H)]; [by left| |right; exists m; rewrite <-Hp by done; auto].
      right. exists n. destruct ev as [b'|]; simpl in H; [|by apply elem_of_nil in H].
      apply list_elem_of_singleton in H. simplify_eq. by rewrite Ep; auto.
    + intros [H|(m & [->|Hm] & E & H)]; [by left; left| |].
      * left. right. rewrite Ep in H. simpl in H. subst. simpl. by left.
      * right. exists m. by rewrite Hp.
Qed.

(** Any number of undisturbed rounds. *)
Definition run_checks (pings : list (CacheNode -> bool)) (h : HealthChecker) : HealthChecker :=
  foldl (fun h ping => fst (HealthChecker_run_check ping h)) h pings.

Lemma run_check_spec ping h :
  NoDup (cn_id <$> hc_nodes_ h) ->
  hc_nodes_ (fst (HealthChecker_run_check ping h)) = hc_nodes_ h /\
  (forall n, n ∈ hc_nodes_ h -> node_states_ (fst (HealthChecker_run_check ping h)) !! cn_id n =
     Some (fst (probe_of ping h n))) /\
  (forall id b, (id, b) ∈ snd (HealthChecker_run_check ping h) <->
     exists n, n ∈ hc_nodes_ h /\ cn_id n = id /\ snd (probe_of ping h n) = Some b).
Proof.
  intros ND. pose proof (check_loop_spec ping (hc_nodes_ h) h [] ND) as H.
  unfold HealthChecker_run_check. destruct (check_loop _ _ _) as [h' evs'].
  destruct H as (H1 & H2 & _ & H4). split_and!; try done. intros id b. rewrite H4. set_solver.
Qed.

Lemma run_checks_history pings h n :
  NoDup (cn_id <$> hc_nodes_ h) -> n ∈ hc_nodes_ h ->
  node_states_ h !! cn_id n = Some fresh_health ->
  hc_nodes_ (run_checks pings h) = hc_nodes_ h /\
  node_states_ (run_checks pings h) !! cn_id n = Some (probe_history ((fun ping => ping n) <$> pings)).
Proof.
  intros ND Hn Hf. induction pings as [|ping pings IH] using rev_ind; [done|].
  unfold run_checks, probe_history in *. rewrite fmap_app, !foldl_app. cbn [foldl fmap list_fmap].
  destruct IH as [I1 I2]. set (h' := foldl _ h pings) in *.
  destruct (run_check_spec ping h') as (S1 & S2 & _); [by rewrite I1|].
  rewrite S1, S2, I1 by (by rewrite I1). split; [done|]. unfold probe_of. by rewrite I2.
Qed.

(** ** Properties *)

(** However the pings of a monitored node turn out, round after round, it is
    unhealthy exactly when at some point three pings in a row failed and no two
    in a row have succeeded since; and the next round reports it unhealthy
    (healthy) exactly when that round makes it so. *)
Theorem health_detection pings ping h n :
  NoDup (cn_id <$> hc_nodes_ h) -> n ∈ hc_nodes_ h ->
  node_states_ h !! cn_id n = Some fresh_health ->
  let h1 := run_checks pings h in
  let '(h2, events) := HealthChecker_run_check ping h1 in
  let status := HealthChecker_get_node_health (cn_id n) in
  (status h1 = Unhealthy <-> declared_down ((fun ping => ping n) <$> pings)) /\
  ((cn_id n, false) ∈ events <-> status h1 <> Unhealthy /\ status h2 = Unhealthy) /\
  ((cn_id n, true) ∈ events <-> status h1 <> Healthy /\ status h2 = Healthy).
Proof.
  intros ND Hn Hf h1. destruct (run_checks_history pings h n ND Hn Hf) as [E1 E2]. fold h1 in E1, E2.
  destruct (run_check_spec ping h1) as (S1 & S2 & S3); [by rewrite E1|].
  destruct (HealthChecker_run_check ping h1) as [h2 events]. simpl in *.
  unfold HealthChecker_get_node_health. rewrite E2, S2 by (by rewrite E1).
  assert (Hev : forall b, (cn_id n, b) ∈ events <-> snd (probe_of ping h1 n) = Some b).
  { intros b. rewrite S3, E1. split; [|by eauto]. intros (m & Hm & Em & H).
    replace n with m; [done|]. clear - ND Hn Hm Em. revert Hn Hm ND. generalize (hc_nodes_ h).
    intros l Hn Hm ND. apply list_elem_of_lookup in Hn as [i Hi]. apply list_elem_of_lookup in Hm as [j Hj].
    assert (i = j); [|congruence]. apply (NoDup_lookup _ i j (cn_id n) ND); rewrite list_lookup_fmap;
      [by rewrite Hi|rewrite Hj; simpl; congruence]. }
  rewrite !Hev. split; [apply history_inv|]. unfold probe_of. rewrite E2. simpl.
  destruct (probe_history _) as [[] f g]; unfold probe_step; simpl; destruct (ping n);
    repeat (case_match; simpl); split; split; intros; naive_solver.
Qed.

Definition watched : HealthChecker := HealthChecker_add_node node_a (HealthChecker_add_node node_b HealthChecker_new).

Lemma health_detection_witness :
  HealthChecker_get_node_health (cn_id node_a)
    (run_checks [(fun _ => false); (fun _ => false); (fun n => bool_decide (cn_id n = lit "b"))] watched)
  = Unhealthy.
Proof.
  pose proof (health_detection
    [(fun _ => false); (fun _ => false); (fun n => bool_decide (cn_id n = lit "b"))] (fun _ => true)
    watched node_a) as H. cbv zeta in H.
  destruct (HealthChecker_run_check _ _) as [h2 evs]. apply H.
  - by_eval.
  - by_eval.
  - vm_compute. reflexivity.
  - exists [], []. split; vm_compute; reflexivity.
Defined.
