(* ===== verification/Workers.v ===== *)
(** * Background threads

    Models how the program starts and stops its background threads: TTLManager
    (src/ttl_manager.cpp), HealthChecker::start and stop, Cluster::start and stop
    with the loops for hints, gossip and rebalancing (src/cluster.cpp), and the
    snapshot thread of src/main.cpp.  A service is a list of threads, each with
    its wake mutex and condition variable, one flag they share, and the thread
    that stops them, whose program is a list of instructions.  Steps of
    different threads interleave; other threads may hold the mutexes, and a
    wait may end for no reason.

    The theorem says that stopping works: no notification is lost, so [stop]
    never waits for a thread that sleeps, it returns after a bounded number of
    steps, and no thread is left when it has returned. *)

From S2P Require Import Prelude.

Local Open Scope nat_scope.

(** ** Threads *)

(** The loops: wait, then work ([TTLManager], [HealthChecker], [hint_loop]); work,
    then wait ([gossip_loop]); wait for a request ([rebalance_loop]); wait with
    the mutex held but during the work (the snapshot thread). *)
Inductive Loop := LWaitFirst | LWorkFirst | LRequest | LHeld.

Inductive Pc :=
  | PTest      (** while (running_) *)
  | PLock      (** std::unique_lock lock(mutex) *)
  | PPred      (** the predicate of the wait, with the mutex held *)
  | PBlock     (** the predicate was false: about to sleep *)
  | PAsleep    (** asleep, the mutex released *)
  | PWoken     (** woken, to take the mutex and test again *)
  | PTimedOut  (** the time is up, to take the mutex and go on *)
  | PWaited    (** after the wait, with the mutex held *)
  | PCheck     (** if (!running_) break *)
  | PWork
  | PDone.

Inductive Owner := OWorker | OStopper | OOther.

#[export] Instance Loop_eq_dec : EqDecision Loop.
Proof. solve_decision. Defined.
#[export] Instance Pc_eq_dec : EqDecision Pc.
Proof. solve_decision. Defined.
#[export] Instance Owner_eq_dec : EqDecision Owner.
Proof. solve_decision. Defined.

Record Worker := mkWorker {
  wk_loop : Loop;
  wk_pc : Pc;
  wk_joinable : bool;
  wk_owner : option Owner;
  wk_requested : bool
}.

Definition set_wk_pc (pc : Pc) (w : Worker) : Worker :=
  mkWorker (wk_loop w) pc (wk_joinable w) (wk_owner w) (wk_requested w).
Definition set_owner (o : option Owner) (w : Worker) : Worker :=
  mkWorker (wk_loop w) (wk_pc w) (wk_joinable w) o (wk_requested w).

(** Take the mutex, if it is free. *)
Definition acquire (o : Owner) (pc : Pc) (w : Worker) : option Worker :=
  match wk_owner w with
  | None => Some (set_owner (Some o) (set_wk_pc pc w))
  | Some _ => None
  end.

Definition release (pc : Pc) (w : Worker) : Worker := set_owner None (set_wk_pc pc w).

(** The predicate of the wait. *)
Definition wait_over (running : bool) (w : Worker) : bool :=
  match wk_loop w with
  | LRequest => wk_requested w || negb running
  | _ => negb running
  end.

(** The next step of a thread; [None] if it has to wait. *)
Definition worker_step (running : bool) (w : Worker) : option Worker :=
  match wk_pc w with
  | PTest =>
      Some (set_wk_pc (if running then match wk_loop w with LWorkFirst => PWork | _ => PLock end else PDone) w)
  | PLock | PWoken => acquire OWorker PPred w
  | PTimedOut => acquire OWorker PWaited w
  | PPred => Some (set_wk_pc (if wait_over running w then PWaited else PBlock) w)
  | PBlock => Some (release PAsleep w)
  | PAsleep => None
  | PWaited =>
      Some match wk_loop w with
           | LWaitFirst => release PCheck w
           | LWorkFirst => release PTest w
           | LRequest =>
               if running then mkWorker (wk_loop w) PWork (wk_joinable w) None false else release PDone w
           | LHeld => release (if running then PWork else PDone) w
           end
  | PCheck => Some (set_wk_pc (if running then PWork else PDone) w)
  | PWork => Some (set_wk_pc match wk_loop w with LWorkFirst | LHeld => PLock | _ => PTest end w)
  | PDone => None
  end.

(** ** The service *)

(** What a [stop] does, one instruction at a time: [running_.exchange(false)] and
    the return if it was false, the return if there is no thread to join,
    clearing the flag, and the uses of the mutex, the condition variable and the
    thread of a number. *)
Inductive Instr :=
  | IExchange
  | IGuard (i : nat)
  | IClear
  | ILock (i : nat)
  | IUnlock (i : nat)
  | INotify (i : nat)
  | IJoin (i : nat).

#[export] Instance Instr_eq_dec : EqDecision Instr.
Proof. solve_decision. Defined.

Record Service := mkService {
  sv_running : bool;
  sv_workers : list Worker;
  sv_done : list Instr;
  sv_todo : list Instr
}.

Definition set_worker (i : nat) (w : Worker) (s : Service) : Service :=
  mkService (sv_running s) (<[i := w]> (sv_workers s)) (sv_done s) (sv_todo s).

(** The stopping thread has executed the instruction [x]. *)
Definition executed (running : bool) (ws : list Worker) (x : Instr) (rest : list Instr) (s : Service) : Service :=
  mkService running ws (sv_done s ++ [x]) rest.

Definition wake (w : Worker) : Worker := if decide (wk_pc w = PAsleep) then set_wk_pc PWoken w else w.

Definition stop_step (s : Service) : option Service :=
  match sv_todo s with
  | [] => None
  | IExchange as x :: rest =>
      Some (if sv_running s then executed false (sv_workers s) x rest s
            else mkService false (sv_workers s) [] [])
  | IGuard i as x :: rest =>
      w ← sv_workers s !! i;
      Some (if wk_joinable w then executed (sv_running s) (sv_workers s) x rest s
            else mkService (sv_running s) (sv_workers s) [] [])
  | IClear as x :: rest => Some (executed false (sv_workers s) x rest s)
  | ILock i as x :: rest =>
      w ← sv_workers s !! i;
      w' ← acquire OStopper (wk_pc w) w;
      Some (executed (sv_running s) (<[i := w']> (sv_workers s)) x rest s)
  | IUnlock i as x :: rest =>
      w ← sv_workers s !! i;
      Some (executed (sv_running s) (<[i := set_owner None w]> (sv_workers s)) x rest s)
  | INotify i as x :: rest =>
      w ← sv_workers s !! i;
      Some (executed (sv_running s) (<[i := wake w]> (sv_workers s)) x rest s)
  | IJoin i as x :: rest =>
      w ← sv_workers s !! i;
      if negb (wk_joinable w) then Some (executed (sv_running s) (sv_workers s) x rest s)
      else if decide (wk_pc w = PDone) then
        Some (executed (sv_running s)
          (<[i := mkWorker (wk_loop w) (wk_pc w) false (wk_owner w) (wk_requested w)]> (sv_workers s)) x rest s)
      else None
  end.

(** [start]: a new thread runs its loop from the beginning. *)
Definition spawn (w : Worker) : Worker :=
  mkWorker (wk_loop w) (match wk_loop w with LHeld => PLock | _ => PTest end) true (wk_owner w) (wk_requested w).

Definition service_start (s : Service) : Service :=
  if sv_running s then s else mkService true (spawn <$> sv_workers s) [] [].

Inductive ServiceEv :=
  | EWorker (i : nat)
  | EStop
  | ETimeout (i : nat)
  | ESpurious (i : nat)
  | EOtherLock (i : nat)
  | EOtherUnlock (i : nat)
  | ERequest (i : nat)
  | ENotify (i : nat)
  | ECallStart
  | ECallStop.

Definition service_step (prog : list Instr) (e : ServiceEv) (s : Service) : option Service :=
  match e with
  | EWorker i => w ← sv_workers s !! i; w' ← worker_step (sv_running s) w; Some (set_worker i w' s)
  | EStop => stop_step s
  | ETimeout i =>
      w ← sv_workers s !! i;
      if decide (wk_pc w = PAsleep /\ wk_loop w <> LRequest) then Some (set_worker i (set_wk_pc PTimedOut w) s) else None
  | ESpurious i =>
      w ← sv_workers s !! i;
      if decide (wk_pc w = PAsleep) then Some (set_worker i (set_wk_pc PWoken w) s) else None
  | EOtherLock i => w ← sv_workers s !! i; w' ← acquire OOther (wk_pc w) w; Some (set_worker i w' s)
  | EOtherUnlock i =>
      w ← sv_workers s !! i;
      if decide (wk_owner w = Some OOther) then Some (set_worker i (set_owner None w) s) else None
  | ERequest i =>
      w ← sv_workers s !! i;
      if decide (wk_owner w = Some OOther)
      then Some (set_worker i (mkWorker (wk_loop w) (wk_pc w) (wk_joinable w) (wk_owner w) true) s) else None
  | ENotify i => w ← sv_workers s !! i; Some (set_worker i (wake w) s)
  | ECallStart => match sv_todo s with [] => Some (service_start s) | _ => None end
  | ECallStop => match sv_todo s with [] => Some (mkService (sv_running s) (sv_workers s) [] prog) | _ => None end
  end.

Fixpoint service_run (prog : list Instr) (evs : list ServiceEv) (s : Service) : option Service :=
  match evs with
  | [] => Some s
  | e :: rest => s' ← service_step prog e s; service_run prog rest s'
  end.

(** ** The services of the program *)

Inductive Component := CTtlManager | CHealthChecker | CCluster | CSnapshots.

Definition TTLManager_loops : list Loop := [LWaitFirst].
Definition TTLManager_stop : list Instr := [IExchange; ILock 0; IUnlock 0; INotify 0; IJoin 0].

Definition HealthChecker_loops : list Loop := [LWaitFirst].
Definition HealthChecker_stop : list Instr := [IExchange; ILock 0; IUnlock 0; INotify 0; IJoin 0].

Definition hint_loop : Loop := LWaitFirst.
Definition gossip_loop : Loop := LWorkFirst.
Definition rebalance_loop : Loop := LRequest.
Definition Cluster_loops : list Loop := [hint_loop; gossip_loop; rebalance_loop].
Definition Cluster_stop : list Instr :=
  [IExchange; ILock 0; IUnlock 0; ILock 1; IUnlock 1; ILock 2; IUnlock 2;
   INotify 0; INotify 1; INotify 2; IJoin 0; IJoin 1; IJoin 2].

Definition snapshot_loops : list Loop := [LHeld].
Definition stop_snapshots : list Instr := [IGuard 0; ILock 0; IClear; IUnlock 0; INotify 0; IJoin 0].

Definition loops_of (svc : Component) : list Loop :=
  match svc with
  | CTtlManager => TTLManager_loops
  | CHealthChecker => HealthChecker_loops
  | CCluster => Cluster_loops
  | CSnapshots => snapshot_loops
  end.

Definition stop_of (svc : Component) : list Instr :=
  match svc with
  | CTtlManager => TTLManager_stop
  | CHealthChecker => HealthChecker_stop
  | CCluster => Cluster_stop
  | CSnapshots => stop_snapshots
  end.

(** Nothing started yet. *)
Definition fresh_service (svc : Component) : Service :=
  mkService false ((fun l => mkWorker l PDone false None false) <$> loops_of svc) [] [].

(** ** What a stopping program must do *)

(** What has happened to the mutex and condition variable of a number: the flag
    is cleared, the mutex is held, it has been held since the flag was cleared,
    and the condition variable has been notified since then. *)
Record Scan := mkScan { sc_cleared : bool; sc_held : bool; sc_synced : bool; sc_notified : bool }.

Definition scan_step (i : nat) (a : Scan) (x : Instr) : Scan :=
  match x with
  | IExchange | IClear => mkScan true (sc_held a) (sc_synced a || sc_held a) (sc_notified a)
  | ILock j => if Nat.eqb j i then mkScan (sc_cleared a) true (sc_synced a || sc_cleared a) (sc_notified a) else a
  | IUnlock j => if Nat.eqb j i then mkScan (sc_cleared a) false (sc_synced a) (sc_notified a) else a
  | INotify j => if Nat.eqb j i then mkScan (sc_cleared a) (sc_held a) (sc_synced a) (sc_notified a || sc_synced a) else a
  | _ => a
  end.

Definition scan (i : nat) (l : list Instr) : Scan := foldl (scan_step i) (mkScan false false false false) l.

Definition instr_ok (n : nat) (pre : list Instr) (x : Instr) : bool :=
  match x with
  | IExchange => bool_decide (pre = [])
  | IGuard i => bool_decide (pre = []) && (i <? n)
  | IClear => negb (bool_decide (pre = []))
  | ILock i => negb (bool_decide (pre = [])) && (i <? n) && negb (sc_held (scan i pre))
  | IUnlock i => (i <? n) && sc_held (scan i pre)
  | INotify i => negb (bool_decide (pre = [])) && (i <? n)
  | IJoin i => (i <? n) && sc_notified (scan i pre) && forallb (fun j => negb (sc_held (scan j pre))) (seq 0 n)
  end.

Fixpoint instrs_ok (n : nat) (pre l : list Instr) : bool :=
  match l with
  | [] => true
  | x :: l' => instr_ok n pre x && instrs_ok n (pre ++ [x]) l'
  end.

(** Each thread is notified with the flag cleared and its mutex taken once
    since, and only then joined, with no mutex held. *)
Definition stop_ok (n : nat) (prog : list Instr) : bool :=
  instrs_ok n [] prog && negb (bool_decide (prog = [])) && sc_cleared (scan 0 prog) &&
  forallb (fun i => bool_decide (IJoin i ∈ prog) && negb (sc_held (scan i prog))) (seq 0 n).

Lemma stop_of_ok svc : stop_ok (length (loops_of svc)) (stop_of svc) = true.
Proof. by destruct svc; vm_compute. Qed.

Lemma instrs_ok_at n pre l1 x l2 : instrs_ok n pre (l1 ++ x :: l2) = true -> instr_ok n (pre ++ l1) x = true.
Proof.
  revert pre. induction l1 as [|y l1 IH]; intros pre; cbn; rewrite andb_true_iff.
  - rewrite app_nil_r. by intros [H _].
  - intros [_ H]. apply IH in H. by rewrite <-app_assoc in H.
Qed.

Lemma scan_snoc i l x : scan i (l ++ [x]) = scan_step i (scan i l) x.
Proof. unfold scan. by rewrite foldl_app. Qed.

Lemma scan_facts i l :
  (sc_notified (scan i l) = true -> sc_synced (scan i l) = true) /\ (sc_synced (scan i l) = true -> sc_cleared (scan i l) = true).
Proof.
  induction l as [|x l [IH1 IH2]] using rev_ind; [done|]. rewrite scan_snoc.
  destruct x; cbn; try case_match; cbn; rewrite ?orb_true_iff; naive_solver.
Qed.

Lemma scan_cleared i j l : sc_cleared (scan i l) = sc_cleared (scan j l).
Proof. induction l as [|x l IH] using rev_ind; [done|]. rewrite !scan_snoc. destruct x; cbn; repeat case_match; cbn; done. Qed.

(** ** The invariant *)

Definition holds_pc (pc : Pc) : bool := match pc with PPred | PBlock | PWaited => true | _ => false end.

(** A thread while no [stop] is under way. *)
Definition flag_seen (running : bool) (w : Worker) : Prop :=
  wk_owner w <> Some OStopper /\ wk_joinable w = running /\ (running = false -> wk_pc w = PDone).

(** And while one is, which has executed [done]. *)
Record stopping (done : list Instr) (i : nat) (w : Worker) : Prop := {
  st_owner : wk_owner w = Some OStopper <-> sc_held (scan i done) = true;
  st_joinable : wk_joinable w = negb (bool_decide (IJoin i ∈ done));
  st_joined : IJoin i ∈ done -> wk_pc w = PDone;
  st_block : wk_pc w = PBlock -> sc_synced (scan i done) = false;
  st_asleep : wk_pc w = PAsleep -> sc_notified (scan i done) = false
}.

Section protocol.
Variables (n : nat) (prog : list Instr).
Hypothesis prog_ok : stop_ok n prog = true.

Definition in_stop (s : Service) : Prop := sv_todo s <> [] /\ sv_done s <> [].

Record service_inv (s : Service) : Prop := {
  si_length : length (sv_workers s) = n;
  si_mutex : forall i w, sv_workers s !! i = Some w -> holds_pc (wk_pc w) = true <-> wk_owner w = Some OWorker;
  si_prog : sv_todo s <> [] -> sv_done s ++ sv_todo s = prog;
  si_settled : ~ in_stop s -> forall i w, sv_workers s !! i = Some w -> flag_seen (sv_running s) w;
  si_running : in_stop s -> sv_running s = negb (sc_cleared (scan 0 (sv_done s)));
  si_stopping : in_stop s -> forall i w, sv_workers s !! i = Some w -> stopping (sv_done s) i w
}.

(** A step of one thread. *)
Lemma worker_step_mutex running w w' :
  (holds_pc (wk_pc w) = true <-> wk_owner w = Some OWorker) -> worker_step running w = Some w' ->
  (holds_pc (wk_pc w') = true <-> wk_owner w' = Some OWorker) /\ wk_joinable w' = wk_joinable w /\
  (wk_owner w' = Some OStopper <-> wk_owner w = Some OStopper) /\ wk_pc w <> PDone /\
  (wk_pc w' = PBlock -> running = true) /\ (wk_pc w' = PAsleep -> wk_pc w = PBlock).
Proof.
  unfold worker_step, acquire, release. destruct w as [l pc j o r]. cbn. intros Hm E.
  destruct o as [[]|], pc; cbn in *; try done; repeat case_match; simplify_eq/=; split_and!; try done; try (intuition congruence).
  intros _. revert H. unfold wait_over. by destruct l, running, r.
Qed.

Lemma set_worker_inv s i w w' :
  service_inv s -> sv_workers s !! i = Some w ->
  (holds_pc (wk_pc w') = true <-> wk_owner w' = Some OWorker) ->
  (flag_seen (sv_running s) w -> flag_seen (sv_running s) w') ->
  (in_stop s -> stopping (sv_done s) i w -> stopping (sv_done s) i w') ->
  service_inv (set_worker i w' s).
Proof.
  intros [Hl Hm Hp Hd Hr Ht] Hi H1 H2 H3. constructor; cbn; [by rewrite length_insert| |done| |done|].
  - intros j v. rewrite list_lookup_insert_Some. intros [(<- & <- & _)|[_ Hj]]; [done|by eapply Hm].
  - intros Hs j v. rewrite list_lookup_insert_Some. intros [(<- & <- & _)|[_ Hj]]; [|by eapply Hd]. apply H2. by eapply Hd.
  - intros Hs j v. rewrite list_lookup_insert_Some. intros [(<- & <- & _)|[_ Hj]]; [|by eapply Ht]. apply H3; [done|]. by eapply Ht.
Qed.

(** A step that is none of the stopping thread keeps what it relies on. *)
Lemma stopping_keeps done i w w' :
  stopping done i w -> wk_joinable w' = wk_joinable w ->
  (wk_owner w' = Some OStopper <-> wk_owner w = Some OStopper) ->
  (wk_pc w = PDone -> wk_pc w' = PDone) ->
  (wk_pc w' = PBlock -> wk_pc w = PBlock \/ sc_cleared (scan 0 done) = false) ->
  (wk_pc w' = PAsleep -> wk_pc w = PAsleep \/ wk_pc w = PBlock) -> stopping done i w'.
Proof.
  intros [S1 S2 S3 S4 S5] Hj Ho Hd Hb Ha. destruct (scan_facts i done) as [F1 F2]. constructor.
  - by rewrite Ho.
  - by rewrite Hj.
  - auto.
  - intros E. destruct (Hb E) as [?|Hc]; [auto|]. rewrite (scan_cleared 0 i) in Hc. destruct (sc_synced _); [|done]. by rewrite F2 in Hc.
  - intros E. destruct (Ha E) as [?|Hc]; [auto|]. apply S4 in Hc. destruct (sc_notified _); [|done]. by rewrite F1 in Hc.
Qed.

Lemma other_step_inv s e s' :
  service_inv s -> e <> EStop -> e <> ECallStart -> e <> ECallStop -> service_step prog e s = Some s' -> service_inv s'.
Proof.
  intros I N1 N2 N3 E. destruct e as [i| |i|i|i|i|i|i| |]; try done; cbn in E;
    destruct (sv_workers s !! i) as [w|] eqn:Hi; try done; cbn in E; pose proof (si_mutex s I i w Hi) as Hm.
  - destruct (worker_step (sv_running s) w) as [w'|] eqn:Hw; [|done]. injection E as <-.
    destruct (worker_step_mutex _ _ _ Hm Hw) as (M1 & M2 & M3 & M4 & M5 & M6). eapply set_worker_inv; [done..| |].
    + intros (S1 & S2 & S3). split; [tauto|]. split; [congruence|]. intros Hr. by apply S3 in Hr.
    + intros Hs S. eapply stopping_keeps; [done|done|done|done| |auto]. intros Eb. right. apply M5 in Eb.
      rewrite (si_running s I Hs) in Eb. by apply negb_true_iff.
  - case_decide as Hd; [|done]. injection E as <-. destruct Hd as [Hd _]. rewrite Hd in Hm. eapply set_worker_inv; [done..| |].
    + intros (S1 & S2 & S3). split; [done|]. split; [done|]. intros Hr. apply S3 in Hr. congruence.
    + intros Hs S. eapply stopping_keeps; cbn; try done. congruence.
  - case_decide as Hd; [|done]. injection E as <-. rewrite Hd in Hm. eapply set_worker_inv; [done..| |].
    + intros (S1 & S2 & S3). split; [done|]. split; [done|]. intros Hr. apply S3 in Hr. congruence.
    + intros Hs S. eapply stopping_keeps; cbn; try done. congruence.
  - unfold acquire in E. destruct (wk_owner w) eqn:Ho; [done|]. injection E as <-. eapply set_worker_inv; [done|done| | |]; cbn.
    + split; [rewrite Hm; done|done].
    + intros (S1 & S2 & S3). done.
    + intros Hs S. eapply stopping_keeps; cbn; try done; [by rewrite Ho|auto|auto].
  - case_decide as Hd; [|done]. injection E as <-. eapply set_worker_inv; [done|done| | |]; cbn.
    + split; [rewrite Hm; congruence|done].
    + intros (S1 & S2 & S3). done.
    + intros Hs S. eapply stopping_keeps; cbn; try done; [by rewrite Hd|auto|auto].
  - case_decide as Hd; [|done]. injection E as <-. eapply set_worker_inv; [done|done|done| |]; cbn.
    + intros (S1 & S2 & S3). done.
    + intros Hs S. eapply stopping_keeps; cbn; try done; auto.
  - injection E as <-. unfold wake. case_decide as Hd; [|eapply set_worker_inv; done]. rewrite Hd in Hm. eapply set_worker_inv; [done..| |].
    + intros (S1 & S2 & S3). split; [done|]. split; [done|]. intros Hr. apply S3 in Hr. congruence.
    + intros Hs S. eapply stopping_keeps; cbn; try done. congruence.
Qed.

(** An instruction leads to a state that fits the instructions executed. *)
Lemma executed_inv s x rest running ws :
  service_inv s -> sv_todo s = x :: rest -> length ws = n ->
  running = negb (sc_cleared (scan 0 (sv_done s ++ [x]))) ->
  (forall i w, ws !! i = Some w ->
     (holds_pc (wk_pc w) = true <-> wk_owner w = Some OWorker) /\ stopping (sv_done s ++ [x]) i w) ->
  service_inv (executed running ws x rest s).
Proof.
  intros I Et Hl Hr Hw.
  assert (Hp : (sv_done s ++ [x]) ++ rest = prog) by (rewrite <-app_assoc; cbn; rewrite <-Et; apply (si_prog s I); by rewrite Et).
  constructor; cbn; [done|by intros i w Hi; destruct (Hw i w Hi)|done| |done|by intros _ i w Hi; destruct (Hw i w Hi)].
  intros Hs i w Hi. destruct rest as [|y rest]; [|exfalso; apply Hs; split; cbn; [done|by destruct (sv_done s)]].
  rewrite app_nil_r in Hp. destruct (Hw i w Hi) as [_ [S1 S2 S3 _ _]]. rewrite Hp in *. clear Hs Hw.
  unfold stop_ok in prog_ok. rewrite !andb_true_iff, forallb_forall in prog_ok. destruct prog_ok as [[_ Hc] Hf].
  assert (Hin : i ∈ seq 0 n) by (apply elem_of_seq; apply lookup_lt_Some in Hi; lia).
  apply list_elem_of_In, Hf in Hin. rewrite andb_true_iff, bool_decide_eq_true, negb_true_iff in Hin. destruct Hin as [Hj Hh].
  rewrite Hc in Hr. cbn in Hr. subst running. split; [rewrite S1; congruence|]. rewrite S2, bool_decide_eq_true_2 by done. split; [done|auto].
Qed.

(** An instruction that does not touch a thread. *)
Lemma stopping_snoc done x i w :
  stopping done i w -> scan_step i (scan i done) x = scan i done \/ x = IClear -> (forall j, x = IJoin j -> j <> i) ->
  (x = IClear -> sc_held (scan i done) = true -> wk_pc w <> PBlock) ->
  stopping (done ++ [x]) i w.
Proof.
  intros [S1 S2 S3 S4 S5] Hx Hj Hc.
  assert (Hin : IJoin i ∈ done ++ [x] <-> IJoin i ∈ done).
  { rewrite elem_of_app, list_elem_of_singleton. split; [|by left]. intros [?|E]; [done|]. by destruct (Hj i (eq_sym E)). }
  constructor; rewrite ?scan_snoc.
  - destruct Hx as [->| ->]; done.
  - by rewrite (bool_decide_ext _ _ Hin).
  - by rewrite Hin.
  - intros E. destruct Hx as [->| ->]; [auto|]. cbn. rewrite (S4 E). cbn. destruct (sc_held (scan i done)); [|done]. by destruct Hc.
  - destruct Hx as [->| ->]; auto.
Qed.

Lemma settled_starts w x i : flag_seen true w -> x = IExchange \/ (exists j, x = IGuard j) -> stopping [x] i w.
Proof.
  intros (S1 & S2 & _) Hx. assert (Hin : IJoin i ∉ [x]) by (rewrite list_elem_of_singleton; by destruct Hx as [->|[j ->]]).
  constructor; [..|by destruct Hx as [->|[j ->]]|by destruct Hx as [->|[j ->]]].
  - split; [done|]. by destruct Hx as [->|[j ->]].
  - by rewrite bool_decide_eq_false_2.
  - done.
Qed.

(** [stop] returns at once. *)
Lemma returned_inv s : service_inv s -> ~ in_stop s -> service_inv (mkService (sv_running s) (sv_workers s) [] []).
Proof. intros [Hl Hm Hp Hd Hr Ht] Hs. constructor; cbn; try done; [by intros _; apply Hd|by intros []..]. Qed.

Lemma first_instr_inv s s' :
  service_inv s -> sv_done s = [] -> stop_step s = Some s' -> service_inv s'.
Proof.
  intros I Ed E. assert (Hs : ~ in_stop s) by (intros [_ H]; done). pose proof (si_settled s I Hs) as Hd.
  unfold stop_step in E. destruct (sv_todo s) as [|x rest] eqn:Et; [done|].
  assert (Hx : instr_ok n [] x = true).
  { unfold stop_ok in prog_ok. rewrite !andb_true_iff in prog_ok. destruct prog_ok as [[[Ho _] _] _].
    rewrite <-(si_prog s I), Et, Ed in Ho by (by rewrite Et). by apply (instrs_ok_at n [] []) in Ho. }
  assert (Hgo : sv_running s = true -> x = IExchange \/ (exists j, x = IGuard j) ->
    service_inv (executed (match x with IExchange => false | _ => true end) (sv_workers s) x rest s)).
  { intros Hr Hk. apply executed_inv; [done|done|apply I|by destruct Hk as [->|[j ->]]; rewrite Ed|].
    intros i w Hi. split; [by eapply si_mutex|]. rewrite Ed. apply settled_starts; [|done]. rewrite <-Hr. by eapply Hd. }
  destruct x as [|j| |j|j|j|j]; cbn in Hx; rewrite ?andb_false_r in Hx; try discriminate Hx.
  - destruct (sv_running s) eqn:Hr; injection E as <-; [by apply Hgo; [|left]|]. rewrite <-Hr. by apply returned_inv.
  - destruct (sv_workers s !! j) as [w|] eqn:Hj; [|done]. cbn in E. destruct (Hd j w Hj) as (_ & Hjn & _). rewrite Hjn in E.
    destruct (sv_running s) eqn:Hr; injection E as <-; [by apply Hgo; [|right; eexists]|]. rewrite <-Hr. by apply returned_inv.
Qed.

(** The threads other than the one an instruction names. *)
Lemma scan_step_other i j a x : i <> j -> x = ILock i \/ x = IUnlock i \/ x = INotify i \/ x = IJoin i -> scan_step j a x = a.
Proof. intros H [->|[->|[->| ->]]]; cbn; by rewrite ?(proj2 (Nat.eqb_neq i j) H). Qed.

Lemma named_instr_inv s x i w w' rest :
  service_inv s -> in_stop s -> sv_todo s = x :: rest -> sv_workers s !! i = Some w ->
  x = ILock i \/ x = IUnlock i \/ x = INotify i \/ x = IJoin i ->
  (holds_pc (wk_pc w') = true <-> wk_owner w' = Some OWorker) -> stopping (sv_done s ++ [x]) i w' ->
  service_inv (executed (sv_running s) (<[i := w']> (sv_workers s)) x rest s).
Proof.
  intros I Hs Et Hi Hx Hm Hw'. apply executed_inv; [done|done|rewrite length_insert; apply I| |].
  - rewrite (si_running s I Hs), scan_snoc. destruct Hx as [->|[->|[->| ->]]]; cbn; by try case_match.
  - intros j v. rewrite list_lookup_insert_Some. intros [(<- & <- & _)|[Hij Hj]]; [done|]. split; [by eapply si_mutex|].
    apply stopping_snoc; [by eapply si_stopping|left; by eapply scan_step_other| |].
    + intros k ->. destruct Hx as [?|[?|[?|?]]]; congruence.
    + intros ->. by destruct Hx as [?|[?|[?|?]]].
Qed.

Lemma in_join_snoc done i x : IJoin i ∈ done ++ [x] <-> IJoin i ∈ done \/ x = IJoin i.
Proof. rewrite elem_of_app, list_elem_of_singleton. split; intros [?|?]; auto. Qed.

Lemma wake_holds w : holds_pc (wk_pc (wake w)) = holds_pc (wk_pc w).
Proof. destruct w as [l pc j o r]. by destruct pc. Qed.

Lemma wake_facts w :
  wk_owner (wake w) = wk_owner w /\ wk_joinable (wake w) = wk_joinable w /\ wk_pc (wake w) <> PAsleep /\
  (wk_pc w = PDone -> wk_pc (wake w) = PDone) /\ (wk_pc (wake w) = PBlock -> wk_pc w = PBlock).
Proof. destruct w as [l pc j o r]. by destruct pc. Qed.

Lemma next_instr_inv s s' : service_inv s -> in_stop s -> stop_step s = Some s' -> service_inv s'.
Proof.
  intros I Hs E. unfold stop_step in E. destruct (sv_todo s) as [|x rest] eqn:Et; [done|].
  assert (Hx : instr_ok n (sv_done s) x = true).
  { unfold stop_ok in prog_ok. rewrite !andb_true_iff in prog_ok. destruct prog_ok as [[[Ho _] _] _].
    rewrite <-(si_prog s I), Et in Ho by (by rewrite Et). by apply (instrs_ok_at n [] (sv_done s)) in Ho. }
  assert (Hne : sv_done s <> []) by apply Hs.
  destruct x as [|j| |i|i|i|i]; cbn in Hx; [by rewrite bool_decide_eq_false_2 in Hx|by rewrite bool_decide_eq_false_2 in Hx|..].
  { injection E as <-. apply executed_inv; [done|done|apply I|by rewrite scan_snoc|]. intros i w Hi. pose proof (si_mutex s I i w Hi) as Hm.
    pose proof (si_stopping s I Hs i w Hi) as S. split; [done|]. apply stopping_snoc; [done|by right|done|].
    intros _ Hh Hb. rewrite <-(st_owner _ _ _ S) in Hh. rewrite Hb in Hm. destruct Hm as [Hm _]. specialize (Hm eq_refl). congruence. }
  all: destruct (sv_workers s !! i) as [w|] eqn:Hi; [|done]; cbn in E; pose proof (si_mutex s I i w Hi) as Hm;
    pose proof (si_stopping s I Hs i w Hi) as S; pose proof S as [S1 S2 S3 S4 S5].
  - unfold acquire in E. destruct (wk_owner w) eqn:Ho; [done|]. injection E as <-.
    eapply named_instr_inv; [done..|by left|cbn; rewrite Hm; done|].
    constructor; cbn [wk_owner wk_joinable wk_pc set_owner set_wk_pc]; rewrite ?scan_snoc; cbn; rewrite ?Nat.eqb_refl; cbn; [done|..|done].
    + rewrite S2. f_equal. apply bool_decide_ext. rewrite in_join_snoc. naive_solver.
    + rewrite in_join_snoc. intros [?|?]; [auto|done].
    + intros Hb. rewrite Hb in Hm. by destruct Hm as [Hm _]; specialize (Hm eq_refl).
  - injection E as <-. rewrite andb_true_iff in Hx. destruct Hx as [_ Hh]. apply S1 in Hh.
    eapply named_instr_inv; [done..|by right; left|cbn; rewrite Hm; split; congruence|].
    constructor; cbn [wk_owner wk_joinable wk_pc set_owner]; rewrite ?scan_snoc; cbn; rewrite ?Nat.eqb_refl; cbn; [done|..|done|done].
    + rewrite S2. f_equal. apply bool_decide_ext. rewrite in_join_snoc. naive_solver.
    + rewrite in_join_snoc. intros [?|?]; [auto|done].
  - injection E as <-. eapply named_instr_inv; [done..|by right; right; left| |].
    { rewrite wake_holds. destruct (wake_facts w) as [-> _]. done. }
    destruct (wake_facts w) as (K1 & K2 & K3 & K4 & K5). constructor; rewrite ?scan_snoc; cbn; rewrite ?Nat.eqb_refl, ?K1, ?K2; cbn; [done|..|done].
    + rewrite S2. f_equal. apply bool_decide_ext. rewrite in_join_snoc. naive_solver.
    + rewrite in_join_snoc. intros [?|?]; [auto|done].
    + auto.
  - assert (Hgo : wk_pc w = PDone -> stopping (sv_done s ++ [IJoin i]) i (mkWorker (wk_loop w) (wk_pc w) false (wk_owner w) (wk_requested w))).
    { intros Hd. constructor; cbn [wk_owner wk_joinable wk_pc]; rewrite ?scan_snoc; cbn; [done| |done|congruence|congruence].
      rewrite bool_decide_eq_true_2; [done|]. rewrite in_join_snoc. by right. }
    destruct (wk_joinable w) eqn:Hj; cbn in E.
    + case_decide as Hd; [|done]. injection E as <-. eapply named_instr_inv; [done..|by right; right; right|done|auto].
    + injection E as <-. rewrite <-(list_insert_id (sv_workers s) i w Hi). eapply named_instr_inv; [done..|by right; right; right|done|].
      symmetry in S2. rewrite negb_false_iff, bool_decide_eq_true in S2. specialize (Hgo (S3 S2)). destruct w. cbn in *. by subst.
Qed.

Lemma service_start_inv s : service_inv s -> sv_todo s = [] -> service_inv (service_start s).
Proof.
  intros I Et. unfold service_start. destruct (sv_running s) eqn:Hr; [done|].
  assert (Hs : ~ in_stop s) by (by intros [? _]). destruct I as [Hl Hm _ Hd _ _].
  constructor; cbn; [by rewrite length_fmap| |done| |by intros []|by intros []].
  - intros i w. rewrite list_lookup_fmap, fmap_Some. intros (v & Hv & ->). destruct (Hd Hs i v Hv) as (S1 & S2 & S3).
    specialize (Hm i v Hv). rewrite (S3 Hr) in Hm. cbn. rewrite <-Hm. by destruct (wk_loop v).
  - intros _ i w. rewrite list_lookup_fmap, fmap_Some. intros (v & Hv & ->). by destruct (Hd Hs i v Hv) as (S1 & S2 & S3).
Qed.

Lemma call_stop_inv s : service_inv s -> sv_todo s = [] -> service_inv (mkService (sv_running s) (sv_workers s) [] prog).
Proof.
  intros [Hl Hm _ Hd _ _] Et. assert (Hs : ~ in_stop s) by (by intros [? _]).
  constructor; cbn; [done|done|done| |by intros [_ ?]|by intros [_ ?]]. by intros _; apply Hd.
Qed.

Lemma service_step_inv s e s' : service_inv s -> service_step prog e s = Some s' -> service_inv s'.
Proof.
  intros I E. destruct e; try (refine (other_step_inv s _ s' I _ _ _ E); done).
  - change (stop_step s = Some s') in E. destruct (decide (sv_done s = [])) as [Hd|Hd]; [by eapply first_instr_inv|].
    assert (sv_todo s <> []) by (intros H; unfold stop_step in E; by rewrite H in E). by eapply next_instr_inv.
  - cbn in E. destruct (sv_todo s) eqn:Et; [|done]. injection E as <-. by apply service_start_inv.
  - cbn in E. destruct (sv_todo s) eqn:Et; [|done]. injection E as <-. by apply call_stop_inv.
Qed.

Lemma run_inv evs s s' : service_inv s -> service_run prog evs s = Some s' -> service_inv s'.
Proof.
  revert s. induction evs as [|e evs IH]; cbn; intros s I E; [by simplify_eq|].
  destruct (service_step prog e s) as [s1|] eqn:E1; [|done]. eapply IH; [by eapply service_step_inv|done].
Qed.

(** ** Progress *)

(** A thread that is not asleep runs on, or waits for its mutex. *)
Lemma worker_progress running w :
  wk_pc w <> PAsleep -> wk_pc w <> PDone -> wk_owner w = None \/ wk_owner w = Some OWorker ->
  (holds_pc (wk_pc w) = true <-> wk_owner w = Some OWorker) -> is_Some (worker_step running w).
Proof.
  intros Ha Hd Ho Hm. unfold worker_step, acquire. destruct (wk_pc w); try done; destruct Ho as [->|Ho]; try done; apply Hm in Ho; done.
Qed.

(** While [stop] is under way it can go on, or a thread can that is in its way,
    unless another thread holds a mutex. *)
Lemma stop_progress s :
  service_inv s -> sv_todo s <> [] ->
  (is_Some (stop_step s) \/ (exists i, is_Some (service_step prog (EWorker i) s))) \/
  (exists i w, sv_workers s !! i = Some w /\ wk_owner w = Some OOther).
Proof.
  intros I Ht. destruct (sv_todo s) as [|x rest] eqn:Et; [done|].
  assert (Hx : instr_ok n (sv_done s) x = true).
  { unfold stop_ok in prog_ok. rewrite !andb_true_iff in prog_ok. destruct prog_ok as [[[Ho _] _] _].
    rewrite <-(si_prog s I), Et in Ho by (by rewrite Et). by apply (instrs_ok_at n [] (sv_done s)) in Ho. }
  assert (Hin : forall i, (i <? n) = true -> exists w, sv_workers s !! i = Some w).
  { intros i Hi. apply Nat.ltb_lt in Hi. apply lookup_lt_is_Some_2. rewrite (si_length s I). done. }
  assert (Hw : forall i w, sv_workers s !! i = Some w -> wk_pc w <> PAsleep -> wk_pc w <> PDone -> wk_owner w <> Some OStopper ->
    (exists i, is_Some (service_step prog (EWorker i) s)) \/ (exists i w, sv_workers s !! i = Some w /\ wk_owner w = Some OOther)).
  { intros i w Hi Ha Hd Ho. destruct (wk_owner w) as [[]|] eqn:E; [|done|by right; eauto|]; left; exists i; cbn; rewrite Hi; cbn;
      (destruct (worker_progress (sv_running s) w) as [w' ->]; [done|done|rewrite E; auto|by eapply si_mutex|by eexists]). }
  unfold stop_step. rewrite Et. destruct x as [|i| |i|i|i|i]; cbn in Hx; rewrite ?andb_true_iff in Hx.
  - left; left. by eexists.
  - destruct Hx as [_ Hi]. destruct (Hin i Hi) as [w ->]. left; left. by eexists.
  - left; left. by eexists.
  - destruct Hx as [[Hne Hi] Hh]. destruct (Hin i Hi) as [w Hw']. rewrite Hw'. cbn. unfold acquire.
    destruct (wk_owner w) as [o|] eqn:Ho; [|left; left; by eexists].
    rewrite negb_true_iff, bool_decide_eq_false in Hne. pose proof (si_stopping s I) as S. destruct (S ltac:(by split; rewrite ?Et)) with i w as [S1 _ _ _ _]; [done|].
    assert (Hns : wk_owner w <> Some OStopper) by (rewrite S1; by apply negb_true_iff in Hh; congruence).
    destruct o; [|done|right; eauto]. pose proof (si_mutex s I i w Hw') as Hm. rewrite Ho in Hm. destruct Hm as [_ Hm]. specialize (Hm eq_refl).
    destruct (Hw i w Hw') as [?|?]; [by destruct (wk_pc w)|by destruct (wk_pc w)|done|auto|auto].
  - destruct Hx as [Hi _]. destruct (Hin i Hi) as [w ->]. left; left. by eexists.
  - destruct Hx as [_ Hi]. destruct (Hin i Hi) as [w ->]. left; left. by eexists.
  - destruct Hx as [[Hi Hn] Hh]. destruct (Hin i Hi) as [w Hw']. rewrite Hw'. cbn. destruct (wk_joinable w) eqn:Hj; [|left; left; by eexists].
    cbn. destruct (decide (wk_pc w = PDone)) as [Hd|Hd]; [left; left; by eexists|].
    assert (Hs : in_stop s) by (split; [by rewrite Et|]; intros E; by rewrite E in Hn).
    destruct (si_stopping s I Hs i w Hw') as [S1 _ _ _ S5].
    rewrite forallb_forall in Hh. assert (Hin' : i ∈ seq 0 n) by (apply Nat.ltb_lt in Hi; apply elem_of_seq; lia).
    apply list_elem_of_In, Hh, negb_true_iff in Hin'.
    destruct (Hw i w Hw') as [?|?]; [intros E; apply S5 in E; congruence|done|rewrite S1; congruence|auto|auto].
Qed.

End protocol.

(** ** The time a stop takes *)

(** At most how many steps a thread still makes once the flag is cleared. *)
Definition rank (w : Worker) : nat :=
  match wk_pc w with
  | PDone => 0
  | PTest | PCheck => 1
  | PWaited => 2
  | PPred => 3
  | PLock | PWoken | PTimedOut => 4
  | PAsleep => 5
  | PBlock => 6
  | PWork => 7
  end.

#[local] Arguments rank _ : simpl never.

Definition steps_left (s : Service) : nat := sum_list_with rank (sv_workers s) + length (sv_todo s).

(** Steps of the service's own threads, and calls from outside. *)
Definition own_step (e : ServiceEv) : bool := match e with EWorker _ | EStop | ETimeout _ | ESpurious _ => true | _ => false end.
Definition is_call (e : ServiceEv) : bool := match e with ECallStart | ECallStop => true | _ => false end.

Lemma sum_insert (l : list Worker) i w w' :
  l !! i = Some w -> sum_list_with rank (<[i := w']> l) + rank w = sum_list_with rank l + rank w'.
Proof.
  revert i. induction l as [|v l IH]; intros [|i] E; [done|done|cbn in *; simplify_eq; lia|].
  specialize (IH i E). change (<[S i := w']> (v :: l)) with (v :: <[i := w']> l). cbn [sum_list_with]. lia.
Qed.

Lemma worker_step_rank w w' : worker_step false w = Some w' -> rank w' + 1 <= rank w.
Proof.
  unfold worker_step, acquire, rank, wait_over. destruct w as [l pc j o r]. cbn. rewrite ?orb_true_r.
  destruct pc; cbn; try done; destruct o, l; cbn; rewrite ?orb_true_r; intros; simplify_eq/=; lia.
Qed.

Lemma wake_rank w : rank (wake w) <= rank w.
Proof. apply Nat.leb_le. by destruct w as [? [] ? ? ?]. Qed.

Lemma stop_step_left s s' : stop_step s = Some s' -> sv_running s = false -> sv_running s' = false /\ steps_left s' + 1 <= steps_left s.
Proof.
  unfold stop_step, steps_left. intros E Hr. destruct (sv_todo s) as [|x rest]; [done|].
  assert (Hk : forall i w w', sv_workers s !! i = Some w -> rank w' <= rank w ->
    sum_list_with rank (<[i := w']> (sv_workers s)) <= sum_list_with rank (sv_workers s))
    by (intros i w w' Hi; pose proof (sum_insert _ i w w' Hi); lia).
  destruct x as [|i| |i|i|i|i]; [rewrite Hr in E; simplify_eq; cbn; split; [done|lia]| |simplify_eq; cbn; split; [done|lia]|..];
    destruct (sv_workers s !! i) as [w|] eqn:Hi; try done; cbn in E.
  - case_match; simplify_eq; cbn; split; done || lia.
  - unfold acquire in E. destruct (wk_owner w); [done|]. cbn in E. simplify_eq. cbn. split; [done|].
    pose proof (Hk i w (set_owner (Some OStopper) (set_wk_pc (wk_pc w) w)) Hi (le_n _)). lia.
  - simplify_eq. cbn. split; [done|]. pose proof (Hk i w (set_owner None w) Hi (le_n _)). lia.
  - simplify_eq. cbn. split; [done|]. pose proof (Hk i w (wake w) Hi (wake_rank w)). lia.
  - destruct (negb (wk_joinable w)); [simplify_eq; cbn; split; [done|lia]|]. case_decide; [|done]. simplify_eq. cbn. split; [done|].
    pose proof (Hk i w (mkWorker (wk_loop w) (wk_pc w) false (wk_owner w) (wk_requested w)) Hi (le_n _)). lia.
Qed.

Lemma step_left prog s e s' :
  service_step prog e s = Some s' -> is_call e = false -> sv_running s = false ->
  sv_running s' = false /\ steps_left s' + (if own_step e then 1 else 0) <= steps_left s.
Proof.
  intros E Hc Hr. destruct e as [i| |i|i|i|i|i|i| |]; try done; [| by apply stop_step_left|..];
    cbn in E; destruct (sv_workers s !! i) as [w|] eqn:Hi; try done; cbn in E; rewrite ?Hr in E.
  - destruct (worker_step false w) as [w'|] eqn:Hw; [|done]. injection E as <-. split; [exact Hr|]. apply worker_step_rank in Hw.
    unfold steps_left. cbn. pose proof (sum_insert _ i w w' Hi). lia.
  - case_decide as Hd; [|done]. injection E as <-. split; [exact Hr|]. unfold steps_left. cbn. destruct Hd as [Hd _].
    pose proof (sum_insert _ i w (set_wk_pc PTimedOut w) Hi) as H. unfold rank at 2 4 in H. rewrite Hd in H. cbn in H. lia.
  - case_decide as Hd; [|done]. injection E as <-. split; [exact Hr|]. unfold steps_left. cbn.
    pose proof (sum_insert _ i w (set_wk_pc PWoken w) Hi) as H. unfold rank at 2 4 in H. rewrite Hd in H. cbn in H. lia.
  - unfold acquire in E. destruct (wk_owner w); [done|]. injection E as <-. split; [exact Hr|]. unfold steps_left. cbn.
    pose proof (sum_insert _ i w (set_owner (Some OOther) (set_wk_pc (wk_pc w) w)) Hi) as H. unfold rank at 2 4 in H. cbn in H. lia.
  - case_decide as Hd; [|done]. injection E as <-. split; [exact Hr|]. unfold steps_left. cbn.
    pose proof (sum_insert _ i w (set_owner None w) Hi) as H. unfold rank at 2 4 in H. cbn in H. lia.
  - case_decide as Hd; [|done]. injection E as <-. split; [exact Hr|]. unfold steps_left. cbn.
    pose proof (sum_insert _ i w (mkWorker (wk_loop w) (wk_pc w) (wk_joinable w) (wk_owner w) true) Hi) as H.
    unfold rank at 2 4 in H. cbn in H. lia.
  - injection E as <-. split; [exact Hr|]. unfold steps_left. cbn. pose proof (sum_insert _ i w (wake w) Hi) as H. pose proof (wake_rank w). lia.
Qed.

Lemma run_left prog evs s s' :
  service_run prog evs s = Some s' -> forallb (fun e => negb (is_call e)) evs = true -> sv_running s = false ->
  sv_running s' = false /\ steps_left s' + length (List.filter own_step evs) <= steps_left s.
Proof.
  revert s. induction evs as [|e evs IH]; cbn; intros s E Hc Hr; [simplify_eq; split; [done|lia]|].
  rewrite andb_true_iff, negb_true_iff in Hc. destruct Hc as [Hc Hcs]. destruct (service_step prog e s) as [s1|] eqn:E1; [|done].
  destruct (step_left _ _ _ _ E1 Hc Hr) as [Hr1 L1]. destruct (IH s1 E Hcs Hr1) as [Hr' L']. split; [done|].
  destruct (own_step e); cbn; lia.
Qed.

Lemma rank_sum l : sum_list_with rank l <= 7 * length l.
Proof. induction l as [|w l IH]; cbn [sum_list_with length]; [lia|]. assert (rank w <= 7) by (unfold rank; destruct (wk_pc w); lia). lia. Qed.

Lemma fresh_inv svc : service_inv (length (loops_of svc)) (stop_of svc) (fresh_service svc).
Proof.
  constructor; cbn; [by rewrite length_fmap|..|by intros [? _]|by intros [? _]]; [..|done|]; intros; [|]; try intros ?;
    match goal with H : _ !! _ = Some _ |- _ => rewrite list_lookup_fmap, fmap_Some in H; destruct H as (l & _ & ->) end; done.
Qed.

(** C28: Stopping a background service works, for the TTL manager, the health
    checker, the cluster's three loops and the snapshot thread, however the
    threads interleave, waits end early and other threads use the mutexes.  Once
    the flag is cleared the service's threads make a bounded number of steps.
    Until [stop] returns it can go on, or a thread it waits for can, without
    waiting for a timeout, unless another thread holds a mutex; and when it has
    returned every thread has ended and been joined, so the next [start] finds
    no thread. *)
Theorem workers_stop svc before s after s' :
  service_run (stop_of svc) before (fresh_service svc) = Some s -> sv_running s = false ->
  service_run (stop_of svc) after s = Some s' -> forallb (fun e => negb (is_call e)) after = true ->
  length (List.filter own_step after) <= 7 * length (loops_of svc) + length (stop_of svc) /\
  (sv_todo s' <> [] ->
     (is_Some (stop_step s') \/ (exists i, is_Some (service_step (stop_of svc) (EWorker i) s'))) \/
     (exists i w, sv_workers s' !! i = Some w /\ wk_owner w = Some OOther)) /\
  (sv_todo s' = [] -> Forall (fun w => wk_pc w = PDone /\ wk_joinable w = false /\ wk_owner w <> Some OStopper) (sv_workers s')).
Proof.
  intros E1 Hr E2 Hc. pose proof (stop_of_ok svc) as Hok.
  pose proof (run_inv _ _ Hok _ _ _ (fresh_inv svc) E1) as I. pose proof (run_inv _ _ Hok _ _ _ I E2) as I'.
  destruct (run_left _ _ _ _ E2 Hc Hr) as [Hr' Hl]. split_and!.
  - pose proof (rank_sum (sv_workers s)) as Hs. rewrite (si_length _ _ _ I) in Hs. unfold steps_left in Hl.
    assert (length (sv_todo s) <= length (stop_of svc)); [|lia].
    destruct (decide (sv_todo s = [])) as [->|Ht]; [cbn; lia|]. rewrite <-(si_prog _ _ _ I Ht), length_app. lia.
  - by apply (stop_progress _ _ Hok).
  - intros Ht. apply Forall_lookup. intros i w Hi. destruct (si_settled _ _ _ I') with i w as (S1 & S2 & S3); [by intros [? _]|done|].
    rewrite Hr' in *. auto.
Qed.

(** The rebalancing thread decides to sleep, [stop] clears the flag, and the
    thread falls asleep before it is notified. *)
Definition sample_before : list ServiceEv :=
  [ECallStart; EWorker 2; EWorker 2; EWorker 2; ECallStop; EStop].
Definition sample_after : list ServiceEv :=
  [EStop; EStop; EStop; EStop; EWorker 2; EStop; EStop; EStop; EStop; EStop;
   EWorker 0; EStop; EWorker 1; EStop; EWorker 2; EWorker 2; EWorker 2; EStop].

Lemma workers_stop_witness :
  exists s s', service_run Cluster_stop sample_before (fresh_service CCluster) = Some s /\ sv_todo s <> [] /\
    service_run Cluster_stop sample_after s = Some s' /\ sv_todo s' = [] /\
    length (List.filter own_step sample_after) <= 7 * 3 + 13 /\
    Forall (fun w => wk_pc w = PDone /\ wk_joinable w = false /\ wk_owner w <> Some OStopper) (sv_workers s').
Proof.
  destruct (service_run Cluster_stop sample_before (fresh_service CCluster)) as [s|] eqn:E1; [|vm_compute in E1; discriminate E1].
  exists s. assert (Hs : (sv_running s, bool_decide (sv_todo s = [])) = (false, false))
    by (apply (inj Some); change (Some (sv_running s, bool_decide (sv_todo s = []))) with ((fun s => (sv_running s, bool_decide (sv_todo s = []))) <$> Some s);
        rewrite <-E1; vm_compute; reflexivity).
  injection Hs as Hr Ht. apply bool_decide_eq_false in Ht.
  destruct (service_run Cluster_stop sample_after s) as [s'|] eqn:E2.
  2: { exfalso. assert (H : (service_run Cluster_stop sample_before (fresh_service CCluster) ≫= service_run Cluster_stop sample_after) = None)
         by (rewrite E1; exact E2). vm_compute in H. discriminate H. }
  exists s'. destruct (workers_stop CCluster sample_before s sample_after s' E1 Hr E2 eq_refl) as (B & _ & F).
  assert (Ht' : sv_todo s' = []).
  { assert (H : sv_todo <$> (service_run Cluster_stop sample_before (fresh_service CCluster) ≫= service_run Cluster_stop sample_after) = Some [])
      by (vm_compute; reflexivity). rewrite E1 in H. cbn [mbind option_bind] in H. rewrite E2 in H. by injection H. }
  split_and!; [reflexivity|exact Ht|reflexivity|exact Ht'|exact B|exact (F Ht')].
Defined.
