(* ===== verification/Membership.v ===== *)
(** * Gossip membership and routing

    Models the membership half of src/cluster.cpp: the gossiped member table,
    the ring and node tables kept in step with it, the published routing table,
    and the per-thread routing cache.  Everything here runs under
    [membership_mutex_], so each definition is one critical section. *)

From S2P Require Import Prelude Numerals ConsistentHash RoutingTable HealthChecker.

Local Open Scope Z_scope.

Inductive MemberStatus := Alive | Left.

#[export] Instance MemberStatus_eq_dec : EqDecision MemberStatus.
Proof. solve_decision. Defined.

(** [struct MemberInfo]. *)
Record MemberInfo := mkMI { mi_node : CacheNode; mi_generation : Z; mi_status : MemberStatus }.

#[export] Instance MemberInfo_eq_dec : EqDecision MemberInfo.
Proof. solve_decision. Defined.

(** The membership fields of [class Cluster]. *)
Record Membership := mkMembership {
  local_node_ : CacheNode;
  replication_factor : nat;
  mb_ring_ : Ring;
  nodes_ : gmap bytes CacheNode;
  node_health_ : gmap bytes bool;
  members_ : gmap bytes MemberInfo;
  routing_ : RoutingTable;
  health_checker_ : HealthChecker;
  rebalance_requested_ : bool;
  seeds_ : list (bytes * Z)
}.

Definition local_id (s : Membership) : bytes := cn_id (local_node_ s).

(** [publish_routing_locked]: a new table for the current ring. *)
Definition publish_routing_locked (s : Membership) : Membership :=
  mkMembership (local_node_ s) (replication_factor s) (mb_ring_ s) (nodes_ s) (node_health_ s)
    (members_ s) (RoutingTable_new (mb_ring_ s) (replication_factor s) (local_id s))
    (health_checker_ s) (rebalance_requested_ s) (seeds_ s).

(** [init_common], called by every constructor: the ring has 256 vnodes per
    node. *)
Definition Membership_init (local : CacheNode) (rf : nat) (boot_ms : Z) : Membership :=
  let ring := Ring_add_node local (Ring_new 256) in
  publish_routing_locked
    (mkMembership local rf ring {[cn_id local := local]} {[cn_id local := true]}
       {[cn_id local := mkMI local boot_ms Alive]} (RoutingTable_new (Ring_new 256) rf (cn_id local))
       HealthChecker_new false []).

(** The state and the two lists [apply_member_locked] appends to. *)
Record MemberChange := mkChange {
  mc_state : Membership; mc_added : list CacheNode; mc_removed : list bytes
}.

(** The state with another member table. *)
Definition with_members (mems : gmap bytes MemberInfo) (s : Membership) : Membership :=
  mkMembership (local_node_ s) (replication_factor s) (mb_ring_ s) (nodes_ s) (node_health_ s) mems
    (routing_ s) (health_checker_ s) (rebalance_requested_ s) (seeds_ s).

(** The second half of [apply_member_locked]: the entry is news and not about
    this node.  The boolean tells whether the ring changed. *)
Definition accept_member (m : MemberInfo) (c : MemberChange) : MemberChange * bool :=
  let s := mc_state c in
  let id := cn_id (mi_node m) in
  let mems := <[id := m]> (members_ s) in
  let in_ring := bool_decide (is_Some (nodes_ s !! id)) in
  if bool_decide (mi_status m = Alive) && negb in_ring then
    (mkChange
       (mkMembership (local_node_ s) (replication_factor s) (Ring_add_node (mi_node m) (mb_ring_ s))
          (<[id := mi_node m]> (nodes_ s)) (<[id := true]> (node_health_ s)) mems (routing_ s)
          (health_checker_ s) (rebalance_requested_ s) (seeds_ s))
       (mc_added c ++ [mi_node m]) (mc_removed c), true)
  else if bool_decide (mi_status m = Left) && in_ring then
    (mkChange
       (mkMembership (local_node_ s) (replication_factor s) (Ring_remove_node id (mb_ring_ s))
          (delete id (nodes_ s)) (delete id (node_health_ s)) mems (routing_ s)
          (health_checker_ s) (rebalance_requested_ s) (seeds_ s))
       (mc_added c) (mc_removed c ++ [id]), true)
  else (mkChange (with_members mems s) (mc_added c) (mc_removed c), false).

(** [apply_member_locked]: stale entries are ignored, and news about this node
    only raises its generation. *)
Definition apply_member_locked (m : MemberInfo) (c : MemberChange) : MemberChange * bool :=
  let s := mc_state c in
  let id := cn_id (mi_node m) in
  match members_ s !! id with
  | Some known =>
      if mi_generation m <=? mi_generation known then (c, false)
      else if bytes_eqb id (local_id s) then
        (mkChange
           (with_members
              (<[id := mkMI (mi_node known) (u64 (mi_generation m + 1)) (mi_status known)]> (members_ s)) s)
           (mc_added c) (mc_removed c), false)
      else accept_member m c
  | None => accept_member m c
  end.

(** [after_membership_change]. *)
Definition after_membership_change (added : list CacheNode) (removed : list bytes) (s : Membership)
    : Membership :=
  let h := foldl (fun h n => if bytes_eqb (cn_id n) (local_id s) then h else HealthChecker_add_node n h)
             (health_checker_ s) added in
  let h := foldl (fun h id => HealthChecker_remove_node id h) h removed in
  mkMembership (local_node_ s) (replication_factor s) (mb_ring_ s) (nodes_ s) (node_health_ s)
    (members_ s) (routing_ s) h
    (match added, removed with [], [] => rebalance_requested_ s | _, _ => true end) (seeds_ s).

(** The loop of [merge_gossip]. *)
Definition apply_members (remote : list MemberInfo) (s : Membership) : MemberChange * bool :=
  foldl (fun '(c, changed) m =>
           let '(c', b) := apply_member_locked m c in (c', b || changed))
    (mkChange s [] [], false) remote.

(** [Cluster::members]: the map's entries; their order is unspecified. *)
Definition Cluster_members (s : Membership) : list MemberInfo := (map_to_list (members_ s)).*2.

(** [Cluster::merge_gossip]. *)
Definition Cluster_merge_gossip (remote : list MemberInfo) (s : Membership)
    : Membership * list MemberInfo :=
  let '(c, changed) := apply_members remote s in
  let s1 := if changed then publish_routing_locked (mc_state c) else mc_state c in
  (after_membership_change (mc_added c) (mc_removed c) s1, Cluster_members s1).

(** [Cluster::add_node]: a configured peer enters at generation 0. *)
Definition Cluster_add_node (node : CacheNode) (s : Membership) : Membership :=
  fst (Cluster_merge_gossip [mkMI node 0 Alive] s).

(** [Cluster::remove_node]. *)
Definition Cluster_remove_node (node_id : bytes) (s : Membership) : Membership :=
  match members_ s !! node_id with
  | None => s
  | Some m =>
      let gone := mkMI (mi_node m) (u64 (mi_generation m + 1)) Left in
      let '(c, _) := apply_member_locked gone (mkChange s [] []) in
      after_membership_change (mc_added c) (mc_removed c) (mc_state c)
  end.

Definition Cluster_add_seed (host : bytes) (port : Z) (s : Membership) : Membership :=
  mkMembership (local_node_ s) (replication_factor s) (mb_ring_ s) (nodes_ s) (node_health_ s)
    (members_ s) (routing_ s) (health_checker_ s) (rebalance_requested_ s) (seeds_ s ++ [(host, port)]).

(** The critical section of [Cluster::leave]; [members_[local_id]] creates a
    default entry when there is none.  The peers are those to tell. *)
Definition Cluster_leave (s : Membership) : Membership * list CacheNode :=
  let self := default (mkMI (mkCN [] [] 0) 0 Alive) (members_ s !! local_id s) in
  let peers := (map_to_list (delete (local_id s) (nodes_ s))).*2 in
  (publish_routing_locked
     (mkMembership (local_node_ s) (replication_factor s) (Ring_remove_node (local_id s) (mb_ring_ s))
        (delete (local_id s) (nodes_ s)) (node_health_ s)
        (<[local_id s := mkMI (mi_node self) (u64 (mi_generation self + 1)) Left]> (members_ s))
        (routing_ s) (health_checker_ s) (rebalance_requested_ s) (seeds_ s)), peers).

(** [Cluster::is_node_healthy]. *)
Definition Cluster_is_node_healthy (node_id : bytes) (s : Membership) : bool :=
  default true (node_health_ s !! node_id).

(** [Cluster::set_node_health]: the state change, and the node whose
    connections are dropped. *)
Definition Cluster_set_node_health (node_id : bytes) (healthy : bool) (s : Membership)
    : Membership * option CacheNode :=
  (mkMembership (local_node_ s) (replication_factor s) (mb_ring_ s) (nodes_ s)
     (<[node_id := healthy]> (node_health_ s)) (members_ s) (routing_ s) (health_checker_ s)
     (rebalance_requested_ s) (seeds_ s),
   if healthy then None else nodes_ s !! node_id).

(** [Cluster::preference_list] on the published table. *)
Definition Cluster_preference_list (key : bytes) (s : Membership) : option (list CacheNode) :=
  RoutingTable_preference_list key (routing_ s).

(** [Cluster::locate]: the first healthy replica, or the first one. *)
Definition Cluster_locate (key : bytes) (s : Membership) : option (option CacheNode) :=
  replicas ← Cluster_preference_list key s;
  Some match List.find (fun n => default true (node_health_ s !! cn_id n)) replicas with
       | Some n => Some n
       | None => head replicas
       end.

(** The random choice of [gossip_once] is between these peers; it falls back to
    the seeds while fewer than two are known. *)
Definition gossip_peers (s : Membership) : list CacheNode :=
  (filter (fun p => default true (node_health_ s !! p.1) = true)
     (map_to_list (delete (local_id s) (nodes_ s)))).*2.

(** ** The invariant *)

(** The ring holds exactly the members known alive, and every table is keyed by
    the node's own id. *)
Record mem_wf (s : Membership) : Prop := {
  mw_ring : exists ops, mb_ring_ s = Ring_run 256 ops /\
    Forall (fun op => ring_op_id op ∈ dom (members_ s)) ops;
  mw_phys : physical_nodes_ (mb_ring_ s) = nodes_ s;
  mw_alive : forall id, is_Some (nodes_ s !! id) <->
    exists m, members_ s !! id = Some m /\ mi_status m = Alive;
  mw_ids : forall id m, members_ s !! id = Some m -> cn_id (mi_node m) = id;
  mw_local : is_Some (members_ s !! local_id s)
}.

(** The published table is the one of the current ring. *)
Definition routing_in_sync (s : Membership) : Prop :=
  routing_ s = RoutingTable_new (mb_ring_ s) (replication_factor s) (local_id s).

Lemma ring_run_add v ops n : Ring_add_node n (Ring_run v ops) = Ring_run v (ops ++ [RingAdd n]).
Proof. unfold Ring_run. by rewrite foldl_app. Qed.

Lemma ring_run_remove v ops id : Ring_remove_node id (Ring_run v ops) = Ring_run v (ops ++ [RingRemove id]).
Proof. unfold Ring_run. by rewrite foldl_app. Qed.

(** What an operation keeps fixed. *)
Definition same_identity (s s' : Membership) : Prop :=
  local_node_ s' = local_node_ s /\ replication_factor s' = replication_factor s /\
  routing_ s' = routing_ s.

(** The wf part of a changed state: new members, nodes and ring. *)
Lemma mem_wf_change s s' id m :
  mem_wf s -> local_node_ s' = local_node_ s -> cn_id (mi_node m) = id ->
  members_ s' = <[id := m]> (members_ s) ->
  (mb_ring_ s' = mb_ring_ s \/
   (exists n, cn_id n = id /\ mb_ring_ s' = Ring_add_node n (mb_ring_ s)) \/
   mb_ring_ s' = Ring_remove_node id (mb_ring_ s)) ->
  physical_nodes_ (mb_ring_ s') = nodes_ s' ->
  (forall id', id' <> id -> nodes_ s' !! id' = nodes_ s !! id') ->
  (is_Some (nodes_ s' !! id) <-> mi_status m = Alive) ->
  mem_wf s'.
Proof.
  intros W El Ei Em Hr Hp Hn Ha. split; [|done|..].
  - destruct (mw_ring s W) as (ops & Hops & F).
    assert (F' : Forall (fun op => ring_op_id op ∈ dom (members_ s')) ops).
    { eapply Forall_impl; [exact F|]. intros op Hop. rewrite Em, dom_insert. simpl in Hop. set_solver. }
    assert (Hid : id ∈ dom (members_ s')) by (rewrite Em, dom_insert; set_solver).
    destruct Hr as [Hr|[(n & En & Hr)|Hr]]; rewrite Hr, Hops.
    + by exists ops.
    + exists (ops ++ [RingAdd n]). rewrite ring_run_add. split; [done|].
      apply Forall_app. split; [done|]. rewrite Forall_singleton. simpl. by rewrite En.
    + exists (ops ++ [RingRemove id]). rewrite ring_run_remove. split; [done|].
      apply Forall_app. split; [done|]. by rewrite Forall_singleton.
  - intros id'. rewrite Em. destruct (decide (id' = id)) as [->|Hne].
    + rewrite lookup_insert_eq, Ha. naive_solver.
    + rewrite lookup_insert_ne, Hn by done. apply W.
  - intros id' m'. rewrite Em, lookup_insert_Some. intros [[<- <-]|[_ H]]; [done|].
    by apply (mw_ids s W) in H.
  - unfold local_id. rewrite El, Em. destruct (decide (id = cn_id (local_node_ s))) as [<-|Hne].
    + by rewrite lookup_insert_eq.
    + rewrite lookup_insert_ne by done. apply W.
Qed.

(** What one membership entry preserves. *)
Definition change_ok (c c' : MemberChange) (changed : bool) : Prop :=
  mem_wf (mc_state c') /\ same_identity (mc_state c) (mc_state c') /\
  (changed = false -> mb_ring_ (mc_state c') = mb_ring_ (mc_state c)).

Lemma accept_member_wf m c :
  mem_wf (mc_state c) -> change_ok c (fst (accept_member m c)) (snd (accept_member m c)).
Proof.
  intros W. unfold accept_member, change_ok. set (s := mc_state c) in *. set (id := cn_id (mi_node m)).
  pose proof (mw_phys s W) as Hphys.
  case_bool_decide as Ha; case_bool_decide as Hi; cbn [negb andb fst snd mc_state].
  - rewrite bool_decide_eq_false_2 by congruence. cbn [negb andb fst snd mc_state].
    split; [|done]. apply (mem_wf_change s _ id m); simpl; try done. by left.
  - split; [|done]. apply (mem_wf_change s _ id m); simpl; try done.
    + right. left. by exists (mi_node m).
    + by rewrite Hphys.
    + intros id' Hne. by rewrite lookup_insert_ne.
    + by rewrite lookup_insert_eq.
  - destruct (mi_status m) eqn:Es; [done|]. rewrite bool_decide_eq_true_2 by done.
    cbn [negb andb fst snd mc_state]. split; [|done]. apply (mem_wf_change s _ id m); simpl; try done.
    + by right; right.
    + unfold Ring_remove_node. rewrite Hphys. destruct (nodes_ s !! id) eqn:En; [done|].
      destruct Hi as [? Hi]. congruence.
    + intros id' Hne. by rewrite lookup_delete_ne.
    + rewrite lookup_delete_eq, Es. split; [by intros []|done].
  - rewrite andb_false_r. cbn [fst snd mc_state]. split; [|done].
    apply (mem_wf_change s _ id m); simpl; try done. by left.
Qed.

Lemma apply_member_wf m c :
  mem_wf (mc_state c) -> change_ok c (fst (apply_member_locked m c)) (snd (apply_member_locked m c)).
Proof.
  intros W. unfold apply_member_locked. set (s := mc_state c) in *. set (id := cn_id (mi_node m)).
  destruct (members_ s !! id) as [known|] eqn:Ek; [|by apply accept_member_wf].
  destruct (_ <=? _); [by split_and!|].
  destruct (bytes_eqb_spec id (local_id s)) as [El|El]; [|by apply accept_member_wf].
  split; [|done]. cbn [fst mc_state].
  apply (mem_wf_change s _ id (mkMI (mi_node known) (u64 (mi_generation m + 1)) (mi_status known)));
    simpl; try done; [by apply (mw_ids s W)|by left|by apply W|].
  rewrite (mw_alive s W). naive_solver.
Qed.

(** ** The operations *)

Lemma apply_members_snoc remote m s :
  apply_members (remote ++ [m]) s =
  let '(c, changed) := apply_members remote s in
  let '(c', b) := apply_member_locked m c in (c', b || changed).
Proof. unfold apply_members. rewrite foldl_app. cbn [foldl]. by destruct (foldl _ _ remote). Qed.

Lemma apply_members_wf remote s :
  mem_wf s -> change_ok (mkChange s [] []) (fst (apply_members remote s)) (snd (apply_members remote s)).
Proof.
  intros W. induction remote as [|m remote IH] using rev_ind; [done|].
  rewrite apply_members_snoc. destruct (apply_members remote s) as [c changed].
  destruct IH as (W1 & (I1 & I2 & I3) & R1). simpl in *.
  pose proof (apply_member_wf m c W1) as H. destruct (apply_member_locked m c) as [c' b].
  destruct H as (W2 & (J1 & J2 & J3) & R2). simpl in *. split; [done|].
  split; [by unfold same_identity; rewrite J1, J2, J3|]. intros E. apply orb_false_iff in E as [-> ->].
  by rewrite R2, R1.
Qed.

(** Publishing and the follow-up touch neither members nor ring. *)
Lemma mem_wf_publish s : mem_wf s -> mem_wf (publish_routing_locked s).
Proof. intros [H1 H2 H3 H4 H5]. by split. Qed.

Lemma mem_wf_after a r s : mem_wf s -> mem_wf (after_membership_change a r s).
Proof. intros [H1 H2 H3 H4 H5]. by split. Qed.

Lemma merge_gossip_ok remote s :
  mem_wf s -> let s' := fst (Cluster_merge_gossip remote s) in
  mem_wf s' /\ local_node_ s' = local_node_ s /\ replication_factor s' = replication_factor s /\
  (routing_in_sync s -> routing_in_sync s').
Proof.
  intros W. unfold Cluster_merge_gossip. pose proof (apply_members_wf remote s W) as H.
  destruct (apply_members remote s) as [c changed]. destruct H as (W1 & (I1 & I2 & I3) & R). simpl in *.
  split; [apply mem_wf_after; by destruct changed; [apply mem_wf_publish|]|].
  destruct changed; simpl; split_and!; try done.
  intros Hs. unfold routing_in_sync, local_id in *. simpl. by rewrite I3, I1, I2, R.
Qed.

Lemma remove_node_ok id s :
  mem_wf s -> let s' := Cluster_remove_node id s in
  mem_wf s' /\ local_node_ s' = local_node_ s /\ replication_factor s' = replication_factor s /\
  routing_ s' = routing_ s.
Proof.
  intros W. unfold Cluster_remove_node. destruct (members_ s !! id) as [m|]; [|done].
  pose proof (apply_member_wf (mkMI (mi_node m) (u64 (mi_generation m + 1)) Left) (mkChange s [] []) W) as H.
  destruct (apply_member_locked _ _) as [c b]. destruct H as (W1 & (I1 & I2 & I3) & _). simpl in *.
  split; [by apply mem_wf_after|done].
Qed.

Lemma leave_ok s :
  mem_wf s -> let s' := fst (Cluster_leave s) in
  mem_wf s' /\ local_node_ s' = local_node_ s /\ replication_factor s' = replication_factor s /\
  routing_in_sync s'.
Proof.
  intros W. split; [|done]. apply mem_wf_publish.
  destruct (mw_local s W) as [self Hself]. rewrite Hself. simpl.
  apply (mem_wf_change s _ (local_id s) (mkMI (mi_node self) (u64 (mi_generation self + 1)) Left));
    simpl; try done.
  - by apply (mw_ids s W).
  - by right; right.
  - unfold Ring_remove_node. rewrite (mw_phys s W). destruct (nodes_ s !! local_id s) eqn:E; simpl; [done|].
    by rewrite (mw_phys s W), delete_id.
  - intros id' Hne. by rewrite lookup_delete_ne.
  - rewrite lookup_delete_eq. split; [by intros []|done].
Qed.

(** The calls that change the membership state. *)
Inductive MemOp :=
  | MMerge (remote : list MemberInfo)
  | MAdd (node : CacheNode)
  | MRemove (id : bytes)
  | MLeave
  | MHealth (id : bytes) (healthy : bool)
  | MSeed (host : bytes) (port : Z).

Definition Membership_exec (s : Membership) (op : MemOp) : Membership :=
  match op with
  | MMerge remote => fst (Cluster_merge_gossip remote s)
  | MAdd node => Cluster_add_node node s
  | MRemove id => Cluster_remove_node id s
  | MLeave => fst (Cluster_leave s)
  | MHealth id h => fst (Cluster_set_node_health id h s)
  | MSeed host port => Cluster_add_seed host port s
  end.

Definition Membership_run (local : CacheNode) (rf : nat) (boot_ms : Z) (ops : list MemOp) : Membership :=
  foldl Membership_exec (Membership_init local rf boot_ms) ops.

Lemma Membership_init_ok local rf boot_ms :
  mem_wf (Membership_init local rf boot_ms) /\ routing_in_sync (Membership_init local rf boot_ms).
Proof.
  split; [|done]. apply mem_wf_publish. split; simpl.
  - exists [RingAdd local]. split; [done|]. rewrite Forall_singleton. simpl. rewrite dom_singleton. set_solver.
  - done.
  - intros id. rewrite !lookup_singleton. unfold is_Some. case_decide; naive_solver.
  - intros id m. rewrite lookup_singleton_Some. by intros [<- <-].
  - unfold local_id. simpl. by rewrite lookup_singleton_eq.
Qed.

Lemma Membership_exec_ok s op :
  mem_wf s -> let s' := Membership_exec s op in
  mem_wf s' /\ local_node_ s' = local_node_ s /\ replication_factor s' = replication_factor s /\
  ((forall id, op <> MRemove id) -> routing_in_sync s -> routing_in_sync s').
Proof.
  intros W. destruct op as [remote|node|id| |id h|host port]; simpl.
  - destruct (merge_gossip_ok remote s W) as (? & ? & ? & ?). by split_and!.
  - destruct (merge_gossip_ok [mkMI node 0 Alive] s W) as (? & ? & ? & ?). by split_and!.
  - destruct (remove_node_ok id s W) as (? & ? & ? & ?). split_and!; try done. intros Hno. by destruct (Hno id).
  - destruct (leave_ok s W) as (? & ? & ? & ?). by split_and!.
  - split; [|done]. by destruct W; split.
  - split; [|done]. by destruct W; split.
Qed.

Lemma Membership_run_ok local rf boot_ms ops :
  let s := Membership_run local rf boot_ms ops in
  mem_wf s /\ local_node_ s = local /\ replication_factor s = rf /\
  ((forall id, MRemove id ∉ ops) -> routing_in_sync s).
Proof.
  induction ops as [|op ops IH] using rev_ind.
  { destruct (Membership_init_ok local rf boot_ms). by split_and!. }
  unfold Membership_run in *. rewrite foldl_app. cbn [foldl].
  destruct IH as (W & E1 & E2 & Hs). set (s := foldl _ _ ops) in *.
  destruct (Membership_exec_ok s op W) as (W' & E1' & E2' & Hs'). rewrite E1', E2'.
  split_and!; try done. intros Hno. apply Hs'; [|apply Hs]; set_solver.
Qed.

(** ** Merging is a join *)

(** The entry with the higher generation; the first of two equal ones. *)
Definition mi_join (a b : option MemberInfo) : option MemberInfo :=
  match a, b with
  | Some x, Some y => if mi_generation y <=? mi_generation x then a else b
  | None, _ => b
  | _, None => a
  end.

Lemma apply_member_lookup m c id :
  id <> local_id (mc_state c) ->
  local_node_ (mc_state (fst (apply_member_locked m c))) = local_node_ (mc_state c) /\
  members_ (mc_state (fst (apply_member_locked m c))) !! id =
    if decide (cn_id (mi_node m) = id) then mi_join (members_ (mc_state c) !! id) (Some m)
    else members_ (mc_state c) !! id.
Proof.
  intros Hl. set (s := mc_state c) in *. set (i := cn_id (mi_node m)).
  assert (Hacc : local_node_ (mc_state (fst (accept_member m c))) = local_node_ s /\
    members_ (mc_state (fst (accept_member m c))) = <[i := m]> (members_ s)).
  { unfold accept_member. fold s i. by repeat case_match. }
  unfold apply_member_locked. fold s i. destruct (members_ s !! i) as [known|] eqn:Ek.
  - destruct (_ <=? _) eqn:G.
    { split; [done|]. cbn [fst]. fold s. case_decide as E; [|done]. rewrite <-E, Ek. simpl. by rewrite G. }
    destruct (bytes_eqb_spec i (local_id s)) as [El|El]; simpl.
    + split; [done|]. rewrite decide_False by congruence. rewrite lookup_insert_ne by congruence. done.
    + destruct Hacc as [-> ->]. split; [done|]. case_decide as E.
      * subst id. rewrite lookup_insert_eq, Ek. simpl. by rewrite G.
      * by rewrite lookup_insert_ne.
  - destruct Hacc as [-> ->]. split; [done|]. case_decide as E.
    + subst id. by rewrite lookup_insert_eq, Ek.
    + by rewrite lookup_insert_ne.
Qed.

(** The entries about one node, joined in order. *)
Definition joined (id : bytes) (remote : list MemberInfo) (a : option MemberInfo) : option MemberInfo :=
  foldl (fun a m => if decide (cn_id (mi_node m) = id) then mi_join a (Some m) else a) a remote.

Lemma merge_lookup remote s id :
  id <> local_id s ->
  members_ (fst (Cluster_merge_gossip remote s)) !! id = joined id remote (members_ s !! id).
Proof.
  intros Hl. unfold Cluster_merge_gossip.
  assert (H : local_node_ (mc_state (fst (apply_members remote s))) = local_node_ s /\
    members_ (mc_state (fst (apply_members remote s))) !! id = joined id remote (members_ s !! id)).
  { induction remote as [|m remote IH] using rev_ind; [done|].
    rewrite apply_members_snoc. unfold joined in *. rewrite foldl_app. cbn [foldl].
    destruct (apply_members remote s) as [c changed]. simpl in IH. destruct IH as [E1 E2].
    pose proof (apply_member_lookup m c id) as H. unfold local_id in H, Hl. rewrite E1 in H.
    destruct (H Hl) as [E3 E4]. destruct (apply_member_locked m c) as [c' b]. simpl in *.
    split; [done|]. rewrite E4. by rewrite E2. }
  destruct H as [_ H]. destruct (apply_members remote s) as [c changed]. simpl in *.
  by destruct changed.
Qed.

(** One generation of one node's entry has one content. *)
Definition coherent (l : list MemberInfo) : Prop :=
  forall m m', m ∈ l -> m' ∈ l -> cn_id (mi_node m) = cn_id (mi_node m') ->
    mi_generation m = mi_generation m' -> m = m'.

(** The joined entry is the one of highest generation among those about [id]. *)
Lemma joined_max id l a :
  (forall x, a = Some x -> cn_id (mi_node x) = id) ->
  match joined id l a with
  | None => a = None /\ forall m, m ∈ l -> cn_id (mi_node m) <> id
  | Some w => cn_id (mi_node w) = id /\ (a = Some w \/ w ∈ l) /\
      (forall x, a = Some x -> mi_generation x <= mi_generation w) /\
      forall m, m ∈ l -> cn_id (mi_node m) = id -> mi_generation m <= mi_generation w
  end.
Proof.
  intros Ha. induction l as [|m l IH] using rev_ind.
  { simpl. destruct a as [x|]; [|split; [done|intros m Hm; by apply elem_of_nil in Hm]].
    split_and!; [by apply Ha|by left|by intros ? [= <-]|intros m Hm; by apply elem_of_nil in Hm]. }
  unfold joined in *. rewrite foldl_app. cbn [foldl]. set (j := foldl _ a l) in *.
  case_decide as E.
  - destruct j as [w|]; simpl.
    + destruct IH as (I1 & I2 & I3 & I4). destruct (Z.leb_spec (mi_generation m) (mi_generation w)).
      * split_and!; [done|set_solver|done|]. intros m' [Hm'|Hm'%list_elem_of_singleton]%elem_of_app Em';
          [by apply I4|by subst].
      * split_and!; [done|set_solver| |].
        -- intros x Hx. specialize (I3 x Hx). lia.
        -- intros m' [Hm'|Hm'%list_elem_of_singleton]%elem_of_app Em'; [specialize (I4 m' Hm' Em'); lia|by subst].
    + destruct IH as [-> I2]. split_and!; [done|set_solver|done|].
      intros m' [Hm'|Hm'%list_elem_of_singleton]%elem_of_app Em'; [by apply I2 in Hm'|by subst].
  - destruct j as [w|].
    + destruct IH as (I1 & I2 & I3 & I4). split_and!; [done|set_solver|done|].
      intros m' [Hm'|Hm'%list_elem_of_singleton]%elem_of_app Em'; [by apply I4|by subst].
    + destruct IH as [-> I2]. split; [done|].
      intros m' [Hm'|Hm'%list_elem_of_singleton]%elem_of_app; [by apply I2|by subst].
Qed.

(** Two coherent sources that cover each other join to the same entry. *)
Lemma joined_agree id l1 l2 a1 a2 :
  (forall x, a1 = Some x -> cn_id (mi_node x) = id) ->
  (forall x, a2 = Some x -> cn_id (mi_node x) = id) ->
  (forall m, cn_id (mi_node m) = id -> (a1 = Some m \/ m ∈ l1) -> exists m',
     cn_id (mi_node m') = id /\ (a2 = Some m' \/ m' ∈ l2) /\ mi_generation m <= mi_generation m') ->
  (forall m, cn_id (mi_node m) = id -> (a2 = Some m \/ m ∈ l2) -> exists m',
     cn_id (mi_node m') = id /\ (a1 = Some m' \/ m' ∈ l1) /\ mi_generation m <= mi_generation m') ->
  (forall m m', cn_id (mi_node m) = id -> cn_id (mi_node m') = id ->
     (a1 = Some m \/ m ∈ l1) -> (a2 = Some m' \/ m' ∈ l2) ->
     mi_generation m = mi_generation m' -> m = m') ->
  joined id l1 a1 = joined id l2 a2.
Proof.
  intros H1 H2 C1 C2 Hc. pose proof (joined_max id l1 a1 H1) as J1. pose proof (joined_max id l2 a2 H2) as J2.
  assert (Hb : forall (l : list MemberInfo) a w, (forall x, a = Some x -> mi_generation x <= mi_generation w) ->
    (forall m, m ∈ l -> cn_id (mi_node m) = id -> mi_generation m <= mi_generation w) ->
    forall m, cn_id (mi_node m) = id -> (a = Some m \/ m ∈ l) -> mi_generation m <= mi_generation w).
  { intros l a w P Q m Em [Hm|Hm]; auto. }
  destruct (joined id l1 a1) as [w1|], (joined id l2 a2) as [w2|]; try done.
  - destruct J1 as (E1 & S1 & A1 & B1), J2 as (E2 & S2 & A2 & B2). f_equal. apply Hc; try done.
    destruct (C1 w1 E1 S1) as (m' & Em' & Hm' & L1). destruct (C2 w2 E2 S2) as (m & Em & Hm & L2).
    pose proof (Hb l2 a2 w2 A2 B2 m' Em' Hm'). pose proof (Hb l1 a1 w1 A1 B1 m Em Hm). lia.
  - destruct J1 as (E1 & S1 & _), J2 as [-> B2]. destruct (C1 w1 E1 S1) as (m' & Em' & [Hm'|Hm'] & _); [done|].
    by apply B2 in Hm'.
  - destruct J2 as (E2 & S2 & _), J1 as [-> B1]. destruct (C2 w2 E2 S2) as (m' & Em' & [Hm'|Hm'] & _); [done|].
    by apply B1 in Hm'.
Qed.

(** ** Properties *)

Lemma merge_local remote s :
  mem_wf s -> local_id (fst (Cluster_merge_gossip remote s)) = local_id s.
Proof. intros W. destruct (merge_gossip_ok remote s W) as (_ & E & _). unfold local_id. by rewrite E. Qed.

Lemma merge_all_lookup batches s id :
  mem_wf s -> id <> local_id s ->
  members_ (foldl (fun s r => fst (Cluster_merge_gossip r s)) s batches) !! id =
  joined id (concat batches) (members_ s !! id).
Proof.
  revert s. induction batches as [|r batches IH]; intros s W Hl; [done|]. cbn [foldl concat].
  rewrite IH; [|by apply merge_gossip_ok|by rewrite merge_local].
  rewrite merge_lookup by done. unfold joined. by rewrite foldl_app.
Qed.

Lemma members_elem s m : m ∈ Cluster_members s <-> exists id, members_ s !! id = Some m.
Proof.
  unfold Cluster_members. rewrite list_elem_of_fmap. split.
  - intros ([id m'] & -> & H%elem_of_map_to_list). by exists id.
  - intros [id H]. exists (id, m). split; [done|]. by apply elem_of_map_to_list.
Qed.

Lemma merge_view remote s : snd (Cluster_merge_gossip remote s) = Cluster_members (fst (Cluster_merge_gossip remote s)).
Proof. unfold Cluster_merge_gossip. destruct (apply_members remote s) as [c []]; done. Qed.

(** The ring never drifts from the member table: after any calls, exactly the
    members last heard of as alive are on the ring and in the node table. *)
Theorem membership_ring_matches local rf boot_ms ops id :
  let s := Membership_run local rf boot_ms ops in
  (physical_nodes_ (mb_ring_ s) = nodes_ s) /\
  (is_Some (nodes_ s !! id) <-> exists m, members_ s !! id = Some m /\ mi_status m = Alive) /\
  (forall key n reps, n ∈ Ring_locate_replicas key reps (mb_ring_ s) -> nodes_ s !! cn_id n = Some n).
Proof.
  intros s. destruct (Membership_run_ok local rf boot_ms ops) as (W & _). fold s in W.
  split; [apply W|]. split; [apply W|]. intros key n reps Hn. rewrite <-(mw_phys s W).
  destruct (mw_ring s W) as (rops & Hr & _). pose proof (Ring_run_wf 256 rops) as Wr. rewrite <-Hr in Wr.
  rewrite locate_replicas_walk in Hn by eauto with shard.
  apply elem_of_take in Hn as (i & Hi%list_elem_of_lookup_2 & _). by eapply successors_registered.
Qed.


(** One push-pull exchange makes two nodes agree about everyone else: after
    A sends its view to B and merges B's answer, they hold the same entry for
    every third node. *)
Theorem gossip_exchange_agrees s1 s2 id :
  mem_wf s1 -> mem_wf s2 -> id <> local_id s1 -> id <> local_id s2 ->
  coherent (Cluster_members s1 ++ Cluster_members s2) ->
  let '(s2', view) := Cluster_merge_gossip (Cluster_members s1) s2 in
  let '(s1', _) := Cluster_merge_gossip view s1 in
  members_ s1' !! id = members_ s2' !! id.
Proof.
  intros W1 W2 L1 L2 C. pose proof (merge_view (Cluster_members s1) s2) as Ev.
  pose proof (merge_lookup (Cluster_members s1) s2 id L2) as E2.
  pose proof (merge_gossip_ok (Cluster_members s1) s2 W2) as (W2' & _).
  destruct (Cluster_merge_gossip (Cluster_members s1) s2) as [s2' view]. simpl in *. subst view.
  pose proof (merge_lookup (Cluster_members s2') s1 id L1) as E1.
  destruct (Cluster_merge_gossip (Cluster_members s2') s1) as [s1' view']. simpl in *.
  pose proof (joined_max id (Cluster_members s1) (members_ s2 !! id)) as J2.
  pose proof (joined_max id (Cluster_members s2') (members_ s1 !! id)) as J1.
  specialize (J1 (fun x Hx => mw_ids s1 W1 id x Hx)). specialize (J2 (fun x Hx => mw_ids s2 W2 id x Hx)).
  rewrite <-E1 in J1. rewrite <-E2 in J2. clear E1 E2.
  assert (Honly : forall m, m ∈ Cluster_members s2' -> cn_id (mi_node m) = id -> members_ s2' !! id = Some m).
  { intros m [i Hi]%members_elem Em. pose proof (mw_ids s2' W2' i m Hi). congruence. }
  destruct (members_ s2' !! id) as [w|] eqn:E2.
  - assert (Hw : w ∈ Cluster_members s2') by (apply members_elem; eauto).
    destruct J2 as (Ew & Sw & _ & Bw). destruct (members_ s1' !! id) as [w'|].
    + destruct J1 as (Ew' & [Sw'|Sw'] & _ & Bw').
      * assert (Hw' : w' ∈ Cluster_members s1) by (apply members_elem; eauto).
        specialize (Bw w' Hw' Ew'). specialize (Bw' w Hw Ew). f_equal. apply C; try congruence; [| |lia].
        -- apply elem_of_app. by left.
        -- apply elem_of_app. destruct Sw as [Sw|Sw]; [right; apply members_elem; eauto|by left].
      * symmetry. by apply Honly.
    + destruct J1 as [_ J1]. by apply J1 in Hw.
  - destruct J2 as [_ J2]. destruct (members_ s1' !! id) as [w'|]; [|done].
    destruct J1 as (Ew' & [Sw'|Sw'] & _); [|by specialize (Honly w' Sw' Ew')].
    exfalso. apply (J2 w'); [apply members_elem; eauto|done].
Qed.

Lemma point_owners_nodes s : mem_wf s -> (size (point_owners (mb_ring_ s)) <= size (nodes_ s))%nat.
Proof.
  intros W. rewrite <-size_dom. apply subseteq_size. intros id Hid.
  unfold point_owners in Hid. apply elem_of_list_to_set, list_elem_of_fmap in Hid as (p & -> & Hp).
  destruct (mw_ring s W) as (ops & Hops & _). pose proof (Ring_run_wf 256 ops) as Wr. rewrite <-Hops in Wr.
  destruct (rw_point _ Wr p Hp) as [H _]. rewrite (mw_phys s W) in H. apply elem_of_dom. eauto.
Qed.

(** C25: As long as nobody calls [remove_node], every key is routed by the current
    membership: the published table's preference list is the ring's replica
    list, made of members known alive. *)
Theorem membership_routing_current local rf boot_ms ops key :
  let s := Membership_run local rf boot_ms ops in
  (forall id, MRemove id ∉ ops) -> Z.of_nat (size (nodes_ s)) <= 65536 ->
  Cluster_preference_list key s = Some (Ring_locate_replicas key rf (mb_ring_ s)).
Proof.
  intros s Hno Hsize. destruct (Membership_run_ok local rf boot_ms ops) as (W & E1 & E2 & Hsync).
  fold s in W, E1, E2, Hsync. specialize (Hsync Hno). unfold Cluster_preference_list.
  rewrite Hsync, E2. destruct (mw_ring s W) as (rops & Hr & _).
  apply routing_table_correct; [rewrite Hr; apply Ring_run_wf|].
  pose proof (point_owners_nodes s W). lia.
Qed.

(** [remove_node] takes the node off the ring and out of the node table but
    leaves the published routing table as it was, so requests are still routed
    to the removed node, and a rebalance finds nothing to do. *)
Theorem remove_node_routing_stale s id m :
  mem_wf s -> id <> local_id s -> members_ s !! id = Some m -> mi_status m = Alive ->
  mi_generation m + 1 < 2 ^ 64 -> 0 <= mi_generation m ->
  let s' := Cluster_remove_node id s in
  nodes_ s' !! id = None /\ physical_nodes_ (mb_ring_ s') !! id = None /\
  routing_ s' = routing_ s /\
  forall key, Cluster_preference_list key s' = Cluster_preference_list key s.
Proof.
  intros W Hl Hm Ha Hg Hg0 s'. destruct (remove_node_ok id s W) as (W' & _ & _ & Er). fold s' in W', Er.
  assert (Hnone : nodes_ s' !! id = None).
  { assert (Hid : cn_id (mi_node m) = id) by (by apply (mw_ids s W)).
    assert (Hin : is_Some (nodes_ s !! id)) by (apply (mw_alive s W); eauto).
    unfold s', Cluster_remove_node. rewrite Hm. unfold apply_member_locked. simpl. rewrite Hid, Hm. simpl.
    rewrite wrap_small by lia. rewrite (proj2 (Z.leb_gt _ _)) by lia. rewrite bytes_eqb_ne by done.
    unfold accept_member. simpl. rewrite Hid, (bool_decide_eq_true_2 (is_Some (nodes_ s !! id))) by done.
    simpl. by rewrite lookup_delete_eq. }
  rewrite (mw_phys s' W'). split_and!; try done. intros key. unfold Cluster_preference_list. by rewrite Er.
Qed.

(** A node that is told it has left, or was restarted elsewhere, does not
    obey: it keeps its own entry and outranks the news, so the next exchange
    corrects the sender. *)
Theorem gossip_local_outranks s m :
  mem_wf s -> cn_id (mi_node m) = local_id s -> 0 <= mi_generation m < 2 ^ 64 - 1 ->
  exists self self', members_ s !! local_id s = Some self /\
    members_ (fst (Cluster_merge_gossip [m] s)) !! local_id s = Some self' /\
    mi_node self' = mi_node self /\ mi_status self' = mi_status self /\
    mi_generation m <= mi_generation self' /\
    (mi_generation self < mi_generation m -> mi_generation m < mi_generation self') /\
    nodes_ (fst (Cluster_merge_gossip [m] s)) = nodes_ s.
Proof.
  intros W Hid Hg. destruct (mw_local s W) as [self Hself]. exists self.
  unfold Cluster_merge_gossip, apply_members. cbn [foldl]. unfold apply_member_locked. simpl.
  rewrite Hid, Hself. destruct (Z.leb_spec (mi_generation m) (mi_generation self)) as [L|L]; simpl.
  - exists self. split_and!; try done. lia.
  - rewrite bytes_eqb_refl. simpl. rewrite lookup_insert_eq.
    eexists. split_and!; try done; simpl; rewrite wrap_small by lia; lia.
Qed.

(** Two nodes that agree on the alive members and their addresses route every
    key identically, in whatever order they learned of joins and leaves, when
    no two node ids have colliding vnodes. *)
Theorem same_members_same_routing s1 s2 key :
  mem_wf s1 -> mem_wf s2 -> routing_in_sync s1 -> routing_in_sync s2 ->
  replication_factor s1 = replication_factor s2 ->
  nodes_ s1 = nodes_ s2 -> Z.of_nat (size (nodes_ s1)) <= 65536 ->
  disjoint_vnodes 256 (dom (members_ s1) ∪ dom (members_ s2)) ->
  Cluster_preference_list key s1 = Cluster_preference_list key s2.
Proof.
  intros W1 W2 Y1 Y2 Erf En Hsize D.
  destruct (mw_ring s1 W1) as (ops1 & R1 & F1). destruct (mw_ring s2 W2) as (ops2 & R2 & F2).
  assert (Hring : mb_ring_ s1 = mb_ring_ s2).
  { rewrite R1, R2. eapply (rings_agree 256); [exact D|..].
    - eapply Forall_impl; [exact F1|]. simpl. set_solver.
    - eapply Forall_impl; [exact F2|]. simpl. set_solver.
    - rewrite <-R1, <-R2, (mw_phys s1 W1), (mw_phys s2 W2). done. }
  unfold Cluster_preference_list. rewrite Y1, Y2, Hring, Erf.
  pose proof (point_owners_nodes s2 W2) as Hb. rewrite <-En in Hb.
  assert (Wr : ring_wf (mb_ring_ s2)) by (rewrite R2; apply Ring_run_wf).
  destruct (routing_table_correct (mb_ring_ s2) (replication_factor s2) (local_id s1) key Wr) as [-> _]; [lia|].
  destruct (routing_table_correct (mb_ring_ s2) (replication_factor s2) (local_id s2) key Wr) as [-> _]; [lia|].
  done.
Qed.

(** ** Witnesses: two nodes of a three-node cluster *)

Definition info_a := mkMI node_a 100 Alive.
Definition info_b := mkMI node_b 200 Alive.
Definition info_c := mkMI node_c 300 Alive.
Definition info_c_left := mkMI node_c 301 Left.

Definition view_of_a := Membership_run node_a 2 100 [MAdd node_b; MMerge [info_b; info_c]].
Definition view_of_b := Membership_run node_b 2 200 [MMerge [info_a]; MMerge [info_c_left; info_c]].

Lemma view_of_a_ok : mem_wf view_of_a.
Proof. apply Membership_run_ok. Qed.

Lemma view_of_b_ok : mem_wf view_of_b.
Proof. apply Membership_run_ok. Qed.

Lemma coherent_check (l : list MemberInfo) :
  Forall (fun m => Forall (fun m' => cn_id (mi_node m) = cn_id (mi_node m') ->
    mi_generation m = mi_generation m' -> m = m') l) l -> coherent l.
Proof. intros H m m' Hm Hm'. rewrite Forall_forall in H. specialize (H m Hm). rewrite Forall_forall in H. auto. Qed.


Lemma gossip_exchange_agrees_witness :
  let '(s2', view) := Cluster_merge_gossip (Cluster_members view_of_a) view_of_b in
  let '(s1', _) := Cluster_merge_gossip view view_of_a in
  members_ s1' !! lit "c" = members_ s2' !! lit "c".
Proof.
  apply (gossip_exchange_agrees view_of_a view_of_b (lit "c") view_of_a_ok view_of_b_ok).
  - vm_compute. discriminate.
  - vm_compute. discriminate.
  - apply coherent_check, (bool_decide_eq_true_1 _). vm_compute. reflexivity.
Defined.

Lemma membership_routing_current_witness :
  Cluster_preference_list (lit "user:7") view_of_a =
  Some (Ring_locate_replicas (lit "user:7") 2 (mb_ring_ view_of_a)).
Proof.
  apply (membership_routing_current node_a 2 100 [MAdd node_b; MMerge [info_b; info_c]]).
  - intros id. rewrite !elem_of_cons, elem_of_nil. intros [?|[?|?]]; done.
  - vm_compute. discriminate.
Defined.

Lemma remove_node_routing_stale_witness :
  nodes_ (Cluster_remove_node (lit "b") view_of_a) !! lit "b" = None /\
  routing_ (Cluster_remove_node (lit "b") view_of_a) = routing_ view_of_a.
Proof.
  destruct (remove_node_routing_stale view_of_a (lit "b") info_b view_of_a_ok) as (H1 & _ & H2 & _).
  - vm_compute. discriminate.
  - vm_compute. reflexivity.
  - reflexivity.
  - vm_compute. reflexivity.
  - vm_compute. discriminate.
  - split; [exact H1|exact H2].
Defined.

Lemma gossip_local_outranks_witness :
  exists self', members_ (fst (Cluster_merge_gossip [mkMI node_a 500 Left] view_of_a)) !! lit "a" = Some self' /\
    500 < mi_generation self'.
Proof.
  destruct (gossip_local_outranks view_of_a (mkMI node_a 500 Left) view_of_a_ok)
    as (self & self' & E & E' & _ & _ & _ & G & _).
  - vm_compute. reflexivity.
  - simpl. lia.
  - exists self'. split; [exact E'|]. apply G. vm_compute in E. injection E as <-. simpl. lia.
Defined.

Definition late_view_of_b := Membership_run node_b 2 200 [MMerge [info_c]; MMerge [info_a]].

Lemma same_members_same_routing_witness :
  Cluster_preference_list (lit "user:7") view_of_a = Cluster_preference_list (lit "user:7") late_view_of_b.
Proof.
  apply (same_members_same_routing view_of_a late_view_of_b (lit "user:7")).
  - apply Membership_run_ok.
  - apply Membership_run_ok.
  - apply Membership_run_ok. intros id. rewrite !elem_of_cons, elem_of_nil. intros [?|[?|?]]; done.
  - apply Membership_run_ok. intros id. rewrite !elem_of_cons, elem_of_nil. intros [?|[?|?]]; done.
  - vm_compute. reflexivity.
  - vm_compute. reflexivity.
  - vm_compute. discriminate.
  - replace (dom (members_ view_of_a) ∪ dom (members_ late_view_of_b))
      with (list_to_set [lit "a"; lit "b"; lit "c"] : gset bytes) by (vm_compute; reflexivity).
    apply disjoint_vnodes_check, (bool_decide_eq_true_1 _). vm_compute. reflexivity.
Defined.
