(* ===== verification/RoutingCache.v ===== *)
(** * The per-thread routing cache

    Models [Cluster::routing] and the epoch protocol of
    [Cluster::publish_routing_locked] (src/cluster.cpp): every thread of the
    process keeps one table with the epoch it was published under, shared by all
    [Cluster] objects, and refreshes it only when the epochs differ. *)

From S2P Require Import Prelude Numerals ConsistentHash RoutingTable.

Local Open Scope Z_scope.

(** [g_routing_epoch], the [routing_epoch_] and [routing_] of every cluster of
    the process, and every thread's [t_routing]. *)
Record RoutingCaches := mkRC {
  g_routing_epoch : Z;
  rc_clusters : gmap nat (Z * RoutingTable);
  rc_threads : gmap nat (Z * RoutingTable)
}.

Definition RoutingCaches_new : RoutingCaches := mkRC 0 ∅ ∅.

(** [publish_routing_locked] of cluster [c]: the epoch is
    [g_routing_epoch.fetch_add(1) + 1]. *)
Definition publish_epoch (c : nat) (table : RoutingTable) (s : RoutingCaches) : RoutingCaches :=
  let e := u64 (g_routing_epoch s + 1) in
  mkRC e (<[c := (e, table)]> (rc_clusters s)) (rc_threads s).

(** [Cluster::routing] called by thread [t]; [None] when the cluster has no
    table yet, which the constructor rules out.  A thread's first call finds
    epoch 0. *)
Definition Cluster_routing (t c : nat) (s : RoutingCaches) : option (RoutingCaches * RoutingTable) :=
  '(epoch, routing) ← rc_clusters s !! c;
  match rc_threads s !! t with
  | Some (e, table) =>
      if e =? epoch then Some (s, table)
      else Some (mkRC (g_routing_epoch s) (rc_clusters s) (<[t := (epoch, routing)]> (rc_threads s)), routing)
  | None =>
      Some (mkRC (g_routing_epoch s) (rc_clusters s) (<[t := (epoch, routing)]> (rc_threads s)), routing)
  end.

(** Publications and lookups, from any threads and clusters. *)
Inductive caches_reachable : RoutingCaches -> Prop :=
  | caches_new : caches_reachable RoutingCaches_new
  | caches_publish c table s :
      caches_reachable s -> g_routing_epoch s + 1 < 2 ^ 64 -> caches_reachable (publish_epoch c table s)
  | caches_routing t c s s' table :
      caches_reachable s -> Cluster_routing t c s = Some (s', table) -> caches_reachable s'.

(** Epochs issued so far are positive and at most the counter; one epoch belongs
    to one publication. *)
Record caches_inv (s : RoutingCaches) : Prop := {
  ci_pos : 0 <= g_routing_epoch s;
  ci_cluster : forall c e T, rc_clusters s !! c = Some (e, T) -> 0 < e <= g_routing_epoch s;
  ci_unique : forall c c' e T T', rc_clusters s !! c = Some (e, T) -> rc_clusters s !! c' = Some (e, T') ->
    c = c';
  ci_thread : forall t e T, rc_threads s !! t = Some (e, T) -> 0 < e <= g_routing_epoch s;
  ci_match : forall t c e T T', rc_threads s !! t = Some (e, T) -> rc_clusters s !! c = Some (e, T') -> T = T'
}.

Lemma refresh_inv t c e T s :
  caches_inv s -> rc_clusters s !! c = Some (e, T) ->
  caches_inv (mkRC (g_routing_epoch s) (rc_clusters s) (<[t := (e, T)]> (rc_threads s))).
Proof.
  intros I Hc. split; simpl; try apply I.
  - intros t' e' T'. rewrite lookup_insert_Some. intros [[_ [= <- <-]]|[_ H]];
      [by eapply (ci_cluster s I)|by eapply (ci_thread s I)].
  - intros t' c' e' T1 T2. rewrite lookup_insert_Some. intros [[_ [= <- <-]]|[_ H]] Hc'.
    + assert (c = c') as <- by (by eapply (ci_unique s I)). congruence.
    + by eapply (ci_match s I).
Qed.

Lemma caches_reachable_inv s : caches_reachable s -> caches_inv s.
Proof.
  induction 1 as [|c table s _ I Hov|t c s s' table _ I E].
  - split; simpl; try done; intros *; by rewrite lookup_empty.
  - pose proof (ci_pos s I). unfold publish_epoch. rewrite wrap_small by lia.
    assert (Hc : forall c' e T, rc_clusters s !! c' = Some (e, T) -> e < g_routing_epoch s + 1)
      by (intros c' e T H'; apply (ci_cluster s I) in H'; lia).
    assert (Ht : forall t' e T, rc_threads s !! t' = Some (e, T) -> e < g_routing_epoch s + 1)
      by (intros t' e T H'; apply (ci_thread s I) in H'; lia).
    split; simpl.
    + lia.
    + intros c' e T. rewrite lookup_insert_Some. intros [[_ [= <- _]]|[_ H']]; [lia|].
      apply (ci_cluster s I) in H'. lia.
    + intros c1 c2 e T1 T2. rewrite !lookup_insert_Some.
      intros [[-> [= <- _]]|[_ H1]] [[-> [= E]]|[_ H2]]; subst; try done.
      * apply Hc in H2. lia.
      * apply Hc in H1. lia.
      * by eapply (ci_unique s I).
    + intros t e T H'. apply (ci_thread s I) in H'. lia.
    + intros t c' e T1 T2 H1. rewrite lookup_insert_Some. intros [[_ [= <- _]]|[_ H2]];
        [apply Ht in H1; lia|by eapply (ci_match s I)].
  - unfold Cluster_routing in E. destruct (rc_clusters s !! c) as [[epoch routing]|] eqn:Hc; [|done].
    simpl in E. destruct (rc_threads s !! t) as [[e T]|].
    + destruct (e =? epoch); simplify_eq/=; [done|by eapply refresh_inv].
    + simplify_eq/=. by eapply refresh_inv.
Qed.

(** A thread's cached table is never another cluster's and never out of date:
    whatever was published and looked up before, [routing] returns the table its
    cluster last published. *)
Theorem routing_cache_current s t c e T :
  caches_reachable s -> rc_clusters s !! c = Some (e, T) ->
  exists s', Cluster_routing t c s = Some (s', T).
Proof.
  intros R Hc. pose proof (caches_reachable_inv s R) as I. unfold Cluster_routing. rewrite Hc. simpl.
  destruct (rc_threads s !! t) as [[e' T']|] eqn:Ht; [|eauto].
  destruct (Z.eqb_spec e' e) as [->|]; [|eauto].
  rewrite (ci_match s I t c e T' T Ht Hc). eauto.
Qed.

Lemma routing_cache_current_witness :
  let T1 := RoutingTable_new (Ring_run 2 [RingAdd node_a]) 1 (lit "a") in
  let T2 := RoutingTable_new (Ring_run 2 [RingAdd node_b]) 1 (lit "b") in
  exists s', Cluster_routing 7 2 (publish_epoch 2 T2 (publish_epoch 1 T1 RoutingCaches_new)) = Some (s', T2).
Proof.
  cbv zeta. eapply (routing_cache_current _ 7 2 2).
  - apply caches_publish; [apply caches_publish; [apply caches_new|]|]; vm_compute; reflexivity.
  - vm_compute. reflexivity.
Defined.
