(* ===== verification/Resp.v ===== *)
(** * The RESP2 codec

    Models protocol/resp.cpp and protocol/resp.hpp.  A [string_view] into the
    receive buffer is the list of its bytes; a position in the buffer is the list
    from that position on, and [consumed] is counted from the lengths. *)

From S2P Require Import Prelude Numerals.

Local Open Scope Z_scope.

(** [struct RespValue], one constructor per [Type] with the field it uses. *)
Inductive RespValue :=
  | SimpleString (str : bytes)
  | RespError (str : bytes)
  | RespInteger (integer : Z)
  | BulkString (str : bytes)
  | RespNull
  | RespArray (elements : list RespValue).

(** The [str] field: empty where the constructor does not set it. *)
Definition resp_str (v : RespValue) : bytes :=
  match v with
  | SimpleString s | RespError s | BulkString s => s
  | _ => []
  end.

(** [ParseStatus], with what the call puts in its output arguments. *)
Inductive ParseResult (A : Type) :=
  | POk (value : A) (consumed : nat)
  | PIncomplete
  | PError (message : bytes).

Arguments POk {A}. Arguments PIncomplete {A}. Arguments PError {A}.

Definition kMaxBulkLength : Z := 64 * 1024 * 1024.
Definition kMaxArrayLength : Z := 1024 * 1024.
Definition kMaxInlineLength : Z := 64 * 1024.

Definition CR : ascii := ascii_of_nat 13.
Definition LF : ascii := ascii_of_nat 10.
Definition TAB : ascii := ascii_of_nat 9.
Definition CRLF : bytes := [CR; LF].

(** [find_crlf]: the line before the first CRLF and what follows it. *)
Fixpoint find_crlf (buf : bytes) : option (bytes * bytes) :=
  match buf with
  | [] => None
  | c :: rest =>
      match rest with
      | d :: rest' =>
          if Ascii.eqb c CR && Ascii.eqb d LF then Some ([], rest')
          else '(line, after) ← find_crlf rest; Some (c :: line, after)
      | [] => None
      end
  end.

(** [buf.find('\n')]: the bytes before it and what follows. *)
Fixpoint find_lf (buf : bytes) : option (bytes * bytes) :=
  match buf with
  | [] => None
  | c :: rest =>
      if Ascii.eqb c LF then Some ([], rest)
      else '(line, after) ← find_lf rest; Some (c :: line, after)
  end.

Definition is_blank (c : ascii) : bool := Ascii.eqb c " " || Ascii.eqb c TAB.

(** The token loop of [parse_inline]: [cur] is the token being read, [None]
    between tokens. *)
Fixpoint split_blanks (cur : option bytes) (line : bytes) : list bytes :=
  match line with
  | [] => match cur with Some tok => [tok] | None => [] end
  | c :: rest =>
      if is_blank c
      then match cur with
           | Some tok => tok :: split_blanks None rest
           | None => split_blanks None rest
           end
      else split_blanks (Some (default [] cur ++ [c])) rest
  end.

Definition drop_last_cr (line : bytes) : bytes :=
  match last line with
  | Some c => if Ascii.eqb c CR then removelast line else line
  | None => line
  end.

Definition parse_inline (buf : bytes) : ParseResult (list bytes) :=
  match find_lf buf with
  | None =>
      if kMaxInlineLength <? Z.of_nat (length buf)
      then PError (lit "Protocol error: too big inline request")
      else PIncomplete
  | Some (line, _) =>
      POk (split_blanks None (drop_last_cr line)) (length line + 1)
  end.

(** The argument loop of [parse_request], [n] arguments to go and [buf] the input
    from [pos] on. *)
Fixpoint parse_bulks (n : nat) (buf : bytes) (pos : nat) (args : list bytes) : ParseResult (list bytes) :=
  match n with
  | O => POk args pos
  | S n' =>
      match buf with
      | [] => PIncomplete
      | c :: _ =>
          if negb (Ascii.eqb c "$") then PError (lit "Protocol error: expected '$'")
          else match find_crlf buf with
          | None => PIncomplete
          | Some (line, data) =>
              match parse_int (tail line) with
              | Some len =>
                  if (len <? 0) || (kMaxBulkLength <? len)
                  then PError (lit "Protocol error: invalid bulk length")
                  else if Z.of_nat (length data) <? len + 2 then PIncomplete
                  else match drop (Z.to_nat len) data with
                  | a :: b :: rest =>
                      if Ascii.eqb a CR && Ascii.eqb b LF
                      then parse_bulks n' rest (pos + length line + 2 + Z.to_nat len + 2)
                             (args ++ [take (Z.to_nat len) data])
                      else PError (lit "Protocol error: bulk string not terminated by CRLF")
                  | _ => PIncomplete
                  end
              | None => PError (lit "Protocol error: invalid bulk length")
              end
          end
      end
  end.

(** [parse_request]. *)
Definition parse_request (buf : bytes) : ParseResult (list bytes) :=
  match buf with
  | [] => PIncomplete
  | c :: _ =>
      if negb (Ascii.eqb c "*") then parse_inline buf
      else match find_crlf buf with
      | None => PIncomplete
      | Some (line, rest) =>
          match parse_int (tail line) with
          | Some count =>
              if (count <? 0) || (kMaxArrayLength <? count)
              then PError (lit "Protocol error: invalid multibulk length")
              else parse_bulks (Z.to_nat count) rest (length line + 2) []
          | None => PError (lit "Protocol error: invalid multibulk length")
          end
      end
  end.

(** The element loop of [parse_reply], [n] elements to go. *)
Fixpoint parse_elements (parse : bytes -> option (ParseResult RespValue)) (n : nat)
    (buf : bytes) (pos : nat) (elements : list RespValue) : option (ParseResult RespValue) :=
  match n with
  | O => Some (POk (RespArray elements) pos)
  | S n' =>
      r ← parse buf;
      match r with
      | POk elem used => parse_elements parse n' (drop used buf) (pos + used) (elements ++ [elem])
      | PIncomplete => Some PIncomplete
      | PError e => Some (PError e)
      end
  end.

(** [parse_reply]; [fuel] bounds the nesting, and running out of it is [None].
    Errors carry no message. *)
Fixpoint parse_reply_fuel (fuel : nat) (buf : bytes) : option (ParseResult RespValue) :=
  match fuel with
  | O => None
  | S fuel' =>
      match find_crlf buf with
      | None => Some PIncomplete
      | Some ([], _) => Some (PError [])
      | Some (c :: line, rest) =>
          let eol2 := (length line + 3)%nat in
          if Ascii.eqb c "+" then Some (POk (SimpleString line) eol2)
          else if Ascii.eqb c "-" then Some (POk (RespError line) eol2)
          else if Ascii.eqb c ":" then
            match parse_int line with
            | Some n => Some (POk (RespInteger n) eol2)
            | None => Some (PError [])
            end
          else if Ascii.eqb c "$" then
            match parse_int line with
            | Some len =>
                if (len <? -1) || (kMaxBulkLength <? len) then Some (PError [])
                else if len =? -1 then Some (POk RespNull eol2)
                else if Z.of_nat (length rest) <? len + 2 then Some PIncomplete
                else Some (POk (BulkString (take (Z.to_nat len) rest)) (eol2 + Z.to_nat len + 2))
            | None => Some (PError [])
            end
          else if Ascii.eqb c "*" then
            match parse_int line with
            | Some count =>
                if (count <? -1) || (kMaxArrayLength <? count) then Some (PError [])
                else if count =? -1 then Some (POk RespNull eol2)
                else parse_elements (parse_reply_fuel fuel') (Z.to_nat count) rest eol2 []
            | None => Some (PError [])
            end
          else Some (PError [])
      end
  end.

(** Every nested value is read from a strictly shorter input. *)
Definition parse_reply (buf : bytes) : option (ParseResult RespValue) :=
  parse_reply_fuel (S (length buf)) buf.

(** ** Encoding: [append_*] onto [out] *)

Definition append_simple (out s : bytes) : bytes := out ++ lit "+" ++ s ++ CRLF.
Definition append_error (out s : bytes) : bytes := out ++ lit "-" ++ s ++ CRLF.
Definition append_integer (out : bytes) (n : Z) : bytes := out ++ lit ":" ++ to_dec n ++ CRLF.
Definition append_bulk (out s : bytes) : bytes :=
  out ++ lit "$" ++ to_dec (Z.of_nat (length s)) ++ CRLF ++ s ++ CRLF.
Definition append_null (out : bytes) : bytes := out ++ lit "$-1" ++ CRLF.
Definition append_array_header (out : bytes) (n : Z) : bytes := out ++ lit "*" ++ to_dec n ++ CRLF.

(** [resp::command]. *)
Definition resp_command (args : list bytes) : bytes :=
  foldl append_bulk (append_array_header [] (Z.of_nat (length args))) args.

(** A reply as the server's handlers build it from the [append_*] functions. *)
Fixpoint append_value (out : bytes) (v : RespValue) : bytes :=
  match v with
  | SimpleString s => append_simple out s
  | RespError s => append_error out s
  | RespInteger n => append_integer out n
  | BulkString s => append_bulk out s
  | RespNull => append_null out
  | RespArray l => foldl append_value (append_array_header out (Z.of_nat (length l))) l
  end.

(** ** Lines *)

Lemma find_crlf_cons c d rest :
  find_crlf (c :: d :: rest) =
  if Ascii.eqb c CR && Ascii.eqb d LF then Some ([], rest)
  else '(line, after) ← find_crlf (d :: rest); Some (c :: line, after).
Proof. done. Qed.

(** A line without a CRLF, terminated by one, is found. *)
Lemma find_crlf_line line rest :
  find_crlf line = None -> find_crlf (line ++ CRLF ++ rest) = Some (line, rest).
Proof.
  induction line as [|c line IH]; intros H; [done|].
  destruct line as [|d line].
  - change (([c] ++ CRLF ++ rest)) with (c :: CR :: LF :: rest). rewrite find_crlf_cons.
    change (Ascii.eqb CR LF) with false. rewrite andb_false_r. done.
  - rewrite find_crlf_cons in H. change ((c :: d :: line) ++ CRLF ++ rest) with (c :: d :: (line ++ CRLF ++ rest)).
    rewrite find_crlf_cons. destruct (Ascii.eqb c CR && Ascii.eqb d LF) eqn:E; rewrite ?E in H; [done|].
    change (d :: (line ++ CRLF ++ rest)) with ((d :: line) ++ CRLF ++ rest).
    rewrite IH; [done|]. by destruct (find_crlf (d :: line)) as [[]|].
Qed.

(** What is found is the first CRLF. *)
Lemma find_crlf_Some buf line rest :
  find_crlf buf = Some (line, rest) -> buf = line ++ CRLF ++ rest.
Proof.
  revert line. induction buf as [|c buf IH]; intros line H; [done|].
  destruct buf as [|d buf]; [done|]. rewrite find_crlf_cons in H.
  destruct (Ascii.eqb_spec c CR) as [->|]; [destruct (Ascii.eqb_spec d LF) as [->|]|]; cbn [andb] in H.
  - by injection H as <- <-.
  - destruct (find_crlf (d :: buf)) as [[l a]|]; [|done]. injection H as <- <-. simpl. by rewrite (IH l).
  - destruct (find_crlf (d :: buf)) as [[l a]|]; [|done]. injection H as <- <-. simpl. by rewrite (IH l).
Qed.

Lemma find_crlf_app buf line rest more :
  find_crlf buf = Some (line, rest) -> find_crlf (buf ++ more) = Some (line, rest ++ more).
Proof.
  revert line. induction buf as [|c buf IH]; intros line H; [done|].
  destruct buf as [|d buf]; [done|]. rewrite find_crlf_cons in H.
  change ((c :: d :: buf) ++ more) with (c :: d :: (buf ++ more)). rewrite find_crlf_cons.
  destruct (Ascii.eqb c CR && Ascii.eqb d LF); [by injection H as <- <-|].
  destruct (find_crlf (d :: buf)) as [[l a]|]; [|done]. injection H as <- <-.
  change (d :: (buf ++ more)) with ((d :: buf) ++ more). by rewrite (IH l).
Qed.

Lemma find_crlf_length buf line rest :
  find_crlf buf = Some (line, rest) -> length buf = (length line + 2 + length rest)%nat.
Proof. intros ->%find_crlf_Some. rewrite !length_app. simpl. lia. Qed.

Lemma find_lf_app buf line rest more :
  find_lf buf = Some (line, rest) -> find_lf (buf ++ more) = Some (line, rest ++ more).
Proof.
  revert line. induction buf as [|c buf IH]; intros line H; [done|]. simpl in *.
  destruct (Ascii.eqb c LF); [by injection H as <- <-|].
  destruct (find_lf buf) as [[l a]|]; [|done]. injection H as <- <-. by rewrite (IH l).
Qed.

Lemma find_lf_length buf line rest :
  find_lf buf = Some (line, rest) -> length buf = (length line + 1 + length rest)%nat.
Proof.
  revert line. induction buf as [|c buf IH]; intros line H; [done|]. simpl in *.
  destruct (Ascii.eqb c LF); [by injection H as <- <-|].
  destruct (find_lf buf) as [[l a]|]; [|done]. injection H as <- <-. rewrite (IH l) by done. done.
Qed.

(** Printed numbers contain no line ends. *)
Lemma no_cr_find_crlf s : forallb (fun c => negb (Ascii.eqb c CR)) s = true -> find_crlf s = None.
Proof.
  induction s as [|c s IH]; intros H; [done|]. simpl in H. apply andb_true_iff in H as [Hc Hs].
  destruct s as [|d s]; [done|]. rewrite find_crlf_cons. apply negb_true_iff in Hc. rewrite Hc. cbn [andb].
  by rewrite IH.
Qed.

Lemma to_dec_no_crlf (c : ascii) n : Ascii.eqb c CR = false -> find_crlf (c :: to_dec n) = None.
Proof.
  intros Hc. apply no_cr_find_crlf. cbn [forallb]. rewrite Hc. simpl.
  pose proof (to_dec_chars n) as H. apply forallb_forall. intros x Hx. rewrite forallb_forall in H.
  specialize (H x Hx). destruct (Ascii.eqb_spec x CR) as [->|]; [|done]. by vm_compute in H.
Qed.

(** ** Requests: what was decided stays decided *)

(** Appending input does not change an [Ok] or an error. *)
Definition stable {A} (r r' : ParseResult A) : Prop := r = PIncomplete \/ r' = r.

Lemma parse_bulks_step n buf pos args :
  parse_bulks (S n) buf pos args =
  match buf with
  | [] => PIncomplete
  | c :: _ =>
      if negb (Ascii.eqb c "$") then PError (lit "Protocol error: expected '$'")
      else match find_crlf buf with
      | None => PIncomplete
      | Some (line, data) =>
          match parse_int (tail line) with
          | Some len =>
              if (len <? 0) || (kMaxBulkLength <? len)
              then PError (lit "Protocol error: invalid bulk length")
              else if Z.of_nat (length data) <? len + 2 then PIncomplete
              else match drop (Z.to_nat len) data with
              | a :: b :: rest =>
                  if Ascii.eqb a CR && Ascii.eqb b LF
                  then parse_bulks n rest (pos + length line + 2 + Z.to_nat len + 2)
                         (args ++ [take (Z.to_nat len) data])
                  else PError (lit "Protocol error: bulk string not terminated by CRLF")
              | _ => PIncomplete
              end
          | None => PError (lit "Protocol error: invalid bulk length")
          end
      end
  end.
Proof. done. Qed.

Lemma parse_bulks_stable n buf pos args more :
  stable (parse_bulks n buf pos args) (parse_bulks n (buf ++ more) pos args) /\
  (forall l p, parse_bulks n buf pos args = POk l p -> (pos <= p <= pos + length buf)%nat).
Proof.
  revert buf pos args. induction n as [|n IH]; intros buf pos args.
  { split; [by right|]. intros l p [= _ <-]. lia. }
  rewrite !parse_bulks_step. destruct buf as [|c buf]; [split; [by left|done]|].
  change ((c :: buf) ++ more) with (c :: (buf ++ more)). cbv iota beta.
  destruct (negb (Ascii.eqb c "$")); [split; [by right|done]|].
  change (c :: (buf ++ more)) with ((c :: buf) ++ more).
  destruct (find_crlf (c :: buf)) as [[line data]|] eqn:E; [|split; [by left|done]].
  rewrite (find_crlf_app _ _ _ more E). apply find_crlf_length in E.
  destruct (parse_int (tail line)) as [len|]; [|split; [by right|done]].
  destruct ((len <? 0) || (kMaxBulkLength <? len)) eqn:Hl; [split; [by right|done]|].
  destruct (Z.of_nat (length data) <? len + 2) eqn:Hd; [split; [by left|done]|]. bool_facts.
  rewrite (proj2 (Z.ltb_ge _ _)) by (rewrite length_app; lia).
  rewrite drop_app_le, take_app_le by lia.
  destruct (drop (Z.to_nat len) data) as [|a [|b rest]] eqn:Hr;
    [apply (f_equal length) in Hr; rewrite length_drop in Hr; simpl in Hr; lia..|].
  apply (f_equal length) in Hr. rewrite length_drop in Hr. simpl in Hr.
  change ((a :: b :: rest) ++ more) with (a :: b :: (rest ++ more)). cbv iota beta.
  destruct (Ascii.eqb a CR && Ascii.eqb b LF); [|split; [by right|done]].
  destruct (IH rest (pos + length line + 2 + Z.to_nat len + 2)%nat
    (args ++ [take (Z.to_nat len) data])) as [I1 I2].
  split; [exact I1|]. intros l p Hok. specialize (I2 l p Hok). lia.
Qed.

Lemma parse_inline_stable buf more l p :
  parse_inline buf = POk l p ->
  parse_inline (buf ++ more) = POk l p /\ (0 < p <= length buf)%nat.
Proof.
  unfold parse_inline. destruct (find_lf buf) as [[line rest]|] eqn:E; [|by case_match].
  rewrite (find_lf_app _ _ _ more E). apply find_lf_length in E.
  intros [= <- <-]. split; [done|]. lia.
Qed.

Lemma parse_request_multibulk buf :
  head buf = Some "*"%char ->
  parse_request buf =
  match find_crlf buf with
  | None => PIncomplete
  | Some (line, rest) =>
      match parse_int (tail line) with
      | Some count =>
          if (count <? 0) || (kMaxArrayLength <? count)
          then PError (lit "Protocol error: invalid multibulk length")
          else parse_bulks (Z.to_nat count) rest (length line + 2) []
      | None => PError (lit "Protocol error: invalid multibulk length")
      end
  end.
Proof. destruct buf as [|c buf]; [done|]. by intros [= ->]. Qed.

(** A multibulk request is decided once and for all. *)
Lemma multibulk_stable buf more :
  head buf = Some "*"%char ->
  stable (parse_request buf) (parse_request (buf ++ more)) /\
  (forall l p, parse_request buf = POk l p -> (0 < p <= length buf)%nat).
Proof.
  intros Hh. rewrite !parse_request_multibulk by (by destruct buf).
  destruct (find_crlf buf) as [[line rest]|] eqn:E; [|split; [by left|done]].
  rewrite (find_crlf_app _ _ _ more E). apply find_crlf_length in E.
  destruct (parse_int (tail line)) as [count|]; [|split; [by right|done]].
  case_match; [split; [by right|done]|].
  destruct (parse_bulks_stable (Z.to_nat count) rest (length line + 2) [] more) as [S B].
  split; [done|]. intros l p Hok. specialize (B l p Hok). lia.
Qed.

(** ** Requests: round trips *)

(** What fits the protocol's limits. *)
Definition bulk_ok (s : bytes) : Prop := Z.of_nat (length s) <= kMaxBulkLength.
Definition args_ok (args : list bytes) : Prop :=
  Z.of_nat (length args) <= kMaxArrayLength /\ Forall bulk_ok args.

Lemma append_bulk_app out s : append_bulk out s = out ++ append_bulk [] s.
Proof. unfold append_bulk. by rewrite app_nil_l. Qed.

Lemma foldl_append_bulk out args :
  foldl append_bulk out args = out ++ concat (append_bulk [] <$> args).
Proof.
  revert out. induction args as [|a args IH]; intros out; cbn [foldl]; [by rewrite app_nil_r|].
  rewrite IH, append_bulk_app, fmap_cons. cbn [concat]. by rewrite app_assoc.
Qed.

(** The length line of a bulk string, or the count line of an array. *)
Lemma find_header (c : ascii) n rest :
  Ascii.eqb c CR = false -> find_crlf ([c] ++ to_dec n ++ CRLF ++ rest) = Some (c :: to_dec n, rest).
Proof. intros Hc. apply (find_crlf_line (c :: to_dec n)). by apply to_dec_no_crlf. Qed.

Lemma to_dec_length n : 0 <= n < 2 ^ 63 -> parse_int (to_dec n) = Some n.
Proof. intros H. apply parse_int_to_dec. lia. Qed.

Lemma bulk_bytes_length s :
  length (append_bulk [] s) = (length (to_dec (Z.of_nat (length s))) + length s + 5)%nat.
Proof. unfold append_bulk. rewrite app_nil_l, !length_app. simpl. lia. Qed.

Lemma parse_bulks_one n s rest pos args :
  bulk_ok s ->
  parse_bulks (S n) (append_bulk [] s ++ rest) pos args =
  parse_bulks n rest (pos + length (append_bulk [] s)) (args ++ [s]).
Proof.
  intros Hs. rewrite bulk_bytes_length. unfold append_bulk. rewrite app_nil_l, <-!app_assoc.
  rewrite parse_bulks_step. change (lit "$") with ["$"%char].
  change (["$"%char] ++ to_dec (Z.of_nat (length s)) ++ CRLF ++ s ++ CRLF ++ rest)
    with ("$"%char :: (to_dec (Z.of_nat (length s)) ++ CRLF ++ s ++ CRLF ++ rest)) at 1.
  cbv iota beta. change (negb (Ascii.eqb "$" "$")) with false. cbv iota beta.
  rewrite find_header by done. cbn [tail]. unfold bulk_ok, kMaxBulkLength in *.
  rewrite to_dec_length by lia.
  rewrite (proj2 (Z.ltb_ge _ 0)), (proj2 (Z.ltb_ge _ (Z.of_nat (length s)))) by lia. cbn [orb].
  rewrite (proj2 (Z.ltb_ge _ (Z.of_nat (length s) + 2))) by (rewrite !length_app; simpl; lia).
  rewrite Nat2Z.id, drop_app_length, take_app_length. simpl. f_equal. lia.
Qed.

Lemma parse_bulks_all args rest pos acc :
  Forall bulk_ok args ->
  parse_bulks (length args) (concat (append_bulk [] <$> args) ++ rest) pos acc =
  POk (acc ++ args) (pos + length (concat (append_bulk [] <$> args))).
Proof.
  intros H. revert pos acc. induction H as [|s args Hs _ IH]; intros pos acc.
  { simpl. by rewrite app_nil_r, Nat.add_0_r. }
  cbn [length]. rewrite fmap_cons. cbn [concat]. rewrite <-app_assoc, parse_bulks_one, IH by done.
  rewrite <-app_assoc, length_app. simpl. f_equal. lia.
Qed.

Lemma resp_command_eq args :
  resp_command args =
  ["*"%char] ++ to_dec (Z.of_nat (length args)) ++ CRLF ++ concat (append_bulk [] <$> args).
Proof.
  unfold resp_command, append_array_header. rewrite foldl_append_bulk, app_nil_l. simpl.
  by rewrite <-!app_assoc.
Qed.

Lemma parse_command args rest :
  args_ok args -> parse_request (resp_command args ++ rest) = POk args (length (resp_command args)).
Proof.
  intros [Hl Hb]. rewrite resp_command_eq, <-!app_assoc. rewrite parse_request_multibulk by done.
  rewrite find_header by done. cbn [tail]. unfold kMaxArrayLength in *. rewrite to_dec_length by lia.
  rewrite (proj2 (Z.ltb_ge _ 0)), (proj2 (Z.ltb_ge _ (Z.of_nat (length args)))) by lia. cbn [orb].
  rewrite Nat2Z.id, parse_bulks_all by done. f_equal. rewrite !length_app. simpl. lia.
Qed.

(** ** Replies: totality, fuel and stability *)

(** A parser is fine on inputs up to [m]: it answers, and what it accepts lies
    within the input. *)
Definition parses_upto (m : nat) (parse : bytes -> option (ParseResult RespValue)) : Prop :=
  forall buf, (length buf <= m)%nat ->
    exists r, parse buf = Some r /\ forall v n, r = POk v n -> (0 < n <= length buf)%nat.

Lemma parse_elements_total m parse n buf pos acc :
  parses_upto m parse -> (length buf <= m)%nat ->
  exists r, parse_elements parse n buf pos acc = Some r /\
    forall v p, r = POk v p -> (pos <= p <= pos + length buf)%nat.
Proof.
  intros HP. revert buf pos acc. induction n as [|n IH]; intros buf pos acc Hb; simpl.
  { eexists. split; [done|]. intros v p [= _ <-]. lia. }
  destruct (HP buf Hb) as (r & -> & Hr). simpl. destruct r as [v used| |e]; [|by eexists..].
  specialize (Hr v used eq_refl).
  destruct (IH (drop used buf) (pos + used)%nat (acc ++ [v])) as (r & -> & Hr').
  { rewrite length_drop. lia. }
  eexists. split; [done|]. intros v' p E. specialize (Hr' v' p E). rewrite length_drop in Hr'. lia.
Qed.

Lemma parse_reply_fuel_total fuel : forall m, (m < fuel)%nat -> parses_upto m (parse_reply_fuel fuel).
Proof.
  induction fuel as [|fuel IH]; intros m Hm buf Hb; [lia|]. cbn [parse_reply_fuel].
  destruct (find_crlf buf) as [[[|c line] rest]|] eqn:E; [by eexists| |by eexists].
  apply find_crlf_length in E. cbn [length] in E.
  assert (Hel : forall n, exists r, parse_elements (parse_reply_fuel fuel) n rest (length line + 3) [] = Some r /\
    forall v p, r = POk v p -> (length line + 3 <= p <= length line + 3 + length rest)%nat).
  { intros n. apply (parse_elements_total (length rest)); [apply IH; lia|done]. }
  repeat case_match; try (eexists; split; [done|]; intros v n [= <- <-]; bool_facts; lia);
    try by eexists.
  destruct (Hel (Z.to_nat z)) as (r & -> & Hr). eexists. split; [done|]. intros v n Ev.
  specialize (Hr v n Ev). lia.
Qed.

Lemma parse_elements_mono (parse parse' : bytes -> option (ParseResult RespValue)) n buf pos acc r :
  (forall b x, parse b = Some x -> parse' b = Some x) ->
  parse_elements parse n buf pos acc = Some r -> parse_elements parse' n buf pos acc = Some r.
Proof.
  intros HP. revert buf pos acc. induction n as [|n IH]; intros buf pos acc; simpl; [done|].
  destruct (parse buf) as [x|] eqn:E; [|done]. rewrite (HP _ _ E). simpl. destruct x; auto.
Qed.

Lemma parse_reply_fuel_mono fuel fuel' buf r :
  (fuel <= fuel')%nat -> parse_reply_fuel fuel buf = Some r -> parse_reply_fuel fuel' buf = Some r.
Proof.
  revert fuel' buf r. induction fuel as [|fuel IH]; intros fuel' buf r Hf H; [done|].
  destruct fuel' as [|fuel']; [lia|]. cbn [parse_reply_fuel] in *.
  repeat case_match; try done. revert H. apply parse_elements_mono. intros b x. apply IH. lia.
Qed.

(** Any sufficient fuel gives [parse_reply]'s answer. *)
Lemma parse_reply_any fuel buf r : parse_reply_fuel fuel buf = Some r -> parse_reply buf = Some r.
Proof.
  intros H. unfold parse_reply.
  destruct (parse_reply_fuel_total (S (length buf)) (length buf) ltac:(lia) buf ltac:(lia)) as (r' & E & _).
  rewrite E. apply (parse_reply_fuel_mono _ (fuel `max` S (length buf))) in H; [|lia].
  apply (parse_reply_fuel_mono _ (fuel `max` S (length buf))) in E; [|lia]. congruence.
Qed.

Lemma parse_elements_stable parse n buf pos acc more :
  (forall b r, parse b = Some r -> r <> PIncomplete -> parse (b ++ more) = Some r) ->
  (forall b v p, parse b = Some (POk v p) -> (p <= length b)%nat) ->
  forall r, parse_elements parse n buf pos acc = Some r -> r <> PIncomplete ->
  parse_elements parse n (buf ++ more) pos acc = Some r.
Proof.
  intros HP HB. revert buf pos acc. induction n as [|n IH]; intros buf pos acc r; simpl; [done|].
  destruct (parse buf) as [x|] eqn:E; [|done]. simpl. intros H Hr.
  destruct x as [v used| |e]; [|by simplify_eq/=|].
  - rewrite (HP _ _ E) by done. simpl. rewrite drop_app_le by (by eapply HB). by apply IH.
  - by rewrite (HP _ _ E).
Qed.

Lemma parse_reply_fuel_bound fuel buf v p :
  parse_reply_fuel fuel buf = Some (POk v p) -> (0 < p <= length buf)%nat.
Proof.
  intros H. destruct (parse_reply_fuel_total (fuel `max` S (length buf)) (length buf) ltac:(lia) buf)
    as (r & E & Hr); [lia|].
  rewrite (parse_reply_fuel_mono fuel _ buf (POk v p)) in E; [|lia|done]. simplify_eq. by apply (Hr v p).
Qed.

Lemma parse_reply_fuel_stable fuel buf more r :
  parse_reply_fuel fuel buf = Some r -> r <> PIncomplete -> parse_reply_fuel fuel (buf ++ more) = Some r.
Proof.
  revert buf r. induction fuel as [|fuel IH]; intros buf r H Hr; [done|]. cbn [parse_reply_fuel] in *.
  destruct (find_crlf buf) as [[line0 rest]|] eqn:E; [|by simplify_eq].
  rewrite (find_crlf_app _ _ _ more E). destruct line0 as [|c line]; [done|].
  repeat case_match; try done; bool_facts; try (rewrite length_app in *; simplify_eq; lia).
  - by rewrite take_app_le by lia.
  - revert H Hr. apply parse_elements_stable; [apply IH|]. intros b v p Hb.
    apply parse_reply_fuel_bound in Hb. lia.
Qed.

(** ** Replies: round trips *)

(** Induction on nested arrays. *)
Lemma RespValue_nested_ind (P : RespValue -> Prop) :
  (forall s, P (SimpleString s)) -> (forall s, P (RespError s)) -> (forall n, P (RespInteger n)) ->
  (forall s, P (BulkString s)) -> P RespNull -> (forall l, Forall P l -> P (RespArray l)) ->
  forall v, P v.
Proof.
  intros H1 H2 H3 H4 H5 H6. fix IH 1. intros [s|s|n|s| |l];
    [apply H1|apply H2|apply H3|apply H4|apply H5|]. apply H6. induction l as [|v l IHl]; constructor; [apply IH|apply IHl].
Qed.

(** Values the encoder writes unambiguously: no CRLF in a line, numbers of 64
    bits, sizes within the limits. *)
Inductive resp_wf : RespValue -> Prop :=
  | wf_simple s : find_crlf s = None -> resp_wf (SimpleString s)
  | wf_error s : find_crlf s = None -> resp_wf (RespError s)
  | wf_integer n : - 2 ^ 63 <= n < 2 ^ 63 -> resp_wf (RespInteger n)
  | wf_bulk s : bulk_ok s -> resp_wf (BulkString s)
  | wf_null : resp_wf RespNull
  | wf_array l : Z.of_nat (length l) <= kMaxArrayLength -> Forall resp_wf l -> resp_wf (RespArray l).

Lemma append_value_app v out : append_value out v = out ++ append_value [] v.
Proof.
  revert out. induction v as [s|s|n|s| |l IH] using RespValue_nested_ind; intros out; try done.
  cbn [append_value].
  assert (H : forall o, foldl append_value o l = o ++ concat (append_value [] <$> l)).
  { induction IH as [|v l Hv _ IHl]; intros o; cbn [foldl]; [by rewrite app_nil_r|].
    rewrite IHl, Hv, fmap_cons. cbn [concat]. by rewrite app_assoc. }
  rewrite !H. unfold append_array_header. by rewrite app_nil_l, <-!app_assoc.
Qed.

Lemma append_values l o : foldl append_value o l = o ++ concat (append_value [] <$> l).
Proof.
  revert o. induction l as [|v l IH]; intros o; cbn [foldl]; [by rewrite app_nil_r|].
  rewrite IH, append_value_app, fmap_cons. cbn [concat]. by rewrite app_assoc.
Qed.

Lemma find_line (c : ascii) s rest :
  Ascii.eqb c CR = false -> find_crlf s = None -> find_crlf ([c] ++ s ++ CRLF ++ rest) = Some (c :: s, rest).
Proof.
  intros Hc Hs. apply (find_crlf_line (c :: s)). destruct s as [|d s]; [done|].
  rewrite find_crlf_cons, Hc. cbn [andb]. by rewrite Hs.
Qed.

(** Enough fuel for a value: its nesting. *)
Fixpoint depth (v : RespValue) : nat :=
  match v with
  | RespArray l => S (foldr (fun x m => depth x `max` m) 0 l)%nat
  | _ => 1
  end.

Lemma parse_elements_all parse l rest pos acc :
  Forall (fun v => forall rest, parse (append_value [] v ++ rest) =
            Some (POk v (length (append_value [] v)))) l ->
  parse_elements parse (length l) (concat (append_value [] <$> l) ++ rest) pos acc =
  Some (POk (RespArray (acc ++ l)) (pos + length (concat (append_value [] <$> l)))).
Proof.
  intros H. revert pos acc. induction H as [|v l Hv _ IH]; intros pos acc.
  { simpl. by rewrite app_nil_r, Nat.add_0_r. }
  cbn [length parse_elements]. rewrite fmap_cons. cbn [concat]. rewrite <-app_assoc, Hv. simpl.
  rewrite drop_app_length, IH, <-app_assoc, length_app. simpl. do 2 f_equal. lia.
Qed.

Lemma parse_value_fuel fuel v rest :
  resp_wf v -> (depth v <= fuel)%nat ->
  parse_reply_fuel fuel (append_value [] v ++ rest) = Some (POk v (length (append_value [] v))).
Proof.
  revert v rest. induction fuel as [|fuel IH]; intros v rest W Hd; [destruct v; simpl in Hd; lia|].
  cbn [parse_reply_fuel]. destruct W as [s Hs|s Hs|n Hn|s Hs| |l Hl HF]; cbn [append_value].
  - unfold append_simple. rewrite app_nil_l, <-!app_assoc. rewrite (find_line "+") by done. simpl.
    do 2 f_equal. rewrite length_app. simpl. lia.
  - unfold append_error. rewrite app_nil_l, <-!app_assoc. rewrite (find_line "-") by done. simpl.
    do 2 f_equal. rewrite length_app. simpl. lia.
  - unfold append_integer. rewrite app_nil_l, <-!app_assoc. rewrite (find_header ":") by done. simpl.
    rewrite parse_int_to_dec by done. do 2 f_equal. rewrite length_app. simpl. lia.
  - unfold append_bulk. rewrite app_nil_l, <-!app_assoc. rewrite (find_header "$") by done. simpl.
    unfold bulk_ok, kMaxBulkLength in *. rewrite to_dec_length by lia.
    rewrite (proj2 (Z.ltb_ge _ (-1))), (proj2 (Z.ltb_ge _ (Z.of_nat (length s)))) by lia. cbn [orb].
    rewrite (proj2 (Z.eqb_neq _ _)) by lia.
    rewrite (proj2 (Z.ltb_ge _ (Z.of_nat (length s) + 2))) by (rewrite !length_app; simpl; lia).
    rewrite Nat2Z.id, take_app_length. do 2 f_equal. rewrite !length_app. simpl. rewrite length_app. simpl. lia.
  - done.
  - rewrite append_values. unfold append_array_header. rewrite app_nil_l, <-!app_assoc.
    rewrite (find_header "*") by done. simpl. unfold kMaxArrayLength in *. rewrite to_dec_length by lia.
    rewrite (proj2 (Z.ltb_ge _ (-1))), (proj2 (Z.ltb_ge _ (Z.of_nat (length l)))) by lia. cbn [orb].
    rewrite (proj2 (Z.eqb_neq _ _)) by lia. rewrite Nat2Z.id, parse_elements_all.
    + do 2 f_equal. rewrite !length_app. simpl. lia.
    + simpl in Hd. clear Hl. induction HF as [|v l Hv _ IHl]; constructor.
      * intros rest'. apply IH; [done|]. simpl in Hd. lia.
      * apply IHl. simpl in Hd. lia.
Qed.

(** ** What is accepted fits the limits *)

Lemma parse_bulks_args n buf pos acc l p :
  Forall bulk_ok acc -> parse_bulks n buf pos acc = POk l p ->
  Forall bulk_ok l /\ length l = (length acc + n)%nat.
Proof.
  revert buf pos acc. induction n as [|n IH]; intros buf pos acc HF H.
  { simpl in H. injection H as <- <-. split; [done|lia]. }
  rewrite parse_bulks_step in H. repeat case_match; try done. bool_facts.
  apply IH in H as [I1 I2].
  - split; [done|]. rewrite length_app in I2. simpl in I2. lia.
  - apply Forall_app. split; [done|]. apply Forall_singleton. unfold bulk_ok, kMaxBulkLength in *.
    rewrite length_take. lia.
Qed.

Lemma split_blanks_sizes line cur :
  (length (split_blanks cur line) <= length line + (if cur is Some _ then 1 else 0))%nat /\
  Forall (fun tok => (length tok <= length line + length (default [] cur))%nat) (split_blanks cur line).
Proof.
  revert cur. induction line as [|c line IH]; intros cur; simpl.
  { destruct cur; simpl; split; try lia; repeat constructor; simpl; lia. }
  destruct (is_blank c).
  - destruct (IH None) as [I1 I2]. destruct cur as [tok|]; simpl in *.
    + split; [lia|]. constructor; [lia|]. eapply Forall_impl; [exact I2|]. simpl. lia.
    + split; [lia|]. eapply Forall_impl; [exact I2|]. simpl. lia.
  - destruct (IH (Some (default [] cur ++ [c]))) as [I1 I2]. simpl in *. split; [destruct cur; lia|].
    eapply Forall_impl; [exact I2|]. intros tok. simpl. rewrite length_app. simpl. lia.
Qed.

Lemma drop_last_cr_length line : (length (drop_last_cr line) <= length line)%nat.
Proof.
  unfold drop_last_cr. repeat case_match; try lia. rewrite removelast_firstn_len, length_take. lia.
Qed.

Lemma accepted_args_ok buf args n :
  parse_request buf = POk args n ->
  head buf = Some "*"%char \/ Z.of_nat (length buf) <= kMaxArrayLength -> args_ok args.
Proof.
  intros H Hor. destruct (decide (head buf = Some "*"%char)) as [Hh|Hh].
  - rewrite parse_request_multibulk in H by done. repeat case_match; try done. bool_facts.
    apply parse_bulks_args in H as [I1 I2]; [|constructor]. split; [|done]. simpl in I2. lia.
  - destruct Hor as [?|Hl]; [done|]. destruct buf as [|c buf]; [done|]. simpl in H, Hh.
    destruct (Ascii.eqb_spec c "*") as [->|]; [done|]. simpl in H. unfold parse_inline in H.
    destruct (find_lf (c :: buf)) as [[line rest]|] eqn:E; [|by repeat case_match].
    apply find_lf_length in E. injection H as <- <-.
    pose proof (split_blanks_sizes (drop_last_cr line) None) as [S1 S2]. simpl in S1, S2.
    pose proof (drop_last_cr_length line). unfold args_ok, bulk_ok, kMaxBulkLength, kMaxArrayLength in *.
    split; [lia|]. eapply Forall_impl; [exact S2|]. intros tok Ht. cbv beta in Ht. lia.
Qed.

(** ** Properties *)

(** C11: Every command survives the wire: whatever bytes its arguments hold, and
    whatever follows it in the buffer, the server's parser returns exactly the
    arguments and consumes exactly the command; and on every strict prefix of it
    the parser asks for more input. *)
Theorem resp_request_roundtrip args :
  args_ok args ->
  (forall rest, parse_request (resp_command args ++ rest) = POk args (length (resp_command args))) /\
  (forall p q, resp_command args = p ++ q -> q <> [] -> parse_request p = PIncomplete).
Proof.
  intros Hok. split; [intros rest; by apply parse_command|]. intros p q E Hq.
  destruct p as [|c p]; [done|].
  assert (Hh : head (c :: p) = Some "*"%char) by (rewrite resp_command_eq in E; simplify_eq/=; done).
  destruct (multibulk_stable (c :: p) q Hh) as [[?|S] B]; [done|]. rewrite <-E in S.
  pose proof (parse_command args [] Hok) as P. rewrite app_nil_r, S in P.
  specialize (B _ _ P). rewrite E, length_app in B. destruct q; [done|]. simpl in B. lia.
Qed.

(** Parsing is incremental: a request accepted from the buffer is the same,
    and takes the same bytes, however much input follows; a malformed array
    request stays malformed; and a request never takes more bytes than there
    are, or none. *)
Theorem resp_request_incremental buf more :
  (forall args n, parse_request buf = POk args n ->
     parse_request (buf ++ more) = POk args n /\ (0 < n <= length buf)%nat) /\
  (forall e, head buf = Some "*"%char -> parse_request buf = PError e ->
     parse_request (buf ++ more) = PError e).
Proof.
  destruct (decide (head buf = Some "*"%char)) as [Hh|Hh].
  - destruct (multibulk_stable buf more Hh) as [[S|S] B]; split; intros; try congruence.
    split; [congruence|by eapply B].
  - split; [|done]. intros args n. destruct buf as [|c buf]; [done|].
    change ((c :: buf) ++ more) with (c :: (buf ++ more)). unfold parse_request.
    destruct (Ascii.eqb_spec c "*") as [->|]; [done|]. simpl negb. cbv iota.
    change (c :: (buf ++ more)) with ((c :: buf) ++ more). apply parse_inline_stable.
Qed.

(** What the parser accepts it can re-read: the arguments of any accepted
    array request, and of any inline request of at most a megabyte, encoded as a
    command parse back to themselves. *)
Theorem resp_accepted_reencodes buf args n :
  parse_request buf = POk args n ->
  head buf = Some "*"%char \/ Z.of_nat (length buf) <= kMaxArrayLength ->
  parse_request (resp_command args) = POk args (length (resp_command args)).
Proof.
  intros H Hor. rewrite <-(app_nil_r (resp_command args)) at 1.
  by apply parse_command, (accepted_args_ok buf args n).
Qed.

(** The reply parser always answers, on any bytes and any nesting, and never
    claims more bytes than there are; an answer other than "incomplete" does not
    change when more input arrives. *)
Theorem resp_reply_total buf :
  exists r, parse_reply buf = Some r /\
    (forall v n, r = POk v n -> (0 < n <= length buf)%nat) /\
    (forall more, r <> PIncomplete -> parse_reply (buf ++ more) = Some r).
Proof.
  destruct (parse_reply_fuel_total (S (length buf)) (length buf) ltac:(lia) buf ltac:(lia)) as (r & E & B).
  exists r. split; [done|]. split; [done|]. intros more Hr.
  by eapply parse_reply_any, parse_reply_fuel_stable.
Qed.

(** A reply, and every part of one, on the wire. *)
Lemma reply_wire v :
  resp_wf v ->
  (forall rest, parse_reply (append_value [] v ++ rest) = Some (POk v (length (append_value [] v)))) /\
  (forall p q, append_value [] v = p ++ q -> q <> [] -> parse_reply p = Some PIncomplete).
Proof.
  intros W. assert (R : forall rest, parse_reply (append_value [] v ++ rest) =
    Some (POk v (length (append_value [] v)))).
  { intros rest. apply (parse_reply_any (depth v)). by apply parse_value_fuel. }
  split; [done|]. intros p q E Hq.
  destruct (parse_reply_fuel_total (S (length p)) (length p) ltac:(lia) p ltac:(lia)) as (r & Ep & B).
  unfold parse_reply. rewrite Ep. destruct r as [v' n| |e]; [|done|]; exfalso.
  - pose proof (parse_reply_fuel_stable _ _ q _ Ep ltac:(done)) as S.
    apply parse_reply_any in S. specialize (R []). rewrite app_nil_r, E, S in R. simplify_eq.
    specialize (B _ _ eq_refl). rewrite length_app in B. destruct q; [done|]. simpl in B. lia.
  - pose proof (parse_reply_fuel_stable _ _ q _ Ep ltac:(done)) as S.
    apply parse_reply_any in S. specialize (R []). rewrite app_nil_r, E, S in R. done.
Qed.

(** Every reply survives the wire, nested arrays included: the peer's parser
    returns the value the server wrote and consumes exactly its bytes, and asks
    for more on every strict prefix. *)
Theorem resp_reply_roundtrip v :
  resp_wf v ->
  (forall rest, parse_reply (append_value [] v ++ rest) = Some (POk v (length (append_value [] v)))) /\
  (forall p q, append_value [] v = p ++ q -> q <> [] -> parse_reply p = Some PIncomplete).
Proof. apply reply_wire. Qed.

(** *** Inline requests beyond the limits *)

Lemma find_lf_line s rest : Forall (fun c => c <> LF) s -> find_lf (s ++ LF :: rest) = Some (s, rest).
Proof.
  induction 1 as [|c s Hc _ IH]; [done|]. simpl.
  destruct (Ascii.eqb_spec c LF); [done|]. by rewrite IH.
Qed.

Lemma drop_last_cr_none s : Forall (fun c => c <> CR) s -> drop_last_cr s = s.
Proof.
  intros HF. unfold drop_last_cr. destruct (last s) as [c|] eqn:E; [|done].
  destruct (Ascii.eqb_spec c CR) as [->|]; [|done]. exfalso.
  apply last_Some in E as [l ->]. apply Forall_app in HF as [_ HF]. by inversion HF.
Qed.

(** [n] one-letter words, each after a blank. *)
Definition words (n : nat) : bytes := concat (replicate n (lit " a")).

Lemma words_chars (P : ascii -> Prop) n : P " "%char -> P "a"%char -> Forall P (words n).
Proof. intros. induction n; [constructor|]. repeat (constructor; [done|]). done. Qed.

Lemma words_length n : length (words n) = (2 * n)%nat.
Proof. induction n as [|n IH]; [done|]. change (words (S n)) with (" "%char :: "a"%char :: words n). cbn [length]. lia. Qed.

Lemma split_words n : split_blanks (Some (lit "a")) (words n) = replicate (S n) (lit "a").
Proof. induction n as [|n IH]; [done|]. simpl. f_equal. exact IH. Qed.

Lemma parse_words n :
  parse_request (words (S n) ++ [LF]) = POk (replicate (S n) (lit "a")) (2 * S n + 1).
Proof.
  change (words (S n)) with (" "%char :: "a"%char :: words n).
  unfold parse_request. cbn [app]. change (negb (Ascii.eqb " " "*")) with true. cbv iota.
  unfold parse_inline.
  change (" "%char :: "a"%char :: words n ++ [LF]) with (words (S n) ++ LF :: []).
  rewrite find_lf_line, words_length by (by apply words_chars).
  rewrite drop_last_cr_none by (by apply words_chars). f_equal. apply (split_words n).
Qed.

Lemma parse_too_many args rest :
  kMaxArrayLength < Z.of_nat (length args) < 2 ^ 63 ->
  parse_request (resp_command args ++ rest) = PError (lit "Protocol error: invalid multibulk length").
Proof.
  intros H. rewrite resp_command_eq, <-!app_assoc, parse_request_multibulk by done.
  rewrite find_header by done. cbn [tail].
  rewrite parse_int_to_dec by lia. by rewrite (proj2 (Z.ltb_lt kMaxArrayLength _)), orb_true_r by lia.
Qed.

(** The limits of inline requests are not enforced once the newline has
    arrived: an inline request over [kMaxInlineLength] with more than
    [kMaxArrayLength] words is accepted, and its arguments, encoded as a command,
    are refused by the same parser. *)
Theorem resp_inline_unlimited :
  exists buf args n,
    kMaxInlineLength < Z.of_nat (length buf) /\ parse_request buf = POk args n /\
    parse_request (resp_command args) = PError (lit "Protocol error: invalid multibulk length").
Proof.
  set (n := Z.to_nat kMaxArrayLength). exists (words (S n) ++ [LF]), (replicate (S n) (lit "a")), (2 * S n + 1)%nat.
  assert (Hn : Z.of_nat n = kMaxArrayLength) by (subst n; unfold kMaxArrayLength; lia). clearbody n.
  unfold kMaxArrayLength in Hn. split; [|split].
  - rewrite length_app, words_length. unfold kMaxInlineLength. cbn [length]. lia.
  - apply parse_words.
  - rewrite <-(app_nil_r (resp_command _)). apply parse_too_many. rewrite length_replicate.
    unfold kMaxArrayLength. lia.
Qed.

(** *** Witnesses *)

(** An argument holding the protocol's own delimiters. *)
Definition sample_args : list bytes := [lit "SET"; lit "k" ++ CRLF ++ lit "$3"; []].

(** A nested reply. *)
Definition sample_reply : RespValue :=
  RespArray [SimpleString (lit "OK"); RespArray [RespInteger (-7); RespNull]; BulkString (lit "a" ++ CRLF)].

Lemma resp_request_roundtrip_witness :
  parse_request (resp_command sample_args ++ lit "PING") = POk sample_args 30 /\
  parse_request (take 29 (resp_command sample_args)) = PIncomplete.
Proof.
  assert (Hok : args_ok sample_args).
  { split; [vm_compute; discriminate|]. repeat constructor; vm_compute; discriminate. }
  destruct (resp_request_roundtrip sample_args Hok) as [R P]. split; [exact (R (lit "PING"))|].
  apply (P _ (drop 29 (resp_command sample_args))); [by rewrite take_drop|vm_compute; discriminate].
Defined.

Lemma resp_request_incremental_witness :
  parse_request (lit "GET k" ++ CRLF ++ lit "*1") = POk [lit "GET"; lit "k"] 7.
Proof.
  destruct (resp_request_incremental (lit "GET k" ++ CRLF) (lit "*1")) as [H _].
  apply (H [lit "GET"; lit "k"] 7%nat). vm_compute. reflexivity.
Defined.

Lemma resp_accepted_reencodes_witness :
  parse_request (lit "  GET  key" ++ CRLF) = POk [lit "GET"; lit "key"] 12 /\
  parse_request (resp_command [lit "GET"; lit "key"]) = POk [lit "GET"; lit "key"] 22.
Proof.
  split; [by vm_compute|].
  apply (resp_accepted_reencodes (lit "  GET  key" ++ CRLF) [lit "GET"; lit "key"] 12); [by vm_compute|].
  right. vm_compute. discriminate.
Defined.

Lemma resp_reply_roundtrip_witness :
  parse_reply (append_value [] sample_reply ++ lit "+") = Some (POk sample_reply 32) /\
  parse_reply (take 30 (append_value [] sample_reply)) = Some PIncomplete.
Proof.
  assert (W : resp_wf sample_reply).
  { repeat (constructor || split); try (vm_compute; congruence); lia. }
  destruct (resp_reply_roundtrip sample_reply W) as [R P]. split; [exact (R (lit "+"))|].
  apply (P _ (drop 30 (append_value [] sample_reply))); [by rewrite take_drop|vm_compute; discriminate].
Defined.
