(* ===== verification/Parser.v ===== *)
(** * Commands

    Models protocol/command.hpp and protocol/parser.cpp: the command a request's
    arguments stand for, or the error the client is told.  Character case is
    that of the "C" locale, which the program never changes. *)

From S2P Require Import Prelude Numerals Resp.

Local Open Scope Z_scope.

(** ** Data *)

Inductive CommandType :=
  | CGet | CSet | CDelete | CExists | CExpire | CTtl | CPttl | CStats | CPing | CEcho | CDbSize
  | CFlushAll | CCommandDocs | CConfig | CSelect | CClient | CQuit
  | CReplSet | CReplDelete | CReplGet | CClusterGossip | CClusterNodes | CUnknown.

#[export] Instance CommandType_eq_dec : EqDecision CommandType.
Proof. solve_decision. Defined.

Record Command := mkCommand {
  cmd_type : CommandType;
  cmd_key : bytes;
  cmd_keys : list bytes;
  cmd_value : bytes;
  cmd_ttl_ms : option Z;
  cmd_version : Z;
  cmd_error : bytes
}.

#[export] Instance Command_eq_dec : EqDecision Command.
Proof. solve_decision. Defined.

(** A [Command] with default members and type [t]. *)
Definition command_of (t : CommandType) : Command := mkCommand t [] [] [] None 0 [].

Definition with_ttl (cmd : Command) (ms : Z) : Command :=
  mkCommand (cmd_type cmd) (cmd_key cmd) (cmd_keys cmd) (cmd_value cmd) (Some ms) (cmd_version cmd)
    (cmd_error cmd).

(** ** Helpers *)

Definition upper (c : ascii) : ascii :=
  if (97 <=? uchar c) && (uchar c <=? 122) then ascii_of_N (Z.to_N (uchar c - 32)) else c.
Definition lower (c : ascii) : ascii :=
  if (65 <=? uchar c) && (uchar c <=? 90) then ascii_of_N (Z.to_N (uchar c + 32)) else c.

Definition to_upper (s : bytes) : bytes := upper <$> s.
Definition to_lower (s : bytes) : bytes := lower <$> s.

Definition invalid (message : bytes) : Command := mkCommand CUnknown [] [] [] None 0 message.

Definition wrong_arity (verb : bytes) : Command :=
  invalid (lit "ERR wrong number of arguments for '" ++ to_lower verb ++ lit "' command").

(** [kMaxTtlSeconds]: ten years; the limit below is in milliseconds. *)
Definition kMaxTtlSeconds : Z := 10 * 365 * 24 * 3600.
Definition kMaxTtlMs : Z := kMaxTtlSeconds * 1000.

(** [parse_set_options] on the arguments from [from] on; [None] is [false].  The
    product of the seconds is 64-bit unsigned. *)
Fixpoint parse_set_options (args : list bytes) (cmd : Command) : option Command :=
  match args with
  | [] => Some cmd
  | a :: rest =>
      let opt := to_upper a in
      match rest with
      | narg :: rest' =>
          if bytes_eqb opt (lit "EX") || bytes_eqb opt (lit "PX") || bytes_eqb opt (lit "TTL") then
            match parse_u64 narg with
            | None => None
            | Some n =>
                if n =? 0 then None
                else
                  let ms := if bytes_eqb opt (lit "PX") then n else u64 (n * 1000) in
                  if kMaxTtlMs <? ms then None
                  else parse_set_options rest' (with_ttl cmd ms)
            end
          else None
      | [] => None
      end
  end.

(** The options of SET and REPL_SET, or a syntax error. *)
Definition with_options (args : list bytes) (cmd : Command) : Command :=
  match parse_set_options args cmd with
  | Some cmd' => cmd'
  | None => invalid (lit "ERR syntax error")
  end.

(** ** [Parser::parse(args)] *)

(** One branch per verb, in the code's order; [verb] is already upper case. *)
Definition parse_verb (verb : bytes) (args : list bytes) : Command :=
  let argc := Z.of_nat (length args) in
  let arg i := default [] (args !! i) in
  if bytes_eqb verb (lit "PING") then
    if 2 <? argc then wrong_arity verb
    else mkCommand CPing [] [] (if argc =? 2 then arg 1%nat else []) None 0 []
  else if bytes_eqb verb (lit "ECHO") then
    if negb (argc =? 2) then wrong_arity verb else mkCommand CEcho [] [] (arg 1%nat) None 0 []
  else if bytes_eqb verb (lit "STATS") || bytes_eqb verb (lit "INFO") then command_of CStats
  else if bytes_eqb verb (lit "DBSIZE") then command_of CDbSize
  else if bytes_eqb verb (lit "FLUSHALL") || bytes_eqb verb (lit "FLUSHDB") then command_of CFlushAll
  else if bytes_eqb verb (lit "COMMAND") then command_of CCommandDocs
  else if bytes_eqb verb (lit "CONFIG") then
    if (3 <=? argc) && bytes_eqb (to_upper (arg 1%nat)) (lit "GET")
    then mkCommand CConfig [] (drop 2 args) [] None 0 []
    else command_of CConfig
  else if bytes_eqb verb (lit "SELECT") then
    if negb (argc =? 2) then wrong_arity verb else mkCommand CSelect [] [] (arg 1%nat) None 0 []
  else if bytes_eqb verb (lit "CLUSTER") then
    if argc <? 2 then wrong_arity verb
    else
      let sub := to_upper (arg 1%nat) in
      if bytes_eqb sub (lit "GOSSIP") then
        if negb ((argc - 2) mod 5 =? 0) then invalid (lit "ERR malformed gossip payload")
        else mkCommand CClusterGossip [] (drop 2 args) [] None 0 []
      else if bytes_eqb sub (lit "NODES") then command_of CClusterNodes
      else invalid (lit "ERR unknown CLUSTER subcommand '" ++ arg 1%nat ++ lit "'")
  else if bytes_eqb verb (lit "CLIENT") then command_of CClient
  else if bytes_eqb verb (lit "QUIT") then command_of CQuit
  else if bytes_eqb verb (lit "GET") then
    if negb (argc =? 2) then wrong_arity verb else mkCommand CGet (arg 1%nat) [] [] None 0 []
  else if bytes_eqb verb (lit "SET") then
    if argc <? 3 then wrong_arity verb
    else with_options (drop 3 args) (mkCommand CSet (arg 1%nat) [] (arg 2%nat) None 0 [])
  else if bytes_eqb verb (lit "REPL_SET") then
    if argc <? 4 then wrong_arity verb
    else match parse_u64 (arg 3%nat) with
    | None => invalid (lit "ERR invalid version")
    | Some version =>
        with_options (drop 4 args) (mkCommand CReplSet (arg 1%nat) [] (arg 2%nat) None version [])
    end
  else if bytes_eqb verb (lit "REPL_DEL") then
    if negb (argc =? 3) then wrong_arity verb
    else match parse_u64 (arg 2%nat) with
    | None => invalid (lit "ERR invalid version")
    | Some version => mkCommand CReplDelete (arg 1%nat) [] [] None version []
    end
  else if bytes_eqb verb (lit "REPL_GET") then
    if negb (argc =? 2) then wrong_arity verb else mkCommand CReplGet (arg 1%nat) [] [] None 0 []
  else if bytes_eqb verb (lit "DEL") || bytes_eqb verb (lit "DELETE") || bytes_eqb verb (lit "EXISTS") then
    if argc <? 2 then wrong_arity verb
    else mkCommand (if bytes_eqb verb (lit "EXISTS") then CExists else CDelete) (arg 1%nat) (drop 1 args) [] None 0 []
  else if bytes_eqb verb (lit "EXPIRE") || bytes_eqb verb (lit "PEXPIRE") then
    if negb (argc =? 3) then wrong_arity verb
    else match parse_u64 (arg 2%nat) with
    | None => invalid (lit "ERR value is not an integer or out of range")
    | Some n =>
        if kMaxTtlMs <? n then invalid (lit "ERR value is not an integer or out of range")
        else mkCommand CExpire (arg 1%nat) [] []
               (Some (if bytes_eqb verb (lit "PEXPIRE") then n else u64 (n * 1000))) 0 []
    end
  else if bytes_eqb verb (lit "TTL") || bytes_eqb verb (lit "PTTL") then
    if negb (argc =? 2) then wrong_arity verb
    else mkCommand (if bytes_eqb verb (lit "TTL") then CTtl else CPttl) (arg 1%nat) [] [] None 0 []
  else invalid (lit "ERR unknown command '" ++ arg 0%nat ++ lit "'").

Definition Parser_parse (args : list bytes) : Command :=
  match args with
  | [] => invalid (lit "ERR empty command")
  | a0 :: _ => parse_verb (to_upper a0) args
  end.

(** ** [Parser::parse(line)]: white-space separated words *)

(** [iss >> token] in a loop. *)
Fixpoint split_spaces (cur : bytes) (line : bytes) : list bytes :=
  match line with
  | [] => match cur with [] => [] | _ => [cur] end
  | c :: line' =>
      if is_space c then match cur with [] => split_spaces [] line' | _ => cur :: split_spaces [] line' end
      else split_spaces (cur ++ [c]) line'
  end.

Definition Parser_parse_line (line : bytes) : Command := Parser_parse (split_spaces [] line).

(** ** The branches taken by literal verbs *)

Lemma parse_verb_SET args :
  parse_verb (lit "SET") args =
  if Z.of_nat (length args) <? 3 then wrong_arity (lit "SET")
  else with_options (drop 3 args)
         (mkCommand CSet (default [] (args !! 1%nat)) [] (default [] (args !! 2%nat)) None 0 []).
Proof. reflexivity. Qed.

Lemma parse_verb_REPL_SET args :
  parse_verb (lit "REPL_SET") args =
  if Z.of_nat (length args) <? 4 then wrong_arity (lit "REPL_SET")
  else match parse_u64 (default [] (args !! 3%nat)) with
  | None => invalid (lit "ERR invalid version")
  | Some version =>
      with_options (drop 4 args)
        (mkCommand CReplSet (default [] (args !! 1%nat)) [] (default [] (args !! 2%nat)) None version [])
  end.
Proof. reflexivity. Qed.

Lemma parse_verb_REPL_DEL args :
  parse_verb (lit "REPL_DEL") args =
  if negb (Z.of_nat (length args) =? 3) then wrong_arity (lit "REPL_DEL")
  else match parse_u64 (default [] (args !! 2%nat)) with
  | None => invalid (lit "ERR invalid version")
  | Some version => mkCommand CReplDelete (default [] (args !! 1%nat)) [] [] None version []
  end.
Proof. reflexivity. Qed.

Lemma parse_verb_EXPIRE args :
  parse_verb (lit "EXPIRE") args =
  if negb (Z.of_nat (length args) =? 3) then wrong_arity (lit "EXPIRE")
  else match parse_u64 (default [] (args !! 2%nat)) with
  | None => invalid (lit "ERR value is not an integer or out of range")
  | Some n =>
      if kMaxTtlMs <? n then invalid (lit "ERR value is not an integer or out of range")
      else mkCommand CExpire (default [] (args !! 1%nat)) [] [] (Some (u64 (n * 1000))) 0 []
  end.
Proof. reflexivity. Qed.

Lemma parse_verb_GOSSIP args :
  args !! 1%nat = Some (lit "GOSSIP") ->
  parse_verb (lit "CLUSTER") args =
  if Z.of_nat (length args) <? 2 then wrong_arity (lit "CLUSTER")
  else if negb ((Z.of_nat (length args) - 2) mod 5 =? 0) then invalid (lit "ERR malformed gossip payload")
  else mkCommand CClusterGossip [] (drop 2 args) [] None 0 [].
Proof.
  intros E. transitivity
    (if Z.of_nat (length args) <? 2 then wrong_arity (lit "CLUSTER")
     else
      let sub := to_upper (default [] (args !! 1%nat)) in
      if bytes_eqb sub (lit "GOSSIP") then
        if negb ((Z.of_nat (length args) - 2) mod 5 =? 0) then invalid (lit "ERR malformed gossip payload")
        else mkCommand CClusterGossip [] (drop 2 args) [] None 0 []
      else if bytes_eqb sub (lit "NODES") then command_of CClusterNodes
      else invalid (lit "ERR unknown CLUSTER subcommand '" ++ default [] (args !! 1%nat) ++ lit "'"));
    [reflexivity|]. by rewrite E.
Qed.

(** ** Properties *)

Lemma parse_set_options_type args cmd cmd' :
  parse_set_options args cmd = Some cmd' -> cmd_type cmd' = cmd_type cmd.
Proof.
  revert cmd. induction args as [args IH] using (induction_ltof1 _ (@length bytes)). unfold ltof in IH.
  intros cmd. destruct args as [|a [|narg rest]]; cbn [parse_set_options]; [by intros [= <-]|done|].
  repeat case_match; try done; intros H'; apply IH in H' as ->; (done || (simpl; lia)).
Qed.

Lemma with_options_type args cmd :
  cmd_type (with_options args cmd) = cmd_type cmd \/ cmd_type (with_options args cmd) = CUnknown.
Proof.
  unfold with_options. destruct (parse_set_options args cmd) eqn:E; [|by right].
  left. by eapply parse_set_options_type.
Qed.

(** The key of DEL and EXISTS is the first of their keys. *)
Lemma parser_first_key args :
  cmd_type (Parser_parse args) = CDelete \/ cmd_type (Parser_parse args) = CExists ->
  head (cmd_keys (Parser_parse args)) = Some (cmd_key (Parser_parse args)).
Proof.
  destruct args as [|a0 rest]; [by intros []|]. unfold Parser_parse, parse_verb. set (args := a0 :: rest).
  repeat match goal with
  | |- cmd_type (with_options ?l ?c) = _ \/ _ -> _ =>
      let H := fresh in destruct (with_options_type l c) as [H|H]; rewrite H; by intros []
  | |- cmd_type (if ?b then _ else _) = _ \/ _ -> _ => destruct b eqn:?; try (by intros [])
  | |- cmd_type (match parse_u64 ?s with _ => _ end) = _ \/ _ -> _ => destruct (parse_u64 s) eqn:?; try (by intros [])
  end.
  - intros _. cbn [cmd_keys cmd_key]. subst args. bool_facts. by destruct rest; [simpl in *; lia|].
  - by destruct (bytes_eqb _ (lit "TTL")); intros [].
Qed.

Lemma parse_set_options_ttl args cmd cmd' :
  parse_set_options args cmd = Some cmd' ->
  cmd_type cmd' = cmd_type cmd /\
  forall ms, cmd_ttl_ms cmd' = Some ms -> cmd_ttl_ms cmd = Some ms \/ 0 <= ms <= kMaxTtlMs.
Proof.
  revert cmd. induction args as [args IH] using (induction_ltof1 _ (@length bytes)). unfold ltof in IH.
  intros cmd. destruct args as [|a [|narg rest]]; cbn [parse_set_options]; [intros [= <-]; auto|done|].
  case_match; [|done]. destruct (parse_u64 narg) as [n|] eqn:En; [|done]. case_match; [done|].
  case_match; [done|]. intros H'. apply IH in H' as [I1 I2]; [|simpl; lia].
  split; [done|]. intros ms Hms. right. destruct (I2 ms Hms) as [E|?]; [|done]. simpl in E. injection E as <-.
  bool_facts. split; [|done]. apply parse_u64_range in En. case_match; [lia|].
  apply wrap_range. lia.
Qed.

Lemma with_options_ttl args cmd ms :
  cmd_ttl_ms cmd = None -> cmd_ttl_ms (with_options args cmd) = Some ms ->
  cmd_type (with_options args cmd) = cmd_type cmd /\ 0 <= ms <= kMaxTtlMs.
Proof.
  unfold with_options. destruct (parse_set_options args cmd) as [cmd'|] eqn:E; [|done].
  intros Hn Hms. apply parse_set_options_ttl in E as [Ht Hb]. split; [done|].
  destruct (Hb ms Hms); [congruence|done].
Qed.

Lemma parse_expire_range s n : parse_u64 s = Some n -> n <= kMaxTtlMs -> u64 (n * 1000) = n * 1000.
Proof.
  intros H%parse_u64_range Hn. apply wrap_small. unfold kMaxTtlMs, kMaxTtlSeconds in Hn. lia.
Qed.

(** Every TTL the parser lets through is bounded: those of SET and REPL_SET
    by ten years, so that adding them to a 64-bit nanosecond clock cannot
    overflow; those of EXPIRE and PEXPIRE only by ten thousand years. *)
Theorem parser_ttl_bounds args ms :
  cmd_ttl_ms (Parser_parse args) = Some ms ->
  (cmd_type (Parser_parse args) = CSet \/ cmd_type (Parser_parse args) = CReplSet) /\
    0 <= ms <= kMaxTtlMs \/
  cmd_type (Parser_parse args) = CExpire /\ 0 <= ms <= 1000 * kMaxTtlMs.
Proof.
  destruct args as [|a0 rest]; [done|]. unfold Parser_parse, parse_verb. set (args := a0 :: rest).
  repeat match goal with
  | |- cmd_ttl_ms (with_options _ _) = _ -> _ =>
      let H := fresh in intros H; apply with_options_ttl in H as [-> ?]; simpl; auto
  | |- cmd_ttl_ms (if ?b then _ else _) = _ -> _ => destruct b eqn:?; try done
  | |- cmd_ttl_ms (match parse_u64 ?s with _ => _ end) = _ -> _ => destruct (parse_u64 s) eqn:?; try done
  end.
  cbn [cmd_ttl_ms cmd_type]. intros [= <-]. right. split; [done|]. bool_facts.
  pose proof (parse_u64_range _ _ ltac:(eassumption)). case_match; [unfold kMaxTtlMs, kMaxTtlSeconds in *; lia|].
  erewrite parse_expire_range by eassumption. lia.
Qed.

(** SET with EX, exactly: the seconds are turned into milliseconds modulo
    2^64 and then compared with the limit, so every number of seconds up to the
    limit is kept, and an absurdly large one may be accepted as a short TTL. *)
Theorem parser_set_ex_exact key value n :
  0 < n < 2 ^ 64 ->
  Parser_parse [lit "SET"; key; value; lit "EX"; to_dec n] =
    (if u64 (n * 1000) <=? kMaxTtlMs
     then mkCommand CSet key [] value (Some (u64 (n * 1000))) 0 []
     else invalid (lit "ERR syntax error")) /\
  (n <= kMaxTtlSeconds -> u64 (n * 1000) = n * 1000 /\ u64 (n * 1000) <= kMaxTtlMs).
Proof.
  intros H. split.
  - unfold Parser_parse. change (to_upper (lit "SET")) with (lit "SET"). rewrite parse_verb_SET.
    change (Z.of_nat (length [lit "SET"; key; value; lit "EX"; to_dec n]) <? 3) with false. cbv iota.
    unfold with_options. cbn [drop parse_set_options].
    change (bytes_eqb (to_upper (lit "EX")) (lit "EX")) with true.
    change (bytes_eqb (to_upper (lit "EX")) (lit "PX")) with false. cbn [orb].
    rewrite parse_u64_to_dec by lia. rewrite (proj2 (Z.eqb_neq _ _)) by lia.
    rewrite Z.ltb_antisym. by destruct (u64 (n * 1000) <=? kMaxTtlMs).
  - unfold kMaxTtlMs, kMaxTtlSeconds. intros Hn. rewrite wrap_small by lia. lia.
Qed.

(** *** Witnesses *)

Lemma parser_ttl_bounds_witness :
  cmd_ttl_ms (Parser_parse [lit "expire"; lit "k"; lit "315360001"]) = Some 315360001000 /\
  cmd_type (Parser_parse [lit "expire"; lit "k"; lit "315360001"]) = CExpire.
Proof.
  assert (E : cmd_ttl_ms (Parser_parse [lit "expire"; lit "k"; lit "315360001"]) = Some 315360001000)
    by (vm_compute; reflexivity).
  split; [exact E|]. destruct (parser_ttl_bounds _ _ E) as [[_ [_ H]]|[H _]]; [|exact H].
  by vm_compute in H.
Defined.

(** A TTL of more than half a billion years becomes 384 ms. *)
Lemma parser_set_ex_exact_witness :
  cmd_ttl_ms (Parser_parse [lit "SET"; lit "k"; lit "v"; lit "EX"; to_dec 18446744073709552]) = Some 384.
Proof.
  destruct (parser_set_ex_exact (lit "k") (lit "v") 18446744073709552) as [-> _]; [lia|].
  vm_compute. reflexivity.
Defined.
