(* ===== verification/Fuzz.v ===== *)
(** * The fuzz target

    Models fuzz/resp_fuzzer.cpp, the checks it makes of the request parser, the
    command parser and the reply parser, and fuzz/standalone_driver.cpp, which
    mutates a corpus and runs the target on the results.  A failed check is
    [Some false], an exception of a string operation [None].

    The theorems prove what the fuzzer looks for counterexamples of: no check
    fails on an input of up to a megabyte, and the driver's inputs are shorter;
    and that the bound is needed. *)

From S2P Require Import Prelude Numerals Resp Parser.

Local Open Scope Z_scope.

(** ** The target *)

(** [while (offset < input.size())], on the input from [offset] on. *)
Fixpoint fuzz_requests (fuel : nat) (input : bytes) : option bool :=
  match fuel with
  | O => None
  | S fuel' =>
      match input with
      | [] => Some true
      | _ =>
          match parse_request input with
          | POk args consumed =>
              if negb ((0 <? consumed)%nat && (consumed <=? length input)%nat) then Some false
              else if bool_decide (args = []) then fuzz_requests fuel' (drop consumed input)
              else
                let cmd := Parser_parse args in
                if bool_decide (cmd_type cmd = CUnknown) && bool_decide (cmd_error cmd = []) then Some false
                else
                  let encoded := resp_command args in
                  match parse_request encoded with
                  | POk again used =>
                      if negb (used =? length encoded)%nat then Some false
                      else if negb (bool_decide (again = args)) then Some false
                      else fuzz_requests fuel' (drop consumed input)
                  | _ => Some false
                  end
          | _ => Some true
          end
      end
  end.

(** Every request takes at least one byte, so the fuel is enough. *)
Definition LLVMFuzzerTestOneInput (input : bytes) : option bool :=
  ok ← fuzz_requests (S (length input)) input;
  if negb (ok : bool) then Some false
  else
    r ← parse_reply input;
    Some match r with
         | POk _ used => (0 <? used)%nat && (used <=? length input)%nat
         | _ => true
         end.

(** ** The driver *)

(** [std::string::insert]. *)
Definition string_insert (pos : nat) (s input : bytes) : option bytes :=
  if (pos <=? length input)%nat then Some (take pos input ++ s ++ drop pos input) else None.

(** [std::string::erase]. *)
Definition string_erase (pos n : nat) (input : bytes) : option bytes :=
  if (pos <=? length input)%nat then Some (take pos input ++ drop (pos + n) input) else None.

(** The generator, as the sequence of its numbers and how many were taken. *)
Definition rng_mod (rng : nat -> Z) (i : nat) (n : nat) : nat := Z.to_nat (u64 (rng i) mod Z.of_nat n).

Definition interesting : bytes := lit "*$+-:" ++ CRLF ++ lit "0123456789-SETGETDELPX ".

(** Longer inputs are cut. *)
Definition kMaxInput : Z := Z.shiftl 1 16.

Definition cut (input : bytes) : bytes :=
  if kMaxInput <? Z.of_nat (length input) then take (Z.to_nat kMaxInput) input else input.

Definition default_seed : bytes := resp_command [lit "PING"].

(** One mutation. *)
Definition mutate (corpus : list bytes) (rng : nat -> Z) (i : nat) (input : bytes) : option (bytes * nat) :=
  let size := length input in
  let '(pos, i) := match input with [] => (0%nat, i) | _ => (rng_mod rng i (size + 1), S i) end in
  let choice := rng_mod rng i 6 in
  let i := S i in
  match choice with
  | 0%nat =>
      Some (if (pos <? size)%nat then (<[pos := ascii_of_N (Z.to_N (rng i mod 256))]> input, S i) else (input, i))
  | 1%nat =>
      c ← interesting !! rng_mod rng i (length interesting);
      (fun s => (s, S i)) <$> string_insert pos [c] input
  | 2%nat => if (pos <? size)%nat then (fun s => (s, S i)) <$> string_erase pos (1 + rng_mod rng i 4) input else Some (input, i)
  | 3%nat => (fun s => (s, S i)) <$> string_insert pos (take (rng_mod rng i (size + 1)) input) input
  | 4%nat => (fun s => (s, S (S i))) <$> string_insert pos (to_dec (Z.shiftr (i64 (rng i)) (Z.of_nat (rng_mod rng (S i) 60)))) input
  | _ => (fun s => (input ++ s, S i)) <$> corpus !! rng_mod rng i (length corpus)
  end.

Fixpoint mutate_n (n : nat) (corpus : list bytes) (rng : nat -> Z) (i : nat) (input : bytes) : option (bytes * nat) :=
  match n with
  | O => Some (input, i)
  | S n' => '(input, i) ← mutate corpus rng i input; mutate_n n' corpus rng i input
  end.

Fixpoint driver_loop (iterations : nat) (corpus : list bytes) (rng : nat -> Z) (i : nat) : option bool :=
  match iterations with
  | O => Some true
  | S n =>
      input ← corpus !! rng_mod rng i (length corpus);
      '(input, i) ← mutate_n (1 + rng_mod rng (S i) 8) corpus rng (S (S i)) input;
      ok ← LLVMFuzzerTestOneInput (cut input);
      if (ok : bool) then driver_loop n corpus rng i else Some false
  end.

Fixpoint driver_seeds (seeds : list bytes) : option bool :=
  match seeds with
  | [] => Some true
  | seed :: rest => ok ← LLVMFuzzerTestOneInput seed; if (ok : bool) then driver_seeds rest else Some false
  end.

Definition driver_main (files : list bytes) (iterations : nat) (rng : nat -> Z) : option bool :=
  let corpus := match files with [] => [default_seed] | _ => files end in
  ok ← driver_seeds corpus;
  if (ok : bool) then driver_loop iterations corpus rng 0 else Some false.

(** ** Properties *)

(** A command that is not understood says why. *)
Lemma parse_unknown_error args : cmd_type (Parser_parse args) = CUnknown -> cmd_error (Parser_parse args) <> [].
Proof.
  destruct args as [|a0 rest]; [done|]. unfold Parser_parse, parse_verb. set (args := a0 :: rest).
  repeat match goal with
  | |- cmd_type (with_options ?l ?c) = _ -> _ =>
      unfold with_options; destruct (parse_set_options l c) eqn:E; [apply parse_set_options_type in E as ->; done|done]
  | |- cmd_type (if ?b then _ else _) = _ -> _ => destruct b; try done
  | |- cmd_type (match parse_u64 ?s with _ => _ end) = _ -> _ => destruct (parse_u64 s); try done
  | |- cmd_type (mkCommand (if ?b then _ else _) _ _ _ _ _ _) = _ -> _ => by destruct b
  end.
Qed.

Lemma fuzz_requests_pass fuel input :
  (length input < fuel)%nat -> Z.of_nat (length input) <= kMaxArrayLength -> fuzz_requests fuel input = Some true.
Proof.
  revert input. induction fuel as [|fuel IH]; intros input Hf Hl; [lia|]. cbn [fuzz_requests].
  destruct input as [|c input]; [done|]. destruct (parse_request (c :: input)) as [args n| |e] eqn:E; [|done..].
  destruct (resp_request_incremental (c :: input) []) as [Hi _]. destruct (Hi args n E) as [_ Hn].
  rewrite (proj2 (Nat.ltb_lt 0 n)), (proj2 (Nat.leb_le n _)) by lia. cbn [andb negb].
  assert (Hrest : fuzz_requests fuel (drop n (c :: input)) = Some true) by (apply IH; rewrite length_drop; lia).
  case_bool_decide as Ha; [done|].
  assert (Hb : bool_decide (cmd_type (Parser_parse args) = CUnknown) && bool_decide (cmd_error (Parser_parse args) = []) = false).
  { rewrite andb_false_iff, !bool_decide_eq_false. destruct (decide (cmd_type (Parser_parse args) = CUnknown)) as [Hu|]; [|by left].
    right. by apply parse_unknown_error. }
  rewrite Hb. rewrite (resp_accepted_reencodes (c :: input) args n E (or_intror Hl)), Nat.eqb_refl. cbn [negb].
  by rewrite bool_decide_eq_true_2.
Qed.

Lemma fuzz_target_passes input :
  Z.of_nat (length input) <= kMaxArrayLength -> LLVMFuzzerTestOneInput input = Some true.
Proof.
  intros Hl. unfold LLVMFuzzerTestOneInput. rewrite fuzz_requests_pass by (done || lia). cbn [mbind option_bind negb].
  destruct (parse_reply_fuel_total (S (length input)) (length input) ltac:(lia) input ltac:(lia)) as (r & E & B).
  unfold parse_reply. rewrite E. cbn [mbind option_bind]. destruct r as [v n| |]; [|done..]. specialize (B v n eq_refl).
  by rewrite (proj2 (Nat.ltb_lt 0 n)), (proj2 (Nat.leb_le n _)) by lia.
Qed.

Lemma rng_mod_lt rng i n : (0 < n)%nat -> (rng_mod rng i n < n)%nat.
Proof. intros Hn. unfold rng_mod. pose proof (Z.mod_pos_bound (u64 (rng i)) (Z.of_nat n) ltac:(lia)). lia. Qed.

Lemma lookup_rng {A} (l : list A) rng i : l <> [] -> exists x, l !! rng_mod rng i (length l) = Some x.
Proof. intros Hl. apply lookup_lt_is_Some_2, rng_mod_lt. destruct l; [done|cbn; lia]. Qed.

Lemma mutate_total corpus rng i input : corpus <> [] -> exists r, mutate corpus rng i input = Some r.
Proof.
  intros Hc. unfold mutate.
  assert (Hp : forall j, exists pos j', match input with [] => (0%nat, j) | _ => (rng_mod rng j (length input + 1), S j) end = (pos, j')
    /\ (pos <= length input)%nat).
  { intros j. destruct input as [|c input']; [by exists 0%nat, j|]. eexists _, _. split; [done|].
    pose proof (rng_mod_lt rng j (length (c :: input') + 1) ltac:(lia)). lia. }
  destruct (Hp i) as (pos & j & -> & Hpos). pose proof (proj2 (Nat.leb_le _ _) Hpos) as Hle.
  unfold string_insert, string_erase. rewrite Hle.
  destruct (lookup_rng interesting rng (S j)) as [c ->]; [done|]. destruct (lookup_rng corpus rng (S j) Hc) as [seed ->].
  repeat case_match; by eexists.
Qed.

Lemma mutate_n_total n corpus rng i input : corpus <> [] -> exists r, mutate_n n corpus rng i input = Some r.
Proof.
  intros Hc. revert i input. induction n as [|n IH]; intros i input; [by eexists|]. cbn [mutate_n].
  destruct (mutate_total corpus rng i input Hc) as [[input' j] ->]. apply IH.
Qed.

Lemma cut_short input : Z.of_nat (length (cut input)) <= kMaxArrayLength.
Proof.
  assert (H : 0 <= kMaxInput <= kMaxArrayLength) by done. unfold cut. revert H. generalize kMaxInput as k, kMaxArrayLength as m. intros k m H.
  destruct (Z.ltb_spec k (Z.of_nat (length input))); [rewrite length_take|]; lia.
Qed.

Lemma driver_loop_passes n corpus rng i : corpus <> [] -> driver_loop n corpus rng i = Some true.
Proof.
  intros Hne. revert i. induction n as [|n IH]; intros i; [done|]. cbn [driver_loop].
  destruct (lookup_rng corpus rng i Hne) as [input ->]. cbn [mbind option_bind].
  destruct (mutate_n_total (1 + rng_mod rng (S i) 8) corpus rng (S (S i)) input Hne) as [[input' j] ->]. cbn [mbind option_bind].
  rewrite fuzz_target_passes by apply cut_short. apply IH.
Qed.

(** The fuzzer finds nothing: on every input of up to a megabyte all checks of
    the target hold, and whatever numbers its generator yields the stand-alone
    driver runs every seed and every mutated input to the end, with no failed
    check and no exception. *)
Theorem fuzz_driver_passes files iterations rng :
  Forall (fun f => Z.of_nat (length f) <= kMaxArrayLength) files ->
  (forall input, Z.of_nat (length input) <= kMaxArrayLength -> LLVMFuzzerTestOneInput input = Some true) /\
  driver_main files iterations rng = Some true.
Proof.
  intros HF. split; [apply fuzz_target_passes|]. unfold driver_main.
  assert (Hc : exists c, match files with [] => [default_seed] | _ => files end = c /\ c <> [] /\ Forall (fun f => Z.of_nat (length f) <= kMaxArrayLength) c).
  { eexists. split; [done|]. destruct files; [split; [done|]; by repeat constructor|done]. }
  destruct Hc as (corpus & -> & Hne & HFc).
  assert (Hs : driver_seeds corpus = Some true).
  { clear Hne. induction HFc as [|f c Hf HFc IH]; [done|]. cbn [driver_seeds]. by rewrite fuzz_target_passes. }
  rewrite Hs. by apply driver_loop_passes.
Qed.

Lemma fuzz_driver_passes_witness :
  Z.of_nat (length (resp_command sample_args)) <= kMaxArrayLength /\ driver_main [resp_command sample_args] 20 (fun i => Z.of_nat i * 7919) = Some true.
Proof.
  assert (H : Z.of_nat (length (resp_command sample_args)) <= kMaxArrayLength) by (vm_compute; discriminate).
  split; [exact H|]. apply (fuzz_driver_passes [resp_command sample_args] 20 (fun i => Z.of_nat i * 7919)). constructor; [exact H|constructor].
Defined.

(** Without the bound a check does fail: an inline request of more than a million
    words is accepted, but not re-read from its encoding. *)
Theorem fuzz_target_fails_beyond : exists input, LLVMFuzzerTestOneInput input = Some false.
Proof.
  set (n := Z.to_nat kMaxArrayLength). exists (words (S n) ++ [LF]).
  assert (Hn : Z.of_nat n = kMaxArrayLength) by (subst n; unfold kMaxArrayLength; lia). clearbody n.
  unfold LLVMFuzzerTestOneInput. set (input := words (S n) ++ [LF]).
  assert (E : fuzz_requests (S (length input)) input = Some false); [|by rewrite E].
  cbn [fuzz_requests]. assert (P : parse_request input = POk (replicate (S n) (lit "a")) (2 * S n + 1)) by apply parse_words.
  destruct (resp_request_incremental input []) as [Hi _]. destruct (Hi _ _ P) as [_ Hl].
  rewrite P, (proj2 (Nat.ltb_lt 0 _)), (proj2 (Nat.leb_le _ (length input))) by lia. cbn [andb negb].
  rewrite (bool_decide_eq_false_2 (replicate (S n) (lit "a") = [])) by done.
  destruct input as [|c input]; [cbn in Hl; lia|].
  case_match eqn:Eb; [done|].
  rewrite <-(app_nil_r (resp_command _)), parse_too_many; [done|]. rewrite length_replicate. unfold kMaxArrayLength in *. lia.
Qed.
