(* ===== verification/ReplicaWire.v ===== *)
(** * The wire format of the inter-node calls

    Models network/request_result.hpp, the encoders and decoders of
    network/client.cpp (replication calls, and the typed calls of [Client] as
    functions of the reply), and the gossip payload of
    [Cluster::exchange_gossip] and of the CLUSTER GOSSIP handler. *)

From S2P Require Import Prelude Numerals CacheEntry ConsistentHash HealthChecker Membership Resp Parser.

Local Open Scope Z_scope.

(** ** Results of calls *)

Inductive RequestStatus := ROk | RNotFound | RTimeout | RConnectionError | RProtocolError.

#[export] Instance RequestStatus_eq_dec : EqDecision RequestStatus.
Proof. solve_decision. Defined.

(** [RequestResult<T>]; [RequestResult<void>] is the instance at [unit]. *)
Record RequestResult (T : Type) := mkResult {
  rr_status : RequestStatus; rr_value : option T; rr_message : bytes
}.
Arguments mkResult {T} _ _ _.
Arguments rr_status {T} _.
Arguments rr_value {T} _.
Arguments rr_message {T} _.

Definition rr_is_ok {T} (r : RequestResult T) : bool := bool_decide (rr_status r = ROk).
Definition rr_is_not_found {T} (r : RequestResult T) : bool := bool_decide (rr_status r = RNotFound).
Definition rr_success {T} (v : T) : RequestResult T := mkResult ROk (Some v) [].
Definition rr_not_found {T} : RequestResult T := mkResult RNotFound None [].
Definition rr_error {T} (st : RequestStatus) (msg : bytes) : RequestResult T := mkResult st None msg.

(** ** The replication calls *)

(** [replica_write_command]; a TTL below 1 ms is sent as 1. *)
Definition replica_write_command (key : bytes) (v : VersionedValue) : list bytes :=
  if vv_tombstone v then [lit "REPL_DEL"; key; to_dec (vv_version v)]
  else [lit "REPL_SET"; key; vv_value v; to_dec (vv_version v)] ++
       match vv_ttl v with
       | Some ms => [lit "PX"; to_dec (Z.max 1 ms)]
       | None => []
       end.

Definition replica_get_command (key : bytes) : list bytes := [lit "REPL_GET"; key].

(** [decode_replica_write]. *)
Definition decode_replica_write (reply : RespValue) : RequestResult bool :=
  match reply with
  | RespInteger n => rr_success (negb (n =? 0))
  | _ => rr_error RProtocolError (resp_str reply)
  end.

(** [decode_replica_get]; the reply is [value, version, tombstone, ttl]. *)
Definition decode_replica_get (r : RespValue) : RequestResult VersionedValue :=
  match r with
  | RespNull => rr_not_found
  | RespArray [value; RespInteger version; RespInteger tombstone; RespInteger ttl] =>
      rr_success (mkVV (resp_str value) (u64 version) (negb (tombstone =? 0))
                    (if 0 <=? ttl then Some ttl else None))
  | _ => rr_error RProtocolError (lit "Malformed REPL_GET reply")
  end.

(** The reply the REPL_GET handler builds for what the replica holds. *)
Definition encode_replica_get (v : option VersionedValue) : RespValue :=
  match v with
  | None => RespNull
  | Some v =>
      RespArray [BulkString (vv_value v); RespInteger (i64 (vv_version v));
                 RespInteger (if vv_tombstone v then 1 else 0);
                 RespInteger (match vv_ttl v with Some ms => Z.max 1 ms | None => -1 end)]
  end.

(** ** The typed calls of [Client], after [command] has returned [res] *)

(** [Client::expect_ok]. *)
Definition expect_ok (res : RequestResult RespValue) : RequestResult unit :=
  match rr_is_ok res, rr_value res with
  | true, Some (SimpleString s) =>
      if bytes_eqb s (lit "OK") then rr_success tt else rr_error RProtocolError s
  | true, Some v => rr_error RProtocolError (resp_str v)
  | _, _ => rr_error (rr_status res) (rr_message res)
  end.

(** The arguments of [Client::set]. *)
Definition client_set_args (key value : bytes) (ttl_ms : option Z) : list bytes :=
  [lit "SET"; key; value] ++ match ttl_ms with Some ms => [lit "PX"; to_dec ms] | None => [] end.

(** [Client::get]. *)
Definition client_get_result (res : RequestResult RespValue) : RequestResult bytes :=
  match rr_is_ok res, rr_value res with
  | true, Some RespNull => rr_not_found
  | true, Some (BulkString s) => rr_success s
  | true, Some v => rr_error RProtocolError (resp_str v)
  | _, _ => rr_error (rr_status res) (rr_message res)
  end.

(** [integer_to_result], used by [Client::remove] and [Client::expire]. *)
Definition integer_to_result (res : RequestResult RespValue) : RequestResult unit :=
  match rr_is_ok res, rr_value res with
  | true, Some (RespInteger n) => if 0 <? n then rr_success tt else rr_not_found
  | true, Some v => rr_error RProtocolError (resp_str v)
  | _, _ => rr_error (rr_status res) (rr_message res)
  end.

(** [Client::pttl]. *)
Definition client_pttl_result (res : RequestResult RespValue) : RequestResult Z :=
  match rr_is_ok res, rr_value res with
  | true, Some (RespInteger n) => if n =? -2 then rr_not_found else rr_success n
  | true, Some v => rr_error RProtocolError (resp_str v)
  | _, _ => rr_error (rr_status res) (rr_message res)
  end.

(** [Client::replica_write] and [Client::replica_get]. *)
Definition client_replica_write (res : RequestResult RespValue) : RequestResult bool :=
  match rr_is_ok res, rr_value res with
  | true, Some v => decode_replica_write v
  | _, _ => rr_error (rr_status res) (rr_message res)
  end.

Definition client_replica_get (res : RequestResult RespValue) : RequestResult VersionedValue :=
  match rr_is_ok res, rr_value res with
  | true, Some v => decode_replica_get v
  | _, _ => rr_error (rr_status res) (rr_message res)
  end.

(** ** The gossip payload *)

(** The five strings of one entry. *)
Definition member_fields (m : MemberInfo) : list bytes :=
  [cn_id (mi_node m); cn_host (mi_node m); to_dec (cn_port (mi_node m)); to_dec (mi_generation m);
   match mi_status m with Alive => lit "alive" | Left => lit "left" end].

(** The loop that reads entries, stepping by five while five are left; [None] is
    an exception of [stoi] or [stoull]. *)
Fixpoint decode_members (fields : list bytes) : option (list MemberInfo) :=
  match fields with
  | id :: host :: port :: generation :: status :: rest =>
      p ← stoi port;
      g ← stoull generation;
      ms ← decode_members rest;
      Some (mkMI (mkCN id host (u16 p)) g (if bytes_eqb status (lit "left") then Left else Alive) :: ms)
  | _ => Some []
  end.

(** The command [exchange_gossip] sends for its view. *)
Definition gossip_args (view : list MemberInfo) : list bytes :=
  [lit "CLUSTER"; lit "GOSSIP"] ++ concat (member_fields <$> view).

(** The CLUSTER GOSSIP handler: merges, and replies with the merged view. *)
Definition handle_gossip (keys : list bytes) (s : Membership) : Membership * RespValue :=
  match decode_members keys with
  | None => (s, RespError (lit "ERR malformed gossip entry"))
  | Some remote =>
      let '(s', view) := Cluster_merge_gossip remote s in
      (s', RespArray (BulkString <$> concat (member_fields <$> view)))
  end.

(** [exchange_gossip] once the call has returned: the new state, and whether the
    exchange succeeded. *)
Definition exchange_gossip_result (res : RequestResult RespValue) (s : Membership) : Membership * bool :=
  match rr_is_ok res, rr_value res with
  | true, Some (RespArray e) =>
      match decode_members (resp_str <$> e) with
      | Some remote => (fst (Cluster_merge_gossip remote s), true)
      | None => (s, false)
      end
  | _, _ => (s, false)
  end.

(** ** Parsing the encoded calls *)

(** A versioned value as it arrives: its TTL is at least a millisecond, and a
    tombstone carries neither value nor TTL. *)
Definition received (v : VersionedValue) : VersionedValue :=
  if vv_tombstone v then mkVV [] (vv_version v) true None
  else mkVV (vv_value v) (vv_version v) false (Z.max 1 <$> vv_ttl v).

(** The command the receiver runs. *)
Definition replica_write_parsed (key : bytes) (v : VersionedValue) : Command :=
  let r := received v in
  mkCommand (if vv_tombstone v then CReplDelete else CReplSet) key [] (vv_value r) (vv_ttl r)
    (vv_version r) [].

Lemma parse_px cmd ms :
  0 < ms <= kMaxTtlMs -> parse_set_options [lit "PX"; to_dec ms] cmd = Some (with_ttl cmd ms).
Proof.
  intros H. unfold kMaxTtlMs, kMaxTtlSeconds in H. cbn [parse_set_options].
  change (bytes_eqb (to_upper (lit "PX")) (lit "PX")) with true. rewrite orb_true_r. cbn [orb].
  rewrite parse_u64_to_dec by lia. rewrite (proj2 (Z.eqb_neq _ _)) by lia.
  by rewrite (proj2 (Z.ltb_ge _ _)) by (unfold kMaxTtlMs, kMaxTtlSeconds; lia).
Qed.

Lemma parse_px_too_long cmd ms :
  kMaxTtlMs < ms < 2 ^ 64 -> parse_set_options [lit "PX"; to_dec ms] cmd = None.
Proof.
  intros H. unfold kMaxTtlMs, kMaxTtlSeconds in H. cbn [parse_set_options].
  change (bytes_eqb (to_upper (lit "PX")) (lit "PX")) with true. rewrite orb_true_r. cbn [orb].
  rewrite parse_u64_to_dec by lia. rewrite (proj2 (Z.eqb_neq _ _)) by lia.
  by rewrite (proj2 (Z.ltb_lt _ _)) by (unfold kMaxTtlMs, kMaxTtlSeconds; lia).
Qed.

(** What can be sent: a 64-bit version, and for a value a TTL within the
    parser's limit. *)
Definition sendable (v : VersionedValue) : Prop :=
  0 <= vv_version v < 2 ^ 64 /\
  (vv_tombstone v = false -> forall ms, vv_ttl v = Some ms -> ms <= kMaxTtlMs).

Lemma parse_repl_set key value version opts :
  0 <= version < 2 ^ 64 ->
  Parser_parse ([lit "REPL_SET"; key; value; to_dec version] ++ opts) =
  with_options opts (mkCommand CReplSet key [] value None version []).
Proof.
  intros H. unfold Parser_parse. cbn [app]. change (to_upper (lit "REPL_SET")) with (lit "REPL_SET").
  rewrite parse_verb_REPL_SET. set (args := lit "REPL_SET" :: _).
  assert (Ha : (Z.of_nat (length args) <? 4) = false) by (apply Z.ltb_ge; subst args; cbn [length]; lia).
  change (args !! 1%nat) with (Some key). change (args !! 2%nat) with (Some value).
  change (args !! 3%nat) with (Some (to_dec version)). change (drop 4 args) with opts. clearbody args.
  rewrite Ha. cbn [from_option id]. by rewrite parse_u64_to_dec.
Qed.

Lemma parse_repl_del key version :
  0 <= version < 2 ^ 64 ->
  Parser_parse [lit "REPL_DEL"; key; to_dec version] = mkCommand CReplDelete key [] [] None version [].
Proof.
  intros H. unfold Parser_parse. change (to_upper (lit "REPL_DEL")) with (lit "REPL_DEL").
  rewrite parse_verb_REPL_DEL. cbn -[parse_u64 to_dec]. by rewrite parse_u64_to_dec.
Qed.

Lemma parse_replica_write key v :
  sendable v -> Parser_parse (replica_write_command key v) = replica_write_parsed key v.
Proof.
  intros [Hv Ht]. unfold replica_write_command, replica_write_parsed, received.
  destruct (vv_tombstone v); [by apply parse_repl_del|].
  rewrite parse_repl_set by done. unfold with_options. destruct (vv_ttl v) as [ms|]; [|done].
  rewrite parse_px; [done|]. specialize (Ht eq_refl ms eq_refl). unfold kMaxTtlMs, kMaxTtlSeconds in *. lia.
Qed.

Lemma parse_replica_get key :
  Parser_parse (replica_get_command key) = mkCommand CReplGet key [] [] None 0 [].
Proof. done. Qed.

(** ** Replies and gossip views *)

Lemma decode_encode_get v :
  0 <= vv_version v < 2 ^ 64 ->
  decode_replica_get (encode_replica_get (Some v)) =
  rr_success (mkVV (vv_value v) (vv_version v) (vv_tombstone v) (Z.max 1 <$> vv_ttl v)).
Proof.
  intros H. unfold encode_replica_get, decode_replica_get. simpl resp_str. do 2 f_equal.
  - rewrite u64_i64. by apply wrap_small.
  - by destruct (vv_tombstone v).
  - destruct (vv_ttl v) as [ms|]; [|done]. simpl. by rewrite (proj2 (Z.leb_le _ _)) by lia.
Qed.

Lemma encode_get_wf v :
  bulk_ok (vv_value v) -> (forall ms, vv_ttl v = Some ms -> ms < 2 ^ 63) ->
  resp_wf (encode_replica_get (Some v)).
Proof.
  intros Hb Ht. constructor; [unfold kMaxArrayLength; simpl; lia|].
  repeat (apply Forall_cons; split); [| | | |by constructor].
  - by constructor.
  - constructor. apply i64_range.
  - constructor. destruct (vv_tombstone v); lia.
  - constructor. destruct (vv_ttl v) as [ms|]; [specialize (Ht ms eq_refl)|]; lia.
Qed.

(** A gossip entry with its fields in range. *)
Definition member_ok (m : MemberInfo) : Prop :=
  0 <= cn_port (mi_node m) < 2 ^ 16 /\ 0 <= mi_generation m < 2 ^ 64 /\
  bulk_ok (cn_id (mi_node m)) /\ bulk_ok (cn_host (mi_node m)).

Lemma decode_member_fields view :
  Forall member_ok view -> decode_members (concat (member_fields <$> view)) = Some view.
Proof.
  induction 1 as [|m view (Hp & Hg & _) _ IH]; [done|]. rewrite fmap_cons. cbn [concat member_fields app decode_members].
  rewrite stoi_to_dec, stoull_to_dec by lia. simpl. rewrite IH. simpl. f_equal. f_equal.
  destruct m as [[id host port] g st]. simpl in *. unfold wrap. rewrite Z.mod_small by done. by destruct st.
Qed.

Lemma concat_fields_length view : length (concat (member_fields <$> view)) = (5 * length view)%nat.
Proof. induction view as [|m view IH]; [done|]. rewrite fmap_cons. cbn [concat]. rewrite length_app, IH. change (length (member_fields m)) with 5%nat. cbn [length]. lia. Qed.

Lemma parse_gossip view :
  Parser_parse (gossip_args view) =
  mkCommand CClusterGossip [] (concat (member_fields <$> view)) [] None 0 [].
Proof.
  unfold gossip_args, Parser_parse. cbn [app]. change (to_upper (lit "CLUSTER")) with (lit "CLUSTER").
  rewrite parse_verb_GOSSIP by done. set (args := lit "CLUSTER" :: _).
  assert (Ha : Z.of_nat (length args) = 5 * Z.of_nat (length view) + 2).
  { subst args. cbn [length]. rewrite concat_fields_length. lia. }
  change (drop 2 args) with (concat (member_fields <$> view)). clearbody args. rewrite Ha.
  rewrite (proj2 (Z.ltb_ge _ _)) by lia. rewrite Z.add_simpl_r, Z.mul_comm, Z.mod_mul by lia. done.
Qed.

Lemma to_dec_bulk_ok n : 0 <= n < 2 ^ 64 -> bulk_ok (to_dec n).
Proof.
  intros H. unfold bulk_ok. destruct (decide (n = 0)) as [->|Hne]; [vm_compute; discriminate|].
  assert (L : Z.of_nat (length (udec n)) <= 65); cycle 1.
  { unfold to_dec. rewrite (proj2 (Z.ltb_ge _ _)) by lia. unfold kMaxBulkLength. lia. }
  assert (G : forall f m acc, (length (udec_go f m acc) <= f + length acc)%nat).
  { induction f as [|f IH]; intros m acc; simpl; [lia|]. case_match; simpl; [lia|].
    specialize (IH (m / 10) (digit_char (m mod 10) :: acc)). cbn [length] in IH. lia. }
  specialize (G (S (Z.to_nat (Z.log2 n))) n []). unfold udec.
  assert (Z.log2 n < 64) by (apply Z.log2_lt_pow2; lia). cbn [length] in G. lia.
Qed.

Lemma short_bulk_ok s : (length s <= 100)%nat -> bulk_ok s.
Proof. unfold bulk_ok, kMaxBulkLength. lia. Qed.

Ltac bulks_ok :=
  repeat (apply Forall_cons; split); try apply Forall_nil_2;
  first [assumption | apply to_dec_bulk_ok; lia | apply short_bulk_ok; cbn; lia].

Lemma member_fields_ok view : Forall member_ok view -> Forall bulk_ok (concat (member_fields <$> view)).
Proof.
  induction 1 as [|m view (Hp & Hg & Hi & Hh) _ IH]; [constructor|]. rewrite fmap_cons. cbn [concat].
  apply Forall_app. split; [|exact IH]. unfold member_fields. destruct (mi_status m); bulks_ok.
Qed.

Lemma bulks_wf l :
  Z.of_nat (length l) <= kMaxArrayLength -> Forall bulk_ok l -> resp_wf (RespArray (BulkString <$> l)).
Proof.
  intros Hl HF. constructor; [by rewrite length_fmap|]. rewrite Forall_fmap.
  eapply Forall_impl; [exact HF|]. intros s Hs. by constructor.
Qed.

(** ** Properties *)

(** A replicated write survives the wire: the receiver parses the sender's
    bytes, whatever follows them, to the command that applies the same key,
    value, version and kind of write, with a TTL of at least a millisecond. *)
Theorem replica_write_wire key v rest :
  sendable v -> bulk_ok key -> bulk_ok (vv_value v) ->
  exists args,
    parse_request (resp_command (replica_write_command key v) ++ rest) =
      POk args (length (resp_command (replica_write_command key v))) /\
    Parser_parse args = replica_write_parsed key v.
Proof.
  intros Hs Hk Hv. exists (replica_write_command key v). split; [|by apply parse_replica_write].
  apply parse_command. destruct Hs as [Hver Ht]. unfold replica_write_command.
  destruct (vv_tombstone v); [|destruct (vv_ttl v) as [ms|];
    [specialize (Ht eq_refl ms eq_refl); unfold kMaxTtlMs, kMaxTtlSeconds in Ht|]];
    (split; [unfold kMaxArrayLength; cbn [length app]; lia|cbn [app]; bulks_ok]).
Qed.

(** A replica's answer survives the wire: what the reader decodes from the
    reply is the replica's value, version and tombstone flag (versions above
    2^63 included, which travel as negative integers), or that it holds
    nothing. *)
Theorem replica_get_wire (o : option VersionedValue) rest :
  (forall v, o = Some v -> 0 <= vv_version v < 2 ^ 64 /\ bulk_ok (vv_value v) /\
     forall ms, vv_ttl v = Some ms -> ms < 2 ^ 63) ->
  exists r,
    parse_reply (append_value [] (encode_replica_get o) ++ rest) =
      Some (POk r (length (append_value [] (encode_replica_get o)))) /\
    decode_replica_get r =
      match o with
      | None => rr_not_found
      | Some v => rr_success (mkVV (vv_value v) (vv_version v) (vv_tombstone v) (Z.max 1 <$> vv_ttl v))
      end.
Proof.
  intros H. exists (encode_replica_get o). split.
  - apply (parse_reply_any (depth (encode_replica_get o))), parse_value_fuel; [|done].
    destruct o as [v|]; [|constructor]. destruct (H v eq_refl) as (Hv & Hb & Ht). by apply encode_get_wf.
  - destruct o as [v|]; [|done]. destruct (H v eq_refl) as (Hv & _). by apply decode_encode_get.
Qed.

(** Push-pull gossip over the wire is a merge on each side: the peer, fed the
    sender's bytes, merges exactly the sender's view, and the sender, fed the
    peer's reply bytes, merges exactly the peer's merged view. *)
Theorem gossip_wire (a b : Membership) rest :
  let view := Cluster_members a in
  let '(b', back) := Cluster_merge_gossip view b in
  let reply := snd (handle_gossip (concat (member_fields <$> view)) b) in
  Forall member_ok view -> Z.of_nat (length view) < 200000 ->
  Forall member_ok back -> Z.of_nat (length back) < 200000 ->
  parse_request (resp_command (gossip_args view) ++ rest) =
    POk (gossip_args view) (length (resp_command (gossip_args view))) /\
  handle_gossip (cmd_keys (Parser_parse (gossip_args view))) b = (b', reply) /\
  parse_reply (append_value [] reply ++ rest) = Some (POk reply (length (append_value [] reply))) /\
  exchange_gossip_result (rr_success reply) a = (fst (Cluster_merge_gossip back a), true).
Proof.
  cbv zeta. set (view := Cluster_members a).
  destruct (Cluster_merge_gossip view b) as [b' back] eqn:E. intros Fv Lv Fb Lb.
  rewrite parse_gossip. cbn [cmd_keys]. unfold handle_gossip.
  rewrite decode_member_fields, E by done. cbn [snd]. split; [|split; [done|]].
  { apply parse_command. split.
    - unfold gossip_args, kMaxArrayLength. rewrite length_app, concat_fields_length. simpl. lia.
    - unfold gossip_args. apply Forall_app. split; [|by apply member_fields_ok].
      bulks_ok. }
  split.
  - apply (parse_reply_any (depth (RespArray (BulkString <$> concat (member_fields <$> back))))).
    apply parse_value_fuel; [|done]. apply bulks_wf; [|by apply member_fields_ok].
    rewrite concat_fields_length. unfold kMaxArrayLength. lia.
  - unfold exchange_gossip_result. simpl. rewrite <-list_fmap_compose.
    rewrite (list_fmap_ext _ id), list_fmap_id by done. by rewrite decode_member_fields.
Qed.

(** EXPIRE accepts TTLs that replication cannot carry: for any number of
    seconds above the ten-year limit of SET and up to a thousand times it, the
    coordinator accepts the command, and every replica refuses the write it
    sends as a syntax error. *)
Theorem expire_unreplicable key value version n :
  kMaxTtlSeconds < n <= kMaxTtlMs -> 0 <= version < 2 ^ 64 ->
  Parser_parse [lit "EXPIRE"; key; to_dec n] = mkCommand CExpire key [] [] (Some (n * 1000)) 0 [] /\
  Parser_parse (replica_write_command key (mkVV value version false (Some (n * 1000)))) =
    invalid (lit "ERR syntax error").
Proof.
  intros Hn Hv. unfold kMaxTtlMs, kMaxTtlSeconds in Hn. split.
  - unfold Parser_parse. change (to_upper (lit "EXPIRE")) with (lit "EXPIRE"). rewrite parse_verb_EXPIRE.
    change (Z.of_nat (length [lit "EXPIRE"; key; to_dec n]) =? 3) with true. cbn [negb].
    change (default [] ([lit "EXPIRE"; key; to_dec n] !! 2%nat)) with (to_dec n).
    rewrite parse_u64_to_dec by lia. rewrite (proj2 (Z.ltb_ge _ _)) by (unfold kMaxTtlMs, kMaxTtlSeconds; lia).
    by rewrite wrap_small by lia.
  - unfold replica_write_command. cbn [vv_tombstone vv_value vv_version vv_ttl]. rewrite parse_repl_set by done.
    unfold with_options. rewrite parse_px_too_long; [done|]. unfold kMaxTtlMs, kMaxTtlSeconds. lia.
Qed.

(** *** Witnesses *)

Lemma replica_write_wire_witness :
  exists args,
    parse_request (resp_command (replica_write_command (lit "k") (mkVV (lit "v" ++ CRLF) (2 ^ 64 - 1) false (Some 0)))
                   ++ lit "*") = POk args 76 /\
    Parser_parse args = mkCommand CReplSet (lit "k") [] (lit "v" ++ CRLF) (Some 1) (2 ^ 64 - 1) [].
Proof.
  apply (replica_write_wire (lit "k") (mkVV (lit "v" ++ CRLF) (2 ^ 64 - 1) false (Some 0)) (lit "*")).
  - split; [cbn; lia|]. cbn. intros _ ms [= <-]. unfold kMaxTtlMs, kMaxTtlSeconds. lia.
  - apply short_bulk_ok. cbn. lia.
  - apply short_bulk_ok. cbn. lia.
Defined.

Lemma replica_get_wire_witness :
  exists r,
    parse_reply (append_value [] (encode_replica_get (Some (mkVV [] (2 ^ 63) true None))) ++ lit "+") =
      Some (POk r 42) /\
    decode_replica_get r = rr_success (mkVV [] (2 ^ 63) true None).
Proof.
  apply (replica_get_wire (Some (mkVV [] (2 ^ 63) true None)) (lit "+")).
  intros v [= <-]. split; [cbn; lia|]. split; [apply short_bulk_ok; cbn; lia|done].
Defined.

Lemma expire_unreplicable_witness :
  Parser_parse (replica_write_command (lit "k") (mkVV (lit "v") 7 false (Some 315360001000))) =
  invalid (lit "ERR syntax error").
Proof.
  apply (expire_unreplicable (lit "k") (lit "v") 7 315360001); unfold kMaxTtlMs, kMaxTtlSeconds; lia.
Defined.

Lemma gossip_wire_witness :
  let a := Membership_init (mkCN (lit "a") (lit "h") 7001) 2 5 in
  let b := Membership_init (mkCN (lit "b") (lit "h") 7002) 2 6 in
  exists r, exchange_gossip_result (rr_success r) a =
    (fst (Cluster_merge_gossip (snd (Cluster_merge_gossip (Cluster_members a) b)) a), true).
Proof.
  intros a b. pose proof (gossip_wire a b []) as G. cbv zeta in G.
  destruct (Cluster_merge_gossip (Cluster_members a) b) as [b' back] eqn:E.
  assert (Eb : back = [mkMI (mkCN (lit "a") (lit "h") 7001) 5 Alive; mkMI (mkCN (lit "b") (lit "h") 7002) 6 Alive]
    \/ back = [mkMI (mkCN (lit "b") (lit "h") 7002) 6 Alive; mkMI (mkCN (lit "a") (lit "h") 7001) 5 Alive]).
  { apply (f_equal snd) in E. cbn [snd] in E. subst back. vm_compute. auto. }
  assert (Ea : Cluster_members a = [mkMI (mkCN (lit "a") (lit "h") 7001) 5 Alive]) by (vm_compute; reflexivity).
  assert (Ok : forall id p g, (length id <= 100)%nat -> 0 <= p < 2 ^ 16 -> 0 <= g < 2 ^ 64 ->
    member_ok (mkMI (mkCN id (lit "h") p) g Alive)).
  { intros id p g Hi Hp Hg. split; [done|]. split; [done|]. split; apply short_bulk_ok; [done|cbn; lia]. }
  eexists. apply G.
  - rewrite Ea. repeat constructor; cbn; try lia; apply short_bulk_ok; cbn; lia.
  - rewrite Ea. cbn. lia.
  - destruct Eb as [-> | ->]; repeat constructor; cbn; try lia; apply short_bulk_ok; cbn; lia.
  - destruct Eb as [-> | ->]; cbn; lia.
Defined.
