(* ===== verification/Cluster.v ===== *)
(** * The coordinator

    Models the replication half of src/cluster.cpp on one node: quorum writes
    ([replicate], [put], [del], [expire_key]), quorum reads ([collect], [read],
    [read_repair]), the replica-side handlers and the hint queues.

    The local cache is any [VersionedStore].  A fan-out is three kinds of steps:
    the loop over the targets, the callbacks that run as replies arrive, and the
    code after the wait; the replies that arrive before the wait ends are an
    argument, and so are the clock readings.  Calls handed to
    [PeerChannels::call] are appended to an outbox.  [None] is undefined
    behaviour. *)

From S2P Require Import Prelude Numerals CacheEntry Cache CacheSpec VersionedStore HybridClock ConsistentHash RoutingTable HealthChecker Membership Resp Parser ReplicaWire.

Local Open Scope Z_scope.

(** ** Data *)

Inductive Consistency := Quorum | Linearizable.

#[export] Instance Consistency_eq_dec : EqDecision Consistency.
Proof. solve_decision. Defined.

(** The fields of [ClusterConfig] the coordinator reads; the replication factor
    is a field of [Membership]. *)
Record ClusterConfig := mkConfig {
  read_quorum : nat;
  write_quorum : nat;
  max_hints_per_node : nat;
  consistency : Consistency
}.

Inductive ReadStatus := RSFound | RSNotFound | RSUnavailable.

#[export] Instance ReadStatus_eq_dec : EqDecision ReadStatus.
Proof. solve_decision. Defined.

Record ReadResult := mkRead { read_status : ReadStatus; read_value : VersionedValue }.
Record WriteResult := mkWR { wr_ok : bool; wr_existed : bool; wr_acks : nat }.

(** The value-initialised results [return {}] makes. *)
Definition empty_vv : VersionedValue := mkVV [] 0 false None.
Definition read_unavailable : ReadResult := mkRead RSUnavailable empty_vv.
Definition write_failed : WriteResult := mkWR false false 0.

Record Hint := mkHint { hint_key : bytes; hint_value : VersionedValue; hint_deadline : option Z }.

(** The atomic counters of [Cluster]. *)
Record ClusterCounters := mkCounters {
  read_quorum_failures : Z;
  write_quorum_failures : Z;
  read_repairs : Z;
  hints_delivered : Z;
  hints_dropped : Z;
  keys_moved : Z
}.

(** A call handed to [PeerChannels::call]. *)
Record PeerCall := mkCall { call_node : CacheNode; call_args : list bytes }.

Record Cluster (S : Type) := mkCluster {
  cl_config : ClusterConfig;
  cl_mem : Membership;
  cl_clock : Z;
  cl_cache : S;
  cl_hints : gmap bytes (list Hint);
  cl_counters : ClusterCounters;
  cl_outbox : list PeerCall
}.
Arguments mkCluster {S} _ _ _ _ _ _ _.
Arguments cl_config {S} _.
Arguments cl_mem {S} _.
Arguments cl_clock {S} _.
Arguments cl_cache {S} _.
Arguments cl_hints {S} _.
Arguments cl_counters {S} _.
Arguments cl_outbox {S} _.

Section setters.
Context {S : Type}.
Implicit Types c : Cluster S.

Definition set_clock (t : Z) c : Cluster S :=
  mkCluster (cl_config c) (cl_mem c) t (cl_cache c) (cl_hints c) (cl_counters c) (cl_outbox c).
Definition set_cache (s : S) c : Cluster S :=
  mkCluster (cl_config c) (cl_mem c) (cl_clock c) s (cl_hints c) (cl_counters c) (cl_outbox c).
Definition set_hints (h : gmap bytes (list Hint)) c : Cluster S :=
  mkCluster (cl_config c) (cl_mem c) (cl_clock c) (cl_cache c) h (cl_counters c) (cl_outbox c).
Definition set_counters (f : ClusterCounters -> ClusterCounters) c : Cluster S :=
  mkCluster (cl_config c) (cl_mem c) (cl_clock c) (cl_cache c) (cl_hints c) (f (cl_counters c)) (cl_outbox c).
Definition peer_call (node : CacheNode) (args : list bytes) c : Cluster S :=
  mkCluster (cl_config c) (cl_mem c) (cl_clock c) (cl_cache c) (cl_hints c) (cl_counters c)
    (cl_outbox c ++ [mkCall node args]).
End setters.

Definition count_read_failure (k : ClusterCounters) : ClusterCounters :=
  mkCounters (u64 (read_quorum_failures k + 1)) (write_quorum_failures k) (read_repairs k)
    (hints_delivered k) (hints_dropped k) (keys_moved k).
Definition count_write_failure (k : ClusterCounters) : ClusterCounters :=
  mkCounters (read_quorum_failures k) (u64 (write_quorum_failures k + 1)) (read_repairs k)
    (hints_delivered k) (hints_dropped k) (keys_moved k).
Definition count_repairs (n : nat) (k : ClusterCounters) : ClusterCounters :=
  mkCounters (read_quorum_failures k) (write_quorum_failures k) (u64 (read_repairs k + Z.of_nat n))
    (hints_delivered k) (hints_dropped k) (keys_moved k).
Definition count_delivered (n : nat) (k : ClusterCounters) : ClusterCounters :=
  mkCounters (read_quorum_failures k) (write_quorum_failures k) (read_repairs k)
    (u64 (hints_delivered k + Z.of_nat n)) (hints_dropped k) (keys_moved k).
Definition count_dropped (k : ClusterCounters) : ClusterCounters :=
  mkCounters (read_quorum_failures k) (write_quorum_failures k) (read_repairs k)
    (hints_delivered k) (u64 (hints_dropped k + 1)) (keys_moved k).

(** ** Helpers *)

(** [newer] and [same_version]. *)
Definition newer (a b : VersionedValue) : bool :=
  supersedes (vv_version a) (vv_tombstone a) (vv_value a)
    (mkEntry (vv_value b) None (vv_version b) (vv_tombstone b)).

Definition same_version (a b : VersionedValue) : bool :=
  (vv_version a =? vv_version b) && Bool.eqb (vv_tombstone a) (vv_tombstone b) &&
  bytes_eqb (vv_value a) (vv_value b).

(** [Cluster::effective_quorum]. *)
Definition effective_quorum (rf configured replicas : nat) : nat :=
  let q := if (configured =? 0)%nat then (rf / 2 + 1)%nat else configured in
  Nat.max 1 (Nat.min q replicas).

Section cluster.
Context {S : Type} `{VersionedStore S}.
Implicit Types c : Cluster S.

Definition read_needed c (replicas : nat) : nat :=
  effective_quorum (replication_factor (cl_mem c)) (read_quorum (cl_config c)) replicas.
Definition write_needed c (replicas : nat) : nat :=
  effective_quorum (replication_factor (cl_mem c)) (write_quorum (cl_config c)) replicas.

(** [Cluster::can_serve_locally]. *)
Definition can_serve_locally (key : bytes) (is_write : bool) c : option bool :=
  let table := routing_ (cl_mem c) in
  match rt_points_ table with
  | [] => Some false
  | _ =>
      let point := RoutingTable_point_for key table in
      is_local ← RoutingTable_local_is_replica point table;
      if (is_local : bool) then
        idxs ← rt_replicas_ table !! point;
        Some (if is_write || bool_decide (consistency (cl_config c) = Linearizable)
              then (length idxs =? 1)%nat
              else (read_needed c (length idxs) =? 1)%nat)
      else Some false
  end.

(** [Cluster::add_hint]; [pop_front] on an empty queue is undefined. *)
Definition add_hint (now : Z) (node : CacheNode) (key : bytes) (v : VersionedValue) c : option (Cluster S) :=
  let deadline := (fun ttl => now + ttl * ns_per_ms) <$> vv_ttl v in
  let queue := default [] (cl_hints c !! cn_id node) in
  let hint := mkHint key v deadline in
  if (max_hints_per_node (cl_config c) <=? length queue)%nat then
    match queue with
    | [] => None
    | _ :: queue' =>
        Some (set_counters count_dropped (set_hints (<[cn_id node := queue' ++ [hint]]> (cl_hints c)) c))
    end
  else Some (set_hints (<[cn_id node := queue ++ [hint]]> (cl_hints c)) c).

(** ** Writes *)

(** The shared state of one [replicate] call, and the targets whose callback has
    not run yet. *)
Record WriteCall := mkWriteCall {
  wc_key : bytes;
  wc_value : VersionedValue;
  wc_targets : list CacheNode;
  wc_needed : nat;
  wc_done : nat;
  wc_acks : nat;
  wc_existed : bool;
  wc_pending : list CacheNode
}.

(** The lambda [record]. *)
Definition record_write (ok live : bool) (w : WriteCall) : WriteCall :=
  mkWriteCall (wc_key w) (wc_value w) (wc_targets w) (wc_needed w) (wc_done w + 1)
    (if ok then wc_acks w + 1 else wc_acks w)
    (if ok then wc_existed w || live else wc_existed w) (wc_pending w).

Definition set_pending (l : list CacheNode) (w : WriteCall) : WriteCall :=
  mkWriteCall (wc_key w) (wc_value w) (wc_targets w) (wc_needed w) (wc_done w) (wc_acks w) (wc_existed w) l.

(** One iteration of the loop over the targets. *)
Definition replicate_target (now : Z) (node : CacheNode) (w : WriteCall) c
    : option (Cluster S * WriteCall) :=
  if bytes_eqb (cn_id node) (local_id (cl_mem c)) then
    '(s, _, live) ← vs_apply now (wc_key w) (wc_value w) (cl_cache c);
    Some (set_cache s c, record_write true live w)
  else if negb (Cluster_is_node_healthy (cn_id node) (cl_mem c)) then
    c' ← add_hint now node (wc_key w) (wc_value w) c;
    Some (c', record_write false false w)
  else
    Some (peer_call node (replica_write_command (wc_key w) (wc_value w)) c,
          set_pending (wc_pending w ++ [node]) w).

(** The loop; [clk i] is the time of iteration [i]. *)
Fixpoint replicate_loop (clk : nat -> Z) (i : nat) (nodes : list CacheNode) (w : WriteCall) c
    : option (Cluster S * WriteCall) :=
  match nodes with
  | [] => Some (c, w)
  | node :: rest =>
      '(c', w') ← replicate_target (clk i) node w c;
      replicate_loop clk (i + 1) rest w' c'
  end.

(** The callback of the call to [node]. *)
Definition replicate_reply (now : Z) (node : CacheNode) (res : RequestResult RespValue) (w : WriteCall) c
    : option (Cluster S * WriteCall) :=
  let w := set_pending (List.filter (fun n => negb (bytes_eqb (cn_id n) (cn_id node))) (wc_pending w)) w in
  let '(ok, live) :=
    match rr_is_ok res, rr_value res with
    | true, Some v =>
        let decoded := decode_replica_write v in
        (rr_is_ok decoded, default false (rr_value decoded))
    | _, _ => (false, false)
    end in
  if (ok : bool) then Some (c, record_write true live w)
  else
    c' ← add_hint now node (wc_key w) (wc_value w) c;
    Some (c', record_write false live w).

(** Replies in the order their callbacks run; a reply comes from a pending
    target. *)
Fixpoint replicate_replies (arrivals : list (Z * CacheNode * RequestResult RespValue)) (w : WriteCall) c
    : option (Cluster S * WriteCall) :=
  match arrivals with
  | [] => Some (c, w)
  | (now, node, res) :: rest =>
      if decide (node ∈ wc_pending w) then
        '(c', w') ← replicate_reply now node res w c;
        replicate_replies rest w' c'
      else None
  end.

(** The predicate of [wait_for]; the wait also ends on a timeout. *)
Definition write_ready (w : WriteCall) : bool :=
  (wc_needed w <=? wc_acks w)%nat || (wc_done w =? length (wc_targets w))%nat.

(** After the wait. *)
Definition replicate_finish (w : WriteCall) c : Cluster S * WriteResult :=
  let ok := (wc_needed w <=? wc_acks w)%nat in
  (if ok then c else set_counters count_write_failure c, mkWR ok (wc_existed w) (wc_acks w)).

(** What a write is exposed to: the clock during its loop, and the replies that
    arrive before its wait ends. *)
Record WriteEnv := mkWriteEnv {
  we_clk : nat -> Z;
  we_arrivals : list (Z * CacheNode * RequestResult RespValue)
}.

(** [Cluster::replicate]; the last component is the call whose late replies are
    still to come, if any. *)
Definition Cluster_replicate (env : WriteEnv) (key : bytes) (v : VersionedValue) c
    : option (Cluster S * WriteResult * option WriteCall) :=
  local ← can_serve_locally key true c;
  if (local : bool) then
    '(s, _, live) ← vs_apply (we_clk env 0%nat) key v (cl_cache c);
    Some (set_cache s c, mkWR true live 1, None)
  else
    targets ← Cluster_preference_list key (cl_mem c);
    match targets with
    | [] => Some (c, write_failed, None)
    | _ =>
        let w0 := mkWriteCall key v targets (write_needed c (length targets)) 0 0 false [] in
        '(c1, w1) ← replicate_loop (we_clk env) 0 targets w0 c;
        '(c2, w2) ← replicate_replies (we_arrivals env) w1 c1;
        let '(c3, r) := replicate_finish w2 c2 in
        Some (c3, r, Some w2)
    end.

(** ** Reads *)

Record ReadCall := mkReadCall {
  rc_key : bytes;
  rc_targets : list CacheNode;
  rc_needed : nat;
  rc_done : nat;
  rc_replies : nat;
  rc_values : list (option VersionedValue);
  rc_replied : list bool;
  rc_pending : list nat
}.

(** The lambda [record] of [collect]. *)
Definition record_read (i : nat) (ok : bool) (value : option VersionedValue) (r : ReadCall) : ReadCall :=
  if ok then
    mkReadCall (rc_key r) (rc_targets r) (rc_needed r) (rc_done r + 1) (rc_replies r + 1)
      (<[i := value]> (rc_values r)) (<[i := true]> (rc_replied r)) (rc_pending r)
  else
    mkReadCall (rc_key r) (rc_targets r) (rc_needed r) (rc_done r + 1) (rc_replies r)
      (rc_values r) (rc_replied r) (rc_pending r).

Definition set_read_pending (l : list nat) (r : ReadCall) : ReadCall :=
  mkReadCall (rc_key r) (rc_targets r) (rc_needed r) (rc_done r) (rc_replies r) (rc_values r)
    (rc_replied r) l.

(** One iteration of the loop of [collect]. *)
Definition collect_target (now : Z) (i : nat) (node : CacheNode) (r : ReadCall) c
    : option (Cluster S * ReadCall) :=
  if bytes_eqb (cn_id node) (local_id (cl_mem c)) then
    '(s, value) ← vs_get_versioned now (rc_key r) (cl_cache c);
    Some (set_cache s c, record_read i true value r)
  else if negb (Cluster_is_node_healthy (cn_id node) (cl_mem c)) then
    Some (c, record_read i false None r)
  else
    Some (peer_call node (replica_get_command (rc_key r)) c,
          set_read_pending (rc_pending r ++ [i]) r).

Fixpoint collect_loop (clk : nat -> Z) (i : nat) (nodes : list CacheNode) (r : ReadCall) c
    : option (Cluster S * ReadCall) :=
  match nodes with
  | [] => Some (c, r)
  | node :: rest =>
      '(c', r') ← collect_target (clk i) i node r c;
      collect_loop clk (i + 1) rest r' c'
  end.

(** The callback of the call to target [i]. *)
Definition collect_reply (i : nat) (res : RequestResult RespValue) (r : ReadCall) : ReadCall :=
  let r := set_read_pending (List.filter (fun j => negb (j =? i)%nat) (rc_pending r)) r in
  match rr_is_ok res, rr_value res with
  | true, Some v =>
      let decoded := decode_replica_get v in
      if rr_is_ok decoded then record_read i true (rr_value decoded) r
      else record_read i (rr_is_not_found decoded) None r
  | _, _ => record_read i false None r
  end.

Fixpoint collect_replies (arrivals : list (nat * RequestResult RespValue)) (r : ReadCall) : option ReadCall :=
  match arrivals with
  | [] => Some r
  | (i, res) :: rest =>
      if decide (i ∈ rc_pending r) then collect_replies rest (collect_reply i res r) else None
  end.

(** The predicate of [wait_for]. *)
Definition read_ready (r : ReadCall) : bool :=
  (rc_needed r <=? rc_replies r)%nat || (rc_done r =? length (rc_targets r))%nat.

Record QuorumReplies := mkReplies {
  qr_ok : bool;
  qr_targets : list CacheNode;
  qr_values : list (option VersionedValue);
  qr_replied : list bool
}.

Record ReadEnv := mkReadEnv {
  re_clk : nat -> Z;
  re_arrivals : list (nat * RequestResult RespValue)
}.

(** [Cluster::collect]. *)
Definition Cluster_collect (env : ReadEnv) (key : bytes) c : option (Cluster S * QuorumReplies) :=
  targets ← Cluster_preference_list key (cl_mem c);
  match targets with
  | [] => Some (c, mkReplies false [] [] [])
  | _ =>
      let n := length targets in
      let r0 := mkReadCall key targets (read_needed c n) 0 0 (replicate n None) (replicate n false) [] in
      '(c1, r1) ← collect_loop (re_clk env) 0 targets r0 c;
      r2 ← collect_replies (re_arrivals env) r1;
      Some (c1, mkReplies (rc_needed r2 <=? rc_replies r2)%nat targets (rc_values r2) (rc_replied r2))
  end.

(** The lambda [to_result] of [read]. *)
Definition to_result (v : option VersionedValue) : ReadResult :=
  match v with
  | Some x => if vv_tombstone x then mkRead RSNotFound empty_vv else mkRead RSFound x
  | None => mkRead RSNotFound empty_vv
  end.

(** One iteration of the loop that picks the winner. *)
Definition pick (winner : option VersionedValue) (replied : bool) (value : option VersionedValue)
    : option VersionedValue :=
  match replied, value with
  | true, Some v =>
      match winner with
      | Some w => if newer v w then Some v else winner
      | None => Some v
      end
  | _, _ => winner
  end.

(** The loops run over the three vectors of the replies in step. *)
Definition replies_list (q : QuorumReplies) : list (CacheNode * bool * option VersionedValue) :=
  zip (zip (qr_targets q) (qr_replied q)) (qr_values q).

Definition pick_winner (q : QuorumReplies) : option VersionedValue :=
  foldl (fun w '(_, replied, value) => pick w replied value) None (replies_list q).

(** Whether a reply already holds the winner. *)
Definition holds (winner : VersionedValue) (value : option VersionedValue) : bool :=
  match value with Some v => same_version v winner | None => false end.

(** The targets that replied without the winner, and how many replied with
    it. *)
Definition stale_targets (winner : VersionedValue) (q : QuorumReplies) : list CacheNode :=
  (fun x => x.1.1) <$>
    List.filter (fun '(_, replied, value) => replied && negb (holds winner value)) (replies_list q).
Definition up_to_date (winner : VersionedValue) (q : QuorumReplies) : nat :=
  length (List.filter (fun '(_, replied, value) => replied && holds winner value) (replies_list q)).

(** [Cluster::read_repair]. *)
Fixpoint read_repair (now : Z) (key : bytes) (winner : VersionedValue) (stale : list CacheNode) c
    : option (Cluster S) :=
  match stale with
  | [] => Some c
  | node :: rest =>
      if bytes_eqb (cn_id node) (local_id (cl_mem c)) then
        '(s, _, _) ← vs_apply now key winner (cl_cache c);
        read_repair now key winner rest (set_cache s c)
      else read_repair now key winner rest (peer_call node (replica_write_command key winner) c)
  end.

(** What a read is exposed to: the clock of its fast path, its collection of
    replies, and its second phase. *)
Record FullReadEnv := mkFullRead {
  fr_now : Z;
  fr_collect : ReadEnv;
  fr_repair_now : Z;
  fr_writeback : WriteEnv
}.

(** [Cluster::read] after the replies are in; the last component is the
    write-back whose late replies are still to come. *)
Definition read_decide (env : FullReadEnv) (key : bytes) (q : QuorumReplies) c
    : option (Cluster S * ReadResult * option WriteCall) :=
  match pick_winner q with
  | None => Some (c, to_result None, None)
  | Some winner =>
      let c := set_clock (HybridClock_observe (vv_version winner) (cl_clock c)) c in
      let stale := stale_targets winner q in
      let c := set_counters (count_repairs (length stale)) c in
      if bool_decide (consistency (cl_config c) = Linearizable) &&
         (up_to_date winner q <? write_needed c (length (qr_targets q)))%nat then
        '(c', r, w) ← Cluster_replicate (fr_writeback env) key winner c;
        Some (c', if wr_ok r then to_result (Some winner) else read_unavailable, w)
      else
        c' ← read_repair (fr_repair_now env) key winner stale c;
        Some (c', to_result (Some winner), None)
  end.

(** [Cluster::read]. *)
Definition Cluster_read (env : FullReadEnv) (key : bytes) c
    : option (Cluster S * ReadResult * option WriteCall) :=
  local ← can_serve_locally key false c;
  if (local : bool) then
    '(s, v) ← vs_get_versioned (fr_now env) key (cl_cache c);
    Some (set_cache s c, to_result v, None)
  else
    '(c1, q) ← Cluster_collect (fr_collect env) key c;
    if negb (qr_ok q) then Some (set_counters count_read_failure c1, read_unavailable, None)
    else read_decide env key q c1.

(** ** Versions, and the operations *)

(** The loop of [next_version] over the replies. *)
Definition observe_replies (q : QuorumReplies) (clock : Z) : Z :=
  foldl (fun t '(_, replied, value) =>
           match replied, value with
           | true, Some v => HybridClock_observe (vv_version v) t
           | _, _ => t
           end) clock (replies_list q).

(** [clock_.now()]; [ms] is the wall clock. *)
Definition clock_now (ms : Z) c : Cluster S * Z :=
  let t := HybridClock_now ms (cl_clock c) in (set_clock t c, t).

(** [Cluster::next_version]. *)
Definition next_version (env : ReadEnv) (ms : Z) (key : bytes) c : option (Cluster S * option Z) :=
  query ← (if bool_decide (consistency (cl_config c) = Linearizable) then
             local ← can_serve_locally key true c; Some (negb local)
           else Some false);
  if (query : bool) then
    '(c1, q) ← Cluster_collect env key c;
    if negb (qr_ok q) then Some (set_counters count_write_failure c1, None)
    else
      let '(c2, t) := clock_now ms (set_clock (observe_replies q (cl_clock c1)) c1) in Some (c2, Some t)
  else
    let '(c1, t) := clock_now ms c in Some (c1, Some t).

(** What a write operation is exposed to. *)
Record FullWriteEnv := mkFullWrite {
  fw_query : ReadEnv;
  fw_ms : Z;
  fw_write : WriteEnv
}.

(** [Cluster::put]. *)
Definition Cluster_put (env : FullWriteEnv) (key value : bytes) (ttl : option Z) c
    : option (Cluster S * WriteResult * option WriteCall) :=
  '(c1, version) ← next_version (fw_query env) (fw_ms env) key c;
  match version with
  | None => Some (c1, write_failed, None)
  | Some t => Cluster_replicate (fw_write env) key (mkVV value t false ttl) c1
  end.

(** [Cluster::del]. *)
Definition Cluster_del (env : FullWriteEnv) (key : bytes) c
    : option (Cluster S * WriteResult * option WriteCall) :=
  '(c1, version) ← next_version (fw_query env) (fw_ms env) key c;
  match version with
  | None => Some (c1, write_failed, None)
  | Some t => Cluster_replicate (fw_write env) key (mkVV [] t true None) c1
  end.

(** [Cluster::expire_key]; the calls whose late replies are still to come are
    those of the read and of the write. *)
Definition Cluster_expire_key (renv : FullReadEnv) (ms : Z) (wenv : WriteEnv) (key : bytes) (ttl : Z) c
    : option (Cluster S * WriteResult * list WriteCall) :=
  '(c1, current, w1) ← Cluster_read renv key c;
  match read_status current with
  | RSUnavailable => Some (c1, write_failed, option_list w1)
  | RSNotFound => Some (c1, mkWR true false 0, option_list w1)
  | RSFound =>
      let '(c2, t) := clock_now ms c1 in
      '(c3, r, w2) ← Cluster_replicate wenv key (mkVV (vv_value (read_value current)) t false (Some ttl)) c2;
      Some (c3, mkWR (wr_ok r) true (wr_acks r), option_list w1 ++ option_list w2)
  end.

(** ** The replica side *)

(** [Cluster::apply_replica_write]. *)
Definition Cluster_apply_replica_write (now : Z) (key : bytes) (v : VersionedValue) c
    : option (Cluster S * bool) :=
  '(s, _, was_live) ← vs_apply now key v (cl_cache c);
  Some (set_cache s (set_clock (HybridClock_observe (vv_version v) (cl_clock c)) c), was_live).

(** [Cluster::replica_read]. *)
Definition Cluster_replica_read (now : Z) (key : bytes) c : option (Cluster S * option VersionedValue) :=
  '(s, v) ← vs_get_versioned now key (cl_cache c);
  Some (set_cache s c, v).

(** ** Hinted handoff *)

(** [Cluster::pending_hints]. *)
Definition Cluster_pending_hints c : nat :=
  map_fold (fun _ q n => (length q + n)%nat) 0%nat (cl_hints c).

Definition kBatch : nat := 1024.

(** The second critical section of [replay_hints] for [id]: the batch taken, or
    none when the node has left and its queue is cleared. *)
Definition replay_take (id : bytes) c : Cluster S * option (CacheNode * list Hint) :=
  let queue := default [] (cl_hints c !! id) in
  match nodes_ (cl_mem c) !! id with
  | None => (set_hints (<[id := []]> (cl_hints c)) c, None)
  | Some node => (set_hints (<[id := drop kBatch queue]> (cl_hints c)) c, Some (node, take kBatch queue))
  end.

(** A queued hint as it is sent at [now]: the TTL is what remains of it, in
    milliseconds rounded down; [None] when it expired in the queue. *)
Definition refresh_hint (now : Z) (h : Hint) : option Hint :=
  match hint_deadline h with
  | None => Some h
  | Some d =>
      if d <=? now then None
      else
        let v := hint_value h in
        Some (mkHint (hint_key h)
                (mkVV (vv_value v) (vv_version v) (vv_tombstone v) (Some ((d - now) `quot` ns_per_ms)))
                (Some d))
  end.

Definition hint_command (h : Hint) : list bytes := replica_write_command (hint_key h) (hint_value h).

(** The delivery loop: what is left of the batch, how many were delivered, and
    the commands sent.  [sent] answers, in order, whether each [send_write]
    succeeded. *)
Fixpoint replay_deliver (now : Z) (sent : list bool) (batch : list Hint)
    : list Hint * nat * list (list bytes) :=
  match batch with
  | [] => ([], 0%nat, [])
  | h :: rest =>
      match refresh_hint now h with
      | None => replay_deliver now sent rest
      | Some h' =>
          match sent with
          | true :: sent' =>
              let '(remaining, n, cmds) := replay_deliver now sent' rest in
              (remaining, (n + 1)%nat, hint_command h' :: cmds)
          | _ => (h' :: rest, 0%nat, [hint_command h'])
          end
      end
  end.

(** The last critical section: what is left goes back to the front. *)
Definition replay_put_back (id : bytes) (remaining : list Hint) (delivered : nat) c : Cluster S :=
  let queue := default [] (cl_hints c !! id) in
  set_counters (count_delivered delivered)
    (match remaining with [] => c | _ => set_hints (<[id := remaining ++ queue]> (cl_hints c)) c end).

(** [replay_hints] for one node with queued hints, when no other thread touches
    the queue in between. *)
Definition replay_node (now : Z) (sent : list bool) (id : bytes) c : Cluster S * list (list bytes) :=
  if negb (Cluster_is_node_healthy id (cl_mem c)) then (c, [])
  else
    let '(c1, work) := replay_take id c in
    match work with
    | None => (c1, [])
    | Some (_, batch) =>
        let '(remaining, delivered, cmds) := replay_deliver now sent batch in
        (replay_put_back id remaining delivered c1, cmds)
    end.

End cluster.
