(* ===== verification/ClusterLemmas.v ===== *)
(** * Lemmas about the coordinator

    The reasoning about Cluster.v behind the theorems of ClusterProps.v: quorums
    overlap, the invariants of a write and of a read in progress, what a
    collection of replies holds, the node's invariant and that every operation
    returns and keeps it. *)

From S2P Require Import Prelude Numerals CacheEntry Cache CacheSpec CacheRefine CacheProps VersionedStore HybridClock ConsistentHash RoutingTable HealthChecker Membership Resp Parser ReplicaWire Cluster.

Local Open Scope Z_scope.

(** ** The order on optional stamps *)

Definition ostamp_le (a b : option Stamp) : Prop := ostamp_max a b = b.

#[export] Instance ostamp_le_preorder : PreOrder ostamp_le.
Proof.
  split.
  - intros [x|]; [|done]. unfold ostamp_le, ostamp_max. by rewrite stamp_max_idemp.
  - intros a b c E1 E2. unfold ostamp_le in *. by rewrite <-E2, ostamp_max_assoc, E1.
Qed.

Lemma ostamp_le_max_l a b : ostamp_le a (ostamp_max a b).
Proof.
  unfold ostamp_le. rewrite ostamp_max_assoc. f_equal. apply (reflexivity (R := ostamp_le)).
Qed.

Lemma ostamp_le_max_r a b : ostamp_le b (ostamp_max a b).
Proof. rewrite ostamp_max_comm. apply ostamp_le_max_l. Qed.

Lemma ostamp_le_none b : ostamp_le None b.
Proof. done. Qed.

#[export] Hint Resolve ostamp_le_max_l ostamp_le_max_r ostamp_le_none : shard.

Lemma newer_stamp a b : newer a b = stamp_gtb (stamp_of_vv a) (stamp_of_vv b).
Proof. done. Qed.

Lemma same_version_stamp a b : same_version a b = bool_decide (stamp_of_vv a = stamp_of_vv b).
Proof.
  unfold same_version, bytes_eqb, stamp_of_vv. symmetry.
  destruct (Z.eqb_spec (vv_version a) (vv_version b)) as [->|]; [|rewrite bool_decide_false; [done|congruence]].
  destruct (Bool.eqb (vv_tombstone a) (vv_tombstone b)) eqn:E;
    [apply Bool.eqb_prop in E as ->|apply Bool.eqb_false_iff in E; rewrite bool_decide_false; [done|congruence]].
  simpl. apply bool_decide_ext. split; [by intros [=]|by intros ->].
Qed.

Lemma ostamp_le_version a b : ostamp_le (Some a) (Some b) -> st_version a <= st_version b.
Proof.
  unfold ostamp_le, ostamp_max, stamp_max. destruct (stamp_gtb b a) eqn:E; intros E'; [|injection E' as ->; lia].
  apply stamp_gtb_cases in E. lia.
Qed.

(** ** Quorums overlap *)

Lemma effective_quorum_sum rf r w n :
  (n <= rf)%nat -> (0 < n)%nat ->
  (rf < (if r =? 0 then rf / 2 + 1 else r) + (if w =? 0 then rf / 2 + 1 else w))%nat ->
  (n < effective_quorum rf r n + effective_quorum rf w n)%nat.
Proof.
  intros Hn H0 Hs. unfold effective_quorum. repeat case_match; lia.
Qed.

Lemma lists_meet (T A B : list bytes) :
  NoDup A -> NoDup B -> (forall x, x ∈ A -> x ∈ T) -> (forall x, x ∈ B -> x ∈ T) ->
  (length T < length A + length B)%nat -> exists x, x ∈ A /\ x ∈ B.
Proof.
  intros NA NB HA HB Hl. destruct (decide (Exists (fun x => x ∈ B) A)) as [E|E].
  - apply Exists_exists in E as (x & H1 & H2). eauto.
  - exfalso. assert (ND : NoDup (A ++ B)).
    { apply NoDup_app. split; [done|]. split; [|done]. intros x Hx HxB. apply E, Exists_exists. eauto. }
    assert (Hi : incl (A ++ B) T).
    { intros x Hx%list_elem_of_In. apply list_elem_of_In. apply elem_of_app in Hx as [?|?]; auto. }
    pose proof (NoDup_incl_length (proj1 (NoDup_ListNoDup _) ND) Hi) as L.
    rewrite length_app in L. lia.
Qed.

(** ** Routing facts *)

(** The published table is that of some ring (not necessarily the current one). *)
Definition routing_ok (m : Membership) : Prop :=
  exists r, ring_wf r /\ Z.of_nat (size (point_owners r)) <= 65536 /\
    routing_ m = RoutingTable_new r (replication_factor m) (local_id m).

Section props.
Context {S : Type} `{VersionedStoreLaws S}.
Implicit Types c : Cluster S.

Lemma targets_exist key m :
  routing_ok m ->
  exists targets, Cluster_preference_list key m = Some targets /\
    NoDup (cn_id <$> targets) /\ (length targets <= replication_factor m)%nat.
Proof.
  intros (r & W & Hs & E). eexists. unfold Cluster_preference_list. rewrite E.
  split; [by apply routing_table_correct|]. rewrite locate_replicas_walk by eauto with shard.
  fold (successors key r). split.
  - rewrite fmap_take. eapply sublist_NoDup; [apply (dedup_by_NoDup cn_id)|apply sublist_take].
  - rewrite length_take. lia.
Qed.

(** The fast path is taken exactly when the local node is a replica and needs
    nobody else. *)
Lemma can_serve_locally_spec key is_write c targets :
  routing_ok (cl_mem c) -> Cluster_preference_list key (cl_mem c) = Some targets ->
  can_serve_locally key is_write c =
  Some (bool_decide (local_id (cl_mem c) ∈ cn_id <$> targets) &&
        (if is_write || bool_decide (consistency (cl_config c) = Linearizable)
         then (length targets =? 1)%nat else (read_needed c (length targets) =? 1)%nat)).
Proof.
  intros (r & W & Hs & E) Ht. unfold can_serve_locally, Cluster_preference_list in *. rewrite E in *.
  set (t := RoutingTable_new _ _ _) in *. set (rf := replication_factor _) in *. set (lid := local_id _) in *.
  destruct (routing_table_correct r rf lid key W Hs) as [Hp Hl]. fold t in Hp, Hl.
  assert (targets = Ring_locate_replicas key rf r) as -> by congruence. clear Ht.
  assert (Hpts : rt_points_ t = (ring_ r).*1) by (by apply index_run_inv).
  destruct (decide (ring_ r = [])) as [En|Hne].
  { rewrite Hpts, En. simpl. rewrite bool_decide_false; [done|].
    unfold Ring_locate_replicas. rewrite En. apply not_elem_of_nil. }
  rewrite Hpts. destruct (ring_ r).*1 eqn:Er; [by apply fmap_nil_inv in Er|].
  rewrite (Hl Hne). cbn [mbind option_bind]. destruct (table_row r rf lid key W Hs Hne) as (row & Hrow & HR). fold t in Hrow.
  case_bool_decide; [|done]. rewrite Hrow. cbn [mbind option_bind andb]. by rewrite (Forall2_length _ _ _ HR).
Qed.

(** ** The invariant *)

Record cluster_wf c : Prop := {
  cw_cache : vs_wf (cl_cache c);
  cw_max : (0 < max_hints_per_node (cl_config c))%nat;
  cw_hints : forall id q, cl_hints c !! id = Some q -> (length q <= max_hints_per_node (cl_config c))%nat;
  cw_routing : routing_ok (cl_mem c)
}.

(** What no step of a fan-out changes. *)
Definition same_setup c c' : Prop :=
  cl_config c' = cl_config c /\ cl_mem c' = cl_mem c /\ cl_clock c' = cl_clock c.

#[export] Instance same_setup_preorder : PreOrder same_setup.
Proof. split; [by intros c|]. intros a b c (? & ? & ?) (? & ? & ?). split_and!; congruence. Qed.

Lemma set_cache_wf s c : cluster_wf c -> vs_wf s -> cluster_wf (set_cache s c).
Proof. intros [] ?. by split. Qed.

Lemma set_clock_wf t c : cluster_wf c -> cluster_wf (set_clock t c).
Proof. intros []. by split. Qed.

Lemma set_counters_wf f c : cluster_wf c -> cluster_wf (set_counters f c).
Proof. intros []. by split. Qed.

Lemma peer_call_wf n a c : cluster_wf c -> cluster_wf (peer_call n a c).
Proof. intros []. by split. Qed.

(** A hint for [node] is queued. *)
Definition hinted (key : bytes) (v : VersionedValue) (node : CacheNode) c : Prop :=
  exists d, mkHint key v d ∈ default [] (cl_hints c !! cn_id node).

Lemma add_hint_spec now node key v c :
  cluster_wf c ->
  exists c', add_hint now node key v c = Some c' /\ cluster_wf c' /\ same_setup c c' /\
    cl_cache c' = cl_cache c /\ cl_outbox c' = cl_outbox c /\
    hinted key v node c' /\
    forall id, id <> cn_id node -> cl_hints c' !! id = cl_hints c !! id.
Proof.
  intros W. unfold add_hint. set (queue := default [] (cl_hints c !! cn_id node)).
  assert (Hq : (length queue <= max_hints_per_node (cl_config c))%nat).
  { unfold queue. destruct (cl_hints c !! cn_id node) eqn:E; simpl; [by eapply W|lia]. }
  assert (K : forall q d, (length q < max_hints_per_node (cl_config c))%nat ->
    let h := <[cn_id node := q ++ [mkHint key v d]]> (cl_hints c) in
    cluster_wf (set_hints h c) /\ hinted key v node (set_hints h c) /\
    forall id, id <> cn_id node -> h !! id = cl_hints c !! id).
  { intros q d Hl. split; [|split].
    - destruct W. split; try done. cbn [cl_hints set_hints cl_config]. intros id q'.
      rewrite lookup_insert_Some. intros [[_ <-]|[_ ?]]; [rewrite length_app; simpl; lia|eauto].
    - exists d. cbn [cl_hints set_hints]. rewrite lookup_insert_eq. simpl. apply elem_of_app. right.
      by apply list_elem_of_singleton.
    - intros id Hne. by rewrite lookup_insert_ne. }
  pose proof (cw_max c W). destruct (_ <=? length queue)%nat eqn:E; bool_facts.
  - destruct queue as [|h queue'] eqn:Eq; [simpl in *; lia|]. simpl in Hq.
    destruct (K queue' ((fun ttl => now + ttl * ns_per_ms) <$> vv_ttl v)) as (K1 & K2 & K3); [lia|].
    eexists. split; [reflexivity|]. split_and!; try done. by apply set_counters_wf.
  - destruct (K queue ((fun ttl => now + ttl * ns_per_ms) <$> vv_ttl v)) as (K1 & K2 & K3); [lia|].
    eexists. split; [reflexivity|]. by split_and!.
Qed.

(** ** A write accounts for every target *)

(** The reply of a replica that took the write. *)
Definition acknowledges (res : RequestResult RespValue) : bool :=
  match rr_is_ok res, rr_value res with
  | true, Some v => rr_is_ok (decode_replica_write v)
  | _, _ => false
  end.

(** Where the write stands after the targets [processed]: each has acknowledged
    ([acked]), or has a queued hint ([hintd]), or has been called and not
    answered. *)
Record write_inv (arr : list (Z * CacheNode * RequestResult RespValue)) (processed : list CacheNode)
    (w : WriteCall) (c : Cluster S) (acked hintd : list CacheNode) : Prop := {
  wi_wf : cluster_wf c;
  wi_perm : processed ≡ₚ acked ++ hintd ++ wc_pending w;
  wi_acks : wc_acks w = length acked;
  wi_done : wc_done w = (length acked + length hintd)%nat;
  wi_acked : forall n, n ∈ acked -> cn_id n = local_id (cl_mem c) \/
    exists t res, (t, n, res) ∈ arr /\ acknowledges res = true;
  wi_hinted : forall n, n ∈ hintd -> hinted (wc_key w) (wc_value w) n c;
  wi_sent : forall n, n ∈ wc_pending w ->
    mkCall n (replica_write_command (wc_key w) (wc_value w)) ∈ cl_outbox c;
  wi_local : forall n, n ∈ processed -> cn_id n = local_id (cl_mem c) ->
    n ∈ acked /\ (ttl_positive (wc_value w) ->
      exists t, ostamp_le (Some (stamp_of_vv (wc_value w))) (vs_view t (wc_key w) (cl_cache c)))
}.

(** What the steps of a call keep. *)
Definition same_write (w w' : WriteCall) : Prop :=
  wc_key w' = wc_key w /\ wc_value w' = wc_value w /\ wc_targets w' = wc_targets w /\
  wc_needed w' = wc_needed w.

#[export] Instance same_write_preorder : PreOrder same_write.
Proof. split; [by intros w|]. intros a b c (?&?&?&?) (?&?&?&?). split_and!; congruence. Qed.

(** The targets that are called: neither this node nor known to be down. *)
Definition called c (node : CacheNode) : bool :=
  negb (bytes_eqb (cn_id node) (local_id (cl_mem c))) && Cluster_is_node_healthy (cn_id node) (cl_mem c).

Lemma hinted_frame key v n c c' : cl_hints c' !! cn_id n = cl_hints c !! cn_id n -> hinted key v n c -> hinted key v n c'.
Proof. unfold hinted. intros ->. done. Qed.

(** Queueing a hint for a target not among [P] keeps the others'. *)
Lemma hint_step arr P w c A Hd now node :
  write_inv arr P w c A Hd -> (forall n, n ∈ A ++ Hd -> cn_id n <> cn_id node) ->
  cn_id node <> local_id (cl_mem c) ->
  exists c', add_hint now node (wc_key w) (wc_value w) c = Some c' /\ same_setup c c' /\
    forall P' w', same_write w w' -> P' ≡ₚ A ++ (Hd ++ [node]) ++ wc_pending w' ->
      wc_acks w' = wc_acks w -> wc_done w' = (wc_done w + 1)%nat ->
      (forall n, n ∈ wc_pending w' -> n ∈ wc_pending w) ->
      (forall n, n ∈ P' -> cn_id n = local_id (cl_mem c) -> n ∈ P) ->
      write_inv arr P' w' c' A (Hd ++ [node]).
Proof.
  intros I Hne Hloc.
  destruct (add_hint_spec now node (wc_key w) (wc_value w) c (wi_wf _ _ _ _ _ _ I))
    as (c' & E & W' & Hs & Es & Eo & Hh & Hk). pose proof Hs as (Sc & Sm & _).
  exists c'. split; [done|]. split; [done|]. intros P' w' (K1 & K2 & _) HP Ha Hdn Hpend HPl. split.
  - done.
  - done.
  - rewrite Ha. apply I.
  - rewrite Hdn, (wi_done _ _ _ _ _ _ I), length_app. simpl. lia.
  - rewrite Sm. apply I.
  - rewrite K1, K2. intros n [Hn|Hn%list_elem_of_singleton]%elem_of_app; [|by subst].
    eapply hinted_frame; [apply Hk, Hne; set_solver|]. by apply I.
  - rewrite K1, K2, Eo. intros n Hn. by apply I, Hpend.
  - rewrite K1, K2, Es, Sm. intros n Hn El. apply I; [by apply HPl|done].
Qed.

Lemma replicate_target_inv arr P w c A Hd now node :
  write_inv arr P w c A Hd -> cn_id node ∉ cn_id <$> P ->
  exists c' w' A' Hd', replicate_target now node w c = Some (c', w') /\
    write_inv arr (P ++ [node]) w' c' A' Hd' /\ same_setup c c' /\ same_write w w' /\
    wc_pending w' = wc_pending w ++ (if called c node then [node] else []).
Proof.
  intros I Hnew. unfold replicate_target, called.
  assert (HP : forall n, n ∈ P -> cn_id n <> cn_id node).
  { intros n Hn E. apply Hnew. rewrite <-E. by apply list_elem_of_fmap_2. }
  destruct (bytes_eqb (cn_id node) (local_id (cl_mem c))) eqn:El; cbn [negb andb].
  - apply bytes_eqb_eq in El.
    destruct (vs_apply_law now (wc_key w) (wc_value w) (cl_cache c) (cw_cache c (wi_wf _ _ _ _ _ _ I)))
      as (s' & ch & live & E & Ws & Ev & _). rewrite E. simpl.
    eexists _, _, (A ++ [node]), Hd. split; [reflexivity|]. split; [|split; [done|split; [done|by rewrite app_nil_r]]].
    split; simpl.
    + apply set_cache_wf; [apply I|done].
    + rewrite (wi_perm _ _ _ _ _ _ I). solve_Permutation.
    + rewrite (wi_acks _ _ _ _ _ _ I), length_app. simpl. lia.
    + rewrite (wi_done _ _ _ _ _ _ I), length_app. simpl. lia.
    + intros n [Hn|Hn%list_elem_of_singleton]%elem_of_app; [by apply I|subst; by left].
    + intros n Hn. eapply hinted_frame; [|by apply I]. done.
    + apply I.
    + intros n [Hn|Hn%list_elem_of_singleton]%elem_of_app Hl; [exfalso; apply (HP n Hn); congruence|].
      subst n. split; [set_solver|]. intros Hv. exists now. rewrite (proj1 (Ev Hv)). apply ostamp_le_max_r.
  - apply bool_decide_eq_false_1 in El.
    destruct (Cluster_is_node_healthy (cn_id node) (cl_mem c)) eqn:Eh; cbn [negb].
    + eexists _, _, A, Hd. split; [reflexivity|]. split; [|split; [done|split; [done|done]]]. split; simpl.
      * apply peer_call_wf, I.
      * rewrite (wi_perm _ _ _ _ _ _ I). solve_Permutation.
      * apply I.
      * apply I.
      * apply I.
      * intros n Hn. eapply hinted_frame; [|by apply I]. done.
      * intros n [Hn|Hn%list_elem_of_singleton]%elem_of_app; apply elem_of_app; [left; by apply I|].
        right. subst. by apply list_elem_of_singleton.
      * intros n [Hn|Hn%list_elem_of_singleton]%elem_of_app Hl; [by apply I|by subst].
    + destruct (hint_step arr P w c A Hd now node I) as (c' & E & Ss & K); [|done|].
      { intros n Hn. apply HP. rewrite (wi_perm _ _ _ _ _ _ I). set_solver. }
      rewrite E. simpl. eexists _, _, A, (Hd ++ [node]). split; [reflexivity|].
      split; [|split; [done|split; [done|by rewrite app_nil_r]]].
      apply K; try done.
      * simpl. rewrite (wi_perm _ _ _ _ _ _ I). solve_Permutation.
      * intros n [Hn|Hn%list_elem_of_singleton]%elem_of_app Hl; [done|by subst].
Qed.

Lemma called_setup c c' node : same_setup c c' -> called c' node = called c node.
Proof. unfold called. by intros (_ & -> & _). Qed.

Lemma replicate_loop_inv arr clk i nodes P w c A Hd :
  write_inv arr P w c A Hd -> NoDup (cn_id <$> P ++ nodes) ->
  exists c' w' A' Hd', replicate_loop clk i nodes w c = Some (c', w') /\
    write_inv arr (P ++ nodes) w' c' A' Hd' /\ same_setup c c' /\ same_write w w' /\
    wc_pending w' = wc_pending w ++ List.filter (called c) nodes.
Proof.
  revert i P w c A Hd. induction nodes as [|node nodes IH]; intros i P w c A Hd I ND.
  { rewrite app_nil_r. eexists _, _, _, _. split; [reflexivity|]. rewrite app_nil_r. by split_and!. }
  destruct (replicate_target_inv arr P w c A Hd (clk i) node I) as (c1 & w1 & A1 & H1 & E1 & I1 & S1 & T1 & P1).
  { rewrite fmap_app in ND. apply NoDup_app in ND as (_ & ND & _). intros Hin. apply (ND _ Hin).
    rewrite fmap_cons. by left. }
  destruct (IH (i + 1)%nat (P ++ [node]) w1 c1 A1 H1) as (c2 & w2 & A2 & H2 & E2 & I2 & S2 & T2 & P2).
  - done.
  - by rewrite <-app_assoc.
  - simpl. rewrite E1. simpl. exists c2, w2, A2, H2. split; [done|].
    rewrite <-app_assoc in I2. split; [done|]. split; [by transitivity c1|]. split; [by transitivity w1|].
    rewrite P2, P1, <-app_assoc. f_equal. simpl.
    rewrite (List.filter_ext (called c1) (called c)) by (intros; by apply called_setup).
    by destruct (called c node).
Qed.

Lemma filter_other (node : CacheNode) l :
  NoDup (cn_id <$> l) -> node ∈ l ->
  l ≡ₚ node :: List.filter (fun n => negb (bytes_eqb (cn_id n) (cn_id node))) l.
Proof.
  assert (Hall : forall k, (forall n, n ∈ k -> cn_id n <> cn_id node) ->
    List.filter (fun n => negb (bytes_eqb (cn_id n) (cn_id node))) k = k).
  { induction k as [|m k IH]; intros Hk; [done|]. simpl.
    rewrite bytes_eqb_ne by (apply Hk; by left). simpl. f_equal. apply IH. intros n Hn. apply Hk. by right. }
  induction l as [|m l IH]; intros ND Hin; [by apply elem_of_nil in Hin|].
  rewrite fmap_cons in ND. apply NoDup_cons in ND as [Hm ND]. simpl.
  apply elem_of_cons in Hin as [->|Hin].
  - rewrite bytes_eqb_refl. simpl. rewrite Hall; [done|].
    intros n Hn E. apply Hm. rewrite <-E. by apply list_elem_of_fmap_2.
  - rewrite bytes_eqb_ne by (intros E; apply Hm; rewrite E; by apply list_elem_of_fmap_2).
    simpl. rewrite IH at 1 by done. apply perm_swap.
Qed.

(** An unanswered target is not this node. *)
Lemma pending_remote arr P w c A Hd node :
  write_inv arr P w c A Hd -> NoDup (cn_id <$> P) -> node ∈ wc_pending w ->
  cn_id node <> local_id (cl_mem c) /\ (forall n, n ∈ A ++ Hd -> cn_id n <> cn_id node).
Proof.
  intros I ND Hin. rewrite (wi_perm _ _ _ _ _ _ I), app_assoc, fmap_app in ND.
  apply NoDup_app in ND as (_ & ND & _).
  assert (K : forall n, n ∈ A ++ Hd -> cn_id n <> cn_id node).
  { intros n Hn E. apply (ND (cn_id n)); [by apply list_elem_of_fmap_2|]. rewrite E. by apply list_elem_of_fmap_2. }
  split; [|done]. intros El. apply (K node); [|done].
  destruct (wi_local _ _ _ _ _ _ I node) as [Ha _]; [|done|set_solver].
  rewrite (wi_perm _ _ _ _ _ _ I). set_solver.
Qed.

Lemma replicate_reply_inv arr P w c A Hd now node res :
  write_inv arr P w c A Hd -> NoDup (cn_id <$> P) -> node ∈ wc_pending w -> (now, node, res) ∈ arr ->
  exists c' w' A' Hd', replicate_reply now node res w c = Some (c', w') /\
    write_inv arr P w' c' A' Hd' /\ same_setup c c' /\ same_write w w' /\
    wc_pending w' = List.filter (fun n => negb (bytes_eqb (cn_id n) (cn_id node))) (wc_pending w).
Proof.
  intros I ND Hin Harr. destruct (pending_remote _ _ _ _ _ _ _ I ND Hin) as [Hloc Hne].
  assert (NDp : NoDup (cn_id <$> wc_pending w)).
  { rewrite (wi_perm _ _ _ _ _ _ I), !fmap_app in ND. apply NoDup_app in ND as (_ & _ & ND).
    by apply NoDup_app in ND as (_ & _ & ?). }
  pose proof (filter_other node _ NDp Hin) as HP. unfold replicate_reply.
  set (pend := List.filter _ (wc_pending w)) in *.
  assert (Hsub : forall n, n ∈ pend -> n ∈ wc_pending w) by (intros n Hn; rewrite HP; by right).
  assert (Ea : exists live, match rr_is_ok res, rr_value res with
    | true, Some v => (rr_is_ok (decode_replica_write v), default false (rr_value (decode_replica_write v)))
    | _, _ => (false, false) end = (acknowledges res, live)).
  { unfold acknowledges. destruct (rr_is_ok res), (rr_value res); eauto. }
  destruct Ea as [live Ea]. cbv zeta. rewrite Ea. destruct (acknowledges res) eqn:Eok.
  - eexists _, _, (A ++ [node]), Hd. split; [reflexivity|]. split; [|by split_and!]. split; simpl.
    + apply I.
    + rewrite (wi_perm _ _ _ _ _ _ I), HP at 1. solve_Permutation.
    + rewrite (wi_acks _ _ _ _ _ _ I), length_app. simpl. lia.
    + rewrite (wi_done _ _ _ _ _ _ I), length_app. simpl. lia.
    + intros n [Hn|Hn%list_elem_of_singleton]%elem_of_app; [by apply I|subst; right; eauto].
    + apply I.
    + intros n Hn. by apply I, Hsub.
    + intros n Hn El. destruct (wi_local _ _ _ _ _ _ I n Hn El). split; [set_solver|done].
  - destruct (hint_step arr P w c A Hd now node I Hne Hloc) as (c' & E & Ss & K).
    cbn [wc_key wc_value set_pending]. rewrite E. simpl.
    eexists _, _, A, (Hd ++ [node]). split; [reflexivity|]. split; [|by split_and!]. apply K; try done.
    simpl. rewrite (wi_perm _ _ _ _ _ _ I), HP at 1. solve_Permutation.
Qed.

Lemma replicate_replies_inv arr todo P w c A Hd :
  write_inv arr P w c A Hd -> NoDup (cn_id <$> P) ->
  (forall x, x ∈ todo -> x ∈ arr /\ x.1.2 ∈ wc_pending w) -> NoDup ((fun x => cn_id x.1.2) <$> todo) ->
  exists c' w' A' Hd', replicate_replies todo w c = Some (c', w') /\
    write_inv arr P w' c' A' Hd' /\ same_setup c c' /\ same_write w w'.
Proof.
  revert w c A Hd. induction todo as [|[[now node] res] todo IH]; intros w c A Hd I ND Hin NDt.
  { eexists _, _, _, _. split; [reflexivity|]. by split_and!. }
  rewrite fmap_cons in NDt. apply NoDup_cons in NDt as [Hn NDt]. simpl in Hn.
  destruct (Hin (now, node, res)) as [Ha Hp]; [by left|]. simpl in Hp.
  destruct (replicate_reply_inv arr P w c A Hd now node res I ND Hp Ha)
    as (c1 & w1 & A1 & H1 & E1 & I1 & S1 & T1 & P1).
  destruct (IH w1 c1 A1 H1 I1 ND) as (c2 & w2 & A2 & H2 & E2 & I2 & S2 & T2); [|done|].
  - intros x Hx. destruct (Hin x) as [Hxa Hxp]; [by right|]. split; [done|]. rewrite P1.
    apply list_elem_of_In, List.filter_In. split; [by apply list_elem_of_In|].
    apply negb_true_iff, bool_decide_eq_false_2. intros Ex. apply Hn. rewrite <-Ex.
    by apply (list_elem_of_fmap_2 (fun x => cn_id x.1.2)).
  - exists c2, w2, A2, H2. simpl. rewrite decide_True by done. rewrite E1. simpl. split; [done|].
    split; [done|]. split; [by transitivity c1|by transitivity w1].
Qed.

(** Replies a write can get: at most one from each target it called. *)
Definition write_arrivals_ok c (targets : list CacheNode)
    (arr : list (Z * CacheNode * RequestResult RespValue)) : Prop :=
  NoDup ((fun x => cn_id x.1.2) <$> arr) /\
  forall x, x ∈ arr -> x.1.2 ∈ targets /\ called c x.1.2 = true.

Lemma write_inv_counters arr P w c A Hd f :
  write_inv arr P w c A Hd -> write_inv arr P w (set_counters f c) A Hd.
Proof. intros []. split; try done. by apply set_counters_wf. Qed.

(** The fan-out of a write. *)
Lemma replicate_fanout env key v c targets :
  cluster_wf c -> Cluster_preference_list key (cl_mem c) = Some targets -> targets <> [] ->
  can_serve_locally key true c = Some false -> write_arrivals_ok c targets (we_arrivals env) ->
  exists c' w acked hintd,
    Cluster_replicate env key v c =
      Some (c', mkWR (write_needed c (length targets) <=? length acked)%nat (wc_existed w) (length acked), Some w) /\
    write_inv (we_arrivals env) targets w c' acked hintd /\ same_setup c c' /\
    wc_key w = key /\ wc_value w = v /\ wc_targets w = targets.
Proof.
  intros W Ht Hne Hloc [NDa Ha]. destruct (targets_exist key (cl_mem c) (cw_routing c W)) as (? & Ht' & ND & _).
  assert (x = targets) as -> by congruence. clear Ht'.
  unfold Cluster_replicate. rewrite Hloc, Ht. cbn [mbind option_bind].
  destruct targets as [|t0 ts] eqn:Et; [done|]. rewrite <-Et in *. clear Et Hne.
  set (w0 := mkWriteCall key v targets (write_needed c (length targets)) 0 0 false []).
  assert (I0 : write_inv (we_arrivals env) [] w0 c [] []).
  { split; try done; intros n Hn; by apply elem_of_nil in Hn. }
  destruct (replicate_loop_inv (we_arrivals env) (we_clk env) 0 targets [] w0 c [] [] I0 ND)
    as (c1 & w1 & A1 & H1 & E1 & I1 & S1 & T1 & P1).
  rewrite app_nil_l in I1. simpl in P1. rewrite E1. cbn [mbind option_bind].
  destruct (replicate_replies_inv (we_arrivals env) (we_arrivals env) targets w1 c1 A1 H1 I1 ND)
    as (c2 & w2 & A2 & H2 & E2 & I2 & S2 & T2); [|done|].
  { intros x Hx. split; [done|]. rewrite P1. apply list_elem_of_In, List.filter_In.
    destruct (Ha x Hx). split; [by apply list_elem_of_In|done]. }
  rewrite E2. cbn [mbind option_bind]. unfold replicate_finish.
  assert (T : same_write w0 w2) by (by transitivity w1). destruct T as (K1 & K2 & K3 & K4).
  rewrite K4, (wi_acks _ _ _ _ _ _ I2). cbn [wc_needed w0].
  eexists _, w2, A2, H2. split; [reflexivity|]. split; [case_match; [done|by apply write_inv_counters]|].
  split; [|by rewrite K1, K2, K3]. transitivity c2; [by transitivity c1|]. by case_match.
Qed.

(** The fast path of a write. *)
Lemma replicate_local env key v c :
  cluster_wf c -> can_serve_locally key true c = Some true ->
  exists c' live,
    Cluster_replicate env key v c = Some (c', mkWR true live 1, None) /\ cluster_wf c' /\ same_setup c c' /\
    live = live_stamp (vs_view (we_clk env 0%nat) key (cl_cache c)) /\
    (ttl_positive v -> vs_view (we_clk env 0%nat) key (cl_cache c') =
      ostamp_max (vs_view (we_clk env 0%nat) key (cl_cache c)) (Some (stamp_of_vv v))).
Proof.
  intros W Hloc. unfold Cluster_replicate. rewrite Hloc. cbn [mbind option_bind].
  destruct (vs_apply_law (we_clk env 0%nat) key v (cl_cache c) (cw_cache c W)) as (s & ch & live & E & Ws & V & L & _).
  rewrite E. cbn [mbind option_bind]. eexists _, live. split; [reflexivity|].
  split; [by apply set_cache_wf|]. split; [done|]. split; [done|]. intros Hv. apply (V Hv).
Qed.

(** A write returns, from any well-formed state. *)
Lemma replicate_total env key v c :
  cluster_wf c ->
  (forall targets, Cluster_preference_list key (cl_mem c) = Some targets ->
     write_arrivals_ok c targets (we_arrivals env)) ->
  exists c' r w, Cluster_replicate env key v c = Some (c', r, w) /\ cluster_wf c' /\ same_setup c c'.
Proof.
  intros W Ha. destruct (targets_exist key (cl_mem c) (cw_routing c W)) as (targets & Ht & _).
  specialize (Ha targets Ht). pose proof (can_serve_locally_spec key true c targets (cw_routing c W) Ht) as Hl.
  destruct (can_serve_locally key true c) as [[|]|] eqn:El; [| |done].
  - destruct (replicate_local env key v c W El) as (c' & live & E & W' & S' & _). eauto 10.
  - destruct (decide (targets = [])) as [->|Hne].
    + unfold Cluster_replicate. rewrite El, Ht. simpl. eexists _, _, _. by split_and!.
    + destruct (replicate_fanout env key v c targets W Ht Hne El Ha) as (c' & w & A & Hd & E & I & S' & _).
      eexists _, _, _. split; [exact E|]. split; [apply I|done].
Qed.

(** ** What a collection of replies holds *)

(** The answer a reply counts as, if it does. *)
Definition reply_value (res : RequestResult RespValue) : option (option VersionedValue) :=
  match rr_is_ok res, rr_value res with
  | true, Some v =>
      let d := decode_replica_get v in
      if rr_is_ok d then Some (rr_value d) else if rr_is_not_found d then Some None else None
  | _, _ => None
  end.

Definition count_true (l : list bool) : nat := length (List.filter id l).

Lemma count_true_insert l i : l !! i = Some false -> count_true (<[i := true]> l) = (count_true l + 1)%nat.
Proof.
  unfold count_true. revert i. induction l as [|b l IH]; intros [|i] E; try done; simpl in *.
  - injection E as ->. simpl. lia.
  - destruct b; simpl; rewrite IH by done; done.
Qed.

(** The answer recorded for target [i] is what the local cache [s] holds, or
    what a reply said. *)
Definition answer_from (arr : list (nat * RequestResult RespValue)) (r : ReadCall) (local : bytes) (s : S)
    (i : nat) (x : option VersionedValue) : Prop :=
  (exists node t, rc_targets r !! i = Some node /\ cn_id node = local /\
     vs_view t (rc_key r) s = stamp_of_vv <$> x) \/
  (exists res, (i, res) ∈ arr /\ reply_value res = Some x).

Record read_inv (arr : list (nat * RequestResult RespValue)) (k : nat) (r : ReadCall) (c0 c : Cluster S) : Prop := {
  ri_wf : cluster_wf c;
  ri_setup : same_setup c0 c;
  ri_views : forall t key, vs_view t key (cl_cache c) = vs_view t key (cl_cache c0);
  ri_values : length (rc_values r) = length (rc_targets r);
  ri_replied : length (rc_replied r) = length (rc_targets r);
  ri_count : rc_replies r = count_true (rc_replied r);
  ri_answer : forall i x, rc_replied r !! i = Some true -> rc_values r !! i = Some x ->
    answer_from arr r (local_id (cl_mem c0)) (cl_cache c0) i x;
  ri_pending : forall i, i ∈ rc_pending r -> (i < k)%nat /\ rc_replied r !! i = Some false;
  ri_rest : forall i, (k <= i < length (rc_targets r))%nat -> rc_replied r !! i = Some false
}.

Definition same_read (r r' : ReadCall) : Prop :=
  rc_key r' = rc_key r /\ rc_targets r' = rc_targets r /\ rc_needed r' = rc_needed r.

#[export] Instance same_read_preorder : PreOrder same_read.
Proof. split; [by intros r|]. intros a b c (?&?&?) (?&?&?). split_and!; congruence. Qed.

(** Recording an answer for a target that has none. *)
Lemma record_read_inv arr k k' r c0 c c' i x l :
  read_inv arr k r c0 c -> cluster_wf c' -> same_setup c0 c' ->
  (forall t key, vs_view t key (cl_cache c') = vs_view t key (cl_cache c0)) ->
  rc_replied r !! i = Some false -> answer_from arr r (local_id (cl_mem c0)) (cl_cache c0) i x ->
  (forall j, j ∈ l -> j ∈ rc_pending r /\ j <> i) -> (k <= k')%nat -> (i < k')%nat ->
  read_inv arr k' (record_read i true x (set_read_pending l r)) c0 c'.
Proof.
  intros I W' S' V' Ei Hans Hl Hk Hi. pose proof (ri_values _ _ _ _ _ I). pose proof (ri_replied _ _ _ _ _ I).
  split; simpl; try done.
  - by rewrite length_insert.
  - by rewrite length_insert.
  - rewrite (ri_count _ _ _ _ _ I). by rewrite count_true_insert.
  - intros j y. destruct (decide (j = i)) as [->|Hne].
    + rewrite list_lookup_insert_Some. intros _ [(_ & <- & _)|[? _]]%list_lookup_insert_Some; done.
    + rewrite !list_lookup_insert_ne by done. apply I.
  - intros j Hj. destruct (Hl j Hj) as [Hp Hne]. destruct (ri_pending _ _ _ _ _ I j Hp).
    rewrite list_lookup_insert_ne by done. split; [lia|done].
  - intros j Hj. rewrite list_lookup_insert_ne by lia. apply (ri_rest _ _ _ _ _ I). lia.
Qed.

(** A target that gives no answer. *)
Lemma skip_read_inv arr k k' r c0 c c' l :
  read_inv arr k r c0 c -> cluster_wf c' -> same_setup c0 c' ->
  (forall t key, vs_view t key (cl_cache c') = vs_view t key (cl_cache c0)) ->
  (forall j, j ∈ l -> j ∈ rc_pending r \/ (k <= j < k')%nat) -> (k <= k')%nat ->
  (k' <= length (rc_targets r))%nat ->
  read_inv arr k' (set_read_pending l r) c0 c'.
Proof.
  intros I W' S' V' Hl Hk Hk'. destruct I. split; simpl; try done.
  - intros j Hj. destruct (Hl j Hj) as [Hp|Hp]; [destruct (ri_pending0 j Hp); split; [lia|done]|].
    split; [lia|]. apply ri_rest0. lia.
  - intros j Hj. apply ri_rest0. lia.
Qed.

Lemma record_none_inv arr k r c0 c i :
  read_inv arr k r c0 c -> read_inv arr k (record_read i false None r) c0 c.
Proof. intros []. by split. Qed.

Lemma set_read_pending_id r : set_read_pending (rc_pending r) r = r.
Proof. by destruct r. Qed.

Lemma collect_target_inv arr r c0 c now i node :
  read_inv arr i r c0 c -> rc_targets r !! i = Some node ->
  exists c' r', collect_target now i node r c = Some (c', r') /\ read_inv arr (i + 1) r' c0 c' /\
    same_read r r' /\ rc_pending r' = rc_pending r ++ (if called c0 node then [i] else []).
Proof.
  intros I Hi. unfold collect_target, called. pose proof (ri_setup _ _ _ _ _ I) as HS.
  assert (Hlt : (i < length (rc_targets r))%nat) by (by eapply lookup_lt_Some).
  destruct HS as (Hc & Hm & Ht). rewrite Hm.
  destruct (bytes_eqb (cn_id node) (local_id (cl_mem c0))) eqn:El; cbn [negb andb].
  - apply bytes_eqb_eq in El.
    destruct (vs_get_law now (rc_key r) (cl_cache c) (cw_cache c (ri_wf _ _ _ _ _ I))) as (s & x & E & Ws & V).
    rewrite E. cbn [mbind option_bind]. eexists _, _. split; [reflexivity|].
    split; [|split; [done|by rewrite app_nil_r]].
    rewrite <-(set_read_pending_id r). eapply (record_read_inv arr i (i + 1) r c0 c); try done; try lia.
    + apply set_cache_wf; [apply I|done].
    + intros t key. simpl. rewrite V. apply I.
    + apply (ri_rest _ _ _ _ _ I). lia.
    + left. exists node, now. split; [done|]. split; [done|]. rewrite <-(ri_views _ _ _ _ _ I).
      unfold vs_view. by rewrite E.
    + intros j Hj. split; [done|]. destruct (ri_pending _ _ _ _ _ I j Hj). lia.
  - destruct (Cluster_is_node_healthy (cn_id node) (cl_mem c0)); cbn [negb].
    + eexists _, _. split; [reflexivity|]. split; [|done].
      eapply skip_read_inv; try done; try lia; [apply peer_call_wf, I|apply I|].
      intros j [Hj|Hj%list_elem_of_singleton]%elem_of_app; [by left|right; lia].
    + eexists _, _. split; [reflexivity|]. split; [|split; [done|by rewrite app_nil_r]].
      apply record_none_inv. rewrite <-(set_read_pending_id r).
      eapply skip_read_inv; try done; try lia; [apply I|apply I|]. auto.
Qed.

Lemma collect_loop_inv arr clk i nodes r c0 c :
  read_inv arr i r c0 c -> drop i (rc_targets r) = nodes ->
  exists c' r', collect_loop clk i nodes r c = Some (c', r') /\
    read_inv arr (i + length nodes) r' c0 c' /\ same_read r r' /\
    (forall j, j ∈ rc_pending r -> j ∈ rc_pending r') /\
    (forall j node, rc_targets r !! j = Some node -> (i <= j)%nat -> called c0 node = true -> j ∈ rc_pending r').
Proof.
  revert i r c. induction nodes as [|node nodes IH]; intros i r c I Hd.
  { eexists _, _. split; [reflexivity|]. rewrite Nat.add_0_r. split_and!; try done.
    intros j n Hj Hle. apply lookup_lt_Some in Hj. apply (f_equal length) in Hd.
    rewrite length_drop in Hd. simpl in Hd. lia. }
  assert (Hi : rc_targets r !! i = Some node).
  { rewrite <-(Nat.add_0_r i), <-lookup_drop, Hd. done. }
  destruct (collect_target_inv arr r c0 c (clk i) i node I Hi) as (c1 & r1 & E1 & I1 & (K1 & K2 & K3) & P1).
  destruct (IH (i + 1)%nat r1 c1 I1) as (c2 & r2 & E2 & I2 & S2 & M2 & C2).
  { rewrite K2, <-drop_drop, Hd. done. }
  eexists c2, r2. cbn [collect_loop]. rewrite E1. cbn [mbind option_bind]. split; [done|].
  cbn [length]. replace (i + Datatypes.S (length nodes))%nat with (i + 1 + length nodes)%nat by lia.
  split; [done|]. split; [by transitivity r1|]. split.
  - intros j Hj. apply M2. rewrite P1. set_solver.
  - intros j n Hj Hle Hc. destruct (decide (j = i)) as [->|Hne].
    + apply M2. rewrite P1. replace n with node in * by congruence. rewrite Hc. set_solver.
    + apply (C2 j n); [by rewrite K2|lia|done].
Qed.

Lemma collect_reply_inv arr k r c0 c i res :
  read_inv arr k r c0 c -> i ∈ rc_pending r -> (i, res) ∈ arr -> (k <= length (rc_targets r))%nat ->
  read_inv arr k (collect_reply i res r) c0 c /\ same_read r (collect_reply i res r) /\
  rc_pending (collect_reply i res r) = List.filter (fun j => negb (j =? i)%nat) (rc_pending r).
Proof.
  intros I Hi Harr Hk. destruct (ri_pending _ _ _ _ _ I i Hi) as [Hik Hri].
  set (l := List.filter (fun j => negb (j =? i)%nat) (rc_pending r)).
  assert (Hl : forall j, j ∈ l -> j ∈ rc_pending r /\ j <> i).
  { intros j Hj. apply list_elem_of_In, List.filter_In in Hj as [Hj Hb]. bool_facts.
    split; [by apply list_elem_of_In|done]. }
  assert (Kr : forall x, reply_value res = Some x -> read_inv arr k (record_read i true x (set_read_pending l r)) c0 c).
  { intros x Hx. assert (Hans : answer_from arr r (local_id (cl_mem c0)) (cl_cache c0) i x) by (right; eauto).
    apply (record_read_inv arr k k r c0 c c i x l I); [apply I..|done|done|done|lia|done]. }
  assert (Kn : read_inv arr k (record_read i false None (set_read_pending l r)) c0 c).
  { apply record_none_inv. eapply skip_read_inv; try done; try apply I. intros j Hj. left. by apply Hl. }
  unfold collect_reply. fold l. unfold reply_value in Kr. cbv zeta in *.
  destruct (rr_is_ok res), (rr_value res) as [v|]; try by split_and!.
  destruct (rr_is_ok (decode_replica_get v)); [split_and!; try done; by apply Kr|].
  destruct (rr_is_not_found (decode_replica_get v)); [split_and!; try done; by apply Kr|by split_and!].
Qed.

Lemma collect_replies_inv arr todo k r c0 c :
  read_inv arr k r c0 c -> (k <= length (rc_targets r))%nat -> NoDup todo.*1 ->
  (forall x, x ∈ todo -> x ∈ arr /\ x.1 ∈ rc_pending r) ->
  exists r', collect_replies todo r = Some r' /\ read_inv arr k r' c0 c /\ same_read r r'.
Proof.
  revert r. induction todo as [|[i res] todo IH]; intros r I Hk ND Hin.
  { eexists. split; [reflexivity|]. by split. }
  rewrite fmap_cons in ND. apply NoDup_cons in ND as [Hn ND]. simpl in Hn.
  destruct (Hin (i, res)) as [Ha Hp]; [by left|]. simpl in Hp.
  destruct (collect_reply_inv arr k r c0 c i res I Hp Ha Hk) as (I1 & S1 & P1).
  destruct (IH (collect_reply i res r)) as (r' & E & I' & S'); [done|by destruct S1 as (_ & -> & _)|done| |].
  - intros x Hx. destruct (Hin x) as [Hxa Hxp]; [by right|]. split; [done|]. rewrite P1.
    apply list_elem_of_In, List.filter_In. split; [by apply list_elem_of_In|].
    apply negb_true_iff, Nat.eqb_neq. intros Ex. apply Hn. rewrite <-Ex. by apply list_elem_of_fmap_2.
  - exists r'. simpl. rewrite decide_True by done. split; [done|]. split; [done|by transitivity (collect_reply i res r)].
Qed.

(** Replies a read can get: at most one from each target it called. *)
Definition read_arrivals_ok c (targets : list CacheNode) (arr : list (nat * RequestResult RespValue)) : Prop :=
  NoDup arr.*1 /\ forall x, x ∈ arr -> exists node, targets !! x.1 = Some node /\ called c node = true.

(** Target [i] answered [x]. *)
Definition answered (q : QuorumReplies) (i : nat) (x : option VersionedValue) : Prop :=
  qr_replied q !! i = Some true /\ qr_values q !! i = Some x.

(** What a collection holds: answers of the targets, the local one read from the
    cache and the others from their replies. *)
Record replies_ok (arr : list (nat * RequestResult RespValue)) (key : bytes) (targets : list CacheNode)
    (c : Cluster S) (q : QuorumReplies) : Prop := {
  ro_targets : qr_targets q = targets;
  ro_values : length (qr_values q) = length targets;
  ro_replied : length (qr_replied q) = length targets;
  ro_ok : qr_ok q = (read_needed c (length targets) <=? count_true (qr_replied q))%nat;
  ro_answer : forall i x, answered q i x ->
    (exists node t, targets !! i = Some node /\ cn_id node = local_id (cl_mem c) /\
       vs_view t key (cl_cache c) = stamp_of_vv <$> x) \/
    (exists res, (i, res) ∈ arr /\ reply_value res = Some x)
}.

(** Its vectors have one slot per target. *)
Record replies_shape (targets : list CacheNode) (q : QuorumReplies) : Prop := {
  rs_targets : qr_targets q = targets;
  rs_values : length (qr_values q) = length targets;
  rs_replied : length (qr_replied q) = length targets
}.

Lemma ro_shape arr key targets c q : replies_ok arr key targets c q -> replies_shape targets q.
Proof. by intros []. Qed.

Lemma collect_correct env key c targets :
  cluster_wf c -> Cluster_preference_list key (cl_mem c) = Some targets -> targets <> [] ->
  read_arrivals_ok c targets (re_arrivals env) ->
  exists c' q, Cluster_collect env key c = Some (c', q) /\ cluster_wf c' /\ same_setup c c' /\
    (forall t k, vs_view t k (cl_cache c') = vs_view t k (cl_cache c)) /\
    replies_ok (re_arrivals env) key targets c q.
Proof.
  intros W Ht Hne [ND Ha]. unfold Cluster_collect. rewrite Ht. cbn [mbind option_bind].
  destruct targets as [|t0 ts] eqn:Et; [done|]. rewrite <-Et in *. clear Et Hne.
  set (n := length targets).
  set (r0 := mkReadCall key targets (read_needed c n) 0 0 (replicate n None) (replicate n false) []).
  assert (I0 : read_inv (re_arrivals env) 0 r0 c c).
  { split; simpl; try done; try apply length_replicate.
    - generalize n. intros m. induction m as [|m IH]; [done|]. exact IH.
    - intros i x Hi. apply lookup_replicate in Hi as [? _]. done.
    - intros i Hi. by apply elem_of_nil in Hi.
    - intros i Hi. apply lookup_replicate. split; [done|]. unfold n. lia. }
  destruct (collect_loop_inv (re_arrivals env) (re_clk env) 0 targets r0 c c I0 eq_refl)
    as (c1 & r1 & E1 & I1 & (K1 & K2 & K3) & _ & C1).
  rewrite E1. cbn [mbind option_bind].
  destruct (collect_replies_inv (re_arrivals env) (re_arrivals env) n r1 c c1 I1) as (r2 & E2 & I2 & (J1 & J2 & J3)).
  - by rewrite K2.
  - done.
  - intros x Hx. split; [done|]. destruct (Ha x Hx) as (node & Hn & Hc). apply (C1 _ node); [done|lia|done].
  - rewrite E2. cbn [mbind option_bind]. eexists c1, _. split; [reflexivity|].
    split; [apply I2|]. split; [apply I2|]. split; [apply I2|].
    pose proof (ri_values _ _ _ _ _ I2) as L1. pose proof (ri_replied _ _ _ _ _ I2) as L2.
    rewrite J2, K2 in L1, L2. split; simpl; try done.
    + by rewrite J3, K3, (ri_count _ _ _ _ _ I2).
    + intros i x [H1 H2]. destruct (ri_answer _ _ _ _ _ I2 i x H1 H2) as [(node & t & X1 & X2 & X3)|X]; [left|by right].
      exists node, t. rewrite J2, K2 in X1. rewrite J1, K1 in X3. done.
Qed.

(** ** The winner *)

Lemma pick_fold (l : list (CacheNode * bool * option VersionedValue)) w0 :
  let w := foldl (fun w '(_, replied, value) => pick w replied value) w0 l in
  ostamp_le (stamp_of_vv <$> w0) (stamp_of_vv <$> w) /\
  (forall n v, (n, true, Some v) ∈ l -> ostamp_le (Some (stamp_of_vv v)) (stamp_of_vv <$> w)) /\
  (w = w0 \/ exists n v, (n, true, Some v) ∈ l /\ w = Some v).
Proof.
  revert w0. induction l as [|[[n b] x] l IH]; intros w0; simpl.
  { split; [done|]. split; [|by left]. intros n v Hn. by apply elem_of_nil in Hn. }
  destruct (IH (pick w0 b x)) as (I1 & I2 & I3).
  assert (P : ostamp_le (stamp_of_vv <$> w0) (stamp_of_vv <$> pick w0 b x) /\
    (forall v, b = true -> x = Some v -> ostamp_le (Some (stamp_of_vv v)) (stamp_of_vv <$> pick w0 b x)) /\
    (pick w0 b x = w0 \/ exists v, b = true /\ x = Some v /\ pick w0 b x = Some v)).
  { unfold pick. destruct b; [|split_and!; [done|done|by left]].
    destruct x as [v|]; [|split_and!; [done|done|by left]].
    destruct w0 as [u|]; [|split_and!; [done|by intros ? _ [= <-]|right; by exists v]].
    rewrite newer_stamp. destruct (stamp_gtb (stamp_of_vv v) (stamp_of_vv u)) eqn:E; simpl.
    - split; [|split; [by intros ? _ [= <-]|right; by exists v]].
      unfold ostamp_le, ostamp_max, stamp_max. by rewrite E.
    - split; [done|]. split; [|by left]. intros ? _ [= <-]. unfold ostamp_le. rewrite ostamp_max_comm.
      unfold ostamp_max, stamp_max. by rewrite E. }
  destruct P as (P1 & P2 & P3). split; [by etrans|]. split.
  - intros m v [E|Hin]%elem_of_cons; [|by apply (I2 m)]. simplify_eq. etrans; [|exact I1]. by apply P2.
  - destruct I3 as [I3|(m & v & Hin & E)]; [|right; exists m, v; split; [by right|done]].
    rewrite I3. destruct P3 as [->|(v & -> & -> & E)]; [by left|]. right. exists n, v. split; [by left|done].
Qed.

Lemma replies_list_lookup targets q n b x :
  replies_shape targets q ->
  (n, b, x) ∈ replies_list q <->
  exists i, targets !! i = Some n /\ qr_replied q !! i = Some b /\ qr_values q !! i = Some x.
Proof.
  intros R. unfold replies_list. rewrite (rs_targets _ _ R), list_elem_of_lookup. split.
  - intros (i & Hi). apply lookup_zip_with_Some in Hi as ([m b'] & y & E & Hi & Hy).
    apply lookup_zip_with_Some in Hi as (m' & b'' & E' & Hm & Hb). simplify_eq. eauto.
  - intros (i & H1 & H2 & H3). exists i. apply lookup_zip_with_Some. exists (n, b), x. split; [done|].
    split; [|done]. apply lookup_zip_with_Some. eauto.
Qed.

(** The newest of the answers. *)
Definition newest (q : QuorumReplies) (o : option VersionedValue) : Prop :=
  (forall i v, answered q i (Some v) -> ostamp_le (Some (stamp_of_vv v)) (stamp_of_vv <$> o)) /\
  (forall w, o = Some w -> exists i, answered q i (Some w)).

Lemma pick_winner_newest targets q : replies_shape targets q -> newest q (pick_winner q).
Proof.
  intros R. destruct (pick_fold (replies_list q) None) as (_ & P2 & P3). fold (pick_winner q) in *. split.
  - intros i v [H1 H2]. assert (is_Some (targets !! i)) as [n Hn].
    { apply lookup_lt_is_Some. rewrite <-(rs_replied _ _ R). by eapply lookup_lt_Some. }
    apply (P2 n). apply (replies_list_lookup _ _ _ _ _ R). eauto.
  - intros w E. destruct P3 as [P3|(n & v & Hin & E')]; [congruence|]. simplify_eq.
    apply (replies_list_lookup _ _ _ _ _ R) in Hin as (i & _ & H1 & H2). exists i. split; [done|]. congruence.
Qed.

(** ** Repairs and write-backs *)

Lemma read_repair_spec now key winner stale c :
  cluster_wf c ->
  exists c', read_repair now key winner stale c = Some c' /\ cluster_wf c' /\ same_setup c c' /\
    (forall x, x ∈ cl_outbox c -> x ∈ cl_outbox c') /\
    (ttl_positive winner -> ostamp_le (vs_view now key (cl_cache c)) (vs_view now key (cl_cache c'))) /\
    forall n, n ∈ stale ->
      (cn_id n <> local_id (cl_mem c) -> mkCall n (replica_write_command key winner) ∈ cl_outbox c') /\
      (cn_id n = local_id (cl_mem c) -> ttl_positive winner ->
         ostamp_le (Some (stamp_of_vv winner)) (vs_view now key (cl_cache c'))).
Proof.
  revert c. induction stale as [|node stale IH]; intros c W; cbn [read_repair].
  { exists c. split_and!; try done. intros n Hn. by apply elem_of_nil in Hn. }
  destruct (bytes_eqb (cn_id node) (local_id (cl_mem c))) eqn:El.
  - apply bytes_eqb_eq in El.
    destruct (vs_apply_law now key winner (cl_cache c) (cw_cache c W)) as (s & ch & live & E & Ws & V & _).
    rewrite E. cbn [mbind option_bind]. destruct (IH (set_cache s c)) as (c' & E' & W' & S' & O' & M' & N');
      [by apply set_cache_wf|]. exists c'. split_and!; try done.
    + intros Hv. etrans; [|by apply M']. simpl. rewrite (proj1 (V Hv)). apply ostamp_le_max_l.
    + intros n [->|Hn]%elem_of_cons; [|by apply N']. split; [done|]. intros _ Hv.
      etrans; [|by apply M']. simpl. rewrite (proj1 (V Hv)). apply ostamp_le_max_r.
  - apply bool_decide_eq_false_1 in El.
    destruct (IH (peer_call node (replica_write_command key winner) c)) as (c' & E' & W' & S' & O' & M' & N');
      [by apply peer_call_wf|]. exists c'. split_and!; try done.
    + intros x Hx. apply O'. simpl. set_solver.
    + intros n [->|Hn]%elem_of_cons; [|by apply N']. split; [|done]. intros _. apply O'. simpl. set_solver.
Qed.

Lemma can_serve_setup key b c c' :
  cl_config c' = cl_config c -> cl_mem c' = cl_mem c -> can_serve_locally key b c' = can_serve_locally key b c.
Proof. unfold can_serve_locally, read_needed. by intros -> ->. Qed.

(** A read that cannot be served here leaves no write that could be. *)
Lemma remote_read_remote_write key c targets :
  routing_ok (cl_mem c) -> Cluster_preference_list key (cl_mem c) = Some targets ->
  can_serve_locally key false c = Some false -> can_serve_locally key true c = Some false.
Proof.
  intros R Ht. rewrite !(can_serve_locally_spec _ _ _ targets) by done. intros [= E]. f_equal.
  destruct (bool_decide (_ ∈ _)); [|done]. simpl in *. destruct (bool_decide (_ = Linearizable)); [done|].
  apply Nat.eqb_neq. intros El. rewrite El in E. apply Nat.eqb_neq in E. apply E.
  unfold read_needed, effective_quorum. case_match; lia.
Qed.

Lemma stale_targets_spec targets q w n :
  replies_shape targets q ->
  n ∈ stale_targets w q <->
  exists i x, targets !! i = Some n /\ answered q i x /\ stamp_of_vv <$> x <> Some (stamp_of_vv w).
Proof.
  intros R. unfold stale_targets. rewrite list_elem_of_fmap. split.
  - intros ([[m b] x] & -> & Hin). apply list_elem_of_In, List.filter_In in Hin as [Hin Hb].
    apply list_elem_of_In, (replies_list_lookup _ _ _ _ _ R) in Hin as (i & H1 & H2 & H3). bool_facts.
    subst b. exists i, x. split_and!; try done. unfold holds in *. destruct x as [v|]; [|done].
    rewrite same_version_stamp in *. bool_facts. simpl. congruence.
  - intros (i & x & H1 & [H2 H3] & Hx). exists (n, true, x). split; [done|].
    apply list_elem_of_In, List.filter_In. split.
    + apply list_elem_of_In, (replies_list_lookup _ _ _ _ _ R). eauto.
    + simpl. apply negb_true_iff. unfold holds. destruct x as [v|]; [|done]. rewrite same_version_stamp.
      apply bool_decide_eq_false_2. simpl in Hx. congruence.
Qed.

(** The target [node] is being brought up to [w]: it is this node and holds it,
    or a write of it is on its way. *)
Definition repaired (key : bytes) (w : VersionedValue) (node : CacheNode) c : Prop :=
  (cn_id node = local_id (cl_mem c) /\
     (ttl_positive w -> exists t, ostamp_le (Some (stamp_of_vv w)) (vs_view t key (cl_cache c)))) \/
  mkCall node (replica_write_command key w) ∈ cl_outbox c.

(** How the second phase of a read went: everything was up to date or has been
    repaired, or the winner was written back to all targets. *)
Definition second_phase (arr : list (Z * CacheNode * RequestResult RespValue)) (key : bytes)
    (targets : list CacheNode) (q : QuorumReplies) (winner : VersionedValue) (c c' : Cluster S)
    (r : ReadResult) (w : option WriteCall) : Prop :=
  match w with
  | None =>
      r = to_result (Some winner) /\
      (consistency (cl_config c) = Linearizable -> (write_needed c (length targets) <= up_to_date winner q)%nat) /\
      forall n, n ∈ stale_targets winner q -> repaired key winner n c'
  | Some wc =>
      consistency (cl_config c) = Linearizable /\ wc_key wc = key /\ wc_value wc = winner /\
      exists acked hintd, write_inv arr targets wc c' acked hintd /\
        r = if (write_needed c (length targets) <=? length acked)%nat then to_result (Some winner)
            else read_unavailable
  end.

Lemma read_decide_spec env arr key targets q c c1 :
  cluster_wf c1 -> same_setup c c1 -> Cluster_preference_list key (cl_mem c) = Some targets -> targets <> [] ->
  can_serve_locally key true c = Some false -> replies_ok arr key targets c q ->
  write_arrivals_ok c targets (we_arrivals (fr_writeback env)) ->
  exists c' r w, read_decide env key q c1 = Some (c', r, w) /\ cluster_wf c' /\
    cl_config c' = cl_config c /\ cl_mem c' = cl_mem c /\
    match pick_winner q with
    | None => r = to_result None /\ w = None
    | Some winner =>
        cl_clock c' = HybridClock_observe (vv_version winner) (cl_clock c) /\
        second_phase (we_arrivals (fr_writeback env)) key targets q winner c c' r w
    end.
Proof.
  intros W (Sc & Sm & St) Ht Hne Hl R Ha. unfold read_decide. destruct (pick_winner q) as [winner|]; cycle 1.
  { eexists _, _, _. split; [reflexivity|]. by split_and!. }
  cbv zeta. set (c2 := set_counters _ (set_clock _ c1)).
  assert (W2 : cluster_wf c2) by (by apply set_counters_wf, set_clock_wf).
  assert (E2 : cl_config c2 = cl_config c /\ cl_mem c2 = cl_mem c /\
    cl_clock c2 = HybridClock_observe (vv_version winner) (cl_clock c)) by (simpl; by rewrite St).
  destruct E2 as (C2 & M2 & T2). clearbody c2.
  assert (Hwn : write_needed c2 (length (qr_targets q)) = write_needed c (length targets)).
  { unfold write_needed. by rewrite C2, M2, (ro_targets _ _ _ _ _ R). }
  rewrite Hwn, C2. destruct (bool_decide _ && _) eqn:Eb.
  - destruct (replicate_fanout (fr_writeback env) key winner c2 targets) as (c' & w & A & Hd & E & I & S' & K1 & K2 & _).
    + done.
    + by rewrite M2.
    + done.
    + by rewrite (can_serve_setup _ _ c).
    + destruct Ha as [Ha1 Ha2]. split; [done|]. intros x Hx. destruct (Ha2 x Hx). split; [done|].
      unfold called in *. by rewrite M2.
    + rewrite E. cbn [mbind option_bind wr_ok]. destruct S' as (C' & M' & T').
      eexists _, _, _. split; [reflexivity|]. split; [apply I|]. rewrite C', M', T', C2, M2, T2.
      split_and!; try done. split; [by bool_facts|]. split; [done|]. split; [done|]. exists A, Hd. split; [done|]. unfold write_needed. by rewrite C2, M2.
  - destruct (read_repair_spec (fr_repair_now env) key winner (stale_targets winner q) c2 W2)
      as (c' & E & W' & (C' & M' & T') & _ & _ & N').
    rewrite E. cbn [mbind option_bind]. eexists _, _, _. split; [reflexivity|].
    rewrite C', M', T', C2, M2, T2. split_and!; try done. split; [done|]. split.
    + intros Hlin. rewrite bool_decide_eq_true_2 in Eb by done. simpl in Eb. bool_facts. lia.
    + intros n Hn. destruct (N' n Hn) as [N1 N2]. unfold repaired. rewrite M'.
      destruct (decide (cn_id n = local_id (cl_mem c2))) as [El|El]; [left; split; [done|]|right; auto].
      intros Hv. eexists. by apply N2.
Qed.

(** A quorum read, from the call to the answer. *)
Lemma read_correct env key c targets :
  cluster_wf c -> Cluster_preference_list key (cl_mem c) = Some targets -> targets <> [] ->
  can_serve_locally key false c = Some false ->
  read_arrivals_ok c targets (re_arrivals (fr_collect env)) ->
  write_arrivals_ok c targets (we_arrivals (fr_writeback env)) ->
  exists c1 q c' r w,
    Cluster_collect (fr_collect env) key c = Some (c1, q) /\
    replies_ok (re_arrivals (fr_collect env)) key targets c q /\ newest q (pick_winner q) /\
    Cluster_read env key c = Some (c', r, w) /\ cluster_wf c' /\
    cl_config c' = cl_config c /\ cl_mem c' = cl_mem c /\
    (if qr_ok q then
       match pick_winner q with
       | None => r = to_result None /\ w = None
       | Some winner =>
           cl_clock c' = HybridClock_observe (vv_version winner) (cl_clock c) /\
           second_phase (we_arrivals (fr_writeback env)) key targets q winner c c' r w
       end
     else r = read_unavailable /\ w = None).
Proof.
  intros W Ht Hne Hl Ha Hw.
  destruct (collect_correct (fr_collect env) key c targets W Ht Hne Ha) as (c1 & q & E1 & W1 & S1 & _ & R).
  pose proof (remote_read_remote_write key c targets (cw_routing c W) Ht Hl) as Hl'.
  unfold Cluster_read. rewrite Hl, E1. cbn [mbind option_bind]. exists c1, q.
  destruct (qr_ok q); cbn [negb].
  - destruct (read_decide_spec env _ key targets q c c1 W1 S1 Ht Hne Hl' R Hw) as (c' & r & w & E & K).
    exists c', r, w. split_and!; try done; try apply K. by eapply pick_winner_newest, ro_shape.
  - destruct S1 as (C1 & M1 & T1). eexists _, _, _. split_and!; try reflexivity; try done.
    + by eapply pick_winner_newest, ro_shape.
    + by apply set_counters_wf.
Qed.

Lemma observe_ge r l : r <= HybridClock_observe r l /\ l <= HybridClock_observe r l.
Proof. unfold HybridClock_observe. case_match; bool_facts; lia. Qed.

Lemma to_result_available o : read_status (to_result o) <> RSUnavailable.
Proof. unfold to_result. by destruct o as [v|]; [destruct (vv_tombstone v)|]. Qed.

(** [node] holds [v] or is being brought up to it: it is this node and holds it,
    it has acknowledged it, a write of it has been sent, or a hint is queued. *)
Definition tended (arr : list (Z * CacheNode * RequestResult RespValue)) (key : bytes) (v : VersionedValue)
    (node : CacheNode) c : Prop :=
  repaired key v node c \/ hinted key v node c \/
  exists t res, (t, node, res) ∈ arr /\ acknowledges res = true.

Lemma write_inv_tended arr P w c A Hd n : write_inv arr P w c A Hd -> n ∈ P -> tended arr (wc_key w) (wc_value w) n c.
Proof.
  intros I Hn. destruct (decide (cn_id n = local_id (cl_mem c))) as [El|El].
  { left. left. split; [done|]. apply (wi_local _ _ _ _ _ _ I n Hn El). }
  rewrite (wi_perm _ _ _ _ _ _ I) in Hn. apply elem_of_app in Hn as [Hn|[Hn|Hn]%elem_of_app].
  - destruct (wi_acked _ _ _ _ _ _ I n Hn) as [?|?]; [done|]. by right; right.
  - right; left. by apply I.
  - left; right. by apply I.
Qed.

(** ** Quorums of answers *)

Lemma NoDup_fmap_filter {A B : Type} (f : A -> B) (P : A -> bool) l :
  NoDup (f <$> l) -> NoDup (f <$> List.filter P l).
Proof.
  induction l as [|a l IH]; intros ND; [constructor|]. rewrite fmap_cons in ND. apply NoDup_cons in ND as [Ha ND].
  simpl. destruct (P a); [|auto]. rewrite fmap_cons. apply NoDup_cons. split; [|auto].
  intros (b & Eb & Hb)%list_elem_of_fmap. apply Ha. rewrite Eb. apply list_elem_of_fmap_2.
  apply list_elem_of_In, List.filter_In in Hb as [Hb _]. by apply list_elem_of_In.
Qed.

Lemma replies_targets targets q :
  replies_shape targets q -> (fun x => x.1.1) <$> replies_list q = targets.
Proof.
  intros R. unfold replies_list. rewrite (rs_targets _ _ R).
  transitivity ((zip (zip targets (qr_replied q)) (qr_values q)).*1.*1); [by rewrite <-list_fmap_compose|].
  rewrite fst_zip by (rewrite length_zip_with, (rs_replied _ _ R), (rs_values _ _ R); lia).
  apply fst_zip. by rewrite (rs_replied _ _ R).
Qed.

Lemma answered_count (T : list CacheNode) (R : list bool) (V : list (option VersionedValue)) :
  length R = length T -> length V = length T ->
  length (List.filter (fun x => x.1.2) (zip (zip T R) V)) = count_true R.
Proof.
  unfold count_true. revert R V. induction T as [|t T IH]; intros [|b R] [|v V] H1 H2; try done.
  simpl in *. destruct b; simpl; rewrite IH by lia; done.
Qed.

(** The ids of the targets that answered. *)
Definition answered_ids (q : QuorumReplies) : list bytes :=
  (fun x => cn_id x.1.1) <$> List.filter (fun x => x.1.2) (replies_list q).

Lemma answered_ids_spec targets q :
  replies_shape targets q -> NoDup (cn_id <$> targets) ->
  NoDup (answered_ids q) /\ length (answered_ids q) = count_true (qr_replied q) /\
  forall id, id ∈ answered_ids q ->
    exists i node x, targets !! i = Some node /\ cn_id node = id /\ answered q i x.
Proof.
  intros R ND. unfold answered_ids. split_and!.
  - apply NoDup_fmap_filter. rewrite <-(replies_targets _ _ R), <-list_fmap_compose in ND. exact ND.
  - rewrite length_fmap. unfold replies_list. apply answered_count; rewrite (rs_targets _ _ R); apply R.
  - intros id ([[n b] x] & -> & Hin)%list_elem_of_fmap. apply list_elem_of_In, List.filter_In in Hin as [Hin Hb].
    simpl in Hb. subst b. apply list_elem_of_In, (replies_list_lookup _ _ _ _ _ R) in Hin as (i & H1 & H2 & H3).
    exists i, n, x. by repeat split.
Qed.

(** The configured quorums overlap. *)
Definition quorums_overlap c : Prop :=
  let rf := replication_factor (cl_mem c) in
  let majority q := if (q =? 0)%nat then (rf / 2 + 1)%nat else q in
  (rf < majority (read_quorum (cl_config c)) + majority (write_quorum (cl_config c)))%nat.

(** A write quorum [A] of the targets, each member of which answers, if it
    does, with [st] or something newer. *)
Definition quorum_holds c (targets : list CacheNode) (q : QuorumReplies) (A : list bytes) (st : Stamp) : Prop :=
  NoDup A /\ (forall id, id ∈ A -> id ∈ cn_id <$> targets) /\
  (write_needed c (length targets) <= length A)%nat /\
  forall i node x, targets !! i = Some node -> cn_id node ∈ A -> answered q i x ->
    ostamp_le (Some st) (stamp_of_vv <$> x).

Lemma quorum_holds_targets c targets q A st : quorum_holds c targets q A st -> targets <> [].
Proof.
  intros HA ->. destruct HA as (_ & HA & LA & _). unfold write_needed, effective_quorum in LA.
  destruct A as [|id A]; [simpl in LA; lia|]. specialize (HA id ltac:(left)). by apply elem_of_nil in HA.
Qed.

(** Some answer of a read quorum is at least what a write quorum holds. *)
Lemma quorum_answer arr key targets c q A st :
  replies_ok arr key targets c q -> NoDup (cn_id <$> targets) ->
  (0 < length targets <= replication_factor (cl_mem c))%nat -> quorums_overlap c -> qr_ok q = true ->
  quorum_holds c targets q A st ->
  exists i v, answered q i (Some v) /\ ostamp_le (Some st) (Some (stamp_of_vv v)).
Proof.
  intros R ND [Hn0 Hn] Ho Hok (NA & HA & LA & VA).
  destruct (answered_ids_spec _ _ (ro_shape _ _ _ _ _ R) ND) as (NB & LB & SB).
  rewrite (ro_ok _ _ _ _ _ R) in Hok. bool_facts.
  destruct (lists_meet (cn_id <$> targets) (answered_ids q) A) as (id & H1 & H2); try done.
  - intros id (i & node & x & Hi & <- & _)%SB. apply list_elem_of_fmap_2. by eapply list_elem_of_lookup_2.
  - rewrite length_fmap. unfold read_needed, write_needed in *.
    pose proof (effective_quorum_sum (replication_factor (cl_mem c)) (read_quorum (cl_config c))
      (write_quorum (cl_config c)) (length targets) Hn Hn0 Ho). lia.
  - destruct (SB id H1) as (i & node & x & Hi & <- & Hx). specialize (VA i node x Hi H2 Hx).
    destruct x as [v|]; [|done]. eauto.
Qed.

(** How a target is known to hold [v] or something newer: it answered with it,
    it is this node and stores it, or it acknowledged the write of it. *)
Definition known_holder (arr : list (Z * CacheNode * RequestResult RespValue)) (key : bytes)
    (targets : list CacheNode) (q : QuorumReplies) (v : VersionedValue) (c : Cluster S) (n : CacheNode) : Prop :=
  (exists i x, targets !! i = Some n /\ answered q i (Some x) /\ stamp_of_vv x = stamp_of_vv v) \/
  (cn_id n = local_id (cl_mem c) /\
     (ttl_positive v -> exists t, ostamp_le (Some (stamp_of_vv v)) (vs_view t key (cl_cache c)))) \/
  (exists t res, (t, n, res) ∈ arr /\ acknowledges res = true).

Lemma up_to_date_answers targets q v :
  replies_shape targets q -> NoDup (cn_id <$> targets) ->
  exists holders, NoDup (cn_id <$> holders) /\ length holders = up_to_date v q /\
    forall n, n ∈ holders -> exists i x, targets !! i = Some n /\ answered q i (Some x) /\ stamp_of_vv x = stamp_of_vv v.
Proof.
  intros R ND. exists ((fun x => x.1.1) <$>
    List.filter (fun '(_, replied, value) => replied && holds v value) (replies_list q)). split_and!.
  - rewrite <-list_fmap_compose. apply (NoDup_fmap_filter (cn_id ∘ (fun x => x.1.1))).
    rewrite <-(replies_targets _ _ R), <-list_fmap_compose in ND. exact ND.
  - by rewrite length_fmap.
  - intros n ([[m b] x] & -> & Hin)%list_elem_of_fmap. apply list_elem_of_In, List.filter_In in Hin as [Hin Hb].
    apply list_elem_of_In, (replies_list_lookup _ _ _ _ _ R) in Hin as (i & H1 & H2 & H3).
    apply andb_true_iff in Hb as [-> Hb]. unfold holds in Hb. destruct x as [y|]; [|done].
    rewrite same_version_stamp in Hb. bool_facts. exists i, y. by repeat split.
Qed.

Lemma up_to_date_holders arr warr key targets c c' q v :
  replies_ok arr key targets c q -> NoDup (cn_id <$> targets) ->
  exists holders, NoDup (cn_id <$> holders) /\ length holders = up_to_date v q /\
    forall n, n ∈ holders -> n ∈ targets /\ known_holder warr key targets q v c' n.
Proof.
  intros R ND. destruct (up_to_date_answers targets q v (ro_shape _ _ _ _ _ R) ND) as (hs & H1 & H2 & H3).
  exists hs. split; [done|]. split; [done|]. intros n Hn. destruct (H3 n Hn) as (i & x & Hi & Hx & Es).
  split; [by eapply list_elem_of_lookup_2|]. left. eauto.
Qed.

Lemma observe_replies_ge (l : list (CacheNode * bool * option VersionedValue)) t B :
  0 <= t <= B -> (forall n v, (n, true, Some v) ∈ l -> 0 <= vv_version v <= B) ->
  let t' := foldl (fun t '(_, replied, value) =>
              match replied, value with
              | true, Some v => HybridClock_observe (vv_version v) t
              | _, _ => t
              end) t l in
  t <= t' <= B /\ forall n v, (n, true, Some v) ∈ l -> vv_version v <= t'.
Proof.
  revert t. induction l as [|[[n b] x] l IH]; intros t HB Hl; simpl.
  { split; [lia|]. intros n v Hn. by apply elem_of_nil in Hn. }
  set (t1 := match b, x with true, Some v => HybridClock_observe (vv_version v) t | _, _ => t end).
  assert (H1 : t <= t1 <= B /\ forall v, b = true -> x = Some v -> vv_version v <= t1).
  { unfold t1. destruct b; [|split; [lia|done]]. destruct x as [v|]; [|split; [lia|done]].
    destruct (observe_ge (vv_version v) t). specialize (Hl n v ltac:(left)).
    split; [|intros ? _ [= <-]; done]. split; [done|]. unfold HybridClock_observe. case_match; lia. }
  destruct H1 as [H1 H1']. destruct (IH t1) as [I1 I2]; [lia|intros m v Hm; apply (Hl m); by right|].
  split; [lia|]. intros m v [Em|Hm]%elem_of_cons; [|by apply (I2 m)]. simplify_eq.
  specialize (H1' v eq_refl eq_refl). lia.
Qed.

(** A write's stamp exceeds everything the clock had seen. *)
Lemma now_above ms t : 0 <= t < 2 ^ 64 - 1 -> t < HybridClock_now ms t.
Proof.
  intros Ht. unfold HybridClock_now, next_stamp. destruct (t <? physical_stamp ms) eqn:E; bool_facts; [done|].
  rewrite wrap_small; lia.
Qed.

(** A version issued after observing a read quorum exceeds what a write quorum
    holds. *)
Lemma query_above arr key targets c q A st ms clock :
  replies_ok arr key targets c q -> NoDup (cn_id <$> targets) ->
  (0 < length targets <= replication_factor (cl_mem c))%nat -> quorums_overlap c -> qr_ok q = true ->
  quorum_holds c targets q A st -> 0 <= clock < 2 ^ 64 - 1 ->
  (forall i v, answered q i (Some v) -> 0 <= vv_version v < 2 ^ 64 - 1) ->
  st_version st < HybridClock_now ms (observe_replies q clock).
Proof.
  intros R ND Hlen Ho Hok HA Hc Hv.
  destruct (quorum_answer _ _ _ _ _ A st R ND Hlen Ho Hok HA) as (i & v & Hiv & Hle).
  destruct (observe_replies_ge (replies_list q) clock (2 ^ 64 - 2)) as [O1 O2]; [lia| |].
  { intros n u Hin. apply (replies_list_lookup _ _ _ _ _ (ro_shape _ _ _ _ _ R)) in Hin as (j & _ & H2 & H3).
    specialize (Hv j u (conj H2 H3)). lia. }
  fold (observe_replies q clock) in O1, O2. apply ostamp_le_version in Hle. simpl in Hle.
  assert (is_Some (targets !! i)) as [n Hn].
  { apply lookup_lt_is_Some. rewrite <-(ro_replied _ _ _ _ _ R). destruct Hiv. by eapply lookup_lt_Some. }
  pose proof (now_above ms (observe_replies q clock) ltac:(lia)). destruct Hiv.
  assert (vv_version v <= observe_replies q clock); [|lia].
  apply (O2 n), (replies_list_lookup _ _ _ _ _ (ro_shape _ _ _ _ _ R)). eauto.
Qed.

(** ** Hinted handoff *)

Lemma replay_deliver_spec now sent batch :
  exists finished rest, batch = finished ++ rest /\
    let live := omap (refresh_hint now) finished in
    let '(remaining, n, cmds) := replay_deliver now sent batch in
    n = length live /\ take n sent = replicate n true /\
    match rest with
    | [] => remaining = [] /\ cmds = hint_command <$> live
    | h :: rest' =>
        exists h', refresh_hint now h = Some h' /\ head (drop n sent) <> Some true /\
          remaining = h' :: rest' /\ cmds = (hint_command <$> live) ++ [hint_command h']
    end.
Proof.
  revert sent. induction batch as [|h batch IH]; intros sent; [by exists [], []|]. cbn [replay_deliver].
  destruct (refresh_hint now h) as [h'|] eqn:Eh.
  - destruct sent as [|[|] sent'].
    + exists [], (h :: batch). split; [done|]. simpl. split_and!; try done. by exists h'.
    + destruct (IH sent') as (fin & rest & -> & K). exists (h :: fin), rest. split; [done|].
      cbn [omap list_omap]. rewrite Eh. destruct (replay_deliver now sent' (fin ++ rest)) as [[rem n] cmds].
      destruct K as (-> & K2 & K3). cbn [length]. rewrite Nat.add_1_r. cbn [take replicate drop fmap list_fmap].
      split; [done|]. split; [by rewrite K2|]. destruct rest as [|x rest'].
      * destruct K3 as [-> ->]. done.
      * destruct K3 as (x' & Ex & Hx & -> & ->). by exists x'.
    + exists [], (h :: batch). split; [done|]. simpl. split_and!; try done. by exists h'.
  - destruct (IH sent) as (fin & rest & -> & K). exists (h :: fin), rest. split; [done|].
    cbn [omap list_omap]. by rewrite Eh.
Qed.

Lemma replay_node_wf now sent id c : cluster_wf c -> cluster_wf (fst (replay_node now sent id c)).
Proof.
  intros W. unfold replay_node. destruct (Cluster_is_node_healthy id (cl_mem c)); [|done]. cbn [negb].
  unfold replay_take. set (queue := default [] (cl_hints c !! id)).
  assert (Hq : (length queue <= max_hints_per_node (cl_config c))%nat).
  { unfold queue. destruct (cl_hints c !! id) eqn:E; simpl; [by eapply W|lia]. }
  assert (Wi : forall q h', (length q <= length queue)%nat ->
    (forall id' q', h' !! id' = Some q' -> id' <> id -> cl_hints c !! id' = Some q') ->
    cluster_wf (set_hints (<[id := q]> h') c)).
  { intros q h' Hl Hh. destruct W. split; try done. cbn [cl_hints set_hints cl_config]. intros id' q'.
    rewrite lookup_insert_Some. intros [[_ <-]|[? ?]]; [lia|eauto]. }
  destruct (nodes_ (cl_mem c) !! id) as [node|]; [|apply Wi; [simpl; lia|done]].
  destruct (replay_deliver_spec now sent (take kBatch queue)) as (fin & rest & Eb & K).
  destruct (replay_deliver now sent (take kBatch queue)) as [[rem n] cmds]. cbn [fst].
  apply set_counters_wf. apply (f_equal length) in Eb. rewrite length_take, length_app in Eb.
  destruct rem as [|h rem]; [apply Wi; [rewrite length_drop; lia|done]|]. cbn [set_hints cl_hints].
  change (cluster_wf (set_hints (<[id := (h :: rem) ++ default [] (<[id := drop kBatch queue]> (cl_hints c) !! id)]>
    (<[id := drop kBatch queue]> (cl_hints c))) c)).
  rewrite lookup_insert_eq. apply Wi.
  - destruct K as (_ & _ & K). destruct rest as [|x rest']; [by destruct K|].
    destruct K as (h' & _ & _ & [= _ ->] & _). cbn [from_option Datatypes.id app length] in *. rewrite length_app, length_drop. lia.
  - intros id' q' Hl Hne. by rewrite lookup_insert_ne in Hl.
Qed.

(** ** Every operation returns and keeps the invariant *)

Definition same_mem c c' : Prop := cl_config c' = cl_config c /\ cl_mem c' = cl_mem c.

#[export] Instance same_mem_preorder : PreOrder same_mem.
Proof. split; [by intros c|]. intros a b c [? ?] [? ?]. split; congruence. Qed.

Lemma setup_mem c c' : same_setup c c' -> same_mem c c'.
Proof. by intros (? & ? & ?). Qed.

(** The replies an operation on [key] may be exposed to. *)
Definition write_env_ok c (key : bytes) (env : WriteEnv) : Prop :=
  forall targets, Cluster_preference_list key (cl_mem c) = Some targets ->
    write_arrivals_ok c targets (we_arrivals env).
Definition read_env_ok c (key : bytes) (env : ReadEnv) : Prop :=
  forall targets, Cluster_preference_list key (cl_mem c) = Some targets ->
    read_arrivals_ok c targets (re_arrivals env).

Lemma write_env_mem c c' key env : same_mem c c' -> write_env_ok c key env -> write_env_ok c' key env.
Proof. unfold write_env_ok, write_arrivals_ok, called. by intros [_ ->]. Qed.

Lemma read_env_mem c c' key env : same_mem c c' -> read_env_ok c key env -> read_env_ok c' key env.
Proof. unfold read_env_ok, read_arrivals_ok, called. by intros [_ ->]. Qed.

(** From [c] the step returned [c']. *)
Definition stepped c c' : Prop := cluster_wf c' /\ same_mem c c'.

Lemma collect_total env key c :
  cluster_wf c -> read_env_ok c key env ->
  exists c' q, Cluster_collect env key c = Some (c', q) /\ stepped c c'.
Proof.
  intros W Ha. destruct (targets_exist key (cl_mem c) (cw_routing c W)) as (targets & Ht & _).
  destruct (decide (targets = [])) as [->|Hne].
  { unfold Cluster_collect. rewrite Ht. simpl. eexists _, _. split; [reflexivity|]. by split. }
  destruct (collect_correct env key c targets W Ht Hne (Ha _ Ht)) as (c' & q & E & W' & S' & _).
  eexists _, _. split; [exact E|]. split; [done|by apply setup_mem].
Qed.

Lemma read_total env key c :
  cluster_wf c -> read_env_ok c key (fr_collect env) -> write_env_ok c key (fr_writeback env) ->
  exists c' r w, Cluster_read env key c = Some (c', r, w) /\ stepped c c'.
Proof.
  intros W Ha Hw. destruct (targets_exist key (cl_mem c) (cw_routing c W)) as (targets & Ht & _).
  destruct (can_serve_locally key false c) as [[|]|] eqn:El.
  - unfold Cluster_read. rewrite El. cbn [mbind option_bind].
    destruct (vs_get_law (fr_now env) key (cl_cache c) (cw_cache c W)) as (s & x & E & Ws & _).
    rewrite E. cbn [mbind option_bind]. eexists _, _, _. split; [reflexivity|]. split; [by apply set_cache_wf|done].
  - destruct (decide (targets = [])) as [->|Hne].
    + unfold Cluster_read, Cluster_collect. rewrite El, Ht. simpl. eexists _, _, _. split; [reflexivity|].
      split; [by apply set_counters_wf|done].
    + destruct (read_correct env key c targets W Ht Hne El (Ha _ Ht) (Hw _ Ht))
        as (_ & _ & c' & r & w & _ & _ & _ & E & W' & C' & M' & _). eexists _, _, _. split; [exact E|]. by split.
  - by rewrite (can_serve_locally_spec _ _ _ targets (cw_routing c W) Ht) in El.
Qed.

Lemma replicate_step env key v c :
  cluster_wf c -> write_env_ok c key env ->
  exists c' r w, Cluster_replicate env key v c = Some (c', r, w) /\ stepped c c'.
Proof.
  intros W Ha. destruct (replicate_total env key v c W Ha) as (c' & r & w & E & W' & S').
  eexists _, _, _. split; [exact E|]. split; [done|by apply setup_mem].
Qed.

Lemma next_version_total env ms key c :
  cluster_wf c -> read_env_ok c key env ->
  exists c' o, next_version env ms key c = Some (c', o) /\ stepped c c'.
Proof.
  intros W Ha. unfold next_version.
  assert (exists b, (if bool_decide (consistency (cl_config c) = Linearizable)
    then local ← can_serve_locally key true c; Some (negb local) else Some false) = Some b) as [b ->].
  { destruct (targets_exist key (cl_mem c) (cw_routing c W)) as (targets & Ht & _).
    rewrite (can_serve_locally_spec _ _ _ targets (cw_routing c W) Ht). case_bool_decide; simpl; eauto. }
  cbn [mbind option_bind]. destruct b; cycle 1.
  { eexists _, _. split; [reflexivity|]. split; [by apply set_clock_wf|done]. }
  destruct (collect_total env key c W Ha) as (c' & q & E & W' & S'). rewrite E. cbn [mbind option_bind].
  destruct (qr_ok q); cbn [negb]; (eexists _, _; split; [reflexivity|]); (split; [|done]).
  - by apply set_clock_wf, set_clock_wf.
  - by apply set_counters_wf.
Qed.

(** The operations of a node, with what each is exposed to; [NLateWrite] is the
    callback of a call whose write has already returned. *)
Inductive NodeOp :=
  | NPut (env : FullWriteEnv) (key value : bytes) (ttl : option Z)
  | NDel (env : FullWriteEnv) (key : bytes)
  | NRead (env : FullReadEnv) (key : bytes)
  | NExpire (renv : FullReadEnv) (ms : Z) (wenv : WriteEnv) (key : bytes) (ttl : Z)
  | NReplicaWrite (now : Z) (key : bytes) (v : VersionedValue)
  | NReplicaRead (now : Z) (key : bytes)
  | NLateWrite (now : Z) (node : CacheNode) (res : RequestResult RespValue) (w : WriteCall)
  | NReplay (now : Z) (sent : list bool) (id : bytes).

Definition Node_exec (op : NodeOp) c : option (Cluster S) :=
  match op with
  | NPut env key value ttl => '(c', _, _) ← Cluster_put env key value ttl c; Some c'
  | NDel env key => '(c', _, _) ← Cluster_del env key c; Some c'
  | NRead env key => '(c', _, _) ← Cluster_read env key c; Some c'
  | NExpire renv ms wenv key ttl => '(c', _, _) ← Cluster_expire_key renv ms wenv key ttl c; Some c'
  | NReplicaWrite now key v => '(c', _) ← Cluster_apply_replica_write now key v c; Some c'
  | NReplicaRead now key => '(c', _) ← Cluster_replica_read now key c; Some c'
  | NLateWrite now node res w => '(c', _) ← replicate_reply now node res w c; Some c'
  | NReplay now sent id => Some (fst (replay_node now sent id c))
  end.

Definition Node_run (ops : list NodeOp) c : option (Cluster S) :=
  foldl (fun o op => o ≫= Node_exec op) (Some c) ops.

Definition op_env_ok c (op : NodeOp) : Prop :=
  match op with
  | NPut env key _ _ | NDel env key => read_env_ok c key (fw_query env) /\ write_env_ok c key (fw_write env)
  | NRead env key => read_env_ok c key (fr_collect env) /\ write_env_ok c key (fr_writeback env)
  | NExpire renv _ wenv key _ =>
      read_env_ok c key (fr_collect renv) /\ write_env_ok c key (fr_writeback renv) /\ write_env_ok c key wenv
  | _ => True
  end.

(** A write operation: version, then fan-out. *)
Lemma write_op_step env key (mk : Z -> VersionedValue) c :
  cluster_wf c -> read_env_ok c key (fw_query env) -> write_env_ok c key (fw_write env) ->
  exists c' x, ('(c1, version) ← next_version (fw_query env) (fw_ms env) key c;
    match version with
    | None => Some (c1, write_failed, None)
    | Some t => Cluster_replicate (fw_write env) key (mk t) c1
    end) = Some (c', x.1, x.2) /\ stepped c c'.
Proof.
  intros W Hr Hw. destruct (next_version_total (fw_query env) (fw_ms env) key c W Hr) as (c1 & o & -> & W1 & S1).
  cbn [mbind option_bind]. destruct o as [t|]; cycle 1.
  { eexists c1, (_, _). split; [reflexivity|]. by split. }
  destruct (replicate_step (fw_write env) key (mk t) c1 W1) as (c2 & r & w & E & W2 & S2);
    [by eapply write_env_mem|]. exists c2, (r, w). split; [exact E|]. split; [done|by transitivity c1].
Qed.

Lemma Node_exec_step op c : cluster_wf c -> op_env_ok c op -> exists c', Node_exec op c = Some c' /\ stepped c c'.
Proof.
  intros W Hok. destruct op as [env key value ttl|env key|env key|renv ms wenv key ttl|now key v|now key|now node res w|now sent id];
    cbn [Node_exec op_env_ok] in *.
  - destruct Hok as [H1 H2]. destruct (write_op_step env key (fun t => mkVV value t false ttl) c W H1 H2) as (c' & x & E & S').
    unfold Cluster_put. rewrite E. eauto.
  - destruct Hok as [H1 H2]. destruct (write_op_step env key (fun t => mkVV [] t true None) c W H1 H2) as (c' & x & E & S').
    unfold Cluster_del. rewrite E. eauto.
  - destruct Hok as [H1 H2]. destruct (read_total env key c W H1 H2) as (c' & r & w & E & S'). rewrite E. eauto.
  - destruct Hok as (H1 & H2 & H3). destruct (read_total renv key c W H1 H2) as (c1 & r & w & E & W1 & S1).
    unfold Cluster_expire_key. rewrite E. cbn [mbind option_bind].
    destruct (read_status r); [|eexists; split; [reflexivity|by split]..].
    unfold clock_now. cbv zeta. set (c2 := set_clock _ c1). set (v := mkVV _ _ _ _).
    destruct (replicate_step wenv key v c2) as (c3 & r3 & w3 & E3 & W3 & S3).
    + by apply set_clock_wf.
    + eapply write_env_mem; [|exact H3]. by transitivity c1.
    + rewrite E3. cbn [mbind option_bind]. eexists. split; [reflexivity|]. split; [done|].
      transitivity c1; [done|]. by transitivity c2.
  - unfold Cluster_apply_replica_write.
    destruct (vs_apply_law now key v (cl_cache c) (cw_cache c W)) as (s & ch & live & E & Ws & _).
    rewrite E. simpl. eexists. split; [reflexivity|]. split; [|done].
    apply set_cache_wf; [by apply set_clock_wf|done].
  - unfold Cluster_replica_read. destruct (vs_get_law now key (cl_cache c) (cw_cache c W)) as (s & x & E & Ws & _).
    rewrite E. simpl. eexists. split; [reflexivity|]. split; [by apply set_cache_wf|done].
  - unfold replicate_reply. destruct (match rr_is_ok res with true => _ | false => _ end) as [[|] live]; simpl.
    + eexists. split; [reflexivity|]. by split.
    + destruct (add_hint_spec now node (wc_key w) (wc_value w) c W) as (c' & E & W' & S' & _). rewrite E. simpl.
      eexists. split; [reflexivity|]. split; [done|by apply setup_mem].
  - eexists. split; [reflexivity|]. split; [by apply replay_node_wf|].
    unfold replay_node, replay_take, replay_put_back. repeat case_match; simplify_eq/=; done.
Qed.

Lemma op_env_mem c c' op : same_mem c c' -> op_env_ok c op -> op_env_ok c' op.
Proof.
  intros Sm. destruct op; simpl; try done; intros; destruct_and?; split_and?;
    by first [eapply read_env_mem | eapply write_env_mem].
Qed.
End props.
