(* ===== verification/ClusterProps.v ===== *)
(** * What the coordinator guarantees

    Theorems about Cluster.v, for any store that keeps the promises of
    [VersionedStoreLaws]: a write loses track of no target, a read returns the
    newest value a quorum holds, a linearizable write is stamped above everything
    a quorum holds, hints are delivered or kept, and every operation preserves
    the coordinator's invariant. *)

From S2P Require Import Prelude Numerals CacheEntry Cache CacheSpec CacheRefine CacheProps VersionedStore HybridClock ConsistentHash RoutingTable HealthChecker Membership Resp Parser ReplicaWire Cluster ClusterLemmas.

Local Open Scope Z_scope.

Section props.
Context {S : Type} `{VersionedStoreLaws S}.
Implicit Types c : Cluster S.

(** C3: A write loses track of no replica: whatever replies arrive before the
    wait ends, [replicate] returns, and the targets are split into those that
    acknowledged, this node among them if it is a target, and then holds the
    write or a newer one; those with a hint queued; and those called and still
    to answer.  It reports success exactly when a write quorum acknowledged. *)
Theorem cluster_write_accounts env key v c targets :
  cluster_wf c -> Cluster_preference_list key (cl_mem c) = Some targets -> targets <> [] ->
  can_serve_locally key true c = Some false -> write_arrivals_ok c targets (we_arrivals env) ->
  exists c' w acked hintd,
    Cluster_replicate env key v c =
      Some (c', mkWR (write_needed c (length targets) <=? length acked)%nat (wc_existed w) (length acked), Some w) /\
    targets ≡ₚ acked ++ hintd ++ wc_pending w /\
    (forall n, n ∈ acked -> cn_id n = local_id (cl_mem c) \/
       exists t res, (t, n, res) ∈ we_arrivals env /\ acknowledges res = true) /\
    (forall n, n ∈ hintd -> hinted key v n c') /\
    (forall n, n ∈ wc_pending w -> mkCall n (replica_write_command key v) ∈ cl_outbox c') /\
    (forall n, n ∈ targets -> cn_id n = local_id (cl_mem c) -> n ∈ acked /\
       (ttl_positive v -> exists t, ostamp_le (Some (stamp_of_vv v)) (vs_view t key (cl_cache c')))).
Proof.
  intros W Ht Hne Hl Ha.
  destruct (replicate_fanout env key v c targets W Ht Hne Hl Ha) as (c' & w & A & Hd & E & I & (_ & M & _) & <- & <- & _).
  exists c', w, A, Hd. destruct I. rewrite M in *. by split_and!.
Qed.

(** C6: A read returns the newest of the answers it got: the value of largest
    stamp, and nothing when every answer is "nothing" or when the largest is a
    tombstone.  With quorum consistency it fails only for want of answers.  When
    it succeeds the clock has caught up with that value, and every target that
    answered with something else has been repaired or is being repaired. *)
Theorem cluster_read_newest env key c targets :
  cluster_wf c -> Cluster_preference_list key (cl_mem c) = Some targets -> targets <> [] ->
  can_serve_locally key false c = Some false ->
  read_arrivals_ok c targets (re_arrivals (fr_collect env)) ->
  write_arrivals_ok c targets (we_arrivals (fr_writeback env)) ->
  exists c1 q c' r w winner,
    Cluster_collect (fr_collect env) key c = Some (c1, q) /\
    replies_ok (re_arrivals (fr_collect env)) key targets c q /\
    Cluster_read env key c = Some (c', r, w) /\ newest q winner /\
    (read_status r = RSUnavailable \/ r = to_result winner) /\
    (consistency (cl_config c) = Quorum ->
       read_status r = RSUnavailable <-> (count_true (qr_replied q) < read_needed c (length targets))%nat) /\
    (read_status r <> RSUnavailable -> forall v, winner = Some v ->
       vv_version v <= cl_clock c' /\
       forall i node x, targets !! i = Some node -> answered q i x ->
         stamp_of_vv <$> x <> Some (stamp_of_vv v) ->
         tended (we_arrivals (fr_writeback env)) key v node c').
Proof.
  intros W Ht Hne Hl Ha Hw.
  destruct (read_correct env key c targets W Ht Hne Hl Ha Hw) as (c1 & q & c' & r & w & E1 & R & N & E & W' & C' & M' & K).
  exists c1, q, c', r, w, (pick_winner q). split_and!; try done.
  - destruct (qr_ok q); [|destruct K as [-> _]; by left].
    destruct (pick_winner q) as [v|]; [|destruct K as [-> _]; by right].
    destruct K as [_ K]. unfold second_phase in K. destruct w as [wc|].
    + destruct K as (_ & _ & _ & A & Hd & _ & ->). case_match; [by right|by left].
    + destruct K as [-> _]. by right.
  - intros Hq. rewrite (ro_ok _ _ _ _ _ R) in K. destruct (_ <=? _)%nat eqn:Eq in K; bool_facts.
    + split; [|lia]. intros Hu. exfalso. destruct (pick_winner q) as [v|].
      * destruct K as [_ K]. unfold second_phase in K. destruct w as [wc|]; cycle 1.
        { destruct K as [-> _]. by apply to_result_available in Hu. }
        destruct K as [K _]. congruence.
      * destruct K as [-> _]. by apply to_result_available in Hu.
    + destruct K as [-> _]. done.
  - intros Ha' v Ev. rewrite Ev in K. destruct (qr_ok q); [|by destruct K as [-> _]].
    destruct K as [Ec K]. split; [rewrite Ec; apply observe_ge|]. intros i node x Hi Hx Hs.
    unfold second_phase in K. destruct w as [wc|].
    + destruct K as (_ & <- & <- & A & Hd & I & _). eapply write_inv_tended; [done|]. by eapply list_elem_of_lookup_2.
    + destruct K as (_ & _ & K). left. apply K. apply (stale_targets_spec _ _ _ _ (ro_shape _ _ _ _ _ R)). eauto 10.
Qed.

(** C5: Reads see completed writes: when the read and write quorums overlap, a
    read that succeeds returns a value at least as new as any stamp a write
    quorum holds, whichever replicas answered it. *)
Theorem cluster_read_sees_write env key c targets c1 q A st c' r w :
  cluster_wf c -> Cluster_preference_list key (cl_mem c) = Some targets ->
  can_serve_locally key false c = Some false ->
  read_arrivals_ok c targets (re_arrivals (fr_collect env)) ->
  write_arrivals_ok c targets (we_arrivals (fr_writeback env)) ->
  quorums_overlap c ->
  Cluster_collect (fr_collect env) key c = Some (c1, q) -> quorum_holds c targets q A st ->
  Cluster_read env key c = Some (c', r, w) -> read_status r <> RSUnavailable ->
  exists v, ostamp_le (Some st) (Some (stamp_of_vv v)) /\ r = to_result (Some v).
Proof.
  intros W Ht Hl Ha Hw Ho E1 HA E Hs.
  destruct (targets_exist key (cl_mem c) (cw_routing c W)) as (? & Ht' & ND & Hlen).
  assert (x = targets) as -> by congruence. clear Ht'.
  assert (Hne : targets <> []) by (by eapply quorum_holds_targets).
  destruct (read_correct env key c targets W Ht Hne Hl Ha Hw)
    as (c1' & q' & c'' & r' & w' & E1' & R & N & E' & _ & _ & _ & K). simplify_eq.
  destruct (qr_ok q) eqn:Eok; [|by destruct K as [-> _]].
  destruct (quorum_answer _ _ _ _ _ A st R ND) as (i & v & Hv & Hle); try done.
  { destruct targets; [done|]. simpl in *. lia. }
  pose proof (proj1 N i v Hv) as Hm. destruct (pick_winner q) as [u|]; [|done].
  exists u. split; [by etrans|]. destruct K as [_ K]. unfold second_phase in K. destruct w as [wc|].
  - destruct K as (_ & _ & _ & Ak & Hd & _ & ->). by case_match.
  - by destruct K as [-> _].
Qed.

(** C7: The second phase of a linearizable read: before it returns, the value (or
    tombstone) its answer is based on is known to be on a write quorum of the
    targets. *)
Theorem cluster_read_establishes env key c targets c' r w :
  cluster_wf c -> consistency (cl_config c) = Linearizable ->
  Cluster_preference_list key (cl_mem c) = Some targets -> targets <> [] ->
  can_serve_locally key false c = Some false ->
  read_arrivals_ok c targets (re_arrivals (fr_collect env)) ->
  write_arrivals_ok c targets (we_arrivals (fr_writeback env)) ->
  Cluster_read env key c = Some (c', r, w) -> read_status r <> RSUnavailable ->
  exists c1 q winner,
    Cluster_collect (fr_collect env) key c = Some (c1, q) /\ newest q winner /\ r = to_result winner /\
    forall v, winner = Some v ->
      exists holders, NoDup (cn_id <$> holders) /\ (write_needed c (length targets) <= length holders)%nat /\
        forall n, n ∈ holders -> n ∈ targets /\
          known_holder (we_arrivals (fr_writeback env)) key targets q v c' n.
Proof.
  intros W Hlin Ht Hne Hl Ha Hw E Hs.
  destruct (targets_exist key (cl_mem c) (cw_routing c W)) as (? & Ht' & ND & _).
  assert (x = targets) as -> by congruence. clear Ht'.
  destruct (read_correct env key c targets W Ht Hne Hl Ha Hw)
    as (c1 & q & c'' & r' & w' & E1 & R & N & E' & _ & _ & M' & K). simplify_eq.
  exists c1, q, (pick_winner q). split; [done|]. split; [done|].
  destruct (qr_ok q); [|by destruct K as [-> _]].
  destruct (pick_winner q) as [v|]; [|by destruct K as [-> _]]. destruct K as [_ K].
  unfold second_phase in K. destruct w as [wc|].
  - destruct K as (_ & K1 & K2 & A & Hd & I & ->). destruct (_ <=? _)%nat eqn:Eq; [|done]. bool_facts.
    split; [done|]. intros ? [= <-]. exists A. split; [|split; [done|]].
    + rewrite (wi_perm _ _ _ _ _ _ I), fmap_app in ND. by apply NoDup_app in ND as (? & _).
    + intros n Hn. assert (HnT : n ∈ targets) by (rewrite (wi_perm _ _ _ _ _ _ I); set_solver).
      split; [done|]. right. destruct (decide (cn_id n = local_id (cl_mem c'))) as [El|El].
      * left. split; [done|]. rewrite <-K1, <-K2. apply (wi_local _ _ _ _ _ _ I n HnT El).
      * right. by destruct (wi_acked _ _ _ _ _ _ I n Hn) as [?|?].
  - destruct K as (-> & Kn & _). split; [done|]. intros ? [= <-].
    destruct (up_to_date_holders _ (we_arrivals (fr_writeback env)) key targets c c' q v R ND) as (hs & H1 & H2 & H3).
    exists hs. split; [done|]. split; [rewrite H2; auto|done].
Qed.

(** The first phase of a linearizable write: a [put] that gets as far as
    sending its value stamps it above every stamp a write quorum holds, so it
    supersedes all of them on every replica. *)
Theorem cluster_put_above env key value ttl c targets c1 q A st c' r w :
  cluster_wf c -> consistency (cl_config c) = Linearizable ->
  Cluster_preference_list key (cl_mem c) = Some targets ->
  can_serve_locally key true c = Some false ->
  read_arrivals_ok c targets (re_arrivals (fw_query env)) ->
  write_arrivals_ok c targets (we_arrivals (fw_write env)) ->
  quorums_overlap c -> 0 <= cl_clock c < 2 ^ 64 - 1 ->
  Cluster_collect (fw_query env) key c = Some (c1, q) -> quorum_holds c targets q A st ->
  (forall i v, answered q i (Some v) -> 0 <= vv_version v < 2 ^ 64 - 1) ->
  Cluster_put env key value ttl c = Some (c', r, Some w) ->
  wc_key w = key /\ stamp_gtb (stamp_of_vv (wc_value w)) st = true /\
  vv_value (wc_value w) = value /\ vv_tombstone (wc_value w) = false /\ vv_ttl (wc_value w) = ttl.
Proof.
  intros W Hlin Ht Hl Ha Hw Ho Hc E1 HA Hv E.
  destruct (targets_exist key (cl_mem c) (cw_routing c W)) as (? & Ht' & ND & Hlen).
  assert (x = targets) as -> by congruence. clear Ht'.
  assert (Hne : targets <> []) by (by eapply quorum_holds_targets).
  destruct (collect_correct (fw_query env) key c targets W Ht Hne Ha) as (c1' & q' & E1' & W1 & (C1 & M1 & T1) & _ & R).
  simplify_eq. unfold Cluster_put, next_version in E. rewrite bool_decide_eq_true_2, Hl in E by done.
  cbn [mbind option_bind negb] in E. rewrite E1 in E. cbn [mbind option_bind] in E.
  destruct (qr_ok q) eqn:Eok; cbn [negb] in E; [|done].
  unfold clock_now in E. cbn [mbind option_bind] in E. simpl in E.
  assert (Hlt : st_version st < HybridClock_now (fw_ms env) (observe_replies q (cl_clock c1))).
  { eapply query_above; try done; [|by rewrite T1]. destruct targets; [done|]. simpl in *. lia. }
  set (c2 := set_clock _ (set_clock _ c1)) in E. set (vv := mkVV _ _ _ _) in E.
  destruct (replicate_fanout (fw_write env) key vv c2 targets) as (c3 & w' & A' & Hd & E3 & _ & _ & K1 & K2 & _).
  - by apply set_clock_wf, set_clock_wf.
  - simpl. by rewrite M1.
  - done.
  - by rewrite (can_serve_setup _ _ c).
  - destruct Hw as [Hw1 Hw2]. split; [done|]. intros x Hx. destruct (Hw2 x Hx). split; [done|].
    unfold called in *. simpl. by rewrite M1.
  - rewrite E3 in E. simplify_eq. split; [done|]. rewrite K2. split; [|done].
    apply stamp_gtb_cases. by left.
Qed.

(** Hinted handoff delivers or keeps: one round for a reachable peer takes up
    to a batch of the queue, sends the hints that have not expired in order, and
    stops at the first failed send; everything from there on is back at the
    front of the queue, in order, and what was sent is counted as delivered. *)
Theorem hint_replay_exact now sent id c node :
  Cluster_is_node_healthy id (cl_mem c) = true -> nodes_ (cl_mem c) !! id = Some node ->
  let queue := default [] (cl_hints c !! id) in
  exists finished rest, queue = finished ++ rest /\ (length finished <= kBatch)%nat /\
    let live := omap (refresh_hint now) finished in
    let '(c', cmds) := replay_node now sent id c in
    take (length live) sent = replicate (length live) true /\
    hints_delivered (cl_counters c') = u64 (hints_delivered (cl_counters c) + Z.of_nat (length live)) /\
    (forall id', id' <> id -> cl_hints c' !! id' = cl_hints c !! id') /\
    ((length finished = Nat.min kBatch (length queue) /\ cmds = hint_command <$> live /\
      default [] (cl_hints c' !! id) = rest) \/
     (exists h h' rest', rest = h :: rest' /\ refresh_hint now h = Some h' /\
        head (drop (length live) sent) <> Some true /\
        cmds = (hint_command <$> live) ++ [hint_command h'] /\
        default [] (cl_hints c' !! id) = h' :: rest')).
Proof.
  intros Hh Hn queue. destruct (replay_deliver_spec now sent (take kBatch queue)) as (fin & rest & Eb & K).
  exists fin, (rest ++ drop kBatch queue).
  assert (Eq : queue = fin ++ rest ++ drop kBatch queue) by (rewrite app_assoc, <-Eb; by rewrite take_drop).
  assert (Hl : length (fin ++ rest) = Nat.min kBatch (length queue)) by (by rewrite <-Eb, length_take).
  rewrite length_app in Hl. split; [done|]. split; [lia|]. cbv zeta. unfold replay_node, replay_take.
  rewrite Hh, Hn. fold queue. cbn [negb]. destruct (replay_deliver now sent (take kBatch queue)) as [[rem n] cmds].
  destruct K as (-> & Kt & K). split; [done|]. unfold replay_put_back.
  split; [by destruct rem|]. split.
  { intros id' Hne. destruct rem; cbn [cl_hints set_counters set_hints]; by rewrite ?lookup_insert_ne. }
  destruct rest as [|h rest'].
  - destruct K as [-> ->]. left. cbn [length] in Hl. split; [lia|]. split; [done|].
    cbn [cl_hints set_counters set_hints]. by rewrite lookup_insert_eq.
  - destruct K as (h' & Eh & Hs & -> & ->). right. exists h, h', (rest' ++ drop kBatch queue). split_and!; try done.
    cbn [cl_hints set_counters set_hints]. rewrite !lookup_insert_eq. done.
Qed.


End props.

(** *** Witnesses: three nodes, every key on all of them, seen from node a *)

Definition sample_mem : Membership :=
  mkMembership node_a 3 (Ring_run 4 ring3)
    {[lit "a" := node_a; lit "b" := node_b; lit "c" := node_c]} ∅ ∅
    (RoutingTable_new (Ring_run 4 ring3) 3 (lit "a")) HealthChecker_new false [].

Definition sample_cluster (mode : Consistency) : Cluster Cache :=
  mkCluster (mkConfig 0 0 10 mode) sample_mem 100 (Cache_new 10 60000) ∅ (mkCounters 0 0 0 0 0 0) [].

Definition sample_key : bytes := lit "k3".
Definition sample_targets : list CacheNode :=
  default [] (Cluster_preference_list sample_key sample_mem).

(** Node b acknowledges; node c refuses. *)
Definition sample_write : WriteEnv :=
  mkWriteEnv (fun _ => 0) [(5, node_b, rr_success (RespInteger 0)); (6, node_c, rr_error RTimeout [])].

(** Node b answers with a value of version 200. *)
Definition sample_answer : RequestResult RespValue :=
  rr_success (encode_replica_get (Some (mkVV (lit "new") 200 false None))).
Definition index_b : nat := default 0%nat (fst <$> list_find (fun n => n = node_b) sample_targets).
Definition sample_collect : ReadEnv := mkReadEnv (fun _ => 0) [(index_b, sample_answer)].
Definition sample_read : FullReadEnv := mkFullRead 0 sample_collect 1 sample_write.

Lemma sample_targets_eq : Cluster_preference_list sample_key sample_mem = Some sample_targets.
Proof. vm_compute. reflexivity. Qed.

Lemma sample_wf mode : cluster_wf (sample_cluster mode).
Proof.
  split.
  - split; [by apply new_wf|done].
  - simpl. lia.
  - intros id q Hq. cbn [cl_hints sample_cluster] in Hq. by rewrite lookup_empty in Hq.
  - exists (Ring_run 4 ring3). split; [apply Ring_run_wf|]. split; [vm_compute; discriminate|reflexivity].
Qed.

Lemma sample_nonempty : sample_targets <> [].
Proof. vm_compute. discriminate. Qed.

Lemma sample_remote b mode : can_serve_locally sample_key b (sample_cluster mode) = Some false.
Proof. destruct b, mode; vm_compute; reflexivity. Qed.

Lemma sample_write_ok mode : write_arrivals_ok (sample_cluster mode) sample_targets (we_arrivals sample_write).
Proof.
  split.
  - by_eval.
  - intros x Hx. cbn [we_arrivals sample_write] in Hx. apply elem_of_cons in Hx as [->|Hx%list_elem_of_singleton];
      [|subst x]; (split; [by_eval|vm_compute; reflexivity]).
Qed.

Lemma sample_read_ok mode : read_arrivals_ok (sample_cluster mode) sample_targets (re_arrivals sample_collect).
Proof.
  split; [apply NoDup_singleton|]. intros x Hx. cbn [re_arrivals sample_collect] in Hx.
  apply list_elem_of_singleton in Hx as ->. exists node_b. split; vm_compute; reflexivity.
Qed.

Lemma cluster_write_accounts_witness :
  exists c' w acked hintd,
    Cluster_replicate sample_write sample_key (mkVV (lit "v") 150 false None) (sample_cluster Quorum) =
      Some (c', mkWR (2 <=? length acked)%nat (wc_existed w) (length acked), Some w) /\
    sample_targets ≡ₚ acked ++ hintd ++ wc_pending w.
Proof.
  destruct (cluster_write_accounts sample_write sample_key (mkVV (lit "v") 150 false None) (sample_cluster Quorum)
    sample_targets (sample_wf _) sample_targets_eq sample_nonempty (sample_remote _ _) (sample_write_ok _))
    as (c' & w & acked & hintd & E & P & _).
  exists c', w, acked, hintd. split; [exact E|exact P].
Defined.

Lemma cluster_read_newest_witness :
  exists c' r w, Cluster_read sample_read sample_key (sample_cluster Quorum) = Some (c', r, w) /\
    r = mkRead RSFound (mkVV (lit "new") 200 false None).
Proof.
  destruct (cluster_read_newest sample_read sample_key (sample_cluster Quorum) sample_targets
    (sample_wf _) sample_targets_eq sample_nonempty (sample_remote _ _) (sample_read_ok _) (sample_write_ok _))
    as (c1 & q & c' & r & w & winner & _ & _ & E & _).
  exists c', r, w. split; [exact E|].
  assert (X : (fun x => x.1.2) <$> Cluster_read sample_read sample_key (sample_cluster Quorum) =
    Some (mkRead RSFound (mkVV (lit "new") 200 false None))) by (vm_compute; reflexivity).
  rewrite E in X. by injection X.
Defined.

(** What the collection of the sample read returns. *)
Definition sample_replies (mode : Consistency) : QuorumReplies :=
  default (mkReplies false [] [] []) (snd <$> Cluster_collect sample_collect sample_key (sample_cluster mode)).

Lemma sample_collected mode :
  exists c1, Cluster_collect sample_collect sample_key (sample_cluster mode) = Some (c1, sample_replies mode).
Proof.
  destruct (collect_total sample_collect sample_key (sample_cluster mode)) as (c1 & q & E & _).
  - apply sample_wf.
  - intros targets Ht. cbn [cl_mem sample_cluster] in Ht. rewrite sample_targets_eq in Ht.
    apply (inj Some) in Ht as <-. apply sample_read_ok.
  - exists c1. unfold sample_replies. rewrite E. reflexivity.
Qed.

Definition sample_stamp : Stamp := mkStamp 200 false (lit "new").

Lemma sample_replies_eq mode :
  qr_replied (sample_replies mode) = [true; true; false] /\
  qr_values (sample_replies mode) = [None; Some (mkVV (lit "new") 200 false None); None].
Proof. destruct mode; vm_compute; split; reflexivity. Qed.

Lemma sample_quorum_holds mode :
  quorum_holds (sample_cluster mode) sample_targets (sample_replies mode) [lit "b"; lit "c"] sample_stamp.
Proof.
  split_and!.
  - by_eval.
  - intros id Hid. apply elem_of_cons in Hid as [->|Hid%list_elem_of_singleton]; [|subst id];
      by_eval.
  - vm_compute. lia.
  - intros i node x Hi Hn [H1 H2]. destruct (sample_replies_eq mode) as [E1 E2]. rewrite E1 in H1. rewrite E2 in H2.
    destruct i as [|[|[|i]]]; [|injection H2 as <-; vm_compute; reflexivity|discriminate H1|discriminate H1].
    assert (E : sample_targets !! 0%nat = Some node_a) by (vm_compute; reflexivity). rewrite E in Hi.
    apply (inj Some) in Hi as <-. exfalso. revert Hn. apply (bool_decide_eq_false_1 _). vm_compute. reflexivity.
Qed.

Lemma sample_overlap mode : quorums_overlap (sample_cluster mode).
Proof. vm_compute. lia. Qed.

Lemma cluster_read_sees_write_witness :
  exists c' r w v, Cluster_read sample_read sample_key (sample_cluster Linearizable) = Some (c', r, w) /\
    r = to_result (Some v) /\ ostamp_le (Some sample_stamp) (Some (stamp_of_vv v)).
Proof.
  destruct (sample_collected Linearizable) as [c1 E1].
  destruct (Cluster_read sample_read sample_key (sample_cluster Linearizable)) as [[[c' r] w]|] eqn:E.
  - assert (X : read_status <$> ((fun x => x.1.2) <$>
      Cluster_read sample_read sample_key (sample_cluster Linearizable)) = Some RSFound) by (vm_compute; reflexivity).
    rewrite E in X. simpl in X.
    destruct (cluster_read_sees_write sample_read sample_key (sample_cluster Linearizable) sample_targets c1
      (sample_replies Linearizable) [lit "b"; lit "c"] sample_stamp c' r w (sample_wf _) sample_targets_eq
      (sample_remote _ _) (sample_read_ok _) (sample_write_ok _) (sample_overlap _) E1 (sample_quorum_holds _) E)
      as (v & Hle & Hr); [intros Hu; rewrite Hu in X; discriminate X|].
    exists c', r, w, v. split; [reflexivity|]. split; [exact Hr|exact Hle].
  - exfalso. assert (X : is_Some (Cluster_read sample_read sample_key (sample_cluster Linearizable)))
      by (vm_compute; eauto). rewrite E in X. by destruct X.
Defined.

Lemma cluster_read_establishes_witness :
  exists c' r w, Cluster_read sample_read sample_key (sample_cluster Linearizable) = Some (c', r, w) /\
    exists c1 q winner,
      Cluster_collect sample_collect sample_key (sample_cluster Linearizable) = Some (c1, q) /\
      newest q winner /\ r = to_result winner.
Proof.
  destruct (Cluster_read sample_read sample_key (sample_cluster Linearizable)) as [[[c' r] w]|] eqn:E.
  - assert (X : read_status <$> ((fun x => x.1.2) <$>
      Cluster_read sample_read sample_key (sample_cluster Linearizable)) = Some RSFound) by (vm_compute; reflexivity).
    rewrite E in X. simpl in X.
    destruct (cluster_read_establishes sample_read sample_key (sample_cluster Linearizable) sample_targets c' r w
      (sample_wf _) eq_refl sample_targets_eq sample_nonempty (sample_remote _ _) (sample_read_ok _)
      (sample_write_ok _) E) as (c1 & q & winner & E1 & N & Hr & _); [intros Hu; rewrite Hu in X; discriminate X|].
    exists c', r, w. split; [reflexivity|]. exists c1, q, winner. split; [exact E1|]. split; [exact N|exact Hr].
  - exfalso. assert (X : is_Some (Cluster_read sample_read sample_key (sample_cluster Linearizable)))
      by (vm_compute; eauto). rewrite E in X. by destruct X.
Defined.

Definition sample_put : FullWriteEnv := mkFullWrite sample_collect 0 sample_write.

Lemma cluster_put_above_witness :
  exists c' r w, Cluster_put sample_put sample_key (lit "x") None (sample_cluster Linearizable) = Some (c', r, Some w) /\
    stamp_gtb (stamp_of_vv (wc_value w)) sample_stamp = true.
Proof.
  destruct (sample_collected Linearizable) as [c1 E1].
  destruct (Cluster_put sample_put sample_key (lit "x") None (sample_cluster Linearizable))
    as [[[c' r] [w|]]|] eqn:E.
  - destruct (cluster_put_above sample_put sample_key (lit "x") None (sample_cluster Linearizable) sample_targets c1
      (sample_replies Linearizable) [lit "b"; lit "c"] sample_stamp c' r w (sample_wf _) eq_refl sample_targets_eq
      (sample_remote _ _) (sample_read_ok _) (sample_write_ok _) (sample_overlap _)) as (_ & H & _).
    + cbn. lia.
    + exact E1.
    + apply sample_quorum_holds.
    + intros i v [H1 H2]. destruct (sample_replies_eq Linearizable) as [_ E2]. rewrite E2 in H2.
      destruct i as [|[|[|i]]]; try discriminate H2. injection H2 as <-. cbn. lia.
    + exact E.
    + exists c', r, w. split; [reflexivity|exact H].
  - exfalso. assert (X : snd <$> Cluster_put sample_put sample_key (lit "x") None (sample_cluster Linearizable) <> Some None)
      by (vm_compute; discriminate). rewrite E in X. by apply X.
  - exfalso. assert (X : is_Some (Cluster_put sample_put sample_key (lit "x") None (sample_cluster Linearizable)))
      by (vm_compute; eauto). rewrite E in X. by destruct X.
Defined.

(** Three hints for node b: one expired, one delivered, one refused. *)
Definition sample_queue : list Hint :=
  [mkHint (lit "x") (mkVV (lit "1") 1 false (Some 1)) (Some 5);
   mkHint (lit "y") (mkVV (lit "2") 2 false None) None;
   mkHint (lit "z") (mkVV (lit "3") 3 false (Some 9)) (Some 9000010)].
Definition sample_hinted : Cluster Cache := set_hints {[lit "b" := sample_queue]} (sample_cluster Quorum).

Lemma hint_replay_exact_witness :
  exists finished rest, sample_queue = finished ++ rest /\
    let '(c', cmds) := replay_node 10 [true; false] (lit "b") sample_hinted in
    take (length (omap (refresh_hint 10) finished)) [true; false] =
      replicate (length (omap (refresh_hint 10) finished)) true.
Proof.
  destruct (hint_replay_exact 10 [true; false] (lit "b") sample_hinted node_b) as (fin & rest & E & _ & K);
    [vm_compute; reflexivity|vm_compute; reflexivity|].
  exists fin, rest. split; [exact E|]. cbv zeta in K.
  destruct (replay_node 10 [true; false] (lit "b") sample_hinted). apply K.
Defined.

