(* ===== verification/Register.v ===== *)
(** * One key under several coordinators

    The nodes of a cluster in linearizable mode serving one key together.  Every
    step is one of the critical sections of src/cluster.cpp: a client's call
    reaches a coordinator, one iteration of a loop over the targets, a replica
    handling a call, a callback, the code after a wait.  Steps of any number of
    operations and nodes interleave in any order; calls and replies may be
    delayed for ever, delivered after the operation has ended, or fail.

    The steps are the pieces [Cluster_read], [Cluster_put] and [Cluster_del] of
    Cluster.v are made of; [read_phases] and [write_phases] say so.  Membership
    is fixed.  Values spread by hints, read repair and rebalancing are one step:
    a node applies a value some write has issued. *)

From S2P Require Import Prelude Numerals CacheEntry Cache CacheSpec CacheRefine CacheProps VersionedStore HybridClock ConsistentHash RoutingTable HealthChecker Membership Resp Parser ReplicaWire Cluster ClusterLemmas.

Local Open Scope Z_scope.

(** ** Operations in progress *)

Inductive OpKind := ORead | OPut (value : bytes) (ttl : option Z) | ODel.

Definition is_write (k : OpKind) : bool := match k with ORead => false | _ => true end.

(** The value a write sends once its version is known. *)
Definition write_value (k : OpKind) (version : Z) : VersionedValue :=
  match k with
  | OPut value ttl => mkVV value version false ttl
  | _ => mkVV [] version true None
  end.

(** Where the coordinator is: in the loop of [collect] or waiting for its
    replies, in the loop of [replicate] or waiting, or done. *)
Inductive OpStatus :=
  | Querying (i : nat)
  | Writing (todo : list CacheNode)
  | ReadDone (r : ReadResult)
  | WriteDone (r : WriteResult)
  | Failed.

(** [op_floor] counts the operations that had returned when this one was
    invoked.  [op_replies] and [op_acks] are the replies on their way. *)
Record Op := mkOp {
  op_kind : OpKind;
  op_node : bytes;
  op_floor : nat;
  op_query : ReadCall;
  op_replies : list (nat * RespValue);
  op_value : option VersionedValue;
  op_write : option WriteCall;
  op_acks : list (CacheNode * RespValue);
  op_status : OpStatus
}.

(** The initial [State] of [collect], and what it returns. *)
Definition new_query (key : bytes) (targets : list CacheNode) (needed : nat) : ReadCall :=
  let n := length targets in
  mkReadCall key targets needed 0 0 (replicate n None) (replicate n false) [].

Definition query_result (r : ReadCall) : QuorumReplies :=
  mkReplies (rc_needed r <=? rc_replies r)%nat (rc_targets r) (rc_values r) (rc_replied r).

(** The initial [State] of [replicate]. *)
Definition new_write (key : bytes) (v : VersionedValue) (targets : list CacheNode) (needed : nat) : WriteCall :=
  mkWriteCall key v targets needed 0 0 false [].

Section register.
Context {S : Type} `{VersionedStore S}.
Variable key : bytes.
Implicit Types c : Cluster S.

(** What an operation does when its query ends: a new state of the node, its
    status, the value it settled on, and the write it starts. *)
Definition QueryEnd : Type := Cluster S * OpStatus * option VersionedValue * option WriteCall.

(** [read] after [collect]. *)
Definition decide_read (now : Z) (r : ReadCall) c : option QueryEnd :=
  let q := query_result r in
  if negb (qr_ok q) then Some (set_counters count_read_failure c, Failed, None, None)
  else match pick_winner q with
  | None => Some (c, ReadDone (to_result None), None, None)
  | Some winner =>
      let c := set_clock (HybridClock_observe (vv_version winner) (cl_clock c)) c in
      let stale := stale_targets winner q in
      let c := set_counters (count_repairs (length stale)) c in
      if bool_decide (consistency (cl_config c) = Linearizable) &&
         (up_to_date winner q <? write_needed c (length (qr_targets q)))%nat then
        targets ← Cluster_preference_list key (cl_mem c);
        Some (c, Writing targets, Some winner, Some (new_write key winner targets (write_needed c (length targets))))
      else
        c' ← read_repair now key winner stale c;
        Some (c', ReadDone (to_result (Some winner)), Some winner, None)
  end.

(** [next_version] after [collect], and the start of [replicate]; [ms] is the
    wall clock. *)
Definition decide_write (ms : Z) (kind : OpKind) (r : ReadCall) c : option QueryEnd :=
  let q := query_result r in
  if negb (qr_ok q) then Some (set_counters count_write_failure c, Failed, None, None)
  else
    let '(c, t) := clock_now ms (set_clock (observe_replies q (cl_clock c)) c) in
    let v := write_value kind t in
    targets ← Cluster_preference_list key (cl_mem c);
    Some (c, Writing targets, Some v, Some (new_write key v targets (write_needed c (length targets)))).

(** After the wait of [replicate]. *)
Definition finish_write (kind : OpKind) (w : WriteCall) c : Cluster S * OpStatus :=
  let '(c', r) := replicate_finish w c in
  (c', if wr_ok r then (if is_write kind then WriteDone r else ReadDone (to_result (Some (wc_value w)))) else Failed).

(** ** The system *)

(** [sy_done] lists the operations that returned, in the order they did. *)
Record Sys := mkSys {
  sy_now : Z;
  sy_nodes : gmap bytes (Cluster S);
  sy_ops : list Op;
  sy_done : list nat
}.

Definition with_node (p : bytes) c (s : Sys) : Sys :=
  mkSys (sy_now s) (<[p := c]> (sy_nodes s)) (sy_ops s) (sy_done s).
Definition with_op (id : nat) (o : Op) (s : Sys) : Sys :=
  mkSys (sy_now s) (sy_nodes s) (<[id := o]> (sy_ops s)) (sy_done s).
Definition with_done (id : nat) (st : OpStatus) (s : Sys) : Sys :=
  match st with
  | ReadDone _ | WriteDone _ => mkSys (sy_now s) (sy_nodes s) (sy_ops s) (sy_done s ++ [id])
  | _ => s
  end.

Definition set_query (r : ReadCall) (st : OpStatus) (o : Op) : Op :=
  mkOp (op_kind o) (op_node o) (op_floor o) r (op_replies o) (op_value o) (op_write o) (op_acks o) st.
Definition add_reply (i : nat) (reply : RespValue) (o : Op) : Op :=
  mkOp (op_kind o) (op_node o) (op_floor o) (op_query o) (op_replies o ++ [(i, reply)]) (op_value o) (op_write o)
    (op_acks o) (op_status o).
Definition set_decided (v : option VersionedValue) (w : option WriteCall) (st : OpStatus) (o : Op) : Op :=
  mkOp (op_kind o) (op_node o) (op_floor o) (op_query o) (op_replies o) v w (op_acks o) st.
Definition set_write (w : WriteCall) (st : OpStatus) (o : Op) : Op :=
  mkOp (op_kind o) (op_node o) (op_floor o) (op_query o) (op_replies o) (op_value o) (Some w) (op_acks o) st.
Definition add_ack (node : CacheNode) (reply : RespValue) (o : Op) : Op :=
  mkOp (op_kind o) (op_node o) (op_floor o) (op_query o) (op_replies o) (op_value o) (op_write o)
    (op_acks o ++ [(node, reply)]) (op_status o).
Definition set_status (st : OpStatus) (o : Op) : Op :=
  mkOp (op_kind o) (op_node o) (op_floor o) (op_query o) (op_replies o) (op_value o) (op_write o) (op_acks o) st.

(** The stamp an operation settled on. *)
Definition op_stamp (o : Op) : option Stamp := stamp_of_vv <$> op_value o.

(** Some write has issued the stamp. *)
Definition issuedb (st : Stamp) (s : Sys) : bool :=
  existsb (fun o => is_write (op_kind o) && bool_decide (op_stamp o = Some st)) (sy_ops s).

(** What a callback is given: a reply on its way, or an error. *)
Inductive Delivery := DReply (n : nat) | DError (st : RequestStatus) (msg : bytes).

Definition delivered {A} `{EqDecision A} (x : A) (sent : list (A * RespValue)) (d : Delivery)
    : option (RequestResult RespValue) :=
  match d with
  | DReply n => '(y, reply) ← sent !! n; if decide (y = x) then Some (rr_success reply) else None
  | DError ROk _ => None
  | DError st msg => Some (rr_error st msg)
  end.

Inductive Action :=
  | AInvoke (p : bytes) (kind : OpKind)
  | AQuery (id : nat)
  | AServeGet (id i : nat)
  | AGot (id i : nat) (d : Delivery)
  | ADecide (id : nat) (ms : Z)
  | AWrite (id : nat)
  | AServeSet (id : nat) (node : CacheNode)
  | AAck (id : nat) (node : CacheNode) (d : Delivery)
  | AFinish (id : nat)
  | ASpread (p : bytes) (v : VersionedValue)
  | AOther (p : bytes) (cache : S) (clock : Z) (hints : gmap bytes (list Hint))
  | ATick (now : Z).

Definition sys_step (a : Action) (s : Sys) : option Sys :=
  let now := sy_now s in
  match a with
  | AInvoke p kind =>
      c ← sy_nodes s !! p;
      local ← can_serve_locally key (is_write kind) c;
      if (local : bool) then None
      else
        targets ← Cluster_preference_list key (cl_mem c);
        let r := new_query key targets (read_needed c (length targets)) in
        Some (mkSys now (sy_nodes s)
                (sy_ops s ++ [mkOp kind p (length (sy_done s)) r [] None None [] (Querying 0)]) (sy_done s))
  | AQuery id =>
      o ← sy_ops s !! id;
      c ← sy_nodes s !! op_node o;
      match op_status o with
      | Querying i =>
          node ← rc_targets (op_query o) !! i;
          '(c', r) ← collect_target now i node (op_query o) c;
          Some (with_op id (set_query r (Querying (i + 1)) o) (with_node (op_node o) c' s))
      | _ => None
      end
  | AServeGet id i =>
      o ← sy_ops s !! id;
      node ← rc_targets (op_query o) !! i;
      if negb (bool_decide (i ∈ rc_pending (op_query o))) then None
      else
        c ← sy_nodes s !! cn_id node;
        '(c', v) ← Cluster_replica_read now key c;
        Some (with_op id (add_reply i (encode_replica_get v) o) (with_node (cn_id node) c' s))
  | AGot id i d =>
      o ← sy_ops s !! id;
      res ← delivered i (op_replies o) d;
      if bool_decide (i ∈ rc_pending (op_query o))
      then Some (with_op id (set_query (collect_reply i res (op_query o)) (op_status o) o) s)
      else None
  | ADecide id ms =>
      o ← sy_ops s !! id;
      c ← sy_nodes s !! op_node o;
      match op_status o with
      | Querying i =>
          if negb (i =? length (rc_targets (op_query o)))%nat then None
          else
            '(c', st, v, w) ← (if is_write (op_kind o) then decide_write ms (op_kind o) (op_query o) c
                               else decide_read now (op_query o) c);
            Some (with_done id st (with_op id (set_decided v w st o) (with_node (op_node o) c' s)))
      | _ => None
      end
  | AWrite id =>
      o ← sy_ops s !! id;
      c ← sy_nodes s !! op_node o;
      w ← op_write o;
      match op_status o with
      | Writing (node :: todo) =>
          '(c', w') ← replicate_target now node w c;
          Some (with_op id (set_write w' (Writing todo) o) (with_node (op_node o) c' s))
      | _ => None
      end
  | AServeSet id node =>
      o ← sy_ops s !! id;
      w ← op_write o;
      if negb (bool_decide (node ∈ wc_pending w)) then None
      else
        c ← sy_nodes s !! cn_id node;
        '(c', live) ← Cluster_apply_replica_write now key (received (wc_value w)) c;
        Some (with_op id (add_ack node (RespInteger (if (live : bool) then 1 else 0)) o) (with_node (cn_id node) c' s))
  | AAck id node d =>
      o ← sy_ops s !! id;
      res ← delivered node (op_acks o) d;
      c ← sy_nodes s !! op_node o;
      w ← op_write o;
      if bool_decide (node ∈ wc_pending w) then
        '(c', w') ← replicate_reply now node res w c;
        Some (with_op id (set_write w' (op_status o) o) (with_node (op_node o) c' s))
      else None
  | AFinish id =>
      o ← sy_ops s !! id;
      c ← sy_nodes s !! op_node o;
      w ← op_write o;
      match op_status o with
      | Writing [] =>
          let '(c', st) := finish_write (op_kind o) w c in
          Some (with_done id st (with_op id (set_status st o) (with_node (op_node o) c' s)))
      | _ => None
      end
  | ASpread p v =>
      c ← sy_nodes s !! p;
      if issuedb (stamp_of_vv v) s then
        '(c', _) ← Cluster_apply_replica_write now key v c;
        Some (with_node p c' s)
      else None
  | AOther p cache clock hints =>
      c ← sy_nodes s !! p;
      Some (with_node p (set_hints hints (set_clock clock (set_cache cache c))) s)
  | ATick t => Some (mkSys t (sy_nodes s) (sy_ops s) (sy_done s))
  end.

(** ** What is asked of a run *)

(** What a node holds for the key. *)
Definition view (s : Sys) (p : bytes) : option Stamp :=
  c ← sy_nodes s !! p; vs_view (sy_now s) key (cl_cache c).

(** No replica loses the key, by eviction, expiry or a restart. *)
Definition keeps (T : list CacheNode) (s s' : Sys) : Prop :=
  forall node, node ∈ T -> ostamp_le (view s (cn_id node)) (view s' (cn_id node)).

(** No clock is at the end of its range, and no copy is in the last millisecond
    of its TTL. *)
Definition in_range (s : Sys) : Prop :=
  forall p c, sy_nodes s !! p = Some c -> 0 <= cl_clock c < 2 ^ 64 - 1.
Definition lasting (s : Sys) : Prop :=
  forall p c cache v, sy_nodes s !! p = Some c ->
    vs_get_versioned (sy_now s) key (cl_cache c) = Some (cache, Some v) -> ttl_positive v.

(** TTLs are positive, time advances, and work on other keys keeps the node in
    order and this key as it is. *)
Definition step_ok (a : Action) (s : Sys) : Prop :=
  match a with
  | AInvoke _ kind => ttl_positive (write_value kind 0)
  | ASpread _ v => ttl_positive v
  | AOther p cache clock hints =>
      forall c, sy_nodes s !! p = Some c ->
        cluster_wf (set_hints hints (set_cache cache c)) /\
        (vs_view (sy_now s) key cache = vs_view (sy_now s) key (cl_cache c) \/ vs_view (sy_now s) key cache = None)
  | ATick t => sy_now s <= t
  | _ => True
  end.

(** A node of the cluster: it routes the key to [T] and is configured for
    linearizable reads and writes with quorums of [R] and [W]. *)
Record member (T : list CacheNode) (R W : nat) (p : bytes) c : Prop := {
  mb_wf : cluster_wf c;
  mb_id : local_id (cl_mem c) = p;
  mb_targets : Cluster_preference_list key (cl_mem c) = Some T;
  mb_mode : consistency (cl_config c) = Linearizable;
  mb_read : read_needed c (length T) = R;
  mb_write : write_needed c (length T) = W
}.

(** A cluster that has not seen the key yet. *)
Record fresh_system (T : list CacheNode) (R W : nat) (s : Sys) : Prop := {
  fs_members : forall p c, sy_nodes s !! p = Some c -> member T R W p c /\ vs_view (sy_now s) key (cl_cache c) = None;
  fs_range : in_range s;
  fs_ops : sy_ops s = [];
  fs_done : sy_done s = []
}.

Inductive reachable (T : list CacheNode) (s0 : Sys) : Sys -> Prop :=
  | reach_start : reachable T s0 s0
  | reach_step a s s' :
      reachable T s0 s -> sys_step a s = Some s' -> step_ok a s ->
      keeps T s s' -> in_range s' -> lasting s' -> reachable T s0 s'.

End register.

(** ** The phases make up the operations of Cluster.v *)

Section phases.
Context {S : Type} `{VersionedStoreLaws S}.
Implicit Types c : Cluster S.

Lemma collect_target_setup now i node r c c' r' :
  collect_target now i node r c = Some (c', r') ->
  cl_config c' = cl_config c /\ cl_mem c' = cl_mem c /\ rc_targets r' = rc_targets r.
Proof.
  unfold collect_target. destruct (bytes_eqb _ _).
  - destruct (vs_get_versioned _ _ _) as [[cache v]|]; [|done]. cbn [mbind option_bind]. by intros [= <- <-].
  - destruct (negb _); by intros [= <- <-].
Qed.

Lemma collect_loop_setup clk i nodes r c c' r' :
  collect_loop clk i nodes r c = Some (c', r') ->
  cl_config c' = cl_config c /\ cl_mem c' = cl_mem c /\ rc_targets r' = rc_targets r.
Proof.
  revert i r c. induction nodes as [|node nodes IH]; intros i r c E; cbn [collect_loop] in E; [by injection E as <- <-|].
  destruct (collect_target _ _ _ _ _) as [[c1 r1]|] eqn:E1 in E; [|done]. cbn [mbind option_bind] in E.
  apply IH in E as (-> & -> & ->). by apply collect_target_setup in E1.
Qed.

Lemma collect_replies_targets arr r r' : collect_replies arr r = Some r' -> rc_targets r' = rc_targets r.
Proof.
  revert r. induction arr as [|[i res] arr IH]; intros r E; cbn [collect_replies] in E; [by injection E as <-|].
  case_decide; [|done]. rewrite (IH _ E). unfold collect_reply, record_read. cbv zeta. repeat case_match; done.
Qed.

(** The second half of an operation: the loop of [replicate], its replies, and
    the code after the wait. *)
Definition run_write (env : WriteEnv) (kind : OpKind) (todo : list CacheNode) (w : WriteCall) c
    : option (Cluster S * OpStatus * WriteCall) :=
  '(c1, w1) ← replicate_loop (we_clk env) 0 todo w c;
  '(c2, w2) ← replicate_replies (we_arrivals env) w1 c1;
  let '(c3, st) := finish_write kind w2 c2 in Some (c3, st, w2).

(** The whole of an operation on [targets], without interference. *)
Definition run_op (key : bytes) (kind : OpKind) (ms now : Z) (renv : ReadEnv) (wenv : WriteEnv) (targets : list CacheNode) c
    : option (Cluster S * OpStatus * option WriteCall) :=
  '(c1, r1) ← collect_loop (re_clk renv) 0 targets (new_query key targets (read_needed c (length targets))) c;
  r2 ← collect_replies (re_arrivals renv) r1;
  '(c2, st, _, w) ← (if is_write kind then decide_write key ms kind r2 c1 else decide_read key now r2 c1);
  match st, w with
  | Writing todo, Some w0 => '(c3, st', w') ← run_write wenv kind todo w0 c2; Some (c3, st', Some w')
  | _, _ => Some (c2, st, None)
  end.

Definition read_of (st : OpStatus) : ReadResult := match st with ReadDone r => r | _ => read_unavailable end.

Lemma replicate_phases env key v c targets :
  can_serve_locally key true c = Some false -> Cluster_preference_list key (cl_mem c) = Some targets -> targets <> [] ->
  Cluster_replicate env key v c =
  ('(c1, w1) ← replicate_loop (we_clk env) 0 targets (new_write key v targets (write_needed c (length targets))) c;
   '(c2, w2) ← replicate_replies (we_arrivals env) w1 c1;
   let '(c3, r) := replicate_finish w2 c2 in Some (c3, r, Some w2)).
Proof.
  intros Hl Ht Hne. unfold Cluster_replicate. rewrite Hl, Ht. cbn [mbind option_bind]. by destruct targets.
Qed.

Lemma replicate_loop_value clk i nodes w c c' w' :
  replicate_loop clk i nodes w c = Some (c', w') -> wc_value w' = wc_value w.
Proof.
  revert i w c. induction nodes as [|node nodes IH]; intros i w c E; cbn [replicate_loop] in E; [by injection E as <- <-|].
  destruct (replicate_target _ _ _ _) as [[c1 w1]|] eqn:E1 in E; [|done]. cbn [mbind option_bind] in E.
  rewrite (IH _ _ _ E). unfold replicate_target in E1. destruct (bytes_eqb _ _).
  - destruct (vs_apply _ _ _ _) as [[[s ch] live]|]; [|done]. cbn [mbind option_bind] in E1. by injection E1 as <- <-.
  - destruct (negb _); [|by injection E1 as <- <-]. destruct (add_hint _ _ _ _ _); [|done]. cbn [mbind option_bind] in E1.
    by injection E1 as <- <-.
Qed.

Lemma replicate_replies_value arr w c c' w' :
  replicate_replies arr w c = Some (c', w') -> wc_value w' = wc_value w.
Proof.
  revert w c. induction arr as [|[[now node] res] arr IH]; intros w c E; cbn [replicate_replies] in E; [by injection E as <- <-|].
  destruct (decide (node ∈ wc_pending w)); [|done]. destruct (replicate_reply _ _ _ _ _) as [[c1 w1]|] eqn:E1 in E; [|done]. cbn [mbind option_bind] in E.
  rewrite (IH _ _ E). unfold replicate_reply in E1. cbv zeta in E1.
  destruct (if rr_is_ok res then _ else _) as [ok live] in E1. destruct ok; [by injection E1 as <- <-|]. destruct (add_hint _ _ _ _ _); [|done]. cbn [mbind option_bind] in E1. by injection E1 as <- <-.
Qed.

Lemma read_phases env key c targets :
  can_serve_locally key false c = Some false -> can_serve_locally key true c = Some false ->
  Cluster_preference_list key (cl_mem c) = Some targets -> targets <> [] ->
  Cluster_read env key c =
  ('(c', st, w) ← run_op key ORead 0 (fr_repair_now env) (fr_collect env) (fr_writeback env) targets c;
   Some (c', read_of st, w)).
Proof.
  intros Hf Ht Hp Hne. unfold Cluster_read, run_op, Cluster_collect. rewrite Hf, Hp. cbn [mbind option_bind].
  destruct targets as [|t0 ts] eqn:Et; [done|]. rewrite <-Et in *. clear Et t0 ts.
  change (mkReadCall key targets (read_needed c (length targets)) 0 0 (replicate (length targets) None)
    (replicate (length targets) false) []) with (new_query key targets (read_needed c (length targets))).
  destruct (collect_loop _ _ _ _ _) as [[c1 r1]|] eqn:E1; [|done]. cbn [mbind option_bind].
  destruct (collect_replies _ r1) as [r2|] eqn:E2; [|done]. cbn [mbind option_bind is_write].
  apply collect_loop_setup in E1 as (C1 & M1 & T1). apply collect_replies_targets in E2. rewrite T1 in E2. cbn in E2.
  replace (mkReplies (rc_needed r2 <=? rc_replies r2)%nat targets (rc_values r2) (rc_replied r2)) with (query_result r2)
    by (unfold query_result; by rewrite E2).
  unfold decide_read, read_decide.
  destruct (qr_ok (query_result r2)); cbn [negb]; [|done]. destruct (pick_winner (query_result r2)) as [u|]; [|done]. cbv zeta.
  set (c2 := set_counters _ (set_clock _ c1)).
  assert (Hc2 : cl_config c2 = cl_config c /\ cl_mem c2 = cl_mem c) by done. clearbody c2. destruct Hc2 as [C2 M2].
  destruct (_ && _).
  - rewrite (replicate_phases (fr_writeback env) key u c2 targets); [|by rewrite (can_serve_setup _ _ c)|by rewrite M2|done].
    rewrite M2, Hp. cbn [mbind option_bind]. unfold run_write.
    destruct (replicate_loop _ _ _ _ _) as [[c3 w1]|] eqn:E3; [|done]. cbn [mbind option_bind].
    destruct (replicate_replies _ _ _) as [[c4 w2]|] eqn:E4; [|done]. cbn [mbind option_bind].
    apply replicate_loop_value in E3. apply replicate_replies_value in E4. rewrite E3 in E4. cbn in E4.
    unfold finish_write. destruct (replicate_finish w2 c4) as [c5 r] eqn:E5. cbn [mbind option_bind]. destruct (wr_ok r); [|done].
    cbn. by rewrite E4.
  - destruct (read_repair _ _ _ _ _); done.
Qed.

(** [put] and [del]. *)
Definition write_op (env : FullWriteEnv) (key : bytes) (kind : OpKind) c : option (Cluster S * WriteResult * option WriteCall) :=
  match kind with
  | OPut value ttl => Cluster_put env key value ttl c
  | _ => Cluster_del env key c
  end.

Definition write_of (st : OpStatus) (w : option WriteCall) : WriteResult :=
  match st, w with
  | WriteDone r, _ => r
  | _, Some w => mkWR false (wc_existed w) (wc_acks w)
  | _, None => write_failed
  end.

Lemma write_phases env key kind c targets :
  consistency (cl_config c) = Linearizable -> is_write kind = true -> can_serve_locally key true c = Some false ->
  Cluster_preference_list key (cl_mem c) = Some targets -> targets <> [] ->
  write_op env key kind c =
  ('(c', st, w) ← run_op key kind (fw_ms env) 0 (fw_query env) (fw_write env) targets c;
   Some (c', write_of st w, w)).
Proof.
  intros Hlin Hk Hl Hp Hne.
  assert (E : write_op env key kind c =
    ('(c1, version) ← next_version (fw_query env) (fw_ms env) key c;
     match version with
     | None => Some (c1, write_failed, None)
     | Some t => Cluster_replicate (fw_write env) key (write_value kind t) c1
     end)) by (by destruct kind).
  rewrite E. clear E. unfold next_version, run_op, Cluster_collect. rewrite bool_decide_eq_true_2, Hl, Hp by done.
  cbn [mbind option_bind negb]. destruct targets as [|t0 ts] eqn:Et; [done|]. rewrite <-Et in *. clear Et t0 ts.
  change (mkReadCall key targets (read_needed c (length targets)) 0 0 (replicate (length targets) None)
    (replicate (length targets) false) []) with (new_query key targets (read_needed c (length targets))).
  destruct (collect_loop _ _ _ _ _) as [[c1 r1]|] eqn:E1; [|done]. cbn [mbind option_bind].
  destruct (collect_replies _ r1) as [r2|] eqn:E2; [|done]. cbn [mbind option_bind]. rewrite Hk.
  apply collect_loop_setup in E1 as (C1 & M1 & T1). apply collect_replies_targets in E2. rewrite T1 in E2. cbn in E2.
  replace (mkReplies (rc_needed r2 <=? rc_replies r2)%nat targets (rc_values r2) (rc_replied r2)) with (query_result r2)
    by (unfold query_result; by rewrite E2).
  unfold decide_write. destruct (qr_ok (query_result r2)); cbn [negb]; [|done].
  destruct (clock_now _ _) as [c2 t] eqn:En. assert (Hc2 : cl_config c2 = cl_config c /\ cl_mem c2 = cl_mem c).
  { unfold clock_now in En. by injection En as <- _. }
  clear En. destruct Hc2 as [C2 M2]. cbn [mbind option_bind].
  rewrite (replicate_phases (fw_write env) key (write_value kind t) c2 targets);
    [|by rewrite (can_serve_setup _ _ c)|by rewrite M2|done].
  rewrite M2, Hp. cbn [mbind option_bind]. unfold run_write.
  destruct (replicate_loop _ _ _ _ _) as [[c3 w1]|]; [|done]. cbn [mbind option_bind].
  destruct (replicate_replies _ _ _) as [[c4 w2]|]; [|done]. cbn [mbind option_bind].
  unfold finish_write, replicate_finish. cbv zeta. cbn [mbind option_bind wr_ok].
  rewrite Hk. by destruct (wc_needed w2 <=? wc_acks w2)%nat.
Qed.

End phases.
