(* ===== verification/RegisterInv.v ===== *)
(** * The invariant of the register

    What holds in every state of Register.v: a replica holds only stamps some
    write issued; the answers an operation collected are at least what the
    replicas held when it was invoked, and at most what they hold now; an
    operation that returned is held by a write quorum; and every operation
    settles on a stamp above those of the operations that had returned before it
    was invoked. *)

From S2P Require Import Prelude Numerals CacheEntry Cache CacheSpec CacheRefine CacheProps VersionedStore HybridClock ConsistentHash RoutingTable HealthChecker Membership Resp Parser ReplicaWire Cluster ClusterLemmas Register.

Local Open Scope Z_scope.

Definition ostamp_lt (a b : option Stamp) : Prop := ostamp_le a b /\ a <> b.

Lemma version_lt (a b : Stamp) : st_version a < st_version b -> ostamp_lt (Some a) (Some b).
Proof.
  intros Hlt. assert (E : stamp_gtb b a = true) by (apply stamp_gtb_cases; by left). split.
  - unfold ostamp_le, ostamp_max, stamp_max. by rewrite E.
  - intros [= ->]. lia.
Qed.

Lemma in_take {A} (n : nat) (l : list A) x : x ∈ take n l -> x ∈ l.
Proof. intros Hx. rewrite <-(take_drop n l). by apply elem_of_app; left. Qed.

#[local] Set Default Proof Using "All".

Section inv.
Context {S : Type} `{VersionedStoreLaws S}.
Variables (key : bytes) (T : list CacheNode) (R W : nat).
Hypothesis T_nodup : NoDup (cn_id <$> T).
Hypothesis quorums_meet : (length T < R + W)%nat.
Hypothesis W_fits : (W <= length T)%nat.
Implicit Types (c : Cluster S) (s : Sys (S := S)) (o : Op).

Notation view := (view key).
Notation sys_step := (sys_step key).

(** ** The invariant *)

Definition issued s (st : Stamp) : Prop :=
  exists id o, sy_ops s !! id = Some o /\ is_write (op_kind o) = true /\ op_stamp o = Some st.

(** A write quorum of targets at or above [st]. *)
Definition held_in (f : bytes -> option Stamp) (st : option Stamp) : Prop :=
  exists A, NoDup (cn_id <$> A) /\ (W <= length A)%nat /\ forall n, n ∈ A -> n ∈ T /\ ostamp_le st (f (cn_id n)).

(** An answer [x] of target [i] to an operation that found [base] when it was
    invoked. *)
Definition good s (base : bytes -> option Stamp) (i : nat) (x : option VersionedValue) : Prop :=
  exists node, T !! i = Some node /\ ostamp_le (base (cn_id node)) (stamp_of_vv <$> x) /\
    ostamp_le (stamp_of_vv <$> x) (view s (cn_id node)) /\
    forall v, x = Some v -> issued s (stamp_of_vv v) /\ ttl_positive v.

Record query_ok s (base : bytes -> option Stamp) o : Prop := {
  qo_key : rc_key (op_query o) = key;
  qo_targets : rc_targets (op_query o) = T;
  qo_needed : rc_needed (op_query o) = R;
  qo_values : length (rc_values (op_query o)) = length T;
  qo_replied : length (rc_replied (op_query o)) = length T;
  qo_count : rc_replies (op_query o) = count_true (rc_replied (op_query o));
  qo_answers : forall i x, rc_replied (op_query o) !! i = Some true -> rc_values (op_query o) !! i = Some x ->
    good s base i x;
  qo_sent : forall i reply, (i, reply) ∈ op_replies o -> exists x, reply_value (rr_success reply) = Some x /\ good s base i x;
  qo_pending : forall i, i ∈ rc_pending (op_query o) -> rc_replied (op_query o) !! i = Some false;
  qo_loop : forall k, op_status o = Querying k ->
    (forall i, (k <= i < length T)%nat -> rc_replied (op_query o) !! i = Some false) /\
    forall i, i ∈ rc_pending (op_query o) -> (i < k)%nat
}.

Definition todo_of (st : OpStatus) : list CacheNode := match st with Writing l => l | _ => [] end.

(** The write [w] of [v]: every target has acknowledged and holds it, or has a
    hint, or is to answer, or is still to be called. *)
Record write_ok s o (w : WriteCall) (v : VersionedValue) : Prop := {
  wo_key : wc_key w = key;
  wo_value : wc_value w = v;
  wo_needed : wc_needed w = W;
  wo_split : exists A Hd, T ≡ₚ A ++ Hd ++ wc_pending w ++ todo_of (op_status o) /\ length A = wc_acks w /\
    forall n, n ∈ A -> ostamp_le (Some (stamp_of_vv v)) (view s (cn_id n));
  wo_sent : forall n reply, (n, reply) ∈ op_acks o -> n ∈ T /\ ostamp_le (Some (stamp_of_vv v)) (view s (cn_id n))
}.

Lemma write_ok_same s o o' w v :
  todo_of (op_status o') = todo_of (op_status o) -> op_acks o' = op_acks o -> write_ok s o w v -> write_ok s o' w v.
Proof using Type. intros E1 E2 []. split; rewrite ?E1, ?E2; done. Qed.

Definition is_returned (st : OpStatus) : bool := match st with ReadDone _ | WriteDone _ => true | _ => false end.

(** The operation has settled on a stamp. *)
Definition settled o : bool := bool_decide (is_Some (op_value o)) || is_returned (op_status o).

Definition stamp_at s (d : nat) : option Stamp := sy_ops s !! d ≫= op_stamp.

(** The stamp is above that of everything that had returned before. *)
Definition above s o : Prop :=
  forall d, d ∈ take (op_floor o) (sy_done s) ->
    if is_write (op_kind o) then ostamp_lt (stamp_at s d) (op_stamp o) else ostamp_le (stamp_at s d) (op_stamp o).

Definition value_ok s o (v : VersionedValue) : Prop :=
  0 <= vv_version v < 2 ^ 64 - 1 /\ ttl_positive v /\ (vv_tombstone v = true -> vv_value v = []) /\
  if is_write (op_kind o) then v = write_value (op_kind o) (vv_version v) else issued s (stamp_of_vv v).

Definition status_ok s o : Prop :=
  match op_status o with
  | Querying k => op_value o = None /\ op_write o = None /\ op_acks o = []
  | Writing _ => is_Some (op_write o)
  | ReadDone r => is_write (op_kind o) = false /\ r = to_result (op_value o) /\ held_in (view s) (op_stamp o)
  | WriteDone _ => is_write (op_kind o) = true /\ is_Some (op_value o) /\ held_in (view s) (op_stamp o)
  | Failed => True
  end.

Record op_inv s (base : bytes -> option Stamp) o : Prop := {
  oi_base : forall node, node ∈ T -> ostamp_le (base (cn_id node)) (view s (cn_id node));
  oi_floor : (op_floor o <= length (sy_done s))%nat;
  oi_past : forall d, d ∈ take (op_floor o) (sy_done s) -> held_in base (stamp_at s d);
  oi_ttl : ttl_positive (write_value (op_kind o) 0);
  oi_query : query_ok s base o;
  oi_value : forall v, op_value o = Some v -> value_ok s o v;
  oi_above : settled o = true -> above s o;
  oi_write : forall w, op_write o = Some w -> exists v, op_value o = Some v /\ write_ok s o w v;
  oi_status : status_ok s o
}.

Definition node_ok s (p : bytes) c : Prop :=
  member key T R W p c /\ forall st, vs_view (sy_now s) key (cl_cache c) = Some st -> issued s st.

Record sys_inv s : Prop := {
  si_nodes : forall p c, sy_nodes s !! p = Some c -> node_ok s p c;
  si_range : in_range s;
  si_lasting : lasting key s;
  si_ops : forall id o, sy_ops s !! id = Some o -> exists base, op_inv s base o;
  si_order : forall id o d, sy_ops s !! id = Some o -> d ∈ take (op_floor o) (sy_done s) -> (d < id)%nat;
  si_nodup : NoDup (sy_done s);
  si_done : forall id, id ∈ sy_done s <-> exists o, sy_ops s !! id = Some o /\ is_returned (op_status o) = true
}.

(** ** Steps only add *)

Record grows s s' : Prop := {
  gr_view : forall node, node ∈ T -> ostamp_le (view s (cn_id node)) (view s' (cn_id node));
  gr_issued : forall st, issued s st -> issued s' st;
  gr_done : sy_done s `prefix_of` sy_done s';
  gr_stamp : forall d, d ∈ sy_done s -> stamp_at s' d = stamp_at s d
}.

Lemma held_grows s s' st : grows s s' -> held_in (view s) st -> held_in (view s') st.
Proof.
  intros G (A & H1 & H2 & H3). exists A. split; [done|]. split; [done|]. intros n Hn. destruct (H3 n Hn) as [Ht Hv].
  split; [done|]. etrans; [done|]. by apply G.
Qed.

Lemma good_grows s s' base i x : grows s s' -> good s base i x -> good s' base i x.
Proof.
  intros G (node & H1 & H2 & H3 & H4). exists node. split_and!; try done.
  - etrans; [done|]. apply G. by eapply list_elem_of_lookup_2.
  - intros v Hv. destruct (H4 v Hv). split; [by apply G|done].
Qed.

Lemma take_grows s s' n : grows s s' -> (n <= length (sy_done s))%nat -> take n (sy_done s') = take n (sy_done s).
Proof. intros [_ _ [l ->] _] Hn. by rewrite take_app_le. Qed.

Lemma above_grows s s' o : grows s s' -> (op_floor o <= length (sy_done s))%nat -> above s o -> above s' o.
Proof.
  intros G Hf Ha d Hd. rewrite (take_grows s s') in Hd by done. rewrite (gr_stamp _ _ G) by (by eapply in_take).
  by apply Ha.
Qed.

Lemma op_inv_grows s s' base o : grows s s' -> op_inv s base o -> op_inv s' base o.
Proof.
  intros G I. destruct I as [Ib If Ip It Iq Iv Ia Iw Is]. split.
  - intros node Hn. etrans; [by apply Ib|by apply G].
  - etrans; [done|]. by apply prefix_length, G.
  - intros d Hd. rewrite (take_grows s s') in Hd by done. rewrite (gr_stamp _ _ G); [by apply Ip|by eapply in_take].
  - done.
  - destruct Iq. split; try done.
    + intros i x H1 H2. eapply good_grows; eauto.
    + intros i reply Hr. destruct (qo_sent0 i reply Hr) as (x & Hx & Hg). exists x. split; [done|]. by eapply good_grows.
  - intros v Hv. destruct (Iv v Hv) as (V1 & V2 & V3 & V4). split; [done|]. split; [done|]. split; [done|].
    revert V4. destruct (is_write (op_kind o)); [done|apply G].
  - intros Hs. eapply above_grows; eauto.
  - intros w Hw. destruct (Iw w Hw) as (v & Hv & Ho). exists v. split; [done|].
    destruct Ho as [W1 W2 W3 (A & Hd & P1 & P2 & P3) W5]. split; try done.
    + exists A, Hd. split; [done|]. split; [done|]. intros n Hn. etrans; [by apply P3|]. apply G. rewrite P1. set_solver.
    + intros n reply Hr. destruct (W5 n reply Hr) as [Ht Hv']. split; [done|]. etrans; [done|]. by apply G.
  - unfold status_ok in *. destruct (op_status o); try done.
    + destruct Is as (? & ? & Hh). split_and!; try done. by eapply held_grows.
    + destruct Is as (? & ? & Hh). split_and!; try done. by eapply held_grows.
Qed.
(** ** From one state to the next *)

(** What becomes of an operation. *)
Record extends o o' : Prop := {
  ex_kind : op_kind o' = op_kind o;
  ex_floor : op_floor o' = op_floor o;
  ex_stamp : settled o = true -> op_stamp o' = op_stamp o;
  ex_returned : is_returned (op_status o) = true -> is_returned (op_status o') = true
}.

Lemma extends_refl o : extends o o.
Proof using Type. done. Qed.

Lemma settled_value o : is_Some (op_value o) -> settled o = true.
Proof using Type. intros E. unfold settled. by rewrite bool_decide_eq_true_2. Qed.

Lemma settled_returned o : is_returned (op_status o) = true -> settled o = true.
Proof using Type. intros E. unfold settled. rewrite E. apply orb_true_r. Qed.

Lemma extends_issued s s' st :
  (forall id o, sy_ops s !! id = Some o -> exists o', sy_ops s' !! id = Some o' /\ extends o o') ->
  issued s st -> issued s' st.
Proof using Type.
  intros Hx (id & o & Ho & Hk & Hs). destruct (Hx id o Ho) as (o' & Ho' & [K1 _ K2 _]). exists id, o'.
  split; [done|]. rewrite K1. split; [done|]. rewrite K2; [done|]. apply settled_value.
  unfold op_stamp in Hs. by destruct (op_value o).
Qed.

(** What a step does to a node that is not told otherwise. *)
Definition node_step s s' (p : bytes) c c' : Prop :=
  (member key T R W p c -> member key T R W p c') /\
  forall st, vs_view (sy_now s') key (cl_cache c') = Some st ->
    vs_view (sy_now s) key (cl_cache c) = Some st \/ issued s' st.

Lemma inv_step s s' :
  sys_inv s -> keeps key T s s' -> in_range s' -> lasting key s' ->
  (forall p c', sy_nodes s' !! p = Some c' -> exists c, sy_nodes s !! p = Some c /\ node_step s s' p c c') ->
  (forall id o, sy_ops s !! id = Some o -> exists o', sy_ops s' !! id = Some o' /\ extends o o') ->
  (forall id o', sy_ops s' !! id = Some o' ->
     sy_ops s !! id = Some o' \/ (grows s s' -> exists base, op_inv s' base o')) ->
  (forall id o' d, sy_ops s' !! id = Some o' -> d ∈ take (op_floor o') (sy_done s') -> (d < id)%nat) ->
  sy_done s `prefix_of` sy_done s' -> NoDup (sy_done s') ->
  (forall id, id ∈ sy_done s' <-> exists o, sy_ops s' !! id = Some o /\ is_returned (op_status o) = true) ->
  sys_inv s'.
Proof.
  intros I Hk Hr Hl Hn Hx Ho Hf Hp Hd Hi.
  assert (G : grows s s').
  { split; [exact Hk| |exact Hp|].
    - intros st. by apply extends_issued.
    - intros d Hin. apply (si_done s I) in Hin as (o & Eo & Er). destruct (Hx d o Eo) as (o' & Eo' & [_ _ K _]).
      unfold stamp_at. rewrite Eo, Eo'. cbn [mbind option_bind]. by apply K, settled_returned. }
  split; try done.
  - intros p c' Hc'. destruct (Hn p c' Hc') as (c & Hc & M & V). destruct (si_nodes s I p c Hc) as [Mc Vc].
    split; [by apply M|]. intros st Hs. destruct (V st Hs) as [Hs'|Hs']; [by apply G, Vc|done].
  - intros id o' Eo'. destruct (Ho id o' Eo') as [Eo|K]; [|by apply K].
    destruct (si_ops s I id o' Eo) as [base Ib]. exists base. by eapply op_inv_grows.
Qed.

(** ** What the code does to a node *)

(** The node [c'] after work on [c] that joined [ov] into what it holds. *)
Record touched (now : Z) c c' (ov : option Stamp) : Prop := {
  to_wf : cluster_wf c';
  to_config : cl_config c' = cl_config c;
  to_mem : cl_mem c' = cl_mem c;
  to_view : vs_view now key (cl_cache c') = ostamp_max (vs_view now key (cl_cache c)) ov
}.

Lemma ostamp_max_none a : ostamp_max a None = a.
Proof using Type. by destruct a. Qed.

Lemma touched_refl now c : cluster_wf c -> touched now c c None.
Proof. intros Wc. split; try done. by rewrite ostamp_max_none. Qed.

Lemma touched_quiet now c c' :
  cluster_wf c' -> cl_config c' = cl_config c -> cl_mem c' = cl_mem c -> cl_cache c' = cl_cache c -> touched now c c' None.
Proof. intros Wc Hc Hm Hs. split; try done. by rewrite Hs, ostamp_max_none. Qed.

Lemma touched_trans now c1 c2 c3 ov : touched now c1 c2 None -> touched now c2 c3 ov -> touched now c1 c3 ov.
Proof.
  intros [_ A1 A2 A3] [B0 B1 B2 B3]. split; [done|congruence|congruence|]. by rewrite B3, A3, ostamp_max_none.
Qed.

Lemma touched_member now p c c' ov : touched now c c' ov -> member key T R W p c -> member key T R W p c'.
Proof.
  intros [Wc Ec Em _] [M1 M2 M3 M4 M5 M6]. split; unfold read_needed, write_needed in *; rewrite ?Ec, ?Em; done.
Qed.

Lemma touched_step s s' p c c' ov :
  sy_now s' = sy_now s -> touched (sy_now s) c c' ov -> (forall st, ov = Some st -> issued s' st) -> node_step s s' p c c'.
Proof.
  intros En Ht Hi. split; [by eapply touched_member|]. intros st. rewrite En, (to_view _ _ _ _ Ht).
  destruct (vs_view (sy_now s) key (cl_cache c)) as [a|], ov as [b|]; cbn; try by auto.
  unfold ostamp_max, stamp_max. case_match; intros [= <-]; auto.
Qed.

Lemma apply_touched now v c cache ch live :
  cluster_wf c -> ttl_positive v -> vs_apply now key v (cl_cache c) = Some (cache, ch, live) ->
  touched now c (set_cache cache c) (Some (stamp_of_vv v)).
Proof.
  intros Wc Hv E. destruct (vs_apply_law now key v (cl_cache c) (cw_cache c Wc)) as (s1 & ch1 & l1 & E1 & W1 & V & _).
  rewrite E in E1. injection E1 as <- <- <-. split; try done; [by apply set_cache_wf|]. by apply V.
Qed.

Lemma get_touched now c cache v :
  cluster_wf c -> vs_get_versioned now key (cl_cache c) = Some (cache, v) ->
  touched now c (set_cache cache c) None /\ vs_view now key (cl_cache c) = stamp_of_vv <$> v.
Proof.
  intros Wc E. destruct (vs_get_law now key (cl_cache c) (cw_cache c Wc)) as (s1 & r1 & E1 & W1 & V).
  rewrite E in E1. injection E1 as <- <-. split; [|unfold vs_view; by rewrite E].
  split; try done; [by apply set_cache_wf|]. rewrite ostamp_max_none. apply V.
Qed.

Lemma replica_write_touched now v c c' live :
  cluster_wf c -> ttl_positive v -> Cluster_apply_replica_write now key v c = Some (c', live) ->
  touched now c c' (Some (stamp_of_vv v)).
Proof.
  intros Wc Hv. unfold Cluster_apply_replica_write.
  destruct (vs_apply now key v (cl_cache c)) as [[[cache ch] l]|] eqn:E; [|done]. cbn [mbind option_bind]. intros [= <- <-].
  destruct (apply_touched now v c cache ch l Wc Hv E) as [K1 K2 K3 K4]. split; try done.
  by apply set_cache_wf; [apply set_clock_wf|destruct K1].
Qed.

(** ** Queries *)

Lemma query_record s base o i x l st :
  query_ok s base o -> rc_replied (op_query o) !! i = Some false -> good s base i x ->
  (forall j, j ∈ l -> j ∈ rc_pending (op_query o) /\ j <> i) ->
  (forall k, st = Querying k ->
     (forall j, (k <= j < length T)%nat -> rc_replied (op_query o) !! j = Some false /\ j <> i) /\
     forall j, j ∈ l -> (j < k)%nat) ->
  query_ok s base (set_query (record_read i true x (set_read_pending l (op_query o))) st o).
Proof.
  intros [] Hi Hg Hl Hst. split; simpl; try done.
  - by rewrite length_insert.
  - by rewrite length_insert.
  - rewrite qo_count0. by rewrite count_true_insert.
  - intros j y H1 H2. destruct (decide (j = i)) as [->|Hne].
    + apply list_lookup_insert_Some in H2 as [(_ & <- & _)|[? _]]; done.
    + rewrite list_lookup_insert_ne in H1 by done. rewrite list_lookup_insert_ne in H2 by done. eauto.
  - intros j Hj. destruct (Hl j Hj). rewrite list_lookup_insert_ne by done. auto.
  - intros k Hk. destruct (Hst k Hk) as [H1 H2]. split; [|done]. intros j Hj. destruct (H1 j Hj).
    by rewrite list_lookup_insert_ne.
Qed.

Lemma query_skip s base o l st ok i :
  query_ok s base o -> (forall j, j ∈ l -> rc_replied (op_query o) !! j = Some false) ->
  (forall k, st = Querying k ->
     (forall j, (k <= j < length T)%nat -> rc_replied (op_query o) !! j = Some false) /\
     forall j, j ∈ l -> (j < k)%nat) ->
  query_ok s base (set_query ((if ok : bool then record_read i false None else id) (set_read_pending l (op_query o))) st o).
Proof. intros [] Hl Hst. destruct ok; by split. Qed.

Lemma query_grows s s' base o : grows s s' -> query_ok s base o -> query_ok s' base o.
Proof.
  intros G []. split; try done.
  - intros i x H1 H2. eapply good_grows; eauto.
  - intros i reply Hr. destruct (qo_sent0 i reply Hr) as (x & Hx & Hg). exists x. split; [done|]. by eapply good_grows.
Qed.

(** What a node reads from its own cache is a good answer. *)
Lemma local_good s s' base o i node c cache v :
  sys_inv s -> op_inv s base o -> grows s s' -> sy_nodes s !! cn_id node = Some c -> T !! i = Some node ->
  vs_get_versioned (sy_now s) key (cl_cache c) = Some (cache, v) -> good s' base i v.
Proof.
  intros I Io G Hc Hi E. destruct (si_nodes s I _ c Hc) as [M V].
  destruct (get_touched _ _ _ _ (mb_wf _ _ _ _ _ _ M) E) as [_ Ev].
  assert (Hin : node ∈ T) by (by eapply list_elem_of_lookup_2).
  assert (Es : view s (cn_id node) = stamp_of_vv <$> v) by (unfold Register.view; rewrite Hc; exact Ev).
  exists node. split; [done|]. rewrite <-Es. split; [by apply (oi_base _ _ _ Io)|]. split; [by apply G|].
  intros u ->. split; [by apply G, V|]. by eapply (si_lasting s I).
Qed.

(** A reply decodes to what the replica read. *)
Lemma encoded_good s base i v :
  good s base i v -> (forall u, v = Some u -> 0 <= vv_version u < 2 ^ 64) ->
  exists x, reply_value (rr_success (encode_replica_get v)) = Some x /\ good s base i x.
Proof.
  intros (node & Hi & H1 & H2 & H3) Hr. destruct v as [u|]; [|exists None; split; [done|]; by exists node].
  pose proof (decode_encode_get u (Hr u eq_refl)) as D.
  exists (Some (mkVV (vv_value u) (vv_version u) (vv_tombstone u) (Z.max 1 <$> vv_ttl u))).
  split; [unfold reply_value; change (rr_value (rr_success ?x)) with (Some x); cbn iota beta;
    change (rr_is_ok (rr_success ?x)) with true; cbv zeta; by rewrite D|].
  exists node. split; [done|]. split; [done|]. split; [done|]. intros w [= <-]. destruct (H3 u eq_refl) as [Hi' Ht].
  split; [done|]. intros ms. cbn. destruct (vv_ttl u) as [t|]; [|done]. intros [= <-]. lia.
Qed.

Lemma op_inv_query s base o r st :
  op_inv s base o -> query_ok s base (set_query r st o) ->
  (st = op_status o \/ exists k k', op_status o = Querying k /\ st = Querying k') -> op_inv s base (set_query r st o).
Proof.
  intros [Ib If Ip It Iq Iv Ia Iw Is] Hq Hst.
  assert (Es : is_returned st = is_returned (op_status o) /\ todo_of st = todo_of (op_status o)).
  { destruct Hst as [->|(k & k' & -> & ->)]; done. }
  destruct Es as [E1 E2]. split; try done.
  - intros Hs. apply Ia. unfold settled in *. by rewrite <-E1.
  - intros w Hw. destruct (Iw w Hw) as (v & Hv & [W1 W2 W3 W4 W5]). exists v. split; [done|]. split; try done.
    cbn [op_status set_query]. by rewrite E2.
  - destruct Hst as [->|(k & k' & Ek & ->)]; [exact Is|]. unfold status_ok in *. by rewrite Ek in Is.
Qed.

(** One iteration of the loop of [collect]. *)
Lemma collect_target_inv' s base o i node c c' r' :
  sys_inv s -> op_inv s base o -> op_status o = Querying i -> T !! i = Some node ->
  sy_nodes s !! op_node o = Some c -> collect_target (sy_now s) i node (op_query o) c = Some (c', r') ->
  touched (sy_now s) c c' None /\
  forall s', grows s s' -> op_inv s' base (set_query r' (Querying (i + 1)) o).
Proof.
  intros I Io Est Hi Hc E. destruct (si_nodes s I _ c Hc) as [M _]. pose proof (mb_wf _ _ _ _ _ _ M) as Wc.
  pose proof (oi_query _ _ _ Io) as Q. destruct (qo_loop _ _ _ Q i Est) as [L1 L2].
  assert (Hlt : (i < length T)%nat) by (by eapply lookup_lt_Some).
  assert (Fin : forall s' r, grows s s' -> query_ok s' base (set_query r (Querying (i + 1)) o) ->
    op_inv s' base (set_query r (Querying (i + 1)) o)).
  { intros s' r G Hq. eapply op_inv_query; [by eapply op_inv_grows|done|]. right. eauto. }
  unfold collect_target in E. rewrite (qo_key _ _ _ Q), (mb_id _ _ _ _ _ _ M) in E.
  destruct (bytes_eqb (cn_id node) (op_node o)) eqn:El.
  - apply bytes_eqb_eq in El.
    destruct (vs_get_versioned (sy_now s) key (cl_cache c)) as [[cache v]|] eqn:Eg; [|done].
    cbn [mbind option_bind] in E. injection E as <- <-. destruct (get_touched _ _ _ _ Wc Eg) as [Ht _].
    split; [done|]. intros s' G. apply Fin; [done|]. rewrite <-(set_read_pending_id (op_query o)).
    apply query_record; [by eapply query_grows|apply L1; lia| |intros j Hj; specialize (L2 j Hj); split; [done|lia]|].
    + eapply (local_good s s' base o i node c); try done. by rewrite El.
    + intros k [= <-]. split; [|intros j Hj; specialize (L2 j Hj); lia].
      intros j Hj. split; [apply L1; lia|lia].
  - destruct (Cluster_is_node_healthy (cn_id node) (cl_mem c)); cbn [negb] in E; injection E as <- <-.
    + split; [apply touched_quiet; try done; by apply peer_call_wf|]. intros s' G. apply Fin; [done|].
      apply (query_skip s' base o (rc_pending (op_query o) ++ [i]) (Querying (i + 1)) false 0); [by eapply query_grows| |].
      * intros j [Hj|Hj%list_elem_of_singleton]%elem_of_app; [by apply Q|subst; apply L1; lia].
      * intros k [= <-]. split; [intros j Hj; apply L1; lia|].
        intros j [Hj|Hj%list_elem_of_singleton]%elem_of_app; [specialize (L2 j Hj); lia|lia].
    + split; [by apply touched_refl|]. intros s' G. apply Fin; [done|]. rewrite <-(set_read_pending_id (op_query o)).
      apply (query_skip s' base o (rc_pending (op_query o)) (Querying (i + 1)) true i); [by eapply query_grows|apply Q|].
      intros k [= <-]. split; [intros j Hj; apply L1; lia|intros j Hj; specialize (L2 j Hj); lia].
Qed.

(** A callback of [collect]. *)
Lemma collect_reply_inv' s base o i d res :
  op_inv s base o -> i ∈ rc_pending (op_query o) -> delivered i (op_replies o) d = Some res ->
  op_inv s base (set_query (collect_reply i res (op_query o)) (op_status o) o).
Proof.
  intros Io Hi Hd. apply op_inv_query; [done| |by left]. pose proof (oi_query _ _ _ Io) as Q.
  set (l := List.filter (fun j => negb (j =? i)%nat) (rc_pending (op_query o))).
  assert (Hl : forall j, j ∈ l -> j ∈ rc_pending (op_query o) /\ j <> i).
  { intros j Hj. apply list_elem_of_In, List.filter_In in Hj as [Hj Hb]. bool_facts. split; [by apply list_elem_of_In|done]. }
  pose proof (qo_pending _ _ _ Q i Hi) as Hri.
  assert (Kr : forall x, reply_value res = Some x ->
    query_ok s base (set_query (record_read i true x (set_read_pending l (op_query o))) (op_status o) o)).
  { intros x Hx. apply query_record; try done.
    - unfold delivered in Hd. destruct d as [n|[] msg]; try (injection Hd as <-; discriminate Hx); [|discriminate Hd].
      destruct (op_replies o !! n) as [[y reply]|] eqn:En; [|done]. cbn [mbind option_bind] in Hd.
      case_decide; [|done]. injection Hd as <-. subst y. destruct (qo_sent _ _ _ Q i reply) as (x' & Hx' & Hg);
        [by eapply list_elem_of_lookup_2|]. congruence.
    - intros k Hk. destruct (qo_loop _ _ _ Q k Hk) as [L1 L2]. split; [|intros j Hj; apply L2, Hl, Hj].
      intros j Hj. split; [by apply L1|]. specialize (L2 i Hi). lia. }
  assert (Kn : query_ok s base (set_query (record_read i false None (set_read_pending l (op_query o))) (op_status o) o)).
  { apply (query_skip s base o l (op_status o) true i); [done|intros j Hj; apply Q, Hl, Hj|].
    intros k Hk. destruct (qo_loop _ _ _ Q k Hk) as [L1 L2]. split; [done|]. intros j Hj. apply L2, Hl, Hj. }
  unfold collect_reply. fold l. unfold reply_value in Kr. cbv zeta in *.
  destruct (rr_is_ok res), (rr_value res) as [v|]; try done.
  destruct (rr_is_ok (decode_replica_get v)); [by apply Kr|].
  destruct (rr_is_not_found (decode_replica_get v)); [by apply Kr|done].
Qed.

(** ** Writes *)

Lemma op_inv_write s base o v w st :
  op_inv s base o -> op_value o = Some v -> write_ok s (set_write w st o) w v ->
  (st = op_status o \/ exists l l', op_status o = Writing l /\ st = Writing l') -> op_inv s base (set_write w st o).
Proof.
  intros [Ib If Ip It Iq Iv Ia Iw Is] Hv Hw Hst. split; try done.
  - destruct Iq. split; try done. intros k Hk. cbn in Hk. destruct Hst as [->|(l & l' & _ & ->)]; [by apply qo_loop0|done].
  - intros Hs. apply Ia. by apply settled_value; rewrite Hv.
  - intros w' [= <-]. eauto.
  - destruct Hst as [->|(l & l' & El & ->)]; [|unfold status_ok; cbn; eauto]. unfold status_ok in *. cbn in *.
    destruct (op_status o) eqn:Eo; try done. by destruct Is as [Is _]; rewrite Hv in Is.
Qed.

Lemma value_issued s id o v base :
  sy_ops s !! id = Some o -> op_inv s base o -> op_value o = Some v -> issued s (stamp_of_vv v).
Proof.
  intros Ho Io Hv. destruct (oi_value _ _ _ Io v Hv) as (_ & _ & _ & K). destruct (is_write (op_kind o)) eqn:Ek; [|done].
  exists id, o. split; [done|]. split; [done|]. unfold op_stamp. by rewrite Hv.
Qed.

(** One iteration of the loop of [replicate]. *)
Lemma replicate_target_inv' s base o w node todo c c' w' :
  sys_inv s -> op_inv s base o -> op_status o = Writing (node :: todo) -> op_write o = Some w ->
  sy_nodes s !! op_node o = Some c -> replicate_target (sy_now s) node w c = Some (c', w') ->
  exists ov, touched (sy_now s) c c' ov /\ (forall st, ov = Some st -> exists v, op_value o = Some v /\ st = stamp_of_vv v) /\
  forall s', grows s s' -> view s' (op_node o) = vs_view (sy_now s) key (cl_cache c') ->
    op_inv s' base (set_write w' (Writing todo) o).
Proof.
  intros I Io Est Hw Hc E. destruct (si_nodes s I _ c Hc) as [M _]. pose proof (mb_wf _ _ _ _ _ _ M) as Wc.
  destruct (oi_write _ _ _ Io w Hw) as (v & Hv & [W1 W2 W3 (A & Hd & P1 & P2 & P3) W5]). rewrite Est in P1. cbn in P1.
  destruct (oi_value _ _ _ Io v Hv) as (_ & Hpos & _).
  assert (HT : forall n, n ∈ A -> n ∈ T) by (intros n Hn; rewrite P1; set_solver).
  assert (Fin : forall s' w1 A' Hd', grows s s' -> wc_key w1 = wc_key w -> wc_value w1 = wc_value w -> wc_needed w1 = wc_needed w ->
    T ≡ₚ A' ++ Hd' ++ wc_pending w1 ++ todo -> length A' = wc_acks w1 ->
    (forall n, n ∈ A' -> ostamp_le (Some (stamp_of_vv v)) (view s' (cn_id n))) ->
    op_inv s' base (set_write w1 (Writing todo) o)).
  { intros s' w1 A' Hd' G K1 K2 K3 Q1 Q2 Q3. eapply op_inv_write; [by eapply op_inv_grows|done| |right; eauto].
    split; try (by rewrite ?K1, ?K2, ?K3); [by exists A', Hd'|]. intros n reply Hr. destruct (W5 n reply Hr).
    split; [done|]. etrans; [done|by apply G]. }
  assert (HA : forall s', grows s s' -> forall n, n ∈ A -> ostamp_le (Some (stamp_of_vv v)) (view s' (cn_id n))).
  { intros s' G n Hn. etrans; [by apply P3|]. apply G. auto. }
  unfold replicate_target in E. rewrite W1, W2, (mb_id _ _ _ _ _ _ M) in E.
  destruct (bytes_eqb (cn_id node) (op_node o)) eqn:El.
  - apply bytes_eqb_eq in El. destruct (vs_apply (sy_now s) key v (cl_cache c)) as [[[cache ch] live]|] eqn:Ea; [|done].
    cbn [mbind option_bind] in E. injection E as <- <-. pose proof (apply_touched _ _ _ _ _ _ Wc Hpos Ea) as Ht.
    exists (Some (stamp_of_vv v)). split; [done|]. split; [intros st [= <-]; eauto|]. intros s' G Ev.
    apply (Fin s' _ (A ++ [node]) Hd); try done.
    + cbn. rewrite P1. solve_Permutation.
    + rewrite length_app. cbn. lia.
    + intros n [Hn|Hn%list_elem_of_singleton]%elem_of_app; [by apply HA|]. subst n.
      rewrite El, Ev, (to_view _ _ _ _ Ht). apply ostamp_le_max_r.
  - destruct (Cluster_is_node_healthy (cn_id node) (cl_mem c)); cbn [negb] in E.
    + injection E as <- <-. exists None. split; [apply touched_quiet; try done; by apply peer_call_wf|].
      split; [done|]. intros s' G _. apply (Fin s' _ A Hd); try done; [|by apply HA]. cbn. rewrite P1. solve_Permutation.
    + destruct (add_hint_spec (sy_now s) node key v c Wc) as (c1 & E1 & Wc1 & (S1 & S2 & _) & Sc & _). rewrite E1 in E.
      cbn [mbind option_bind] in E. injection E as <- <-. exists None. split; [by apply touched_quiet|].
      split; [done|]. intros s' G _. apply (Fin s' _ A (Hd ++ [node])); try done; [|by apply HA]. cbn. rewrite P1. solve_Permutation.
Qed.

(** A callback of [replicate]. *)
Lemma replicate_reply_inv' s base o w node d res c c' w' :
  sys_inv s -> op_inv s base o -> op_write o = Some w -> node ∈ wc_pending w ->
  delivered node (op_acks o) d = Some res ->
  sy_nodes s !! op_node o = Some c -> replicate_reply (sy_now s) node res w c = Some (c', w') ->
  touched (sy_now s) c c' None /\
  forall s', grows s s' -> op_inv s' base (set_write w' (op_status o) o).
Proof.
  intros I Io Hw Hp Hd Hc E. destruct (si_nodes s I _ c Hc) as [M _]. pose proof (mb_wf _ _ _ _ _ _ M) as Wc.
  destruct (oi_write _ _ _ Io w Hw) as (v & Hv & [W1 W2 W3 (A & Hn & P1 & P2 & P3) W5]).
  assert (Npend : NoDup (cn_id <$> wc_pending w)).
  { rewrite P1, !fmap_app in T_nodup. apply NoDup_app in T_nodup as (_ & _ & N). apply NoDup_app in N as (_ & _ & N).
    by apply NoDup_app in N as (N & _). }
  pose proof (filter_other node _ Npend Hp) as HP.
  assert (Fin : forall s' w1 A' Hd', grows s s' -> wc_key w1 = wc_key w -> wc_value w1 = wc_value w -> wc_needed w1 = wc_needed w ->
    wc_pending w1 = List.filter (fun n => negb (bytes_eqb (cn_id n) (cn_id node))) (wc_pending w) ->
    A' ++ Hd' ≡ₚ A ++ Hn ++ [node] -> length A' = wc_acks w1 ->
    (forall n, n ∈ A' -> n ∈ A \/ ostamp_le (Some (stamp_of_vv v)) (view s (cn_id n))) ->
    op_inv s' base (set_write w1 (op_status o) o)).
  { intros s' w1 A' Hd' G K1 K2 K3 K4 Q1 Q2 Q3. eapply op_inv_write; [by eapply op_inv_grows|done| |by left].
    assert (QT : T ≡ₚ A' ++ Hd' ++ wc_pending w1 ++ todo_of (op_status o)).
    { rewrite K4, app_assoc, Q1, P1. clear K4. set (l := List.filter _ _) in HP |- *. clearbody l. rewrite HP. solve_Permutation. }
    split; try (by rewrite ?K1, ?K2, ?K3).
    - exists A', Hd'. split; [done|]. split; [done|]. intros n Hin. etrans; [|apply G; rewrite QT; set_solver].
      destruct (Q3 n Hin); [by apply P3|done].
    - intros n reply Hr. destruct (W5 n reply Hr). split; [done|]. etrans; [done|by apply G]. }
  assert (Hok : acknowledges res = true -> ostamp_le (Some (stamp_of_vv v)) (view s (cn_id node))).
  { intros Ha. unfold delivered in Hd. destruct d as [n|[] msg]; try (injection Hd as <-; discriminate Ha); [|discriminate Hd].
    destruct (op_acks o !! n) as [[y reply]|] eqn:En; [|done]. cbn [mbind option_bind] in Hd. case_decide; [|done].
    subst y. by apply (W5 node reply); eapply list_elem_of_lookup_2. }
  unfold replicate_reply in E. cbv zeta in E.
  assert (Ea : exists live, match rr_is_ok res, rr_value res with
    | true, Some x => (rr_is_ok (decode_replica_write x), default false (rr_value (decode_replica_write x)))
    | _, _ => (false, false) end = (acknowledges res, live)).
  { unfold acknowledges. destruct (rr_is_ok res), (rr_value res); eauto. }
  destruct Ea as [live Ea]. rewrite Ea in E. destruct (acknowledges res) eqn:Eok.
  - injection E as <- <-. split; [by apply touched_refl|]. intros s' G. apply (Fin s' _ (A ++ [node]) Hn); try done.
    + solve_Permutation.
    + rewrite length_app. cbn. lia.
    + intros n [Hin|Hin%list_elem_of_singleton]%elem_of_app; [by left|]. subst n. right. by apply Hok.
  - cbn [wc_key wc_value set_pending] in E. rewrite W1, W2 in E.
    destruct (add_hint_spec (sy_now s) node key v c Wc) as (c1 & E1 & Wc1 & (S1 & S2 & _) & Sc & _). rewrite E1 in E.
    cbn [mbind option_bind] in E. injection E as <- <-. split; [by apply touched_quiet|].
    intros s' G. apply (Fin s' _ A (Hn ++ [node])); try done. intros n Hin. by left.
Qed.

(** ** The end of a query *)

Lemma query_shape s base o : query_ok s base o -> replies_shape T (query_result (op_query o)).
Proof. intros []. by split. Qed.

Lemma issued_value s st :
  sys_inv s -> issued s st -> 0 <= st_version st < 2 ^ 64 - 1 /\ (st_tombstone st = true -> st_value st = []).
Proof.
  intros I (id & o & Ho & _ & Hs). destruct (si_ops s I id o Ho) as [base Io]. unfold op_stamp in Hs.
  destruct (op_value o) as [v|] eqn:Ev; [|done]. injection Hs as <-. by destruct (oi_value _ _ _ Io v Ev) as (? & _ & ? & _).
Qed.

(** Some answer is at least the stamp of an operation that had returned. *)
Lemma quorum_answers s base o d :
  op_inv s base o -> qr_ok (query_result (op_query o)) = true -> d ∈ take (op_floor o) (sy_done s) ->
  exists i x, answered (query_result (op_query o)) i x /\ good s base i x /\ ostamp_le (stamp_at s d) (stamp_of_vv <$> x).
Proof.
  intros Io Hok Hd. pose proof (oi_query _ _ _ Io) as Q. pose proof (query_shape _ _ _ Q) as Sh.
  destruct (oi_past _ _ _ Io d Hd) as (A & NA & LA & VA).
  destruct (answered_ids_spec _ _ Sh T_nodup) as (NB & LB & SB).
  cbn [qr_ok query_result] in Hok. bool_facts. rewrite (qo_needed _ _ _ Q), (qo_count _ _ _ Q) in Hok.
  destruct (lists_meet (cn_id <$> T) (answered_ids (query_result (op_query o))) (cn_id <$> A)) as (id & H1 & H2); try done.
  - intros x (i & node & y & Hi & <- & _)%SB. apply list_elem_of_fmap_2. by eapply list_elem_of_lookup_2.
  - intros x (n & -> & Hn)%list_elem_of_fmap. apply list_elem_of_fmap_2. by apply VA.
  - rewrite !length_fmap, LB. cbn [qr_replied query_result]. lia.
  - destruct (SB id H1) as (i & node & x & Hi & <- & Hx). exists i, x. split; [done|].
    pose proof (qo_answers _ _ _ Q i x (proj1 Hx) (proj2 Hx)) as Hg. split; [done|].
    destruct Hg as (node' & Hi' & Hb & _). rewrite Hi in Hi'. injection Hi' as <-.
    apply list_elem_of_fmap in H2 as (n & En & Hn). destruct (VA n Hn) as [_ Hv]. rewrite <-En in Hv. by etrans.
Qed.

(** The answers of a query are good. *)
Lemma answered_good s base o i x :
  op_inv s base o -> answered (query_result (op_query o)) i x -> good s base i x.
Proof. intros Io [H1 H2]. by apply (qo_answers _ _ _ (oi_query _ _ _ Io)). Qed.

Lemma winner_above s base o v :
  op_inv s base o -> is_write (op_kind o) = false -> qr_ok (query_result (op_query o)) = true ->
  pick_winner (query_result (op_query o)) = v ->
  forall d, d ∈ take (op_floor o) (sy_done s) -> ostamp_le (stamp_at s d) (stamp_of_vv <$> v).
Proof.
  intros Io Hk Hok <- d Hd. destruct (quorum_answers s base o d Io Hok Hd) as (i & x & Hx & _ & Hle).
  etrans; [done|]. destruct x as [u|]; [|done]. pose proof (query_shape _ _ _ (oi_query _ _ _ Io)) as Sh.
  by apply (proj1 (pick_winner_newest _ _ Sh) i).
Qed.

(** Setting what was decided. *)
Lemma op_inv_decided s base o v w st k :
  op_inv s base o -> op_status o = Querying k -> (forall j, st <> Querying j) ->
  (forall u, v = Some u -> value_ok s o u) ->
  (bool_decide (is_Some v) || is_returned st = true -> above s (set_decided v w st o)) ->
  (forall w', w = Some w' -> exists u, v = Some u /\ write_ok s (set_decided v w st o) w' u) ->
  status_ok s (set_decided v w st o) -> op_inv s base (set_decided v w st o).
Proof.
  intros [Ib If Ip It Iq Iv Ia Iw Is] Est Hst Hv Ha Hw Hs. split; try done.
  destruct Iq. split; try done. intros j Hj. by destruct (Hst j).
Qed.

Lemma write_ok_new s o v w :
  op_acks o = [] -> write_ok s (set_decided (Some v) w (Writing T) o) (new_write key v T W) v.
Proof.
  intros Ha. split; try done.
  - exists [], []. split_and!; try done. intros n Hn. by apply elem_of_nil in Hn.
  - cbn. rewrite Ha. intros n reply Hr. by apply elem_of_nil in Hr.
Qed.

Lemma read_repair_touched now winner stale c c' :
  cluster_wf c -> ttl_positive winner -> read_repair now key winner stale c = Some c' ->
  exists ov, touched now c c' ov /\ forall st, ov = Some st -> st = stamp_of_vv winner.
Proof.
  revert c. induction stale as [|node stale IH]; intros c Wc Hp E; cbn [read_repair] in E.
  { injection E as <-. exists None. split; [by apply touched_refl|done]. }
  destruct (bytes_eqb _ _).
  - destruct (vs_apply now key winner (cl_cache c)) as [[[cache ch] live]|] eqn:Ea; [|done]. cbn [mbind option_bind] in E.
    pose proof (apply_touched _ _ _ _ _ _ Wc Hp Ea) as [A0 A1 A2 A3].
    destruct (IH _ A0 Hp E) as (ov & [B0 B1 B2 B3] & Hov). exists (Some (stamp_of_vv winner)).
    split; [|by intros st [= <-]]. split; [done|congruence|congruence|]. rewrite B3, A3, <-ostamp_max_assoc. f_equal.
    destruct ov as [st|]; [|done]. rewrite (Hov st eq_refl). unfold ostamp_max. by rewrite stamp_max_idemp.
  - destruct (IH (peer_call node (replica_write_command key winner) c)) as (ov & Ht & Hov); [by apply peer_call_wf|done|done|].
    exists ov. split; [|done]. destruct Ht as [A0 A1 A2 A3]. by split.
Qed.

Lemma winner_good s base o v :
  sys_inv s -> op_inv s base o -> is_write (op_kind o) = false -> pick_winner (query_result (op_query o)) = Some v ->
  value_ok s o v /\ ttl_positive v.
Proof.
  intros I Io Hk E. pose proof (query_shape _ _ _ (oi_query _ _ _ Io)) as Sh.
  destruct (proj2 (pick_winner_newest _ _ Sh) v E) as [i Hi]. destruct (answered_good _ _ _ _ _ Io Hi) as (_ & _ & _ & _ & K).
  destruct (K v eq_refl) as [Hs Hp]. split; [|done]. destruct (issued_value s _ I Hs). split; [done|]. split; [done|].
  split; [done|]. by rewrite Hk.
Qed.

(** A read decides. *)
Lemma decide_read_inv s base o c c' st v w :
  sys_inv s -> op_inv s base o -> is_write (op_kind o) = false -> op_status o = Querying (length T) ->
  sy_nodes s !! op_node o = Some c -> decide_read key (sy_now s) (op_query o) c = Some (c', st, v, w) ->
  exists ov, touched (sy_now s) c c' ov /\ (forall x, ov = Some x -> issued s x) /\
    forall s', grows s s' -> op_inv s' base (set_decided v w st o).
Proof.
  intros I Io Hk Est Hc E. destruct (si_nodes s I _ c Hc) as [M _]. pose proof (mb_wf _ _ _ _ _ _ M) as Wc.
  pose proof (oi_query _ _ _ Io) as Q. pose proof (oi_status _ _ _ Io) as Hs. unfold status_ok in Hs. rewrite Est in Hs.
  destruct Hs as (_ & _ & Hacks). unfold decide_read in E. destruct (qr_ok (query_result (op_query o))) eqn:Eok; cbn [negb] in E; cycle 1.
  { injection E as <- <- <- <-. exists None. split; [apply touched_quiet; try done; by apply set_counters_wf|]. split; [done|].
    intros s' G. eapply op_inv_decided; try done. by eapply op_inv_grows. }
  pose proof (winner_above s base o _ Io Hk Eok eq_refl) as Hab.
  assert (Habove : forall s' w st, grows s s' ->
    above s' (set_decided (pick_winner (query_result (op_query o))) w st o)).
  { intros s' w0 st0 G. apply (above_grows s s'); [done|apply Io|]. intros d Hd. cbn. rewrite Hk. by apply Hab. }
  destruct (pick_winner (query_result (op_query o))) as [u|] eqn:Ew; cycle 1.
  { injection E as <- <- <- <-. exists None. split; [by apply touched_refl|]. split; [done|]. intros s' G.
    eapply op_inv_decided; try done; [by eapply op_inv_grows|intros _; by apply Habove|].
    split; [done|]. split; [done|]. exists T. split; [done|]. split; [done|]. intros n Hn. split; [done|]. done. }
  destruct (winner_good s base o u I Io Hk Ew) as [Vu Pu]. cbv zeta in E.
  set (c1 := set_counters _ (set_clock _ c)) in E.
  assert (Ht1 : touched (sy_now s) c c1 None) by (apply touched_quiet; try done; by apply set_counters_wf, set_clock_wf).
  pose proof (touched_member _ _ _ _ _ Ht1 M) as M1. clearbody c1.
  assert (Hval : forall s' w, grows s s' -> forall x, Some u = Some x -> value_ok s' (set_decided (Some u) w st o) x).
  { intros s' w0 G x [= <-]. destruct Vu as (? & ? & ? & V4). rewrite Hk in V4. split; [done|]. split; [done|]. split; [done|]. cbn. rewrite Hk. by apply G. }
  assert (Hiss : issued s (stamp_of_vv u)) by (destruct Vu as (_ & _ & _ & V4); by rewrite Hk in V4).
  destruct (_ && _) eqn:Eb in E.
  - rewrite (mb_targets _ _ _ _ _ _ M1) in E. cbn [mbind option_bind] in E. rewrite (mb_write _ _ _ _ _ _ M1) in E.
    injection E as <- <- <- <-. exists None. split; [done|]. split; [done|]. intros s' G.
    eapply op_inv_decided; try done; [by eapply op_inv_grows|by apply (Hval s' None)|intros _; by apply Habove| |].
    + intros w' [= <-]. exists u. split; [done|]. by apply write_ok_new.
    + unfold status_ok. cbn. eauto.
  - destruct (read_repair _ _ _ _ c1) as [c2|] eqn:Er in E; [|done]. cbn [mbind option_bind] in E. injection E as <- <- <- <-.
    destruct (read_repair_touched _ _ _ _ _ (mb_wf _ _ _ _ _ _ M1) Pu Er) as (ov & Ht & Hov). exists ov.
    split; [by eapply touched_trans|]. split; [intros x Hx; by rewrite (Hov x Hx)|]. intros s' G.
    eapply op_inv_decided; try done; [by eapply op_inv_grows|by apply (Hval s' None)|intros _; by apply Habove|].
    split; [done|]. split; [done|]. apply (held_grows s s'); [done|].
    destruct (up_to_date_answers T _ u (query_shape _ _ _ Q) T_nodup) as (hs & H1 & H2 & H3). exists hs.
    split; [done|]. split.
    + rewrite H2. cbn [qr_targets query_result] in Eb. rewrite (qo_targets _ _ _ Q), (mb_write _ _ _ _ _ _ M1) in Eb.
      rewrite bool_decide_eq_true_2 in Eb by apply M1. cbn in Eb. by apply Nat.ltb_ge in Eb.
    + intros n Hn. destruct (H3 n Hn) as (i & x & Hi & Hx & Es). split; [by eapply list_elem_of_lookup_2|].
      destruct (answered_good _ _ _ _ _ Io Hx) as (n' & Hi' & _ & Hle & _). rewrite Hi in Hi'. injection Hi' as <-.
      cbn in *. unfold op_stamp. cbn. by rewrite <-Es.
Qed.

(** A write decides. *)
Lemma decide_write_inv s base o ms c c' st v w :
  sys_inv s -> op_inv s base o -> is_write (op_kind o) = true -> op_status o = Querying (length T) ->
  sy_nodes s !! op_node o = Some c -> decide_write key ms (op_kind o) (op_query o) c = Some (c', st, v, w) ->
  0 <= cl_clock c' < 2 ^ 64 - 1 ->
  touched (sy_now s) c c' None /\ forall s', grows s s' -> op_inv s' base (set_decided v w st o).
Proof.
  intros I Io Hk Est Hc E Hr. destruct (si_nodes s I _ c Hc) as [M _]. pose proof (mb_wf _ _ _ _ _ _ M) as Wc.
  pose proof (oi_query _ _ _ Io) as Q. pose proof (oi_status _ _ _ Io) as Hs. unfold status_ok in Hs. rewrite Est in Hs.
  destruct Hs as (_ & _ & Hacks). unfold decide_write in E. destruct (qr_ok (query_result (op_query o))) eqn:Eok; cbn [negb] in E; cycle 1.
  { injection E as <- <- <- <-. split; [apply touched_quiet; try done; by apply set_counters_wf|].
    intros s' G. eapply op_inv_decided; try done. by eapply op_inv_grows. }
  unfold clock_now in E. cbv zeta in E. cbn [cl_clock set_clock] in E.
  set (t0 := observe_replies (query_result (op_query o)) (cl_clock c)) in *. set (t := HybridClock_now ms t0) in *.
  set (c1 := set_clock t (set_clock t0 c)) in *.
  assert (Ht1 : touched (sy_now s) c c1 None) by (apply touched_quiet; try done; by apply set_clock_wf, set_clock_wf).
  pose proof (touched_member _ _ _ _ _ Ht1 M) as M1. cbn [cl_mem set_clock] in E.
  change (cl_mem c) with (cl_mem c1) in E. rewrite (mb_targets _ _ _ _ _ _ M1) in E. cbn [mbind option_bind] in E.
  rewrite (mb_write _ _ _ _ _ _ M1) in E. injection E as <- <- <- <-. cbn [cl_clock set_clock c1] in Hr.
  split; [done|]. intros s' G. set (u := write_value (op_kind o) t).
  assert (Hver : vv_version u = t) by (unfold u; by destruct (op_kind o)).
  assert (Hans : forall i x, answered (query_result (op_query o)) i (Some x) -> 0 <= vv_version x < 2 ^ 64 - 1).
  { intros i x Hx. destruct (answered_good _ _ _ _ _ Io Hx) as (_ & _ & _ & _ & K). destruct (K x eq_refl) as [Hi _].
    by apply (issued_value s _ I) in Hi as [? _]. }
  destruct (observe_replies_ge (replies_list (query_result (op_query o))) (cl_clock c) (2 ^ 64 - 2)) as [O1 O2].
  { specialize (si_range s I _ _ Hc). lia. }
  { intros n x Hin. apply (replies_list_lookup _ _ _ _ _ (query_shape _ _ _ Q)) in Hin as (j & _ & H2 & H3).
    specialize (Hans j x (conj H2 H3)). lia. }
  fold (observe_replies (query_result (op_query o)) (cl_clock c)) in O1, O2. fold t0 in O1, O2.
  assert (Hlt : t0 < t) by (apply now_above; specialize (si_range s I _ _ Hc); lia).
  eapply op_inv_decided; try done; [by eapply op_inv_grows| | | |].
  - intros x [= <-]. split; [by rewrite Hver|]. split; [|split].
    + pose proof (oi_ttl _ _ _ Io) as Ht. unfold u. by destruct (op_kind o).
    + unfold u. by destruct (op_kind o).
    + by rewrite Hk, Hver.
  - intros _. apply (above_grows s s'); [done|apply Io|]. intros d Hd. cbn. rewrite Hk.
    destruct (quorum_answers s base o d Io Eok Hd) as (i & x & Hx & Hg & Hle). unfold op_stamp. cbn.
    destruct (stamp_at s d) as [a|]; [|done]. apply version_lt. cbn. rewrite Hver.
    destruct x as [y|]; [|done]. apply ostamp_le_version in Hle. cbn in Hle.
    assert (vv_version y <= t0); [|lia]. destruct Hg as (n & Hi & _). apply (O2 n).
    apply (replies_list_lookup _ _ _ _ _ (query_shape _ _ _ Q)). destruct Hx. eauto.
  - intros w' [= <-]. exists u. split; [done|]. by apply write_ok_new.
  - unfold status_ok. cbn. eauto.
Qed.

(** The end of [replicate]. *)
Lemma finish_inv s base o w c c' st :
  sys_inv s -> op_inv s base o -> op_status o = Writing [] -> op_write o = Some w ->
  sy_nodes s !! op_node o = Some c -> finish_write (op_kind o) w c = (c', st) ->
  touched (sy_now s) c c' None /\ (forall j, st <> Querying j) /\ forall s', grows s s' -> op_inv s' base (set_status st o).
Proof.
  intros I Io Est Hw Hc E. destruct (si_nodes s I _ c Hc) as [M _]. pose proof (mb_wf _ _ _ _ _ _ M) as Wc.
  destruct (oi_write _ _ _ Io w Hw) as (v & Hv & [W1 W2 W3 (A & Hd & P1 & P2 & P3) W5]).
  unfold finish_write, replicate_finish in E. cbv zeta in E. injection E as <- Es.
  assert (Hst : todo_of st = [] /\ (forall j, st <> Querying j) /\
    (st = Failed \/ (wc_needed w <= wc_acks w)%nat /\
       match st with
       | ReadDone r => is_write (op_kind o) = false /\ r = to_result (Some v)
       | WriteDone _ => is_write (op_kind o) = true
       | _ => False
       end)).
  { subst st. cbn [wr_ok]. destruct (_ <=? _)%nat eqn:En; [|split_and!; try done; by left]. apply Nat.leb_le in En.
    destruct (is_write (op_kind o)); (split; [done|]; split; [done|]; right; rewrite ?W2; done). }
  clear Es. destruct Hst as (Htodo & Hnq & Hst). split; [|split; [done|]].
  - destruct (_ <=? _)%nat; [by apply touched_refl|]. apply touched_quiet; try done. by apply set_counters_wf.
  - intros s' G. pose proof (op_inv_grows s s' base o G Io) as [Ib If Ip It Iq Iv Ia Iw Is]. split; try done.
    + destruct Iq. split; try done. intros k Hk. by destruct (Hnq k).
    + intros _. apply Ia, settled_value. by rewrite Hv.
    + intros w' Hw'. destruct (Iw w' Hw') as (u & Hu & [V1 V2 V3 V4 V5]). exists u. split; [done|]. split; try done.
      cbn [op_status set_status]. rewrite Htodo. by rewrite Est in V4.
    + unfold status_ok. cbn [op_status set_status op_kind op_value]. destruct Hst as [->|[Hn Hst]]; [done|].
      assert (Hh : held_in (view s') (op_stamp o)).
      { exists A. assert (HT : forall n, n ∈ A -> n ∈ T) by (intros n Hin; rewrite P1; set_solver).
        split; [|split; [lia|]].
        - rewrite P1, fmap_app in T_nodup. by apply NoDup_app in T_nodup as (? & _).
        - intros n Hin. split; [auto|]. unfold op_stamp. rewrite Hv. cbn. etrans; [by apply P3|]. apply G. auto. }
      rewrite Hv. destruct st; try done. by destruct Hst.
Qed.

End inv.
