(* ===== verification/Linearizability.v ===== *)
(** * Linearizable mode is linearizable

    Every step of Register.v keeps the invariant of RegisterInv.v; from it, the
    operations on a key are ordered by their stamps, and that order is a legal
    history of a register that respects real time.  A run at the end shows that
    this needs quorums that overlap. *)

From S2P Require Import Prelude Numerals CacheEntry Cache CacheSpec CacheRefine CacheProps VersionedStore HybridClock ConsistentHash RoutingTable HealthChecker Membership Resp Parser ReplicaWire Cluster ClusterLemmas ClusterProps Register RegisterInv.

Local Open Scope Z_scope.

#[local] Set Default Proof Using "All".

Section steps.
Context {S : Type} `{VersionedStoreLaws S}.
Variables (key : bytes) (T : list CacheNode) (R W : nat).
Hypothesis T_nodup : NoDup (cn_id <$> T).
Hypothesis quorums_meet : (length T < R + W)%nat.
Hypothesis W_fits : (W <= length T)%nat.
Implicit Types (c : Cluster S) (s : Sys (S := S)) (o : Op).

Notation view := (view key).
Notation sys_inv := (sys_inv key T R W).
Notation op_inv := (op_inv key T R W).
Notation grows := (grows key T).
Notation node_step := (node_step key T R W).

(** ** A step that changes one operation *)

Definition newly (id : nat) o o' : list nat :=
  if is_returned (op_status o') && negb (is_returned (op_status o)) then [id] else [].

Lemma inv_op s id o o' nodes' done' :
  let s' := mkSys (sy_now s) nodes' (<[id := o']> (sy_ops s)) done' in
  done' = sy_done s ++ newly id o o' -> sys_inv s -> sy_ops s !! id = Some o -> keeps key T s s' -> in_range s' -> lasting key s' -> extends o o' ->
  (forall p c', nodes' !! p = Some c' -> exists c, sy_nodes s !! p = Some c /\ node_step s s' p c c') ->
  (grows s s' -> exists base, op_inv s' base o') -> sys_inv s'.
Proof.
  intros s' -> I Ho Hk Hr Hl Hx Hn Hi. assert (Hid : (id < length (sy_ops s))%nat) by (by eapply lookup_lt_Some).
  eapply inv_step with (s := s); try done.
  - intros j x Hj. cbn [sy_ops s']. destruct (decide (j = id)) as [->|Hne].
    + exists o'. rewrite list_lookup_insert_eq by done. split; [done|]. congruence.
    + exists x. rewrite list_lookup_insert_ne by done. split; [done|]. apply extends_refl.
  - intros j x Hj. cbn [sy_ops s'] in Hj. apply list_lookup_insert_Some in Hj as [(<- & <- & _)|[_ Hj]]; auto.
  - intros j x d Hj Hd. cbn [sy_ops sy_done s'] in Hj, Hd.
    assert (Hj' : exists y, sy_ops s !! j = Some y /\ op_floor x = op_floor y).
    { apply list_lookup_insert_Some in Hj as [(<- & <- & _)|[_ Hj]]; [exists o; split; [done|apply Hx]|by exists x]. }
    destruct Hj' as (y & Hy & Ef). destruct (si_ops _ _ _ _ s I j y Hy) as [base Io].
    rewrite Ef, take_app_le in Hd by apply Io. by eapply (si_order _ _ _ _ s I).
  - by exists (newly id o o').
  - cbn [sy_done s']. unfold newly. destruct (is_returned (op_status o')) eqn:E1, (is_returned (op_status o)) eqn:E2;
      cbn [andb negb]; rewrite ?app_nil_r; try apply I. apply NoDup_app. split; [apply I|]. split; [|apply NoDup_singleton].
    intros j Hj ->%list_elem_of_singleton. apply (si_done _ _ _ _ s I) in Hj as (x & Hx' & Er). congruence.
  - intros j. cbn [sy_done sy_ops s']. rewrite elem_of_app, (si_done _ _ _ _ s I). unfold newly. split.
    + intros [(x & Hj & Er)|Hj].
      * destruct (decide (j = id)) as [->|Hne].
        { exists o'. rewrite list_lookup_insert_eq by done. split; [done|]. apply Hx. congruence. }
        exists x. by rewrite list_lookup_insert_ne.
      * destruct (is_returned (op_status o')) eqn:E1, (is_returned (op_status o)); cbn in Hj; try (by apply elem_of_nil in Hj).
        apply list_elem_of_singleton in Hj as ->. exists o'. by rewrite list_lookup_insert_eq.
    + intros (x & Hj & Er). apply list_lookup_insert_Some in Hj as [(<- & <- & _)|[_ Hj]]; [|by left; exists x].
      rewrite Er. destruct (is_returned (op_status o)) eqn:E2; cbn; [left; eauto|right; by apply list_elem_of_singleton].
Qed.

Lemma issued_update s (id : nat) o o' (nodes' : gmap bytes (Cluster S)) done' st :
  sy_ops s !! id = Some o -> extends o o' -> issued s st ->
  issued (mkSys (sy_now s) nodes' (<[id := o']> (sy_ops s)) done') st.
Proof using Type.
  intros Ho Hx. apply extends_issued. intros j y Hj. cbn [sy_ops]. destruct (decide (j = id)) as [->|Hne].
  - exists o'. rewrite list_lookup_insert_eq by (by eapply lookup_lt_Some). split; [done|]. rewrite Ho in Hj. by injection Hj as <-.
  - exists y. rewrite list_lookup_insert_ne by done. split; [done|apply extends_refl].
Qed.

(** ... and one node. *)
Lemma inv_op_node s id o o' p c c' ov done' :
  let s' := mkSys (sy_now s) (<[p := c']> (sy_nodes s)) (<[id := o']> (sy_ops s)) done' in
  done' = sy_done s ++ newly id o o' -> sys_inv s -> sy_ops s !! id = Some o -> sy_nodes s !! p = Some c -> touched key (sy_now s) c c' ov ->
  keeps key T s s' -> in_range s' -> lasting key s' -> extends o o' ->
  (forall st, ov = Some st -> issued s' st) ->
  (grows s s' -> view s' p = vs_view (sy_now s) key (cl_cache c') -> exists base, op_inv s' base o') -> sys_inv s'.
Proof.
  intros s' Hd I Ho Hc Ht Hk Hr Hl Hx Hi Hop. apply (inv_op s id o o' (<[p := c']> (sy_nodes s)) done'); try done.
  - intros q d. rewrite lookup_insert_Some. intros [[<- <-]|[Hne Hq]].
    + exists c. split; [done|]. by eapply touched_step.
    + exists d. split; [done|]. split; [done|]. by left.
  - intros G. apply Hop; [done|]. unfold Register.view. cbn [sy_nodes s']. by rewrite lookup_insert_eq.
Qed.

Lemma with_done_eq id st s : with_done id st s =
  mkSys (sy_now s) (sy_nodes s) (sy_ops s) (sy_done s ++ if is_returned st then [id] else []).
Proof using Type. destruct s, st; cbn; by rewrite ?app_nil_r. Qed.

Lemma with_both id o' p c' s : with_op id o' (with_node p c' s) =
  mkSys (sy_now s) (<[p := c']> (sy_nodes s)) (<[id := o']> (sy_ops s)) (sy_done s).
Proof using Type. done. Qed.

Lemma querying_unsettled s base o i : op_inv s base o -> op_status o = Querying i -> settled o = false.
Proof using Type.
  intros Io Est. pose proof (oi_status _ _ _ _ _ _ _ Io) as Hst. unfold status_ok in Hst. rewrite Est in Hst.
  destruct Hst as [Hv _]. unfold settled. by rewrite Hv, Est.
Qed.

Lemma newly_same id o o' : op_status o' = op_status o -> newly id o o' = [].
Proof using Type. unfold newly. intros ->. by destruct (is_returned (op_status o)). Qed.

Lemma received_stamp v : (vv_tombstone v = true -> vv_value v = []) -> stamp_of_vv (received v) = stamp_of_vv v.
Proof using Type.
  intros Ht. unfold received, stamp_of_vv. destruct (vv_tombstone v); [|done]. cbn. by rewrite Ht.
Qed.

Lemma received_pos v : ttl_positive (received v).
Proof using Type.
  intros ms. unfold received. destruct (vv_tombstone v); [done|]. cbn. destruct (vv_ttl v); [|done]. cbn. intros Em.
  injection Em as <-. apply Z.lt_le_trans with 1; [done|apply Z.le_max_l].
Qed.

(** ** The actions *)

Section actions.
Variables (s s' : Sys (S := S)).
Hypothesis I : sys_inv s.
Hypothesis K : keeps key T s s'.
Hypothesis Rg : in_range s'.
Hypothesis La : lasting key s'.

Lemma step_invoke p kind :
  sys_step key (AInvoke p kind) s = Some s' -> step_ok key (AInvoke (S := S) p kind) s -> sys_inv s'.
Proof.
  cbn [sys_step step_ok]. intros E Hok. destruct (sy_nodes s !! p) as [c|] eqn:Hc; [|done]. cbn [mbind option_bind] in E.
  destruct (can_serve_locally key (is_write kind) c) as [[|]|]; [done| |done]. cbn [mbind option_bind] in E.
  destruct (si_nodes _ _ _ _ s I p c Hc) as [M _]. rewrite (mb_targets _ _ _ _ _ _ M) in E. cbn [mbind option_bind] in E.
  rewrite (mb_read _ _ _ _ _ _ M) in E. injection E as Es.
  set (o := mkOp _ _ _ _ _ _ _ _ _) in Es. subst s'.
  eapply inv_step with (s := s); try done.
  - intros q d Hd. exists d. split; [done|]. split; [done|]. by left.
  - intros j x Hj. exists x. cbn [sy_ops]. rewrite lookup_app_l by (by eapply lookup_lt_Some). split; [done|apply extends_refl].
  - intros j x Hj. cbn [sy_ops] in Hj. apply lookup_app_Some in Hj as [Hj|[_ Hj]]; [by left|]. right. intros G.
    apply list_lookup_singleton_Some in Hj as [_ <-]. exists (view s).
    set (s1 := mkSys _ _ _ _) in *. split; try done.
    + intros d Hd. assert (Hd' : d ∈ sy_done s) by (by apply in_take in Hd). rewrite (gr_stamp _ _ _ _ G) by done.
      apply (si_done _ _ _ _ s I) in Hd' as (x & Ex & Er). destruct (si_ops _ _ _ _ s I d x Ex) as [b Ib].
      unfold stamp_at. rewrite Ex. cbn [mbind option_bind]. pose proof (oi_status _ _ _ _ _ _ _ Ib) as Hst.
      unfold status_ok in Hst. destruct (op_status x); try done; by destruct Hst as (_ & _ & ?).
    + split; cbn; try done; try apply length_replicate.
      * generalize (length T). intros n. induction n as [|n IH]; [done|]. exact IH.
      * intros i x Hi. apply lookup_replicate in Hi as [? _]. done.
      * intros i reply Hr. by apply elem_of_nil in Hr.
      * intros i Hi. by apply elem_of_nil in Hi.
      * intros k [= <-]. split; [|intros i Hi; by apply elem_of_nil in Hi]. intros i Hi. apply lookup_replicate. split; [done|lia].
  - intros j x d Hj Hd. cbn [sy_ops sy_done] in Hj, Hd. apply lookup_app_Some in Hj as [Hj|[Hle Hj]].
    + by eapply (si_order _ _ _ _ s I).
    + apply in_take, (si_done _ _ _ _ s I) in Hd as (y & Hy & _). apply lookup_lt_Some in Hy. lia.
  - apply (si_nodup _ _ _ _ s I).
  - intros j. cbn [sy_done sy_ops]. rewrite (si_done _ _ _ _ s I). split.
    + intros (x & Hj & Er). exists x. rewrite lookup_app_l by (by eapply lookup_lt_Some). done.
    + intros (x & Hj & Er). apply lookup_app_Some in Hj as [Hj|[_ Hj]]; [by exists x|].
      apply list_lookup_singleton_Some in Hj as [_ <-]. done.
Qed.

Lemma step_query id : sys_step key (AQuery id) s = Some s' -> sys_inv s'.
Proof.
  cbn [sys_step]. intros E. destruct (sy_ops s !! id) as [o|] eqn:Ho; [|done]. cbn [mbind option_bind] in E.
  destruct (sy_nodes s !! op_node o) as [c|] eqn:Hc; [|done]. cbn [mbind option_bind] in E.
  destruct (op_status o) as [i| | | |] eqn:Est; try done. destruct (si_ops _ _ _ _ s I id o Ho) as [base Io].
  rewrite (qo_targets _ _ _ _ _ _ (oi_query _ _ _ _ _ _ _ Io)) in E.
  destruct (T !! i) as [node|] eqn:Hi; [|done]. cbn [mbind option_bind] in E.
  destruct (collect_target _ _ _ _ _) as [[c' r]|] eqn:Ec in E; [|done]. cbn [mbind option_bind] in E. injection E as Es. subst s'.
  destruct (collect_target_inv' key T R W T_nodup quorums_meet W_fits s base o i node c c' r I Io Est Hi Hc Ec) as [Ht Hop].
  apply (inv_op_node s id o (set_query r (Querying (i + 1)) o) (op_node o) c c' None (sy_done s)); try done.
  - unfold newly. by rewrite app_nil_r.
  - split; try done. by rewrite Est.
  - intros G _. exists base. by apply Hop.
Qed.

Lemma step_serve_get id i : sys_step key (AServeGet id i) s = Some s' -> sys_inv s'.
Proof.
  cbn [sys_step]. intros E. destruct (sy_ops s !! id) as [o|] eqn:Ho; [|done]. cbn [mbind option_bind] in E.
  destruct (si_ops _ _ _ _ s I id o Ho) as [base Io]. rewrite (qo_targets _ _ _ _ _ _ (oi_query _ _ _ _ _ _ _ Io)) in E.
  destruct (T !! i) as [node|] eqn:Hi; [|done]. cbn [mbind option_bind] in E. case_bool_decide as Hp; [|done]. cbn [negb] in E.
  destruct (sy_nodes s !! cn_id node) as [c|] eqn:Hc; [|done]. cbn [mbind option_bind] in E.
  destruct (si_nodes _ _ _ _ s I _ c Hc) as [M V]. unfold Cluster_replica_read in E.
  destruct (vs_get_versioned (sy_now s) key (cl_cache c)) as [[cache v]|] eqn:Eg; [|done]. cbn [mbind option_bind] in E.
  injection E as Es. subst s'. destruct (get_touched key T R W T_nodup quorums_meet W_fits _ _ _ _ (mb_wf _ _ _ _ _ _ M) Eg) as [Ht Ev].
  apply (inv_op_node s id o (add_reply i (encode_replica_get v) o) (cn_id node) c (set_cache cache c) None (sy_done s)); try done.
  - by rewrite newly_same, app_nil_r.
  - intros G _. exists base. set (s1 := with_op _ _ _) in *. change (grows s s1) in G.
    assert (Hg : good key T s1 base i v) by (by apply (local_good key T R W T_nodup quorums_meet W_fits s s1 base o i node c cache v)).
    destruct (encoded_good key T R W T_nodup quorums_meet W_fits s1 base i v Hg) as (x & Hx & Hgx).
    { intros u ->. assert (Hs : issued s (stamp_of_vv u)) by (apply V; by rewrite Ev).
      apply (issued_value key T R W T_nodup quorums_meet W_fits s _ I) in Hs as [? _]. cbn in *. lia. }
    pose proof (op_inv_grows key T R W T_nodup quorums_meet W_fits s s1 base o G Io) as [Ib If Ip It Iq Iv Ia Iw Is]. split; try done.
    + destruct Iq as [? ? ? ? ? ? ? Qs ? ?]. split; try done. intros j reply Hr. cbn in Hr.
      apply elem_of_app in Hr as [Hr|Hr%list_elem_of_singleton]; [by apply Qs|].
      injection Hr as -> ->. exists x. split; [exact Hx|exact Hgx].
    + intros w Hw. destruct (Iw w Hw) as (u & Hu & Hok). exists u. split; [done|]. by apply (write_ok_same _ _ _ _ o).
Qed.

Lemma step_got id i d : sys_step key (AGot id i d) s = Some s' -> sys_inv s'.
Proof.
  cbn [sys_step]. intros E. destruct (sy_ops s !! id) as [o|] eqn:Ho; [|done]. cbn [mbind option_bind] in E.
  destruct (delivered i (op_replies o) d) as [res|] eqn:Ed; [|done]. cbn [mbind option_bind] in E.
  case_bool_decide as Hp; [|done]. injection E as Es. subst s'. destruct (si_ops _ _ _ _ s I id o Ho) as [base Io].
  apply (inv_op s id o (set_query (collect_reply i res (op_query o)) (op_status o) o) (sy_nodes s) (sy_done s)); try done.
  - by rewrite newly_same, app_nil_r.
  - intros p c' Hc'. exists c'. split; [done|]. split; [done|]. by left.
  - intros G. exists base. set (s1 := with_op _ _ _) in *. change (grows s s1) in G.
    eapply collect_reply_inv'; try done. by eapply op_inv_grows.
Qed.

Lemma step_decide id ms : sys_step key (ADecide id ms) s = Some s' -> sys_inv s'.
Proof.
  cbn [sys_step]. intros E. destruct (sy_ops s !! id) as [o|] eqn:Ho; [|done]. cbn [mbind option_bind] in E.
  destruct (sy_nodes s !! op_node o) as [c|] eqn:Hc; [|done]. cbn [mbind option_bind] in E.
  destruct (op_status o) as [i| | | |] eqn:Est; try done. destruct (si_ops _ _ _ _ s I id o Ho) as [base Io].
  rewrite (qo_targets _ _ _ _ _ _ (oi_query _ _ _ _ _ _ _ Io)) in E.
  destruct (i =? length T)%nat eqn:Ei; [|done]. apply Nat.eqb_eq in Ei. subst i. cbn [negb] in E.
  destruct (if is_write (op_kind o) then _ else _) as [[[[c' st] v] w]|] eqn:Ed in E; [|done]. cbn [mbind option_bind] in E.
  injection E as Es. rewrite with_done_eq in Es. subst s'.
  set (o' := set_decided v w st o). set (done' := sy_done s ++ (if is_returned st then [id] else [])).
  assert (Hd : done' = sy_done s ++ newly id o o') by (unfold newly; rewrite Est; cbn; by rewrite andb_true_r).
  assert (Hx : extends o o') by (split; [done|done|by rewrite (querying_unsettled s base o _ Io Est)|by rewrite Est]).
  set (s1 := mkSys (sy_now s) (<[op_node o := c']> (sy_nodes s)) (<[id := o']> (sy_ops s)) done').
  change (keeps key T s s1) in K. change (in_range s1) in Rg. change (lasting key s1) in La. change (sys_inv s1).
  assert (Kop : exists ov, touched key (sy_now s) c c' ov /\ (forall st, ov = Some st -> issued s st) /\
    forall s2, grows s s2 -> op_inv s2 base o').
  { destruct (is_write (op_kind o)) eqn:Ek.
    - destruct (decide_write_inv key T R W T_nodup quorums_meet W_fits s base o ms c c' st v w I Io Ek Est Hc Ed) as [Ht Hop].
      + apply (Rg (op_node o)). cbn [sy_nodes s1]. apply lookup_insert_eq.
      + by exists None.
    - by apply (decide_read_inv key T R W T_nodup quorums_meet W_fits s base o c c' st v w). }
  destruct Kop as (ov & Ht & Hi & Hop).
  apply (inv_op_node s id o o' (op_node o) c c' ov done'); try done.
  - intros x Hx'. by apply (issued_update s id o), Hi.
  - intros G _. exists base. by apply Hop.
Qed.

Lemma step_write id : sys_step key (AWrite id) s = Some s' -> sys_inv s'.
Proof.
  cbn [sys_step]. intros E. destruct (sy_ops s !! id) as [o|] eqn:Ho; [|done]. cbn [mbind option_bind] in E.
  destruct (sy_nodes s !! op_node o) as [c|] eqn:Hc; [|done]. cbn [mbind option_bind] in E.
  destruct (op_write o) as [w|] eqn:Hw; [|done]. cbn [mbind option_bind] in E.
  destruct (op_status o) as [|[|node todo]| | |] eqn:Est; try done.
  destruct (replicate_target _ _ _ _) as [[c' w']|] eqn:Er in E; [|done]. cbn [mbind option_bind] in E. injection E as Es. subst s'.
  destruct (si_ops _ _ _ _ s I id o Ho) as [base Io].
  destruct (replicate_target_inv' key T R W T_nodup quorums_meet W_fits s base o w node todo c c' w' I Io Est Hw Hc Er) as (ov & Ht & Hv & Hop).
  set (o' := set_write w' (Writing todo) o).
  assert (Hx : extends o o') by (split; [done|done|done|by rewrite Est]).
  apply (inv_op_node s id o o' (op_node o) c c' ov (sy_done s)); try done.
  - unfold newly. by rewrite app_nil_r.
  - intros st Hst. destruct (Hv st Hst) as (v & Ev & ->). apply (issued_update s id o); [done|done|].
    by eapply value_issued.
  - intros G Hvw. exists base. by apply Hop.
Qed.

Lemma step_serve_set id node : sys_step key (AServeSet id node) s = Some s' -> sys_inv s'.
Proof.
  cbn [sys_step]. intros E. destruct (sy_ops s !! id) as [o|] eqn:Ho; [|done]. cbn [mbind option_bind] in E.
  destruct (op_write o) as [w|] eqn:Hw; [|done]. cbn [mbind option_bind] in E. case_bool_decide as Hp; [|done]. cbn [negb] in E.
  destruct (sy_nodes s !! cn_id node) as [c|] eqn:Hc; [|done]. cbn [mbind option_bind] in E.
  destruct (Cluster_apply_replica_write _ _ _ c) as [[c' live]|] eqn:Ea in E; [|done]. cbn [mbind option_bind] in E.
  injection E as Es. subst s'. destruct (si_ops _ _ _ _ s I id o Ho) as [base Io].
  destruct (si_nodes _ _ _ _ s I _ c Hc) as [M V].
  destruct (oi_write _ _ _ _ _ _ _ Io w Hw) as (v & Hv & [W1 W2 W3 W4 W5]). rewrite W2 in Ea.
  destruct (oi_value _ _ _ _ _ _ _ Io v Hv) as (_ & _ & Htomb & _).
  pose proof (replica_write_touched key T R W T_nodup quorums_meet W_fits _ _ _ _ _ (mb_wf _ _ _ _ _ _ M) (received_pos v) Ea) as Ht.
  rewrite received_stamp in Ht by done. set (o' := add_ack _ _ o).
  assert (HnT : node ∈ T) by (destruct W4 as (A & Hd & P1 & _); rewrite P1; set_solver).
  apply (inv_op_node s id o o' (cn_id node) c c' (Some (stamp_of_vv v)) (sy_done s)); try done.
  - by rewrite newly_same, app_nil_r.
  - intros st [= <-]. apply (issued_update s id o); [done|done|]. by eapply value_issued.
  - intros G Hvw. exists base. set (s1 := with_op _ _ _) in *. change (grows s s1) in G.
    pose proof (op_inv_grows key T R W T_nodup quorums_meet W_fits s s1 base o G Io) as [Ib If Ip It Iq Iv Ia Iw Is].
    assert (Hst : forall k, op_status o <> Querying k).
    { intros k Ek. pose proof (oi_status _ _ _ _ _ _ _ Io) as Hst. unfold status_ok in Hst. rewrite Ek in Hst. by destruct Hst as (_ & ? & _); congruence. }
    split; try done.
    + by destruct Iq.
    + intros w0 Hw0. cbn in Hw0. destruct (Iw w0 Hw0) as (u & Hu & [U1 U2 U3 U4 U5]). exists u. split; [done|]. split; try done.
      intros n reply Hr. cbn in Hr. apply elem_of_app in Hr as [Hr|Hr%list_elem_of_singleton]; [by apply (U5 n reply)|].
      injection Hr as -> ->. split; [done|]. change (ostamp_le (Some (stamp_of_vv u)) (view s1 (cn_id node))).
      change (view s1 (cn_id node) = vs_view (sy_now s) key (cl_cache c')) in Hvw.
      rewrite Hvw, (to_view _ _ _ _ _ Ht). replace u with v by congruence. apply ostamp_le_max_r.
    + unfold status_ok in *. cbn [op_status o' add_ack]. destruct (op_status o) eqn:Eo; try done. by destruct (Hst i).
Qed.

Lemma step_ack id node d : sys_step key (AAck id node d) s = Some s' -> sys_inv s'.
Proof.
  cbn [sys_step]. intros E. destruct (sy_ops s !! id) as [o|] eqn:Ho; [|done]. cbn [mbind option_bind] in E.
  destruct (delivered node (op_acks o) d) as [res|] eqn:Ed; [|done]. cbn [mbind option_bind] in E.
  destruct (sy_nodes s !! op_node o) as [c|] eqn:Hc; [|done]. cbn [mbind option_bind] in E.
  destruct (op_write o) as [w|] eqn:Hw; [|done]. cbn [mbind option_bind] in E. case_bool_decide as Hp; [|done].
  destruct (replicate_reply _ _ _ _ _) as [[c' w']|] eqn:Er in E; [|done]. cbn [mbind option_bind] in E. injection E as Es. subst s'.
  destruct (si_ops _ _ _ _ s I id o Ho) as [base Io].
  destruct (replicate_reply_inv' key T R W T_nodup quorums_meet W_fits s base o w node d res c c' w' I Io Hw Hp Ed Hc Er) as [Ht Hop].
  apply (inv_op_node s id o (set_write w' (op_status o) o) (op_node o) c c' None (sy_done s)); try done.
  - by rewrite newly_same, app_nil_r.
  - intros G _. exists base. by apply Hop.
Qed.

Lemma step_finish id : sys_step key (AFinish id) s = Some s' -> sys_inv s'.
Proof.
  cbn [sys_step]. intros E. destruct (sy_ops s !! id) as [o|] eqn:Ho; [|done]. cbn [mbind option_bind] in E.
  destruct (sy_nodes s !! op_node o) as [c|] eqn:Hc; [|done]. cbn [mbind option_bind] in E.
  destruct (op_write o) as [w|] eqn:Hw; [|done]. cbn [mbind option_bind] in E.
  destruct (op_status o) as [|[|node todo]| | |] eqn:Est; try done.
  destruct (finish_write (op_kind o) w c) as [c' st] eqn:Ef. injection E as Es. rewrite with_done_eq in Es. subst s'.
  destruct (si_ops _ _ _ _ s I id o Ho) as [base Io].
  destruct (finish_inv key T R W T_nodup quorums_meet W_fits s base o w c c' st I Io Est Hw Hc Ef) as (Ht & Hnq & Hop).
  apply (inv_op_node s id o (set_status st o) (op_node o) c c' None (sy_done s ++ (if is_returned st then [id] else []))); try done.
  - unfold newly. rewrite Est. cbn. by rewrite andb_true_r.
  - split; [done|done|done|by rewrite Est].
  - intros G _. exists base. by apply Hop.
Qed.

(** A step of the nodes alone. *)
Lemma step_nodes :
  sy_ops s' = sy_ops s -> sy_done s' = sy_done s ->
  (forall p c', sy_nodes s' !! p = Some c' -> exists c, sy_nodes s !! p = Some c /\ node_step s s' p c c') -> sys_inv s'.
Proof.
  intros Eo Ed Hn. eapply inv_step with (s := s); try done; rewrite ?Eo, ?Ed; try apply I; try done.
  - intros j x Hj. exists x. split; [done|apply extends_refl].
  - intros j x Hj. by left.
Qed.

Lemma step_spread p v :
  sys_step key (ASpread p v) s = Some s' -> step_ok key (ASpread (S := S) p v) s -> sys_inv s'.
Proof.
  cbn [sys_step step_ok]. intros E Hp. destruct (sy_nodes s !! p) as [c|] eqn:Hc; [|done]. cbn [mbind option_bind] in E.
  destruct (issuedb (stamp_of_vv v) s) eqn:Ei; [|done].
  destruct (Cluster_apply_replica_write _ _ _ c) as [[c' live]|] eqn:Ea in E; [|done]. cbn [mbind option_bind] in E. injection E as Es.
  destruct (si_nodes _ _ _ _ s I p c Hc) as [M _].
  pose proof (replica_write_touched key T R W T_nodup quorums_meet W_fits _ _ _ _ _ (mb_wf _ _ _ _ _ _ M) Hp Ea) as Ht.
  assert (Hi : issued s (stamp_of_vv v)).
  { unfold issuedb in Ei. apply existsb_exists in Ei as (o & Ho & Hb). apply list_elem_of_In, list_elem_of_lookup in Ho as [id Ho].
    apply andb_true_iff in Hb as [Hk Hs]. apply bool_decide_eq_true_1 in Hs. by exists id, o. }
  apply step_nodes; [by subst s'|by subst s'|]. intros q d Hd. subst s'. cbn in Hd. apply lookup_insert_Some in Hd as [[<- <-]|[Hne Hd]].
  - exists c. split; [done|]. eapply touched_step; try done. by intros st [= <-].
  - exists d. split; [done|]. split; [done|]. by left.
Qed.

Lemma step_other p cache clock hints :
  sys_step key (AOther p cache clock hints) s = Some s' -> step_ok key (AOther p cache clock hints) s -> sys_inv s'.
Proof.
  cbn [sys_step step_ok]. intros E Hok. destruct (sy_nodes s !! p) as [c|] eqn:Hc; [|done]. cbn [mbind option_bind] in E.
  injection E as Es. destruct (Hok c eq_refl) as [Wc Hv]. apply step_nodes; [by subst s'|by subst s'|]. intros q d Hd. subst s'.
  cbn in Hd. apply lookup_insert_Some in Hd as [[<- <-]|[Hne Hd]]; [|exists d; split; [done|]; split; [done|]; by left].
  exists c. split; [done|]. split.
  - intros [M1 M2 M3 M4 M5 M6]. split; try done. by destruct Wc.
  - intros st Hst. cbn in Hst. left. by destruct Hv as [Hv|Hv]; rewrite Hv in Hst.
Qed.

Lemma step_tick t : sys_step key (ATick t) s = Some s' -> step_ok key (ATick (S := S) t) s -> sys_inv s'.
Proof.
  cbn [sys_step step_ok]. intros E Hle. injection E as Es. apply step_nodes; [by subst s'|by subst s'|].
  intros q d Hd. subst s'. cbn in Hd. exists d. split; [done|]. split; [done|]. intros st Hst. cbn in Hst. left.
  destruct (si_nodes _ _ _ _ s I q d Hd) as [M _].
  destruct (vs_age_law (sy_now s) t key (cl_cache d) (cw_cache d (mb_wf _ _ _ _ _ _ M)) Hle) as [Ha|Ha]; congruence.
Qed.

Lemma step_inv a : sys_step key a s = Some s' -> step_ok key a s -> sys_inv s'.
Proof.
  intros E Hok. destruct a.
  - by eapply step_invoke.
  - by eapply step_query.
  - by eapply step_serve_get.
  - by eapply step_got.
  - by eapply step_decide.
  - by eapply step_write.
  - by eapply step_serve_set.
  - by eapply step_ack.
  - by eapply step_finish.
  - by eapply step_spread.
  - by eapply step_other.
  - by eapply step_tick.
Qed.

End actions.

Lemma start_inv s : fresh_system key T R W s -> lasting key s -> sys_inv s.
Proof.
  intros [F1 F2 F3 F4] Hl. split; try done.
  - intros p c Hc. destruct (F1 p c Hc) as [M V]. split; [done|]. intros st Hst. congruence.
  - intros id o Ho. by rewrite F3 in Ho.
  - intros id o d Ho. by rewrite F3 in Ho.
  - rewrite F4. constructor.
  - intros id. rewrite F3, F4. split; [intros Hid; by apply elem_of_nil in Hid|by intros (o & Ho & _)].
Qed.

Lemma reachable_inv s0 s : fresh_system key T R W s0 -> lasting key s0 -> reachable key T s0 s -> sys_inv s.
Proof.
  intros F Hl. induction 1 as [|a s s' Hr IH E Hok Hk Hrg Hla]; [by apply start_inv|]. by eapply step_inv.
Qed.

End steps.

(** ** Linearization *)

(** An operation that took effect, or may have: it returned, or it is a write
    that chose its version. *)
Definition takes_effect (o : Op) : bool :=
  is_returned (op_status o) || is_write (op_kind o) && bool_decide (is_Some (op_value o)).

(** What a read told its client. *)
Definition read_answer (o : Op) : option bytes :=
  match op_status o with
  | ReadDone r => match read_status r with RSFound => Some (vv_value (read_value r)) | _ => None end
  | _ => None
  end.

(** A sequential history of a register that holds [cur]. *)
Fixpoint legal (cur : option bytes) (l : list Op) : Prop :=
  match l with
  | [] => True
  | o :: l' =>
      match op_kind o with
      | ORead => read_answer o = cur /\ legal cur l'
      | OPut value _ => legal (Some value) l'
      | ODel => legal None l'
      end
  end.

(** Operations in the order of their stamps; with equal stamps the writes come
    first, and otherwise the one invoked first. *)
Definition op_rank (o : Op) : nat := if is_write (op_kind o) then 0 else 1.

Definition op_le (x y : nat * Op) : Prop :=
  ostamp_lt (op_stamp x.2) (op_stamp y.2) \/
  op_stamp x.2 = op_stamp y.2 /\
    ((op_rank x.2 < op_rank y.2)%nat \/ op_rank x.2 = op_rank y.2 /\ (x.1 <= y.1)%nat).

#[export] Instance ostamp_le_dec : RelDecision ostamp_le.
Proof. intros a b. unfold ostamp_le. apply _. Defined.

#[export] Instance ostamp_lt_dec : RelDecision ostamp_lt.
Proof. intros a b. unfold ostamp_lt. apply _. Defined.

#[export] Instance op_le_dec : RelDecision op_le.
Proof. intros x y. unfold op_le. apply _. Defined.

Lemma ostamp_le_antisym a b : ostamp_le a b -> ostamp_le b a -> a = b.
Proof. unfold ostamp_le. intros H1 H2. by rewrite <-H1, <-H2 at 1; rewrite ostamp_max_comm, H1. Qed.

Lemma ostamp_lt_trans a b c : ostamp_lt a b -> ostamp_lt b c -> ostamp_lt a c.
Proof.
  intros [H1 N1] [H2 N2]. split; [by etrans|]. intros ->. apply N1. by apply ostamp_le_antisym.
Qed.

Lemma ostamp_trichotomy a b : ostamp_lt a b \/ a = b \/ ostamp_lt b a.
Proof.
  destruct (decide (a = b)) as [->|Hne]; [auto|]. unfold ostamp_lt, ostamp_le.
  destruct a as [x|], b as [y|]; [|right; right; done|left; done|done]. unfold ostamp_max, stamp_max.
  destruct (stamp_gtb_total x y) as [G|[->|G]]; [|done|]; rewrite ?G, ?(stamp_gtb_asym _ _ G); auto.
Qed.

#[export] Instance op_le_trans : Transitive op_le.
Proof.
  intros x y z [H1|(E1 & H1)] [H2|(E2 & H2)]; unfold op_le.
  - left. by eapply ostamp_lt_trans.
  - left. by rewrite <-E2.
  - left. by rewrite E1.
  - right. split; [congruence|]. lia.
Qed.

#[export] Instance op_le_total : Total op_le.
Proof.
  intros x y. unfold op_le. destruct (ostamp_trichotomy (op_stamp x.2) (op_stamp y.2)) as [Hl|[He|Hl]]; [auto| |auto].
  rewrite He. destruct (Nat.lt_trichotomy (op_rank x.2) (op_rank y.2)) as [?|[?|?]]; [auto| |auto].
  destruct (Nat.le_ge_cases x.1 y.1); auto 8.
Qed.

Lemma op_le_stamp x y : op_le x y -> ostamp_le (op_stamp x.2) (op_stamp y.2).
Proof. intros [[Hl _]|[-> _]]; [done|reflexivity]. Qed.

(** What a register holds after the writes up to stamp [m]. *)
Definition stamp_content (m : option Stamp) : option bytes :=
  match m with Some st => if st_tombstone st then None else Some (st_value st) | None => None end.

Definition op_content_ok (o : Op) : Prop :=
  match op_kind o with
  | ORead => read_answer o = stamp_content (op_stamp o)
  | OPut value _ => stamp_content (op_stamp o) = Some value
  | ODel => stamp_content (op_stamp o) = None
  end.

Lemma legal_sorted (l : list (nat * Op)) m :
  StronglySorted op_le l -> Forall (fun x => op_content_ok x.2) l ->
  Forall (fun x => ostamp_le m (op_stamp x.2)) l ->
  (forall x, x ∈ l -> is_write (op_kind x.2) = false ->
     op_stamp x.2 = m \/ exists y, y ∈ l /\ is_write (op_kind y.2) = true /\ op_stamp y.2 = op_stamp x.2) ->
  legal (stamp_content m) l.*2.
Proof.
  revert m. induction l as [|x l IH]; intros m Hs Hc Hm Hw; [done|].
  apply StronglySorted_inv in Hs as [Hs Hx]. apply Forall_cons in Hc as [Hcx Hc]. apply Forall_cons in Hm as [Hmx Hm].
  rewrite Forall_forall in Hx. destruct (is_write (op_kind x.2)) eqn:Ek.
  - assert (Hl : legal (stamp_content (op_stamp x.2)) l.*2).
    { apply IH; [done|done|apply Forall_forall; intros y Hy; by apply op_le_stamp, Hx|].
      intros y Hy Hk. destruct (Hw y) as [E|(z & Hz & Kz & Ez)]; [by right|done| |].
      - left. apply ostamp_le_antisym; [rewrite E; by apply Hmx|by apply op_le_stamp, Hx].
      - apply elem_of_cons in Hz as [->|Hz]; [by left|right; eauto]. }
    cbn. unfold op_content_ok in Hcx. by destruct (op_kind x.2); [done|rewrite Hcx in Hl|rewrite Hcx in Hl].
  - assert (Em : op_stamp x.2 = m).
    { destruct (Hw x) as [E|(z & Hz & Kz & Ez)]; [by left|done|done|]. apply elem_of_cons in Hz as [->|Hz]; [congruence|].
      destruct (Hx z Hz) as [[_ Hl]|(_ & Hr)]; [congruence|]. unfold op_rank in Hr. rewrite Ek, Kz in Hr. lia. }
    assert (Hl : legal (stamp_content m) l.*2).
    { apply IH; try done. intros y Hy Hk. destruct (Hw y) as [E|(z & Hz & Kz & Ez)]; [by right|done|by left|].
      apply elem_of_cons in Hz as [->|Hz]; [congruence|right; eauto]. }
    cbn. unfold op_content_ok in Hcx. destruct (op_kind x.2); [|done|done]. rewrite Hcx, Em. done.
Qed.

Section linearizable.
Context {S : Type} `{VersionedStoreLaws S}.
Implicit Types (s : Sys (S := S)) (o : Op).

(** The operations that take effect, with their numbers. *)
Definition effects s : list (nat * Op) :=
  List.filter (fun x => takes_effect x.2) (imap pair (sy_ops s)).

Lemma effects_elem s id o : (id, o) ∈ effects s <-> sy_ops s !! id = Some o /\ takes_effect o = true.
Proof.
  unfold effects. rewrite list_elem_of_In, List.filter_In, <-list_elem_of_In, elem_of_lookup_imap. cbn. split.
  - intros [(i & x & E & Hx) Ht]. injection E as -> ->. done.
  - intros [Hx Ht]. split; [eauto|done].
Qed.

Lemma effects_nodup s : NoDup (effects s).*1.
Proof.
  unfold effects. apply (NoDup_fmap_filter fst).
  assert (E : (imap pair (sy_ops s)).*1 = seq 0 (length (sy_ops s))).
  { apply list_eq. intros i. rewrite list_lookup_fmap, list_lookup_imap. destruct (sy_ops s !! i) as [o|] eqn:Ho; cbn.
    - rewrite lookup_seq_lt; [done|]. by eapply lookup_lt_Some.
    - rewrite lookup_seq_ge; [done|]. by apply lookup_ge_None_1. }
  rewrite E. apply NoDup_seq.
Qed.

Lemma omap_ops s (l : list (nat * Op)) :
  (forall x, x ∈ l -> sy_ops s !! x.1 = Some x.2) -> omap (fun id => sy_ops s !! id) l.*1 = l.*2.
Proof.
  induction l as [|x l IH]; intros Hl; [done|]. cbn. rewrite (Hl x) by (by left). f_equal. apply IH. intros y Hy. apply Hl. by right.
Qed.

Variables (key : bytes) (T : list CacheNode) (R W : nat).

Lemma effect_settled o : takes_effect o = true -> settled o = true.
Proof. unfold takes_effect, settled. destruct (is_returned _), (is_write _), (bool_decide _); done. Qed.

Lemma effect_content s base o : op_inv key T R W s base o -> takes_effect o = true -> op_content_ok o.
Proof.
  intros Io Ht. pose proof (oi_status _ _ _ _ _ _ _ Io) as Hst. pose proof (oi_value _ _ _ _ _ _ _ Io) as Hv.
  assert (Hw : is_write (op_kind o) = true -> is_Some (op_value o)).
  { intros Ek. unfold takes_effect in Ht. rewrite Ek in Ht. unfold status_ok in Hst. destruct (op_status o); cbn in Ht;
      try (by apply bool_decide_eq_true_1 in Ht); destruct Hst as (? & ? & _); [congruence|done]. }
  unfold op_content_ok. destruct (op_kind o) as [|value ttl|] eqn:Ek.
  - unfold takes_effect in Ht. rewrite Ek in Ht. unfold status_ok in Hst. rewrite Ek in Hst.
    unfold read_answer, op_stamp, stamp_content. destruct (op_status o); try done; destruct Hst as (? & Hr & _); [|done].
    rewrite Hr. destruct (op_value o) as [v|]; [|done]. cbn. by destruct (vv_tombstone v).
  - destruct Hw as [v Ev]; [done|]. destruct (Hv v Ev) as (_ & _ & _ & Hk). rewrite Ek in Hk. cbn in Hk.
    unfold op_stamp, stamp_content. rewrite Ev, Hk. done.
  - destruct Hw as [v Ev]; [done|]. destruct (Hv v Ev) as (_ & _ & _ & Hk). rewrite Ek in Hk. cbn in Hk.
    unfold op_stamp, stamp_content. rewrite Ev, Hk. done.
Qed.

Lemma sorted_lookup {A} (le : A -> A -> Prop) l i j x y :
  StronglySorted le l -> (i < j)%nat -> l !! i = Some x -> l !! j = Some y -> le x y.
Proof.
  intros Hs. revert i j. induction Hs as [|a l Hs IH Ha]; intros i j Hij Hx Hy; [done|].
  destruct j as [|j]; [lia|]. cbn in Hy. destruct i as [|i]; cbn in Hx.
  - injection Hx as ->. rewrite Forall_forall in Ha. apply Ha. by eapply list_elem_of_lookup_2.
  - apply (IH i j); [lia|done|done].
Qed.

(** Real time is in the order of the stamps. *)
Lemma real_time_le s a oa b ob :
  sys_inv key T R W s -> sy_ops s !! a = Some oa -> sy_ops s !! b = Some ob -> takes_effect ob = true ->
  a ∈ take (op_floor ob) (sy_done s) -> op_le (a, oa) (b, ob) /\ a <> b.
Proof.
  intros I Ha Hb Ht Hd. pose proof (si_order _ _ _ _ s I b ob a Hb Hd) as Hlt. split; [|lia].
  destruct (si_ops _ _ _ _ s I b ob Hb) as [base Ib].
  pose proof (oi_above _ _ _ _ _ _ _ Ib (effect_settled ob Ht) a Hd) as Hab.
  unfold stamp_at in Hab. rewrite Ha in Hab. cbn [mbind option_bind] in Hab. unfold op_le. cbn [fst snd].
  destruct (is_write (op_kind ob)) eqn:Ek; [by left|]. destruct (decide (op_stamp oa = op_stamp ob)) as [E|Hne]; [|by left].
  right. split; [done|]. unfold op_rank. rewrite Ek. destruct (is_write (op_kind oa)); [left; lia|right; lia].
Qed.

Lemma op_le_antisym (x y : nat * Op) : op_le x y -> op_le y x -> x.1 = y.1.
Proof.
  intros [[H1 N1]|[E1 H1]] [[H2 N2]|[E2 H2]]; try congruence; [|lia]. destruct N1. by apply ostamp_le_antisym.
Qed.

(** A sequence of the operations of [s] that took effect which every read
    agrees with, and in which an operation that had returned when another was
    invoked comes before it. *)
Definition linearization s (L : list nat) : Prop :=
  (NoDup L /\ forall id, id ∈ L <-> exists o, sy_ops s !! id = Some o /\ takes_effect o = true) /\
  legal None (omap (fun id => sy_ops s !! id) L) /\
  forall i j a b ob, L !! i = Some a -> L !! j = Some b -> sy_ops s !! b = Some ob ->
    a ∈ take (op_floor ob) (sy_done s) -> (i < j)%nat.

Lemma linearization_exists s :
  NoDup (cn_id <$> T) -> (length T < R + W)%nat -> (W <= length T)%nat -> sys_inv key T R W s ->
  exists L, linearization s L.
Proof.
  intros HT HQ HW I.
  set (E := merge_sort op_le (effects s)). assert (HP : E ≡ₚ effects s) by apply merge_sort_Permutation.
  assert (HE : forall x, x ∈ E -> sy_ops s !! x.1 = Some x.2 /\ takes_effect x.2 = true).
  { intros [id o] Hx. rewrite HP in Hx. by apply effects_elem in Hx. }
  assert (Hs : StronglySorted op_le E) by (apply StronglySorted_merge_sort; apply _).
  exists E.*1. split; [split|split].
  - rewrite HP. apply effects_nodup.
  - intros id. rewrite HP, list_elem_of_fmap. split.
    + intros ([i o] & -> & Hx). apply effects_elem in Hx. eauto.
    + intros (o & Ho & Ht). exists (id, o). split; [done|]. by apply effects_elem.
  - rewrite omap_ops by (intros x Hx; by apply HE). apply (legal_sorted E None); [done| | |].
    + apply Forall_forall. intros x Hx. destruct (HE x Hx) as [Ho Ht]. destruct (si_ops _ _ _ _ s I _ _ Ho) as [base Io].
      by eapply effect_content.
    + apply Forall_forall. intros x Hx. done.
    + intros x Hx Hk. destruct (HE x Hx) as [Ho Ht]. destruct (si_ops _ _ _ _ s I _ _ Ho) as [base Io].
      destruct (op_value x.2) as [v|] eqn:Ev; [|left; unfold op_stamp; by rewrite Ev]. right.
      destruct (oi_value _ _ _ _ _ _ _ Io v Ev) as (_ & _ & _ & Hi). rewrite Hk in Hi.
      destruct Hi as (id & o & Ho' & Hw & Hst). exists (id, o). split; [|split; [done|]].
      * rewrite HP. apply effects_elem. split; [done|]. unfold takes_effect. rewrite Hw. unfold op_stamp in Hst.
        destruct (op_value o); [|done]. rewrite bool_decide_eq_true_2 by eauto. apply orb_true_r.
      * unfold op_stamp at 2. cbn. by rewrite Ev.
  - intros i j a b ob Hi Hj Hb Hd. rewrite list_lookup_fmap in Hi, Hj.
    destruct (E !! i) as [[a' oa]|] eqn:Ei; [|done]. destruct (E !! j) as [[b' ob']|] eqn:Ej; [|done].
    cbn in Hi, Hj. injection Hi as ->. injection Hj as ->.
    destruct (HE (a, oa)) as [Ha _]; [by eapply list_elem_of_lookup_2|].
    destruct (HE (b, ob')) as [Hb' Ht]; [by eapply list_elem_of_lookup_2|]. cbn in *.
    rewrite Hb in Hb'. injection Hb' as <-. destruct (real_time_le s a oa b ob I Ha Hb Ht Hd) as [Hle Hne].
    destruct (Nat.lt_trichotomy i j) as [?|[->|Hlt]]; [done|congruence|]. exfalso. apply Hne.
    assert (Hba : op_le (b, ob) (a, oa)) by (by eapply (sorted_lookup op_le E)).
    apply (op_le_antisym _ _ Hle Hba).
Qed.

(** C1: Linearizable mode is linearizable.  Take any run of a cluster whose
    read and write quorums overlap, with any number of coordinators serving
    reads, writes and deletes of one key at once, messages delayed, lost or
    delivered late, and hints and repairs spreading values, in which no replica
    loses the key.  The reads that returned, the writes that were acknowledged,
    and the writes whose outcome is unknown can be put in one sequence such
    that every read returns the last value written before it in the sequence,
    and whatever had returned before an operation was invoked comes before it. *)
Theorem register_linearizable s0 s :
  NoDup (cn_id <$> T) -> (length T < R + W)%nat -> (W <= length T)%nat ->
  fresh_system key T R W s0 -> lasting key s0 -> reachable key T s0 s ->
  exists L : list nat, linearization s L.
Proof.
  intros HT HQ HW F Hl Hr. apply linearization_exists; [done..|]. by eapply reachable_inv.
Qed.

End linearizable.

(** ** A run *)

Section run.
Context {S : Type} `{VersionedStoreLaws S}.
Variables (key : bytes) (T : list CacheNode).

Definition ttlb (v : VersionedValue) : bool := match vv_ttl v with Some ms => 0 <? ms | None => true end.

(** The conditions on a run, decided. *)
Definition step_okb (a : Action (S := S)) (s : Sys (S := S)) : bool :=
  match a with
  | AInvoke _ kind => ttlb (write_value kind 0)
  | ASpread _ v => ttlb v
  | AOther _ _ _ _ => false
  | ATick t => sy_now s <=? t
  | _ => true
  end.

Definition node_okb (now : Z) (x : bytes * Cluster S) : bool :=
  (0 <=? cl_clock x.2) && (cl_clock x.2 <? 2 ^ 64 - 1) &&
  match vs_get_versioned now key (cl_cache x.2) with Some (_, Some v) => ttlb v | _ => true end.

Definition state_okb (s : Sys (S := S)) : bool := forallb (node_okb (sy_now s)) (map_to_list (sy_nodes s)).

Definition keepsb (s s' : Sys (S := S)) : bool :=
  forallb (fun n => bool_decide (ostamp_le (view key s (cn_id n)) (view key s' (cn_id n)))) T.

Fixpoint run (acts : list (Action (S := S))) (s : Sys (S := S)) : option (Sys (S := S)) :=
  match acts with
  | [] => Some s
  | a :: acts' =>
      s' ← sys_step key a s;
      if step_okb a s && keepsb s s' && state_okb s' then run acts' s' else None
  end.

Lemma ttlb_ok v : ttlb v = true -> ttl_positive v.
Proof using Type. unfold ttlb. intros E ms Em. rewrite Em in E. by apply Z.ltb_lt. Qed.

Lemma state_okb_ok s : state_okb s = true -> in_range s /\ lasting key s.
Proof using Type.
  intros E. unfold state_okb in E. rewrite forallb_forall in E.
  assert (K : forall p c, sy_nodes s !! p = Some c -> node_okb (sy_now s) (p, c) = true).
  { intros p c Hc. apply E, list_elem_of_In, elem_of_map_to_list, Hc. }
  split.
  - intros p c Hc. specialize (K p c Hc). unfold node_okb in K. cbn [snd] in K. rewrite !andb_true_iff in K.
    destruct K as [[K1 K2] _]. apply Z.leb_le in K1. apply Z.ltb_lt in K2. split; done.
  - intros p c cache v Hc Eg. specialize (K p c Hc). unfold node_okb in K. cbn [snd] in K. rewrite Eg in K.
    rewrite !andb_true_iff in K. by apply ttlb_ok, K.
Qed.

Lemma run_reachable s0 acts s s' : reachable key T s0 s -> run acts s = Some s' -> reachable key T s0 s'.
Proof.
  revert s. induction acts as [|a acts IH]; intros s Hr E; cbn [run] in E; [by injection E as <-|].
  destruct (sys_step key a s) as [s1|] eqn:Es; [|done]. cbn [mbind option_bind] in E.
  destruct (step_okb a s && keepsb s s1 && state_okb s1) eqn:Eb; [|done]. rewrite !andb_true_iff in Eb.
  destruct Eb as [[B1 B2] B3]. destruct (state_okb_ok s1 B3) as [Hi Hl]. apply (IH s1); [|done].
  eapply reach_step; try done.
  - destruct a; cbn in *; try done; [by apply ttlb_ok|by apply ttlb_ok|by apply Z.leb_le].
  - intros n Hn. unfold keepsb in B2. rewrite forallb_forall in B2.
    specialize (B2 n ltac:(by apply list_elem_of_In)). by apply bool_decide_eq_true_1 in B2.
Qed.
End run.

(** Node a writes, node b acknowledges; then node c reads, and writes the value
    back before it answers. *)
Definition sample_member (n : CacheNode) : Cluster Cache :=
  mkCluster (mkConfig 0 0 10 Linearizable)
    (mkMembership n 3 (Ring_run 4 ring3) {[lit "a" := node_a; lit "b" := node_b; lit "c" := node_c]} ∅ ∅
       (RoutingTable_new (Ring_run 4 ring3) 3 (cn_id n)) HealthChecker_new false [])
    100 (Cache_new 10 60000) ∅ (mkCounters 0 0 0 0 0 0) [].

Definition sample_sys : Sys (S := Cache) :=
  mkSys 0 {[lit "a" := sample_member node_a; lit "b" := sample_member node_b; lit "c" := sample_member node_c]} [] [].

Definition sample_actions : list (Action (S := Cache)) :=
  [AInvoke (lit "a") (OPut (lit "c0-0") None); AQuery 0; AQuery 0; AQuery 0; AServeGet 0 index_b; AGot 0 index_b (DReply 0);
   ADecide 0 5; AWrite 0; AWrite 0; AWrite 0; AServeSet 0 node_b; AAck 0 node_b (DReply 0); AFinish 0;
   AInvoke (lit "c") ORead; AQuery 1; AQuery 1; AQuery 1; AServeGet 1 index_b; AGot 1 index_b (DReply 0);
   ADecide 1 0; AWrite 1; AWrite 1; AWrite 1; AServeSet 1 node_b; AAck 1 node_b (DReply 0); AFinish 1].

Lemma sample_member_ok n : n = node_a \/ n = node_b \/ n = node_c ->
  member sample_key sample_targets 2 2 (cn_id n) (sample_member n) /\
  vs_view 0 sample_key (cl_cache (sample_member n)) = None.
Proof.
  intros Hn. split; [|vm_compute; reflexivity].
  split; [|destruct Hn as [-> | [-> | ->]]; vm_compute; reflexivity..].
  split.
  - split; [by apply new_wf|done].
  - simpl. lia.
  - intros id q Hq. cbn [cl_hints sample_member] in Hq. by rewrite lookup_empty in Hq.
  - exists (Ring_run 4 ring3). split; [apply Ring_run_wf|]. split; [vm_compute; discriminate|reflexivity].
Qed.

Lemma sample_fresh : fresh_system sample_key sample_targets 2 2 sample_sys /\ lasting sample_key sample_sys.
Proof.
  assert (B : state_okb sample_key sample_sys = true) by (vm_compute; reflexivity).
  destruct (state_okb_ok sample_key sample_sys B) as [Hi Hl]. split; [|exact Hl].
  split; [|exact Hi|reflexivity|reflexivity]. intros p c Hc. cbn [sy_nodes sample_sys] in Hc. cbn [sy_now sample_sys].
  apply lookup_insert_Some in Hc as [[<- <-]|[_ Hc]]; [apply (sample_member_ok node_a); auto|].
  apply lookup_insert_Some in Hc as [[<- <-]|[_ Hc]]; [apply (sample_member_ok node_b); auto|].
  apply lookup_singleton_Some in Hc as [<- <-]. apply (sample_member_ok node_c); auto.
Qed.

Lemma register_linearizable_witness :
  exists s L, run sample_key sample_targets sample_actions sample_sys = Some s /\
    sy_done s = [0%nat; 1%nat] /\ (read_answer <$> sy_ops s) = [None; Some (lit "c0-0")] /\
    legal None (omap (fun id => sy_ops s !! id) L) /\ forall id, id ∈ L <-> id = 0%nat \/ id = 1%nat.
Proof.
  assert (X : (fun s => (sy_done s, read_answer <$> sy_ops s, takes_effect <$> sy_ops s)) <$>
    run sample_key sample_targets sample_actions sample_sys =
    Some ([0%nat; 1%nat], [None; Some (lit "c0-0")], [true; true])) by (vm_compute; reflexivity).
  destruct (run sample_key sample_targets sample_actions sample_sys) as [s|] eqn:E; [|discriminate X].
  cbn [fmap option_fmap option_map] in X. apply (inj Some) in X. injection X as X1 X2 X3.
  destruct sample_fresh as [F Hl].
  destruct (register_linearizable sample_key sample_targets 2 2 sample_sys s) as (L & [_ HL] & Hleg & _).
  + by_eval.
  + vm_compute. lia.
  + vm_compute. lia.
  + exact F.
  + exact Hl.
  + eapply run_reachable; [apply reach_start|exact E].
  + exists s, L. split; [reflexivity|]. split; [exact X1|]. split; [exact X2|]. split; [exact Hleg|].
    intros id. rewrite HL. split.
    * intros (o & Ho & _). apply lookup_lt_Some in Ho. apply (f_equal length) in X3. rewrite length_fmap in X3.
      cbn in X3. lia.
    * intros Hid. assert (Ht : (takes_effect <$> sy_ops s) !! id = Some true) by (rewrite X3; destruct Hid as [->| ->]; reflexivity).
      rewrite list_lookup_fmap in Ht. destruct (sy_ops s !! id) as [o|]; [|discriminate Ht]. cbn in Ht.
      apply (inj Some) in Ht. exists o. split; [reflexivity|exact Ht].
Defined.

(** ** Quorums that do not overlap *)

(** The same nodes with READ_QUORUM=1 and WRITE_QUORUM=1.  Node a writes, and its
    own copy is quorum enough; then node c reads, and asks nobody else. *)
Definition small_member (n : CacheNode) : Cluster Cache :=
  mkCluster (mkConfig 1 1 10 Linearizable) (cl_mem (sample_member n)) 100 (Cache_new 10 60000) ∅ (mkCounters 0 0 0 0 0 0) [].

Definition small_sys : Sys (S := Cache) :=
  mkSys 0 {[lit "a" := small_member node_a; lit "b" := small_member node_b; lit "c" := small_member node_c]} [] [].

Definition small_actions : list (Action (S := Cache)) :=
  [AInvoke (lit "a") (OPut (lit "v") None); AQuery 0; AQuery 0; AQuery 0; ADecide 0 5; AWrite 0; AWrite 0; AWrite 0; AFinish 0;
   AInvoke (lit "c") ORead; AQuery 1; AQuery 1; AQuery 1; ADecide 1 0].

Lemma small_member_ok n : n = node_a \/ n = node_b \/ n = node_c ->
  member sample_key sample_targets 1 1 (cn_id n) (small_member n) /\
  vs_view 0 sample_key (cl_cache (small_member n)) = None.
Proof.
  intros Hn. split; [|vm_compute; reflexivity].
  split; [|destruct Hn as [-> | [-> | ->]]; vm_compute; reflexivity..].
  destruct (sample_member_ok n Hn) as [[[W1 W2 W3 W4] _ _ _ _ _] _]. by split.
Qed.

Lemma small_fresh : fresh_system sample_key sample_targets 1 1 small_sys.
Proof.
  assert (B : state_okb sample_key small_sys = true) by (vm_compute; reflexivity).
  destruct (state_okb_ok sample_key small_sys B) as [Hi _].
  split; [|exact Hi|reflexivity|reflexivity]. intros p c Hc. cbn [sy_nodes small_sys] in Hc. cbn [sy_now small_sys].
  apply lookup_insert_Some in Hc as [[<- <-]|[_ Hc]]; [apply (small_member_ok node_a); auto|].
  apply lookup_insert_Some in Hc as [[<- <-]|[_ Hc]]; [apply (small_member_ok node_b); auto|].
  apply lookup_singleton_Some in Hc as [<- <-]. apply (small_member_ok node_c); auto.
Qed.

(** Linearizable mode does not by itself make a cluster linearizable: with
    quorums of one, which the configuration accepts, a read that starts after a
    write was acknowledged can miss it. *)
Theorem small_quorums_not_linearizable :
  exists s, fresh_system sample_key sample_targets 1 1 small_sys /\ reachable sample_key sample_targets small_sys s /\
    forall L, ~ linearization s L.
Proof.
  assert (X : (fun s => (sy_done s, (fun o => (op_kind o, read_answer o, op_floor o)) <$> sy_ops s, takes_effect <$> sy_ops s)) <$>
    run sample_key sample_targets small_actions small_sys =
    Some ([0; 1]%nat, [(OPut (lit "v") None, None, 0%nat); (ORead, None, 1%nat)], [true; true])) by (vm_compute; reflexivity).
  destruct (run sample_key sample_targets small_actions small_sys) as [s|] eqn:E; [|discriminate X].
  cbn [fmap option_fmap option_map] in X. apply (inj Some) in X. injection X as X1 X2 X3.
  exists s. split; [apply small_fresh|]. split; [eapply run_reachable; [apply reach_start|exact E]|].
  clear E. intros L ([ND HL] & Hleg & Hord).
  destruct (sy_ops s) as [|w [|r [|]]] eqn:Eo; try discriminate X2. cbn in X2, X3. injection X2 as Kw _ _ Kr Ar Fr. injection X3 as Tw Tr.
  assert (H0 : 0%nat ∈ L) by (apply HL; exists w; done). assert (H1 : 1%nat ∈ L) by (apply HL; exists r; done).
  apply list_elem_of_lookup in H0 as [i Hi]. apply list_elem_of_lookup in H1 as [j Hj].
  assert (Hij : (i < j)%nat).
  { eapply (Hord i j 0%nat 1%nat r); [done|done|done|]. rewrite Fr, X1. by left. }
  assert (HP : L = [0; 1]%nat).
  { assert (Hs : forall x, x ∈ L -> x = 0%nat \/ x = 1%nat).
    { intros x Hx. apply HL in Hx as (o & Ho & _). apply lookup_lt_Some in Ho. cbn in Ho. lia. }
    assert (HL2 : L ≡ₚ [0; 1]%nat).
    { apply NoDup_Permutation; [done|by apply (bool_decide_eq_true_1 _)|]. intros x. split.
      - intros Hx. destruct (Hs x Hx) as [->| ->]; set_solver.
      - intros Hx. assert (x = 0%nat \/ x = 1%nat) as [->| ->] by set_solver; by eapply list_elem_of_lookup_2. }
    pose proof (Permutation_length HL2) as Hlen. destruct L as [|a [|b [|]]]; try discriminate Hlen.
    pose proof (lookup_lt_Some _ _ _ Hj) as Lj. cbn in Lj. destruct j as [|[|]]; [lia| |lia]. destruct i as [|]; [|lia]. cbn in Hi, Hj. congruence. }
  subst L. cbn in Hleg. rewrite Kw, Kr in Hleg. destruct Hleg as [Hr _]. rewrite Ar in Hr. discriminate Hr.
Qed.
