(* ===== verification/Doubles.v ===== *)
(** * Doubles

    The [double] arithmetic and formatting the program uses: the hit rate, the
    bounds and sums of the latency histograms, and their text.  A [double] is a
    binary64 value of the Standard Library's [SpecFloat]; every operation rounds
    to nearest, ties to even, the mode the program never changes. *)

From Stdlib Require Import SpecFloat.
From S2P Require Import Prelude Numerals.

Local Open Scope Z_scope.

(** ** Arithmetic *)

Definition double_of (n : Z) : spec_float := binary_normalize 53 1024 n 0 false.
Definition double_div : spec_float -> spec_float -> spec_float := SFdiv 53 1024.
Definition double_mul : spec_float -> spec_float -> spec_float := SFmul 53 1024.

(** ** Rounding a ratio to an integer *)

(** [a / b] to nearest, ties to even, for [b > 0]. *)
Definition round_even (a b : Z) : Z :=
  let q := a / b in
  let r := a mod b in
  if 2 * r <? b then q else if b <? 2 * r then q + 1 else if Z.even q then q else q + 1.

(** The ratio a finite [double] of mantissa [m] and exponent [e] is. *)
Definition ratio (m : positive) (e : Z) : Z * Z :=
  if 0 <=? e then (Z.pos m * 2 ^ e, 1) else (Z.pos m, 2 ^ (- e)).

(** [n] in decimal, at least [w] digits. *)
Definition pad_dec (w : nat) (n : Z) : bytes :=
  let d := to_dec n in replicate (w - length d) "0"%char ++ d.

Definition with_sign (neg : bool) (s : bytes) : bytes := if neg then lit "-" ++ s else s.

(** ** [std::to_string(double)], the conversion %f *)

Definition to_string_double (x : spec_float) : bytes :=
  match x with
  | S754_zero s => with_sign s (lit "0.000000")
  | S754_infinity s => with_sign s (lit "inf")
  | S754_nan => lit "nan"
  | S754_finite s m e =>
      let '(a, b) := ratio m e in
      let n := round_even (a * 10 ^ 6) b in
      with_sign s (to_dec (n / 10 ^ 6) ++ lit "." ++ pad_dec 6 (n mod 10 ^ 6))
  end.

(** ** [ostream << double] with six significant digits, the conversion %g *)

(** Trailing zeros of a fraction are dropped, and the point with them. *)
Fixpoint drop_zeros (s : bytes) : bytes :=
  match s with
  | c :: s' => if Ascii.eqb c "0" then drop_zeros s' else s
  | [] => []
  end.
Definition fraction (digits : bytes) : bytes :=
  match rev (drop_zeros (rev digits)) with [] => [] | f => lit "." ++ f end.

(** The decimal exponent of [a / b]: the largest [x] with 10^x <= a/b, searched
    from [x] upwards and downwards. *)
Definition pow10_le (x a b : Z) : bool :=
  if 0 <=? x then 10 ^ x * b <=? a else b <=? a * 10 ^ (- x).
Fixpoint exponent_up (fuel : nat) (x a b : Z) : Z :=
  match fuel with
  | O => x
  | S fuel => if pow10_le (x + 1) a b then exponent_up fuel (x + 1) a b else x
  end.
Fixpoint exponent_down (fuel : nat) (x a b : Z) : Z :=
  match fuel with
  | O => x
  | S fuel => if pow10_le x a b then x else exponent_down fuel (x - 1) a b
  end.
(** A [double] is below 10^309 and its least positive value above 10^-324. *)
Definition exponent10 (a b : Z) : Z :=
  if pow10_le 0 a b then exponent_up 309 0 a b else exponent_down 325 0 a b.

(** The six leading digits of [a / b] rounded, and its exponent afterwards. *)
Definition leading6 (a b : Z) : Z * Z :=
  let x := exponent10 a b in
  let d := if 5 <=? x then round_even a (b * 10 ^ (x - 5)) else round_even (a * 10 ^ (5 - x)) b in
  if d =? 10 ^ 6 then (10 ^ 5, x + 1) else (d, x).

Definition show_double (v : spec_float) : bytes :=
  match v with
  | S754_zero s => with_sign s (lit "0")
  | S754_infinity s => with_sign s (lit "inf")
  | S754_nan => lit "nan"
  | S754_finite s m e =>
      let '(a, b) := ratio m e in
      let '(d, x) := leading6 a b in
      with_sign s
        (if (-4 <=? x) && (x <? 6) then
           (* fixed notation, with 5 - x digits after the point *)
           let p := 10 ^ (5 - x) in
           to_dec (d / p) ++ fraction (pad_dec (Z.to_nat (5 - x)) (d mod p))
         else
           to_dec (d / 10 ^ 5) ++ fraction (pad_dec 5 (d mod 10 ^ 5)) ++ lit "e" ++
           (if x <? 0 then lit "-" else lit "+") ++ pad_dec 2 (Z.abs x))
  end.

(** Texts as the C++ library prints them. *)
Example to_string_examples :
  to_string_double (double_mul (double_div (double_of 2) (double_of 3)) (double_of 100)) = lit "66.666667" /\
  to_string_double (double_of 0) = lit "0.000000" /\
  show_double (double_of 1000000) = lit "1e+06" /\
  show_double (double_of 123456) = lit "123456" /\
  show_double (double_div (double_of 1) (double_of 100000)) = lit "1e-05" /\
  show_double (double_div (double_of 8192) (double_of 100000)) = lit "0.08192".
Proof. vm_compute. by split_and!. Qed.
