(* ===== verification/Metrics.v ===== *)
(** * Counters and histograms

    Models include/shardcache/metrics.hpp: the striped counters and the latency
    histograms.  [t] is the number a thread drew from the shared counter [next]
    when it first used a stripe. *)

From Stdlib Require Import SpecFloat.
From S2P Require Import Prelude Numerals Doubles.

Local Open Scope Z_scope.

(** ** [StripedCounter] *)

Definition kStripes : nat := 16.

Record StripedCounter := mkStriped { stripes_ : list Z }.

Definition StripedCounter_new : StripedCounter := mkStriped (replicate kStripes 0).

Definition stripe (t : nat) : nat := (t `mod` kStripes)%nat.

Definition StripedCounter_add (t : nat) (n : Z) (c : StripedCounter) : StripedCounter :=
  mkStriped (alter (fun v => u64 (v + n)) (stripe t) (stripes_ c)).

Definition StripedCounter_value (c : StripedCounter) : Z :=
  foldl (fun total v => u64 (total + v)) 0 (stripes_ c).

(** ** [LatencyHistogram] *)

Definition kBuckets : nat := 19.

Record LatencyHistogram := mkHistogram { buckets_ : list StripedCounter; sum_ns_ : StripedCounter }.

Definition LatencyHistogram_new : LatencyHistogram :=
  mkHistogram (replicate (kBuckets + 1) StripedCounter_new) StripedCounter_new.

(** The microseconds bucket [i] is for: [10u << i]. *)
Definition bucket_limit (i : nat) : Z := u32 (Z.shiftl 10 (Z.of_nat i)).

(** [LatencyHistogram::bound], in seconds; [10e-6] is the literal's [double]. *)
Definition LatencyHistogram_bound (i : nat) : spec_float :=
  double_mul (double_div (double_of 10) (double_of 1000000)) (double_of (Z.shiftl 1 (Z.of_nat i))).

(** The loop of [observe], from bucket [i] with [n] buckets left. *)
Fixpoint bucket_index (n i : nat) (us : Z) : nat :=
  match n with
  | O => i
  | S n' => if bucket_limit i <? us then bucket_index n' (S i) us else i
  end.

(** The microseconds of a duration of [d] ns. *)
Definition micros (d : Z) : Z := u64 (d `quot` 1000).

Definition LatencyHistogram_observe (t : nat) (d : Z) (h : LatencyHistogram) : LatencyHistogram :=
  mkHistogram (alter (StripedCounter_add t 1) (bucket_index kBuckets 0 (micros d)) (buckets_ h))
    (StripedCounter_add t (u64 d) (sum_ns_ h)).

Definition LatencyHistogram_bucket (i : nat) (h : LatencyHistogram) : Z :=
  from_option StripedCounter_value 0 (buckets_ h !! i).

Definition LatencyHistogram_count (h : LatencyHistogram) : Z :=
  foldl (fun total b => u64 (total + StripedCounter_value b)) 0 (buckets_ h).

Definition LatencyHistogram_sum_seconds (h : LatencyHistogram) : spec_float :=
  double_div (double_of (StripedCounter_value (sum_ns_ h))) (double_of 1000000000).

(** The cumulative count the exporter prints for bucket [i]. *)
Fixpoint cumulative (i : nat) (h : LatencyHistogram) : Z :=
  match i with
  | O => u64 (0 + LatencyHistogram_bucket 0 h)
  | S j => u64 (cumulative j h + LatencyHistogram_bucket i h)
  end.

(** ** Counters add up *)

Lemma sum_u64 l a : foldl (fun total v => u64 (total + v)) (u64 a) l = u64 (a + foldr Z.add 0 l).
Proof.
  revert a. induction l as [|v l IH]; intros a; simpl; [by rewrite Z.add_0_r|].
  rewrite wrap_add_l, IH. f_equal. lia.
Qed.

Lemma striped_value_sum c : StripedCounter_value c = u64 (foldr Z.add 0 (stripes_ c)).
Proof. unfold StripedCounter_value. change 0 with (u64 0) at 1. by rewrite sum_u64. Qed.

Lemma wrap_add_r w a b : wrap w (a + wrap w b) = wrap w (a + b).
Proof. rewrite Z.add_comm, wrap_add_l. f_equal. lia. Qed.

Lemma sum_alter l i n :
  (i < length l)%nat ->
  u64 (foldr Z.add 0 (alter (fun v => u64 (v + n)) i l)) = u64 (foldr Z.add 0 l + n).
Proof.
  revert i. induction l as [|v l IH]; intros [|i] H; cbn [length] in H; try lia.
  - change (alter _ 0%nat (v :: l)) with (u64 (v + n) :: l). cbn [foldr].
    rewrite wrap_add_l. f_equal. lia.
  - change (alter ?f (S i) (v :: l)) with (v :: alter f i l). cbn [foldr].
    rewrite <-wrap_add_r, IH, wrap_add_r by lia. f_equal. lia.
Qed.

Definition striped_ok (c : StripedCounter) : Prop := length (stripes_ c) = kStripes.

Lemma striped_add t n c :
  striped_ok c ->
  striped_ok (StripedCounter_add t n c) /\
  StripedCounter_value (StripedCounter_add t n c) = u64 (StripedCounter_value c + n).
Proof.
  unfold striped_ok. intros H. split; [unfold StripedCounter_add; simpl; by rewrite length_alter|].
  rewrite !striped_value_sum, wrap_add_l. apply sum_alter. rewrite H. apply Nat.mod_upper_bound. unfold kStripes. lia.
Qed.

Lemma striped_new : striped_ok StripedCounter_new /\ StripedCounter_value StripedCounter_new = 0.
Proof. by split. Qed.

(** ** Histograms *)

Definition histogram_ok (h : LatencyHistogram) : Prop :=
  length (buckets_ h) = (kBuckets + 1)%nat /\ Forall striped_ok (buckets_ h) /\ striped_ok (sum_ns_ h).

Lemma bucket_index_range n i us : (i <= bucket_index n i us <= i + n)%nat.
Proof. revert i. induction n as [|n IH]; intros i; simpl; [lia|]. case_match; [specialize (IH (S i))|]; lia. Qed.

(** The bucket is the first whose limit is not exceeded. *)
Lemma bucket_index_first n i us :
  (forall j, (i <= j < bucket_index n i us)%nat -> bucket_limit j < us) /\
  ((bucket_index n i us < i + n)%nat -> us <= bucket_limit (bucket_index n i us)).
Proof.
  revert i. induction n as [|n IH]; intros i; simpl; [split; lia|].
  destruct (bucket_limit i <? us) eqn:E; bool_facts; [|split; lia].
  destruct (IH (S i)) as [H1 H2]. split; [|intros; apply H2; lia].
  intros j Hj. destruct (decide (j = i)) as [->|]; [done|]. apply H1. lia.
Qed.

Lemma bucket_limit_pow i : (i < kBuckets)%nat -> bucket_limit i = 10 * 2 ^ Z.of_nat i.
Proof.
  intros H. unfold bucket_limit. rewrite Z.shiftl_mul_pow2 by lia. apply wrap_small.
  assert (2 ^ Z.of_nat i <= 2 ^ 18) by (apply Z.pow_le_mono_r; unfold kBuckets in H; lia). lia.
Qed.

(** An observation counts at or below bucket [i] exactly when it is within the
    limit of the bucket. *)
Lemma bucket_index_le i us :
  (i < kBuckets)%nat -> (bucket_index kBuckets 0 us <= i)%nat <-> us <= 10 * 2 ^ Z.of_nat i.
Proof.
  intros Hi. destruct (bucket_index_first kBuckets 0 us) as [H1 H2].
  assert (Hm : forall a b, (a <= b)%nat -> (b < kBuckets)%nat -> bucket_limit a <= bucket_limit b).
  { intros a b Hab Hb. rewrite !bucket_limit_pow by lia. apply Z.mul_le_mono_nonneg_l; [lia|].
    apply Z.pow_le_mono_r; lia. }
  rewrite <-bucket_limit_pow by done. split; intros H.
  - specialize (H2 ltac:(lia)). specialize (Hm _ _ H Hi). lia.
  - destruct (decide (bucket_index kBuckets 0 us <= i)%nat) as [|Hn]; [done|].
    specialize (H1 i ltac:(lia)). lia.
Qed.

Lemma observe_bucket t d h i :
  histogram_ok h -> (i <= kBuckets)%nat ->
  LatencyHistogram_bucket i (LatencyHistogram_observe t d h) =
  if decide (i = bucket_index kBuckets 0 (micros d)) then u64 (LatencyHistogram_bucket i h + 1)
  else LatencyHistogram_bucket i h.
Proof.
  intros (L & F & _) Hi. unfold LatencyHistogram_bucket, LatencyHistogram_observe. cbn [buckets_].
  case_decide as E.
  - subst i. rewrite list_lookup_alter_eq.
    destruct (lookup_lt_is_Some_2 (buckets_ h) (bucket_index kBuckets 0 (micros d))) as [b Hb]; [lia|].
    rewrite Hb. simpl. rewrite Forall_lookup in F. by destruct (striped_add t 1 b (F _ _ Hb)).
  - by rewrite list_lookup_alter_ne.
Qed.

Lemma observe_ok t d h : histogram_ok h -> histogram_ok (LatencyHistogram_observe t d h).
Proof.
  intros (L & F & Hs). split_and!; simpl.
  - by rewrite length_alter.
  - apply Forall_alter; [done|]. intros b _ Hb. by apply striped_add.
  - by apply striped_add.
Qed.

Lemma cumulative_range i h : 0 <= cumulative i h < 2 ^ 64.
Proof. destruct i; apply wrap_range; lia. Qed.

Lemma observe_cumulative t d h i :
  histogram_ok h -> (i <= kBuckets)%nat ->
  cumulative i (LatencyHistogram_observe t d h) =
  u64 (cumulative i h + (if decide (bucket_index kBuckets 0 (micros d) <= i)%nat then 1 else 0)).
Proof.
  intros W. induction i as [|i IH]; intros Hi; cbn [cumulative]; rewrite observe_bucket by done.
  - destruct (decide (0%nat = _)) as [E|E]; destruct (decide (_ <= 0)%nat); try lia; rewrite wrap_add_l;
      [rewrite wrap_add_r|]; f_equal; lia.
  - rewrite IH by lia. rewrite !wrap_add_l.
    destruct (decide (S i = _)) as [E|E]; destruct (decide (_ <= i)%nat), (decide (_ <= S i)%nat); try lia;
      rewrite ?wrap_add_r; f_equal; lia.
Qed.

(** What a sequence of observations, each on some thread, makes of a fresh
    histogram. *)
Definition observed (obs : list (nat * Z)) : LatencyHistogram :=
  foldl (fun h '(t, d) => LatencyHistogram_observe t d h) LatencyHistogram_new obs.

Lemma observed_snoc obs t d : observed (obs ++ [(t, d)]) = LatencyHistogram_observe t d (observed obs).
Proof. unfold observed. by rewrite foldl_app. Qed.

Lemma observed_ok obs : histogram_ok (observed obs).
Proof.
  induction obs as [|[t d] obs IH] using rev_ind.
  - split_and!; [done| |done]. by apply Forall_replicate.
  - rewrite observed_snoc. by apply observe_ok.
Qed.

Lemma count_cumulative h : histogram_ok h -> LatencyHistogram_count h = cumulative kBuckets h.
Proof.
  intros (L & _ & _). unfold LatencyHistogram_count.
  assert (G : forall n, (n <= kBuckets)%nat ->
    foldl (fun total b => u64 (total + StripedCounter_value b)) 0 (take (S n) (buckets_ h)) = cumulative n h).
  { induction n as [|n IH]; intros Hn.
    - destruct (buckets_ h) as [|b l] eqn:E; [done|]. cbn [cumulative]. unfold LatencyHistogram_bucket. by rewrite E.
    - destruct (lookup_lt_is_Some_2 (buckets_ h) (S n)) as [b Hb]; [lia|].
      rewrite (take_S_r _ _ b) by done. rewrite foldl_app, IH by lia. cbn [foldl cumulative].
      unfold LatencyHistogram_bucket. by rewrite Hb. }
  rewrite <-(G kBuckets) by done. rewrite take_ge by lia. done.
Qed.

(** ** Properties *)

(** The exported histogram is in the cumulative form Prometheus expects: after
    any observations on any threads, the count printed for a bucket is the number
    of observations of at most 10us * 2^i (as a 64-bit counter), the printed +Inf
    count is the number of all observations, and it is what [count] returns. *)
Theorem histogram_cumulative obs i :
  (cumulative kBuckets (observed obs) = u64 (Z.of_nat (length obs)) /\
   LatencyHistogram_count (observed obs) = u64 (Z.of_nat (length obs))) /\
  ((i < kBuckets)%nat ->
    cumulative i (observed obs) =
      u64 (Z.of_nat (length (List.filter (fun '(_, d) => micros d <=? 10 * 2 ^ Z.of_nat i) obs)))).
Proof.
  rewrite count_cumulative by apply observed_ok.
  assert (G : cumulative kBuckets (observed obs) = u64 (Z.of_nat (length obs))).
  { induction obs as [|[t d] obs IH] using rev_ind; [done|].
    rewrite observed_snoc, observe_cumulative, IH by (done || apply observed_ok).
    rewrite decide_True by (pose proof (bucket_index_range kBuckets 0 (micros d)); lia).
    rewrite wrap_add_l. f_equal. rewrite length_app. simpl. lia. }
  split; [done|]. intros Hi. clear G. induction obs as [|[t d] obs IH] using rev_ind.
  - assert (E : forall n, cumulative n LatencyHistogram_new = 0); [|by rewrite E].
    induction n as [|n IH]; [done|]. cbn [cumulative]. rewrite IH. unfold LatencyHistogram_bucket.
    destruct (buckets_ LatencyHistogram_new !! S n) as [b|] eqn:Eb; [|done].
    apply lookup_replicate in Eb as [-> _]. cbn [from_option]. by rewrite (proj2 striped_new).
  - rewrite observed_snoc, observe_cumulative, IH by (apply observed_ok || (unfold kBuckets in *; lia)).
    rewrite List.filter_app, length_app, wrap_add_l. f_equal.
    pose proof (bucket_index_le i (micros d) Hi) as L. cbn [List.filter].
    case_decide as H; rewrite L in H.
    + rewrite (proj2 (Z.leb_le _ _)) by done. cbn [length]. lia.
    + rewrite (proj2 (Z.leb_gt _ _)) by lia. cbn [length]. lia.
Qed.

(** *** Witness *)

Lemma histogram_cumulative_witness :
  cumulative 1 (observed [(0%nat, 9000); (17%nat, 15000000); (1%nat, 20000)]) = 2.
Proof. apply (histogram_cumulative [(0%nat, 9000); (17%nat, 15000000); (1%nat, 20000)] 1). unfold kBuckets. lia. Defined.
