(* ===== verification/CommandHandler.v ===== *)
(** * The command handler

    Models network/command_handler.cpp over a node whose local store is the
    sharded cache: which commands may run on an I/O thread, what each command
    does to the node, and the bytes of its reply.  What a command is exposed to
    (clock readings, replies of peers) is an argument; calls whose wait is over
    but which still owe replies are left to their callbacks
    ([Cluster.replicate_reply]). *)

From Stdlib Require Import SpecFloat.
From S2P Require Import Prelude Numerals CacheEntry Cache CacheSpec VersionedStore ShardedCache HybridClock ConsistentHash RoutingTable HealthChecker Membership Resp Parser ReplicaWire Cluster ClusterLemmas Doubles Metrics.

Local Open Scope Z_scope.

(** The node a handler serves. *)
Abbreviation Server := (Cluster ShardedCache).

(** What the commands of one request are exposed to; the [i]-th key of DEL and
    EXISTS has its own. *)
Record DispatchEnv := mkDispatch {
  de_now : Z;
  de_read : nat -> FullReadEnv;
  de_write : nat -> FullWriteEnv;
  de_expire_ms : Z;
  de_expire : WriteEnv
}.

(** ** Helpers *)

Definition kWriteUnavailable : bytes := lit "ERR write quorum not reached".
Definition kReadUnavailable : bytes := lit "ERR read quorum not reached".

Definition to_ttl (ttl_ms : option Z) : option Z := i64 <$> ttl_ms.

(** [ShardedCache::overall_hit_rate]. *)
Definition overall_hit_rate (s : ShardedCache) : spec_float :=
  let h := ShardedCache_total_hits s in
  let total := u64 (h + ShardedCache_total_misses s) in
  if total =? 0 then double_of 0
  else double_mul (double_div (double_of h) (double_of total)) (double_of 100).

(** [Cluster::node_count]. *)
Definition Cluster_node_count (c : Server) : Z := Z.of_nat (length (rt_nodes_ (routing_ (cl_mem c)))).

Definition stats_body (c : Server) : bytes :=
  let cache := cl_cache c in
  lit "# Stats" ++ CRLF ++
  lit "node_id:" ++ local_id (cl_mem c) ++ CRLF ++
  lit "cluster_nodes:" ++ to_dec (Cluster_node_count c) ++ CRLF ++
  lit "entries:" ++ to_dec (ShardedCache_size cache) ++ CRLF ++
  lit "capacity:" ++ to_dec (ShardedCache_capacity cache) ++ CRLF ++
  lit "hits:" ++ to_dec (ShardedCache_total_hits cache) ++ CRLF ++
  lit "misses:" ++ to_dec (ShardedCache_total_misses cache) ++ CRLF ++
  lit "hit_rate:" ++ to_string_double (overall_hit_rate cache) ++ lit "%" ++ CRLF.

(** ** [CommandHandler::runs_locally] *)

Definition runs_locally (cmd : Command) (c : Server) : option bool :=
  match cmd_type cmd with
  | CGet | CTtl | CPttl => can_serve_locally (cmd_key cmd) false c
  | CExists =>
      if (length (cmd_keys cmd) =? 1)%nat then can_serve_locally (cmd_key cmd) false c else Some false
  | CSet => can_serve_locally (cmd_key cmd) true c
  | CDelete =>
      if (length (cmd_keys cmd) =? 1)%nat then can_serve_locally (cmd_key cmd) true c else Some false
  | CExpire =>
      w ← can_serve_locally (cmd_key cmd) true c;
      if (w : bool) then can_serve_locally (cmd_key cmd) false c else Some false
  | _ => Some true
  end.

(** ** [CommandHandler::dispatch] *)

(** The loop of DEL over the keys from the [i]-th on. *)
Fixpoint delete_keys (env : DispatchEnv) (i : nat) (keys : list bytes) (removed : Z) (c : Server) (out : bytes)
    : option (Server * bytes) :=
  match keys with
  | [] => Some (c, append_integer out removed)
  | key :: rest =>
      '(c', r, _) ← Cluster_del (de_write env i) key c;
      if negb (wr_ok r) then Some (c', append_error out kWriteUnavailable)
      else delete_keys env (i + 1) rest (removed + (if wr_existed r then 1 else 0)) c' out
  end.

(** The loop of EXISTS. *)
Fixpoint exists_keys (env : DispatchEnv) (i : nat) (keys : list bytes) (found : Z) (c : Server) (out : bytes)
    : option (Server * bytes) :=
  match keys with
  | [] => Some (c, append_integer out found)
  | key :: rest =>
      '(c', r, _) ← Cluster_read (de_read env i) key c;
      match read_status r with
      | RSUnavailable => Some (c', append_error out kReadUnavailable)
      | RSFound => exists_keys env (i + 1) rest (found + 1) c' out
      | RSNotFound => exists_keys env (i + 1) rest found c' out
      end
  end.

(** The reply of TTL and PTTL to a read that succeeded. *)
Definition ttl_reply (t : CommandType) (r : ReadResult) : Z :=
  let ms := match read_status r with
            | RSFound => default (-1) (vv_ttl (read_value r))
            | _ => -2
            end in
  if bool_decide (t = CTtl) && (0 <? ms) then (ms + 999) `quot` 1000 else ms.

(** One line of CLUSTER NODES. *)
Definition node_line (m : Membership) (i : MemberInfo) : bytes :=
  let alive := bool_decide (mi_status i = Alive) in
  let health := if negb alive then lit "-"
                else if Cluster_is_node_healthy (cn_id (mi_node i)) m then lit "healthy" else lit "unhealthy" in
  cn_id (mi_node i) ++ lit " " ++ cn_host (mi_node i) ++ lit ":" ++ to_dec (cn_port (mi_node i)) ++
  lit " gen=" ++ to_dec (mi_generation i) ++ lit " " ++ (if alive then lit "alive" else lit "left") ++ lit " " ++
  health ++ (if bytes_eqb (cn_id (mi_node i)) (local_id m) then lit " myself" else []) ++ [LF].

Definition set_mem (m : Membership) (c : Server) : Server :=
  mkCluster (cl_config c) m (cl_clock c) (cl_cache c) (cl_hints c) (cl_counters c) (cl_outbox c).

(** The CLUSTER GOSSIP branch: the reply is built from the merged view. *)
Definition dispatch_gossip (cmd : Command) (c : Server) (out : bytes) : Server * bytes :=
  match decode_members (cmd_keys cmd) with
  | None => (c, append_error out (lit "ERR malformed gossip entry"))
  | Some remote =>
      let '(m, view) := Cluster_merge_gossip remote (cl_mem c) in
      (set_mem m c,
       foldl (fun o i => foldl append_bulk o (member_fields i))
         (append_array_header out (Z.of_nat (length view) * 5)) view)
  end.

(** The REPL_GET branch. *)
Definition append_replica_get (out : bytes) (v : option VersionedValue) : bytes :=
  match v with
  | None => append_null out
  | Some v =>
      let out := append_array_header out 4 in
      let out := append_bulk out (vv_value v) in
      let out := append_integer out (i64 (vv_version v)) in
      let out := append_integer out (if vv_tombstone v then 1 else 0) in
      append_integer out (match vv_ttl v with Some ms => Z.max 1 ms | None => -1 end)
  end.

Definition bool_Z (b : bool) : Z := if b then 1 else 0.

(** CLUSTER NODES. *)
Definition dispatch_nodes (c : Server) (out : bytes) : bytes :=
  append_bulk out (concat (node_line (cl_mem c) <$> Cluster_members (cl_mem c))).

(** A command the parser did not understand. *)
Definition dispatch_unknown (cmd : Command) (out : bytes) : bytes :=
  append_error out (match cmd_error cmd with [] => lit "ERR unknown command" | e => e end).

Definition dispatch (env : DispatchEnv) (cmd : Command) (c : Server) (out : bytes) : option (Server * bytes) :=
  match cmd_type cmd with
  | CPing =>
      Some (c, match cmd_value cmd with [] => append_simple out (lit "PONG") | v => append_bulk out v end)
  | CEcho => Some (c, append_bulk out (cmd_value cmd))
  | CStats => Some (c, append_bulk out (stats_body c))
  | CDbSize => Some (c, append_integer out (i64 (ShardedCache_size (cl_cache c))))
  | CFlushAll => Some (set_cache (ShardedCache_clear (cl_cache c)) c, append_simple out (lit "OK"))
  | CCommandDocs => Some (c, append_array_header out 0)
  | CConfig =>
      Some (c, foldl (fun o name => append_bulk (append_bulk o name) [])
                 (append_array_header out (Z.of_nat (length (cmd_keys cmd)) * 2)) (cmd_keys cmd))
  | CSelect =>
      Some (c, if bytes_eqb (cmd_value cmd) (lit "0") then append_simple out (lit "OK")
               else append_error out (lit "ERR DB index is out of range"))
  | CClient | CQuit => Some (c, append_simple out (lit "OK"))
  | CSet =>
      '(c', r, _) ← Cluster_put (de_write env 0%nat) (cmd_key cmd) (cmd_value cmd) (to_ttl (cmd_ttl_ms cmd)) c;
      Some (c', if wr_ok r then append_simple out (lit "OK") else append_error out kWriteUnavailable)
  | CGet =>
      '(c', r, _) ← Cluster_read (de_read env 0%nat) (cmd_key cmd) c;
      Some (c', match read_status r with
                | RSFound => append_bulk out (vv_value (read_value r))
                | RSNotFound => append_null out
                | RSUnavailable => append_error out kReadUnavailable
                end)
  | CDelete => delete_keys env 0 (cmd_keys cmd) 0 c out
  | CExists => exists_keys env 0 (cmd_keys cmd) 0 c out
  | CExpire =>
      '(c', r, _) ← Cluster_expire_key (de_read env 0%nat) (de_expire_ms env) (de_expire env) (cmd_key cmd)
                      (i64 (default 0 (cmd_ttl_ms cmd))) c;
      Some (c', if negb (wr_ok r) then append_error out kWriteUnavailable
                else append_integer out (bool_Z (wr_existed r)))
  | CTtl | CPttl =>
      '(c', r, _) ← Cluster_read (de_read env 0%nat) (cmd_key cmd) c;
      Some (c', match read_status r with
                | RSUnavailable => append_error out kReadUnavailable
                | _ => append_integer out (ttl_reply (cmd_type cmd) r)
                end)
  | CReplSet =>
      '(c', live) ← Cluster_apply_replica_write (de_now env) (cmd_key cmd)
                      (mkVV (cmd_value cmd) (cmd_version cmd) false (to_ttl (cmd_ttl_ms cmd))) c;
      Some (c', append_integer out (bool_Z live))
  | CReplDelete =>
      '(c', live) ← Cluster_apply_replica_write (de_now env) (cmd_key cmd) (mkVV [] (cmd_version cmd) true None) c;
      Some (c', append_integer out (bool_Z live))
  | CReplGet =>
      '(c', v) ← Cluster_replica_read (de_now env) (cmd_key cmd) c;
      Some (c', append_replica_get out v)
  | CClusterGossip => Some (dispatch_gossip cmd c out)
  | CClusterNodes => Some (c, dispatch_nodes c out)
  | CUnknown => Some (c, dispatch_unknown cmd out)
  end.

(** ** [CommandHandler::execute] and the handler's own state *)

Definition command_types : list CommandType :=
  [CGet; CSet; CDelete; CExists; CExpire; CTtl; CPttl; CStats; CPing; CEcho; CDbSize; CFlushAll; CCommandDocs;
   CConfig; CSelect; CClient; CQuit; CReplSet; CReplDelete; CReplGet; CClusterGossip; CClusterNodes; CUnknown].

(** [static_cast<std::size_t>(type)]: the position in the enumeration. *)
Definition type_index (t : CommandType) : nat := from_option fst 0%nat (list_find (t =.) command_types).

Definition kCommandTypes : nat := (type_index CUnknown + 1)%nat.

Record CommandMetrics := mkCommandMetrics {
  cm_calls : StripedCounter; cm_errors : StripedCounter; cm_latency : LatencyHistogram
}.

Definition CommandMetrics_new : CommandMetrics :=
  mkCommandMetrics StripedCounter_new StripedCounter_new LatencyHistogram_new.

Record CommandHandler := mkHandler {
  ch_metrics : list CommandMetrics;
  ch_connections_total : StripedCounter;
  ch_connections_active : Z;
  ch_cluster : Server
}.

Definition CommandHandler_new (c : Server) : CommandHandler :=
  mkHandler (replicate kCommandTypes CommandMetrics_new) StripedCounter_new 0 c.

(** The metrics of one executed command on thread [t], [d] ns long. *)
Definition record_command (t : nat) (failed : bool) (d : Z) (m : CommandMetrics) : CommandMetrics :=
  mkCommandMetrics (StripedCounter_add t 1 (cm_calls m))
    (if failed then StripedCounter_add t 1 (cm_errors m) else cm_errors m)
    (LatencyHistogram_observe t d (cm_latency m)).

(** [execute]: the command's first byte of reply tells an error. *)
Definition execute (env : DispatchEnv) (t : nat) (start stop : Z) (cmd : Command) (h : CommandHandler) (out : bytes)
    : option (CommandHandler * bytes) :=
  '(c, out') ← dispatch env cmd (ch_cluster h) out;
  let failed := bool_decide (out' !! length out = Some "-"%char) in
  Some (mkHandler (alter (record_command t failed (stop - start)) (type_index (cmd_type cmd)) (ch_metrics h))
          (ch_connections_total h) (ch_connections_active h) c, out').

Definition connection_opened (t : nat) (h : CommandHandler) : CommandHandler :=
  mkHandler (ch_metrics h) (StripedCounter_add t 1 (ch_connections_total h)) (i64 (ch_connections_active h + 1))
    (ch_cluster h).
Definition connection_closed (h : CommandHandler) : CommandHandler :=
  mkHandler (ch_metrics h) (ch_connections_total h) (i64 (ch_connections_active h - 1)) (ch_cluster h).
