(* ===== verification/HandlerProps.v ===== *)
(** * What the command handler guarantees

    Theorems about CommandHandler.v: every command gets exactly one well-formed
    reply, commands marked local never call a peer, and the inter-node calls,
    from the caller's bytes to the decoded reply, are the replica operations of
    [Cluster] on the callee. *)

From S2P Require Import Prelude Numerals CacheEntry Cache CacheSpec CacheRefine VersionedStore ShardedCache HybridClock ConsistentHash RoutingTable HealthChecker Membership Resp Parser ReplicaWire Cluster ClusterLemmas ClusterProps Doubles Metrics CommandHandler.

Local Open Scope Z_scope.

(** ** Replies *)

(** The lines of a reply hold no line break. *)
Fixpoint lines_ok (v : RespValue) : bool :=
  match v with
  | SimpleString s | RespError s => bool_decide (find_crlf s = None)
  | RespArray l => forallb lines_ok l
  | _ => true
  end.

(** Its strings, arrays and integers are within the limits of the protocol. *)
Fixpoint resp_sized (v : RespValue) : bool :=
  match v with
  | RespInteger n => (- 2 ^ 63 <=? n) && (n <? 2 ^ 63)
  | BulkString s => Z.of_nat (length s) <=? kMaxBulkLength
  | RespArray l => (Z.of_nat (length l) <=? kMaxArrayLength) && forallb resp_sized l
  | _ => true
  end.

Lemma resp_wf_split v : lines_ok v = true -> resp_sized v = true -> resp_wf v.
Proof.
  induction v as [s|s|n|s| |l IH] using RespValue_nested_ind; cbn [lines_ok resp_sized]; intros H1 H2;
    bool_facts; constructor; try done.
  apply Forall_lookup. intros i x Hx. rewrite Forall_lookup in IH. apply (IH i x Hx).
  - rewrite forallb_forall in H1. apply H1, list_elem_of_In. by eapply list_elem_of_lookup_2.
  - rewrite forallb_forall in H0. apply H0, list_elem_of_In. by eapply list_elem_of_lookup_2.
Qed.

(** A well-formed reply parses back, whatever follows it. *)
Lemma reply_parses v rest :
  resp_wf v -> parse_reply (append_value [] v ++ rest) = Some (POk v (length (append_value [] v))).
Proof. intros W. apply (parse_reply_any (depth v)), parse_value_fuel; done. Qed.

Lemma foldl_append_bulks out l : foldl append_bulk out l = foldl append_value out (BulkString <$> l).
Proof. revert out. induction l as [|s l IH]; intros out; [done|]. cbn [foldl fmap list_fmap]. by rewrite IH. Qed.

Lemma bulks_lines l : forallb lines_ok (BulkString <$> l) = true.
Proof. by induction l. Qed.

(** The array CONFIG GET replies with. *)
Definition config_reply (names : list bytes) : RespValue :=
  RespArray (concat ((fun name => [BulkString name; BulkString []]) <$> names)).

Lemma config_reply_bytes out names :
  foldl (fun o name => append_bulk (append_bulk o name) [])
    (append_array_header out (Z.of_nat (length names) * 2)) names = append_value out (config_reply names).
Proof.
  unfold config_reply. cbn [append_value].
  assert (L : length (concat ((fun name => [BulkString name; BulkString []]) <$> names)) = (length names * 2)%nat).
  { induction names as [|n names IH]; [done|]. cbn [fmap list_fmap concat]. rewrite length_app, IH. simpl. lia. }
  rewrite L, Nat2Z.inj_mul. change (Z.of_nat 2) with 2. generalize (append_array_header out (Z.of_nat (length names) * 2)).
  induction names as [|n names IH]; intros o; [done|]. cbn [fmap list_fmap concat app foldl append_value].
  apply IH. cbn [fmap list_fmap concat] in L. rewrite length_app in L. simpl in L. simpl. lia.
Qed.

Lemma config_reply_lines names : lines_ok (config_reply names) = true.
Proof. by induction names. Qed.

(** The gossip branch is [handle_gossip]. *)
Lemma dispatch_gossip_handle cmd c out :
  dispatch_gossip cmd c out =
  (match decode_members (cmd_keys cmd) with Some _ => set_mem (fst (handle_gossip (cmd_keys cmd) (cl_mem c))) c | None => c end,
   append_value out (snd (handle_gossip (cmd_keys cmd) (cl_mem c)))).
Proof.
  unfold dispatch_gossip, handle_gossip. destruct (decode_members _) as [remote|]; [|done].
  destruct (Cluster_merge_gossip remote (cl_mem c)) as [m view]. cbn [fst snd append_value]. f_equal.
  rewrite length_fmap, concat_fields_length.
  replace (Z.of_nat (5 * length view)) with (Z.of_nat (length view) * 5) by lia.
  generalize (append_array_header out (Z.of_nat (length view) * 5)).
  induction view as [|i view IH]; intros o; [done|]. cbn [foldl fmap list_fmap concat].
  rewrite fmap_app, foldl_app, foldl_append_bulks. apply IH.
Qed.

Lemma gossip_reply_lines keys m : lines_ok (snd (handle_gossip keys m)) = true.
Proof.
  unfold handle_gossip. destruct (decode_members keys) as [remote|]; [|done].
  destruct (Cluster_merge_gossip remote m). apply bulks_lines.
Qed.

Lemma append_replica_get_value out v : append_replica_get out v = append_value out (encode_replica_get v).
Proof. by destruct v. Qed.

(** ** What a command is exposed to *)

Definition command_keys (cmd : Command) : list bytes :=
  match cmd_type cmd with CDelete | CExists => cmd_keys cmd | _ => [cmd_key cmd] end.

Definition write_exposed (c : Server) (env : DispatchEnv) (i : nat) (key : bytes) : Prop :=
  read_env_ok c key (fw_query (de_write env i)) /\ write_env_ok c key (fw_write (de_write env i)).
Definition read_exposed (c : Server) (env : DispatchEnv) (i : nat) (key : bytes) : Prop :=
  read_env_ok c key (fr_collect (de_read env i)) /\ write_env_ok c key (fr_writeback (de_read env i)).

(** The replies that arrive come from peers that were called. *)
Definition dispatch_env_ok (c : Server) (env : DispatchEnv) (cmd : Command) : Prop :=
  (forall i key, command_keys cmd !! i = Some key -> read_exposed c env i key /\ write_exposed c env i key) /\
  write_env_ok c (cmd_key cmd) (de_expire env).

Lemma write_exposed_mem c c' env i key : same_mem c c' -> write_exposed c env i key -> write_exposed c' env i key.
Proof. intros M [H1 H2]. split; [by eapply read_env_mem|by eapply write_env_mem]. Qed.
Lemma read_exposed_mem c c' env i key : same_mem c c' -> read_exposed c env i key -> read_exposed c' env i key.
Proof. intros M [H1 H2]. split; [by eapply read_env_mem|by eapply write_env_mem]. Qed.

(** ** One reply per command *)

Definition replies (c : Server) (out : bytes) (o : option (Server * bytes)) : Prop :=
  exists c' v, o = Some (c', append_value out v) /\ lines_ok v = true /\ stepped c c'.

Lemma replies_here c out v : cluster_wf c -> lines_ok v = true -> replies c out (Some (c, append_value out v)).
Proof. intros W L. exists c, v. split; [done|]. split; [done|]. by split. Qed.

Lemma delete_keys_replies env keys i n c out :
  cluster_wf c -> (forall j key, keys !! j = Some key -> write_exposed c env (i + j) key) ->
  replies c out (delete_keys env i keys n c out).
Proof.
  revert i n c. induction keys as [|key keys IH]; intros i n c W Hk; cbn [delete_keys].
  { by apply (replies_here c out (RespInteger n)). }
  destruct (Hk 0%nat key eq_refl) as [H1 H2]. rewrite Nat.add_0_r in H1, H2.
  destruct (write_op_step (de_write env i) key (fun t => mkVV [] t true None) c W H1 H2) as (c1 & [r w] & E & W1 & M1).
  unfold Cluster_del. rewrite E. cbn [mbind option_bind fst snd]. destruct (wr_ok r); cbn [negb]; cycle 1.
  { exists c1, (RespError kWriteUnavailable). split_and!; [done|done|by split]. }
  destruct (IH (i + 1)%nat (n + (if wr_existed r then 1 else 0)) c1 W1) as (c2 & v & E2 & L & W2 & M2).
  - intros j k Hj. eapply write_exposed_mem; [done|]. replace (i + 1 + j)%nat with (i + S j)%nat by lia. by apply Hk.
  - exists c2, v. split; [done|]. split; [done|]. split; [done|by transitivity c1].
Qed.

Lemma exists_keys_replies env keys i n c out :
  cluster_wf c -> (forall j key, keys !! j = Some key -> read_exposed c env (i + j) key) ->
  replies c out (exists_keys env i keys n c out).
Proof.
  revert i n c. induction keys as [|key keys IH]; intros i n c W Hk; cbn [exists_keys].
  { by apply (replies_here c out (RespInteger n)). }
  destruct (Hk 0%nat key eq_refl) as [H1 H2]. rewrite Nat.add_0_r in H1, H2.
  destruct (read_total (de_read env i) key c W H1 H2) as (c1 & r & w & E & W1 & M1).
  rewrite E. cbn [mbind option_bind].
  assert (K : forall n', replies c out (exists_keys env (i + 1) keys n' c1 out)).
  { intros n'. destruct (IH (i + 1)%nat n' c1 W1) as (c2 & v & E2 & L & W2 & M2).
    - intros j k Hj. eapply read_exposed_mem; [done|]. replace (i + 1 + j)%nat with (i + S j)%nat by lia. by apply Hk.
    - exists c2, v. split; [done|]. split; [done|]. split; [done|by transitivity c1]. }
  destruct (read_status r); try apply K. exists c1, (RespError kReadUnavailable). split_and!; [done|done|by split].
Qed.

Lemma expire_total renv ms wenv key ttl c :
  cluster_wf c -> read_env_ok c key (fr_collect renv) -> write_env_ok c key (fr_writeback renv) ->
  write_env_ok c key wenv ->
  exists c' r w, Cluster_expire_key renv ms wenv key ttl c = Some (c', r, w) /\ stepped c c'.
Proof.
  intros W H1 H2 H3. destruct (Node_exec_step (NExpire renv ms wenv key ttl) c W) as (c' & E & S'); [done|].
  cbn [Node_exec] in E. destruct (Cluster_expire_key _ _ _ _ _ _) as [[[d r] w]|]; [|done].
  injection E as ->. eauto.
Qed.

Lemma replica_write_total now key v (c : Server) :
  cluster_wf c -> exists c' live, Cluster_apply_replica_write now key v c = Some (c', live) /\ stepped c c'.
Proof.
  intros W. destruct (Node_exec_step (NReplicaWrite now key v) c W) as (c' & E & S'); [done|].
  cbn [Node_exec] in E. destruct (Cluster_apply_replica_write _ _ _ _) as [[d l]|]; [|done].
  injection E as ->. eauto.
Qed.

Lemma replica_read_total now key (c : Server) :
  cluster_wf c -> exists c' v, Cluster_replica_read now key c = Some (c', v) /\ stepped c c'.
Proof.
  intros W. destruct (Node_exec_step (NReplicaRead now key) c W) as (c' & E & S'); [done|].
  cbn [Node_exec] in E. destruct (Cluster_replica_read _ _ _) as [[d l]|]; [|done].
  injection E as ->. eauto.
Qed.

(** The branches that read or write through the cluster. *)
Lemma coordinated_replies env cmd c out :
  cluster_wf c -> dispatch_env_ok c env cmd ->
  match cmd_type cmd with
  | CSet | CGet | CDelete | CExists | CExpire | CTtl | CPttl | CReplSet | CReplDelete | CReplGet =>
      replies c out (dispatch env cmd c out)
  | _ => True
  end.
Proof.
  intros W [Hk He]. unfold dispatch, command_keys in *. destruct (cmd_type cmd) eqn:Et; try done.
  1, 6, 7: (destruct (Hk 0%nat _ eq_refl) as [[H1 H2] _];
    destruct (read_total (de_read env 0) (cmd_key cmd) c W H1 H2) as (c1 & r & w & E & S1); rewrite E;
    cbn [mbind option_bind]).
  - exists c1, (match read_status r with RSFound => BulkString (vv_value (read_value r)) | RSNotFound => RespNull
      | RSUnavailable => RespError kReadUnavailable end). by destruct (read_status r).
  - exists c1, (match read_status r with RSUnavailable => RespError kReadUnavailable
      | _ => RespInteger (ttl_reply CTtl r) end). by destruct (read_status r).
  - exists c1, (match read_status r with RSUnavailable => RespError kReadUnavailable
      | _ => RespInteger (ttl_reply CPttl r) end). by destruct (read_status r).
  - destruct (Hk 0%nat _ eq_refl) as [_ [H1 H2]].
    destruct (write_op_step (de_write env 0) (cmd_key cmd) (fun t => mkVV (cmd_value cmd) t false (to_ttl (cmd_ttl_ms cmd)))
      c W H1 H2) as (c1 & [r w] & E & S1). unfold Cluster_put. rewrite E. cbn [mbind option_bind fst snd].
    exists c1, (if wr_ok r then SimpleString (lit "OK") else RespError kWriteUnavailable). by destruct (wr_ok r).
  - apply delete_keys_replies; [done|]. intros j key Hj. by apply Hk.
  - apply exists_keys_replies; [done|]. intros j key Hj. by apply Hk.
  - destruct (Hk 0%nat _ eq_refl) as [[H1 H2] _].
    destruct (expire_total (de_read env 0) (de_expire_ms env) (de_expire env) (cmd_key cmd)
      (i64 (default 0 (cmd_ttl_ms cmd))) c W H1 H2 He) as (c1 & r & w & E & S1). rewrite E. cbn [mbind option_bind].
    exists c1, (if negb (wr_ok r) then RespError kWriteUnavailable else RespInteger (bool_Z (wr_existed r))).
    by destruct (wr_ok r).
  - destruct (replica_write_total (de_now env) (cmd_key cmd)
      (mkVV (cmd_value cmd) (cmd_version cmd) false (to_ttl (cmd_ttl_ms cmd))) c W) as (c1 & l & E & S1).
    rewrite E. cbn [mbind option_bind]. by exists c1, (RespInteger (bool_Z l)).
  - destruct (replica_write_total (de_now env) (cmd_key cmd) (mkVV [] (cmd_version cmd) true None) c W) as (c1 & l & E & S1).
    rewrite E. cbn [mbind option_bind]. by exists c1, (RespInteger (bool_Z l)).
  - destruct (replica_read_total (de_now env) (cmd_key cmd) c W) as (c1 & v & E & S1).
    rewrite E. cbn [mbind option_bind]. rewrite append_replica_get_value. exists c1, (encode_replica_get v). by destruct v.
Qed.

(** ** Commands that stay on this node *)

(** The same exposure without any reply. *)
Definition deaf_read (e : FullReadEnv) : FullReadEnv :=
  mkFullRead (fr_now e) (mkReadEnv (re_clk (fr_collect e)) []) (fr_repair_now e) (mkWriteEnv (we_clk (fr_writeback e)) []).
Definition deaf_write (e : FullWriteEnv) : FullWriteEnv :=
  mkFullWrite (mkReadEnv (re_clk (fw_query e)) []) (fw_ms e) (mkWriteEnv (we_clk (fw_write e)) []).
Definition deaf (env : DispatchEnv) : DispatchEnv :=
  mkDispatch (de_now env) (fun i => deaf_read (de_read env i)) (fun i => deaf_write (de_write env i))
    (de_expire_ms env) (mkWriteEnv (we_clk (de_expire env)) []).

(** Nothing was sent and no hint queued. *)
Definition quiet (c c' : Server) : Prop :=
  cl_outbox c' = cl_outbox c /\ cl_hints c' = cl_hints c.

Lemma read_here env key (c : Server) :
  can_serve_locally key false c = Some true ->
  Cluster_read (deaf_read env) key c = Cluster_read env key c /\
  forall c' r w, Cluster_read env key c = Some (c', r, w) -> quiet c c' /\ w = None.
Proof.
  intros E. unfold Cluster_read. rewrite E. cbn [mbind option_bind]. split; [done|]. intros c' r w.
  destruct (vs_get_versioned (fr_now env) key (cl_cache c)) as [[s v]|]; [|done]. intros [= <- <- <-]. by split.
Qed.

Lemma replicate_here env key v (c : Server) :
  can_serve_locally key true c = Some true ->
  Cluster_replicate (mkWriteEnv (we_clk env) []) key v c = Cluster_replicate env key v c /\
  forall c' r w, Cluster_replicate env key v c = Some (c', r, w) -> quiet c c' /\ w = None.
Proof.
  intros E. unfold Cluster_replicate. rewrite E. cbn [mbind option_bind]. split; [done|]. intros c' r w.
  cbn [we_clk]. destruct (vs_apply (we_clk env 0%nat) key v (cl_cache c)) as [[[s ch] l]|]; [|done].
  intros [= <- <- <-]. by split.
Qed.

(** A write served here takes its stamp from the clock alone. *)
Lemma next_version_here env ms key (c : Server) :
  can_serve_locally key true c = Some true ->
  next_version env ms key c = Some (set_clock (HybridClock_now ms (cl_clock c)) c, Some (HybridClock_now ms (cl_clock c))).
Proof. intros E. unfold next_version. rewrite E. by case_bool_decide. Qed.

Lemma write_here env key (mk : Z -> VersionedValue) (c : Server) :
  can_serve_locally key true c = Some true ->
  let op e := '(c1, version) ← next_version (fw_query e) (fw_ms e) key c;
              match version with
              | None => Some (c1, write_failed, None)
              | Some t => Cluster_replicate (fw_write e) key (mk t) c1
              end in
  op (deaf_write env) = op env /\ forall c' r w, op env = Some (c', r, w) -> quiet c c'.
Proof.
  intros E op. unfold op. rewrite !next_version_here by done. cbn [mbind option_bind deaf_write fw_write fw_ms].
  set (c1 := set_clock _ c). assert (E1 : can_serve_locally key true c1 = Some true) by done.
  destruct (replicate_here (fw_write env) key (mk (HybridClock_now (fw_ms env) (cl_clock c))) c1 E1) as [H1 H2].
  split; [done|]. intros c' r w Er. by destruct (H2 c' r w Er) as [? _].
Qed.

Lemma expire_here renv ms wenv key ttl (c : Server) :
  can_serve_locally key true c = Some true -> can_serve_locally key false c = Some true ->
  Cluster_expire_key (deaf_read renv) ms (mkWriteEnv (we_clk wenv) []) key ttl c = Cluster_expire_key renv ms wenv key ttl c /\
  forall c' r w, Cluster_expire_key renv ms wenv key ttl c = Some (c', r, w) -> quiet c c'.
Proof.
  intros Ew Er. unfold Cluster_expire_key. destruct (read_here renv key c Er) as [R1 R2]. rewrite R1.
  destruct (Cluster_read renv key c) as [[[c1 cur] w1]|] eqn:E; [|done]. cbn [mbind option_bind].
  destruct (R2 _ _ _ eq_refl) as [Q1 ->].
  assert (M1 : cl_config c1 = cl_config c /\ cl_mem c1 = cl_mem c).
  { unfold Cluster_read in E. rewrite Er in E. cbn [mbind option_bind] in E.
    destruct (vs_get_versioned _ _ _) as [[s v]|]; [|done]. by injection E as <- _. }
  destruct (read_status cur); [|split; [done|]; intros ? ? ? E'; by simplify_eq..].
  unfold clock_now. cbv zeta. set (c2 := set_clock _ c1). set (v := mkVV _ _ _ _).
  assert (E2 : can_serve_locally key true c2 = Some true).
  { rewrite (can_serve_setup key true c c2); [done|apply M1|apply M1]. }
  destruct (replicate_here wenv key v c2 E2) as [W1 W2]. rewrite W1. split; [done|]. intros c' r w.
  destruct (Cluster_replicate wenv key v c2) as [[[c3 r3] w3]|]; [|done]. cbn [mbind option_bind]. intros [= <- _ _].
  destruct (W2 _ _ _ eq_refl) as [[Q2 Q3] _]. destruct Q1 as [Q4 Q5]. split; [rewrite Q2|rewrite Q3]; done.
Qed.

Lemma singleton_keys (keys : list bytes) : (length keys =? 1)%nat = true -> exists k, keys = [k].
Proof. destruct keys as [|k [|? ?]]; try done. eauto. Qed.

(** ** Properties *)


(** What runs on an I/O thread never waits for a peer: a command
    [runs_locally] lets through sends no call, queues no hint, and its result
    does not depend on any reply. *)
Theorem local_commands_stay_local env args c out :
  let cmd := Parser_parse args in
  runs_locally cmd c = Some true ->
  dispatch env cmd c out = dispatch (deaf env) cmd c out /\
  forall c' out', dispatch env cmd c out = Some (c', out') ->
    cl_outbox c' = cl_outbox c /\ cl_hints c' = cl_hints c.
Proof.
  intros cmd. pose proof (parser_first_key args) as Hh. fold cmd in Hh. clearbody cmd.
  unfold runs_locally, dispatch. intros Hl. destruct (cmd_type cmd) eqn:Et;
    try (split; [done|]; intros c' out' [= <- _]; done).
  1, 6, 7: (destruct (read_here (de_read env 0) (cmd_key cmd) c Hl) as [R1 R2]; cbn [deaf de_read]; rewrite R1;
    split; [done|]; intros c' out'; destruct (Cluster_read (de_read env 0) (cmd_key cmd) c) as [[[c1 r] w]|]; [|done];
    cbn [mbind option_bind]; intros [= <- _]; by destruct (R2 _ _ _ eq_refl) as [Q _]).
  - destruct (write_here (de_write env 0) (cmd_key cmd)
      (fun t => mkVV (cmd_value cmd) t false (to_ttl (cmd_ttl_ms cmd))) c Hl) as [R1 R2].
    unfold Cluster_put. cbn [deaf de_write]. rewrite R1. split; [done|]. intros c' out'.
    match type of R2 with forall c' r w, ?o = _ -> _ => destruct o as [[[c1 r] w]|] end; [|done].
    cbn [mbind option_bind]. intros [= <- _]. by apply (R2 _ _ _ eq_refl).
  - destruct (length (cmd_keys cmd) =? 1)%nat eqn:El; [|done]. destruct (singleton_keys _ El) as [k Ek].
    rewrite Ek in *. specialize (Hh ltac:(tauto)). injection Hh as ->. cbn [delete_keys].
    destruct (write_here (de_write env 0) (cmd_key cmd) (fun t => mkVV [] t true None) c Hl) as [R1 R2].
    unfold Cluster_del. cbn [deaf de_write]. rewrite R1. split; [done|]. intros c' out'.
    match type of R2 with forall c' r w, ?o = _ -> _ => destruct o as [[[c1 r] w]|] end; [|done].
    cbn [mbind option_bind]. destruct (wr_ok r); cbn [negb]; intros [= <- _]; by apply (R2 _ _ _ eq_refl).
  - destruct (length (cmd_keys cmd) =? 1)%nat eqn:El; [|done]. destruct (singleton_keys _ El) as [k Ek].
    rewrite Ek in *. specialize (Hh ltac:(tauto)). injection Hh as ->. cbn [exists_keys].
    destruct (read_here (de_read env 0) (cmd_key cmd) c Hl) as [R1 R2]. cbn [deaf de_read]. rewrite R1.
    split; [done|]. intros c' out'. destruct (Cluster_read (de_read env 0) (cmd_key cmd) c) as [[[c1 r] w]|]; [|done].
    cbn [mbind option_bind]. destruct (R2 _ _ _ eq_refl) as [Q _]. destruct (read_status r); by intros [= <- _].
  - destruct (can_serve_locally (cmd_key cmd) true c) as [[|]|] eqn:Ew; try done. cbn [mbind option_bind] in Hl.
    destruct (expire_here (de_read env 0) (de_expire_ms env) (de_expire env) (cmd_key cmd)
      (i64 (default 0 (cmd_ttl_ms cmd))) c Ew Hl) as [R1 R2].
    cbn [deaf de_read de_expire de_expire_ms]. rewrite R1. split; [done|]. intros c' out'.
    match type of R2 with forall c' r w, ?o = _ -> _ => destruct o as [[[c1 r] w]|] end; [|done].
    cbn [mbind option_bind]. intros [= <- _]. by apply (R2 _ _ _ eq_refl).
  - split; [done|]. intros c' out'. unfold Cluster_apply_replica_write.
    destruct (vs_apply _ _ _ _) as [[[s ch] l]|]; [|done]. by intros [= <- _].
  - split; [done|]. intros c' out'. unfold Cluster_apply_replica_write.
    destruct (vs_apply _ _ _ _) as [[[s ch] l]|]; [|done]. by intros [= <- _].
  - split; [done|]. intros c' out'. unfold Cluster_replica_read.
    destruct (vs_get_versioned _ _ _) as [[s v]|]; [|done]. by intros [= <- _].
  - split; [done|]. intros c' out'. rewrite dispatch_gossip_handle. intros [= <- _].
    by destruct (decode_members _).
Qed.

Lemma i64_small n : - 2 ^ 63 <= n < 2 ^ 63 -> i64 n = n.
Proof.
  intros H. unfold i64, wrap. destruct (decide (0 <= n)).
  - rewrite Z.mod_small by lia. by rewrite (proj2 (Z.ltb_lt _ _)) by lia.
  - rewrite <-(Z_mod_plus_full n 1 (2 ^ 64)), Z.mod_small by lia. rewrite (proj2 (Z.ltb_ge _ _)); lia.
Qed.

Lemma received_positive v : ttl_positive (received v).
Proof.
  unfold ttl_positive, received. intros ms. destruct (vv_tombstone v); [done|]. simpl.
  destruct (vv_ttl v); simpl; [intros [= <-]; lia|done].
Qed.

(** The receiver of a replicated write runs [apply_replica_write]. *)
Lemma dispatch_replica_write env key v c :
  sendable v ->
  dispatch env (replica_write_parsed key v) c [] =
  '(c', live) ← Cluster_apply_replica_write (de_now env) key (received v) c;
  Some (c', append_value [] (RespInteger (bool_Z live))).
Proof.
  intros [Hv Ht]. unfold dispatch, replica_write_parsed, received. destruct (vv_tombstone v); [done|].
  cbn [cmd_type cmd_key cmd_value cmd_version cmd_ttl_ms vv_value vv_version vv_ttl to_ttl].
  destruct (vv_ttl v) as [ms|]; [|done]. cbn [fmap option_fmap option_map to_ttl].
  specialize (Ht eq_refl ms eq_refl). unfold kMaxTtlMs, kMaxTtlSeconds in Ht.
  unfold to_ttl. simpl fmap. rewrite i64_small by lia. done.
Qed.

(** C17: A replicated write, end to end: the peer parses the caller's bytes, runs
    the command on its I/O thread, ends in the state [apply_replica_write]
    leaves, where it holds the write or something newer, and the caller decodes
    the reply bytes to whether the key was live before. *)
Theorem replica_write_rpc env key v c rest rest' :
  cluster_wf c -> sendable v -> bulk_ok key -> bulk_ok (vv_value v) ->
  exists args c' live reply,
    parse_request (resp_command (replica_write_command key v) ++ rest) =
      POk args (length (resp_command (replica_write_command key v))) /\
    runs_locally (Parser_parse args) c = Some true /\
    dispatch env (Parser_parse args) c [] = Some (c', append_value [] reply) /\
    Cluster_apply_replica_write (de_now env) key (received v) c = Some (c', live) /\
    live = live_stamp (vs_view (de_now env) key (cl_cache c)) /\
    ostamp_le (Some (stamp_of_vv (received v))) (vs_view (de_now env) key (cl_cache c')) /\
    parse_reply (append_value [] reply ++ rest') = Some (POk reply (length (append_value [] reply))) /\
    decode_replica_write reply = rr_success live.
Proof.
  intros W Hs Hk Hv. destruct (replica_write_wire key v rest Hs Hk Hv) as (args & E1 & E2).
  destruct (vs_apply_law (de_now env) key (received v) (cl_cache c) (cw_cache c W)) as (s & ch & live & Ea & _ & Hm & Hl & _).
  destruct (Hm (received_positive v)) as [Hm' _].
  pose proof (dispatch_replica_write env key v c Hs) as D. rewrite <-E2 in D.
  unfold Cluster_apply_replica_write in *. rewrite Ea in *. cbn [mbind option_bind] in *.
  eexists args, _, live, _. split; [exact E1|]. split.
  { rewrite E2. unfold runs_locally, replica_write_parsed. by destruct (vv_tombstone v). }
  split; [exact D|]. split; [reflexivity|]. split; [done|]. split; [|split].
  - cbn [cl_cache set_cache set_clock]. rewrite Hm'. apply ostamp_le_max_r.
  - apply reply_parses. constructor. destruct live; simpl; lia.
  - by destruct live.
Qed.

(** A replica read, end to end: the peer parses the caller's bytes, runs the
    command on its I/O thread without changing what it holds, and the caller
    decodes the reply bytes to the stamp the peer holds, or to "nothing". *)
Theorem replica_read_rpc env key c rest rest' :
  cluster_wf c -> bulk_ok key ->
  (forall s v, vs_get_versioned (de_now env) key (cl_cache c) = Some (s, Some v) ->
     0 <= vv_version v < 2 ^ 64 /\ bulk_ok (vv_value v) /\ forall ms, vv_ttl v = Some ms -> ms < 2 ^ 63) ->
  exists c' reply,
    parse_request (resp_command (replica_get_command key) ++ rest) =
      POk (replica_get_command key) (length (resp_command (replica_get_command key))) /\
    runs_locally (Parser_parse (replica_get_command key)) c = Some true /\
    dispatch env (Parser_parse (replica_get_command key)) c [] = Some (c', append_value [] reply) /\
    (forall t k, vs_view t k (cl_cache c') = vs_view t k (cl_cache c)) /\
    parse_reply (append_value [] reply ++ rest') = Some (POk reply (length (append_value [] reply))) /\
    match rr_status (decode_replica_get reply) with
    | ROk => stamp_of_vv <$> rr_value (decode_replica_get reply) = vs_view (de_now env) key (cl_cache c)
    | RNotFound => vs_view (de_now env) key (cl_cache c) = None
    | _ => False
    end.
Proof.
  intros W Hk Hst. destruct (vs_get_law (de_now env) key (cl_cache c) (cw_cache c W)) as (s & o & E & _ & Hv).
  assert (Ev : vs_view (de_now env) key (cl_cache c) = stamp_of_vv <$> o) by (unfold vs_view; by rewrite E).
  assert (Ho : forall v, o = Some v -> 0 <= vv_version v < 2 ^ 64 /\ bulk_ok (vv_value v) /\
    forall ms, vv_ttl v = Some ms -> ms < 2 ^ 63) by (intros v ->; by apply (Hst s)).
  destruct (replica_get_wire o rest' Ho) as (r & P & D).
  assert (r = encode_replica_get o) as ->.
  { assert (Wf : resp_wf (encode_replica_get o)).
    { destruct o as [v|]; [|constructor]. destruct (Ho v eq_refl) as (_ & Hb & Ht). by apply encode_get_wf. }
    rewrite (reply_parses _ rest' Wf) in P. by injection P. }
  eexists (set_cache s c), (encode_replica_get o). split; [|split; [done|split; [|split; [done|split; [done|]]]]].
  - apply parse_command. split; [unfold kMaxArrayLength; simpl; lia|].
    unfold replica_get_command. repeat (apply Forall_cons; split); [|done|constructor].
    apply short_bulk_ok. vm_compute. lia.
  - rewrite parse_replica_get. unfold dispatch, Cluster_replica_read. cbn [cmd_type cmd_key]. rewrite E.
    cbn [mbind option_bind]. by rewrite append_replica_get_value.
  - rewrite D, Ev. by destruct o.
Qed.

(** A put that fans out, in either mode. *)
Lemma put_fanout env key value ttl c targets :
  cluster_wf c -> Cluster_preference_list key (cl_mem c) = Some targets -> targets <> [] ->
  can_serve_locally key true c = Some false -> read_env_ok c key (fw_query env) -> write_env_ok c key (fw_write env) ->
  (exists c', Cluster_put env key value ttl c = Some (c', write_failed, None)) \/
  exists c' w t acked, Cluster_put env key value ttl c =
      Some (c', mkWR (write_needed c (length targets) <=? length acked)%nat (wc_existed w) (length acked), Some w) /\
    NoDup (cn_id <$> acked) /\ (forall n, n ∈ acked -> n ∈ targets /\
      (cn_id n = local_id (cl_mem c) /\
         (ttl_positive (mkVV value t false ttl) ->
            exists now, ostamp_le (Some (mkStamp t false value)) (vs_view now key (cl_cache c'))) \/
       exists now res, (now, n, res) ∈ we_arrivals (fw_write env) /\ acknowledges res = true)).
Proof.
  intros W Ht Hne Hl Hr Hw.
  destruct (next_version_total (fw_query env) (fw_ms env) key c W Hr) as (c1 & o & E & W1 & [Mc Mm]).
  unfold Cluster_put. rewrite E. cbn [mbind option_bind]. destruct o as [t|]; [|left; eauto]. right.
  destruct (replicate_fanout (fw_write env) key (mkVV value t false ttl) c1 targets) as
    (c' & w & acked & hintd & Er & I & (_ & Mm' & _) & K1 & K2 & _); [done|by rewrite Mm|done| | |].
  - by rewrite (can_serve_setup key true c c1).
  - unfold write_arrivals_ok, called. rewrite Mm. by apply Hw.
  - exists c', w, t, acked. rewrite Er. unfold write_needed. rewrite Mm, Mc. split; [done|].
    destruct (targets_exist key (cl_mem c) (cw_routing c W)) as (T & Ht' & ND & _).
    rewrite Ht in Ht'. injection Ht' as <-. rewrite (wi_perm _ _ _ _ _ _ I), fmap_app in ND.
    split; [by apply NoDup_app in ND as (? & _)|]. intros n Hn.
    assert (HnT : n ∈ targets) by (rewrite (wi_perm _ _ _ _ _ _ I); set_solver). split; [done|].
    destruct (decide (cn_id n = local_id (cl_mem c))) as [El|El].
    + left. split; [done|]. intros Hp. destruct (wi_local _ _ _ _ _ _ I n HnT) as [_ Hv]; [congruence|].
      rewrite K1, K2 in Hv. by apply Hv.
    + right. destruct (wi_acked _ _ _ _ _ _ I n Hn) as [?|?]; [congruence|done].
Qed.

(** What OK means to a client: SET is answered OK exactly when a write quorum
    of the key's replicas, each counted once, either is this node, which now
    holds the value or something newer, or has acknowledged it; otherwise the
    client is told that the quorum was not reached. *)
Theorem client_set_ok env key value ttl c targets :
  cluster_wf c -> Cluster_preference_list key (cl_mem c) = Some targets -> targets <> [] ->
  can_serve_locally key true c = Some false ->
  read_env_ok c key (fw_query (de_write env 0%nat)) -> write_env_ok c key (fw_write (de_write env 0%nat)) ->
  (forall ms, ttl = Some ms -> 0 < ms <= kMaxTtlMs) ->
  exists c' reply,
    dispatch env (Parser_parse (client_set_args key value ttl)) c [] = Some (c', append_value [] reply) /\
    if rr_is_ok (expect_ok (rr_success reply)) then
      exists t acked, (write_needed c (length targets) <= length acked)%nat /\ NoDup (cn_id <$> acked) /\
        forall n, n ∈ acked -> n ∈ targets /\
          (cn_id n = local_id (cl_mem c) /\
             (exists now, ostamp_le (Some (mkStamp t false value)) (vs_view now key (cl_cache c'))) \/
           exists now res, (now, n, res) ∈ we_arrivals (fw_write (de_write env 0%nat)) /\ acknowledges res = true)
    else reply = RespError kWriteUnavailable.
Proof.
  intros W Ht Hne Hl Hr Hw Httl.
  assert (Ep : Parser_parse (client_set_args key value ttl) = mkCommand CSet key [] value ttl 0 []).
  { unfold client_set_args. destruct ttl as [ms|]; [|done]. unfold Parser_parse. cbn [app].
    change (to_upper (lit "SET")) with (lit "SET"). rewrite parse_verb_SET.
    change (Z.of_nat (length [lit "SET"; key; value; lit "PX"; to_dec ms]) <? 3) with false.
    cbn [drop]. unfold with_options. by rewrite parse_px by (apply Httl; done). }
  assert (Et : to_ttl ttl = ttl).
  { destruct ttl as [ms|]; [|done]. specialize (Httl ms eq_refl). unfold kMaxTtlMs, kMaxTtlSeconds in Httl.
    unfold to_ttl. simpl. by rewrite i64_small by lia. }
  rewrite Ep. unfold dispatch. cbn [cmd_type cmd_key cmd_value cmd_ttl_ms]. rewrite Et.
  destruct (put_fanout (de_write env 0) key value ttl c targets W Ht Hne Hl Hr Hw)
    as [[c' E]|(c' & w & t & acked & E & ND & HA)]; rewrite E; cbn [mbind option_bind wr_ok].
  { by exists c', (RespError kWriteUnavailable). }
  destruct (_ <=? _)%nat eqn:Eq; cycle 1.
  { by exists c', (RespError kWriteUnavailable). }
  exists c', (SimpleString (lit "OK")). split; [done|]. cbn. bool_facts. exists t, acked. split; [done|]. split; [done|].
  intros n Hn. destruct (HA n Hn) as [? [[? Hv]|?]]; (split; [done|]); [left|by right].
  split; [done|]. apply Hv. intros ms Hms. by apply (Httl ms).
Qed.

(** The text of an unknown command is echoed in the error line as it came, so a
    request whose verb holds a line break is answered by bytes a client reads as
    two replies, the second of its sender's choosing. *)
Theorem unknown_command_injects env c :
  let args := [lit "X" ++ CRLF ++ lit "+OK"] in
  parse_request (resp_command args) = POk args (length (resp_command args)) /\
  exists bytes n rest,
    dispatch env (Parser_parse args) c [] = Some (c, bytes) /\
    parse_reply bytes = Some (POk (RespError (lit "ERR unknown command 'X")) n) /\
    parse_reply (drop n bytes) = Some (POk (SimpleString (lit "OK'")) rest).
Proof.
  cbv zeta. split; [vm_compute; reflexivity|]. eexists _, 25%nat, 6%nat.
  split; [vm_compute; reflexivity|]. split; vm_compute; reflexivity.
Qed.

(** *** Witnesses: the sample node over a sharded cache *)

Definition sample_server (mode : Consistency) : Server :=
  mkCluster (mkConfig 0 0 10 mode) sample_mem 100 small_sharded ∅ (mkCounters 0 0 0 0 0 0) [].

Definition sample_env : DispatchEnv :=
  mkDispatch 0 (fun _ => sample_read) (fun _ => mkFullWrite sample_collect 1 sample_write) 1 sample_write.

Lemma sample_server_wf mode : cluster_wf (sample_server mode).
Proof.
  split.
  - apply sharded_new_wf; lia.
  - simpl. lia.
  - intros id q Hq. cbn [cl_hints sample_server] in Hq. by rewrite lookup_empty in Hq.
  - exact (cw_routing _ (sample_wf mode)).
Qed.

Lemma sample_exposed_write mode : write_env_ok (sample_server mode) sample_key sample_write.
Proof.
  intros targets Ht. cbn [cl_mem sample_server] in Ht. rewrite sample_targets_eq in Ht.
  apply (inj Some) in Ht as <-. exact (sample_write_ok mode).
Qed.

Lemma sample_exposed_read mode : read_env_ok (sample_server mode) sample_key sample_collect.
Proof.
  intros targets Ht. cbn [cl_mem sample_server] in Ht. rewrite sample_targets_eq in Ht.
  apply (inj Some) in Ht as <-. exact (sample_read_ok mode).
Qed.

Lemma sample_dispatch_ok mode cmd :
  command_keys cmd = [sample_key] -> cmd_key cmd = sample_key -> dispatch_env_ok (sample_server mode) sample_env cmd.
Proof.
  intros E1 E2. split; [|rewrite E2; apply sample_exposed_write]. intros i key. rewrite E1.
  intros Hi. destruct i; [|discriminate Hi]. injection Hi as <-.
  split; (split; [apply sample_exposed_read|apply sample_exposed_write]).
Qed.


Lemma local_commands_stay_local_witness :
  dispatch sample_env (Parser_parse [lit "repl_del"; sample_key; lit "7"]) (sample_server Quorum) [] =
  dispatch (deaf sample_env) (Parser_parse [lit "repl_del"; sample_key; lit "7"]) (sample_server Quorum) [].
Proof.
  apply (local_commands_stay_local sample_env [lit "repl_del"; sample_key; lit "7"] (sample_server Quorum) []).
  vm_compute. reflexivity.
Defined.

Definition sample_vv : VersionedValue := mkVV (lit "v") 150 false (Some 0).

Lemma replica_write_rpc_witness :
  exists args c' live reply,
    parse_request (resp_command (replica_write_command sample_key sample_vv) ++ []) =
      POk args (length (resp_command (replica_write_command sample_key sample_vv))) /\
    dispatch sample_env (Parser_parse args) (sample_server Quorum) [] = Some (c', append_value [] reply) /\
    decode_replica_write reply = rr_success live.
Proof.
  destruct (replica_write_rpc sample_env sample_key sample_vv (sample_server Quorum) [] [])
    as (args & c' & live & reply & H1 & _ & H3 & _ & _ & _ & _ & H8).
  - apply sample_server_wf.
  - split; [vm_compute; split; [discriminate|reflexivity]|]. intros _ ms Hms. injection Hms as <-. vm_compute. discriminate.
  - apply short_bulk_ok. vm_compute. lia.
  - apply short_bulk_ok. vm_compute. lia.
  - exists args, c', live, reply. split; [exact H1|]. split; [exact H3|exact H8].
Defined.

Lemma replica_read_rpc_witness :
  exists c' reply,
    dispatch sample_env (Parser_parse (replica_get_command sample_key)) (sample_server Quorum) [] =
      Some (c', append_value [] reply) /\
    parse_reply (append_value [] reply ++ []) = Some (POk reply (length (append_value [] reply))).
Proof.
  destruct (replica_read_rpc sample_env sample_key (sample_server Quorum) [] [])
    as (c' & reply & _ & _ & H3 & _ & H5 & _).
  - apply sample_server_wf.
  - apply short_bulk_ok. vm_compute. lia.
  - intros s v H. vm_compute in H. discriminate H.
  - exists c', reply. split; [exact H3|exact H5].
Defined.

Lemma client_set_ok_witness :
  exists c' reply,
    dispatch sample_env (Parser_parse (client_set_args sample_key (lit "v") (Some 5))) (sample_server Quorum) [] =
      Some (c', append_value [] reply).
Proof.
  destruct (client_set_ok sample_env sample_key (lit "v") (Some 5) (sample_server Quorum) sample_targets)
    as (c' & reply & E & _).
  - apply sample_server_wf.
  - exact sample_targets_eq.
  - exact sample_nonempty.
  - vm_compute. reflexivity.
  - apply sample_exposed_read.
  - apply sample_exposed_write.
  - intros ms Hms. injection Hms as <-. vm_compute. split; [reflexivity|discriminate].
  - exists c', reply. exact E.
Defined.
