(* ===== verification/Rebalance.v ===== *)
(** * Rebalancing

    Models [Cluster::send_write]'s use in [Cluster::rebalance_now]
    (src/cluster.cpp) over a node whose store is the sharded cache: when the
    published routing table is not the one the data was last placed for, every
    shard is walked, entries are pushed to the owners that are new, and keys the
    node no longer owns are removed.

    Tables are compared by pointer; a table is therefore paired with the number
    of the publication that created it.  [send] answers, for a key and a node,
    whether [send_write] succeeds: a pass sends a key to a node at most once. *)

From S2P Require Import Prelude Numerals CacheEntry Cache CacheSpec CacheRefine CacheProps VersionedStore ShardedCache HybridClock ConsistentHash RoutingTable HealthChecker Membership Resp Parser ReplicaWire Cluster ClusterLemmas ClusterProps CommandHandler HandlerProps.

Local Open Scope Z_scope.

(** ** The pass *)

(** What a pass is exposed to: the time shard [i] is visited, the time of the
    other clock readings, and the outcome of each push. *)
Record RebalanceEnv := mkRebalanceEnv {
  rb_clk : nat -> Z;
  rb_now : Z;
  rb_send : bytes -> CacheNode -> bool
}.

(** A published table: its publication's number, and the table. *)
Abbreviation Published := (Z * RoutingTable)%type.

(** A push, and whether it was acknowledged. *)
Record Push := mkPush { push_node : CacheNode; push_key : bytes; push_value : VersionedValue; push_ok : bool }.

(** The ids of the owners under the table the data was placed for; [None] is an
    index out of range. *)
Definition old_owners (previous : option Published) (key : bytes) : option (list bytes) :=
  match previous with
  | None => Some []
  | Some (_, t) =>
      match rt_points_ t with
      | [] => Some []
      | _ =>
          idxs ← rt_replicas_ t !! RoutingTable_point_for key t;
          mapM (fun idx => cn_id <$> rt_nodes_ t !! Z.to_nat idx) idxs
      end
  end.

(** The locals of one entry's loop, the state, and the pushes so far. *)
Record HandOff := mkHandOff {
  ho_cluster : Server;
  ho_still_owner : bool;
  ho_handed_off : bool;
  ho_pushes : list Push
}.

(** One iteration over the owners. *)
Definition hand_off_step (env : RebalanceEnv) (key : bytes) (value : VersionedValue) (old : list bytes)
    (h : HandOff) (node : CacheNode) : option HandOff :=
  let c := ho_cluster h in
  if bytes_eqb (cn_id node) (local_id (cl_mem c)) then
    Some (mkHandOff c true (ho_handed_off h) (ho_pushes h))
  else if bool_decide (cn_id node ∈ old) then Some h
  else if rb_send env key node then
    Some (mkHandOff c (ho_still_owner h) (ho_handed_off h) (ho_pushes h ++ [mkPush node key value true]))
  else
    c' ← add_hint (rb_now env) node key value c;
    Some (mkHandOff c' (ho_still_owner h) false (ho_pushes h ++ [mkPush node key value false])).

Fixpoint hand_off (env : RebalanceEnv) (key : bytes) (value : VersionedValue) (old : list bytes)
    (nodes : list CacheNode) (h : HandOff) : option HandOff :=
  match nodes with
  | [] => Some h
  | node :: rest => h' ← hand_off_step env key value old h node; hand_off env key value old rest h'
  end.

(** One entry of a batch. *)
Definition rebalance_entry (env : RebalanceEnv) (previous : option Published) (target : RoutingTable)
    (key : bytes) (value : VersionedValue) (c : Server) : option (Server * list Push) :=
  old ← old_owners previous key;
  owners ← RoutingTable_preference_list key target;
  h ← hand_off env key value old owners (mkHandOff c false true []);
  if negb (ho_still_owner h) && ho_handed_off h then
    '(s, _) ← vs_remove (rb_now env) key (cl_cache (ho_cluster h));
    Some (set_cache s (ho_cluster h), ho_pushes h)
  else Some (ho_cluster h, ho_pushes h).

Fixpoint rebalance_batch (env : RebalanceEnv) (previous : option Published) (target : RoutingTable)
    (batch : list (bytes * VersionedValue)) (c : Server) : option (Server * list Push) :=
  match batch with
  | [] => Some (c, [])
  | (key, value) :: rest =>
      '(c1, p1) ← rebalance_entry env previous target key value c;
      '(c2, p2) ← rebalance_batch env previous target rest c1;
      Some (c2, p1 ++ p2)
  end.

(** [for_each_shard_snapshot] from shard [i] on, [n] shards left: each batch is
    taken from the shard as it is when visited. *)
Fixpoint rebalance_shards (env : RebalanceEnv) (previous : option Published) (target : RoutingTable)
    (n i : nat) (c : Server) : option (Server * list Push) :=
  match n with
  | O => Some (c, [])
  | S n' =>
      shard ← shards_ (cl_cache c) !! i;
      '(c1, p1) ← rebalance_batch env previous target (Cache_snapshot (rb_clk env i) shard []) c;
      '(c2, p2) ← rebalance_shards env previous target n' (i + 1) c1;
      Some (c2, p1 ++ p2)
  end.

Definition count_moved (n : Z) (k : ClusterCounters) : ClusterCounters :=
  mkCounters (read_quorum_failures k) (write_quorum_failures k) (read_repairs k) (hints_delivered k)
    (hints_dropped k) (u64 (keys_moved k + n)).

(** [Cluster::rebalance_now]; [epoch] numbers the publication of the current
    table and [placed] is [placed_for_]. *)
Definition rebalance_now (env : RebalanceEnv) (epoch : Z) (placed : option Published) (c : Server)
    : option (Server * option Published * list Push) :=
  if bool_decide (fst <$> placed = Some epoch) then Some (c, placed, [])
  else
    let target := routing_ (cl_mem c) in
    '(c', pushes) ← rebalance_shards env placed target (length (shards_ (cl_cache c))) 0 c;
    Some (set_counters (count_moved (Z.of_nat (length (List.filter push_ok pushes)))) c',
          Some (epoch, target), pushes).

(** ** One entry *)

(** The owners that have to be sent the entry. *)
Definition new_owner (c : Server) (old : list bytes) (node : CacheNode) : bool :=
  negb (bytes_eqb (cn_id node) (local_id (cl_mem c))) && negb (bool_decide (cn_id node ∈ old)).

Definition pushes_for (env : RebalanceEnv) (key : bytes) (value : VersionedValue) (nodes : list CacheNode) : list Push :=
  (fun n => mkPush n key value (rb_send env key n)) <$> nodes.

Definition same_store (c c' : Server) : Prop := same_setup c c' /\ cl_cache c' = cl_cache c.

Lemma hand_off_spec env key value old nodes h :
  cluster_wf (ho_cluster h) ->
  exists h', hand_off env key value old nodes h = Some h' /\
    cluster_wf (ho_cluster h') /\ same_store (ho_cluster h) (ho_cluster h') /\
    let new := List.filter (new_owner (ho_cluster h) old) nodes in
    ho_pushes h' = ho_pushes h ++ pushes_for env key value new /\
    ho_handed_off h' = ho_handed_off h && forallb (rb_send env key) new /\
    ho_still_owner h' = ho_still_owner h || bool_decide (local_id (cl_mem (ho_cluster h)) ∈ cn_id <$> nodes).
Proof.
  revert h. induction nodes as [|node nodes IH]; intros h W; cbn [hand_off].
  { exists h. split; [done|]. split; [done|]. split; [by split|]. simpl.
    rewrite app_nil_r, andb_true_r. by rewrite orb_false_r. }
  assert (K : exists h1, hand_off_step env key value old h node = Some h1 /\ cluster_wf (ho_cluster h1) /\
    same_store (ho_cluster h) (ho_cluster h1) /\
    let new := List.filter (new_owner (ho_cluster h) old) [node] in
    ho_pushes h1 = ho_pushes h ++ pushes_for env key value new /\
    ho_handed_off h1 = ho_handed_off h && forallb (rb_send env key) new /\
    ho_still_owner h1 = ho_still_owner h || bool_decide (cn_id node = local_id (cl_mem (ho_cluster h)))).
  { unfold hand_off_step. cbn [List.filter]. unfold new_owner. unfold bytes_eqb. destruct (bool_decide (cn_id node = _)) eqn:El; cbn [negb andb].
    { eexists. split; [reflexivity|]. split; [done|]. split; [by split|]. simpl.
      by rewrite app_nil_r, andb_true_r, orb_true_r. }
    destruct (bool_decide (cn_id node ∈ old)); cbn [negb].
    { exists h. split; [done|]. split; [done|]. split; [by split|]. simpl. by rewrite app_nil_r, andb_true_r, orb_false_r. }
    destruct (rb_send env key node) eqn:Es.
    { eexists. split; [reflexivity|]. split; [done|]. split; [by split|]. simpl. by rewrite Es, andb_true_r, orb_false_r. }
    destruct (add_hint_spec (rb_now env) node key value (ho_cluster h) W) as (c' & E & W' & Sm & Sc & _). rewrite E.
    cbn [mbind option_bind]. eexists. split; [reflexivity|]. split; [done|]. split; [by split|]. simpl.
    by rewrite Es, andb_false_r, orb_false_r. }
  destruct K as (h1 & -> & W1 & S1 & P1 & D1 & O1). cbn [mbind option_bind].
  destruct (IH h1 W1) as (h2 & E2 & W2 & S2 & P2 & D2 & O2). exists h2. split; [done|]. split; [done|].
  destruct S1 as [(C1 & M1 & T1) Q1], S2 as [S2 Q2].
  split; [split; [etrans; [|exact S2]; done|congruence]|].
  assert (Ef : forall n, new_owner (ho_cluster h1) old n = new_owner (ho_cluster h) old n) by (intros n; unfold new_owner; by rewrite M1).
  assert (Efl : List.filter (new_owner (ho_cluster h1) old) nodes = List.filter (new_owner (ho_cluster h) old) nodes)
    by (by apply List.filter_ext). rewrite Efl in P2, D2. change (node :: nodes) with ([node] ++ nodes).
  rewrite List.filter_app. unfold pushes_for in *. rewrite fmap_app, forallb_app, P2, P1, D2, D1, O2, O1, M1.
  split; [by rewrite <-app_assoc|]. split; [by rewrite andb_assoc|]. rewrite <-orb_assoc. f_equal.
  rewrite fmap_app, <-bool_decide_or. apply bool_decide_ext. rewrite elem_of_app.
  change (cn_id <$> [node]) with [cn_id node]. rewrite list_elem_of_singleton. split; intros [?|?]; auto.
Qed.

(** What happens to an entry: it is pushed to the owners that are new; it stays
    if this node owns it or if some push failed, and is removed otherwise. *)
Definition leaves (env : RebalanceEnv) (c : Server) (key : bytes) (old : list bytes) (owners : list CacheNode) : bool :=
  negb (bool_decide (local_id (cl_mem c) ∈ cn_id <$> owners)) &&
  forallb (rb_send env key) (List.filter (new_owner c old) owners).

Lemma rebalance_entry_spec env previous target key value c old owners :
  cluster_wf c -> old_owners previous key = Some old -> RoutingTable_preference_list key target = Some owners ->
  exists c', rebalance_entry env previous target key value c =
      Some (c', pushes_for env key value (List.filter (new_owner c old) owners)) /\
    cluster_wf c' /\ same_setup c c' /\ length (shards_ (cl_cache c')) = length (shards_ (cl_cache c)) /\
    (forall t k, k <> key -> vs_view t k (cl_cache c') = vs_view t k (cl_cache c)) /\
    (forall t, vs_view t key (cl_cache c') =
       if leaves env c key old owners then None else vs_view t key (cl_cache c)).
Proof.
  intros W Ho Hp. unfold rebalance_entry. rewrite Ho, Hp. cbn [mbind option_bind].
  destruct (hand_off_spec env key value old owners (mkHandOff c false true []) W) as (h & -> & Wh & [Sh Qh] & Ph & Dh & Oh).
  cbn [mbind option_bind ho_cluster ho_pushes ho_handed_off ho_still_owner] in *. rewrite Ph, Dh, Oh. unfold leaves.
  cbn [orb andb app]. destruct (negb _ && _); cycle 1.
  { exists (ho_cluster h). split; [done|]. split; [done|]. split; [done|]. rewrite Qh. by split_and!. }
  destruct (vs_remove_law (rb_now env) key (cl_cache (ho_cluster h)) (cw_cache _ Wh)) as (s & b & E & Ws & Hn & Ho').
  rewrite E. cbn [mbind option_bind]. eexists. split; [reflexivity|]. rewrite Qh in *.
  split; [by apply set_cache_wf|]. split; [etrans; [exact Sh|done]|]. cbn [set_cache cl_cache].
  split_and!; [|intros t k Hk; by apply Ho'|done].
  simpl in E. unfold ShardedCache_remove, with_shard in E.
  destruct (shards_ (cl_cache c) !! _); [|done]. cbn [mbind option_bind] in E.
  destruct (Cache_remove _ _ _) as [[? ?]|]; [|done]. cbn [mbind option_bind] in E. injection E as <- _.
  cbn [shards_]. by rewrite length_insert.
Qed.

(** ** A batch, and the walk over the shards *)

(** The tables give every key its owners. *)
Definition tables_ok (previous : option Published) (target : RoutingTable) : Prop :=
  forall key, is_Some (old_owners previous key) /\ is_Some (RoutingTable_preference_list key target).

Lemma old_owners_preference e t key :
  old_owners (Some (e, t)) key = (fun l : list CacheNode => cn_id <$> l) <$> RoutingTable_preference_list key t.
Proof.
  unfold old_owners, RoutingTable_preference_list. destruct (rt_points_ t); [done|].
  unfold RoutingTable_preference_list_at. destruct (rt_replicas_ t !! _) as [idxs|]; [|done]. cbn [mbind option_bind].
  induction idxs as [|i idxs IH]; [done|]. cbn [mapM]. destruct (rt_nodes_ t !! Z.to_nat i); [|done]. simpl.
  rewrite IH. destruct (mapM (fun idx => rt_nodes_ t !! Z.to_nat idx) idxs); reflexivity.
Qed.

(** From [c] to [c'] the pass has dealt with the entry of [key]: it was pushed,
    and left or stayed. *)
Definition dealt_with (env : RebalanceEnv) (previous : option Published) (target : RoutingTable) (c c' : Server)
    (pushes : list Push) (key : bytes) (value : VersionedValue) : Prop :=
  forall old owners, old_owners previous key = Some old -> RoutingTable_preference_list key target = Some owners ->
    (forall p, p ∈ pushes_for env key value (List.filter (new_owner c old) owners) -> p ∈ pushes) /\
    forall t, vs_view t key (cl_cache c') = if leaves env c key old owners then None else vs_view t key (cl_cache c).

Definition same_size (c c' : Server) : Prop :=
  same_setup c c' /\ length (shards_ (cl_cache c')) = length (shards_ (cl_cache c)).

#[local] Instance same_size_preorder : PreOrder same_size.
Proof. split; [by intros c|]. intros a b c [H1 L1] [H2 L2]. split; [by transitivity b|congruence]. Qed.

Lemma leaves_setup env c c' key old owners : same_size c c' -> leaves env c' key old owners = leaves env c key old owners.
Proof. intros [(_ & M & _) _]. unfold leaves, new_owner. by rewrite M. Qed.

Lemma new_owner_setup c c' old owners :
  same_size c c' -> List.filter (new_owner c' old) owners = List.filter (new_owner c old) owners.
Proof. intros [(_ & M & _) _]. unfold new_owner. by rewrite M. Qed.

Lemma rebalance_batch_spec env previous target batch c :
  cluster_wf c -> tables_ok previous target -> NoDup batch.*1 ->
  exists c' pushes, rebalance_batch env previous target batch c = Some (c', pushes) /\
    cluster_wf c' /\ same_size c c' /\
    (forall t k, k ∉ batch.*1 -> vs_view t k (cl_cache c') = vs_view t k (cl_cache c)) /\
    (forall k v, (k, v) ∈ batch -> dealt_with env previous target c c' pushes k v).
Proof.
  intros W T. revert c W. induction batch as [|[key value] batch IH]; intros c W ND; cbn [rebalance_batch].
  { exists c, []. split_and!; try done. intros k v Hk. by apply elem_of_nil in Hk. }
  rewrite fmap_cons in ND. apply NoDup_cons in ND as [Hk ND]. destruct (T key) as [[old Ho] [owners Hp]].
  destruct (rebalance_entry_spec env previous target key value c old owners W Ho Hp) as (c1 & E1 & W1 & S1 & L1 & V1 & V1').
  rewrite E1. cbn [mbind option_bind]. destruct (IH c1 W1 ND) as (c2 & p2 & E2 & W2 & S2 & V2 & D2). rewrite E2.
  cbn [mbind option_bind]. assert (S1' : same_size c c1) by done.
  eexists _, _. split; [reflexivity|]. split; [done|]. split; [by transitivity c1|]. split.
  - intros t k. rewrite fmap_cons, not_elem_of_cons. intros [H1 H2]. by rewrite V2, V1.
  - intros k v [Ek|Hin]%elem_of_cons.
    + simplify_eq. intros old' owners' Ho' Hp'. rewrite Ho in Ho'. rewrite Hp in Hp'. simplify_eq.
      split; [intros p Hp''; apply elem_of_app; by left|]. intros t. by rewrite V2, V1'.
    + intros old' owners' Ho' Hp'. destruct (D2 k v Hin old' owners' Ho' Hp') as [P2 Q2].
      rewrite (new_owner_setup c c1) in P2 by done. split; [intros p Hp''; apply elem_of_app; right; by apply P2|].
      intros t. rewrite Q2, (leaves_setup env c c1), V1 by done || (intros ->; apply Hk; by apply (list_elem_of_fmap_2 fst _ (key, v))).
      done.
Qed.

(** The shard of a key does not move. *)
Lemma shard_of_size k c c' : same_size c c' -> get_shard_index k (cl_cache c') = get_shard_index k (cl_cache c).
Proof. intros [_ L]. unfold get_shard_index. by rewrite L. Qed.

Lemma rebalance_shards_spec env previous target n i c :
  cluster_wf c -> tables_ok previous target -> (i + n <= length (shards_ (cl_cache c)))%nat ->
  exists c' pushes, rebalance_shards env previous target n i c = Some (c', pushes) /\
    cluster_wf c' /\ same_size c c' /\
    (forall t k, ~ (i <= get_shard_index k (cl_cache c) < i + n)%nat ->
       vs_view t k (cl_cache c') = vs_view t k (cl_cache c)) /\
    (forall t k st, (i <= get_shard_index k (cl_cache c) < i + n)%nat ->
       rb_clk env (get_shard_index k (cl_cache c)) <= t -> vs_view t k (cl_cache c) = Some st ->
       exists v, stamp_of_vv v = st /\ dealt_with env previous target c c' pushes k v).
Proof.
  intros W T. revert i c W. induction n as [|n IH]; intros i c W Hn; cbn [rebalance_shards].
  { exists c, []. split_and!; try done. intros; lia. }
  destruct (lookup_lt_is_Some_2 (shards_ (cl_cache c)) i) as [shard Hs]; [lia|]. rewrite Hs. cbn [mbind option_bind].
  destruct (sw_shard _ (cw_cache c W) i shard Hs) as [[Ws Hts] Pl].
  destruct (rebalance_batch_spec env previous target (Cache_snapshot (rb_clk env i) shard []) c W T)
    as (c1 & p1 & E1 & W1 & S1 & V1 & D1); [by apply cache_snapshot_keys|]. rewrite E1. cbn [mbind option_bind].
  destruct (IH (i + 1)%nat c1 W1) as (c2 & p2 & E2 & W2 & S2 & V2 & D2); [destruct S1; lia|]. rewrite E2.
  cbn [mbind option_bind]. eexists _, _. split; [reflexivity|]. split; [done|]. split; [by transitivity c1|].
  assert (Hidx : forall k v, (k, v) ∈ Cache_snapshot (rb_clk env i) shard [] -> get_shard_index k (cl_cache c) = i)
    by (intros k v Hk; by apply (snapshot_placed _ _ _ _ _ _ Pl Hk)).
  assert (Hout : forall k, get_shard_index k (cl_cache c) <> i -> k ∉ (Cache_snapshot (rb_clk env i) shard []).*1).
  { intros k Hne ([k' v] & -> & Hin)%list_elem_of_fmap. by apply Hne, (Hidx _ v). }
  split.
  - intros t k Hk. rewrite V2, V1; [done|apply Hout; lia|rewrite (shard_of_size k c c1) by done; lia].
  - intros t k st Hk Hc Hv. destruct (decide (get_shard_index k (cl_cache c) = i)) as [Ei|Ei].
    + rewrite (sharded_view t k _ shard) in Hv by (by rewrite Ei). rewrite Ei in Hc.
      destruct (cache_snapshot_has (rb_clk env i) t shard k st Ws Hc Hv) as (v & Hin & Hst).
      exists v. split; [done|]. intros old owners Ho Hp. destruct (D1 k v Hin old owners Ho Hp) as [P Q].
      split; [intros p Hp'; apply elem_of_app; left; by apply P|]. intros t'.
      rewrite V2; [apply Q|rewrite (shard_of_size k c c1) by done; lia].
    + assert (Hv1 : vs_view t k (cl_cache c1) = Some st) by (rewrite V1; [done|by apply Hout]).
      destruct (D2 t k st) as (v & Hst & D); rewrite ?(shard_of_size k c c1) by done; [lia|done|done|].
      exists v. split; [done|]. intros old owners Ho Hp. destruct (D old owners Ho Hp) as [P Q].
      rewrite (new_owner_setup c c1) in P by done. split; [intros p Hp'; apply elem_of_app; right; by apply P|].
      intros t'. rewrite Q, (leaves_setup env c c1), V1 by (done || by apply Hout). done.
Qed.

(** ** A whole pass *)

Lemma rebalance_pass env epoch previous c :
  cluster_wf c -> tables_ok previous (routing_ (cl_mem c)) -> fst <$> previous <> Some epoch ->
  exists c' pushes,
    rebalance_now env epoch previous c = Some (c', Some (epoch, routing_ (cl_mem c)), pushes) /\
    cluster_wf c' /\ cl_mem c' = cl_mem c /\ rebalance_now env epoch (Some (epoch, routing_ (cl_mem c))) c' = Some (c', Some (epoch, routing_ (cl_mem c)), []) /\
    forall t k st, (forall i, rb_clk env i <= t) -> vs_view t k (cl_cache c) = Some st ->
      exists v old owners, stamp_of_vv v = st /\ old_owners previous k = Some old /\
        Cluster_preference_list k (cl_mem c) = Some owners /\
        (forall n, n ∈ owners -> cn_id n <> local_id (cl_mem c) -> cn_id n ∉ old ->
           mkPush n k v (rb_send env k n) ∈ pushes) /\
        (vs_view t k (cl_cache c') = Some st \/
         vs_view t k (cl_cache c') = None /\ local_id (cl_mem c) ∉ cn_id <$> owners /\
         forall n, n ∈ owners -> cn_id n ∈ old \/ rb_send env k n = true).
Proof.
  intros W T Hne. unfold rebalance_now. rewrite bool_decide_false by done. cbv zeta.
  destruct (rebalance_shards_spec env previous (routing_ (cl_mem c)) (length (shards_ (cl_cache c))) 0 c W T)
    as (c' & pushes & E & W' & S' & _ & D); [lia|]. rewrite E. cbn [mbind option_bind].
  eexists _, pushes. split; [reflexivity|]. split; [by apply set_counters_wf|].
  split; [apply S'|]. split; [by rewrite bool_decide_true|]. intros t k st Hclk Hv.
  destruct (get_shard_index_some k _ (cw_cache c W)) as [shard Hs]. apply lookup_lt_Some in Hs.
  destruct (D t k st) as (v & Hst & Dv); [lia|done|done|]. destruct (T k) as [[old Ho] [owners Hp]].
  exists v, old, owners. destruct (Dv old owners Ho Hp) as [P Q]. split; [done|]. split; [done|]. split; [done|]. split.
  - intros n Hn Hl Hold. apply P. apply (list_elem_of_fmap_2 (fun n => mkPush n k v (rb_send env k n))).
    apply list_elem_of_In, List.filter_In. split; [by apply list_elem_of_In|]. unfold new_owner.
    rewrite bytes_eqb_ne by done. by rewrite bool_decide_false.
  - cbn [cl_cache set_counters]. rewrite Q, Hv. unfold leaves. destruct (negb _ && _) eqn:El; [|by left]. right.
    apply andb_true_iff in El as [El Es]. apply negb_true_iff, bool_decide_eq_false in El. split; [done|]. split; [done|].
    intros n Hn. destruct (decide (cn_id n ∈ old)) as [|Hold]; [by left|]. right.
    rewrite forallb_forall in Es. apply Es, List.filter_In. split; [by apply list_elem_of_In|]. unfold new_owner.
    rewrite bytes_eqb_ne; [by rewrite bool_decide_false|]. intros El'. apply El. rewrite <-El'. by apply list_elem_of_fmap_2.
Qed.

(** ** Properties *)


(** Rebalancing to a table without owners removes every key, although nobody has
    been sent anything: the graceful leave of the last node drops its data. *)
Theorem rebalance_without_owners env epoch previous c :
  cluster_wf c -> tables_ok previous (routing_ (cl_mem c)) -> fst <$> previous <> Some epoch ->
  rt_points_ (routing_ (cl_mem c)) = [] ->
  exists c' pushes placed, rebalance_now env epoch previous c = Some (c', placed, pushes) /\
    forall t k st, (forall i, rb_clk env i <= t) -> vs_view t k (cl_cache c) = Some st ->
      vs_view t k (cl_cache c') = None.
Proof.
  intros W T Hne He. unfold rebalance_now. rewrite bool_decide_false by done. cbv zeta.
  destruct (rebalance_shards_spec env previous (routing_ (cl_mem c)) (length (shards_ (cl_cache c))) 0 c W T)
    as (c' & pushes & E & W' & S' & _ & D); [lia|]. rewrite E. cbn [mbind option_bind].
  eexists _, pushes, _. split; [reflexivity|]. intros t k st Hclk Hv. cbn [cl_cache set_counters].
  destruct (get_shard_index_some k _ (cw_cache c W)) as [shard Hs]. apply lookup_lt_Some in Hs.
  destruct (T k) as [[old Ho] _].
  assert (Hp : RoutingTable_preference_list k (routing_ (cl_mem c)) = Some []) by (unfold RoutingTable_preference_list; by rewrite He).
  destruct (D t k st) as (v & _ & Dv); [lia|done|done|]. destruct (Dv old [] Ho Hp) as [_ Q]. by rewrite Q.
Qed.

(** A write that arrives between the snapshot of a shard and the removal of its
    key is lost on this node: the pass pushes the value of the snapshot and
    removes whatever the key holds by then. *)
Theorem rebalance_drops_concurrent_write env previous target key v newer now c old owners :
  cluster_wf c -> old_owners previous key = Some old -> RoutingTable_preference_list key target = Some owners ->
  local_id (cl_mem c) ∉ cn_id <$> owners -> (forall n, n ∈ owners -> rb_send env key n = true) -> ttl_positive newer ->
  exists c1 live c2 pushes,
    Cluster_apply_replica_write now key newer c = Some (c1, live) /\
    ostamp_le (Some (stamp_of_vv newer)) (vs_view now key (cl_cache c1)) /\
    rebalance_entry env previous target key v c1 = Some (c2, pushes) /\
    (forall t, vs_view t key (cl_cache c2) = None) /\ forall p, p ∈ pushes -> push_value p = v.
Proof.
  intros W Ho Hp Hl Hs Ht.
  destruct (vs_apply_law now key newer (cl_cache c) (cw_cache c W)) as (s & ch & live & E & Ws & Hm & _).
  destruct (Hm Ht) as [Hm' _]. unfold Cluster_apply_replica_write. rewrite E. cbn [mbind option_bind].
  set (c1 := set_cache s _). assert (W1 : cluster_wf c1) by (apply set_cache_wf; [by apply set_clock_wf|done]).
  destruct (rebalance_entry_spec env previous target key v c1 old owners W1 Ho Hp) as (c2 & E2 & _ & _ & _ & _ & V2).
  exists c1, live, c2. eexists. split; [reflexivity|]. split; [cbn [c1 cl_cache set_cache]; rewrite Hm'; apply ostamp_le_max_r|].
  split; [exact E2|]. split.
  - intros t. rewrite V2. unfold leaves. rewrite bool_decide_false by done.
    rewrite (proj2 (forallb_forall _ _)); [done|]. intros n [Hn _]%List.filter_In. by apply Hs, list_elem_of_In.
  - intros p Hp'. unfold pushes_for in Hp'. by apply list_elem_of_fmap in Hp' as (n & -> & _).
Qed.

(** *** Witnesses: node a, whose data was placed when it was alone, after b and c
    joined; and node a after it left, alone *)

Definition alone_ring : Ring := Ring_run 4 [RingAdd node_a].
Definition alone_table : RoutingTable := RoutingTable_new alone_ring 3 (lit "a").
Definition sample_rebalance : RebalanceEnv := mkRebalanceEnv (fun _ => 0) 0 (fun _ n => bytes_eqb (cn_id n) (lit "b")).

Lemma preference_total m key : routing_ok m -> is_Some (RoutingTable_preference_list key (routing_ m)).
Proof. intros R. destruct (targets_exist key m R) as (T & E & _). unfold Cluster_preference_list in E. by rewrite E. Qed.

Definition alone_mem (t : RoutingTable) : Membership :=
  mkMembership node_a 3 alone_ring {[lit "a" := node_a]} ∅ ∅ t HealthChecker_new false [].

Lemma alone_routing_ok : routing_ok (alone_mem alone_table).
Proof. exists alone_ring. split; [apply Ring_run_wf|]. split; [vm_compute; discriminate|reflexivity]. Qed.

Lemma sample_tables_ok : tables_ok (Some (1, alone_table)) (routing_ sample_mem).
Proof.
  intros key. split; [|exact (preference_total sample_mem key (cw_routing _ (sample_wf Quorum)))].
  rewrite old_owners_preference. apply fmap_is_Some. exact (preference_total _ key alone_routing_ok).
Qed.


Definition left_table : RoutingTable := RoutingTable_new (Ring_remove_node (lit "a") alone_ring) 3 (lit "a").
Definition left_server : Server :=
  mkCluster (mkConfig 0 0 10 Quorum) (alone_mem left_table) 100 small_sharded ∅ (mkCounters 0 0 0 0 0 0) [].

Lemma left_server_wf : cluster_wf left_server.
Proof.
  split; [apply sharded_new_wf; lia|simpl; lia| |].
  - intros id q Hq. cbn [cl_hints left_server] in Hq. by rewrite lookup_empty in Hq.
  - exists (Ring_run 4 [RingAdd node_a; RingRemove (lit "a")]). split; [apply Ring_run_wf|].
    split; [vm_compute; discriminate|reflexivity].
Qed.

Lemma rebalance_without_owners_witness :
  exists c' pushes placed, rebalance_now sample_rebalance 2 (Some (1, alone_table)) left_server = Some (c', placed, pushes).
Proof.
  destruct (rebalance_without_owners sample_rebalance 2 (Some (1, alone_table)) left_server)
    as (c' & pushes & placed & E & _).
  - apply left_server_wf.
  - intros key. split; [rewrite old_owners_preference; apply fmap_is_Some; exact (preference_total _ key alone_routing_ok)|].
    exists []. reflexivity.
  - intros H. discriminate H.
  - reflexivity.
  - exists c', pushes, placed. exact E.
Defined.

Lemma rebalance_drops_concurrent_write_witness :
  exists c1 live c2 pushes,
    Cluster_apply_replica_write 0 sample_key (mkVV (lit "v") 150 false None) left_server = Some (c1, live) /\
    rebalance_entry sample_rebalance None left_table sample_key (mkVV (lit "old") 1 false None) c1 = Some (c2, pushes).
Proof.
  destruct (rebalance_drops_concurrent_write sample_rebalance None left_table sample_key (mkVV (lit "old") 1 false None)
    (mkVV (lit "v") 150 false None) 0 left_server [] []) as (c1 & live & c2 & pushes & H1 & _ & H3 & _).
  - apply left_server_wf.
  - reflexivity.
  - reflexivity.
  - intros H. by apply elem_of_nil in H.
  - intros n H. by apply elem_of_nil in H.
  - intros ms H. discriminate H.
  - exists c1, live, c2, pushes. split; [exact H1|exact H3].
Defined.
