(* ===== verification/Session.v ===== *)
(** * Client sessions

    Models network/session.cpp: the input buffer of a connection, the loop that
    runs the complete requests in it, the hand-off of a command that has to wait
    for peers, and the writes.  Completions of asynchronous operations are
    events; at any time a session waits for exactly one of them.

    The command handler is shared with other connections, so what it does is a
    parameter: [reply i cmd] is what executing the [i]-th command of the session
    appends, and [local i cmd] what [runs_locally] answers just before. *)

From S2P Require Import Prelude Numerals Resp Parser.

Local Open Scope Z_scope.

Section session.
Variable local : nat -> Command -> bool.
Variable reply : nat -> Command -> bytes.

Definition kMaxPendingOutput : Z := 1024 * 1024.

(** What the session waits for: a read, the end of a write, a command on the RPC
    executor; or nothing, when it is closed. *)
Inductive Waiting := WRead | WWrite | WRpc (cmd : Command) | WClosed.

(** [s_executed] counts the commands executed so far, [s_sent] is what reached
    the socket. *)
Record Session := mkSession {
  s_input : bytes;
  s_output : bytes;
  s_writing : bytes;
  s_closing : bool;
  s_awaiting_rpc : bool;
  s_waiting : Waiting;
  s_executed : nat;
  s_sent : bytes
}.

Definition Session_new : Session := mkSession [] [] [] false false WRead 0 [].

(** How the loop of [process_input] ends: the input left, the output, whether
    the session is closing, the number of commands executed, and the command
    handed to the RPC executor, if any. *)
Record LoopEnd := mkEnd {
  le_input : bytes;
  le_output : bytes;
  le_closing : bool;
  le_executed : nat;
  le_remote : option Command
}.

(** The loop; [input] is [input_] from [offset] on.  [None] is out of fuel. *)
Fixpoint process_loop (fuel : nat) (input output : bytes) (closing : bool) (n : nat) : option LoopEnd :=
  match fuel with
  | O => None
  | S fuel' =>
      if closing || bool_decide (input = []) || (kMaxPendingOutput <=? Z.of_nat (length output))
      then Some (mkEnd input output closing n None)
      else match parse_request input with
      | PIncomplete => Some (mkEnd input output closing n None)
      | PError e => Some (mkEnd input (append_error output e) true n None)
      | POk args consumed =>
          let input' := drop consumed input in
          match args with
          | [] => process_loop fuel' input' output closing n
          | _ =>
              let cmd := Parser_parse args in
              if negb (local n cmd) then Some (mkEnd input' output closing n (Some cmd))
              else process_loop fuel' input' (output ++ reply n cmd)
                     (closing || bool_decide (cmd_type cmd = CQuit)) (n + 1)
          end
      end
  end.

(** [flush]. *)
Definition Session_flush (s : Session) : Session :=
  match s_output s with
  | [] => mkSession (s_input s) [] (s_writing s) (s_closing s) (s_awaiting_rpc s)
            (if s_closing s then WClosed else WRead) (s_executed s) (s_sent s)
  | _ => mkSession (s_input s) [] (s_output s) (s_closing s) (s_awaiting_rpc s) WWrite (s_executed s) (s_sent s)
  end.

(** [process_input]; the fuel is one more than the bytes buffered, and every
    request takes at least one. *)
Definition process_input (s : Session) : option Session :=
  if s_awaiting_rpc s then Some s
  else
    e ← process_loop (S (length (s_input s))) (s_input s) (s_output s) (s_closing s) (s_executed s);
    Some match le_remote e with
         | Some cmd =>
             mkSession (le_input e) (le_output e) (s_writing s) (le_closing e) true (WRpc cmd) (le_executed e) (s_sent s)
         | None =>
             Session_flush (mkSession (le_input e) (le_output e) (s_writing s) (le_closing e) false (s_waiting s)
                              (le_executed e) (s_sent s))
         end.

(** The completion handlers. *)
Inductive Event := EvRead (chunk : bytes) | EvWritten | EvRpcDone | EvFailed.

Definition session_close (s : Session) : Session :=
  mkSession (s_input s) (s_output s) (s_writing s) (s_closing s) (s_awaiting_rpc s) WClosed (s_executed s) (s_sent s).

(** [None] when the session does not wait for the event. *)
Definition session_step (ev : Event) (s : Session) : option Session :=
  match ev, s_waiting s with
  | EvRead chunk, WRead =>
      process_input (mkSession (s_input s ++ chunk) (s_output s) (s_writing s) (s_closing s) (s_awaiting_rpc s)
                       WRead (s_executed s) (s_sent s))
  | EvWritten, WWrite =>
      let s' := mkSession (s_input s) (s_output s) [] (s_closing s) (s_awaiting_rpc s) WWrite (s_executed s)
                  (s_sent s ++ s_writing s) in
      if negb (s_closing s) && negb (bool_decide (s_input s = [])) then process_input s'
      else Some (Session_flush s')
  | EvRpcDone, WRpc cmd =>
      process_input (mkSession (s_input s) (s_output s ++ reply (s_executed s) cmd) (s_writing s) (s_closing s) false
                       (WRpc cmd) (s_executed s + 1) (s_sent s))
  | EvFailed, WRead | EvFailed, WWrite => Some (session_close s)
  | _, _ => None
  end.

Definition session_run (evs : list Event) (s : Session) : option Session :=
  foldl (fun o ev => o ≫= session_step ev) (Some s) evs.

(** The bytes received. *)
Definition received_bytes (evs : list Event) : bytes :=
  concat ((fun ev => match ev with EvRead chunk => chunk | _ => [] end) <$> evs).

(** ** The requests in a byte stream *)

Fixpoint requests_fuel (fuel : nat) (input : bytes) : list (list bytes) :=
  match fuel with
  | O => []
  | S fuel' =>
      match parse_request input with
      | POk args consumed =>
          match args with [] => [] | _ => [args] end ++ requests_fuel fuel' (drop consumed input)
      | _ => []
      end
  end.

(** The complete requests at the front of the stream, up to the first that is
    incomplete or malformed. *)
Definition requests (input : bytes) : list (list bytes) := requests_fuel (S (length input)) input.

Lemma parse_request_stable buf more args n :
  parse_request buf = POk args n -> parse_request (buf ++ more) = POk args n /\ (0 < n <= length buf)%nat.
Proof.
  intros E. destruct (decide (head buf = Some "*"%char)) as [Hh|Hh].
  - destruct (multibulk_stable buf more Hh) as [[S|S] B]; [congruence|]. split; [congruence|by eapply B].
  - destruct buf as [|c buf]; [done|]. revert E. change ((c :: buf) ++ more) with (c :: (buf ++ more)). unfold parse_request.
    destruct (Ascii.eqb_spec c "*") as [->|]; [done|]. simpl negb. cbv iota.
    change (c :: (buf ++ more)) with ((c :: buf) ++ more). apply parse_inline_stable.
Qed.

Lemma requests_fuel_more f f' input :
  (length input < f)%nat -> (length input < f')%nat -> requests_fuel f input = requests_fuel f' input.
Proof.
  revert f' input. induction f as [|f IH]; intros [|f'] input H H'; try lia. cbn [requests_fuel].
  destruct (parse_request input) as [args n| |e] eqn:E; [|done|done]. f_equal.
  destruct (parse_request_stable input [] args n E) as [_ Hn].
  apply IH; rewrite length_drop; lia.
Qed.

Lemma requests_step input args n :
  parse_request input = POk args n ->
  requests input = match args with [] => [] | _ => [args] end ++ requests (drop n input).
Proof.
  intros E. destruct (parse_request_stable input [] args n E) as [_ Hn].
  unfold requests at 1. cbn [requests_fuel]. rewrite E. f_equal. apply requests_fuel_more; rewrite length_drop; lia.
Qed.

Lemma requests_stop input : (forall args n, parse_request input <> POk args n) -> requests input = [].
Proof. intros H. unfold requests. cbn [requests_fuel]. destruct (parse_request input) eqn:E; [|done|done]. by edestruct H. Qed.

(** The requests [done] are those of the stream received, [received], that have
    been taken from the buffer, which holds [input]. *)
Definition tracks (received : bytes) (done : list (list bytes)) (input : bytes) : Prop :=
  forall more, requests (received ++ more) = done ++ requests (input ++ more).

Lemma tracks_read received done input chunk :
  tracks received done input -> tracks (received ++ chunk) done (input ++ chunk).
Proof. intros T more. rewrite <-!app_assoc. apply T. Qed.

Lemma tracks_step received done input args n :
  tracks received done input -> parse_request input = POk args n ->
  tracks received (done ++ match args with [] => [] | _ => [args] end) (drop n input).
Proof.
  intros T E more. destruct (parse_request_stable input more args n E) as [E' Hn].
  rewrite T, (requests_step _ _ _ E'), <-app_assoc. do 2 f_equal. by rewrite drop_app_le by lia.
Qed.

(** The replies to requests, executed in order from command [n] on. *)
Definition replies_from (n : nat) (done : list (list bytes)) : bytes :=
  concat (imap (fun i args => reply (n + i) (Parser_parse args)) done).

Lemma replies_snoc done args :
  replies_from 0 (done ++ [args]) = replies_from 0 done ++ reply (length done) (Parser_parse args).
Proof. unfold replies_from. rewrite imap_app, concat_app. simpl. by rewrite app_nil_r, Nat.add_0_r. Qed.

(** QUIT closes the session only when it runs on the I/O thread, which it
    always does. *)
Hypothesis local_quit : forall i cmd, cmd_type cmd = CQuit -> local i cmd = true.

(** What has been produced: the replies to [done], and at most one error, after
    which the session is closing, as it is after QUIT. *)
Record out_inv (total : bytes) (done : list (list bytes)) (closing : bool) (n : nat) (err : bytes) : Prop := {
  oi_count : n = length done;
  oi_bytes : total = replies_from 0 done ++ err;
  oi_err : err <> [] -> closing = true;
  oi_open : closing = false -> Forall (fun args => cmd_type (Parser_parse args) <> CQuit) done;
  oi_closing : closing = true -> err <> [] \/ exists before q, done = before ++ [q] /\ cmd_type (Parser_parse q) = CQuit
}.

(** The session waits for the RPC executor to run [cmd], taken from the
    buffer but not executed yet. *)
Definition tracks_rpc (received : bytes) (done : list (list bytes)) (input : bytes) (cmd : Command) : Prop :=
  exists args, cmd = Parser_parse args /\ cmd_type cmd <> CQuit /\ tracks received (done ++ [args]) input.

Lemma out_inv_next sofar done n err args :
  out_inv sofar done false n err ->
  out_inv (sofar ++ reply n (Parser_parse args)) (done ++ [args])
    (bool_decide (cmd_type (Parser_parse args) = CQuit)) (n + 1) [].
Proof.
  intros []. assert (err = []) as -> by (destruct err; [done|]; by specialize (oi_err0 ltac:(done))).
  split; [rewrite length_app; simpl; lia| |done| |].
  - by rewrite replies_snoc, oi_bytes0, !app_nil_r, oi_count0.
  - intros Hq%bool_decide_eq_false. apply Forall_app. split; [by apply oi_open0|]. by constructor.
  - intros Hq%bool_decide_eq_true. right. eauto.
Qed.

Lemma process_loop_inv fuel received sofar done input output closing n err :
  (length input < fuel)%nat -> out_inv (sofar ++ output) done closing n err -> tracks received done input ->
  exists e done' err', process_loop fuel input output closing n = Some e /\
    out_inv (sofar ++ le_output e) done' (le_closing e) (le_executed e) err' /\
    match le_remote e with
    | Some cmd => le_closing e = false /\ tracks_rpc received done' (le_input e) cmd
    | None => tracks received done' (le_input e) /\
        (le_closing e = false -> le_output e = [] -> requests (le_input e) = [])
    end.
Proof.
  revert done input output closing n err. induction fuel as [|fuel IH]; intros done input output closing n err Hf I T; [lia|].
  cbn [process_loop]. destruct (closing || bool_decide (input = []) || _) eqn:Eg.
  { eexists _, done, err. split; [reflexivity|]. split; [done|]. cbn. split; [done|]. intros -> ->. cbn in Eg.
    rewrite orb_false_r in Eg. apply bool_decide_eq_true in Eg as ->. done. }
  apply orb_false_iff in Eg as [Eg _]. apply orb_false_iff in Eg as [-> _].
  destruct (parse_request input) as [args k| |e] eqn:Ep.
  - destruct (parse_request_stable input [] args k Ep) as [_ Hk].
    pose proof (tracks_step _ _ _ _ _ T Ep) as T'. destruct args as [|a args].
    { rewrite app_nil_r in T'. apply (IH done _ _ _ _ err); [rewrite length_drop; lia|done|done]. }
    destruct (local n (Parser_parse (a :: args))) eqn:El; cbn [negb].
    + apply (IH (done ++ [a :: args]) _ _ _ _ []); [rewrite length_drop; lia| |done].
      rewrite app_assoc. by eapply out_inv_next.
    + eexists _, done, err. split; [reflexivity|]. split; [done|]. split; [done|].
      exists (a :: args). split; [done|]. split; [|done]. intros Hq. by rewrite local_quit in El.
  - eexists _, done, err. split; [reflexivity|]. split; [done|]. split; [done|]. cbn. intros _ _.
    apply requests_stop. by rewrite Ep.
  - eexists _, done, (append_error [] e). split; [reflexivity|]. split; [|by split]. destruct I.
    assert (err = []) as -> by (destruct err; [done|]; by specialize (oi_err0 ltac:(done))).
    split; try done; [|by left]. unfold append_error. cbn [le_output]. by rewrite app_assoc, oi_bytes0, app_nil_r, app_nil_l.
Qed.

(** ** The invariant of a session *)

Definition waiting_inv (received : bytes) (done : list (list bytes)) (failed : bool) (s : Session) : Prop :=
  match s_waiting s with
  | WRead => s_awaiting_rpc s = false /\ s_closing s = false /\ s_output s = [] /\ s_writing s = [] /\
             tracks received done (s_input s) /\ requests (s_input s) = []
  | WWrite => s_awaiting_rpc s = false /\ s_output s = [] /\ tracks received done (s_input s)
  | WRpc cmd => s_awaiting_rpc s = true /\ s_closing s = false /\ s_writing s = [] /\
                tracks_rpc received done (s_input s) cmd
  | WClosed => failed = true \/ s_closing s = true /\ s_output s = [] /\ s_writing s = []
  end.

Definition session_inv (received : bytes) (failed : bool) (s : Session) : Prop :=
  exists done err, out_inv (s_sent s ++ s_writing s ++ s_output s) done (s_closing s) (s_executed s) err /\
    waiting_inv received done failed s /\
    (exists rest, requests received = done ++ rest).

Lemma tracks_prefix received done input : tracks received done input -> exists rest, requests received = done ++ rest.
Proof. intros T. specialize (T []). rewrite !app_nil_r in T. eauto. Qed.

Lemma flush_inv received done err failed s :
  out_inv (s_sent s ++ s_output s) done (s_closing s) (s_executed s) err -> s_writing s = [] ->
  s_awaiting_rpc s = false -> tracks received done (s_input s) ->
  (s_closing s = false -> s_output s = [] -> requests (s_input s) = []) ->
  session_inv received failed (Session_flush s).
Proof.
  intros O Hw Ha T Hr. exists done, err. unfold Session_flush, waiting_inv. destruct (s_output s) eqn:Eo; cbn.
  - rewrite Hw. split; [done|]. split; [|by eapply tracks_prefix]. destruct (s_closing s); [by right|].
    split_and!; try done. by apply Hr.
  - rewrite app_nil_r. split; [done|]. split; [done|]. by eapply tracks_prefix.
Qed.

Lemma process_input_inv received done err failed s :
  out_inv (s_sent s ++ s_output s) done (s_closing s) (s_executed s) err -> s_writing s = [] ->
  s_awaiting_rpc s = false -> tracks received done (s_input s) ->
  exists s', process_input s = Some s' /\ session_inv received failed s'.
Proof.
  intros O Hw Ha T. unfold process_input. rewrite Ha.
  destruct (process_loop_inv (S (length (s_input s))) received (s_sent s) done (s_input s) (s_output s) (s_closing s)
    (s_executed s) err) as (e & done' & err' & E & O' & K); [lia|done|done|]. rewrite E. cbn [mbind option_bind].
  eexists. split; [reflexivity|]. destruct (le_remote e) as [cmd|].
  - destruct K as [Hc K]. exists done', err'. cbn. rewrite Hw. split; [done|]. split; [by split_and!|].
    destruct K as (args & _ & _ & T'). destruct (tracks_prefix _ _ _ T') as [rest R]. rewrite <-app_assoc in R. eauto.
  - destruct K as [T' Hr]. by eapply flush_inv.
Qed.

(** The bytes an event adds, and whether it is a failure. *)
Definition event_bytes (ev : Event) : bytes := match ev with EvRead chunk => chunk | _ => [] end.
Definition event_failed (ev : Event) : bool := match ev with EvFailed => true | _ => false end.

(** The session waits for this event. *)
Definition enabled (ev : Event) (s : Session) : bool :=
  match ev, s_waiting s with
  | EvRead _, WRead | EvWritten, WWrite | EvRpcDone, WRpc _ | EvFailed, WRead | EvFailed, WWrite => true
  | _, _ => false
  end.

Lemma session_step_enabled ev s s' : session_step ev s = Some s' -> enabled ev s = true.
Proof. unfold session_step, enabled. by destruct ev, (s_waiting s). Qed.

(** Every event a session waits for is handled, and keeps the invariant. *)
Lemma session_step_inv ev received failed s :
  session_inv received failed s -> enabled ev s = true ->
  exists s', session_step ev s = Some s' /\
    session_inv (received ++ event_bytes ev) (failed || event_failed ev) s'.
Proof.
  intros (done & err & O & Wt & rest & R) He. unfold session_step, waiting_inv, enabled in *.
  destruct ev as [chunk| | |], (s_waiting s) as [| |cmd|] eqn:Ew; try done; cbn [event_bytes event_failed];
    rewrite ?orb_false_r, ?orb_true_r, ?app_nil_r.
  - destruct Wt as (Ha & Hc & Ho & Hw & T & _). rewrite Ho, Hw in O.
    eapply (process_input_inv _ done err); [cbn; by rewrite Ho|done|done|by apply tracks_read].
  - destruct Wt as (Ha & Ho & T). rewrite Ho, app_nil_r in O.
    destruct (negb (s_closing s) && negb (bool_decide (s_input s = []))) eqn:Eg.
    + eapply (process_input_inv _ done err); [cbn; by rewrite Ho, app_nil_r|done|done|done].
    + eexists. split; [reflexivity|]. eapply flush_inv; cbn; try done; [by rewrite Ho, app_nil_r|]. intros Hc _.
      rewrite Hc in Eg. cbn in Eg. apply negb_false_iff, bool_decide_eq_true in Eg. by rewrite Eg.
  - destruct Wt as (Ha & Hc & Hw & args & -> & Hq & T). rewrite Hw, Hc, app_nil_l in O.
    apply (out_inv_next _ _ _ _ args) in O. rewrite bool_decide_false in O by done.
    eapply (process_input_inv _ (done ++ [args]) []); [cbn; by rewrite Hc, app_assoc|done|done|done].
  - eexists. split; [reflexivity|]. exists done, err. split; [done|]. split; [by left|eauto].
  - eexists. split; [reflexivity|]. exists done, err. split; [done|]. split; [by left|eauto].
Qed.

Lemma session_run_inv evs s :
  session_run evs Session_new = Some s ->
  session_inv (received_bytes evs) (existsb event_failed evs) s.
Proof.
  revert s. induction evs as [|ev evs IH] using rev_ind; intros s.
  - intros [= <-]. exists [], []. split; [by split|]. split; [by split_and!|]. by exists [].
  - unfold session_run. rewrite foldl_app. cbn [foldl]. fold (session_run evs Session_new).
    destruct (session_run evs Session_new) as [s1|] eqn:E1; [|done]. cbn [mbind option_bind]. intros E.
    unfold received_bytes. rewrite fmap_app, concat_app, existsb_app. cbn [fmap list_fmap concat existsb].
    rewrite app_nil_r, orb_false_r.
    destruct (session_step_inv ev _ _ _ (IH s1 eq_refl) (session_step_enabled _ _ _ E)) as (s2 & E2 & I2).
    rewrite E in E2. injection E2 as <-. exact I2.
Qed.

(** ** Properties *)

(** C13: Pipelined requests are answered in order: however the input is split into
    reads, and whenever commands run remotely and writes complete, the session
    handles every event it waits for; what it has sent is a prefix of the
    replies to the first [k] requests of the stream, in order, followed by at
    most one protocol error; when it waits for input, every complete request
    received has been answered and the answers sent; and it closes of itself
    only after sending everything, on QUIT or on a protocol error. *)
Theorem session_replies_in_order evs s :
  session_run evs Session_new = Some s ->
  (forall ev, enabled ev s = true -> is_Some (session_step ev s)) /\
  exists k err,
    let answered := take k (requests (received_bytes evs)) in
    s_sent s ++ s_writing s ++ s_output s = replies_from 0 answered ++ err /\
    (err <> [] -> s_closing s = true) /\
    (s_waiting s = WRead -> answered = requests (received_bytes evs) /\ s_sent s = replies_from 0 answered) /\
    (s_waiting s = WClosed -> existsb event_failed evs = false ->
       s_sent s = replies_from 0 answered ++ err /\
       (err <> [] \/ exists before q, answered = before ++ [q] /\ cmd_type (Parser_parse q) = CQuit)).
Proof.
  intros E. pose proof (session_run_inv _ _ E) as I. split.
  { intros ev He. destruct (session_step_inv ev _ _ _ I He) as (s' & -> & _). eauto. }
  destruct I as (done & err & O & Wt & rest & R). exists (length done), err. cbv zeta. rewrite R, take_app_length.
  split; [by apply O|]. split; [by apply O|]. unfold waiting_inv in Wt. split.
  - intros Hw. rewrite Hw in Wt. destruct Wt as (_ & Hc & Ho & Hwr & T & Hr).
    specialize (T []). rewrite !app_nil_r, Hr, app_nil_r, R in T. split; [done|].
    pose proof (oi_bytes _ _ _ _ _ O) as B. rewrite Ho, Hwr, !app_nil_r in B. rewrite B.
    destruct err as [|x err]; [by rewrite app_nil_r|]. pose proof (oi_err _ _ _ _ _ O ltac:(done)). congruence.
  - intros Hw Hf. rewrite Hw in Wt. destruct Wt as [?|(Hc & Ho & Hwr)]; [congruence|].
    pose proof (oi_bytes _ _ _ _ _ O) as B. rewrite Ho, Hwr, !app_nil_r in B. split; [done|]. by apply O.
Qed.
End session.

(** *** Witness: two pipelined requests split across three reads, the first run
    remotely *)

Definition pipeline_local (i : nat) (cmd : Command) : bool := bool_decide (cmd_type cmd <> CGet).
Definition pipeline_reply (i : nat) (cmd : Command) : bytes :=
  match cmd_type cmd with CGet => append_bulk [] (lit "v") | _ => append_simple [] (lit "PONG") end.
Definition pipeline_events : list Event :=
  [EvRead (lit "GET k" ++ CRLF ++ lit "PI"); EvRpcDone; EvWritten; EvRead (lit "NG"); EvRead CRLF; EvWritten].

Lemma pipeline_local_quit i cmd : cmd_type cmd = CQuit -> pipeline_local i cmd = true.
Proof. intros E. unfold pipeline_local. by rewrite E. Qed.

Lemma session_replies_in_order_witness :
  exists s, session_run pipeline_local pipeline_reply pipeline_events Session_new = Some s /\
    s_sent s = append_bulk [] (lit "v") ++ append_simple [] (lit "PONG").
Proof.
  destruct (session_run pipeline_local pipeline_reply pipeline_events Session_new) as [s|] eqn:E;
    [|vm_compute in E; discriminate E].
  exists s. split; [reflexivity|].
  destruct (session_replies_in_order pipeline_local pipeline_reply pipeline_local_quit pipeline_events s E)
    as (_ & k & err & _ & _ & H & _).
  destruct H as [H ->].
  { change (from_option s_waiting WClosed (Some s) = WRead). rewrite <-E. vm_compute. reflexivity. }
  rewrite H. vm_compute. reflexivity.
Defined.
