(* ===== verification/TcpServer.v ===== *)
(** * Accepting connections

    Models network/tcp_server.cpp and network/io_context_pool.cpp: the context
    for the next connection is chosen when the accept is started, a successful
    accept makes a session there, and a session counts itself in the handler
    when it is made and when it is destroyed.  The contexts of the pool are
    numbered; the server's own context, used when there is no pool, is [None].

    The theorem says that the sessions are dealt to the contexts in turn and stay
    where they are, and that the handler's connection counters are right. *)

From S2P Require Import Prelude Resp Parser ReplicaWire Cluster ClusterLemmas ClusterProps Metrics CommandHandler HandlerProps.

Local Open Scope Z_scope.

(** ** [IoContextPool] *)

Record IoContextPool := mkIoPool { io_size : Z; io_next : Z }.

Definition IoContextPool_new (size : Z) : IoContextPool := mkIoPool (if size =? 0 then 1 else size) 0.

Definition IoContextPool_next (p : IoContextPool) : IoContextPool * nat :=
  (mkIoPool (io_size p) (u64 (io_next p + 1)), Z.to_nat (io_next p mod io_size p)).

(** ** [TCPServer] *)

(** [ts_target] is the context of the accept under way; [ts_sessions] are the
    sessions alive, with their numbers and contexts. *)
Record TCPServer := mkServer {
  ts_pool : option IoContextPool;
  ts_target : option nat;
  ts_sessions : list (nat * option nat);
  ts_made : nat;
  ts_handler : CommandHandler
}.

Definition start_accept (s : TCPServer) : TCPServer :=
  match ts_pool s with
  | Some p =>
      let '(p', i) := IoContextPool_next p in
      mkServer (Some p') (Some i) (ts_sessions s) (ts_made s) (ts_handler s)
  | None => mkServer None None (ts_sessions s) (ts_made s) (ts_handler s)
  end.

Definition TCPServer_new (pool : option IoContextPool) (c : Server) : TCPServer :=
  start_accept (mkServer pool None [] 0 (CommandHandler_new c)).

(** The handler of an accept, on thread [t]. *)
Definition on_accept (ok : bool) (t : nat) (s : TCPServer) : TCPServer :=
  start_accept
    (if ok then
       mkServer (ts_pool s) (ts_target s) (ts_sessions s ++ [(ts_made s, ts_target s)]) (S (ts_made s))
         (connection_opened t (ts_handler s))
     else s).

(** The destructor of a session. *)
Definition on_destroyed (id : nat) (s : TCPServer) : option TCPServer :=
  '(i, _) ← list_find (fun x => x.1 = id) (ts_sessions s);
  Some (mkServer (ts_pool s) (ts_target s) (delete i (ts_sessions s)) (ts_made s) (connection_closed (ts_handler s))).

Inductive ServerEv := SvAccept (ok : bool) (t : nat) | SvDestroyed (id : nat).

Definition server_step (ev : ServerEv) (s : TCPServer) : option TCPServer :=
  match ev with
  | SvAccept ok t => Some (on_accept ok t s)
  | SvDestroyed id => on_destroyed id s
  end.

Definition server_run (evs : list ServerEv) (s : TCPServer) : option TCPServer :=
  foldl (fun o ev => o ≫= server_step ev) (Some s) evs.

(** ** Where the connections go *)

Definition accepts (evs : list ServerEv) : list bool :=
  omap (fun ev => match ev with SvAccept ok _ => Some ok | _ => None end) evs.

(** The contexts of the sessions, in the order they are made: accept number [j]
    is on context [j] modulo the size of the pool. *)
Fixpoint placed_on (n j : Z) (l : list bool) : list nat :=
  match l with
  | [] => []
  | ok :: rest => (if ok then [Z.to_nat (u64 j mod n)] else []) ++ placed_on n (j + 1) rest
  end.

Lemma placed_on_snoc n l : forall j ok,
  placed_on n j (l ++ [ok]) = placed_on n j l ++ (if ok then [Z.to_nat (u64 (j + Z.of_nat (length l)) mod n)] else []).
Proof.
  induction l as [|x l IH]; intros j ok; cbn [app placed_on length].
  - rewrite app_nil_r, Z.add_0_r. done.
  - rewrite IH, <-app_assoc. destruct ok; [|done].
    replace (j + 1 + Z.of_nat (length l)) with (j + Z.of_nat (S (length l))) by lia. done.
Qed.

Lemma server_run_snoc evs ev s : server_run (evs ++ [ev]) s = server_run evs s ≫= server_step ev.
Proof. unfold server_run. by rewrite foldl_app. Qed.

Lemma accepts_snoc evs ev : accepts (evs ++ [ev]) = accepts evs ++ match ev with SvAccept ok _ => [ok] | _ => [] end.
Proof. unfold accepts. rewrite omap_app. by destruct ev. Qed.

Record server_inv (n : Z) (evs : list ServerEv) (s : TCPServer) : Prop := {
  si_pool : ts_pool s = Some (mkIoPool n (u64 (Z.of_nat (length (accepts evs)) + 1)));
  si_target : ts_target s = Some (Z.to_nat (u64 (Z.of_nat (length (accepts evs))) mod n));
  si_made : ts_made s = length (placed_on n 0 (accepts evs));
  si_nodup : NoDup (ts_sessions s).*1;
  si_sessions : forall id ctx, (id, ctx) ∈ ts_sessions s -> exists i, ctx = Some i /\ placed_on n 0 (accepts evs) !! id = Some i;
  si_total_ok : striped_ok (ch_connections_total (ts_handler s));
  si_total : StripedCounter_value (ch_connections_total (ts_handler s)) = u64 (Z.of_nat (ts_made s));
  si_active : ch_connections_active (ts_handler s) = i64 (Z.of_nat (length (ts_sessions s)))
}.

Lemma i64_add x n : i64 (i64 x + n) = i64 (x + n).
Proof.
  assert (E : u64 (i64 x + n) = u64 (x + n)) by (rewrite <-(wrap_add_l 64 (i64 x)), u64_i64; apply wrap_add_l).
  unfold i64 in *. by rewrite E.
Qed.

Section Pool.
Context (n : Z) (n_pos : 0 < n).

(** Starting the next accept. *)
Lemma next_accept evs s :
  ts_pool s = Some (mkIoPool n (u64 (Z.of_nat (length (accepts evs))))) ->
  ts_pool (start_accept s) = Some (mkIoPool n (u64 (Z.of_nat (length (accepts evs)) + 1))) /\
  ts_target (start_accept s) = Some (Z.to_nat (u64 (Z.of_nat (length (accepts evs))) mod n)) /\
  ts_sessions (start_accept s) = ts_sessions s /\ ts_made (start_accept s) = ts_made s /\ ts_handler (start_accept s) = ts_handler s.
Proof using Type. intros E. unfold start_accept. rewrite E. cbn. by rewrite wrap_add_l. Qed.

Lemma server_inv_init c : server_inv n [] (TCPServer_new (Some (mkIoPool n 0)) c).
Proof using Type.
  unfold TCPServer_new. set (s0 := mkServer _ _ _ _ _). destruct (next_accept [] s0 eq_refl) as (E1 & E2 & E3 & E4 & E5).
  destruct striped_new. split; rewrite ?E1, ?E2, ?E3, ?E4, ?E5; try done; [constructor|]. intros id ctx Hin. by apply elem_of_nil in Hin.
Qed.

Lemma accept_inv evs ok t s : server_inv n evs s -> server_inv n (evs ++ [SvAccept ok t]) (on_accept ok t s).
Proof using Type.
  intros I. unfold on_accept. set (s1 := if ok then _ else s).
  assert (El : Z.of_nat (length (accepts (evs ++ [SvAccept ok t]))) = Z.of_nat (length (accepts evs)) + 1).
  { rewrite accepts_snoc, length_app. cbn. lia. }
  destruct (next_accept (evs ++ [SvAccept ok t]) s1) as (E1 & E2 & E3 & E4 & E5).
  { rewrite El. subst s1. destruct ok; apply I. }
  pose proof (placed_on_snoc n (accepts evs) 0 ok) as Ep. rewrite Z.add_0_l in Ep.
  split; rewrite ?E1, ?E2, ?E3, ?E4, ?E5; try done; rewrite ?accepts_snoc, ?Ep; subst s1; destruct ok; cbn [ts_made ts_sessions ts_handler connection_opened ch_connections_total ch_connections_active];
    rewrite ?app_nil_r; try apply I.
  - rewrite length_app, <-(si_made _ _ _ I). cbn. lia.
  - rewrite fmap_app. apply NoDup_app. split; [apply I|]. split; [|apply NoDup_singleton].
    intros id ([id' ctx] & -> & Hin)%list_elem_of_fmap Hc. apply list_elem_of_singleton in Hc. cbn in Hc. subst id'.
    destruct (si_sessions _ _ _ I _ _ Hin) as (i & _ & Hi). apply lookup_lt_Some in Hi. rewrite (si_made _ _ _ I) in Hi. lia.
  - intros id ctx [Hin|Hin]%elem_of_app.
    + destruct (si_sessions _ _ _ I _ _ Hin) as (i & -> & Hi). exists i. split; [done|]. by apply lookup_app_l_Some.
    + apply list_elem_of_singleton in Hin. injection Hin as -> ->. rewrite (si_target _ _ _ I). eexists. split; [reflexivity|].
      rewrite (si_made _ _ _ I). by apply list_lookup_middle.
  - by apply striped_add, I.
  - rewrite (proj2 (striped_add t 1 _ (si_total_ok _ _ _ I))), (si_total _ _ _ I), wrap_add_l. f_equal. lia.
  - rewrite (si_active _ _ _ I), i64_add, length_app. f_equal. cbn. lia.
Qed.

Lemma destroyed_inv evs id s s' : server_inv n evs s -> on_destroyed id s = Some s' -> server_inv n (evs ++ [SvDestroyed id]) s'.
Proof using Type.
  intros I E. unfold on_destroyed in E. destruct (list_find _ _) as [[i x]|] eqn:Ef; [|done]. cbn [mbind option_bind] in E. injection E as <-.
  apply list_find_Some in Ef as (Hx & _ & _). pose proof (delete_Permutation _ _ _ Hx) as P.
  assert (Ea : accepts (evs ++ [SvDestroyed id]) = accepts evs) by (rewrite accepts_snoc; apply app_nil_r).
  split; rewrite ?Ea; try apply I; cbn [ts_sessions ts_handler connection_closed ch_connections_active].
  - pose proof (si_nodup _ _ _ I) as N. rewrite P, fmap_cons in N. by apply NoDup_cons in N as [_ ?].
  - intros id' ctx Hin. apply (si_sessions _ _ _ I). rewrite P. by right.
  - rewrite (si_active _ _ _ I). unfold Z.sub. rewrite i64_add. f_equal. pose proof (Permutation_length P) as Hl. cbn [length] in Hl. lia.
Qed.

Lemma server_run_inv c evs s :
  server_run evs (TCPServer_new (Some (mkIoPool n 0)) c) = Some s -> server_inv n evs s.
Proof using Type.
  revert s. induction evs as [|ev evs IH] using rev_ind; intros s E; [injection E as <-; apply server_inv_init|].
  rewrite server_run_snoc in E. destruct (server_run evs _) as [s1|]; [|done]. cbn [mbind option_bind] in E. specialize (IH s1 eq_refl).
  destruct ev as [ok t|id]; cbn [server_step] in E; [injection E as <-; by apply accept_inv|by eapply destroyed_inv].
Qed.
End Pool.

(** ** Properties *)

(** Connections are dealt to the I/O threads in turn and counted right: after
    any accepts, failed ones included, and ends of sessions, the session made by
    accept number [j] is on context [j] modulo the number of contexts, no two
    live sessions share a number, the total is the number of sessions ever made
    and the active count the number of sessions alive. *)
Theorem server_connections size c evs s :
  0 <= size -> server_run evs (TCPServer_new (Some (IoContextPool_new size)) c) = Some s ->
  let n := Z.max 1 size in
  let made := placed_on n 0 (accepts evs) in
  (forall id ctx, (id, ctx) ∈ ts_sessions s -> exists i, ctx = Some i /\ made !! id = Some i /\ (i < Z.to_nat n)%nat) /\
  NoDup (ts_sessions s).*1 /\ ts_made s = length made /\
  (Z.of_nat (length made) < 2 ^ 63 ->
   StripedCounter_value (ch_connections_total (ts_handler s)) = Z.of_nat (length made) /\
   ch_connections_active (ts_handler s) = Z.of_nat (length (ts_sessions s))).
Proof.
  intros Hs E. cbv zeta. assert (En : IoContextPool_new size = mkIoPool (Z.max 1 size) 0).
  { unfold IoContextPool_new. destruct (Z.eqb_spec size 0) as [->|]; [done|]. by rewrite Z.max_r by lia. }
  rewrite En in E. pose proof (server_run_inv (Z.max 1 size) c evs s E) as I. set (n := Z.max 1 size) in *.
  assert (Hb : forall l j i, i ∈ placed_on n j l -> (i < Z.to_nat n)%nat).
  { induction l as [|ok l IH]; intros j i Hin; cbn [placed_on] in Hin; [by apply elem_of_nil in Hin|]. apply elem_of_app in Hin as [Hin|Hin]; [|by eapply IH].
    destruct ok; [|by apply elem_of_nil in Hin]. apply list_elem_of_singleton in Hin as ->. pose proof (Z.mod_pos_bound (u64 j) n ltac:(lia)). lia. }
  split; [|split; [apply I|split; [apply I|]]].
  - intros id ctx Hin. destruct (si_sessions _ _ _ I id ctx Hin) as (i & -> & Hi). exists i. split; [done|]. split; [done|].
    eapply Hb, list_elem_of_lookup_2, Hi.
  - intros Hl. rewrite (si_total _ _ _ I), (si_active _ _ _ I), (si_made _ _ _ I).
    assert (Hle : (length (ts_sessions s) <= length (placed_on n 0 (accepts evs)))%nat).
    { rewrite <-(length_fmap fst (ts_sessions s)), <-(length_seq (length (placed_on n 0 (accepts evs))) 0).
      apply submseteq_length, NoDup_submseteq; [apply I|]. intros id ([id' ctx] & -> & Hin)%list_elem_of_fmap.
      destruct (si_sessions _ _ _ I _ _ Hin) as (i & _ & Hi). apply elem_of_seq. apply lookup_lt_Some in Hi. cbn. lia. }
    split; [apply wrap_small; lia|]. unfold i64. rewrite wrap_small by lia. by rewrite (proj2 (Z.ltb_lt _ _)) by lia.
Qed.

(** *** Witness: four accepts, one of which fails, and a connection that ends *)

Definition sample_accepts : list ServerEv := [SvAccept true 0; SvAccept false 0; SvAccept true 0; SvDestroyed 0; SvAccept true 0].

Lemma server_connections_witness :
  exists s, server_run sample_accepts (TCPServer_new (Some (IoContextPool_new 2)) (sample_server Quorum)) = Some s /\
    ts_sessions s = [(1%nat, Some 0%nat); (2%nat, Some 1%nat)] /\
    StripedCounter_value (ch_connections_total (ts_handler s)) = 3 /\ ch_connections_active (ts_handler s) = 2.
Proof.
  eexists. split; [reflexivity|]. split; [reflexivity|].
  apply (server_connections 2 (sample_server Quorum) sample_accepts _ ltac:(lia) eq_refl). vm_compute. reflexivity.
Defined.
