(* ===== verification/PeerChannel.v ===== *)
(** * Channels to peers

    Models network/peer_channel.cpp: one pipelined connection to a peer.  All
    handlers of a channel run on its strand, so its state changes one handler at
    a time; a step is a posted call, or the completion of an asynchronous
    operation that is outstanding.  Handlers of an old connection may still run:
    they carry the generation they were started under.

    The socket is outside: what a completion reports (an error, the bytes read)
    is part of the step.  [conn_*] record the current connection: the calls
    queued for it, the bytes handed to the socket, the bytes received, and the
    replies delivered. *)

From S2P Require Import Prelude Numerals Resp Parser ReplicaWire.

Local Open Scope Z_scope.

Inductive ChanState := Disconnected | Connecting | Connected.

Record Pending := mkPending { p_id : nat; p_deadline : Z }.

(** The asynchronous operations of a channel. *)
Inductive AsyncOp := AResolve (gen : Z) | AConnect (gen : Z) | AWrite (gen : Z) | ARead (gen : Z) | ATimer.

#[export] Instance AsyncOp_eq_dec : EqDecision AsyncOp.
Proof. solve_decision. Defined.

Record Connection := mkConn {
  conn_calls : list (nat * bytes);
  conn_sent : bytes;
  conn_received : bytes;
  conn_replies : list RespValue
}.

Definition no_connection : Connection := mkConn [] [] [] [].

Record PeerChannel := mkChannel {
  request_timeout_ : Z;
  state_ : ChanState;
  generation_ : Z;
  writing_ : bool;
  timer_armed_ : bool;
  queued_ : bytes;
  in_write_ : bytes;
  pending_ : list Pending;
  rx_ : bytes;
  ops_ : list AsyncOp;
  results_ : list (nat * RequestResult RespValue);
  conn_ : Connection
}.

Definition PeerChannel_new (timeout : Z) : PeerChannel :=
  mkChannel timeout Disconnected 0 false false [] [] [] [] [] [] no_connection.

(** ** The handlers *)

(** [reset_connection]. *)
Definition reset_connection (ch : PeerChannel) : PeerChannel :=
  mkChannel (request_timeout_ ch) Disconnected (u64 (generation_ ch + 1)) false (timer_armed_ ch) [] []
    (pending_ ch) [] (ops_ ch) (results_ ch) no_connection.

(** [fail_all]: every outstanding call fails, in order. *)
Definition fail_all (st : RequestStatus) (msg : bytes) (ch : PeerChannel) : PeerChannel :=
  let ch := reset_connection ch in
  mkChannel (request_timeout_ ch) (state_ ch) (generation_ ch) (writing_ ch) (timer_armed_ ch) (queued_ ch)
    (in_write_ ch) [] (rx_ ch) (ops_ ch)
    (results_ ch ++ ((fun p => (p_id p, rr_error st msg)) <$> pending_ ch)) (conn_ ch).

Definition start (op : AsyncOp) (ch : PeerChannel) : PeerChannel :=
  mkChannel (request_timeout_ ch) (state_ ch) (generation_ ch) (writing_ ch) (timer_armed_ ch) (queued_ ch)
    (in_write_ ch) (pending_ ch) (rx_ ch) (ops_ ch ++ [op]) (results_ ch) (conn_ ch).

(** Arming the timer. *)
Definition arm_timer (ch : PeerChannel) : PeerChannel :=
  start ATimer
    (mkChannel (request_timeout_ ch) (state_ ch) (generation_ ch) (writing_ ch) true (queued_ ch) (in_write_ ch)
       (pending_ ch) (rx_ ch) (ops_ ch) (results_ ch) (conn_ ch)).

(** [connect]. *)
Definition chan_connect (ch : PeerChannel) : PeerChannel :=
  let gen := u64 (generation_ ch + 1) in
  start (AResolve gen)
    (mkChannel (request_timeout_ ch) Connecting gen (writing_ ch) (timer_armed_ ch) (queued_ ch) (in_write_ ch)
       (pending_ ch) (rx_ ch) (ops_ ch) (results_ ch) (conn_ ch)).

(** [flush]. *)
Definition chan_flush (ch : PeerChannel) : PeerChannel :=
  if writing_ ch || bool_decide (queued_ ch = []) || negb (match state_ ch with Connected => true | _ => false end)
  then ch
  else
    start (AWrite (generation_ ch))
      (mkChannel (request_timeout_ ch) (state_ ch) (generation_ ch) true (timer_armed_ ch) [] (queued_ ch)
         (pending_ ch) (rx_ ch) (ops_ ch) (results_ ch)
         (mkConn (conn_calls (conn_ ch)) (conn_sent (conn_ ch) ++ queued_ ch) (conn_received (conn_ ch))
            (conn_replies (conn_ ch)))).

(** [read]: the next read is started. *)
Definition chan_read (ch : PeerChannel) : PeerChannel := start (ARead (generation_ ch)) ch.

(** [enqueue] of the call [id] at [now]. *)
Definition chan_enqueue (now : Z) (id : nat) (request : bytes) (ch : PeerChannel) : PeerChannel :=
  let ch :=
    mkChannel (request_timeout_ ch) (state_ ch) (generation_ ch) (writing_ ch) (timer_armed_ ch)
      (queued_ ch ++ request) (in_write_ ch)
      (pending_ ch ++ [mkPending id (now + request_timeout_ ch)]) (rx_ ch) (ops_ ch) (results_ ch)
      (mkConn (conn_calls (conn_ ch) ++ [(id, request)]) (conn_sent (conn_ ch)) (conn_received (conn_ ch))
         (conn_replies (conn_ ch))) in
  let ch := if timer_armed_ ch then ch else arm_timer ch in
  match state_ ch with
  | Disconnected => chan_connect ch
  | Connected => chan_flush ch
  | Connecting => ch
  end.

(** The loop of the read handler over [rx_] from [offset] on; [None] is out of
    fuel.  The flag tells whether the connection was failed. *)
Fixpoint read_loop (fuel : nat) (ch : PeerChannel) : option (PeerChannel * bool) :=
  match fuel with
  | O => None
  | S fuel' =>
      match pending_ ch with
      | [] => Some (ch, false)
      | p :: rest =>
          r ← parse_reply (rx_ ch);
          match r with
          | PIncomplete => Some (ch, false)
          | PError _ => Some (fail_all RProtocolError (lit "Malformed RESP reply") ch, true)
          | POk reply used =>
              read_loop fuel'
                (mkChannel (request_timeout_ ch) (state_ ch) (generation_ ch) (writing_ ch) (timer_armed_ ch)
                   (queued_ ch) (in_write_ ch) rest (drop used (rx_ ch)) (ops_ ch)
                   (results_ ch ++ [(p_id p, rr_success reply)])
                   (mkConn (conn_calls (conn_ ch)) (conn_sent (conn_ ch)) (conn_received (conn_ ch))
                      (conn_replies (conn_ ch) ++ [reply])))
          end
      end
  end.

(** The handler of a read that returned [chunk]. *)
Definition on_read (chunk : bytes) (ch : PeerChannel) : option PeerChannel :=
  let ch :=
    mkChannel (request_timeout_ ch) (state_ ch) (generation_ ch) (writing_ ch) (timer_armed_ ch) (queued_ ch)
      (in_write_ ch) (pending_ ch) (rx_ ch ++ chunk) (ops_ ch) (results_ ch)
      (mkConn (conn_calls (conn_ ch)) (conn_sent (conn_ ch)) (conn_received (conn_ ch) ++ chunk)
         (conn_replies (conn_ ch))) in
  '(ch', failed) ← read_loop (S (length (rx_ ch))) ch;
  Some (if (failed : bool) then ch' else chan_read ch').

(** The handler of a connection attempt that succeeded. *)
Definition on_connected (ch : PeerChannel) : PeerChannel :=
  chan_flush (chan_read
    (mkChannel (request_timeout_ ch) Connected (generation_ ch) (writing_ ch) (timer_armed_ ch) (queued_ ch)
       (in_write_ ch) (pending_ ch) (rx_ ch) (ops_ ch) (results_ ch) (conn_ ch))).

(** The handler of a write. *)
Definition on_written (err : option bytes) (ch : PeerChannel) : PeerChannel :=
  let ch :=
    mkChannel (request_timeout_ ch) (state_ ch) (generation_ ch) false (timer_armed_ ch) (queued_ ch) []
      (pending_ ch) (rx_ ch) (ops_ ch) (results_ ch) (conn_ ch) in
  match err with
  | Some msg => fail_all RConnectionError msg ch
  | None => chan_flush ch
  end.

(** [on_timer] at [now]. *)
Definition on_timer (now : Z) (ch : PeerChannel) : PeerChannel :=
  let ch :=
    mkChannel (request_timeout_ ch) (state_ ch) (generation_ ch) (writing_ ch) false (queued_ ch) (in_write_ ch)
      (pending_ ch) (rx_ ch) (ops_ ch) (results_ ch) (conn_ ch) in
  match pending_ ch with
  | [] => ch
  | p :: _ =>
      if p_deadline p <=? now then fail_all RTimeout (lit "Operation timed out") ch else arm_timer ch
  end.

(** ** Steps *)

Definition remove_one (op : AsyncOp) (l : list AsyncOp) : list AsyncOp :=
  match list_find (op =.) l with Some (i, _) => delete i l | None => l end.

Definition set_ops (ops : list AsyncOp) (ch : PeerChannel) : PeerChannel :=
  mkChannel (request_timeout_ ch) (state_ ch) (generation_ ch) (writing_ ch) (timer_armed_ ch) (queued_ ch)
    (in_write_ ch) (pending_ ch) (rx_ ch) ops (results_ ch) (conn_ ch).

(** A step: a posted call or close, or a completion with what it reports. *)
Inductive ChanEvent :=
  | ECall (now : Z) (id : nat) (args : list bytes)
  | EClose
  | EResolved (gen : Z) (err : option bytes)
  | EConnected (gen : Z) (err : option bytes)
  | EWritten (gen : Z) (err : option bytes)
  | ERead (gen : Z) (res : bytes + bytes)
  | ETimer (now : Z).

(** The operation an event completes. *)
Definition event_op (ev : ChanEvent) : option AsyncOp :=
  match ev with
  | ECall _ _ _ | EClose => None
  | EResolved gen _ => Some (AResolve gen)
  | EConnected gen _ => Some (AConnect gen)
  | EWritten gen _ => Some (AWrite gen)
  | ERead gen _ => Some (ARead gen)
  | ETimer _ => Some ATimer
  end.

(** What the handler does; handlers of an old generation do nothing. *)
Definition handle (ev : ChanEvent) (ch : PeerChannel) : option PeerChannel :=
  match ev with
  | ECall now id args => Some (chan_enqueue now id (resp_command args) ch)
  | EClose => Some (fail_all RConnectionError (lit "Channel closed") ch)
  | EResolved gen err =>
      if negb (gen =? generation_ ch) then Some ch
      else Some match err with
                | Some msg => fail_all RConnectionError msg ch
                | None => start (AConnect gen) ch
                end
  | EConnected gen err =>
      if negb (gen =? generation_ ch) then Some ch
      else Some match err with
                | Some msg => fail_all RConnectionError msg ch
                | None => on_connected ch
                end
  | EWritten gen err => if negb (gen =? generation_ ch) then Some ch else Some (on_written err ch)
  | ERead gen res =>
      if negb (gen =? generation_ ch) then Some ch
      else match res with
           | inl chunk => on_read chunk ch
           | inr msg => Some (fail_all RConnectionError msg ch)
           end
  | ETimer now => Some (on_timer now ch)
  end.

(** [None] when the completed operation is not outstanding. *)
Definition chan_step (ev : ChanEvent) (ch : PeerChannel) : option PeerChannel :=
  match event_op ev with
  | None => handle ev ch
  | Some op => if bool_decide (op ∈ ops_ ch) then handle ev (set_ops (remove_one op (ops_ ch)) ch) else None
  end.

Definition chan_run (evs : list ChanEvent) (ch : PeerChannel) : option PeerChannel :=
  foldl (fun o ev => o ≫= chan_step ev) (Some ch) evs.

(** The ids of the calls made, in order. *)
Definition called_ids (evs : list ChanEvent) : list nat :=
  omap (fun ev => match ev with ECall _ id _ => Some id | _ => None end) evs.

(** ** Every call completes once *)

(** Calls made, in order: those completed, then those pending. *)
Definition calls_of (ch : PeerChannel) : list nat := (results_ ch).*1 ++ (p_id <$> pending_ ch).

Lemma fail_all_calls st msg ch : calls_of (fail_all st msg ch) = calls_of ch.
Proof.
  unfold calls_of, fail_all. cbn. rewrite fmap_app, <-list_fmap_compose, app_nil_r. done.
Qed.

Lemma flush_calls ch : calls_of (chan_flush ch) = calls_of ch.
Proof. unfold chan_flush. by destruct (_ || _). Qed.

Lemma enqueue_calls now id request ch : calls_of (chan_enqueue now id request ch) = calls_of ch ++ [id].
Proof.
  unfold chan_enqueue. set (ch1 := mkChannel _ _ _ _ _ _ _ _ _ _ _ _).
  assert (E : calls_of ch1 = calls_of ch ++ [id]) by (unfold calls_of; cbn; by rewrite fmap_app, app_assoc).
  destruct (timer_armed_ ch1); destruct (state_ _); rewrite ?flush_calls; exact E.
Qed.

(** The loop takes a reply per round, and each takes at least a byte. *)
Lemma read_loop_total fuel ch :
  (length (rx_ ch) < fuel)%nat -> exists ch' failed, read_loop fuel ch = Some (ch', failed) /\ calls_of ch' = calls_of ch.
Proof.
  revert ch. induction fuel as [|fuel IH]; intros ch Hf; [lia|]. cbn [read_loop].
  destruct (pending_ ch) as [|p rest] eqn:Ep; [by eexists _, _|].
  destruct (parse_reply_fuel_total (S (length (rx_ ch))) (length (rx_ ch)) ltac:(lia) (rx_ ch) ltac:(lia)) as (r & E & B).
  unfold parse_reply. rewrite E. cbn [mbind option_bind]. destruct r as [reply used| |e].
  - specialize (B reply used eq_refl). edestruct IH as (ch' & f & E' & C'); [|exists ch', f; split; [exact E'|]].
    + cbn. rewrite length_drop. lia.
    + rewrite C'. unfold calls_of. cbn. rewrite Ep, fmap_app, <-app_assoc. done.
  - by eexists _, _.
  - eexists _, _. split; [reflexivity|]. apply fail_all_calls.
Qed.

Lemma on_read_total chunk ch : exists ch', on_read chunk ch = Some ch' /\ calls_of ch' = calls_of ch.
Proof.
  unfold on_read. set (ch1 := mkChannel _ _ _ _ _ _ _ _ _ _ _ _). 
  destruct (read_loop_total (S (length (rx_ ch1))) ch1) as (ch' & f & E & C); [lia|]. rewrite E. cbn [mbind option_bind].
  eexists. split; [reflexivity|]. by destruct f.
Qed.

Definition made (ev : ChanEvent) : list nat := match ev with ECall _ id _ => [id] | _ => [] end.

Lemma handle_total ev ch : exists ch', handle ev ch = Some ch' /\ calls_of ch' = calls_of ch ++ made ev.
Proof.
  destruct ev as [now id args| |gen err|gen err|gen err|gen res|now]; cbn [handle made]; rewrite ?app_nil_r.
  - eexists. split; [reflexivity|]. apply enqueue_calls.
  - eexists. split; [reflexivity|]. apply fail_all_calls.
  - destruct (negb _); [eauto|]. eexists. split; [reflexivity|]. destruct err; [apply fail_all_calls|done].
  - destruct (negb _); [eauto|]. eexists. split; [reflexivity|]. destruct err; [apply fail_all_calls|].
    unfold on_connected. by rewrite flush_calls.
  - destruct (negb _); [eauto|]. eexists. split; [reflexivity|]. unfold on_written.
    destruct err; [by rewrite fail_all_calls|by rewrite flush_calls].
  - destruct (negb _); [eauto|]. destruct res; [apply on_read_total|]. eexists. split; [reflexivity|]. apply fail_all_calls.
  - eexists. split; [reflexivity|]. unfold on_timer. cbn. destruct (pending_ ch) as [|p rest] eqn:Ep.
    + unfold calls_of. cbn. by rewrite Ep.
    + destruct (_ <=? _); [rewrite fail_all_calls|]; unfold calls_of; cbn; by rewrite Ep.
Qed.

(** ** The timer *)

(** While calls are pending, the timer is armed and outstanding. *)
Record timer_inv (ch : PeerChannel) : Prop := {
  ti_armed : pending_ ch <> [] -> timer_armed_ ch = true;
  ti_op : timer_armed_ ch = true -> ATimer ∈ ops_ ch
}.

Lemma timer_start op ch : timer_inv ch -> timer_inv (start op ch).
Proof. intros [H1 H2]. split; cbn; [done|]. intros E. apply elem_of_app. left. by apply H2. Qed.

Lemma timer_flush ch : timer_inv ch -> timer_inv (chan_flush ch).
Proof. intros I. unfold chan_flush. destruct (_ || _); [done|]. apply timer_start. destruct I. by split. Qed.

Lemma timer_fail st msg ch : timer_inv ch -> timer_inv (fail_all st msg ch).
Proof. intros []. by split. Qed.

Lemma timer_arm ch : timer_inv (arm_timer ch).
Proof. split; [done|]. intros _. unfold arm_timer. cbn. set_solver. Qed.

Lemma timer_enqueue now id request ch : timer_inv ch -> timer_inv (chan_enqueue now id request ch).
Proof.
  intros I. unfold chan_enqueue. set (ch1 := mkChannel _ _ _ _ _ _ _ _ _ _ _ _).
  assert (I1 : timer_inv (if timer_armed_ ch1 then ch1 else arm_timer ch1)).
  { destruct (timer_armed_ ch1) eqn:E; [|apply timer_arm]. destruct I as [_ I]. split; [done|exact I]. }
  destruct (timer_armed_ ch1); destruct (state_ _); try (apply timer_flush); try (apply timer_start; destruct I1; by split); done.
Qed.

Lemma read_loop_timer fuel ch ch' f : timer_inv ch -> read_loop fuel ch = Some (ch', f) -> timer_inv ch'.
Proof.
  revert ch. induction fuel as [|fuel IH]; intros ch I; [done|]. cbn [read_loop].
  destruct (pending_ ch) as [|p rest] eqn:Ep; [by intros [= <- _]|].
  destruct (parse_reply (rx_ ch)) as [[reply used| |e]|]; cbn [mbind option_bind]; [|by intros [= <- _]| |done].
  - intros E. eapply IH; [|exact E]. destruct I as [H1 H2]. split; cbn; [|done]. intros _. apply H1. by rewrite Ep.
  - intros [= <- _]. by apply timer_fail.
Qed.

Lemma remove_one_ne op op' l : op' ∈ l -> op' <> op -> op' ∈ remove_one op l.
Proof.
  intros Hin Hne. unfold remove_one. destruct (list_find (op =.) l) as [[i x]|] eqn:E; [|done].
  apply list_find_Some in E as (Hi & <- & _). apply list_elem_of_lookup in Hin as [j Hj]. apply list_elem_of_lookup.
  destruct (decide (j = i)) as [->|Hji]; [congruence|]. destruct (decide (j < i)%nat).
  - exists j. by rewrite list_lookup_delete_lt.
  - exists (j - 1)%nat. rewrite list_lookup_delete_ge by lia. by replace (S (j - 1)) with j by lia.
Qed.

Lemma chan_step_timer ev ch ch' : timer_inv ch -> chan_step ev ch = Some ch' -> timer_inv ch'.
Proof.
  intros I. unfold chan_step. destruct (event_op ev) as [op|] eqn:Eo; cycle 1.
  { destruct ev; try done; intros [= <-]; [by apply timer_enqueue|by apply timer_fail]. }
  case_bool_decide as Hin; [|done]. set (ch1 := set_ops _ ch).
  destruct (decide (op = ATimer)) as [->|Hne].
  { destruct ev; try done. intros [= <-]. unfold on_timer. cbn. destruct (pending_ ch) as [|p rest].
    - by split.
    - destruct (_ <=? _); [|apply timer_arm]. by split. }
  assert (I1 : timer_inv ch1).
  { destruct I as [H1 H2]. split; [exact H1|]. intros E. cbn. apply remove_one_ne; [by apply H2|congruence]. }
  destruct ev as [now id args| |gen err|gen err|gen err|gen res|now]; try done; cbn [handle].
  - destruct (negb _); [by intros [= <-]|]. intros [= <-]. destruct err; [by apply timer_fail|by apply timer_start].
  - destruct (negb _); [by intros [= <-]|]. intros [= <-]. destruct err; [by apply timer_fail|].
    apply timer_flush, timer_start. destruct I1. by split.
  - destruct (negb _); [by intros [= <-]|]. intros [= <-]. unfold on_written.
    destruct err; [apply timer_fail|apply timer_flush]; destruct I1; by split.
  - destruct (negb _); [by intros [= <-]|]. destruct res as [chunk|msg]; [|intros [= <-]; by apply timer_fail].
    unfold on_read. set (ch2 := mkChannel _ _ _ _ _ _ _ _ _ _ _ _).
    destruct (read_loop (S (length (rx_ ch2))) ch2) as [[ch3 f]|] eqn:E; [|done]. cbn [mbind option_bind]. intros [= <-].
    assert (timer_inv ch3) by (eapply read_loop_timer; [|exact E]; destruct I1; by split).
    destruct f; [done|by apply timer_start].
  - by injection Eo as <-.
Qed.

(** ** Replies reach the calls they answer *)

(** If what was received is the beginning of the encoding of [answers], then the
    replies delivered are the first of them, and the buffer holds the beginning
    of the encoding of the others. *)
Definition decoded (received : bytes) (delivered : list RespValue) (rx : bytes) : Prop :=
  forall answers tail, Forall resp_wf answers -> received ++ tail = concat (append_value [] <$> answers) ->
    exists others, answers = delivered ++ others /\ rx ++ tail = concat (append_value [] <$> others).

Lemma decoded_read received delivered rx chunk :
  decoded received delivered rx -> decoded (received ++ chunk) delivered (rx ++ chunk).
Proof. intros D answers tail W E. rewrite <-app_assoc in E |- *. by apply D. Qed.

Lemma decoded_reply received delivered rx reply used :
  decoded received delivered rx -> parse_reply rx = Some (POk reply used) ->
  decoded received (delivered ++ [reply]) (drop used rx).
Proof.
  intros D P answers tail W E. destruct (D answers tail W E) as (others & -> & E').
  destruct (parse_reply_fuel_total (S (length rx)) (length rx) ltac:(lia) rx ltac:(lia)) as (r & Er & B).
  unfold parse_reply in P. rewrite P in Er. injection Er as <-. specialize (B reply used eq_refl).
  assert (P' : parse_reply (rx ++ tail) = Some (POk reply used)) by (by eapply parse_reply_any, parse_reply_fuel_stable).
  apply Forall_app in W as [_ W]. destruct others as [|a others].
  { apply app_nil in E' as [-> ->]. by vm_compute in P'. }
  apply Forall_cons in W as [Wa W]. rewrite E', fmap_cons in P'. cbn [concat] in P'.
  assert (Pa : parse_reply (append_value [] a ++ concat (append_value [] <$> others)) =
    Some (POk a (length (append_value [] a)))) by (apply (parse_reply_any (depth a)); by apply parse_value_fuel).
  rewrite Pa in P'. injection P' as -> <-. exists others. split; [by rewrite <-app_assoc|].
  rewrite fmap_cons in E'. cbn [concat] in E'. apply (f_equal (drop (length (append_value [] reply)))) in E'.
  rewrite drop_app_length in E'. rewrite drop_app_le in E' by lia. done.
Qed.

(** The current connection: what was handed to the socket and what is queued are
    the requests of its calls, in order; its first calls have been answered, the
    others are pending. *)
Record conn_inv (ch : PeerChannel) : Prop := {
  ci_sent : conn_sent (conn_ ch) ++ queued_ ch = concat (conn_calls (conn_ ch)).*2;
  ci_len : (length (conn_replies (conn_ ch)) <= length (conn_calls (conn_ ch)))%nat;
  ci_pending : p_id <$> pending_ ch = drop (length (conn_replies (conn_ ch))) (conn_calls (conn_ ch)).*1;
  ci_results : exists old, results_ ch =
    old ++ zip (take (length (conn_replies (conn_ ch))) (conn_calls (conn_ ch)).*1) (rr_success <$> conn_replies (conn_ ch));
  ci_decoded : decoded (conn_received (conn_ ch)) (conn_replies (conn_ ch)) (rx_ ch)
}.

Lemma decoded_nil : decoded [] [] [].
Proof. intros answers tail _ E. by exists answers. Qed.

Lemma conn_fail st msg ch : conn_inv (fail_all st msg ch).
Proof.
  split; [done|done|done| |apply decoded_nil]. eexists. cbn. by rewrite app_nil_r.
Qed.

Lemma conn_flush ch : conn_inv ch -> conn_inv (chan_flush ch).
Proof.
  intros I. unfold chan_flush. destruct (_ || _); [done|]. destruct I. split; cbn; try done. by rewrite app_nil_r.
Qed.

Lemma conn_enqueue now id request ch : conn_inv ch -> conn_inv (chan_enqueue now id request ch).
Proof.
  intros []. unfold chan_enqueue. set (ch1 := mkChannel _ _ _ _ _ _ _ _ _ _ _ _).
  assert (I1 : conn_inv ch1).
  { split; subst ch1; cbn.
    - rewrite fmap_app, concat_app, app_assoc, ci_sent0. cbn. by rewrite app_nil_r.
    - rewrite length_app. simpl. lia.
    - rewrite !fmap_app, ci_pending0, drop_app_le by (by rewrite length_fmap). done.
    - rewrite fmap_app, take_app_le by (by rewrite length_fmap). done.
    - done. }
  destruct (timer_armed_ ch1); destruct (state_ _); try apply conn_flush; destruct I1; by split.
Qed.

Lemma read_loop_conn fuel ch ch' f : conn_inv ch -> read_loop fuel ch = Some (ch', f) -> conn_inv ch'.
Proof.
  revert ch. induction fuel as [|fuel IH]; intros ch I; [done|]. cbn [read_loop].
  destruct (pending_ ch) as [|p rest] eqn:Ep; [by intros [= <- _]|].
  destruct (parse_reply (rx_ ch)) as [[reply used| |e]|] eqn:Er; cbn [mbind option_bind]; [|by intros [= <- _]| |done];
    [|intros [= <- _]; apply conn_fail].
  intros E. eapply IH; [|exact E]. destruct I as [I1 I2 I3 [old I4] I5]. rewrite Ep, fmap_cons in I3.
  set (l := (conn_calls (conn_ ch)).*1) in *. set (n := length (conn_replies (conn_ ch))) in *.
  assert (Hn : l !! n = Some (p_id p)) by (rewrite <-(Nat.add_0_r n), <-lookup_drop, <-I3; done).
  split; cbn; rewrite ?length_app; cbn [length].
  - done.
  - apply lookup_lt_Some in Hn. subst l. rewrite length_fmap in Hn. lia.
  - fold l n. rewrite Nat.add_1_r. by rewrite (drop_S l (p_id p) n Hn) in I3; injection I3.
  - exists old. fold l n. rewrite I4, Nat.add_1_r, (take_S_r _ _ _ Hn), fmap_app, zip_with_app, <-app_assoc; [done|].
    rewrite length_take, length_fmap. apply lookup_lt_Some in Hn. fold n. lia.
  - by apply decoded_reply.
Qed.

Lemma chan_step_conn ev ch ch' : conn_inv ch -> chan_step ev ch = Some ch' -> conn_inv ch'.
Proof.
  intros I. unfold chan_step.
  assert (G : forall ch1, conn_inv ch1 -> handle ev ch1 = Some ch' -> conn_inv ch').
  { intros ch1 I1. destruct ev as [now id args| |gen err|gen err|gen err|gen res|now]; cbn [handle].
    - intros [= <-]. by apply conn_enqueue.
    - intros [= <-]. apply conn_fail.
    - destruct (negb _); [by intros [= <-]|]. intros [= <-]. destruct err; [apply conn_fail|destruct I1; by split].
    - destruct (negb _); [by intros [= <-]|]. intros [= <-]. destruct err; [apply conn_fail|].
      apply conn_flush. destruct I1; by split.
    - destruct (negb _); [by intros [= <-]|]. intros [= <-]. unfold on_written.
      destruct err; [apply conn_fail|]. apply conn_flush. destruct I1; by split.
    - destruct (negb _); [by intros [= <-]|]. destruct res as [chunk|msg]; [|intros [= <-]; apply conn_fail].
      unfold on_read. set (ch2 := mkChannel _ _ _ _ _ _ _ _ _ _ _ _).
      destruct (read_loop (S (length (rx_ ch2))) ch2) as [[ch3 f]|] eqn:E; [|done]. cbn [mbind option_bind]. intros [= <-].
      assert (I3 : conn_inv ch3); [|destruct f; [done|destruct I3; by split]].
      eapply read_loop_conn; [|exact E]. destruct I1. split; try done. by apply decoded_read.
    - intros [= <-]. unfold on_timer. cbn. destruct (pending_ ch1) as [|p rest] eqn:Ep.
      + destruct I1. by split; cbn; rewrite ?Ep in *.
      + destruct (_ <=? _); [apply conn_fail|]. destruct I1. by split; cbn; rewrite ?Ep in *. }
  destruct (event_op ev); [|by apply G]. case_bool_decide; [|done]. apply G. destruct I. by split.
Qed.

(** ** Deadlines *)

Definition new_pending (ev : ChanEvent) (ch : PeerChannel) : list Pending :=
  match ev with ECall now id _ => [mkPending id (now + request_timeout_ ch)] | _ => [] end.

(** The pending calls of [ch'] are the last ones of [l]. *)
Definition pending_suffix (l : list Pending) (ch ch' : PeerChannel) : Prop :=
  request_timeout_ ch' = request_timeout_ ch /\ exists k, pending_ ch' = drop k l.

Lemma suffix_all ch ch' l :
  request_timeout_ ch' = request_timeout_ ch -> pending_ ch' = l -> pending_suffix l ch ch'.
Proof. intros H1 H2. split; [done|]. by exists 0%nat. Qed.

Lemma suffix_none ch ch' l : request_timeout_ ch' = request_timeout_ ch -> pending_ ch' = [] -> pending_suffix l ch ch'.
Proof. intros H1 H2. split; [done|]. exists (length l). by rewrite drop_all. Qed.

Lemma read_loop_pending fuel ch ch' f : read_loop fuel ch = Some (ch', f) -> pending_suffix (pending_ ch) ch ch'.
Proof.
  revert ch. induction fuel as [|fuel IH]; intros ch; [done|]. cbn [read_loop].
  destruct (pending_ ch) as [|p rest] eqn:Ep; [intros [= <- _]; by apply suffix_all|].
  destruct (parse_reply (rx_ ch)) as [[reply used| |e]|]; cbn [mbind option_bind]; [|intros [= <- _]; by apply suffix_all| |done].
  - intros E. apply IH in E as [H1 [k H2]]. split; [done|]. exists (S k). exact H2.
  - intros [= <- _]. by apply suffix_none.
Qed.

Lemma flush_pending ch : request_timeout_ (chan_flush ch) = request_timeout_ ch /\ pending_ (chan_flush ch) = pending_ ch.
Proof. unfold chan_flush. by destruct (_ || _). Qed.

Lemma chan_step_pending ev ch ch' :
  chan_step ev ch = Some ch' -> pending_suffix (pending_ ch ++ new_pending ev ch) ch ch'.
Proof.
  unfold chan_step.
  assert (G : forall ch1, request_timeout_ ch1 = request_timeout_ ch -> pending_ ch1 = pending_ ch ->
    handle ev ch1 = Some ch' -> pending_suffix (pending_ ch ++ new_pending ev ch) ch ch').
  { intros ch1 T1 P1. destruct ev as [now id args| |gen err|gen err|gen err|gen res|now]; cbn [handle new_pending];
      rewrite ?app_nil_r.
    - intros [= <-]. unfold chan_enqueue. set (ch2 := mkChannel _ _ _ _ _ _ _ _ _ _ _ _).
      apply suffix_all; destruct (timer_armed_ ch2); destruct (state_ _);
        try (rewrite (proj1 (flush_pending _))); try (rewrite (proj2 (flush_pending _))); cbn; by rewrite ?T1, ?P1.
    - intros [= <-]. by apply suffix_none.
    - destruct (negb _); intros [= <-]; [by apply suffix_all|]. destruct err; [by apply suffix_none|by apply suffix_all].
    - destruct (negb _); intros [= <-]; [by apply suffix_all|]. destruct err; [by apply suffix_none|].
      apply suffix_all; unfold on_connected; by rewrite ?(proj1 (flush_pending _)), ?(proj2 (flush_pending _)).
    - destruct (negb _); intros [= <-]; [by apply suffix_all|]. unfold on_written. destruct err; [by apply suffix_none|].
      apply suffix_all; by rewrite ?(proj1 (flush_pending _)), ?(proj2 (flush_pending _)).
    - destruct (negb _); [intros [= <-]; by apply suffix_all|]. destruct res as [chunk|msg]; [|intros [= <-]; by apply suffix_none].
      unfold on_read. set (ch2 := mkChannel _ _ _ _ _ _ _ _ _ _ _ _).
      destruct (read_loop (S (length (rx_ ch2))) ch2) as [[ch3 f]|] eqn:E; [|done]. cbn [mbind option_bind]. intros [= <-].
      apply read_loop_pending in E as [H1 [k H2]]. cbn in H1, H2. rewrite T1 in H1. rewrite P1 in H2.
      split; [by destruct f|]. exists k. by destruct f.
    - intros [= <-]. unfold on_timer. cbn. rewrite P1. destruct (pending_ ch) as [|p rest]; [by apply suffix_all|].
      destruct (_ <=? _); [by apply suffix_none|by apply suffix_all]. }
  destruct (event_op ev); [|by apply G]. case_bool_decide; [|done]. by apply G.
Qed.

(** The time an event reads the clock at. *)
Definition event_time (ev : ChanEvent) : option Z :=
  match ev with ECall now _ _ | ETimer now => Some now | _ => None end.

(** Deadlines are in order, and none is later than a timeout from [last]. *)
Definition deadlines_inv (last : Z) (ch : PeerChannel) : Prop :=
  StronglySorted Z.le (p_deadline <$> pending_ ch) /\
  forall p, p ∈ pending_ ch -> p_deadline p <= last + request_timeout_ ch.

Lemma sorted_snoc (l : list Z) x : StronglySorted Z.le l -> (forall y, y ∈ l -> y <= x) -> StronglySorted Z.le (l ++ [x]).
Proof.
  induction 1 as [|y l Hs IH HF]; intros Hx; [by repeat constructor|]. cbn. constructor.
  - apply IH. intros z Hz. apply Hx. by right.
  - apply Forall_app. split; [done|]. constructor; [|constructor]. apply Hx. by left.
Qed.

Lemma sorted_drop (l : list Z) k : StronglySorted Z.le l -> StronglySorted Z.le (drop k l).
Proof. revert k. induction l as [|y l IH]; intros [|k] Hs; try done. inversion Hs. by apply IH. Qed.

Lemma chan_step_deadlines ev ch ch' last :
  deadlines_inv last ch -> chan_step ev ch = Some ch' -> (forall t, event_time ev = Some t -> last <= t) ->
  deadlines_inv (default last (event_time ev)) ch'.
Proof.
  intros [Hs Hb] E Ht. apply chan_step_pending in E as [HT [k HP]].
  assert (L : last <= default last (event_time ev)) by (destruct (event_time ev) eqn:E; [by apply Ht|done]).
  unfold deadlines_inv. rewrite HP, HT. split.
  - rewrite fmap_drop, fmap_app. apply sorted_drop. destruct ev; cbn [new_pending fmap list_fmap]; rewrite ?app_nil_r; try done.
    apply sorted_snoc; [done|]. intros y (p & -> & Hp)%list_elem_of_fmap. specialize (Hb p Hp). cbn in L |- *. lia.
  - intros p Hp. assert (Hp' : p ∈ pending_ ch ++ new_pending ev ch) by (rewrite <-(take_drop k (_ ++ _)); set_solver).
    apply elem_of_app in Hp' as [Hp'|Hp']; [specialize (Hb p Hp'); lia|].
    destruct ev; cbn [new_pending] in Hp'; try (by apply elem_of_nil in Hp'). apply list_elem_of_singleton in Hp' as ->. cbn. lia.
Qed.

(** ** Generations *)

Definition op_gen (op : AsyncOp) : option Z :=
  match op with AResolve g | AConnect g | AWrite g | ARead g => Some g | ATimer => None end.

(** Operations carry generations up to the current one, and none carries it
    between connections. *)
Record gen_inv (bound : Z) (ch : PeerChannel) : Prop := {
  gi_range : 0 <= generation_ ch <= bound;
  gi_ops : forall op g, op ∈ ops_ ch -> op_gen op = Some g -> g <= generation_ ch;
  gi_idle : state_ ch = Disconnected -> forall op g, op ∈ ops_ ch -> op_gen op = Some g -> g < generation_ ch
}.

Lemma gen_fail st msg bound ch : gen_inv bound ch -> bound + 1 < 2 ^ 64 -> gen_inv (bound + 1) (fail_all st msg ch).
Proof.
  intros [H1 H2 H3] Hb. unfold fail_all, reset_connection. split; cbn; rewrite ?wrap_small by lia; [lia| |].
  - intros op g Hop Hg. specialize (H2 op g Hop Hg). lia.
  - intros _ op g Hop Hg. specialize (H2 op g Hop Hg). lia.
Qed.

Lemma gen_start bound op ch :
  gen_inv bound ch -> (forall g, op_gen op = Some g -> g = generation_ ch /\ state_ ch <> Disconnected) ->
  gen_inv bound (start op ch).
Proof.
  intros [H1 H2 H3] Hop. split; cbn; [done| |].
  - intros o g [Ho|Ho]%elem_of_app Hg; [by eapply H2|]. apply list_elem_of_singleton in Ho as ->. destruct (Hop g Hg). lia.
  - intros Hd o g [Ho|Ho]%elem_of_app Hg; [by eapply H3|]. apply list_elem_of_singleton in Ho as ->. by destruct (Hop g Hg).
Qed.

Lemma gen_weaken bound bound' ch : gen_inv bound ch -> bound <= bound' -> gen_inv bound' ch.
Proof. intros [] ?. split; try done. lia. Qed.

(** The fields a handler may change without touching generations. *)
Lemma gen_same bound ch ch' :
  gen_inv bound ch -> generation_ ch' = generation_ ch -> ops_ ch' = ops_ ch ->
  (state_ ch' = Disconnected -> state_ ch = Disconnected) -> gen_inv bound ch'.
Proof. intros [H1 H2 H3] E1 E2 E3. split; rewrite ?E1, ?E2; [done|done|]. intros Hd. by apply H3, E3. Qed.

Lemma gen_flush bound ch : gen_inv bound ch -> gen_inv bound (chan_flush ch).
Proof.
  intros I. unfold chan_flush. destruct (_ || _) eqn:E; [done|]. apply orb_false_iff in E as [_ E].
  apply gen_start; [by eapply gen_same|]. cbn. intros g [= <-]. split; [done|]. intros Hd. by rewrite Hd in E.
Qed.

Lemma gen_enqueue now id request bound ch :
  gen_inv bound ch -> bound + 1 < 2 ^ 64 -> gen_inv (bound + 1) (chan_enqueue now id request ch).
Proof.
  intros I Hb. unfold chan_enqueue. set (ch1 := mkChannel _ _ _ _ _ _ _ _ _ _ _ _).
  assert (I1 : gen_inv bound (if timer_armed_ ch1 then ch1 else arm_timer ch1)).
  { destruct (timer_armed_ ch1); [by eapply gen_same|]. apply gen_start; [by eapply gen_same|done]. }
  set (ch2 := if timer_armed_ ch1 then ch1 else arm_timer ch1) in *. clearbody ch2. destruct (state_ ch2) eqn:Es.
  - destruct I1 as [H1 H2 _]. apply gen_start.
    + split; cbn; rewrite ?wrap_small by lia; [lia| |done]. intros op g Hop Hg. specialize (H2 op g Hop Hg). lia.
    + cbn. intros g [= <-]. done.
  - eapply gen_weaken; [exact I1|lia].
  - eapply gen_weaken; [by apply gen_flush|lia].
Qed.

Lemma read_loop_gen fuel bound ch ch' f :
  gen_inv bound ch -> bound + 1 < 2 ^ 64 -> state_ ch <> Disconnected -> read_loop fuel ch = Some (ch', f) ->
  gen_inv (bound + 1) ch' /\ (f = false -> state_ ch' <> Disconnected).
Proof.
  intros I Hb. revert ch I. induction fuel as [|fuel IH]; intros ch I Hs; [done|]. cbn [read_loop].
  assert (Iw : gen_inv (bound + 1) ch) by (eapply gen_weaken; [done|lia]).
  destruct (pending_ ch) as [|p rest]; [by intros [= <- _]|].
  destruct (parse_reply (rx_ ch)) as [[reply used| |e]|]; cbn [mbind option_bind]; [|by intros [= <- _]| |done].
  - intros E. eapply IH; [| |exact E]; [by eapply gen_same|done].
  - intros [= <- <-]. split; [by apply gen_fail|done].
Qed.

Lemma remove_one_in op op' l : op' ∈ remove_one op l -> op' ∈ l.
Proof.
  unfold remove_one. destruct (list_find _ l) as [[i x]|]; [|done]. intros Hin.
  eapply sublist_subseteq; [|exact Hin]. apply sublist_delete.
Qed.

(** A completion of the current generation finds the channel connecting or
    connected. *)
Lemma current_op bound ch op g :
  gen_inv bound ch -> op ∈ ops_ ch -> op_gen op = Some g -> (g =? generation_ ch) = true -> state_ ch <> Disconnected.
Proof. intros I Hin Hg E Hd. apply Z.eqb_eq in E as ->. specialize (gi_idle _ _ I Hd op _ Hin Hg). lia. Qed.

Lemma chan_step_gen ev bound ch ch' :
  gen_inv bound ch -> bound + 1 < 2 ^ 64 -> chan_step ev ch = Some ch' -> gen_inv (bound + 1) ch'.
Proof.
  intros I Hb. unfold chan_step. destruct (event_op ev) as [op|] eqn:Eo; cycle 1.
  { destruct ev; try done; cbn [handle]; intros [= <-]; [by apply gen_enqueue|by apply gen_fail]. }
  case_bool_decide as Hin; [|done]. set (ch1 := set_ops _ ch).
  assert (I1 : gen_inv bound ch1).
  { destruct I as [H1 H2 H3]. split; cbn; [done| |]; intros; eauto using remove_one_in. }
  assert (I1w : gen_inv (bound + 1) ch1) by (eapply gen_weaken; [done|lia]).
  assert (Hs : forall g, op_gen op = Some g -> (g =? generation_ ch1) = true -> state_ ch1 <> Disconnected)
    by (intros g Hg E; by eapply (current_op bound ch)).
  destruct ev as [now id args| |gen err|gen err|gen err|gen res|now]; try done; injection Eo as <-; cbn [handle].
  1-4: destruct (gen =? generation_ ch1) eqn:Eg; cbn [negb]; [specialize (Hs gen eq_refl Eg)|by intros [= <-]].
  - intros [= <-]. destruct err; [by apply gen_fail|]. apply gen_start; [done|]. cbn. intros g [= <-].
    by apply Z.eqb_eq in Eg.
  - intros [= <-]. destruct err; [by apply gen_fail|]. apply gen_flush, gen_start; [by eapply gen_same|].
    cbn. by intros g [= <-].
  - intros [= <-]. unfold on_written. destruct err; [apply gen_fail; [by eapply gen_same|done]|].
    apply gen_flush. by eapply gen_same.
  - destruct res as [chunk|msg]; [|intros [= <-]; by apply gen_fail].
    unfold on_read. set (ch2 := mkChannel _ _ _ _ _ _ _ _ _ _ _ _).
    destruct (read_loop (S (length (rx_ ch2))) ch2) as [[ch3 f]|] eqn:E; [|done]. cbn [mbind option_bind]. intros [= <-].
    destruct (read_loop_gen _ bound ch2 _ _ ltac:(by eapply gen_same) Hb ltac:(done) E) as [I3 S3].
    destruct f; [done|]. apply gen_start; [done|]. cbn. intros g [= <-]. split; [done|by apply S3].
  - intros [= <-]. unfold on_timer. cbn. destruct (pending_ ch) as [|p rest]; [by eapply gen_same|].
    destruct (_ <=? _); [apply gen_fail; [by eapply gen_same|done]|]. apply gen_start; [by eapply gen_same|done].
Qed.

(** ** Properties *)

Lemma chan_run_snoc evs ev ch : chan_run (evs ++ [ev]) ch = chan_run evs ch ≫= chan_step ev.
Proof. unfold chan_run. by rewrite foldl_app. Qed.

Lemma called_ids_snoc evs ev : called_ids (evs ++ [ev]) = called_ids evs ++ made ev.
Proof. unfold called_ids. rewrite omap_app. f_equal. by destruct ev. Qed.

Lemma chan_step_calls ev ch ch' : chan_step ev ch = Some ch' -> calls_of ch' = calls_of ch ++ made ev.
Proof.
  intros E. unfold chan_step in E. destruct (event_op ev).
  - case_bool_decide; [|done]. destruct (handle_total ev (set_ops (remove_one a (ops_ ch)) ch)) as (ch2 & E2 & C2).
    rewrite E in E2. injection E2 as <-. exact C2.
  - destruct (handle_total ev ch) as (ch2 & E2 & C2). rewrite E in E2. injection E2 as <-. exact C2.
Qed.

(** A posted handler, and the completion of an outstanding operation, can run. *)
Lemma chan_step_enabled ev ch : (forall op, event_op ev = Some op -> op ∈ ops_ ch) -> is_Some (chan_step ev ch).
Proof.
  intros Hop. unfold chan_step. destruct (event_op ev) as [op|].
  - rewrite bool_decide_true by (by apply Hop). destruct (handle_total ev (set_ops (remove_one op (ops_ ch)) ch)) as (ch2 & -> & _). eauto.
  - destruct (handle_total ev ch) as (ch2 & -> & _). eauto.
Qed.

Lemma new_timer timeout : timer_inv (PeerChannel_new timeout).
Proof. by split. Qed.

(** C14: Every call is answered exactly once: after any calls and completions, in
    whatever order they come, the calls made are those whose callback has run,
    in the order they were made, followed by those still pending; a completion
    of any outstanding operation is handled; and while a call is pending the
    timer that bounds it is running. *)
Theorem channel_calls_complete_once timeout evs ch :
  chan_run evs (PeerChannel_new timeout) = Some ch ->
  (results_ ch).*1 ++ (p_id <$> pending_ ch) = called_ids evs /\
  (pending_ ch <> [] -> ATimer ∈ ops_ ch) /\
  (forall ev, (forall op, event_op ev = Some op -> op ∈ ops_ ch) -> is_Some (chan_step ev ch)).
Proof.
  intros E. assert (I : calls_of ch = called_ids evs /\ timer_inv ch).
  { revert ch E. induction evs as [|ev evs IH] using rev_ind; intros ch E.
    - injection E as <-. split; [done|]. apply new_timer.
    - rewrite chan_run_snoc in E. destruct (chan_run evs _) as [ch1|]; [|done]. cbn [mbind option_bind] in E.
      destruct (IH ch1 eq_refl) as [C1 T1]. split; [|by eapply chan_step_timer].
      rewrite called_ids_snoc, <-C1. by apply chan_step_calls. }
  destruct I as [C [T1 T2]]. split; [done|]. split; [auto|]. intros ev Hop. by apply chan_step_enabled.
Qed.

(** C15: Replies are matched to the calls they answer: on the current connection
    the bytes handed to the socket, with those queued, are the requests of its
    calls in order; and whatever the peer has sent, if it is the beginning of
    the encoding of some replies, then the first calls of the connection have
    completed with the first replies, one for one, and the rest are pending.  No
    outstanding operation of an earlier connection carries the generation of a
    later one. *)
Theorem channel_replies_match timeout evs ch :
  chan_run evs (PeerChannel_new timeout) = Some ch -> Z.of_nat (length evs) + 1 < 2 ^ 64 ->
  let conn := conn_ ch in
  conn_sent conn ++ queued_ ch = concat (conn_calls conn).*2 /\
  (forall answers tail, Forall resp_wf answers -> conn_received conn ++ tail = concat (append_value [] <$> answers) ->
     exists k, (k <= length (conn_calls conn))%nat /\
       (exists earlier, results_ ch = earlier ++ zip (take k (conn_calls conn).*1) (rr_success <$> take k answers)) /\
       p_id <$> pending_ ch = drop k (conn_calls conn).*1) /\
  (state_ ch = Disconnected -> forall op g, op ∈ ops_ ch -> op_gen op = Some g -> g <> generation_ ch).
Proof.
  intros E Hl. assert (I : conn_inv ch /\ gen_inv (Z.of_nat (length evs)) ch).
  { revert ch E. induction evs as [|ev evs IH] using rev_ind; intros ch E.
    - injection E as <-. split; [|split; cbn; [lia|..]; intros; by apply elem_of_nil in H || by apply elem_of_nil in H0].
      split; [done|done|done|by exists []|apply decoded_nil].
    - rewrite chan_run_snoc in E. destruct (chan_run evs _) as [ch1|]; [|done]. cbn [mbind option_bind] in E.
      rewrite length_app in Hl |- *. cbn [length] in Hl |- *. destruct (IH ltac:(lia) ch1 eq_refl) as [C1 G1].
      split; [by eapply chan_step_conn|]. rewrite Nat2Z.inj_add. eapply chan_step_gen; [done|lia|done]. }
  destruct I as [[C1 C2 C3 [old C4] C5] G]. cbv zeta. split; [done|]. split.
  - intros answers tail W Ea. destruct (C5 answers tail W Ea) as (others & -> & _).
    exists (length (conn_replies (conn_ ch))). split; [done|]. split; [|done]. exists old. by rewrite take_app_length.
  - intros Hd op g Hin Hg. specialize (gi_idle _ _ G Hd op g Hin Hg). lia.
Qed.

Lemma chan_run_none evs : foldl (fun o ev => o ≫= chan_step ev) None evs = None.
Proof. by induction evs. Qed.

Lemma run_deadlines evs ch ch' last :
  deadlines_inv last ch -> chan_run evs ch = Some ch' -> StronglySorted Z.le (last :: omap event_time evs) ->
  exists last', deadlines_inv last' ch'.
Proof.
  revert ch last. induction evs as [|ev evs IH]; intros ch last D E Hs; [injection E as <-; eauto|].
  unfold chan_run in E. cbn [foldl mbind option_bind] in E.
  destruct (chan_step ev ch) as [ch1|] eqn:E1; [|by rewrite chan_run_none in E].
  apply StronglySorted_inv in Hs as [Hs Hf]. cbn [omap list_omap] in Hs, Hf.
  eapply IH; [eapply chan_step_deadlines; [exact D|exact E1|]|exact E|]; destruct (event_time ev) as [t|].
  - intros ? [= <-]. by apply Forall_cons in Hf as [? _].
  - done.
  - exact Hs.
  - by constructor.
Qed.

(** No call outlives its deadline once the timer runs: if clock readings never
    go back, and the timer fires at a time when some pending call is past its
    deadline, then every pending call completes with a timeout and the
    connection is dropped with what was queued on it. *)
Theorem channel_timeout timeout evs ch now p ch' :
  chan_run evs (PeerChannel_new timeout) = Some ch -> StronglySorted Z.le (omap event_time evs) ->
  p ∈ pending_ ch -> p_deadline p <= now -> chan_step (ETimer now) ch = Some ch' ->
  pending_ ch' = [] /\
  results_ ch' = results_ ch ++ ((fun q => (p_id q, rr_error RTimeout (lit "Operation timed out"))) <$> pending_ ch) /\
  state_ ch' = Disconnected /\ queued_ ch' = [].
Proof.
  intros E Hsort Hp Hd Est.
  destruct (run_deadlines evs (PeerChannel_new timeout) ch (default 0 (head (omap event_time evs)))) as (last & Hs & _).
  - split; [constructor|]. intros q Hq. by apply elem_of_nil in Hq.
  - done.
  - destruct (omap event_time evs) as [|t l]; [by repeat constructor|]. constructor; [done|]. constructor; [done|].
    by apply StronglySorted_inv in Hsort as [_ ?].
  - unfold chan_step in Est. cbn [event_op] in Est. case_bool_decide; [|done]. injection Est as <-.
    unfold on_timer. cbn [pending_ set_ops]. destruct (pending_ ch) as [|q rest] eqn:Ep; [by apply elem_of_nil in Hp|].
    assert (Hq : p_deadline q <= now).
    { apply elem_of_cons in Hp as [->|Hp]; [done|]. rewrite fmap_cons in Hs. apply StronglySorted_inv in Hs as [_ Hf].
      rewrite Forall_forall in Hf. specialize (Hf (p_deadline p) ltac:(by apply list_elem_of_fmap_2)). lia. }
    rewrite (proj2 (Z.leb_le _ _)) by done. unfold fail_all. cbn. done.
Qed.

(** *** Witnesses: two pipelined calls; the peer answers the first and is late on
    the second *)

Definition sample_calls : list ChanEvent :=
  [ECall 0 1 [lit "PING"]; ECall 5 2 [lit "DBSIZE"]; EResolved 1 None; EConnected 1 None; EWritten 1 None;
   ERead 1 (inl (lit "+PONG" ++ CRLF ++ lit ":"))].
Definition sample_channel : PeerChannel :=
  default (PeerChannel_new 100) (chan_run sample_calls (PeerChannel_new 100)).

Lemma sample_channel_run : chan_run sample_calls (PeerChannel_new 100) = Some sample_channel.
Proof. vm_compute. reflexivity. Qed.

Lemma channel_calls_complete_once_witness :
  (results_ sample_channel).*1 ++ (p_id <$> pending_ sample_channel) = [1%nat; 2%nat].
Proof. apply (channel_calls_complete_once 100 sample_calls sample_channel sample_channel_run). Defined.

Lemma channel_replies_match_witness :
  exists k, (k <= 2)%nat /\
    (exists earlier, results_ sample_channel =
       earlier ++ zip (take k [1%nat; 2%nat]) (rr_success <$> take k [SimpleString (lit "PONG"); RespInteger 7])) /\
    p_id <$> pending_ sample_channel = drop k [1%nat; 2%nat].
Proof.
  apply (channel_replies_match 100 sample_calls sample_channel sample_channel_run ltac:(vm_compute; reflexivity))
    with (tail := lit "7" ++ CRLF).
  - repeat constructor; vm_compute; congruence.
  - vm_compute. reflexivity.
Defined.

Lemma channel_timeout_witness :
  exists ch', chan_step (ETimer 150) sample_channel = Some ch' /\ pending_ ch' = [].
Proof.
  destruct (chan_step (ETimer 150) sample_channel) as [ch'|] eqn:E; [|vm_compute in E; discriminate E].
  exists ch'. split; [reflexivity|].
  apply (channel_timeout 100 sample_calls sample_channel 150 (mkPending 2 105) ch' sample_channel_run).
  - vm_compute. repeat constructor; discriminate.
  - vm_compute. left.
  - cbn. lia.
  - exact E.
Defined.
