(* ===== verification/PeerPool.v ===== *)
(** * Blocking clients and the pool of them

    Models [Client::connect], [disconnect] and [command] of network/client.cpp
    and network/peer_pool.cpp.  [command] runs the client's own event loop until
    the operation and the timer are over; the completions that run are an
    argument.  [c_requests], [c_received] and [c_replies] record what was sent,
    received and returned on the current connection.  A connection is given a
    number when it is made, so that the pool's exclusive use can be stated. *)

From S2P Require Import Prelude Numerals Resp Parser ReplicaWire PeerChannel.

Local Open Scope Z_scope.

(** ** [Client] *)

Record Client := mkClient {
  c_connected : bool;
  c_rx : bytes;
  c_requests : list (list bytes);
  c_received : bytes;
  c_replies : list RespValue
}.

Definition Client_new : Client := mkClient false [] [] [] [].

(** [Client::connect]; [ok] is whether the connection was made before the
    timeout. *)
Definition Client_connect (ok : bool) (c : Client) : Client * bool :=
  (if ok then mkClient true (c_rx c) [] [] [] else mkClient false (c_rx c) (c_requests c) (c_received c) (c_replies c), ok).

(** [Client::disconnect]. *)
Definition Client_disconnect (c : Client) : Client := mkClient false [] (c_requests c) (c_received c) (c_replies c).

(** The completions of one [command]. *)
Inductive ClientEv := CWritten (err : option bytes) | CChunk (chunk : bytes) | CReadError (msg : bytes) | CTimeout.

(** How the event loop ended. *)
Inductive Outcome := OTimedOut | OFailed (msg : bytes) | OMalformed | OReply (reply : RespValue).

(** The timer's handler may already be queued when the operation cancels it. *)
Definition after_op (evs : list ClientEv) (o : Outcome) : Outcome :=
  match evs with CTimeout :: _ => OTimedOut | _ => o end.

(** [read_more] until [try_parse] answers; [None] when the script of completions
    ends before the loop does, or is not one the loop can see. *)
Fixpoint read_more (evs : list ClientEv) (c : Client) : option (Client * Outcome) :=
  match evs with
  | CChunk chunk :: evs' =>
      let rx := c_rx c ++ chunk in
      r ← parse_reply rx;
      let c' := mkClient (c_connected c) rx (c_requests c) (c_received c ++ chunk) (c_replies c) in
      match r with
      | POk reply used =>
          Some (mkClient (c_connected c) (drop used rx) (c_requests c) (c_received c ++ chunk) (c_replies c ++ [reply]),
                after_op evs' (OReply reply))
      | PError _ => Some (c', after_op evs' OMalformed)
      | PIncomplete => read_more evs' c'
      end
  | CReadError msg :: evs' => Some (c, after_op evs' (OFailed msg))
  | CTimeout :: _ => Some (c, OTimedOut)
  | _ => None
  end.

(** [Client::command]. *)
Definition Client_command (args : list bytes) (evs : list ClientEv) (c : Client)
    : option (Client * RequestResult RespValue) :=
  if negb (c_connected c) then Some (c, rr_error RConnectionError (lit "Client is not connected"))
  else
    let c := mkClient true (c_rx c) (c_requests c ++ [args]) (c_received c) (c_replies c) in
    '(c', o) ← match evs with
               | CWritten None :: evs' => read_more evs' c
               | CWritten (Some msg) :: evs' => Some (c, after_op evs' (OFailed msg))
               | CTimeout :: _ => Some (c, OTimedOut)
               | _ => None
               end;
    Some match o with
         | OTimedOut => (Client_disconnect c', rr_error RTimeout (lit "Operation timed out"))
         | OFailed msg => (Client_disconnect c', rr_error RConnectionError msg)
         | OMalformed => (Client_disconnect c', rr_error RProtocolError (lit "Malformed RESP reply"))
         | OReply reply => (c', rr_success reply)
         end.

(** ** [PeerPool] *)

(** A connection and its number. *)
Record Conn := mkPooled { pc_id : nat; pc_client : Client }.

(** [p_leases] are the leases in use; [p_next] numbers connections. *)
Record PeerPool := mkPool {
  max_idle_per_peer_ : nat;
  idle_ : gmap bytes (list Conn);
  p_leases : list (bytes * Conn);
  p_next : nat
}.

Definition PeerPool_new (max_idle : nat) : PeerPool := mkPool max_idle ∅ [] 0.

Definition make_address (host : bytes) (port : Z) : bytes := host ++ lit ":" ++ to_dec port.

(** [acquire]: the most recently returned idle connection, or a new one if it
    can be made. *)
Definition PeerPool_acquire (address : bytes) (connects : bool) (p : PeerPool) : PeerPool * option Conn :=
  match idle_ p !! address with
  | Some (x :: l) =>
      let l' := x :: l in
      let c := List.last l' x in
      (mkPool (max_idle_per_peer_ p) (<[address := removelast l']> (idle_ p)) (p_leases p ++ [(address, c)]) (p_next p),
       Some c)
  | _ =>
      let '(client, ok) := Client_connect connects Client_new in
      if (ok : bool) then
        let c := mkPooled (p_next p) client in
        (mkPool (max_idle_per_peer_ p) (idle_ p) (p_leases p ++ [(address, c)]) (p_next p + 1), Some c)
      else (mkPool (max_idle_per_peer_ p) (idle_ p) (p_leases p) (p_next p + 1), None)
  end.

(** [release]; a connection over the limit is closed. *)
Definition PeerPool_release (address : bytes) (c : Conn) (p : PeerPool) : PeerPool :=
  let idle := default [] (idle_ p !! address) in
  mkPool (max_idle_per_peer_ p)
    (<[address := if (length idle <? max_idle_per_peer_ p)%nat then idle ++ [c] else idle]> (idle_ p))
    (p_leases p) (p_next p).

(** The end of lease [i]: a connection that is still healthy goes back. *)
Definition Lease_end (i : nat) (p : PeerPool) : option PeerPool :=
  '(address, c) ← p_leases p !! i;
  let p' := mkPool (max_idle_per_peer_ p) (idle_ p) (delete i (p_leases p)) (p_next p) in
  Some (if c_connected (pc_client c) then PeerPool_release address c p' else p').

(** A command on lease [i]. *)
Definition Lease_command (i : nat) (args : list bytes) (evs : list ClientEv) (p : PeerPool)
    : option (PeerPool * RequestResult RespValue) :=
  '(address, c) ← p_leases p !! i;
  '(client, r) ← Client_command args evs (pc_client c);
  Some (mkPool (max_idle_per_peer_ p) (idle_ p) (<[i := (address, mkPooled (pc_id c) client)]> (p_leases p)) (p_next p), r).

(** [drop]: the idle connections to a peer are closed. *)
Definition PeerPool_drop (address : bytes) (p : PeerPool) : PeerPool :=
  match idle_ p !! address with
  | Some _ => mkPool (max_idle_per_peer_ p) (<[address := []]> (idle_ p)) (p_leases p) (p_next p)
  | None => p
  end.

Inductive PoolOp :=
  | PAcquire (address : bytes) (connects : bool)
  | PCommand (i : nat) (args : list bytes) (evs : list ClientEv)
  | PEnd (i : nat)
  | PDrop (address : bytes).

Definition pool_exec (op : PoolOp) (p : PeerPool) : option PeerPool :=
  match op with
  | PAcquire address connects => Some (fst (PeerPool_acquire address connects p))
  | PCommand i args evs => fst <$> Lease_command i args evs p
  | PEnd i => Lease_end i p
  | PDrop address => Some (PeerPool_drop address p)
  end.

Definition pool_run (ops : list PoolOp) (p : PeerPool) : option PeerPool :=
  foldl (fun o op => o ≫= pool_exec op) (Some p) ops.

(** ** A connected client is in step with its peer *)

(** Every request sent on the connection has been answered, and the answers are
    decoded from what was received. *)
Definition in_step (c : Client) : Prop :=
  length (c_requests c) = length (c_replies c) /\ decoded (c_received c) (c_replies c) (c_rx c).

Lemma read_more_spec evs c c' o :
  decoded (c_received c) (c_replies c) (c_rx c) -> read_more evs c = Some (c', o) ->
  match o with
  | OReply reply =>
      c_connected c' = c_connected c /\ c_requests c' = c_requests c /\ c_replies c' = c_replies c ++ [reply] /\
      decoded (c_received c') (c_replies c') (c_rx c')
  | _ => True
  end.
Proof.
  revert c. induction evs as [|[err|chunk|msg|] evs IH]; intros c D; cbn [read_more]; try done.
  - destruct (parse_reply (c_rx c ++ chunk)) as [[reply used| |e]|] eqn:Ep; cbn [mbind option_bind]; [| | |done].
    + intros [= <- <-]. pose proof (decoded_reply _ _ _ _ _ (decoded_read _ _ _ chunk D) Ep). by destruct evs as [|[] evs].
    + intros E. refine (IH _ _ E). by apply decoded_read.
    + intros [= <- <-]. by destruct evs as [|[] evs].
  - intros [= <- <-]. by destruct evs as [|[] evs].
  - by intros [= <- <-].
Qed.

(** A command leaves its client in step, or disconnected. *)
Lemma command_in_step args evs c c' r :
  (c_connected c = true -> in_step c) -> Client_command args evs c = Some (c', r) ->
  (c_connected c' = true -> in_step c' /\ rr_value r = last (c_replies c')) /\ (rr_is_ok r = true -> c_connected c' = true).
Proof.
  intros I. unfold Client_command. destruct (c_connected c) eqn:Ec; cbn [negb]; cycle 1.
  { intros [= <- <-]. split; [congruence|done]. }
  destruct (I eq_refl) as [L D]. set (c1 := mkClient true _ _ _ _).
  destruct evs as [|[[msg|]|chunk|msg|] evs]; try done.
  - destruct (after_op evs (OFailed msg)) eqn:Eo; destruct evs as [|[] evs]; simplify_eq/=; by intros [= <- <-].
  - destruct (read_more evs c1) as [[c2 o]|] eqn:E; [|done]. cbn [mbind option_bind].
    pose proof (read_more_spec evs c1 c2 o D E) as K.
    destruct o as [|msg| |reply]; intros [= <- <-]; try done. destruct K as (K1 & K2 & K3 & K4).
    split; [intros _|done]. rewrite K3, last_snoc. split; [|done]. split; [|done].
    rewrite K2, K3. cbn. rewrite !length_app. simpl. lia.
  - by intros [= <- <-].
Qed.

(** ** The pool's invariant *)

Definition idle_conns (p : PeerPool) : list Conn := concat (map_to_list (idle_ p)).*2.

Record pool_inv (p : PeerPool) : Prop := {
  pi_idle : forall a l, idle_ p !! a = Some l -> (length l <= max_idle_per_peer_ p)%nat /\
    forall c, c ∈ l -> c_connected (pc_client c) = true /\ in_step (pc_client c);
  pi_leases : forall a c, (a, c) ∈ p_leases p -> c_connected (pc_client c) = true -> in_step (pc_client c);
  pi_fresh : forall c, c ∈ idle_conns p ++ (p_leases p).*2 -> (pc_id c < p_next p)%nat;
  pi_unique : NoDup (pc_id <$> idle_conns p ++ (p_leases p).*2)
}.

(** Replacing the idle connections of one peer. *)
Lemma idle_insert (n k : nat) (a : bytes) (l : list Conn) (m : gmap bytes (list Conn)) (ls : list (bytes * Conn)) :
  idle_conns (mkPool n (<[a := l]> m) ls k) ≡ₚ l ++ concat (map_to_list (delete a m)).*2.
Proof. unfold idle_conns. cbn. by rewrite <-insert_delete_eq, map_to_list_insert by apply lookup_delete_eq. Qed.

Lemma idle_split a p :
  idle_conns p ≡ₚ default [] (idle_ p !! a) ++ concat (map_to_list (delete a (idle_ p))).*2.
Proof.
  unfold idle_conns. destruct (idle_ p !! a) as [l|] eqn:E; cbn.
  - rewrite <-(insert_delete_id (idle_ p) a l E) at 1. by rewrite map_to_list_insert by apply lookup_delete_eq.
  - by rewrite delete_id.
Qed.

Lemma pool_new_inv n : pool_inv (PeerPool_new n).
Proof.
  split; cbn.
  - intros a l H. by rewrite lookup_empty in H.
  - intros a c H. by apply elem_of_nil in H.
  - intros c H. by apply elem_of_nil in H.
  - constructor.
Qed.

(** The connections known to a pool, idle or leased. *)
Definition all_conns (p : PeerPool) : list Conn := idle_conns p ++ (p_leases p).*2.

(** A step that only drops connections, or moves them. *)
Lemma pool_inv_sub p p' :
  pool_inv p -> (p_next p <= p_next p')%nat -> (pc_id <$> all_conns p') ⊆+ (pc_id <$> all_conns p) ->
  (forall a l, idle_ p' !! a = Some l -> (length l <= max_idle_per_peer_ p')%nat /\
     forall c, c ∈ l -> c_connected (pc_client c) = true /\ in_step (pc_client c)) ->
  (forall a c, (a, c) ∈ p_leases p' -> c_connected (pc_client c) = true -> in_step (pc_client c)) ->
  pool_inv p'.
Proof.
  intros I Hn Hs Hi Hl. split; [done|done| |].
  - intros c Hc. assert (Hid : pc_id c ∈ pc_id <$> all_conns p).
    { eapply elem_of_submseteq; [|exact Hs]. by apply list_elem_of_fmap_2. }
    apply list_elem_of_fmap in Hid as (c0 & -> & H0). pose proof (pi_fresh _ I c0 H0). lia.
  - apply submseteq_Permutation in Hs as [k Hk]. pose proof (pi_unique _ I) as ND. unfold all_conns in Hk.
    rewrite Hk in ND. by apply NoDup_app in ND as (? & _).
Qed.

(** A new connection is leased. *)
Lemma new_lease_inv a p :
  pool_inv p ->
  pool_inv (mkPool (max_idle_per_peer_ p) (idle_ p)
    (p_leases p ++ [(a, mkPooled (p_next p) (mkClient true [] [] [] []))]) (p_next p + 1)).
Proof.
  intros I. set (c1 := mkPooled _ _). assert (Hall : all_conns (mkPool (max_idle_per_peer_ p) (idle_ p)
    (p_leases p ++ [(a, c1)]) (p_next p + 1)) = all_conns p ++ [c1]).
  { unfold all_conns. cbn [p_leases]. by rewrite (fmap_app snd), app_assoc. }
  split.
  - apply I.
  - cbn. intros b c [Hin|Hin]%elem_of_app Hcon; [by eapply pi_leases|]. apply list_elem_of_singleton in Hin. simplify_eq.
    split; [done|apply decoded_nil].
  - intros c Hin. fold (all_conns (mkPool (max_idle_per_peer_ p) (idle_ p) (p_leases p ++ [(a, c1)]) (p_next p + 1))) in Hin.
    rewrite Hall in Hin. cbn. apply elem_of_app in Hin as [Hin|Hin]; [pose proof (pi_fresh _ I c Hin); lia|].
    apply list_elem_of_singleton in Hin as ->. cbn. lia.
  - fold (all_conns (mkPool (max_idle_per_peer_ p) (idle_ p) (p_leases p ++ [(a, c1)]) (p_next p + 1))).
    rewrite Hall, fmap_app. apply NoDup_app. split; [apply I|]. split; [|apply NoDup_singleton].
    intros i (c & -> & Hc)%list_elem_of_fmap Hi. apply list_elem_of_singleton in Hi.
    pose proof (pi_fresh _ I c Hc). cbn in Hi. lia.
Qed.

Lemma acquire_inv a ok p : pool_inv p -> pool_inv (fst (PeerPool_acquire a ok p)).
Proof.
  intros I. unfold PeerPool_acquire. destruct (idle_ p !! a) as [[|x l]|] eqn:E.
  2: { cbn [fst]. set (l' := x :: l) in *. destruct (pi_idle _ I a l' E) as [Hlen Hl].
       assert (El : l' = removelast l' ++ [List.last l' x]) by (by apply app_removelast_last).
       assert (Hc : List.last l' x ∈ l') by (rewrite El at 2; set_solver).
       eapply pool_inv_sub; [exact I|done| | |].
       - apply Permutation_submseteq, fmap_Permutation. unfold all_conns. cbn [p_leases].
         rewrite idle_insert, (idle_split a p), E, fmap_app. cbn [from_option]. unfold Datatypes.id.
         transitivity ((removelast l' ++ [List.last l' x]) ++ concat (map_to_list (delete a (idle_ p))).*2 ++ (p_leases p).*2).
         + change ([(a, List.last l' x)].*2) with [List.last l' x]. solve_Permutation.
         + by rewrite <-El, <-app_assoc.
       - cbn. intros b k. rewrite lookup_insert_Some. intros [[<- <-]|[_ Hk]]; [|by eapply pi_idle].
         rewrite El, length_app in Hlen. cbn in Hlen. split; [lia|]. intros c Hin. apply Hl. rewrite El. set_solver.
       - cbn. intros b c [Hin|Hin]%elem_of_app Hcon; [by eapply pi_leases|].
         apply list_elem_of_singleton in Hin. simplify_eq. by apply Hl. }
  1, 2: (destruct ok; cbn; [by apply new_lease_inv|eapply pool_inv_sub; [exact I|cbn; lia|done|apply I|apply I]]).
Qed.

Lemma command_inv i args evs p p' r : pool_inv p -> Lease_command i args evs p = Some (p', r) -> pool_inv p'.
Proof.
  intros I. unfold Lease_command. destruct (p_leases p !! i) as [[a c]|] eqn:E; [|done]. cbn [mbind option_bind].
  destruct (Client_command args evs (pc_client c)) as [[client r']|] eqn:Ec; [|done]. cbn [mbind option_bind]. intros [= <- _].
  assert (Ids : pc_id <$> (<[i := (a, mkPooled (pc_id c) client)]> (p_leases p)).*2 = pc_id <$> (p_leases p).*2).
  { rewrite !list_fmap_insert. apply list_insert_id. by rewrite !list_lookup_fmap, E. }
  eapply pool_inv_sub; [exact I|done| |apply I|].
  - unfold all_conns. cbn. by rewrite !fmap_app, Ids.
  - cbn. intros b d Hin Hcon. apply list_elem_of_lookup in Hin as [j Hj]. apply list_lookup_insert_Some in Hj as [(<- & Hd & _)|[_ Hj]].
    + injection Hd as <- <-. cbn in *. eapply (command_in_step args evs (pc_client c)); [|exact Ec|done].
      eapply pi_leases; [done|]. by eapply list_elem_of_lookup_2.
    + eapply pi_leases; [done| |done]. by eapply list_elem_of_lookup_2.
Qed.

Lemma lease_end_inv i p p' : pool_inv p -> Lease_end i p = Some p' -> pool_inv p'.
Proof.
  intros I. unfold Lease_end. destruct (p_leases p !! i) as [[a c]|] eqn:E; [|done]. cbn [mbind option_bind]. intros [= <-].
  assert (Pl : (p_leases p).*2 ≡ₚ c :: (delete i (p_leases p)).*2) by (apply (fmap_Permutation snd _ _ (delete_Permutation _ _ _ E))).
  assert (Hin : forall b d, (b, d) ∈ delete i (p_leases p) -> (b, d) ∈ p_leases p).
  { intros b d Hd. apply (elem_of_Permutation_proper (b, d) _ _ (delete_Permutation _ _ _ E)). by right. }
  destruct (c_connected (pc_client c)) eqn:Hc; cycle 1.
  { eapply pool_inv_sub; [exact I|done| |apply I|].
    - apply fmap_submseteq. unfold all_conns. cbn. rewrite Pl. unfold idle_conns. cbn [idle_].
      apply submseteq_skips_l. by apply submseteq_cons.
    - cbn. intros b d Hd Hcon. by eapply pi_leases; eauto. }
  unfold PeerPool_release. cbn [p_leases idle_ max_idle_per_peer_ p_next]. set (idle := default [] (idle_ p !! a)).
  assert (Hidle : (length idle <= max_idle_per_peer_ p)%nat /\ forall d, d ∈ idle -> c_connected (pc_client d) = true /\ in_step (pc_client d)).
  { subst idle. destruct (idle_ p !! a) as [l|] eqn:El; cbn; [by eapply pi_idle|]. split; [lia|]. intros d Hd. by apply elem_of_nil in Hd. }
  eapply pool_inv_sub; [exact I|done| | |].
  - apply fmap_submseteq. unfold all_conns. cbn [p_leases].
    rewrite idle_insert, (idle_split a p), Pl. fold idle. destruct (length idle <? max_idle_per_peer_ p)%nat.
    + apply Permutation_submseteq. solve_Permutation.
    + rewrite <-!app_assoc. do 2 apply submseteq_skips_l. by apply submseteq_cons.
  - cbn [idle_ max_idle_per_peer_]. intros b k. rewrite lookup_insert_Some. intros [[<- <-]|[_ Hk]]; [|by eapply pi_idle].
    destruct (length idle <? max_idle_per_peer_ p)%nat eqn:Eq; [|done]. bool_facts. rewrite length_app. cbn. split; [lia|].
    intros d [Hd|Hd]%elem_of_app; [by apply Hidle|]. apply list_elem_of_singleton in Hd as ->. split; [done|].
    eapply pi_leases; [done| |done]. by eapply list_elem_of_lookup_2.
  - cbn. intros b d Hd Hcon. by eapply pi_leases; eauto.
Qed.

Lemma drop_inv a p : pool_inv p -> pool_inv (PeerPool_drop a p).
Proof.
  intros I. unfold PeerPool_drop. destruct (idle_ p !! a) as [l|] eqn:E; [|done].
  eapply pool_inv_sub; [exact I|done| | |apply I].
  - apply fmap_submseteq. unfold all_conns. cbn [p_leases]. rewrite idle_insert, (idle_split a p), E, app_nil_l. cbn.
    rewrite <-app_assoc. by apply submseteq_inserts_l.
  - cbn. intros b k. rewrite lookup_insert_Some. intros [[<- <-]|[_ Hk]]; [|by eapply pi_idle].
    split; [cbn; lia|]. intros d Hd. by apply elem_of_nil in Hd.
Qed.

(** ** Properties *)

(** The pool lends connections exclusively and in step: after any acquisitions,
    commands with any outcome, ends of leases and drops, no connection is idle
    twice, leased twice, or idle and leased at once; at most the configured number
    are idle per peer, all of them connected; and on every connection that is
    still connected each request sent has got its one reply, which, if the peer
    answers requests in order, is the answer to that request. *)
Theorem pool_exclusive max_idle ops p :
  pool_run ops (PeerPool_new max_idle) = Some p ->
  NoDup (pc_id <$> all_conns p) /\
  (forall a l, idle_ p !! a = Some l -> (length l <= max_idle)%nat /\ Forall (fun c => c_connected (pc_client c) = true) l) /\
  forall c answers tail, c ∈ all_conns p -> c_connected (pc_client c) = true ->
    length (c_requests (pc_client c)) = length (c_replies (pc_client c)) /\
    (Forall resp_wf answers -> c_received (pc_client c) ++ tail = concat (append_value [] <$> answers) ->
       c_replies (pc_client c) = take (length (c_requests (pc_client c))) answers).
Proof.
  intros E. assert (I : pool_inv p /\ max_idle_per_peer_ p = max_idle).
  { revert p E. induction ops as [|op ops IH] using rev_ind; intros p.
    - intros [= <-]. split; [apply pool_new_inv|done].
    - unfold pool_run. rewrite foldl_app. cbn [foldl]. fold (pool_run ops (PeerPool_new max_idle)).
      destruct (pool_run ops (PeerPool_new max_idle)) as [p1|]; [|done]. cbn [mbind option_bind].
      destruct (IH p1 eq_refl) as [I1 M1]. destruct op as [a ok|i args evs|i|a]; cbn [pool_exec].
      + intros [= <-]. split; [by apply acquire_inv|]. unfold PeerPool_acquire. destruct ok; cbn; by repeat case_match.
      + destruct (Lease_command i args evs p1) as [[p2 r]|] eqn:Ec; [|done]. intros [= <-].
        split; [by eapply command_inv|]. unfold Lease_command in Ec. destruct (p_leases p1 !! i) as [[? ?]|]; [|done].
        cbn [mbind option_bind] in Ec. destruct (Client_command _ _ _) as [[? ?]|]; [|done]. by injection Ec as <- _.
      + intros Ee. split; [by eapply lease_end_inv|]. unfold Lease_end in Ee. destruct (p_leases p1 !! i) as [[? ?]|]; [|done].
        cbn [mbind option_bind] in Ee. injection Ee as <-. by case_match.
      + intros [= <-]. split; [by apply drop_inv|]. unfold PeerPool_drop. by case_match. }
  destruct I as [I <-]. split; [apply I|]. split.
  { intros a l Hl. destruct (pi_idle _ I a l Hl) as [H1 H2]. split; [done|]. apply Forall_forall. intros c Hc. by apply H2. }
  intros c answers tail Hc Hcon. assert (S : in_step (pc_client c)).
  { apply elem_of_app in Hc as [Hc|Hc].
    - apply elem_of_concat in Hc as (l & Hc & Hl). apply list_elem_of_fmap in Hl as ([a l'] & -> & Hl).
      apply elem_of_map_to_list in Hl. by apply (pi_idle _ I a l' Hl).
    - apply list_elem_of_fmap in Hc as ([a c'] & -> & Hc). by eapply pi_leases. }
  destruct S as [L D]. split; [done|]. intros W Ea. destruct (D answers tail W Ea) as (others & -> & _).
  by rewrite L, take_app_length.
Qed.

(** *** Witness: a connection used twice, returned, and taken again *)

Definition sample_pool_ops : list PoolOp :=
  [PAcquire (lit "h:1") true; PCommand 0 [lit "PING"] [CWritten None; CChunk (lit "+PO"); CChunk (lit "NG" ++ CRLF)];
   PEnd 0; PAcquire (lit "h:1") false; PAcquire (lit "h:1") true;
   PCommand 1 [lit "PING"] [CWritten None; CTimeout]].
Definition sample_pool : PeerPool := default (PeerPool_new 2) (pool_run sample_pool_ops (PeerPool_new 2)).

Lemma pool_exclusive_witness : NoDup (pc_id <$> all_conns sample_pool).
Proof. apply (pool_exclusive 2 sample_pool_ops sample_pool). vm_compute. reflexivity. Defined.
