(* ===== verification/PeerChannels.v ===== *)
(** * All channels of a node

    Models [PeerChannels] of network/peer_channel.cpp: a few channels to every
    peer, between which the calls are dealt out in turn.  [call] picks a channel
    under the mutex and then posts the request to the channel's strand, [drop]
    and the destructor post a close to the channels; a posted task runs later,
    and tasks of different threads reach a strand in any order.

    The theorems say that the calls are shared out as the counter says, that
    each is with exactly one channel, which answers it once, and that every
    posted task can run; and that two peers called in turn use one of their two
    channels only. *)

From S2P Require Import Prelude Numerals Resp Parser ReplicaWire PeerChannel PeerPool.

Local Open Scope Z_scope.

(** What is posted to a strand. *)
Inductive Task := TCall (id : nat) (args : list bytes) | TClose.

Record PeerChannels := mkChannels {
  per_peer_ : Z;
  channel_timeout_ : Z;
  next_ : Z;
  channels_ : gmap bytes (list PeerChannel);
  posted_ : list (bytes * nat * Task);
  stopped_ : bool
}.

Definition PeerChannels_new (channels_per_peer timeout : Z) : PeerChannels :=
  mkChannels (Z.max 1 channels_per_peer) timeout 0 ∅ [] false.

(** The channels of an address, made at the first call. *)
Definition peer_list (address : bytes) (s : PeerChannels) : list PeerChannel :=
  match default [] (channels_ s !! address) with
  | [] => replicate (Z.to_nat (per_peer_ s)) (PeerChannel_new (channel_timeout_ s))
  | l => l
  end.

(** [call]; [None] is an index out of range. *)
Definition PeerChannels_call (id : nat) (host : bytes) (port : Z) (args : list bytes) (s : PeerChannels)
    : option PeerChannels :=
  let address := make_address host port in
  let l := peer_list address s in
  let i := Z.to_nat (next_ s mod Z.of_nat (length l)) in
  _ ← l !! i;
  Some (mkChannels (per_peer_ s) (channel_timeout_ s) (u64 (next_ s + 1)) (<[address := l]> (channels_ s))
          (posted_ s ++ [(address, i, TCall id args)]) (stopped_ s)).

Definition close_all (address : bytes) (l : list PeerChannel) : list (bytes * nat * Task) :=
  (fun i => (address, i, TClose)) <$> seq 0 (length l).

Definition with_posted (tasks : list (bytes * nat * Task)) (s : PeerChannels) : PeerChannels :=
  mkChannels (per_peer_ s) (channel_timeout_ s) (next_ s) (channels_ s) tasks (stopped_ s).

Definition post (tasks : list (bytes * nat * Task)) (s : PeerChannels) : PeerChannels :=
  with_posted (posted_ s ++ tasks) s.

Definition PeerChannels_drop (host : bytes) (port : Z) (s : PeerChannels) : PeerChannels :=
  let address := make_address host port in
  match channels_ s !! address with
  | None => s
  | Some l => post (close_all address l) s
  end.

(** The destructor: the closes are posted, then the I/O threads are stopped. *)
Definition PeerChannels_close (s : PeerChannels) : PeerChannels :=
  post (concat ((fun '(address, l) => close_all address l) <$> map_to_list (channels_ s))) s.

Definition io_stop (s : PeerChannels) : PeerChannels :=
  mkChannels (per_peer_ s) (channel_timeout_ s) (next_ s) (channels_ s) (posted_ s) true.

(** A handler of the channel [i] of [address] runs. *)
Definition on_channel (address : bytes) (i : nat) (ev : ChanEvent) (s : PeerChannels) : option PeerChannels :=
  l ← channels_ s !! address;
  ch ← l !! i;
  ch' ← chan_step ev ch;
  Some (mkChannels (per_peer_ s) (channel_timeout_ s) (next_ s) (<[address := <[i := ch']> l]> (channels_ s))
          (posted_ s) (stopped_ s)).

Definition task_event (now : Z) (t : Task) : ChanEvent :=
  match t with TCall id args => ECall now id args | TClose => EClose end.

Inductive ChannelsEv :=
  | PCall (id : nat) (host : bytes) (port : Z) (args : list bytes)
  | PDrop (host : bytes) (port : Z)
  | PRun (k : nat) (now : Z)
  | PComplete (address : bytes) (i : nat) (ev : ChanEvent)
  | PDestroy
  | PStop.

(** [None] when the event cannot happen; nothing runs once the threads are
    stopped. *)
Definition channels_step (ev : ChannelsEv) (s : PeerChannels) : option PeerChannels :=
  if stopped_ s then None
  else match ev with
  | PCall id host port args => PeerChannels_call id host port args s
  | PDrop host port => Some (PeerChannels_drop host port s)
  | PRun k now =>
      '(address, i, t) ← posted_ s !! k;
      on_channel address i (task_event now t) (with_posted (delete k (posted_ s)) s)
  | PComplete address i ev => match event_op ev with Some _ => on_channel address i ev s | None => None end
  | PDestroy => Some (PeerChannels_close s)
  | PStop => Some (io_stop s)
  end.

Definition channels_run (evs : list ChannelsEv) (s : PeerChannels) : option PeerChannels :=
  foldl (fun o ev => o ≫= channels_step ev) (Some s) evs.

(** ** Where the calls go *)

(** The channels the calls are dealt to: call number [j] goes to the channel of
    number [j] modulo [n] of its peer. *)
Fixpoint dealt (n j : Z) (evs : list ChannelsEv) : list (bytes * nat * nat) :=
  match evs with
  | [] => []
  | PCall id host port _ :: rest => (make_address host port, Z.to_nat (u64 j mod n), id) :: dealt n (j + 1) rest
  | _ :: rest => dealt n j rest
  end.

Definition calls_made (evs : list ChannelsEv) : Z :=
  Z.of_nat (length (omap (fun ev => match ev with PCall _ _ _ _ => Some () | _ => None end) evs)).

(** The calls dealt to, and those posted to, a channel. *)
Definition dealt_to (address : bytes) (i : nat) (l : list (bytes * nat * nat)) : list nat :=
  omap (fun '(a, k, id) => if bool_decide ((a, k) = (address, i)) then Some id else None) l.

Definition posted_to (address : bytes) (i : nat) (l : list (bytes * nat * Task)) : list nat :=
  omap (fun '(a, k, t) =>
          match t with
          | TCall id _ => if bool_decide ((a, k) = (address, i)) then Some id else None
          | TClose => None
          end) l.

Lemma channels_run_snoc evs ev s : channels_run (evs ++ [ev]) s = channels_run evs s ≫= channels_step ev.
Proof. unfold channels_run. by rewrite foldl_app. Qed.

Lemma calls_made_snoc evs ev : calls_made (evs ++ [ev]) = calls_made evs + match ev with PCall _ _ _ _ => 1 | _ => 0 end.
Proof. unfold calls_made. rewrite omap_app, length_app. destruct ev; cbn; lia. Qed.

Lemma calls_made_cons ev evs : calls_made (ev :: evs) = match ev with PCall _ _ _ _ => 1 | _ => 0 end + calls_made evs.
Proof. unfold calls_made. destruct ev; cbn; lia. Qed.

Lemma dealt_app n j evs evs' : dealt n j (evs ++ evs') = dealt n j evs ++ dealt n (j + calls_made evs) evs'.
Proof.
  revert j. induction evs as [|ev evs IH]; intros j.
  - cbn. f_equal. unfold calls_made. cbn. lia.
  - rewrite calls_made_cons. destruct ev; cbn [app dealt]; rewrite IH, ?Z.add_assoc, ?Z.add_0_r; done.
Qed.

Lemma dealt_to_app a i l l' : dealt_to a i (l ++ l') = dealt_to a i l ++ dealt_to a i l'.
Proof. apply omap_app. Qed.

Lemma posted_to_app a i l l' : posted_to a i (l ++ l') = posted_to a i l ++ posted_to a i l'.
Proof. apply omap_app. Qed.

Lemma posted_to_delete a i (l : list (bytes * nat * Task)) k x :
  l !! k = Some x -> posted_to a i [x] ++ posted_to a i (delete k l) ≡ₚ posted_to a i l.
Proof.
  intros E. rewrite <-posted_to_app. apply omap_Permutation. symmetry. by apply delete_Permutation.
Qed.

Lemma close_none a i address l : posted_to a i (close_all address l) = [].
Proof. unfold close_all. generalize (seq 0 (length l)). induction l0 as [|k ks IH]; [done|]. exact IH. Qed.

Lemma close_none_all a i (m : list (bytes * list PeerChannel)) :
  posted_to a i (concat ((fun '(address, l) => close_all address l) <$> m)) = [].
Proof.
  induction m as [|[address l] m IH]; [done|]. rewrite fmap_cons. cbn [concat].
  by rewrite posted_to_app, close_none, IH.
Qed.

(** ** The invariant *)

Section Channels.
Context (n timeout : Z).
Abbreviation width := (Z.to_nat (Z.max 1 n)).

Definition channel_at (s : PeerChannels) (a : bytes) (i : nat) : option PeerChannel := channels_ s !! a ≫= (.!! i).

(** A channel has been run from its first state through some handlers. *)
Definition reached (ch : PeerChannel) : Prop :=
  (exists cevs, chan_run cevs (PeerChannel_new timeout) = Some ch) /\ timer_inv ch.

Record channels_inv (evs : list ChannelsEv) (s : PeerChannels) : Prop := {
  ci_per_peer : per_peer_ s = Z.max 1 n;
  ci_timeout : channel_timeout_ s = timeout;
  ci_next : next_ s = u64 (calls_made evs);
  ci_width a l : channels_ s !! a = Some l -> length l = width;
  ci_reached a i ch : channel_at s a i = Some ch -> reached ch;
  ci_posted a i t : (a, i, t) ∈ posted_ s -> is_Some (channel_at s a i);
  ci_calls a i : default [] (calls_of <$> channel_at s a i) ++ posted_to a i (posted_ s) ≡ₚ
                 dealt_to a i (dealt (Z.max 1 n) 0 evs)
}.

Lemma channels_inv_init : channels_inv [] (PeerChannels_new n timeout).
Proof.
  split; try done. intros a i t Hin. by apply elem_of_nil in Hin.
Qed.

Lemma reached_new : reached (PeerChannel_new timeout).
Proof. split; [by exists []|apply new_timer]. Qed.

Lemma reached_step ev ch ch' : reached ch -> chan_step ev ch = Some ch' -> reached ch'.
Proof.
  intros [(cevs & E) T] Es. split; [|by eapply chan_step_timer].
  exists (cevs ++ [ev]). by rewrite chan_run_snoc, E.
Qed.

(** The list of a peer has [width] channels, and making it changes no channel. *)
Lemma peer_list_inv evs s a :
  channels_inv evs s ->
  length (peer_list a s) = width /\
  (forall i ch, peer_list a s !! i = Some ch -> channel_at s a i = Some ch \/ channel_at s a i = None /\ ch = PeerChannel_new timeout) /\
  (forall i, peer_list a s !! i = None -> channel_at s a i = None).
Proof.
  intros I. pose proof (ci_width _ _ I a) as W. unfold peer_list, channel_at. destruct (channels_ s !! a) as [l|] eqn:E; cbn.
  - specialize (W l eq_refl). destruct l as [|c l]; [cbn in W; lia|]. split; [done|]. split; [|done]. intros i ch Ei. by left.
  - rewrite (ci_per_peer _ _ I), (ci_timeout _ _ I), length_replicate. split; [done|]. split; [|done].
    intros i ch Ei. apply lookup_replicate_1 in Ei as [-> _]. by right.
Qed.

Lemma on_channel_at a i ev s s' :
  on_channel a i ev s = Some s' ->
  exists ch ch', channel_at s a i = Some ch /\ chan_step ev ch = Some ch' /\ channel_at s' a i = Some ch' /\
    (forall b k, (b, k) <> (a, i) -> channel_at s' b k = channel_at s b k) /\
    (forall b l', channels_ s' !! b = Some l' -> exists l, channels_ s !! b = Some l /\ length l' = length l) /\
    per_peer_ s' = per_peer_ s /\ channel_timeout_ s' = channel_timeout_ s /\ next_ s' = next_ s /\
    posted_ s' = posted_ s.
Proof.
  intros E. unfold on_channel in E. destruct (channels_ s !! a) as [l|] eqn:El; [|done]. cbn [mbind option_bind] in E.
  destruct (l !! i) as [ch|] eqn:Ei; [|done]. cbn [mbind option_bind] in E.
  destruct (chan_step ev ch) as [ch'|] eqn:Es; [|done]. cbn [mbind option_bind] in E. injection E as <-.
  exists ch, ch'. unfold channel_at. cbn [channels_ per_peer_ channel_timeout_ next_ posted_]. split_and!; try done.
  - by rewrite El.
  - rewrite lookup_insert_eq. cbn. apply list_lookup_insert_eq. by eapply lookup_lt_Some.
  - intros b k Hne. destruct (decide (b = a)) as [->|Hb]; [|by rewrite lookup_insert_ne].
    rewrite lookup_insert_eq, El. cbn. apply list_lookup_insert_ne. congruence.
  - intros b l' Hb. destruct (decide (b = a)) as [->|Hba].
    + rewrite lookup_insert_eq in Hb. injection Hb as <-. exists l. by rewrite length_insert.
    + rewrite lookup_insert_ne in Hb by done. eauto.
Qed.

Definition no_call (ev : ChannelsEv) : Prop := match ev with PCall _ _ _ _ => False | _ => True end.

(** An event that makes no call leaves what is dealt as it was. *)
Lemma dealt_no_call evs ev :
  no_call ev -> calls_made (evs ++ [ev]) = calls_made evs /\ dealt (Z.max 1 n) 0 (evs ++ [ev]) = dealt (Z.max 1 n) 0 evs.
Proof.
  intros H. rewrite calls_made_snoc, dealt_app. destruct ev; try done; cbn [dealt]; by rewrite app_nil_r, Z.add_0_r.
Qed.

Lemma on_channel_inv evs ev0 s a i ev tasks s' :
  channels_inv evs s -> no_call ev0 -> on_channel a i ev (with_posted tasks s) = Some s' ->
  (forall x, x ∈ tasks -> x ∈ posted_ s) ->
  (forall b k, (if bool_decide ((b, k) = (a, i)) then made ev else []) ++ posted_to b k tasks ≡ₚ posted_to b k (posted_ s)) ->
  channels_inv (evs ++ [ev0]) s'.
Proof.
  intros I Hnc E Hsub Hperm.
  apply on_channel_at in E as (ch & ch' & E1 & Es & E2 & Hne & Hl & H1 & H2 & H3 & H4). cbn in H1, H2, H3, H4.
  destruct (dealt_no_call evs ev0 Hnc) as [Ec Ed].
  assert (Hat : forall b k, channel_at s' b k = if bool_decide ((b, k) = (a, i)) then Some ch' else channel_at s b k).
  { intros b k. case_bool_decide as Hb; [by injection Hb as -> ->|by apply Hne]. }
  split.
  - rewrite H1. apply I.
  - rewrite H2. apply I.
  - rewrite H3, Ec. apply I.
  - intros b l' Eb. destruct (Hl b l' Eb) as (l & El & ->). by eapply (ci_width _ _ I).
  - intros b k c. rewrite Hat. case_bool_decide as Hb; [|apply I]. intros [= <-]. eapply reached_step; [|exact Es]. by eapply (ci_reached _ _ I).
  - intros b k t Hin. rewrite H4 in Hin. rewrite Hat. case_bool_decide; [eauto|]. eapply (ci_posted _ _ I), Hsub, Hin.
  - intros b k. rewrite H4, Ed, <-(ci_calls _ _ I b k), <-(Hperm b k), Hat. case_bool_decide as Hb; [|done].
    injection Hb as -> ->. change (channel_at s a i) with (channel_at (with_posted tasks s) a i). rewrite E1. cbn [fmap option_fmap option_map from_option].
    unfold id. by rewrite (chan_step_calls ev ch ch' Es), <-app_assoc.
Qed.

Lemma post_inv evs ev0 s tasks :
  channels_inv evs s -> no_call ev0 -> (forall a i, posted_to a i tasks = []) ->
  (forall a i t, (a, i, t) ∈ tasks -> is_Some (channel_at s a i)) -> channels_inv (evs ++ [ev0]) (post tasks s).
Proof.
  intros I Hnc Hn Hin. destruct (dealt_no_call evs ev0 Hnc) as [Ec Ed]. split; try apply I.
  - rewrite Ec. apply I.
  - intros a i t [H|H]%elem_of_app; [by eapply (ci_posted _ _ I)|by eapply Hin].
  - intros a i. cbn [post with_posted posted_]. rewrite posted_to_app, Hn, app_nil_r, Ed. apply I.
Qed.

Lemma close_all_in s address l a i t :
  channels_ s !! address = Some l -> (a, i, t) ∈ close_all address l -> is_Some (channel_at s a i).
Proof.
  intros E (k & [= -> -> ->] & Hk)%list_elem_of_fmap. apply elem_of_seq in Hk. unfold channel_at. rewrite E. cbn.
  apply lookup_lt_is_Some. lia.
Qed.

Lemma mod_index (x : Z) : 0 <= x -> (Z.to_nat (x mod Z.max 1 n) < width)%nat.
Proof. intros Hx. pose proof (Z.mod_pos_bound x (Z.max 1 n) ltac:(lia)). lia. Qed.

Lemma call_spec evs s id host port args :
  channels_inv evs s ->
  exists ch, peer_list (make_address host port) s !! Z.to_nat (u64 (calls_made evs) mod Z.max 1 n) = Some ch /\
  PeerChannels_call id host port args s =
    Some (mkChannels (per_peer_ s) (channel_timeout_ s) (u64 (calls_made evs + 1))
            (<[make_address host port := peer_list (make_address host port) s]> (channels_ s))
            (posted_ s ++ [(make_address host port, Z.to_nat (u64 (calls_made evs) mod Z.max 1 n), TCall id args)]) (stopped_ s)).
Proof.
  intros I. unfold PeerChannels_call. destruct (peer_list_inv evs s (make_address host port) I) as [W _].
  rewrite W, (ci_next _ _ I), Z2Nat.id by lia.
  destruct (lookup_lt_is_Some_2 (peer_list (make_address host port) s) (Z.to_nat (u64 (calls_made evs) mod Z.max 1 n))) as [ch Ech].
  { rewrite W. apply mod_index. apply Z.mod_pos_bound. lia. }
  exists ch. split; [done|]. rewrite Ech. cbn [mbind option_bind]. do 2 f_equal. unfold wrap. by rewrite Zplus_mod_idemp_l.
Qed.

Lemma call_inv evs s s' id host port args :
  channels_inv evs s -> PeerChannels_call id host port args s = Some s' ->
  channels_inv (evs ++ [PCall id host port args]) s'.
Proof.
  intros I E. destruct (call_spec evs s id host port args I) as (ch0 & E0 & Ecall). rewrite Ecall in E. injection E as <-.
  set (a0 := make_address host port) in *. set (i0 := Z.to_nat (u64 (calls_made evs) mod Z.max 1 n)) in *.
  destruct (peer_list_inv evs s a0 I) as (W & Hsome & Hnone).
  set (s' := mkChannels _ _ _ _ _ _).
  assert (Hat : forall b k, channel_at s' b k = if bool_decide (b = a0) then peer_list a0 s !! k else channel_at s b k).
  { intros b k. unfold channel_at. subst s'. cbn [channels_]. case_bool_decide as Hb.
    - subst b. by rewrite lookup_insert_eq.
    - by rewrite lookup_insert_ne. }
  assert (Hcalls : forall b k, default [] (calls_of <$> channel_at s' b k) = default [] (calls_of <$> channel_at s b k)).
  { intros b k. rewrite Hat. case_bool_decide as Hb; [|done]. subst b. destruct (peer_list a0 s !! k) as [ch|] eqn:Ek.
    - destruct (Hsome k ch Ek) as [-> | [-> ->]]; done.
    - by rewrite (Hnone k Ek). }
  split.
  - apply I.
  - apply I.
  - rewrite calls_made_snoc. done.
  - intros b l Eb. subst s'. cbn [channels_] in Eb. destruct (decide (b = a0)) as [->|Hb].
    + rewrite lookup_insert_eq in Eb. by injection Eb as <-.
    + rewrite lookup_insert_ne in Eb by done. by eapply (ci_width _ _ I).
  - intros b k ch. rewrite Hat. case_bool_decide as Hb; [|apply I]. subst b. intros Ek.
    destruct (Hsome k ch Ek) as [E|[_ ->]]; [by eapply (ci_reached _ _ I)|apply reached_new].
  - intros b k t Hin. rewrite Hat. subst s'. cbn [posted_] in Hin. apply elem_of_app in Hin as [Hin|Hin].
    + destruct (ci_posted _ _ I b k t Hin) as [ch Ech]. case_bool_decide as Hb; [|eauto]. subst b.
      destruct (peer_list a0 s !! k) as [c|] eqn:Ek; [eauto|]. by rewrite (Hnone k Ek) in Ech.
    + apply list_elem_of_singleton in Hin. injection Hin as -> -> ->. rewrite bool_decide_true by done. eauto.
  - intros b k. rewrite Hcalls. subst s'. cbn [posted_].
    rewrite posted_to_app, dealt_app, dealt_to_app, app_assoc, (ci_calls _ _ I b k), Z.add_0_l. done.
Qed.

Lemma channels_step_inv evs ev s s' : channels_inv evs s -> channels_step ev s = Some s' -> channels_inv (evs ++ [ev]) s'.
Proof.
  intros I E. unfold channels_step in E. destruct (stopped_ s); [done|].
  destruct ev as [id host port args|host port|k now|a i ev| |].
  - by eapply call_inv.
  - injection E as <-. unfold PeerChannels_drop. destruct (channels_ s !! make_address host port) as [l|] eqn:El.
    + apply post_inv; [done..|intros; apply close_none|]. intros a i t Hin. by eapply close_all_in.
    + replace s with (post [] s) by (destruct s; unfold post, with_posted; cbn; by rewrite app_nil_r).
      apply post_inv; [done..|]. intros a i t Hin. by apply elem_of_nil in Hin.
  - destruct (posted_ s !! k) as [[[a i] t]|] eqn:Ek; [|done]. cbn [mbind option_bind] in E.
    eapply on_channel_inv; [exact I|done|exact E| |].
    + intros x Hx. rewrite (delete_Permutation _ _ _ Ek). by right.
    + intros b j. rewrite <-(posted_to_delete b j _ _ _ Ek). apply Permutation_app_tail.
      destruct t; cbn; repeat case_bool_decide; simplify_eq; done.
  - destruct (event_op ev) as [op|] eqn:Eop; [|done].
    eapply on_channel_inv with (tasks := posted_ s); [exact I|done| |done|].
    + unfold with_posted. by destruct s.
    + intros b j. by destruct ev; try done; case_bool_decide.
  - injection E as <-. apply post_inv; [done..|intros; apply close_none_all|].
    intros a i t Hin. apply list_elem_of_In, in_concat in Hin as (l & Hl & Hin). apply list_elem_of_In in Hl, Hin.
    apply list_elem_of_fmap in Hl as ([address l'] & -> & Hl). apply elem_of_map_to_list in Hl. by eapply close_all_in.
  - injection E as <-. destruct (dealt_no_call evs PStop Logic.I) as [Ec Ed]. split; try apply I.
    + rewrite Ec. apply I.
    + intros a i. rewrite Ed. apply I.
Qed.

Lemma channels_run_inv evs s : channels_run evs (PeerChannels_new n timeout) = Some s -> channels_inv evs s.
Proof.
  revert s. induction evs as [|ev evs IH] using rev_ind; intros s E.
  - injection E as <-. apply channels_inv_init.
  - rewrite channels_run_snoc in E. destruct (channels_run evs _) as [s1|]; [|done].
    eapply channels_step_inv; [by apply IH|exact E].
Qed.

Lemma task_enabled evs s k now : channels_inv evs s -> stopped_ s = false -> (k < length (posted_ s))%nat -> is_Some (channels_step (PRun k now) s).
Proof.
  intros I Hs [[[a i] t] Ek]%lookup_lt_is_Some_2. unfold channels_step. rewrite Hs, Ek. cbn [mbind option_bind].
  destruct (ci_posted _ _ I a i t) as [ch Ech]; [by eapply list_elem_of_lookup_2|]. unfold channel_at in Ech.
  unfold on_channel. cbn [channels_ with_posted]. destruct (channels_ s !! a) as [l|]; [|done]. cbn [mbind option_bind] in Ech |- *.
  rewrite Ech. cbn [mbind option_bind]. destruct (chan_step_enabled (task_event now t) ch) as [ch' Es]; [by destruct t|].
  rewrite Es. cbn [mbind option_bind]. eauto.
Qed.

End Channels.

(** ** Properties *)

(** C16: However calls, dropped peers, posted tasks and completions interleave, call
    number [j] of the node goes to channel [j] modulo the number of channels of
    its peer, and each call is in exactly one place: posted to its channel, or
    pending there with the timer running, or answered by it, once.  Every
    channel is in a state it reaches on its own, so that what holds for one
    channel holds for all; until the threads are stopped a call never fails to
    find a channel and every posted task can run. *)
Theorem channels_share_calls n timeout evs s :
  channels_run evs (PeerChannels_new n timeout) = Some s ->
  let d := dealt (Z.max 1 n) 0 evs in
  (forall a i id, (a, i, id) ∈ d -> exists l, channels_ s !! a = Some l /\ length l = Z.to_nat (Z.max 1 n) /\ is_Some (l !! i)) /\
  (forall a l i ch, channels_ s !! a = Some l -> l !! i = Some ch ->
     (results_ ch).*1 ++ (p_id <$> pending_ ch) ++ posted_to a i (posted_ s) ≡ₚ dealt_to a i d /\
     (pending_ ch <> [] -> ATimer ∈ ops_ ch) /\
     exists cevs, chan_run cevs (PeerChannel_new timeout) = Some ch) /\
  (stopped_ s = false ->
     (forall id host port args, is_Some (channels_step (PCall id host port args) s)) /\
     (forall k now, (k < length (posted_ s))%nat -> is_Some (channels_step (PRun k now) s))).
Proof.
  intros E d. pose proof (channels_run_inv n timeout evs s E) as I. split; [|split].
  - intros a i id Hin. destruct (channel_at s a i) as [ch|] eqn:Ech.
    + unfold channel_at in Ech. destruct (channels_ s !! a) as [l|] eqn:El; [|done]. exists l.
      split; [done|]. split; [by eapply (ci_width _ _ _ _ I)|]. exists ch. exact Ech.
    + pose proof (ci_calls _ _ _ _ I a i) as Hp. rewrite Ech in Hp. cbn in Hp. exfalso.
      assert (Hd : id ∈ dealt_to a i d) by (apply list_elem_of_omap; exists (a, i, id); by rewrite bool_decide_true).
      unfold d in Hd. rewrite <-Hp in Hd. apply list_elem_of_omap in Hd as ([[b k] t] & Hin' & Ht). destruct t; [|done].
      case_bool_decide as Hb; [|done]. injection Hb as -> ->. destruct (ci_posted _ _ _ _ I _ _ _ Hin') as [ch Ech']. congruence.
  - intros a l i ch El Ei. assert (Ech : channel_at s a i = Some ch) by (unfold channel_at; rewrite El; exact Ei).
    destruct (ci_reached _ _ _ _ I a i ch Ech) as [R [T1 T2]]. split; [|split; [auto|done]].
    pose proof (ci_calls _ _ _ _ I a i) as Hp. rewrite Ech in Hp. cbn in Hp. unfold calls_of in Hp. by rewrite <-app_assoc in Hp.
  - intros Hs. split; [|intros; by eapply task_enabled].
    intros id host port args. unfold channels_step. rewrite Hs.
    destruct (call_spec n timeout evs s id host port args I) as (? & _ & ->). eauto.
Qed.

(** Calls made to two peers in turn, as a write with two remote replicas makes
    them. *)
Fixpoint in_turn (rounds id : nat) (h1 h2 : bytes) (port : Z) (args : list bytes) : list ChannelsEv :=
  match rounds with
  | O => []
  | S rounds' => PCall id h1 port args :: PCall (S id) h2 port args :: in_turn rounds' (2 + id) h1 h2 port args
  end.

Lemma in_turn_dealt rounds id h1 h2 port args j :
  make_address h1 port <> make_address h2 port -> j mod 2 = 0 ->
  dealt_to (make_address h1 port) 1 (dealt 2 j (in_turn rounds id h1 h2 port args)) = [].
Proof.
  intros Hne. revert id j. induction rounds as [|rounds IH]; intros id j Hj; [done|]. cbn [in_turn dealt dealt_to].
  assert (E0 : u64 j mod 2 = 0).
  { unfold wrap. rewrite Z.mod_mod_divide; [done|]. by exists (2 ^ 63). }
  unfold dealt_to. cbn [omap list_omap]. rewrite E0, bool_decide_false by (by intros [=]).
  rewrite bool_decide_false by congruence. apply (IH (2 + id)%nat (j + 1 + 1)).
  replace (j + 1 + 1) with (j + 1 * 2) by lia. by rewrite Z_mod_plus_full.
Qed.

(** The counter that deals the calls out is shared by all peers: calls to two
    peers in turn, with two channels for each, always use the same channel of
    each. *)
Theorem channels_lockstep rounds id h1 h2 port args timeout s l ch :
  make_address h1 port <> make_address h2 port ->
  channels_run (in_turn rounds id h1 h2 port args) (PeerChannels_new 2 timeout) = Some s ->
  channels_ s !! make_address h1 port = Some l -> l !! 1%nat = Some ch ->
  calls_of ch = [] /\ posted_to (make_address h1 port) 1 (posted_ s) = [].
Proof.
  intros Hne E El Ei. pose proof (ci_calls _ _ _ _ (channels_run_inv 2 timeout _ s E) (make_address h1 port) 1) as Hp.
  change (Z.max 1 2) with 2 in Hp. rewrite in_turn_dealt in Hp by done.
  unfold channel_at in Hp. rewrite El in Hp. cbn [mbind option_bind] in Hp. rewrite Ei in Hp.
  cbn [fmap option_fmap option_map from_option] in Hp. apply Permutation_nil_r, app_eq_nil in Hp. exact Hp.
Qed.

(** The destructor does not fail the outstanding calls: the closes it posts need
    not run before the threads stop. *)
Theorem channels_destroyed_unanswered :
  exists evs s l ch, channels_run (evs ++ [PDestroy; PStop]) (PeerChannels_new 1 1000) = Some s /\
    channels_ s !! make_address (lit "peer") 6379 = Some l /\ l !! 0%nat = Some ch /\
    p_id <$> pending_ ch = [7%nat] /\ results_ ch = [] /\ (forall ev, channels_step ev s = None).
Proof.
  exists [PCall 7 (lit "peer") 6379 [lit "PING"]; PRun 0 0].
  eexists _, _, _. split; [vm_compute; reflexivity|]. split; [vm_compute; reflexivity|]. split; [reflexivity|].
  split; [reflexivity|]. split; [reflexivity|]. intros ev. reflexivity.
Qed.

(** *** Witness: four calls to two peers over two channels each *)

Definition sample_traffic : list ChannelsEv :=
  [PCall 1 (lit "a") 6379 [lit "PING"]; PCall 2 (lit "b") 6379 [lit "PING"]; PCall 3 (lit "a") 6379 [lit "PING"];
   PCall 4 (lit "b") 6379 [lit "PING"]; PRun 2 5; PDrop (lit "b") 6379; PRun 0 6;
   PComplete (make_address (lit "a") 6379) 0 (EResolved 1 None)].

Definition sample_channels : PeerChannels :=
  default (PeerChannels_new 2 1000) (channels_run sample_traffic (PeerChannels_new 2 1000)).

Lemma channels_share_calls_witness :
  exists l ch, channels_ sample_channels !! make_address (lit "a") 6379 = Some l /\ l !! 0%nat = Some ch /\
    p_id <$> pending_ ch = [3; 1]%nat /\
    (results_ ch).*1 ++ (p_id <$> pending_ ch) ++ posted_to (make_address (lit "a") 6379) 0 (posted_ sample_channels) ≡ₚ [1; 3]%nat.
Proof.
  destruct (channels_ sample_channels !! make_address (lit "a") 6379) as [l|] eqn:El; [|vm_compute in El; discriminate El].
  destruct (l !! 0%nat) as [ch|] eqn:Ei.
  - exists l, ch. split; [reflexivity|]. split; [exact Ei|]. split.
    + vm_compute in El. injection El as <-. cbn in Ei. injection Ei as <-. reflexivity.
    + refine (proj1 (proj1 (proj2 (channels_share_calls 2 1000 sample_traffic sample_channels _)) _ _ _ _ El Ei)).
      vm_compute. reflexivity.
  - vm_compute in El. injection El as <-. discriminate Ei.
Defined.
