(* ===== verification/ClientApi.v ===== *)
(** * The client's calls

    Models the typed calls of network/client.cpp: [set], [get], [remove],
    [expire], [pttl] and [ping], each a [command] whose reply is decoded.

    The theorem says that a call reports what the coordinator did: the server
    parses the bytes the client sends to the command that was meant, and the
    client, in whatever pieces the reply arrives, decodes it to the outcome of
    the operation. *)

From S2P Require Import Prelude Numerals CacheEntry VersionedStore ShardedCache Resp Parser ReplicaWire Cluster ClusterLemmas ClusterProps CommandHandler HandlerProps PeerChannel PeerPool.

Local Open Scope Z_scope.

Definition Client_set (key value : bytes) (ttl_ms : option Z) (evs : list ClientEv) (c : Client)
    : option (Client * RequestResult unit) :=
  '(c', res) ← Client_command (client_set_args key value ttl_ms) evs c; Some (c', expect_ok res).

Definition Client_get (key : bytes) (evs : list ClientEv) (c : Client) : option (Client * RequestResult bytes) :=
  '(c', res) ← Client_command [lit "GET"; key] evs c; Some (c', client_get_result res).

Definition Client_remove (key : bytes) (evs : list ClientEv) (c : Client) : option (Client * RequestResult unit) :=
  '(c', res) ← Client_command [lit "DEL"; key] evs c; Some (c', integer_to_result res).

Definition Client_expire (key : bytes) (ttl_ms : Z) (evs : list ClientEv) (c : Client)
    : option (Client * RequestResult unit) :=
  '(c', res) ← Client_command [lit "PEXPIRE"; key; to_dec ttl_ms] evs c; Some (c', integer_to_result res).

Definition Client_pttl (key : bytes) (evs : list ClientEv) (c : Client) : option (Client * RequestResult Z) :=
  '(c', res) ← Client_command [lit "PTTL"; key] evs c; Some (c', client_pttl_result res).

Definition Client_ping (evs : list ClientEv) (c : Client) : option (Client * bool) :=
  '(c', res) ← Client_command [lit "PING"] evs c;
  Some (c', rr_is_ok res && match rr_value res with Some v => bytes_eqb (resp_str v) (lit "PONG") | None => false end).

(** ** The calls together *)

Inductive ApiCall :=
  | ASet (key value : bytes) (ttl_ms : option Z)
  | AGet (key : bytes)
  | ARemove (key : bytes)
  | AExpire (key : bytes) (ttl_ms : Z)
  | APttl (key : bytes)
  | APing.

Inductive ApiResult :=
  | AUnit (r : RequestResult unit)
  | ABytes (r : RequestResult bytes)
  | AInt (r : RequestResult Z)
  | ABool (b : bool).

Definition Client_call (call : ApiCall) (evs : list ClientEv) (c : Client) : option (Client * ApiResult) :=
  match call with
  | ASet key value ttl => '(c', r) ← Client_set key value ttl evs c; Some (c', AUnit r)
  | AGet key => '(c', r) ← Client_get key evs c; Some (c', ABytes r)
  | ARemove key => '(c', r) ← Client_remove key evs c; Some (c', AUnit r)
  | AExpire key ttl => '(c', r) ← Client_expire key ttl evs c; Some (c', AUnit r)
  | APttl key => '(c', r) ← Client_pttl key evs c; Some (c', AInt r)
  | APing => '(c', r) ← Client_ping evs c; Some (c', ABool r)
  end.

(** What a call sends. *)
Definition api_args (call : ApiCall) : list bytes :=
  match call with
  | ASet key value ttl => client_set_args key value ttl
  | AGet key => [lit "GET"; key]
  | ARemove key => [lit "DEL"; key]
  | AExpire key ttl => [lit "PEXPIRE"; key; to_dec ttl]
  | APttl key => [lit "PTTL"; key]
  | APing => [lit "PING"]
  end.

(** The operation of the coordinator a call is for, and what its caller is told. *)
Definition api_outcome (env : DispatchEnv) (call : ApiCall) (c : Server) : option (Server * ApiResult) :=
  let unavailable {A} (msg : bytes) : RequestResult A := rr_error RProtocolError msg in
  match call with
  | ASet key value ttl =>
      '(c', r, _) ← Cluster_put (de_write env 0%nat) key value ttl c;
      Some (c', AUnit (if wr_ok r then rr_success tt else unavailable kWriteUnavailable))
  | AGet key =>
      '(c', r, _) ← Cluster_read (de_read env 0%nat) key c;
      Some (c', ABytes match read_status r with
                       | RSFound => rr_success (vv_value (read_value r))
                       | RSNotFound => rr_not_found
                       | RSUnavailable => unavailable kReadUnavailable
                       end)
  | ARemove key =>
      '(c', r, _) ← Cluster_del (de_write env 0%nat) key c;
      Some (c', AUnit (if negb (wr_ok r) then unavailable kWriteUnavailable
                       else if wr_existed r then rr_success tt else rr_not_found))
  | AExpire key ttl =>
      '(c', r, _) ← Cluster_expire_key (de_read env 0%nat) (de_expire_ms env) (de_expire env) key ttl c;
      Some (c', AUnit (if negb (wr_ok r) then unavailable kWriteUnavailable
                       else if wr_existed r then rr_success tt else rr_not_found))
  | APttl key =>
      '(c', r, _) ← Cluster_read (de_read env 0%nat) key c;
      Some (c', AInt match read_status r with
                     | RSFound => rr_success (default (-1) (vv_ttl (read_value r)))
                     | RSNotFound => rr_not_found
                     | RSUnavailable => unavailable kReadUnavailable
                     end)
  | APing => Some (c, ABool true)
  end.

(** Calls the protocol can carry. *)
Definition api_ok (call : ApiCall) : Prop :=
  match call with
  | ASet key value ttl => bulk_ok key /\ bulk_ok value /\ forall ms, ttl = Some ms -> 0 < ms <= kMaxTtlMs
  | AGet key | ARemove key | APttl key => bulk_ok key
  | AExpire key ttl => bulk_ok key /\ 0 <= ttl <= kMaxTtlMs
  | APing => True
  end.

(** The value read can be carried back. *)
Definition api_read_ok (env : DispatchEnv) (call : ApiCall) (c : Server) : Prop :=
  match call with
  | AGet key => forall c' r w, Cluster_read (de_read env 0%nat) key c = Some (c', r, w) -> bulk_ok (vv_value (read_value r))
  | APttl key => forall c' r w ms, Cluster_read (de_read env 0%nat) key c = Some (c', r, w) ->
      vv_ttl (read_value r) = Some ms -> 0 <= ms < 2 ^ 63
  | _ => True
  end.

(** ** A command and its reply *)

(** A reply is read whole, in whatever pieces it arrives. *)
Lemma read_chunks v chunks c :
  resp_wf v -> c_rx c ++ concat chunks = append_value [] v -> Forall (fun x => x <> []) chunks -> chunks <> [] ->
  exists c', read_more (CChunk <$> chunks) c = Some (c', OReply v) /\ c_connected c' = c_connected c /\ c_rx c' = [].
Proof.
  intros Wv. destruct (reply_wire v Wv) as [Hfull Hpart]. revert c.
  induction chunks as [|x chunks IH]; intros c E HF Hne; [done|]. rewrite Forall_cons in HF. destruct HF as [Hx HF].
  cbn [concat] in E. rewrite app_assoc in E. cbn [fmap list_fmap read_more]. destruct chunks as [|y chunks].
  - cbn [concat] in E. rewrite app_nil_r in E. specialize (Hfull []). rewrite app_nil_r in Hfull. rewrite E, Hfull.
    cbn [mbind option_bind fmap list_fmap after_op]. eexists. split; [reflexivity|]. split; [done|]. cbn [c_rx]. apply drop_all.
  - rewrite (Hpart (c_rx c ++ x) (concat (y :: chunks))); [|done|].
    + cbn [mbind option_bind]. by apply (IH (mkClient (c_connected c) (c_rx c ++ x) (c_requests c) (c_received c ++ x) (c_replies c))).
    + rewrite Forall_cons in HF. destruct HF as [Hy _]. cbn [concat]. by destruct y.
Qed.

Lemma command_reply v args chunks c :
  resp_wf v -> concat chunks = append_value [] v -> Forall (fun x => x <> []) chunks -> c_connected c = true -> c_rx c = [] ->
  exists c', Client_command args (CWritten None :: (CChunk <$> chunks)) c = Some (c', rr_success v) /\
    c_connected c' = true /\ c_rx c' = [].
Proof.
  intros Wv E HF Hc Hr. unfold Client_command. rewrite Hc. cbn [negb].
  destruct (read_chunks v chunks (mkClient true (c_rx c) (c_requests c ++ [args]) (c_received c) (c_replies c))) as (c' & -> & Hc' & Hr'); try done.
  - cbn [c_rx]. by rewrite Hr.
  - intros ->. pose proof (proj1 (reply_wire v Wv) []) as P. rewrite <-E in P. discriminate P.
  - cbn [mbind option_bind]. eauto.
Qed.

(** What a call makes of the reply. *)
Definition api_decode (call : ApiCall) (res : RequestResult RespValue) : ApiResult :=
  match call with
  | ASet _ _ _ => AUnit (expect_ok res)
  | AGet _ => ABytes (client_get_result res)
  | ARemove _ | AExpire _ _ => AUnit (integer_to_result res)
  | APttl _ => AInt (client_pttl_result res)
  | APing => ABool (rr_is_ok res && match rr_value res with Some v => bytes_eqb (resp_str v) (lit "PONG") | None => false end)
  end.

Lemma Client_call_command call evs c :
  Client_call call evs c = '(c', res) ← Client_command (api_args call) evs c; Some (c', api_decode call res).
Proof.
  destruct call; cbn [Client_call api_args api_decode];
    unfold Client_set, Client_get, Client_remove, Client_expire, Client_pttl, Client_ping; by destruct (Client_command _ _ _) as [[? ?]|].
Qed.

(** The command the server parses. *)
Definition api_parsed (call : ApiCall) : Command :=
  match call with
  | ASet key value ttl => mkCommand CSet key [] value ttl 0 []
  | AGet key => mkCommand CGet key [] [] None 0 []
  | ARemove key => mkCommand CDelete key [key] [] None 0 []
  | AExpire key ttl => mkCommand CExpire key [] [] (Some ttl) 0 []
  | APttl key => mkCommand CPttl key [] [] None 0 []
  | APing => mkCommand CPing [] [] [] None 0 []
  end.

Lemma parse_verb_PEXPIRE args :
  parse_verb (lit "PEXPIRE") args =
  if negb (Z.of_nat (length args) =? 3) then wrong_arity (lit "PEXPIRE")
  else match parse_u64 (default [] (args !! 2%nat)) with
  | None => invalid (lit "ERR value is not an integer or out of range")
  | Some n =>
      if kMaxTtlMs <? n then invalid (lit "ERR value is not an integer or out of range")
      else mkCommand CExpire (default [] (args !! 1%nat)) [] [] (Some n) 0 []
  end.
Proof. reflexivity. Qed.

Lemma ttl_range : 0 < kMaxTtlMs < 2 ^ 63.
Proof. unfold kMaxTtlMs, kMaxTtlSeconds. lia. Qed.

Lemma api_parse call : api_ok call -> Parser_parse (api_args call) = api_parsed call.
Proof.
  pose proof ttl_range as R. destruct call as [key value ttl|key|key|key ttl|key|]; cbn [api_ok api_args api_parsed]; intros Hok; try reflexivity.
  - destruct Hok as (_ & _ & Ht). unfold client_set_args, Parser_parse. cbn [app]. change (to_upper (lit "SET")) with (lit "SET"). rewrite parse_verb_SET.
    destruct ttl as [ms|]; [|reflexivity]. specialize (Ht ms eq_refl).
    change (Z.of_nat (length [lit "SET"; key; value; lit "PX"; to_dec ms]) <? 3) with false. cbv iota.
    unfold with_options. cbn [drop parse_set_options].
    change (bytes_eqb (to_upper (lit "PX")) (lit "EX")) with false. change (bytes_eqb (to_upper (lit "PX")) (lit "PX")) with true. cbn [orb].
    rewrite parse_u64_to_dec by lia. rewrite (proj2 (Z.eqb_neq _ _)) by lia. by rewrite (proj2 (Z.ltb_ge _ _)) by lia.
  - destruct Hok as [_ Ht]. unfold Parser_parse. change (to_upper (lit "PEXPIRE")) with (lit "PEXPIRE"). rewrite parse_verb_PEXPIRE.
    change (Z.of_nat (length [lit "PEXPIRE"; key; to_dec ttl]) =? 3) with true. cbn [negb lookup list_lookup from_option].
    unfold id. rewrite parse_u64_to_dec by lia. by rewrite (proj2 (Z.ltb_ge _ _)) by lia.
Qed.

Lemma api_args_ok call : api_ok call -> args_ok (api_args call).
Proof.
  pose proof ttl_range as R. intros Hok. split.
  - unfold kMaxArrayLength. destruct call as [? ? [|]| | | | |]; cbn [api_args client_set_args app length]; lia.
  - destruct call as [key value [ms|]|key|key|key ttl|key|]; cbn [api_args client_set_args app api_ok] in *.
    + destruct Hok as (? & ? & Ht). specialize (Ht ms eq_refl). bulks_ok.
    + destruct Hok as (? & ? & _). bulks_ok.
    + bulks_ok.
    + bulks_ok.
    + destruct Hok. bulks_ok.
    + bulks_ok.
    + bulks_ok.
Qed.

Lemma unavailable_wf : resp_wf (RespError kWriteUnavailable) /\ resp_wf (RespError kReadUnavailable).
Proof. split; constructor; reflexivity. Qed.

(** The server's reply, and what the call makes of it. *)
Lemma api_reply env call c c' out :
  api_ok call -> api_read_ok env call c -> dispatch env (api_parsed call) c [] = Some (c', out) ->
  exists v, out = append_value [] v /\ resp_wf v /\ api_outcome env call c = Some (c', api_decode call (rr_success v)).
Proof.
  pose proof ttl_range as R. destruct unavailable_wf as [Ww Wr].
  destruct call as [key value ttl|key|key|key ttl|key|]; cbn [api_ok api_read_ok api_parsed api_outcome]; intros Hok Hro E;
    unfold dispatch in E; cbn [cmd_type cmd_key cmd_value cmd_keys cmd_ttl_ms delete_keys from_option] in E.
  - destruct Hok as (_ & _ & Ht).
    assert (Et : to_ttl ttl = ttl).
    { destruct ttl as [ms|]; [|done]. specialize (Ht ms eq_refl). unfold to_ttl. cbn. rewrite i64_small by lia. done. }
    rewrite Et in E. destruct (Cluster_put _ _ _ _ _) as [[[c1 r] w]|]; [|done]. cbn [mbind option_bind] in *. injection E as <- <-.
    destruct (wr_ok r); [exists (SimpleString (lit "OK"))|exists (RespError kWriteUnavailable)]; (split; [done|]); (split; [|done]); [by constructor|done].
  - destruct (Cluster_read _ _ _) as [[[c1 r] w]|] eqn:Er; [|done]. cbn [mbind option_bind] in *. injection E as <- <-.
    specialize (Hro _ _ _ eq_refl). destruct (read_status r).
    + exists (BulkString (vv_value (read_value r))). split; [done|]. split; [by constructor|done].
    + exists RespNull. split; [done|]. split; [by constructor|done].
    + exists (RespError kReadUnavailable). done.
  - destruct (Cluster_del _ _ _) as [[[c1 r] w]|]; [|done]. cbn [mbind option_bind] in *. destruct (wr_ok r); cbn [negb] in *; injection E as <- <-.
    + exists (RespInteger (0 + (if wr_existed r then 1 else 0))). split; [done|]. split; [constructor; destruct (wr_existed r); lia|by destruct (wr_existed r)].
    + exists (RespError kWriteUnavailable). done.
  - destruct Hok as [_ Ht]. unfold id in E. rewrite i64_small in E by lia.
    destruct (Cluster_expire_key _ _ _ _ _ _) as [[[c1 r] w]|]; [|done]. cbn [mbind option_bind] in *. injection E as <- <-. destruct (wr_ok r); cbn [negb].
    + exists (RespInteger (bool_Z (wr_existed r))). split; [done|]. split; [constructor; destruct (wr_existed r); cbn; lia|by destruct (wr_existed r)].
    + exists (RespError kWriteUnavailable). done.
  - destruct (Cluster_read _ _ _) as [[[c1 r] w]|] eqn:Er; [|done]. cbn [mbind option_bind] in *. injection E as <- <-.
    unfold ttl_reply. rewrite bool_decide_false by done. cbn [andb]. destruct (read_status r).
    + exists (RespInteger (default (-1) (vv_ttl (read_value r)))). split; [done|]. destruct (vv_ttl (read_value r)) as [ms|] eqn:Et; cbn [from_option].
      * specialize (Hro _ _ _ ms eq_refl Et). unfold id. split; [constructor; lia|].
        assert (En : (ms =? -2) = false) by lia. unfold api_decode, client_pttl_result. cbn [rr_is_ok rr_status rr_value rr_success]. by rewrite En.
      * split; [constructor; lia|done].
    + exists (RespInteger (-2)). split; [done|]. split; [constructor; lia|done].
    + exists (RespError kReadUnavailable). done.
  - injection E as <- <-. exists (SimpleString (lit "PONG")). split; [done|]. split; [by constructor|done].
Qed.

(** ** Properties *)

(** C18: A call of the client reports what the coordinator did: whatever follows
    them the server parses the bytes sent to the arguments of the call; and when
    the bytes the handler writes for these arguments arrive, in pieces of any
    size, the call returns the outcome of the operation it stands for, value,
    absence, success or the quorum error, and leaves the connection ready for
    the next call. *)
Theorem client_call_sees env call c c' out chunks client rest :
  api_ok call -> api_read_ok env call c ->
  dispatch env (Parser_parse (api_args call)) c [] = Some (c', out) ->
  concat chunks = out -> Forall (fun x => x <> []) chunks -> c_connected client = true -> c_rx client = [] ->
  parse_request (resp_command (api_args call) ++ rest) = POk (api_args call) (length (resp_command (api_args call))) /\
  exists client' res, Client_call call (CWritten None :: (CChunk <$> chunks)) client = Some (client', res) /\
    api_outcome env call c = Some (c', res) /\ c_connected client' = true /\ c_rx client' = [].
Proof.
  intros Hok Hro E Ec HF Hcon Hrx. split; [by apply parse_command, api_args_ok|].
  rewrite api_parse in E by done. destruct (api_reply env call c c' out Hok Hro E) as (v & -> & Wv & Eo).
  destruct (command_reply v (api_args call) chunks client Wv Ec HF Hcon Hrx) as (client' & Ecmd & H1 & H2).
  rewrite Client_call_command, Ecmd. cbn [mbind option_bind].
  exists client', (api_decode call (rr_success v)). done.
Qed.

(** *** Witness: PTTL of a key, answered in two pieces *)

Lemma client_call_sees_witness :
  exists c' res client', api_outcome sample_env (APttl sample_key) (sample_server Quorum) = Some (c', res) /\
    Client_call (APttl sample_key) [CWritten None; CChunk (lit ":-"); CChunk (lit "1" ++ CRLF)] (mkClient true [] [] [] []) = Some (client', res).
Proof.
  assert (Hd : snd <$> dispatch sample_env (Parser_parse (api_args (APttl sample_key))) (sample_server Quorum) [] = Some (lit ":-1" ++ CRLF))
    by (vm_compute; reflexivity).
  assert (Hr : (fun '(_, r, _) => vv_ttl (read_value r)) <$> Cluster_read (de_read sample_env 0%nat) sample_key (sample_server Quorum) = Some None)
    by (vm_compute; reflexivity).
  destruct (dispatch sample_env (Parser_parse (api_args (APttl sample_key))) (sample_server Quorum) []) as [[c' out]|] eqn:E; [|discriminate Hd].
  destruct (client_call_sees sample_env (APttl sample_key) (sample_server Quorum) c' out [lit ":-"; lit "1" ++ CRLF] (mkClient true [] [] [] []) [])
    as [_ (client' & res & E1 & E2 & _)].
  - apply short_bulk_ok. cbn. lia.
  - intros c1 r w ms Er Em. rewrite Er in Hr. cbn [fmap option_fmap option_map] in Hr. injection Hr as Hn. rewrite Hn in Em. discriminate Em.
  - exact E.
  - cbn [fmap option_fmap option_map snd] in Hd. injection Hd as ->. reflexivity.
  - repeat constructor; discriminate.
  - reflexivity.
  - reflexivity.
  - exists c', res, client'. split; [exact E2|exact E1].
Defined.
