(* ===== verification/Snapshot.v ===== *)
(** * Snapshots

    Models src/snapshot.cpp: the binary format (little endian, as on the
    machines the program is built for), the checksum, saving through a
    temporary file, and loading with last-writer-wins.  Files are a map from
    paths to contents; whether opening, writing and renaming succeed is an
    argument, and so are the clock readings. *)

From S2P Require Import Prelude Numerals CacheEntry Cache CacheSpec CacheRefine CacheProps VersionedStore ShardedCache ClusterLemmas.

Local Open Scope Z_scope.

(** ** Bytes of integers *)

Definition byte_of (n : Z) : ascii := ascii_of_N (Z.to_N (u8 n)).

(** The [w] bytes of [n], least significant first, and back. *)
Fixpoint le_bytes (w : nat) (n : Z) : bytes :=
  match w with
  | O => []
  | S w' => byte_of n :: le_bytes w' (n / 256)
  end.
Definition le_value (b : bytes) : Z := foldr (fun c acc => uchar c + 256 * acc) 0 b.

(** ** [Writer] and [Reader] *)

Definition kMagic : bytes := lit "SCSNAP01".

Definition w_str (s : bytes) : bytes := le_bytes 4 (u32 (Z.of_nat (length s))) ++ s.

(** [Reader::pod] of [w] bytes. *)
Definition r_pod (w : nat) (r : bytes) : option (Z * bytes) :=
  if (length r <? w)%nat then None else Some (le_value (take w r), drop w r).

(** [Reader::str]. *)
Definition r_str (r : bytes) : option (bytes * bytes) :=
  '(n, r') ← r_pod 4 r;
  if Z.of_nat (length r') <? n then None else Some (take (Z.to_nat n) r', drop (Z.to_nat n) r').

(** [checksum]. *)
Definition checksum_step (h : Z) (c : ascii) : Z := u64 (Z.lxor h (uchar c) * 1099511628211).
Definition checksum (data : bytes) : Z := foldl checksum_step 1469598103934665603 data.

(** ** [save_snapshot] *)

(** One entry; [now] is the wall clock in ms. *)
Definition encode_entry (now : Z) (e : bytes * VersionedValue) : bytes :=
  let '(key, v) := e in
  w_str key ++ w_str (vv_value v) ++ le_bytes 8 (vv_version v) ++ le_bytes 1 (if vv_tombstone v then 1 else 0) ++
  le_bytes 8 (u64 (match vv_ttl v with Some ttl => now + ttl | None => -1 end)).

(** The buffer: the header with the patched count, the entries of every batch,
    and the checksum. *)
Definition encode_snapshot (now : Z) (batches : list (list (bytes * VersionedValue))) : bytes :=
  let entries := concat batches in
  let body := kMagic ++ le_bytes 8 (u64 (Z.of_nat (length entries))) ++ concat (encode_entry now <$> entries) in
  body ++ le_bytes 8 (checksum body).

Abbreviation Files := (gmap bytes bytes).

Record SnapshotStats := mkStats { st_entries : Z; st_bytes : Z }.

(** The outcome of the file operations: opening the temporary file, writing it
    ([inr] is what a failed write left), and renaming it. *)
Record SaveEnv := mkSaveEnv {
  sv_open : bool;
  sv_write : unit + bytes;
  sv_rename : bool
}.

Definition save_snapshot (env : SaveEnv) (now : Z) (clk : nat -> Z) (cache : ShardedCache) (path : bytes) (fs : Files)
    : Files * (SnapshotStats + bytes) :=
  let batches := ShardedCache_snapshots clk cache in
  let buf := encode_snapshot now batches in
  let tmp := path ++ lit ".tmp" in
  if negb (sv_open env) then (fs, inr (lit "cannot open " ++ tmp))
  else match sv_write env with
  | inr partial => (<[tmp := partial]> fs, inr (lit "write failed for " ++ tmp))
  | inl _ =>
      let fs := <[tmp := buf]> fs in
      if negb (sv_rename env) then (fs, inr (lit "rename to " ++ path ++ lit " failed"))
      else (<[path := buf]> (delete tmp fs),
            inl (mkStats (u64 (Z.of_nat (length (concat batches)))) (Z.of_nat (length buf))))
  end.

(** ** [load_snapshot] *)

Record Entry := mkSnapEntry { se_key : bytes; se_value : VersionedValue; se_expiry : Z }.

(** One entry of the decoding loop. *)
Definition decode_entry (r : bytes) : option (Entry * bytes) :=
  '(key, r) ← r_str r;
  '(value, r) ← r_str r;
  '(version, r) ← r_pod 8 r;
  '(tombstone, r) ← r_pod 1 r;
  '(expiry, r) ← r_pod 8 r;
  Some (mkSnapEntry key (mkVV value version (negb (tombstone =? 0)) None) (i64 expiry), r).

(** The loop over the entries from the [i]-th on; [None] is out of fuel. *)
Fixpoint decode_entries (fuel : nat) (i count : Z) (r : bytes) (acc : list Entry) : option (list Entry * bytes + bytes) :=
  match fuel with
  | O => None
  | S fuel' =>
      if count <=? i then Some (inl (acc, r))
      else match decode_entry r with
      | None => Some (inr (lit "truncated entry " ++ to_dec i))
      | Some (e, r') => decode_entries fuel' (i + 1) count r' (acc ++ [e])
      end
  end.

(** Everything before the entries are applied; [None] is out of fuel, which one
    more than the bytes left rules out: every entry takes some. *)
Definition decode_snapshot (buf : bytes) : option (list Entry + bytes) :=
  if (length buf <? 8 + 2 * 8)%nat || negb (bytes_eqb (take 8 buf) kMagic)
  then Some (inr (lit "not a ShardCache snapshot"))
  else
    let body := take (length buf - 8) buf in
    let stored_sum := le_value (drop (length buf - 8) buf) in
    if negb (checksum body =? stored_sum)
    then Some (inr (lit "checksum mismatch (corrupt or truncated snapshot)"))
    else match r_pod 8 (drop 8 body) with
    | None => Some (inr (lit "truncated header"))
    | Some (count, r) =>
        d ← decode_entries (S (length r)) 0 count r [];
        Some match d with
             | inr e => inr e
             | inl (entries, []) => inl entries
             | inl (_, _ :: _) => inr (lit "trailing bytes after entries")
             end
    end.

(** The entry as it is applied at wall time [now], unless it expired. *)
Definition restore_entry (now : Z) (e : Entry) : option VersionedValue :=
  let v := se_value e in
  if (0 <=? se_expiry e) && (se_expiry e <=? now) then None
  else
    let ttl := if 0 <=? se_expiry e then Some (se_expiry e - now) else None in
    Some (mkVV (vv_value v) (vv_version v) (vv_tombstone v) (if vv_tombstone v then None else ttl)).

(** The loop that applies them, at steady time [t]. *)
Fixpoint apply_entries (now t : Z) (entries : list Entry) (applied : Z) (s : ShardedCache) : option (ShardedCache * Z) :=
  match entries with
  | [] => Some (s, applied)
  | e :: rest =>
      match restore_entry now e with
      | None => apply_entries now t rest applied s
      | Some v =>
          '(s', _, _) ← ShardedCache_apply t (se_key e) v s;
          apply_entries now t rest (u64 (applied + 1)) s'
      end
  end.

Definition load_snapshot (now t : Z) (path : bytes) (fs : Files) (s : ShardedCache)
    : option (ShardedCache * (SnapshotStats + bytes)) :=
  match fs !! path with
  | None => Some (s, inr (lit "no snapshot at " ++ path))
  | Some buf =>
      d ← decode_snapshot buf;
      match d with
      | inr e => Some (s, inr e)
      | inl entries =>
          '(s', applied) ← apply_entries now t entries 0 s;
          Some (s', inl (mkStats applied (Z.of_nat (length buf))))
      end
  end.

(** ** Integers round-trip *)

Lemma uchar_byte n : uchar (byte_of n) = u8 n.
Proof.
  unfold uchar, byte_of. pose proof (wrap_range 8 n ltac:(lia)). rewrite N_ascii_embedding by lia. lia.
Qed.

Lemma le_bytes_length w n : length (le_bytes w n) = w.
Proof. revert n. induction w as [|w IH]; intros n; [done|]. cbn. by rewrite IH. Qed.

Lemma le_value_bytes w n : le_value (le_bytes w n) = n mod 2 ^ (8 * Z.of_nat w).
Proof.
  revert n. induction w as [|w IH]; intros n; [by rewrite Z.mod_1_r|].
  cbn [le_bytes le_value foldr]. fold (le_value (le_bytes w (n / 256))). rewrite IH, uchar_byte. unfold wrap.
  replace (8 * Z.of_nat (S w)) with (8 + 8 * Z.of_nat w) by lia. rewrite Z.pow_add_r by lia.
  change (2 ^ 8) with 256. rewrite Z.rem_mul_r by lia. lia.
Qed.

Lemma r_pod_bytes w n rest :
  r_pod w (le_bytes w n ++ rest) = Some (n mod 2 ^ (8 * Z.of_nat w), rest).
Proof.
  unfold r_pod. pose proof (le_bytes_length w n) as L. rewrite length_app, L.
  rewrite (proj2 (Nat.ltb_ge _ _)) by lia.
  rewrite <-L at 1. rewrite take_app_length, le_value_bytes. rewrite <-L at 2. by rewrite drop_app_length.
Qed.

Lemma r_str_w s rest : Z.of_nat (length s) < 2 ^ 32 -> r_str (w_str s ++ rest) = Some (s, rest).
Proof.
  intros H. unfold r_str, w_str. rewrite <-app_assoc, r_pod_bytes. cbn [mbind option_bind].
  change (8 * Z.of_nat 4) with 32. rewrite (wrap_small 32 (Z.of_nat (length s))), Z.mod_small by lia.
  rewrite (proj2 (Z.ltb_ge _ _)) by (rewrite length_app; lia). rewrite Nat2Z.id. by rewrite take_app_length, drop_app_length.
Qed.

(** ** The checksum *)

Lemma checksum_step_range h c : 0 <= checksum_step h c < 2 ^ 64.
Proof. apply wrap_range. lia. Qed.

Lemma checksum_range l h : 0 <= h < 2 ^ 64 -> 0 <= foldl checksum_step h l < 2 ^ 64.
Proof. revert h. induction l as [|c l IH]; intros h H; [done|]. cbn. apply IH, checksum_step_range. Qed.

(** The multiplier is odd, so a step loses nothing. *)
Lemma multiply_injective a b :
  0 <= a < 2 ^ 64 -> 0 <= b < 2 ^ 64 -> u64 (a * 1099511628211) = u64 (b * 1099511628211) -> a = b.
Proof.
  intros Ha Hb E.
  assert (I : forall x, 0 <= x < 2 ^ 64 -> u64 (u64 (x * 1099511628211) * 14886173955864302971) = x).
  { intros x Hx. unfold wrap. rewrite Z.mul_mod_idemp_l by lia.
    replace (x * 1099511628211 * 14886173955864302971) with (x + (x * ((1099511628211 * 14886173955864302971 - 1) / 2 ^ 64)) * 2 ^ 64).
    - rewrite Z_mod_plus_full. by apply Z.mod_small.
    - change ((1099511628211 * 14886173955864302971 - 1) / 2 ^ 64) with 887285111055. lia. }
  rewrite <-(I a), <-(I b), E by done. done.
Qed.

Lemma lxor_cancel a b c : Z.lxor a c = Z.lxor b c -> a = b.
Proof. intros E. rewrite <-(Z.lxor_0_r a), <-(Z.lxor_0_r b), <-(Z.lxor_nilpotent c), <-!Z.lxor_assoc. by rewrite E. Qed.

Lemma checksum_step_inj h h' c c' :
  0 <= h < 2 ^ 64 -> 0 <= h' < 2 ^ 64 -> checksum_step h c = checksum_step h' c' -> Z.lxor h (uchar c) = Z.lxor h' (uchar c').
Proof.
  intros Hh Hh'. pose proof (uchar_range c). pose proof (uchar_range c'). apply multiply_injective; apply (lxor_range _ _ 64); lia.
Qed.

Lemma checksum_same_tail l h h' :
  0 <= h < 2 ^ 64 -> 0 <= h' < 2 ^ 64 -> foldl checksum_step h l = foldl checksum_step h' l -> h = h'.
Proof.
  revert h h'. induction l as [|c l IH]; intros h h' Hh Hh' E; [done|]. cbn in E.
  apply IH in E; [|apply checksum_step_range..]. apply checksum_step_inj in E; [|done|done]. by apply lxor_cancel in E.
Qed.

(** Changing one byte changes the checksum. *)
Lemma checksum_one_byte p a b q : a <> b -> checksum (p ++ a :: q) <> checksum (p ++ b :: q).
Proof.
  intros Hab E. unfold checksum in E. rewrite !foldl_app in E. cbn [foldl] in E.
  apply checksum_same_tail in E; [|apply checksum_step_range..].
  assert (R : 0 <= foldl checksum_step 1469598103934665603 p < 2 ^ 64) by (apply checksum_range; lia).
  apply checksum_step_inj in E; [|done|done]. rewrite !(Z.lxor_comm (foldl _ _ p)) in E.
  by apply lxor_cancel, (inj uchar) in E.
Qed.

(** ** Decoding *)

Lemma r_pod_shorter w r n r' : r_pod w r = Some (n, r') -> (length r' + w = length r)%nat.
Proof.
  unfold r_pod. destruct (length r <? w)%nat eqn:E; [done|]. intros [= _ <-]. rewrite length_drop.
  apply Nat.ltb_ge in E. lia.
Qed.

Lemma r_str_shorter r s r' : r_str r = Some (s, r') -> (length r' + 4 <= length r)%nat.
Proof.
  unfold r_str. destruct (r_pod 4 r) as [[n r1]|] eqn:E; [|done]. cbn [mbind option_bind]. apply r_pod_shorter in E.
  case_match; [done|]. intros [= _ <-]. rewrite length_drop. lia.
Qed.

Lemma decode_entry_shorter r e r' : decode_entry r = Some (e, r') -> (length r' < length r)%nat.
Proof.
  unfold decode_entry. destruct (r_str r) as [[k r1]|] eqn:E1; [|done]. cbn [mbind option_bind].
  destruct (r_str r1) as [[v r2]|] eqn:E2; [|done]. cbn [mbind option_bind].
  destruct (r_pod 8 r2) as [[n r3]|] eqn:E3; [|done]. cbn [mbind option_bind].
  destruct (r_pod 1 r3) as [[b r4]|] eqn:E4; [|done]. cbn [mbind option_bind].
  destruct (r_pod 8 r4) as [[x r5]|] eqn:E5; [|done]. cbn [mbind option_bind]. intros [= _ <-].
  apply r_str_shorter in E1, E2. apply r_pod_shorter in E3, E4, E5. lia.
Qed.

Lemma decode_entries_total fuel i count r acc :
  (length r < fuel)%nat -> is_Some (decode_entries fuel i count r acc).
Proof.
  revert i r acc. induction fuel as [|fuel IH]; intros i r acc Hf; [lia|]. cbn [decode_entries].
  case_match; [eauto|]. destruct (decode_entry r) as [[e r']|] eqn:E; [|eauto].
  apply decode_entry_shorter in E. apply IH. lia.
Qed.

Lemma decode_snapshot_total buf : is_Some (decode_snapshot buf).
Proof.
  unfold decode_snapshot. case_match; [eauto|]. case_match; [eauto|].
  destruct (r_pod 8 _) as [[count r]|]; [|eauto].
  destruct (decode_entries_total (S (length r)) 0 count r [] ltac:(lia)) as [d ->]. cbn [mbind option_bind]. eauto.
Qed.

(** What can be saved: lengths below 2^32, a 64-bit version, a deadline that is
    a 64-bit number of milliseconds. *)
Definition encodable (now : Z) (e : bytes * VersionedValue) : Prop :=
  Z.of_nat (length e.1) < 2 ^ 32 /\ Z.of_nat (length (vv_value e.2)) < 2 ^ 32 /\ 0 <= vv_version e.2 < 2 ^ 64 /\
  forall ttl, vv_ttl e.2 = Some ttl -> - 2 ^ 63 <= now + ttl < 2 ^ 63.

Definition entry_of (now : Z) (e : bytes * VersionedValue) : Entry :=
  mkSnapEntry e.1 (mkVV (vv_value e.2) (vv_version e.2) (vv_tombstone e.2) None)
    (match vv_ttl e.2 with Some ttl => now + ttl | None => -1 end).

Lemma i64_u64 n : - 2 ^ 63 <= n < 2 ^ 63 -> i64 (u64 n) = n.
Proof.
  intros H. unfold i64. rewrite wrap_wrap. unfold wrap. destruct (decide (0 <= n)).
  - rewrite Z.mod_small by lia. by rewrite (proj2 (Z.ltb_lt _ _)) by lia.
  - rewrite <-(Z_mod_plus_full n 1 (2 ^ 64)), Z.mod_small by lia. rewrite (proj2 (Z.ltb_ge _ _)); lia.
Qed.

Lemma decode_encode_entry now e rest :
  encodable now e -> decode_entry (encode_entry now e ++ rest) = Some (entry_of now e, rest).
Proof.
  destruct e as [k v]. intros (Hk & Hv & Hn & Ht). cbn [fst snd] in *. unfold encode_entry, decode_entry.
  rewrite <-!app_assoc, r_str_w by done. cbn [mbind option_bind]. rewrite r_str_w by done. cbn [mbind option_bind].
  rewrite r_pod_bytes. cbn [mbind option_bind]. rewrite r_pod_bytes. cbn [mbind option_bind].
  rewrite r_pod_bytes. cbn [mbind option_bind]. unfold entry_of. cbn [fst snd].
  change (8 * Z.of_nat 8) with 64. change (8 * Z.of_nat 1) with 8. rewrite (Z.mod_small (vv_version v)) by lia.
  fold (u64 (u64 (match vv_ttl v with Some ttl => now + ttl | None => -1 end))). rewrite wrap_wrap.
  rewrite i64_u64; [by destruct (vv_tombstone v)|]. destruct (vv_ttl v) as [ttl|]; [by apply Ht|lia].
Qed.

Lemma decode_entries_all now es fuel i acc :
  Forall (encodable now) es -> (length es < fuel)%nat ->
  decode_entries fuel i (i + Z.of_nat (length es)) (concat (encode_entry now <$> es)) acc =
  Some (inl (acc ++ (entry_of now <$> es), [])).
Proof.
  intros F. revert fuel i acc. induction F as [|e es He _ IH]; intros [|fuel] i acc Hf; cbn [length] in Hf; try lia;
    cbn [decode_entries fmap list_fmap concat].
  - rewrite (proj2 (Z.leb_le _ _)) by (cbn [length]; lia). by rewrite app_nil_r.
  - rewrite (proj2 (Z.leb_gt _ _)) by (cbn [length]; lia). rewrite decode_encode_entry by done.
    replace (i + Z.of_nat (length (e :: es))) with (i + 1 + Z.of_nat (length es)) by (cbn [length]; lia).
    rewrite IH by lia. by rewrite <-app_assoc.
Qed.

Lemma snapshot_body body (sum : Z) :
  let buf := body ++ le_bytes 8 sum in
  take (length buf - 8) buf = body /\ drop (length buf - 8) buf = le_bytes 8 sum /\ length buf = (length body + 8)%nat.
Proof.
  cbv zeta. pose proof (le_bytes_length 8 sum) as L. rewrite length_app, L, Nat.add_sub.
  by rewrite take_app_length, drop_app_length.
Qed.

Lemma encode_entry_length now e : (0 < length (encode_entry now e))%nat.
Proof. destruct e as [k v]. unfold encode_entry. rewrite !length_app, !le_bytes_length. lia. Qed.

Lemma entries_bytes_length now es : (length es <= length (concat (encode_entry now <$> es)))%nat.
Proof.
  induction es as [|e es IH]; [done|]. cbn [fmap list_fmap concat length]. rewrite length_app.
  pose proof (encode_entry_length now e). lia.
Qed.

Lemma decode_encode_snapshot now batches :
  Forall (encodable now) (concat batches) -> Z.of_nat (length (concat batches)) < 2 ^ 64 ->
  decode_snapshot (encode_snapshot now batches) = Some (inl (entry_of now <$> concat batches)).
Proof.
  intros F Hc. unfold decode_snapshot, encode_snapshot. set (es := concat batches) in *.
  set (tail := le_bytes 8 _ ++ concat _). set (body := kMagic ++ tail).
  destruct (snapshot_body body (checksum body)) as (T & D & L). cbv zeta in T, D, L. rewrite T, D.
  assert (Lb : (16 <= length body)%nat) by (subst body tail; rewrite !length_app, le_bytes_length; cbn; lia).
  rewrite L, (proj2 (Nat.ltb_ge _ _)) by lia.
  assert (Em : take 8 (body ++ le_bytes 8 (checksum body)) = kMagic) by reflexivity. rewrite Em, bytes_eqb_refl.
  cbn [orb negb]. rewrite le_value_bytes. change (8 * Z.of_nat 8) with 64. fold (u64 (checksum body)).
  rewrite wrap_small by (apply checksum_range; lia). rewrite Z.eqb_refl. cbn [negb].
  change (drop 8 body) with tail. subst tail. rewrite r_pod_bytes. change (8 * Z.of_nat 8) with 64.
  fold (u64 (u64 (Z.of_nat (length es)))). rewrite wrap_wrap, wrap_small by lia.
  pose proof (decode_entries_all now es (S (length (concat (encode_entry now <$> es)))) 0 [] F) as E.
  rewrite Z.add_0_l in E. rewrite E by (pose proof (entries_bytes_length now es); lia). done.
Qed.

(** ** Restoring without evictions *)

Lemma bounded_keys (keys L : list bytes) k :
  NoDup keys -> (forall x, x ∈ keys -> x ∈ L) -> k ∈ L -> k ∉ keys -> (length keys < length L)%nat.
Proof.
  intros ND Hs Hk Hn. apply (submseteq_length (k :: keys) L), NoDup_submseteq; [by apply NoDup_cons|].
  intros x [->|Hx]%elem_of_cons; auto.
Qed.

(** A store whose keys, with [k], are among at most capacity many evicts nothing
    when [k] is stored. *)
Lemma store_apply_fits now k v s L :
  NoDup (node_key <$> sp_nodes s) -> (forall x, x ∈ node_key <$> sp_nodes s -> x ∈ L) -> k ∈ L ->
  (0 < sp_capacity s -> Z.of_nat (length L) <= sp_capacity s) ->
  let s' := fst (store_apply now k v s) in
  (forall k', k' <> k -> sp_find k' (sp_nodes s') = sp_find k' (sp_nodes s)) /\
  (forall x, x ∈ node_key <$> sp_nodes s' -> x ∈ L) /\ sp_capacity s' = sp_capacity s.
Proof.
  intros ND Hs Hk Hcap s'.
  assert (P : forall e, (forall k', k' <> k -> sp_find k' (sp_nodes (sp_put k e s)) = sp_find k' (sp_nodes s)) /\
    (forall x, x ∈ node_key <$> sp_nodes (sp_put k e s) -> x ∈ L)).
  { intros e. split; [|intros x [->|Hx]%sp_put_keys; auto]. intros k' Hne. unfold sp_put. cbn [with_nodes sp_nodes].
    destruct (sp_find k (sp_nodes s)) as [n|] eqn:E; rewrite sp_find_cons; cbn [node_key set_entry].
    - rewrite (sp_find_key _ _ _ E), bytes_eqb_ne by done. by apply sp_find_drop_ne.
    - rewrite bytes_eqb_ne by done. unfold sp_room. case_match eqn:Ec; [|done]. apply andb_true_iff in Ec as [E1 E2]. bool_facts.
      assert (Hn : k ∉ node_key <$> sp_nodes s).
      { intros (n & -> & Hn)%list_elem_of_fmap. by rewrite (sp_find_in _ n) in E. }
      pose proof (bounded_keys _ _ _ ND Hs Hk Hn) as Hl. rewrite length_fmap in Hl. specialize (Hcap ltac:(lia)). lia. }
  subst s'. unfold store_apply. repeat case_match; cbn [fst]; try done;
    (split; [apply P|]; split; [apply P|done]).
Qed.

(** The keys [K], and those stored, fit every shard. *)
Definition fits (K : list bytes) (s : ShardedCache) : Prop :=
  forall i c, shards_ s !! i = Some c -> exists L,
    (0 < capacity_ c -> Z.of_nat (length L) <= capacity_ c) /\
    (forall k, k ∈ node_key <$> (lru_list_ c).*2 -> k ∈ L) /\
    (forall k, k ∈ K -> get_shard_index k s = i -> k ∈ L).

Lemma apply_fits now k v K s :
  sharded_wf s -> fits K s -> k ∈ K ->
  exists s' ch live, ShardedCache_apply now k v s = Some (s', ch, live) /\ sharded_wf s' /\ fits K s' /\
    (ttl_positive v -> vs_view now k s' = ostamp_max (vs_view now k s) (Some (stamp_of_vv v))) /\
    (forall k', k' <> k -> vs_view now k' s' = vs_view now k' s).
Proof.
  intros W Hf Hk. destruct (vs_apply_law (VersionedStoreLaws := ShardedCache_store_laws) now k v s W) as (s' & ch & live & E & W' & Hm & _ & _).
  simpl in E. exists s', ch, live. split; [done|]. split; [done|].
  unfold ShardedCache_apply, with_shard in E. destruct (shards_ s !! get_shard_index k s) as [c|] eqn:Hc; [|done].
  cbn [mbind option_bind] in E. destruct (sw_shard s W _ c Hc) as [[Wc Ht] Pl].
  destruct (apply_correct now k v c Wc) as (c' & Ea & Wc' & Ac). rewrite Ea in E. cbn [mbind option_bind] in E.
  injection E as <- _ _. destruct (Hf _ c Hc) as (L & L1 & L2 & L3).
  destruct (store_apply_fits now k v (cache_abs c) L) as (F1 & F2 & F3); [by apply wf_node_keys|done|by apply L3|done|].
  rewrite <-Ac in F1, F2, F3. split; [|split].
  - intros i d Hd. cbn [shards_] in Hd. apply list_lookup_insert_Some in Hd as [(<- & <- & _)|[Hne Hd]].
    + exists L. split; [intros Hp; change (capacity_ c') with (sp_capacity (cache_abs c')) in *; rewrite F3 in *; by apply L1|].
      split; [exact F2|]. intros k' Hk' Hi. apply L3; [done|]. unfold get_shard_index in *. cbn in Hi. by rewrite length_insert in Hi.
    + destruct (Hf i d Hd) as (L' & M1 & M2 & M3). exists L'. split; [done|]. split; [done|].
      intros k' Hk' Hi. apply M3; [done|]. unfold get_shard_index in *. cbn in Hi. by rewrite length_insert in Hi.
  - intros Hp. by destruct (Hm Hp).
  - intros k' Hne. rewrite sharded_view_insert by done. clear Hm. case_decide as Ek; [|done].
    rewrite (sharded_view now k' s c) by (by rewrite Ek). rewrite !cache_vs_view by done.
    unfold store_view, store_unexpired. by rewrite F1.
Qed.

Lemma restore_stamp now e v : restore_entry now e = Some v -> stamp_of_vv v = stamp_of_vv (se_value e) /\ ttl_positive v.
Proof.
  unfold restore_entry. destruct (_ && _) eqn:E; [done|]. intros [= <-]. split; [done|]. intros ms. cbn.
  destruct (vv_tombstone (se_value e)); [done|]. destruct (0 <=? se_expiry e) eqn:E0; [|done].
  cbn in E. bool_facts. intros [= <-]. lia.
Qed.

Lemma apply_entries_spec now t K entries n s :
  sharded_wf s -> fits K s -> NoDup (se_key <$> entries) -> (forall k, k ∈ se_key <$> entries -> k ∈ K) ->
  exists s' n', apply_entries now t entries n s = Some (s', n') /\ sharded_wf s' /\
    (forall e, e ∈ entries ->
       vs_view t (se_key e) s' = ostamp_max (vs_view t (se_key e) s) (stamp_of_vv <$> restore_entry now e)) /\
    (forall k, k ∉ se_key <$> entries -> vs_view t k s' = vs_view t k s).
Proof.
  revert n s. induction entries as [|e entries IH]; intros n s W Hf ND HK; cbn [apply_entries].
  { exists s, n. split_and!; try done. intros e He. by apply elem_of_nil in He. }
  rewrite fmap_cons in ND. apply NoDup_cons in ND as [He ND].
  assert (HK' : forall k, k ∈ se_key <$> entries -> k ∈ K) by (intros k Hk; apply HK; by right).
  destruct (restore_entry now e) as [v|] eqn:Er; cycle 1.
  { destruct (IH n s W Hf ND HK') as (s' & n' & E & W' & H1 & H2). exists s', n'. split; [done|]. split; [done|]. split.
    - intros e' [->|Hin]%elem_of_cons; [|by apply H1]. rewrite H2, Er by done. cbn [fmap option_fmap option_map]. by destruct (vs_view t (se_key e) s).
    - intros k Hk. rewrite fmap_cons, not_elem_of_cons in Hk. apply H2, Hk. }
  destruct (restore_stamp now e v Er) as [Hst Hp].
  destruct (apply_fits t (se_key e) v K s W Hf ltac:(apply HK; by left)) as (s1 & ch & live & E1 & W1 & F1 & V1 & O1).
  rewrite E1. cbn [mbind option_bind]. destruct (IH (u64 (n + 1)) s1 W1 F1 ND HK') as (s' & n' & E & W' & H1 & H2).
  exists s', n'. split; [done|]. split; [done|]. split.
  - intros e' [->|Hin]%elem_of_cons.
    + rewrite H2, V1, Er by done. done.
    + rewrite H1, O1 by (done || (intros Eq; apply He; rewrite <-Eq; by apply list_elem_of_fmap_2)). done.
  - intros k Hk. rewrite fmap_cons, not_elem_of_cons in Hk. destruct Hk. by rewrite H2, O1.
Qed.

(** An empty cache of the same shape as [s]. *)
Definition fresh_like (s s0 : ShardedCache) : Prop :=
  sharded_wf s0 /\ length (shards_ s0) = length (shards_ s) /\
  forall i c c0, shards_ s !! i = Some c -> shards_ s0 !! i = Some c0 -> capacity_ c0 = capacity_ c /\ lru_list_ c0 = [].

Lemma snapshot_fits clk s s0 :
  sharded_wf s -> fresh_like s s0 -> fits (concat (ShardedCache_snapshots clk s)).*1 s0.
Proof.
  intros W (W0 & HL & HC) i c0 Hc0. destruct (lookup_lt_is_Some_2 (shards_ s) i) as [c Hc].
  { rewrite <-HL. by eapply lookup_lt_Some. }
  destruct (HC i c c0 Hc Hc0) as [Ecap Enil]. destruct (sw_shard s W i c Hc) as [[Wc _] Pl].
  exists (Cache_snapshot (clk i) c []).*1. rewrite Ecap, Enil. split; [|split].
  - intros Hp. pose proof (wf_cap c Wc Hp). unfold Cache_snapshot. rewrite app_nil_l, !length_fmap.
    assert (G : forall (f : nat * Node -> bool) l, (length (List.filter f l) <= length l)%nat).
    { intros f l. induction l as [|x l IH]; cbn; [lia|]. case_match; cbn; lia. }
    pose proof (G (fun p => negb (is_expired (node_entry p.2) (clk i))) (lru_list_ c)). lia.
  - intros k Hk. by apply elem_of_nil in Hk.
  - intros k ([k' v] & -> & Hin)%list_elem_of_fmap Hi. apply sharded_snapshot_elem in Hin as (j & d & Hd & Hin).
    destruct (sw_shard s W j d Hd) as [_ Pd]. pose proof (snapshot_placed _ _ _ _ _ _ Pd Hin) as Ej.
    unfold get_shard_index in Hi. rewrite HL in Hi. cbn [fst] in Hi. rewrite Ej in Hi. subst j. rewrite Hc in Hd. injection Hd as <-.
    by apply (list_elem_of_fmap_2 fst _ (k', v)).
Qed.

Lemma fresh_view s s0 t k : sharded_wf s -> fresh_like s s0 -> vs_view t k s0 = None.
Proof.
  intros W (W0 & HL & HC). destruct (get_shard_index_some k s0 W0) as [c0 Hc0].
  destruct (lookup_lt_is_Some_2 (shards_ s) (get_shard_index k s0)) as [c Hc]; [rewrite <-HL; by eapply lookup_lt_Some|].
  destruct (HC _ c c0 Hc Hc0) as [_ Enil]. rewrite (sharded_view t k s0 c0) by done.
  destruct (sw_shard s0 W0 _ c0 Hc0) as [[Wc0 _] _]. rewrite cache_vs_view by done.
  unfold store_view, store_unexpired, cache_abs. cbn. by rewrite Enil.
Qed.

Lemma tmp_ne (path : bytes) : path ++ lit ".tmp" <> path.
Proof. intros E. apply (f_equal length) in E. rewrite length_app in E. cbn in E. lia. Qed.

(** A failed save leaves the file alone. *)
Lemma save_failed env now clk s path fs fs' err :
  save_snapshot env now clk s path fs = (fs', inr err) -> fs' !! path = fs !! path.
Proof.
  unfold save_snapshot. pose proof (tmp_ne path) as Hne. destruct (sv_open env); cbn [negb]; [|by intros [= <- _]].
  destruct (sv_write env) as [u|partial]; [|by intros [= <- _]; rewrite lookup_insert_ne].
  destruct (sv_rename env); cbn [negb]; [done|]. intros [= <- _]. by rewrite lookup_insert_ne.
Qed.

(** A saved cache is restored. *)
Lemma snapshot_restores now clk s path fs fs' stats now' t s0 :
  let saved := concat (ShardedCache_snapshots clk s) in
  sharded_wf s -> fresh_like s s0 -> Forall (encodable now) saved -> Z.of_nat (length saved) < 2 ^ 64 ->
  save_snapshot (mkSaveEnv true (inl tt) true) now clk s path fs = (fs', inl stats) ->
  exists s' n, load_snapshot now' t path fs' s0 = Some (s', inl (mkStats n (st_bytes stats))) /\ sharded_wf s' /\
    (forall k v, (k, v) ∈ saved ->
       vs_view t k s' = match vv_ttl v with
                        | Some ttl => if (0 <=? now + ttl) && (now + ttl <=? now') then None else Some (stamp_of_vv v)
                        | None => Some (stamp_of_vv v)
                        end) /\
    (forall k, k ∉ saved.*1 -> vs_view t k s' = None).
Proof.
  cbv zeta. set (saved := concat (ShardedCache_snapshots clk s)). intros W Hs F Hc Hsave.
  unfold save_snapshot in Hsave. cbn [sv_open sv_write sv_rename negb] in Hsave. injection Hsave as <- <-. unfold load_snapshot.
  rewrite lookup_insert_eq, decode_encode_snapshot by done. cbn [mbind option_bind]. fold saved.
  assert (Keys : se_key <$> (entry_of now <$> saved) = saved.*1) by (rewrite <-list_fmap_compose; done).
  destruct (apply_entries_spec now' t saved.*1 (entry_of now <$> saved) 0 s0) as (s' & n & E & W' & H1 & H2).
  - apply Hs.
  - by apply snapshot_fits.
  - rewrite Keys. apply (vs_snapshot_nodup (VersionedStoreLaws := ShardedCache_store_laws) clk s W).
  - by rewrite Keys.
  - rewrite E. cbn [mbind option_bind]. exists s', n. split; [done|]. split; [done|]. rewrite Keys in H2. split.
    + intros k v Hin. specialize (H1 (entry_of now (k, v)) ltac:(by apply list_elem_of_fmap_2)). cbn [se_key entry_of fst] in H1.
      rewrite H1, (fresh_view s s0) by done. unfold restore_entry. cbn [se_expiry entry_of snd].
      destruct (vv_ttl v) as [ttl|]; [|done]. by destruct (_ && _).
    + intros k Hk. rewrite H2 by done. by apply (fresh_view s).
Qed.

(** ** Properties *)

(** C19: Snapshots restore what they saved: after a save that reports success, a
    restart that loads the file into an empty cache of the same shape ends with
    exactly the entries that were saved and whose deadline has not passed in
    wall time, each with its value, version and tombstone flag; nothing is
    evicted and nothing else appears. *)
Theorem snapshot_roundtrip now clk s path fs fs' stats now' t s0 :
  let saved := concat (ShardedCache_snapshots clk s) in
  sharded_wf s -> fresh_like s s0 -> Forall (encodable now) saved -> Z.of_nat (length saved) < 2 ^ 64 ->
  save_snapshot (mkSaveEnv true (inl tt) true) now clk s path fs = (fs', inl stats) ->
  exists s' n, load_snapshot now' t path fs' s0 = Some (s', inl (mkStats n (st_bytes stats))) /\ sharded_wf s' /\
    (forall k v, (k, v) ∈ saved ->
       vs_view t k s' = match vv_ttl v with
                        | Some ttl => if (0 <=? now + ttl) && (now + ttl <=? now') then None else Some (stamp_of_vv v)
                        | None => Some (stamp_of_vv v)
                        end) /\
    (forall k, k ∉ saved.*1 -> vs_view t k s' = None).
Proof. apply snapshot_restores. Qed.

(** C20: A damaged snapshot is rejected whole: if any one byte of a saved file is
    changed, loading reports an error and leaves the cache as it was. *)
Theorem snapshot_rejects_damage now batches p a b q now' t path fs s :
  encode_snapshot now batches = p ++ a :: q -> a <> b -> fs !! path = Some (p ++ b :: q) ->
  exists e, load_snapshot now' t path fs s = Some (s, inr e).
Proof.
  intros Eb Hab Hfs.
  unfold load_snapshot. rewrite Hfs. destruct (decode_snapshot_total (p ++ b :: q)) as [d Ed]. rewrite Ed. cbn [mbind option_bind].
  destruct d as [entries|e]; [|eauto]. exfalso. unfold decode_snapshot in Ed. case_match eqn:E1; [done|].
  case_match eqn:E2; [done|]. clear Ed. apply negb_false_iff, Z.eqb_eq in E2.
  unfold encode_snapshot in Eb. set (body := kMagic ++ _ ++ _) in Eb.
  destruct (snapshot_body body (checksum body)) as (T & D & L). cbv zeta in T, D, L. rewrite Eb in T, D, L.
  assert (Ln : length (p ++ b :: q) = length (p ++ a :: q)) by (rewrite !length_app; done). rewrite Ln, L, Nat.add_sub in E2.
  rewrite L, Nat.add_sub in T, D. destruct (decide (length p < length body)%nat) as [Hp|Hp].
  - (* the byte is in the body *)
    rewrite take_app_ge in T by lia. rewrite drop_app_ge in D by lia.
    destruct (length body - length p)%nat as [|m] eqn:Em; [lia|]. cbn [take drop] in T, D.
    rewrite take_app_ge, drop_app_ge, Em in E2 by lia. cbn [take drop] in E2. rewrite D, le_value_bytes in E2.
    change (8 * Z.of_nat 8) with 64 in E2. rewrite Z.mod_small in E2 by (apply checksum_range; lia).
    rewrite <-T in E2. by apply (checksum_one_byte p b a (take m q)) in E2.
  - (* the byte is in the stored checksum *)
    rewrite take_app_le in T by lia. rewrite drop_app_le in D by lia.
    rewrite take_app_le, drop_app_le, T in E2 by lia. apply (f_equal le_value) in D as D'.
    rewrite le_value_bytes in D'. change (8 * Z.of_nat 8) with 64 in D'. rewrite Z.mod_small in D' by (apply checksum_range; lia).
    rewrite <-D' in E2. unfold le_value in E2. rewrite !foldr_app in E2. cbn [foldr] in E2.
    assert (G : forall (l : bytes) x y, foldr (fun c acc => uchar c + 256 * acc) x l = foldr (fun c acc => uchar c + 256 * acc) y l -> x = y).
    { induction l as [|c l IH]; intros x y H; [done|]. cbn in H. apply IH. lia. }
    apply G in E2. apply Hab, (inj uchar). lia.
Qed.

(** A crash or a failure while saving never tears the snapshot: whatever file
    operation fails, the file is what it was before; and when the save reports
    success it is the complete new snapshot. *)
Theorem snapshot_save_atomic env now clk s path fs :
  let '(fs', r) := save_snapshot env now clk s path fs in
  match r with
  | inr _ => fs' !! path = fs !! path
  | inl stats =>
      fs' !! path = Some (encode_snapshot now (ShardedCache_snapshots clk s)) /\
      fs' !! (path ++ lit ".tmp") = None
  end.
Proof.
  unfold save_snapshot. pose proof (tmp_ne path) as Hne. destruct (sv_open env); cbn [negb]; [|done].
  destruct (sv_write env) as [u|partial]; [|by rewrite lookup_insert_ne].
  destruct (sv_rename env); cbn [negb]; [|by rewrite lookup_insert_ne].
  rewrite lookup_insert_eq, lookup_insert_ne, lookup_delete_eq by done. done.
Qed.

(** ** The theorems at concrete inputs *)

Definition snap_value : VersionedValue := mkVV (lit "1") 7 false (Some 500).

Definition snap_cache : ShardedCache :=
  match ShardedCache_apply 10 (lit "a") snap_value small_sharded with
  | Some (s, _, _) => s
  | None => small_sharded
  end.

Lemma snap_cache_wf : sharded_wf snap_cache.
Proof.
  unfold snap_cache.
  destruct (vs_apply_law (VersionedStoreLaws := ShardedCache_store_laws) 10 (lit "a") snap_value small_sharded)
    as (s' & ch & live & E & W & _); [apply sharded_new_wf; lia|].
  change (vs_apply (S := ShardedCache)) with ShardedCache_apply in E. rewrite E. exact W.
Qed.

Lemma snapshot_roundtrip_witness :
  exists fs' stats s' n,
    save_snapshot (mkSaveEnv true (inl tt) true) 1000 (fun _ => 20) snap_cache (lit "f") ∅ = (fs', inl stats) /\
    load_snapshot 1100 30 (lit "f") fs' small_sharded = Some (s', inl (mkStats n (st_bytes stats))) /\
    vs_view 30 (lit "a") s' = Some (stamp_of_vv snap_value) /\ vs_view 30 (lit "b") s' = None.
Proof.
  assert (Ev : concat (ShardedCache_snapshots (fun _ => 20) snap_cache) = [(lit "a", mkVV (lit "1") 7 false (Some 499))])
    by (vm_compute; reflexivity).
  assert (Es : exists fs' stats,
    save_snapshot (mkSaveEnv true (inl tt) true) 1000 (fun _ => 20) snap_cache (lit "f") ∅ = (fs', inl stats)).
  { unfold save_snapshot. cbn [sv_open sv_write sv_rename negb]. eexists _, _. reflexivity. }
  destruct Es as (fs' & stats & Es).
  destruct (snapshot_roundtrip 1000 (fun _ => 20) snap_cache (lit "f") ∅ fs' stats 1100 30 small_sharded)
    as (s' & n & E & _ & H1 & H2).
  - exact snap_cache_wf.
  - split; [apply sharded_new_wf; lia|]. split; [vm_compute; reflexivity|].
    intros [|[|i]] c c0 Hc Hc0; [..|discriminate Hc0];
      apply (inj Some) in Hc as <-; apply (inj Some) in Hc0 as <-; split; vm_compute; reflexivity.
  - rewrite Ev. apply Forall_singleton. unfold encodable.
    cbn [fst snd vv_value vv_version vv_ttl length lit String.list_ascii_of_string]. split_and!; [lia..|].
    intros ttl Et. apply (inj Some) in Et as <-. lia.
  - rewrite Ev. vm_compute. reflexivity.
  - exact Es.
  - exists fs', stats, s', n. split; [exact Es|]. split; [exact E|]. rewrite Ev in H1, H2. split.
    + rewrite (H1 _ (mkVV (lit "1") 7 false (Some 499))) by (by apply list_elem_of_singleton). reflexivity.
    + apply H2. cbn [fmap list_fmap fst]. rewrite list_elem_of_singleton. intros [=].
Defined.

Definition snap_buf : bytes := encode_snapshot 1000 [[(lit "a", snap_value)]].

Lemma snapshot_rejects_damage_witness :
  exists e, load_snapshot 1100 30 (lit "f") {[lit "f" := take 30 snap_buf ++ "!"%char :: drop 31 snap_buf]} small_sharded
    = Some (small_sharded, inr e).
Proof.
  apply (snapshot_rejects_damage 1000 [[(lit "a", snap_value)]] (take 30 snap_buf)
           (default "!"%char (snap_buf !! 30%nat)) "!"%char (drop 31 snap_buf)).
  - vm_compute. reflexivity.
  - vm_compute. intros [=].
  - by rewrite lookup_singleton_eq.
Defined.
