(* ===== verification/Startup.v ===== *)
(** * Starting a node

    Models src/main.cpp up to serving: the environment variables and arguments,
    the peers and seeds they name, the cluster the node starts with, and the
    snapshot it restores; and the constructor of [Cluster].  The environment is
    a function from names to values.  [None] is undefined behaviour, a number
    [std::atoi] cannot represent.

    The theorems say that a set of nodes started with each other's addresses
    agree on where every key lives, and that without quorum settings their
    quorums overlap: such a cluster is one the linearizability theorem is
    about. *)

From S2P Require Import Prelude Numerals CacheEntry Cache VersionedStore ShardedCache HybridClock ConsistentHash RoutingTable HealthChecker Membership Resp Cluster ClusterLemmas Register CommandHandler Snapshot.

Local Open Scope Z_scope.

(** ** The standard library *)

Definition Environment := bytes -> option bytes.

(** [std::atoi]. *)
Definition atoi (s : bytes) : option Z :=
  match strto s with
  | None => Some 0
  | Some _ => stoi s
  end.

(** [std::getline]: up to the delimiter, which is taken off; [None] at the end of
    the input. *)
Fixpoint split_line (d : ascii) (s : bytes) : bytes * bytes :=
  match s with
  | [] => ([], [])
  | c :: s' => if Ascii.eqb c d then ([], s') else let '(line, rest) := split_line d s' in (c :: line, rest)
  end.

Definition getline (d : ascii) (s : bytes) : option (bytes * bytes) :=
  match s with [] => None | _ => Some (split_line d s) end.

(** [while (getline(...))]; a line is shorter than the input it was taken
    from. *)
Fixpoint getlines (fuel : nat) (d : ascii) (s : bytes) : list bytes :=
  match fuel with
  | O => []
  | S fuel' =>
      match getline d s with
      | None => []
      | Some (line, rest) => line :: getlines fuel' d rest
      end
  end.

(** [std::string::rfind] of one character: what is before and after it. *)
Fixpoint rsplit (d : ascii) (s : bytes) : option (bytes * bytes) :=
  match s with
  | [] => None
  | c :: s' =>
      match rsplit d s' with
      | Some (a, b) => Some (c :: a, b)
      | None => if Ascii.eqb c d then Some ([], s') else None
      end
  end.

(** ** The constructor of [Cluster] *)

(** The fields of [ClusterConfig] the program sets, and the defaults of those it
    does not. *)
Record Settings := mkSettings {
  set_replication_factor : Z;
  set_read_quorum : Z;
  set_write_quorum : Z;
  set_cache_capacity : Z;
  set_consistency : Consistency
}.

Definition default_tombstone_ttl : Z := 60000.
Definition default_max_hints : nat := Z.to_nat 100000.

Definition Cluster_new (local : CacheNode) (cfg : Settings) (boot_ms : Z) : Server :=
  mkCluster
    (mkConfig (Z.to_nat (set_read_quorum cfg)) (Z.to_nat (set_write_quorum cfg)) default_max_hints (set_consistency cfg))
    (Membership_init local (Z.to_nat (set_replication_factor cfg)) boot_ms)
    0 (ShardedCache_new (set_cache_capacity cfg) 16 default_tombstone_ttl) ∅ (mkCounters 0 0 0 0 0 0) [].

(** ** [main] *)

Definition env_string (env : Environment) (name : bytes) (fallback : bytes) : bytes := default fallback (env name).

(** [if (const char* env = getenv(name)) x = f(atoi(env))]. *)
Definition env_int (env : Environment) (name : bytes) (f : Z -> Z) (fallback : Z) : option Z :=
  match env name with
  | Some v => f <$> atoi v
  | None => Some fallback
  end.

(** [env_size]. *)
Definition env_size (env : Environment) (name : bytes) (fallback : Z) : option Z := env_int env name (Z.max 0) fallback.

(** The node's own address and its peers: environment first, then arguments. *)
Definition main_identity (env : Environment) (argv : list bytes) : option (CacheNode * bytes) :=
  let node_id := env_string env (lit "NODE_ID") (lit "nodeA") in
  port ← env_int env (lit "PORT") u16 7001;
  let host := env_string env (lit "ADVERTISE_HOST") (lit "127.0.0.1") in
  let peers := env_string env (lit "CLUSTER_PEERS") [] in
  port ← match argv !! 1%nat with Some a => u16 <$> atoi a | None => Some port end;
  let node_id := default node_id (argv !! 2%nat) in
  let peers := default peers (argv !! 3%nat) in
  Some (mkCN node_id host port, peers).

(** The configuration; [Some None] is exit status 1. *)
Definition main_settings (env : Environment) : option (option Settings) :=
  rf ← env_size env (lit "REPLICATION_FACTOR") 3;
  r ← env_size env (lit "READ_QUORUM") 0;
  w ← env_size env (lit "WRITE_QUORUM") 0;
  capacity ← env_size env (lit "CACHE_CAPACITY") 1000000;
  let cfg := mkSettings (Z.max 1 rf) r w capacity in
  Some match env (lit "CONSISTENCY") with
       | None => Some (cfg Quorum)
       | Some m =>
           if bytes_eqb m (lit "linearizable") then Some (cfg Linearizable)
           else if negb (bytes_eqb m (lit "quorum")) then None
           else Some (cfg Quorum)
       end.

(** One item of CLUSTER_PEERS; [Some None] if it is not "id:host:port". *)
Definition parse_peer (item : bytes) : option (option CacheNode) :=
  match getline ":" item with
  | None => Some None
  | Some (id, r) =>
      match getline ":" r with
      | None => Some None
      | Some (host, r) =>
          match getline LF r with
          | None => Some None
          | Some (port, _) => (fun p => Some (mkCN id host (u16 p))) <$> atoi port
          end
      end
  end.

Fixpoint add_peers (node_id : bytes) (items : list bytes) (m : Membership) : option Membership :=
  match items with
  | [] => Some m
  | item :: rest =>
      p ← parse_peer item;
      add_peers node_id rest
        match p with
        | Some node => if bytes_eqb (cn_id node) node_id then m else Cluster_add_node node m
        | None => m
        end
  end.

(** The items of SEEDS. *)
Fixpoint add_seeds (items : list bytes) (m : Membership) : option Membership :=
  match items with
  | [] => Some m
  | seed :: rest =>
      match rsplit ":" seed with
      | None => add_seeds rest m
      | Some (host, port) => p ← atoi port; add_seeds rest (Cluster_add_seed host (u16 p) m)
      end
  end.

(** A node about to serve. *)
Record RunningNode := mkRunningNode {
  nd_cluster : Server;
  nd_io_threads : Z;
  nd_rpc_threads : Z;
  nd_snapshot_path : bytes;
  nd_snapshot_interval : Z;
  nd_metrics_port : option Z
}.

(** [boot_ms] and [now] are readings of the wall clock, [t] of the steady one,
    and [cores] what [hardware_concurrency] tells. *)
Definition main_start (env : Environment) (argv : list bytes) (cores boot_ms now t : Z) (fs : Files)
    : option (option RunningNode) :=
  '(local, peers) ← main_identity env argv;
  io_threads ← env_int env (lit "IO_THREADS") (Z.max 1) (Z.max 1 cores);
  rpc_threads ← env_int env (lit "RPC_THREADS") (Z.max 1) 64;
  settings ← main_settings env;
  match settings with
  | None => Some None
  | Some cfg =>
      let c := Cluster_new local cfg boot_ms in
      m ← add_peers (cn_id local) (getlines (length peers) "," peers) (cl_mem c);
      m ← match env (lit "SEEDS") with
          | None => Some m
          | Some seeds => add_seeds (getlines (length seeds) "," seeds) m
          end;
      let c := set_mem m c in
      let path := env_string env (lit "SNAPSHOT_PATH") [] in
      interval ← env_int env (lit "SNAPSHOT_INTERVAL_SEC") (Z.max 1) 60;
      cache ← match path with
              | [] => Some (cl_cache c)
              | _ => fst <$> load_snapshot now t path fs (cl_cache c)
              end;
      metrics ← env_int env (lit "METRICS_PORT") id (cn_port local + 2000);
      Some (Some (mkRunningNode (set_cache cache c) io_threads rpc_threads path interval
                    (if (0 <? metrics) && (metrics <? 65536) then Some metrics else None)))
  end.

(** ** Reading what was written *)

Fixpoint join (d : ascii) (items : list bytes) : bytes :=
  match items with
  | [] => []
  | [x] => x
  | x :: rest => x ++ d :: join d rest
  end.

Lemma split_line_at d x rest : d ∉ x -> split_line d (x ++ d :: rest) = (x, rest).
Proof.
  induction x as [|c x IH]; intros H; cbn; [by rewrite Ascii.eqb_refl|]. rewrite not_elem_of_cons in H. destruct H as [Hc Hx].
  destruct (Ascii.eqb_spec c d) as [->|_]; [done|]. by rewrite IH.
Qed.

Lemma split_line_end d x : d ∉ x -> split_line d x = (x, []).
Proof.
  induction x as [|c x IH]; intros H; cbn; [done|]. rewrite not_elem_of_cons in H. destruct H as [Hc Hx].
  destruct (Ascii.eqb_spec c d) as [->|_]; [done|]. by rewrite IH.
Qed.

Lemma getline_at d x rest : d ∉ x -> getline d (x ++ d :: rest) = Some (x, rest).
Proof. intros H. unfold getline. rewrite split_line_at by done. by destruct x. Qed.

Lemma getline_end d x : x <> [] -> d ∉ x -> getline d x = Some (x, []).
Proof. intros Hx H. unfold getline. rewrite split_line_end by done. by destruct x. Qed.

Lemma getlines_join d items fuel :
  Forall (fun x => x <> [] /\ d ∉ x) items -> (length (join d items) <= fuel)%nat -> getlines fuel d (join d items) = items.
Proof.
  intros HF. revert fuel. induction HF as [|x items [Hx Hd] HF IH]; intros fuel Hl; [by destruct fuel|].
  destruct fuel as [|fuel]; [destruct x, items; [done|done|cbn in Hl; lia..]|]. cbn [getlines].
  destruct items as [|y items].
  - cbn [join]. rewrite getline_end by done. f_equal. by destruct fuel.
  - change (join d (x :: y :: items)) with (x ++ d :: join d (y :: items)) in *. rewrite getline_at by done.
    f_equal. apply IH. rewrite length_app in Hl. cbn [length] in Hl. lia.
Qed.

Lemma atoi_to_dec n : 0 <= n < 2 ^ 31 -> atoi (to_dec n) = Some n.
Proof. intros H. unfold atoi. rewrite strto_to_dec by lia. by apply stoi_to_dec. Qed.

(** An address that can be written as "id:host:port". *)
Definition writable_address (n : CacheNode) : Prop :=
  ":"%char ∉ cn_id n /\ ":"%char ∉ cn_host n /\ ","%char ∉ cn_id n /\ ","%char ∉ cn_host n /\ 0 <= cn_port n < 65536.

Definition peer_item (n : CacheNode) : bytes := cn_id n ++ ":"%char :: cn_host n ++ ":"%char :: to_dec (cn_port n).

Definition peers_string (nodes : list CacheNode) : bytes := join "," (peer_item <$> nodes).

Lemma to_dec_not_in n c : numeral_char c = false -> c ∉ to_dec n.
Proof.
  intros H Hin. pose proof (to_dec_chars n) as Hc. rewrite forallb_forall in Hc. apply list_elem_of_In, Hc in Hin. congruence.
Qed.

Lemma parse_peer_item n : writable_address n -> parse_peer (peer_item n) = Some (Some n).
Proof.
  intros (H1 & H2 & _ & _ & Hp). unfold parse_peer, peer_item. rewrite getline_at by done. rewrite getline_at by done.
  rewrite getline_end; [|apply to_dec_nonempty|by apply to_dec_not_in]. rewrite atoi_to_dec by lia.
  cbn [fmap option_fmap option_map]. rewrite wrap_small by lia. by destruct n.
Qed.

Lemma peer_item_ok n : writable_address n -> peer_item n <> [] /\ ","%char ∉ peer_item n.
Proof.
  intros (_ & _ & H1 & H2 & _). unfold peer_item. split; [by destruct (cn_id n)|].
  rewrite elem_of_app, elem_of_cons, elem_of_app, elem_of_cons. intros [?|[?|[?|[?|Hin]]]]; [done..|].
  by apply to_dec_not_in in Hin.
Qed.

(** The members after the peers have been registered. *)
Definition with_peers (me : bytes) (nodes : list CacheNode) (m : Membership) : Membership :=
  foldl (fun m n => if bytes_eqb (cn_id n) me then m else Cluster_add_node n m) m nodes.

Lemma add_peers_items me nodes m :
  Forall writable_address nodes -> add_peers me (peer_item <$> nodes) m = Some (with_peers me nodes m).
Proof.
  intros HF. revert m. induction HF as [|n nodes Hn HF IH]; intros m; [done|]. cbn [fmap list_fmap add_peers].
  rewrite parse_peer_item by done. cbn [mbind option_bind]. by rewrite IH.
Qed.

Lemma add_peers_string me nodes m :
  Forall writable_address nodes ->
  add_peers me (getlines (length (peers_string nodes)) "," (peers_string nodes)) m = Some (with_peers me nodes m).
Proof.
  intros HF. unfold peers_string. rewrite getlines_join; [by apply add_peers_items| |lia].
  apply Forall_fmap. eapply Forall_impl; [exact HF|]. apply peer_item_ok.
Qed.

(** ** The members of a started cluster *)

Lemma add_node_new n s :
  members_ s !! cn_id n = None -> nodes_ s !! cn_id n = None ->
  nodes_ (Cluster_add_node n s) = <[cn_id n := n]> (nodes_ s) /\
  members_ (Cluster_add_node n s) = <[cn_id n := mkMI n 0 Alive]> (members_ s).
Proof.
  intros Hm Hn. unfold Cluster_add_node, Cluster_merge_gossip, apply_members. cbn [foldl]. unfold apply_member_locked.
  cbn [mc_state mi_node]. rewrite Hm. unfold accept_member. cbn [mc_state mi_node mi_status]. rewrite Hn.
  rewrite (bool_decide_eq_true_2 (Alive = Alive)) by done. rewrite bool_decide_eq_false_2 by (by intros [? ?]). done.
Qed.

Definition pairs (nodes : list CacheNode) : list (bytes * CacheNode) := (fun n => (cn_id n, n)) <$> nodes.

Definition others (me : bytes) (nodes : list CacheNode) : list CacheNode :=
  List.filter (fun n => negb (bytes_eqb (cn_id n) me)) nodes.

Lemma others_elem me nodes n : n ∈ others me nodes <-> n ∈ nodes /\ cn_id n <> me.
Proof.
  unfold others. rewrite !list_elem_of_In, List.filter_In, negb_true_iff. split; intros [? Hn]; (split; [done|]).
  - intros E. by rewrite E, bytes_eqb_refl in Hn.
  - by apply bytes_eqb_ne.
Qed.

Lemma with_peers_run me nodes m : with_peers me nodes m = foldl Membership_exec m (MAdd <$> others me nodes).
Proof.
  revert m. induction nodes as [|n nodes IH]; intros m; [done|]. unfold with_peers, others in *. cbn.
  destruct (bytes_eqb (cn_id n) me); cbn; apply IH.
Qed.

Lemma add_all_nodes (l : list CacheNode) s :
  NoDup (cn_id <$> l) -> (forall n, n ∈ l -> members_ s !! cn_id n = None /\ nodes_ s !! cn_id n = None) ->
  let s' := foldl Membership_exec s (MAdd <$> l) in
  (forall id n, nodes_ s' !! id = Some n <-> n ∈ l /\ cn_id n = id \/ nodes_ s !! id = Some n) /\
  dom (members_ s') = list_to_set (cn_id <$> l) ∪ dom (members_ s).
Proof.
  revert s. induction l as [|n l IH]; intros s ND Hf; [cbn; split; [intros id n; rewrite elem_of_nil; tauto|set_solver]|].
  rewrite fmap_cons in ND. apply NoDup_cons in ND as [Hn ND]. destruct (Hf n) as [Hm Hk]; [by left|].
  destruct (add_node_new n s Hm Hk) as [En Em]. cbn [foldl fmap list_fmap Membership_exec].
  assert (Hne : forall n', n' ∈ l -> cn_id n <> cn_id n') by (intros n' Hin E; apply Hn; rewrite E; by apply list_elem_of_fmap_2).
  destruct (IH (Cluster_add_node n s) ND) as [H1 H2].
  { intros n' Hn'. rewrite En, Em, !lookup_insert_ne by (by apply Hne). apply Hf. by right. }
  split.
  - intros id n'. rewrite H1, En, lookup_insert_Some, elem_of_cons. split.
    + intros [[? ?]|[[<- <-]|[? ?]]]; auto.
    + intros [[[->|?] <-]|Hs]; [auto|auto|]. right; right. split; [|done]. intros <-. congruence.
  - rewrite H2, Em, dom_insert_L. cbn. set_solver.
Qed.

Section started.
Variables (nodes : list CacheNode) (rf : nat).
Hypotheses (nodes_ids : NoDup (cn_id <$> nodes)) (nodes_many : Z.of_nat (length nodes) <= 65536).
Hypothesis nodes_apart : disjoint_vnodes 256 (list_to_set (cn_id <$> nodes)).

(** The membership of node [me], booted at [boot]. *)
Definition started (me : CacheNode) (boot : Z) : Membership := with_peers (cn_id me) nodes (Membership_init me rf boot).

Lemma started_run me boot : started me boot = Membership_run me rf boot (MAdd <$> others (cn_id me) nodes).
Proof using Type. apply with_peers_run. Qed.

Lemma started_ok me boot :
  mem_wf (started me boot) /\ routing_in_sync (started me boot) /\ local_node_ (started me boot) = me /\
  replication_factor (started me boot) = rf.
Proof using Type.
  rewrite started_run. destruct (Membership_run_ok me rf boot (MAdd <$> others (cn_id me) nodes)) as (W & E1 & E2 & Hs).
  split_and!; try done. apply Hs. intros id Hin. by apply list_elem_of_fmap in Hin as (? & ? & _).
Qed.

Lemma started_nodes me boot :
  me ∈ nodes ->
  (forall id n, nodes_ (started me boot) !! id = Some n <-> n ∈ nodes /\ cn_id n = id) /\
  dom (members_ (started me boot)) = list_to_set (cn_id <$> nodes).
Proof using nodes_ids.
  intros Hme. rewrite started_run. unfold Membership_run.
  destruct (add_all_nodes (others (cn_id me) nodes) (Membership_init me rf boot)) as [H1 H2].
  - clear - nodes_ids. induction nodes as [|n l IH]; [constructor|]. rewrite fmap_cons in nodes_ids. apply NoDup_cons in nodes_ids as [Hn ND].
    unfold others in *. cbn. destruct (bytes_eqb (cn_id n) (cn_id me)); cbn; [by apply IH|]. constructor; [|by apply IH].
    intros Hin. apply Hn. apply list_elem_of_fmap in Hin as (n' & -> & Hin). apply list_elem_of_In, List.filter_In in Hin as [Hin _].
    apply list_elem_of_fmap_2. by apply list_elem_of_In.
  - intros n Hn. apply others_elem in Hn as [_ Hn]. cbn. by rewrite !lookup_singleton_ne.
  - split.
    + intros id n. rewrite H1, others_elem. cbn. rewrite lookup_singleton_Some. split.
      * intros [[[? ?] ?]|[<- <-]]; done.
      * intros [Hn <-]. destruct (decide (cn_id n = cn_id me)) as [E|Hne]; [right|by left]. split; [done|].
        apply list_elem_of_lookup in Hme as [i Hi], Hn as [j Hj].
        assert (i = j) as ->; [|congruence].
        eapply (NoDup_lookup (cn_id <$> nodes)); [done|by rewrite list_lookup_fmap, Hi|by rewrite list_lookup_fmap, Hj; cbn; rewrite E].
    + rewrite H2. cbn. rewrite dom_singleton_L. apply set_eq. intros id. rewrite elem_of_union, elem_of_singleton, !elem_of_list_to_set, !list_elem_of_fmap.
      split.
      * intros [(n & -> & Hn)| ->]; [|by exists me]. apply others_elem in Hn as [? _]. by exists n.
      * intros (n & -> & Hn). destruct (decide (cn_id n = cn_id me)) as [E|Hne]; [by right|]. left. exists n. split; [done|].
        by apply others_elem.
Qed.

Lemma started_size me boot : me ∈ nodes -> Z.of_nat (size (nodes_ (started me boot))) <= 65536.
Proof using nodes_ids nodes_many.
  intros Hme. destruct (started_nodes me boot Hme) as [N _]. rewrite <-size_dom.
  assert (dom (nodes_ (started me boot)) ⊆ (list_to_set (cn_id <$> nodes) : gset bytes)) as Hs%subseteq_size.
  { intros id Hid. apply elem_of_dom in Hid as [n Hn]. apply N in Hn as [Hn <-]. apply elem_of_list_to_set, list_elem_of_fmap. by exists n. }
  rewrite size_list_to_set, length_fmap in Hs by done. lia.
Qed.

(** All nodes route every key alike. *)
Lemma started_targets me boot me' boot' key :
  me ∈ nodes -> me' ∈ nodes ->
  Cluster_preference_list key (started me boot) = Cluster_preference_list key (started me' boot').
Proof using nodes_ids nodes_many nodes_apart.
  intros H1 H2. destruct (started_ok me boot) as (W1 & Y1 & _ & R1). destruct (started_ok me' boot') as (W2 & Y2 & _ & R2).
  destruct (started_nodes me boot H1) as [N1 D1]. destruct (started_nodes me' boot' H2) as [N2 D2].
  apply same_members_same_routing; try done.
  - congruence.
  - apply map_eq. intros id. destruct (nodes_ (started me boot) !! id) as [n|] eqn:E.
    + apply N1, N2 in E. done.
    + destruct (nodes_ (started me' boot') !! id) as [n|] eqn:E'; [|done]. apply N2, N1 in E'. congruence.
  - apply started_size, H1.
  - rewrite D1, D2. by rewrite union_idemp_L.
Qed.

Lemma started_ring me boot key :
  me ∈ nodes -> (0 < rf)%nat ->
  exists T, Cluster_preference_list key (started me boot) = Some T /\ NoDup (cn_id <$> T) /\ T <> [] /\ (length T <= rf)%nat.
Proof using nodes_ids nodes_many nodes_apart.
  intros Hme Hrf. destruct (started_ok me boot) as (W & Y & _ & R). destruct (started_nodes me boot Hme) as [N D].
  destruct (mw_ring _ W) as (ops & Er & Fo). pose proof (Ring_run_wf 256 ops) as Wr. rewrite <-Er in Wr.
  pose proof (point_owners_nodes _ W) as Hp. pose proof (started_size me boot Hme) as Hz.
  assert (Hrow : routing_ok (started me boot)).
  { exists (mb_ring_ (started me boot)). split; [done|]. split; [lia|]. exact Y. }
  destruct (targets_exist key _ Hrow) as (T & ET & ND & HT). exists T. rewrite R in HT.
  split; [done|]. split; [done|]. split; [|done]. intros ->. unfold Cluster_preference_list in ET. rewrite Y, R in ET.
  destruct (routing_table_correct (mb_ring_ (started me boot)) rf (local_id (started me boot)) key Wr) as [E _]; [lia|].
  rewrite E in ET. injection ET as ET. rewrite locate_replicas_walk in ET by eauto with shard. fold (successors key (mb_ring_ (started me boot))) in ET.
  apply (f_equal length) in ET. rewrite length_take, successors_size in ET. cbn in ET.
  destruct (Ring_run_complete 256 (list_to_set (cn_id <$> nodes)) ops nodes_apart) as [C _].
  { eapply Forall_impl; [exact Fo|]. cbn. by rewrite D. }
  rewrite <-Er in C. assert (Hme' : physical_nodes_ (mb_ring_ (started me boot)) !! cn_id me = Some me) by (rewrite (mw_phys _ W); by apply N).
  assert (Hv : is_vnode (num_vnodes_ (mb_ring_ (started me boot))) (cn_id me) (vnode_hash (cn_id me) 0)).
  { apply is_vnode_elem, list_elem_of_fmap_2. rewrite Er, Ring_run_vnodes. apply elem_of_seq. lia. }
  pose proof (C _ _ _ Hme' Hv) as Hin.
  assert (Ho : cn_id me ∈ point_owners (mb_ring_ (started me boot))).
  { unfold point_owners. apply elem_of_list_to_set, list_elem_of_fmap. by eexists (_, me). }
  assert (size (point_owners (mb_ring_ (started me boot))) <> 0%nat); [|lia].
  intros Hs. apply size_empty_inv in Hs. by apply (Hs (cn_id me)) in Ho.
Qed.
End started.

(** The quorums used when none are configured overlap. *)
Lemma majority_overlaps rf n :
  (0 < n <= rf)%nat -> (n < effective_quorum rf 0 n + effective_quorum rf 0 n)%nat /\ (effective_quorum rf 0 n <= n)%nat.
Proof.
  intros H. unfold effective_quorum. cbn [Nat.eqb]. pose proof (Nat.div_mod rf 2 ltac:(lia)).
  pose proof (Nat.mod_upper_bound rf 2 ltac:(lia)). lia.
Qed.

(** ** A cluster of started nodes *)

(** The environment of node [me] of a cluster with static peers: everyone's
    address, the replication factor, linearizable mode, and no quorum
    settings. *)
Record cluster_env (nodes : list CacheNode) (rf : nat) (me : CacheNode) (env : Environment) : Prop := {
  ce_id : env (lit "NODE_ID") = Some (cn_id me);
  ce_port : env (lit "PORT") = Some (to_dec (cn_port me));
  ce_host : env (lit "ADVERTISE_HOST") = Some (cn_host me);
  ce_peers : env (lit "CLUSTER_PEERS") = Some (peers_string nodes);
  ce_rf : env (lit "REPLICATION_FACTOR") = Some (to_dec (Z.of_nat rf));
  ce_read : env (lit "READ_QUORUM") = None;
  ce_write : env (lit "WRITE_QUORUM") = None;
  ce_mode : env (lit "CONSISTENCY") = Some (lit "linearizable");
  ce_seeds : env (lit "SEEDS") = None;
  ce_snapshot : env (lit "SNAPSHOT_PATH") = None;
  ce_numbers : forall name v,
    name ∈ [lit "IO_THREADS"; lit "RPC_THREADS"; lit "CACHE_CAPACITY"; lit "SNAPSHOT_INTERVAL_SEC"; lit "METRICS_PORT"] ->
    env name = Some v -> is_Some (atoi v)
}.

Lemma env_int_some env name f fallback :
  (forall v, env name = Some v -> is_Some (atoi v)) -> exists n, env_int env name f fallback = Some n /\ (n = fallback \/ exists m, n = f m).
Proof.
  intros H. unfold env_int. destruct (env name) as [v|]; [|eauto]. destruct (H v eq_refl) as [n ->]. cbn. eauto.
Qed.

(** What [main] makes of an identity with peers and of settings, without seeds and
    snapshots. *)
Lemma start_members nodes me cfg env argv cores boot now t fs :
  main_identity env argv = Some (me, peers_string nodes) -> main_settings env = Some (Some cfg) -> Forall writable_address nodes ->
  env (lit "SEEDS") = None -> env (lit "SNAPSHOT_PATH") = None ->
  (forall name v, name ∈ [lit "IO_THREADS"; lit "RPC_THREADS"; lit "SNAPSHOT_INTERVAL_SEC"; lit "METRICS_PORT"] -> env name = Some v -> is_Some (atoi v)) ->
  exists nd, main_start env argv cores boot now t fs = Some (Some nd) /\
    nd_cluster nd = set_mem (started nodes (Z.to_nat (set_replication_factor cfg)) me boot) (Cluster_new me cfg boot).
Proof.
  intros Ei Es Hok Eseeds Epath Hn.
  assert (N : forall name f fb, name ∈ [lit "IO_THREADS"; lit "RPC_THREADS"; lit "SNAPSHOT_INTERVAL_SEC"; lit "METRICS_PORT"] ->
    exists n, env_int env name f fb = Some n /\ (n = fb \/ exists m, n = f m)).
  { intros name f fb Hin. apply env_int_some. intros v. by apply Hn. }
  destruct (N (lit "IO_THREADS") (Z.max 1) (Z.max 1 cores)) as (io & Eio & _); [set_solver|].
  destruct (N (lit "RPC_THREADS") (Z.max 1) 64) as (rpc & Erpc & _); [set_solver|].
  destruct (N (lit "SNAPSHOT_INTERVAL_SEC") (Z.max 1) 60) as (iv & Eiv & _); [set_solver|].
  destruct (N (lit "METRICS_PORT") id (cn_port me + 2000)) as (mp & Emp & _); [set_solver|].
  unfold main_start. rewrite Ei. cbn [mbind option_bind]. rewrite Eio, Erpc, Es. cbn [mbind option_bind].
  rewrite add_peers_string by done. cbn [mbind option_bind]. rewrite Eseeds. cbn [mbind option_bind].
  unfold env_string. rewrite Epath, Eiv. cbn [from_option mbind option_bind]. rewrite Emp. cbn [mbind option_bind].
  eexists. by split.
Qed.

Lemma start_node nodes rf me env prog cores boot now t fs :
  cluster_env nodes rf me env -> Forall writable_address nodes -> me ∈ nodes -> (0 < rf)%nat -> Z.of_nat rf < 2 ^ 31 ->
  exists nd, main_start env [prog] cores boot now t fs = Some (Some nd) /\
    cl_mem (nd_cluster nd) = started nodes rf me boot /\
    cl_config (nd_cluster nd) = mkConfig 0 0 default_max_hints Linearizable /\
    cl_clock (nd_cluster nd) = 0 /\ cl_hints (nd_cluster nd) = ∅ /\
    exists cap, 0 <= cap /\ cl_cache (nd_cluster nd) = ShardedCache_new cap 16 default_tombstone_ttl.
Proof.
  intros C Hok Hme Hrf Hrf'. pose proof (proj1 (Forall_forall _ _) Hok me Hme) as (_ & _ & _ & _ & Hp).
  destruct (env_int_some env (lit "CACHE_CAPACITY") (Z.max 0) 1000000) as (cap & Ecap & Hcap).
  { intros v. apply (ce_numbers _ _ _ _ C). set_solver. }
  assert (Ei : main_identity env [prog] = Some (me, peers_string nodes)).
  { unfold main_identity, env_int, env_string. rewrite (ce_id _ _ _ _ C), (ce_port _ _ _ _ C), (ce_host _ _ _ _ C), (ce_peers _ _ _ _ C).
    rewrite atoi_to_dec by lia. cbn [fmap option_fmap option_map mbind option_bind lookup list_lookup from_option id].
    rewrite wrap_small by lia. by destruct me. }
  assert (Es : main_settings env = Some (Some (mkSettings (Z.of_nat rf) 0 0 cap Linearizable))).
  { assert (E1 : env_int env (lit "REPLICATION_FACTOR") (Z.max 0) 3 = Some (Z.of_nat rf)).
    { unfold env_int. rewrite (ce_rf _ _ _ _ C), atoi_to_dec by lia. cbn [fmap option_fmap option_map]. f_equal. lia. }
    assert (E2 : env_int env (lit "READ_QUORUM") (Z.max 0) 0 = Some 0) by (unfold env_int; by rewrite (ce_read _ _ _ _ C)).
    assert (E3 : env_int env (lit "WRITE_QUORUM") (Z.max 0) 0 = Some 0) by (unfold env_int; by rewrite (ce_write _ _ _ _ C)).
    unfold main_settings, env_size. rewrite E1, E2, E3, Ecap. cbn [mbind option_bind].
    rewrite (ce_mode _ _ _ _ C), bytes_eqb_refl. do 3 f_equal. lia. }
  destruct (start_members nodes me _ env [prog] cores boot now t fs Ei Es Hok (ce_seeds _ _ _ _ C) (ce_snapshot _ _ _ _ C)) as (nd & E & End).
  { intros name v Hin. apply (ce_numbers _ _ _ _ C). set_solver. }
  exists nd. split; [done|]. rewrite End. cbn [set_replication_factor]. rewrite Nat2Z.id. do 4 (split; [done|]).
  exists cap. split; [|done]. destruct Hcap as [-> | [m ->]]; lia.
Qed.

Lemma new_cache_view cap t k : 0 <= cap -> vs_view t k (ShardedCache_new cap 16 default_tombstone_ttl) = None.
Proof.
  intros Hc. assert (W : sharded_wf (ShardedCache_new cap 16 default_tombstone_ttl)) by (apply sharded_new_wf; unfold default_tombstone_ttl; lia).
  apply (fresh_view _ _ t k W). split; [done|]. split; [done|]. intros i c c0 H1 H2. rewrite H1 in H2. injection H2 as <-.
  split; [done|]. unfold ShardedCache_new in H1. cbn [shards_] in H1. apply lookup_replicate in H1 as [-> _]. done.
Qed.

(** [nd] is what [main] started on node [me]. *)
Definition starts (nodes : list CacheNode) (rf : nat) (me : CacheNode) (nd : RunningNode) : Prop :=
  exists env prog cores boot now t fs,
    cluster_env nodes rf me env /\ main_start env [prog] cores boot now t fs = Some (Some nd).

Lemma started_member nodes rf me nd key T :
  Forall writable_address nodes -> NoDup (cn_id <$> nodes) -> Z.of_nat (length nodes) <= 65536 ->
  (0 < rf)%nat -> Z.of_nat rf < 2 ^ 31 -> me ∈ nodes -> starts nodes rf me nd ->
  (forall boot, Cluster_preference_list key (started nodes rf me boot) = Some T) ->
  let q := effective_quorum rf 0 (length T) in
  member key T q q (cn_id me) (nd_cluster nd) /\ cl_clock (nd_cluster nd) = 0 /\
  forall t, vs_view t key (cl_cache (nd_cluster nd)) = None.
Proof.
  intros Hok ND Hmany Hrf Hrf' Hme (env & prog & cores & boot & now & t & fs & C & E) HT q.
  destruct (start_node nodes rf me env prog cores boot now t fs C Hok Hme Hrf Hrf') as (nd' & E' & Em & Ec & Ek & Eh & cap & Hcap & Ecache).
  rewrite E in E'. injection E' as <-. destruct (started_ok nodes rf me boot) as (W & Y & Hl & R).
  split; [|split; [done|]]; [|intros t'; rewrite Ecache; by apply new_cache_view].
  split.
  - split.
    + rewrite Ecache. apply sharded_new_wf; unfold default_tombstone_ttl; lia.
    + rewrite Ec. unfold default_max_hints. cbn. lia.
    + intros id q' Hq. rewrite Eh in Hq. by rewrite lookup_empty in Hq.
    + rewrite Em. exists (mb_ring_ (started nodes rf me boot)). destruct (mw_ring _ W) as (ops & Er & _).
      split; [rewrite Er; apply Ring_run_wf|]. split; [|exact Y].
      pose proof (point_owners_nodes _ W). pose proof (started_size nodes rf ND Hmany me boot Hme). lia.
  - rewrite Em. unfold local_id. by rewrite Hl.
  - rewrite Em. apply HT.
  - by rewrite Ec.
  - unfold read_needed. rewrite Em, R, Ec. done.
  - unfold write_needed. rewrite Em, R, Ec. done.
Qed.

(** C27: A cluster started as documented is one the linearizability theorem is
    about: give every node the addresses of all, a replication factor and
    linearizable mode, and no quorum settings; then [main] starts each of them,
    and, when no two node ids have colliding vnodes, they all place every key on
    the same distinct nodes, read and write quorums overlap, and no node holds
    the key yet. *)
Theorem startup_ready nodes rf :
  Forall writable_address nodes -> NoDup (cn_id <$> nodes) -> nodes <> [] -> Z.of_nat (length nodes) <= 65536 ->
  disjoint_vnodes 256 (list_to_set (cn_id <$> nodes)) -> (0 < rf)%nat -> Z.of_nat rf < 2 ^ 31 ->
  (forall me env prog cores boot now t fs, me ∈ nodes -> cluster_env nodes rf me env ->
     exists nd, main_start env [prog] cores boot now t fs = Some (Some nd)) /\
  forall key (s : Sys (S := ShardedCache)),
    sy_ops s = [] -> sy_done s = [] ->
    (forall p c, sy_nodes s !! p = Some c -> exists me nd, me ∈ nodes /\ cn_id me = p /\ starts nodes rf me nd /\ c = nd_cluster nd) ->
    exists T R W, NoDup (cn_id <$> T) /\ (length T < R + W)%nat /\ (W <= length T)%nat /\
      fresh_system key T R W s /\ lasting key s.
Proof.
  intros Hok ND Hne Hmany D Hrf Hrf'. split.
  { intros me env prog cores boot now t fs Hme C. destruct (start_node nodes rf me env prog cores boot now t fs C Hok Hme Hrf Hrf') as (nd & E & _). eauto. }
  intros key s Eo Ed Hs. destruct nodes as [|n0 rest]; [done|]. set (nodes := n0 :: rest) in *.
  assert (H0 : n0 ∈ nodes) by left. destruct (started_ring nodes rf ND Hmany D n0 0 key H0 Hrf) as (T & ET & NT & TN & TL).
  set (q := effective_quorum rf 0 (length T)).
  destruct (majority_overlaps rf (length T)) as [Hq1 Hq2]; [destruct T; [done|cbn [length] in *; lia]|].
  assert (M : forall p c, sy_nodes s !! p = Some c -> member key T q q p c /\ cl_clock c = 0 /\ forall t, vs_view t key (cl_cache c) = None).
  { intros p c Hc. destruct (Hs p c Hc) as (me & nd & Hme & <- & St & ->). eapply started_member; try done.
    intros boot. rewrite <-ET. by apply started_targets. }
  exists T, q, q. split; [done|]. split; [done|]. split; [done|]. split; [split; try done|].
  - intros p c Hc. destruct (M p c Hc) as (Hm & _ & Hv). by split.
  - intros p c Hc. destruct (M p c Hc) as (_ & -> & _). lia.
  - intros p c cache v Hc Eg. destruct (M p c Hc) as (_ & _ & Hv). specialize (Hv (sy_now s)). unfold vs_view in Hv.
    rewrite Eg in Hv. done.
Qed.

(** ** Three nodes *)

Definition three_nodes : list CacheNode := [node_a; node_b; node_c].

Definition env_of (vars : list (bytes * bytes)) : Environment :=
  fun name => snd <$> List.find (fun x => bytes_eqb x.1 name) vars.

Definition three_env (me : CacheNode) : Environment :=
  env_of [(lit "NODE_ID", cn_id me); (lit "PORT", to_dec (cn_port me)); (lit "ADVERTISE_HOST", cn_host me);
          (lit "CLUSTER_PEERS", peers_string three_nodes); (lit "REPLICATION_FACTOR", lit "3");
          (lit "CONSISTENCY", lit "linearizable"); (lit "IO_THREADS", lit "2")].

Lemma three_env_ok me : me ∈ three_nodes -> cluster_env three_nodes 3 me (three_env me).
Proof.
  intros Hme. split; try reflexivity. intros name v Hname. repeat (apply elem_of_cons in Hname as [-> | Hname]);
    [intros [= <-]; vm_compute; eauto|discriminate..|by apply elem_of_nil in Hname].
Qed.

Lemma three_nodes_ok : Forall writable_address three_nodes /\ NoDup (cn_id <$> three_nodes) /\
  disjoint_vnodes 256 (list_to_set (cn_id <$> three_nodes)).
Proof.
  split; [|split].
  - apply Forall_forall. intros n Hn. unfold writable_address. repeat (apply elem_of_cons in Hn as [-> | Hn]); [..|by apply elem_of_nil in Hn];
      (split; [by_eval|]);
      (split; [by_eval|]);
      (split; [by_eval|]);
      (split; [by_eval|]); cbn; lia.
  - by_eval.
  - apply disjoint_vnodes_check, (bool_decide_eq_true_1 _). vm_compute. reflexivity.
Qed.

Lemma startup_ready_witness :
  exists a b c T R W,
    main_start (three_env node_a) [lit "shardcache_app"] 8 1000 0 0 ∅ = Some (Some a) /\
    main_start (three_env node_b) [lit "shardcache_app"] 8 1001 0 0 ∅ = Some (Some b) /\
    main_start (three_env node_c) [lit "shardcache_app"] 8 1002 0 0 ∅ = Some (Some c) /\
    (length T < R + W)%nat /\
    fresh_system (lit "user:7") T R W
      (mkSys 0 {[lit "a" := nd_cluster a; lit "b" := nd_cluster b; lit "c" := nd_cluster c]} [] []).
Proof.
  destruct three_nodes_ok as (H1 & H2 & H3).
  destruct (startup_ready three_nodes 3 H1 H2) as [St Fr]; [discriminate|vm_compute; discriminate|exact H3|lia|lia|].
  assert (Ia : node_a ∈ three_nodes) by left.
  assert (Ib : node_b ∈ three_nodes) by (right; left).
  assert (Ic : node_c ∈ three_nodes) by (right; right; left).
  destruct (St node_a (three_env node_a) (lit "shardcache_app") 8 1000 0 0 ∅ Ia (three_env_ok node_a Ia)) as [a Ea].
  destruct (St node_b (three_env node_b) (lit "shardcache_app") 8 1001 0 0 ∅ Ib (three_env_ok node_b Ib)) as [b Eb].
  destruct (St node_c (three_env node_c) (lit "shardcache_app") 8 1002 0 0 ∅ Ic (three_env_ok node_c Ic)) as [c Ec].
  destruct (Fr (lit "user:7") (mkSys 0 {[lit "a" := nd_cluster a; lit "b" := nd_cluster b; lit "c" := nd_cluster c]} [] []))
    as (T & R & W & _ & Hq & _ & F & _); [reflexivity|reflexivity| |].
  - intros p x Hx. cbn [sy_nodes] in Hx. apply lookup_insert_Some in Hx as [[<- <-]|[_ Hx]].
    { exists node_a, a. split; [exact Ia|]. split; [reflexivity|]. split; [|reflexivity].
      eexists _, _, _, _, _, _, _. split; [apply three_env_ok, Ia|exact Ea]. }
    apply lookup_insert_Some in Hx as [[<- <-]|[_ Hx]].
    { exists node_b, b. split; [exact Ib|]. split; [reflexivity|]. split; [|reflexivity].
      eexists _, _, _, _, _, _, _. split; [apply three_env_ok, Ib|exact Eb]. }
    apply lookup_singleton_Some in Hx as [<- <-].
    exists node_c, c. split; [exact Ic|]. split; [reflexivity|]. split; [|reflexivity].
    eexists _, _, _, _, _, _, _. split; [apply three_env_ok, Ic|exact Ec].
  - exists a, b, c, T, R, W. split; [exact Ea|]. split; [exact Eb|]. split; [exact Ec|]. split; [exact Hq|exact F].
Defined.
