(* ===== verification/ClusterOps.v ===== *)
(** * The other operations of a node

    Models what src/cluster.cpp adds to the coordinator: the convenience
    wrappers, [stats], [send_write] and [exchange_gossip] over the connection
    pool, the rounds of [gossip_once] and [replay_hints], and [leave], which
    announces the departure to every peer and then hands the data over.

    The theorems say that a node that leaves is taken out of the ring by every
    peer that hears it and by itself, and that its data is sent to the new
    owners before it is dropped; that a node joins through a seed with one round
    of gossip; that a round of hinted handoff has the same effect in whatever
    order the hash table yields the nodes; and that EXPIRE can undo a DEL that is
    acknowledged while it runs. *)

From S2P Require Import Prelude Numerals CacheEntry Cache CacheSpec VersionedStore ShardedCache HybridClock ConsistentHash RoutingTable HealthChecker Membership Resp Parser ReplicaWire Cluster ClusterLemmas ClusterProps CommandHandler HandlerProps Rebalance PeerPool Startup.

Local Open Scope Z_scope.

(** ** Constructors and wrappers *)

(** [legacy_config]: everything but two fields has its default. *)
Definition legacy_config (replication_factor cache_capacity : Z) : Settings :=
  mkSettings replication_factor 0 0 cache_capacity Quorum.

Definition Cluster_new_node (local : CacheNode) (rf capacity boot_ms : Z) : Server :=
  Cluster_new local (legacy_config rf capacity) boot_ms.

Definition Cluster_new_id (local_node_id : bytes) (rf capacity boot_ms : Z) : Server :=
  Cluster_new (mkCN local_node_id (lit "127.0.0.1") 7001) (legacy_config rf capacity) boot_ms.

Definition Cluster_set (env : FullWriteEnv) (key value : bytes) (ttl : option Z) (c : Server) : option (Server * bool) :=
  '(c', r, _) ← Cluster_put env key value ttl c; Some (c', wr_ok r).

Definition Cluster_get (env : FullReadEnv) (key : bytes) (c : Server) : option (Server * option bytes) :=
  '(c', r, _) ← Cluster_read env key c;
  Some (c', if decide (read_status r = RSFound) then Some (vv_value (read_value r)) else None).

Definition Cluster_exists (env : FullReadEnv) (key : bytes) (c : Server) : option (Server * bool) :=
  '(c', r, _) ← Cluster_read env key c; Some (c', bool_decide (read_status r = RSFound)).

Definition Cluster_remove (env : FullWriteEnv) (key : bytes) (c : Server) : option (Server * bool) :=
  '(c', r, _) ← Cluster_del env key c; Some (c', wr_ok r && wr_existed r).

Definition Cluster_expire (renv : FullReadEnv) (ms : Z) (wenv : WriteEnv) (key : bytes) (ttl : Z) (c : Server)
    : option (Server * bool) :=
  '(c', r, _) ← Cluster_expire_key renv ms wenv key ttl c; Some (c', wr_ok r && wr_existed r).

Definition Cluster_pttl (env : FullReadEnv) (key : bytes) (c : Server) : option (Server * Z) :=
  '(c', r, _) ← Cluster_read env key c;
  Some (c', if decide (read_status r = RSFound) then default (-1) (vv_ttl (read_value r)) else -2).

Definition Cluster_get_or_load {E} (t0 t1 t2 : Z) (key : bytes) (loader : bytes + E) (ttl : option Z) (c : Server)
    : option (Server * (bytes + E)) :=
  '(s, r, _) ← ShardedCache_get_or_load t0 t1 t2 key loader ttl (cl_cache c); Some (set_cache s c, r).

(** [Cluster::locate_replicas], on the ring and not on the published table. *)
Definition Cluster_locate_replicas (key : bytes) (count : nat) (c : Server) : list CacheNode :=
  Ring_locate_replicas key count (mb_ring_ (cl_mem c)).

(** ** [stats] *)

Record ClusterStats := mkStats {
  cs_counters : ClusterCounters;
  cs_hints_pending : Z;
  cs_ring_nodes : Z;
  cs_healthy_nodes : Z
}.

Definition Cluster_stats (c : Server) : ClusterStats :=
  let m := cl_mem c in
  mkStats (cl_counters c) (Z.of_nat (Cluster_pending_hints c)) (Z.of_nat (size (nodes_ m)))
    (map_fold (fun id _ n => n + (if default true (node_health_ m !! id) then 1 else 0)) 0 (nodes_ m)).

(** ** Calls over the connection pool *)

(** A call made under a lease of its own, with no other use of the pool in
    between: the new lease is the last one.  [None] in the result is a peer that
    cannot be connected to. *)
Definition with_lease (address : bytes) (connects : bool) (args : list bytes) (evs : list ClientEv) (p : PeerPool)
    : option (PeerPool * option (RequestResult RespValue)) :=
  let '(p1, conn) := PeerPool_acquire address connects p in
  match conn with
  | None => Some (p1, None)
  | Some _ =>
      let i := length (p_leases p) in
      '(p2, res) ← Lease_command i args evs p1;
      p3 ← Lease_end i p2;
      Some (p3, Some res)
  end.

(** [send_write]: whether the key was live on the replica, if the write
    succeeded. *)
Definition send_write (node : CacheNode) (key : bytes) (v : VersionedValue) (connects : bool) (evs : list ClientEv)
    (p : PeerPool) : option (PeerPool * option bool) :=
  '(p', res) ← with_lease (make_address (cn_host node) (cn_port node)) connects (replica_write_command key v) evs p;
  Some (p', match res with
            | None => None
            | Some res =>
                let r := client_replica_write res in
                if rr_is_ok r then Some (default false (rr_value r)) else None
            end).

(** [exchange_gossip], [res] being what the call to the peer gave, and [None] if
    there was no connection to make it on. *)
Definition exchange_gossip (res : option (RequestResult RespValue)) (m : Membership) : Membership * bool :=
  match res with
  | None => (m, false)
  | Some res => exchange_gossip_result res m
  end.

(** What a call sends. *)
Definition gossip_sent {A} (to : A) (res : option (RequestResult RespValue)) (m : Membership) : list (A * list bytes) :=
  match res with
  | None => []
  | Some _ => [(to, gossip_args (Cluster_members m))]
  end.

(** [gossip_once]: [r1] and [r2] are the random choices, and [answer] the outcome
    of the call to an address. *)
Definition gossip_once (r1 r2 : nat) (answer : bytes * Z -> option (RequestResult RespValue)) (m : Membership)
    : Membership * list (bytes * Z) :=
  let peers := gossip_peers m in
  let seeds := seeds_ m in
  let '(m1, to1) :=
    match peers !! (r1 mod length peers)%nat with
    | Some p => ((exchange_gossip (answer (cn_host p, cn_port p)) m).1, [(cn_host p, cn_port p)])
    | None => (m, [])
    end in
  match seeds !! (r2 mod length seeds)%nat with
  | Some seed => if (length peers <? 2)%nat then ((exchange_gossip (answer seed) m1).1, to1 ++ [seed]) else (m1, to1)
  | None => (m1, to1)
  end.

(** ** [leave] *)

Fixpoint announce (answer : CacheNode -> option (RequestResult RespValue)) (peers : list CacheNode) (m : Membership)
    : Membership * list (CacheNode * list bytes) :=
  match peers with
  | [] => (m, [])
  | p :: rest =>
      let '(m', sent) := announce answer rest (exchange_gossip (answer p) m).1 in
      (m', gossip_sent p (answer p) m ++ sent)
  end.

(** [epoch] numbers the table published last. *)
Definition Cluster_leave_now (env : RebalanceEnv) (answer : CacheNode -> option (RequestResult RespValue)) (epoch : Z)
    (placed : option Published) (c : Server)
    : option (Server * option Published * list Push * list (CacheNode * list bytes)) :=
  let '(m, peers) := Cluster_leave (cl_mem c) in
  let '(m', sent) := announce answer peers m in
  '(c', placed', pushes) ← rebalance_now env epoch placed (set_mem m' c);
  Some (c', placed', pushes, sent).

(** ** [replay_hints] *)

(** The nodes with queued hints; the order is that of the hash table. *)
Definition hint_nodes (c : Server) : list bytes :=
  (List.filter (fun p => negb (bool_decide (p.2 = []))) (map_to_list (cl_hints c))).*1.

(** A round over the nodes in the given order; the clock is read and the sends
    succeed per node. *)
Fixpoint replay_hints (now : bytes -> Z) (sent : bytes -> list bool) (ids : list bytes) (c : Server)
    : Server * list (bytes * list (list bytes)) :=
  match ids with
  | [] => (c, [])
  | id :: rest =>
      let '(c1, cmds) := replay_node (now id) (sent id) id c in
      let '(c2, more) := replay_hints now sent rest c1 in
      (c2, (id, cmds) :: more)
  end.

(** ** News about the node itself *)

Definition no_wrap (m : MemberInfo) : Prop := 0 <= mi_generation m < 2 ^ 64 - 1.

Definition no_wrapb (m : MemberInfo) : bool := (0 <=? mi_generation m) && (mi_generation m <? 2 ^ 64 - 1).

Lemma no_wrap_check l : forallb no_wrapb l = true -> Forall no_wrap l.
Proof.
  rewrite forallb_forall. intros H. apply Forall_forall. intros m Hm. apply list_elem_of_In, H in Hm.
  unfold no_wrapb in Hm. apply andb_true_iff in Hm as [H1 H2]. apply Z.leb_le in H1. apply Z.ltb_lt in H2. by split.
Qed.

(** Gossip about a node never changes what the node says about itself but for
    raising its generation. *)
Lemma apply_member_self m c e :
  no_wrap m -> members_ (mc_state c) !! local_id (mc_state c) = Some e ->
  let c' := (apply_member_locked m c).1 in
  local_node_ (mc_state c') = local_node_ (mc_state c) /\
  exists e', members_ (mc_state c') !! local_id (mc_state c) = Some e' /\ mi_status e' = mi_status e /\ mi_generation e <= mi_generation e'.
Proof.
  intros Hm He. set (s := mc_state c) in *. set (i := cn_id (mi_node m)).
  assert (Hacc : local_node_ (mc_state (accept_member m c).1) = local_node_ s /\
    members_ (mc_state (accept_member m c).1) = <[i := m]> (members_ s))
    by (unfold accept_member; fold s i; by repeat case_match).
  unfold apply_member_locked. fold s i. destruct (members_ s !! i) as [known|] eqn:Ek.
  - destruct (Z.leb_spec (mi_generation m) (mi_generation known)) as [Hg|Hg]; [split; [done|]; by exists e|].
    destruct (bytes_eqb_spec i (local_id s)) as [El|El].
    + split; [done|]. cbn [fst mc_state with_members members_]. rewrite El in *. rewrite lookup_insert_eq. eexists. split; [done|].
      rewrite He in Ek. simplify_eq. cbn. split; [done|]. unfold no_wrap in Hm. rewrite wrap_small by lia. lia.
    + destruct Hacc as [-> ->]. split; [done|]. rewrite lookup_insert_ne by done. by exists e.
  - destruct Hacc as [-> ->]. split; [done|]. destruct (decide (i = local_id s)) as [El|El]; [rewrite El in Ek; congruence|].
    rewrite lookup_insert_ne by done. by exists e.
Qed.

Lemma merge_self remote s e :
  Forall no_wrap remote -> members_ s !! local_id s = Some e ->
  exists e', members_ (Cluster_merge_gossip remote s).1 !! local_id s = Some e' /\ mi_status e' = mi_status e /\ mi_generation e <= mi_generation e'.
Proof.
  intros HF He. unfold Cluster_merge_gossip.
  assert (G : local_node_ (mc_state (apply_members remote s).1) = local_node_ s /\
    exists e', members_ (mc_state (apply_members remote s).1) !! local_id s = Some e' /\ mi_status e' = mi_status e /\ mi_generation e <= mi_generation e').
  { induction remote as [|m remote IH] using rev_ind; [split; [done|]; by exists e|].
    apply Forall_app in HF as [HF Hm]. rewrite Forall_singleton in Hm. destruct (IH HF) as (El & e1 & E1 & S1 & G1).
    rewrite apply_members_snoc. destruct (apply_members remote s) as [c changed]. cbn [fst] in *.
    destruct (apply_member_self m c e1 Hm) as (El' & e2 & E2 & S2 & G2); [unfold local_id in *; by rewrite El|].
    destruct (apply_member_locked m c) as [c' b]. cbn [fst] in *. split; [congruence|]. exists e2.
    unfold local_id in *. rewrite El in E2. split; [done|]. split; [congruence|lia]. }
  destruct (apply_members remote s) as [c changed]. cbn [fst] in *. destruct G as [_ G]. by destruct changed.
Qed.

(** ** Announcing a departure *)

(** The entries a reply to an exchange brings. *)
Definition reply_members (res : RequestResult RespValue) : option (list MemberInfo) :=
  match rr_is_ok res, rr_value res with
  | true, Some (RespArray e) => decode_members (resp_str <$> e)
  | _, _ => None
  end.

Lemma exchange_merges res m :
  (exchange_gossip res m).1 =
  match res ≫= reply_members with Some remote => (Cluster_merge_gossip remote m).1 | None => m end.
Proof.
  unfold exchange_gossip, exchange_gossip_result, reply_members. destruct res as [res|]; [|done]. cbn.
  destruct (rr_is_ok res), (rr_value res) as [[]|]; try done. by destruct (decode_members _).
Qed.

(** A view in which the node has left, at a generation after [g]. *)
Record departed (me : CacheNode) (g : Z) (m : Membership) : Prop := {
  dp_wf : mem_wf m;
  dp_sync : routing_in_sync m;
  dp_me : local_node_ m = me;
  dp_self : exists e, members_ m !! cn_id me = Some e /\ mi_status e = Left /\ g < mi_generation e
}.

Lemma exchange_departed me g res m :
  departed me g m -> (forall remote, (res ≫= reply_members) = Some remote -> Forall no_wrap remote) ->
  departed me g (exchange_gossip res m).1 /\ replication_factor (exchange_gossip res m).1 = replication_factor m.
Proof.
  intros [W Y <- (e & He & Hs & Hg)] Hr. rewrite exchange_merges. destruct (res ≫= reply_members) as [remote|].
  - destruct (merge_gossip_ok remote m W) as (W' & El & Er & Y'). split; [|done]. split; [done|by apply Y'|done|].
    destruct (merge_self remote m e (Hr _ eq_refl) He) as (e' & He' & Hs' & Hg'). exists e'.
    split; [done|]. split; [congruence|lia].
  - split; [|done]. split; try done. by exists e.
Qed.

Lemma announce_departed me g answer peers m :
  departed me g m -> (forall p remote, p ∈ peers -> (answer p ≫= reply_members) = Some remote -> Forall no_wrap remote) ->
  departed me g (announce answer peers m).1 /\ replication_factor (announce answer peers m).1 = replication_factor m /\
  forall p, p ∈ peers -> is_Some (answer p) ->
    exists v, departed me g v /\ (p, gossip_args (Cluster_members v)) ∈ (announce answer peers m).2.
Proof.
  revert m. induction peers as [|q peers IH]; intros m D Hr; cbn [announce].
  { split; [done|]. split; [done|]. intros p Hp. by apply elem_of_nil in Hp. }
  destruct (exchange_departed me g (answer q) m D) as [D1 R1]; [intros remote; apply (Hr q); by left|].
  destruct (IH _ D1) as (D2 & R2 & S2); [intros p remote Hp; apply (Hr p); by right|].
  destruct (announce answer peers (exchange_gossip (answer q) m).1) as [m' sent]. cbn [fst snd] in *.
  split; [done|]. split; [congruence|]. intros p Hp Ha. apply elem_of_cons in Hp as [->|Hp].
  - exists m. split; [done|]. unfold gossip_sent. destruct Ha as [res ->]. apply elem_of_app. left. by left.
  - destruct (S2 p Hp Ha) as (v & Dv & Hv). exists v. split; [done|]. apply elem_of_app. by right.
Qed.

(** The node itself no longer routes any key to itself. *)
Lemma departed_routing me g m key :
  departed me g m -> Z.of_nat (size (nodes_ m)) <= 65536 ->
  routing_ok m /\ forall owners, Cluster_preference_list key m = Some owners -> cn_id me ∉ (cn_id <$> owners).
Proof.
  intros [W Y <- (e & He & Hs & _)] Hz. destruct (mw_ring m W) as (ops & Er & _). pose proof (Ring_run_wf 256 ops) as Wr. rewrite <-Er in Wr.
  pose proof (point_owners_nodes m W) as Hp. split; [exists (mb_ring_ m); split; [done|]; split; [lia|done]|].
  intros owners Ho. unfold Cluster_preference_list in Ho. rewrite Y in Ho.
  destruct (routing_table_correct (mb_ring_ m) (replication_factor m) (local_id m) key Wr) as [E _]; [lia|].
  rewrite E in Ho. injection Ho as <-. intros (n & Hn & Hin)%list_elem_of_fmap.
  rewrite locate_replicas_walk in Hin by eauto with shard. apply elem_of_take in Hin as (i & Hi%list_elem_of_lookup_2 & _).
  apply successors_registered in Hi; [|done]. rewrite (mw_phys m W), <-Hn in Hi.
  assert (Ha : is_Some (nodes_ m !! cn_id (local_node_ m))) by eauto. apply (mw_alive m W) in Ha as (e' & He' & Ha). congruence.
Qed.

(** A peer that hears the announcement takes the node off its ring. *)
Lemma announced_leaves me g v b :
  departed me g v -> Forall member_ok (Cluster_members v) -> mem_wf b -> local_id b <> cn_id me ->
  (forall known, members_ b !! cn_id me = Some known -> mi_generation known <= g) ->
  let b' := (handle_gossip (cmd_keys (Parser_parse (gossip_args (Cluster_members v)))) b).1 in
  mem_wf b' /\ nodes_ b' !! cn_id me = None /\ physical_nodes_ (mb_ring_ b') !! cn_id me = None.
Proof.
  intros [W Y <- (e & He & Hs & Hg)] HF Wb Hne Hk. rewrite parse_gossip. cbn [cmd_keys]. unfold handle_gossip. rewrite decode_member_fields by done.
  cbv zeta. assert (Hb' : forall x : Membership * list MemberInfo, (let '(s', view) := x in (s', RespArray (BulkString <$> concat (member_fields <$> view)))).1 = x.1)
    by (by intros []). rewrite Hb'.
  pose proof (merge_lookup (Cluster_members v) b (cn_id (local_node_ v)) (not_eq_sym Hne)) as El.
  pose proof (joined_max (cn_id (local_node_ v)) (Cluster_members v) (members_ b !! cn_id (local_node_ v))) as J. rewrite <-El in J.
  specialize (J (fun x Hx => mw_ids b Wb _ x Hx)). destruct (merge_gossip_ok (Cluster_members v) b Wb) as (Wb' & _).
  set (b' := (Cluster_merge_gossip (Cluster_members v) b).1) in *. split; [done|].
  assert (Hin : e ∈ Cluster_members v) by (apply members_elem; eauto). assert (Hid : cn_id (mi_node e) = cn_id (local_node_ v)) by (by apply (mw_ids v W)).
  assert (N : nodes_ b' !! cn_id (local_node_ v) = None).
  { destruct (nodes_ b' !! cn_id (local_node_ v)) as [n|] eqn:En; [|done]. exfalso.
    assert (Ha : is_Some (nodes_ b' !! cn_id (local_node_ v))) by eauto. apply (mw_alive b' Wb') in Ha as (w & Hw & Ha). rewrite Hw in J.
    destruct J as (_ & [Jb|Jv] & _ & Jm); specialize (Jm e Hin Hid).
    - specialize (Hk w Jb). lia.
    - apply members_elem in Jv as [id Hv]. pose proof (mw_ids v W id w Hv) as Ew. pose proof (mw_ids b' Wb' _ w Hw) as Ew'.
      assert (id = cn_id (local_node_ v)) as -> by congruence. rewrite He in Hv. congruence. }
  split; [done|]. by rewrite (mw_phys b' Wb').
Qed.

Lemma leave_pass env answer epoch placed c e0 :
  cluster_wf c -> mem_wf (cl_mem c) -> members_ (cl_mem c) !! local_id (cl_mem c) = Some e0 -> no_wrap e0 ->
  (forall p remote, p ∈ (Cluster_leave (cl_mem c)).2 -> (answer p ≫= reply_members) = Some remote -> Forall no_wrap remote) ->
  Z.of_nat (size (nodes_ (announce answer (Cluster_leave (cl_mem c)).2 (Cluster_leave (cl_mem c)).1).1)) <= 65536 ->
  fst <$> placed <> Some epoch -> (forall key, is_Some (old_owners placed key)) ->
  exists c' pushes sent,
    Cluster_leave_now env answer epoch placed c = Some (c', Some (epoch, routing_ (cl_mem c')), pushes, sent) /\ cluster_wf c' /\
    (forall p, p ∈ (Cluster_leave (cl_mem c)).2 -> is_Some (answer p) ->
       exists view, (p, gossip_args view) ∈ sent /\ forall b, Forall member_ok view -> mem_wf b -> local_id b <> local_id (cl_mem c) ->
         (forall known, members_ b !! local_id (cl_mem c) = Some known -> mi_generation known <= mi_generation e0) ->
         let b' := (handle_gossip (cmd_keys (Parser_parse (gossip_args view))) b).1 in
         nodes_ b' !! local_id (cl_mem c) = None /\ physical_nodes_ (mb_ring_ b') !! local_id (cl_mem c) = None) /\
    (forall t k st, (forall i, rb_clk env i <= t) -> vs_view t k (cl_cache c) = Some st ->
       exists v old owners, stamp_of_vv v = st /\ old_owners placed k = Some old /\
         Cluster_preference_list k (cl_mem c') = Some owners /\ local_id (cl_mem c) ∉ (cn_id <$> owners) /\
         (forall n, n ∈ owners -> cn_id n ∉ old -> mkPush n k v (rb_send env k n) ∈ pushes) /\
         (vs_view t k (cl_cache c') = Some st \/
          vs_view t k (cl_cache c') = None /\ forall n, n ∈ owners -> cn_id n ∈ old \/ rb_send env k n = true)).
Proof.
  intros W Wm He0 Hw0 Hr Hz Hne Hold. destruct (Cluster_leave (cl_mem c)) as [m peers] eqn:El. cbn [fst snd] in *.
  set (me := local_node_ (cl_mem c)). change (local_id (cl_mem c)) with (cn_id me) in *.
  destruct (leave_ok (cl_mem c) Wm) as (Wl & L1 & L2 & Yl). rewrite El in Wl, L1, L2, Yl. cbn [fst] in *.
  assert (D : departed me (mi_generation e0) m).
  { split; [done|done|done|]. unfold Cluster_leave in El. change (local_id (cl_mem c)) with (cn_id me) in El. rewrite He0 in El.
    injection El as <- _. cbn [members_ publish_routing_locked]. rewrite lookup_insert_eq. eexists. split; [done|]. split; [done|].
    cbn. unfold no_wrap in Hw0. rewrite wrap_small by lia. lia. }
  destruct (announce_departed me _ answer peers m D Hr) as (D' & R' & S'). unfold Cluster_leave_now. rewrite El.
  destruct (announce answer peers m) as [m' sent]. cbn [fst snd] in *.
  assert (Wc : cluster_wf (set_mem m' c)).
  { destruct W as [W1 W2 W3 _]. split; [done|done|done|]. exact (proj1 (departed_routing me _ m' [] D' Hz)). }
  assert (T : tables_ok placed (routing_ (cl_mem (set_mem m' c)))) by (intros key; split; [done|]; apply preference_total; apply Wc).
  destruct (rebalance_pass env epoch placed (set_mem m' c) Wc T Hne) as (c' & pushes & E & W' & Em & _ & K). rewrite E. cbn [mbind option_bind].
  exists c', pushes, sent. rewrite Em. split; [done|]. split; [done|]. split.
  - intros p Hp Ha. destruct (S' p Hp Ha) as (v & Dv & Hv). exists (Cluster_members v). split; [done|].
    intros b HF Wb Hb Hk. by destruct (announced_leaves me _ v b Dv HF Wb Hb Hk) as (_ & ? & ?).
  - intros t k st Hclk Hv. destruct (K t k st Hclk Hv) as (v & old & owners & Hst & Ho & Hp & Hpush & Hloc).
    exists v, old, owners. destruct (departed_routing me _ m' k D' Hz) as [_ Hn]. specialize (Hn owners Hp).
    assert (Elm : local_id m' = cn_id me) by (unfold local_id; by rewrite (dp_me _ _ _ D')).
    split; [done|]. split; [done|]. split; [done|]. split; [done|]. split.
    + intros n Hin Hno. apply Hpush; [done| |done]. cbn [cl_mem set_mem]. rewrite Elm. intros E'. apply Hn. rewrite <-E'. by apply list_elem_of_fmap_2.
    + destruct Hloc as [?|(? & _ & ?)]; [by left|by right].
Qed.

(** ** Properties *)

(** C23: Leaving hands over.  The node tells every peer it can reach, after which
    that peer has taken it off its ring, unless it had heard of a later
    generation; the node's own table sends no key to it any more; and every
    live key has been pushed to each of its owners that did not own it already,
    the local copy being dropped only if all of these acknowledged it. *)
Theorem leave_hands_over env answer epoch placed c e0 :
  cluster_wf c -> mem_wf (cl_mem c) -> members_ (cl_mem c) !! local_id (cl_mem c) = Some e0 -> no_wrap e0 ->
  (forall p remote, p ∈ (Cluster_leave (cl_mem c)).2 -> (answer p ≫= reply_members) = Some remote -> Forall no_wrap remote) ->
  Z.of_nat (size (nodes_ (announce answer (Cluster_leave (cl_mem c)).2 (Cluster_leave (cl_mem c)).1).1)) <= 65536 ->
  fst <$> placed <> Some epoch -> (forall key, is_Some (old_owners placed key)) ->
  exists c' pushes sent,
    Cluster_leave_now env answer epoch placed c = Some (c', Some (epoch, routing_ (cl_mem c')), pushes, sent) /\ cluster_wf c' /\
    (forall p, p ∈ (Cluster_leave (cl_mem c)).2 -> is_Some (answer p) ->
       exists view, (p, gossip_args view) ∈ sent /\ forall b, Forall member_ok view -> mem_wf b -> local_id b <> local_id (cl_mem c) ->
         (forall known, members_ b !! local_id (cl_mem c) = Some known -> mi_generation known <= mi_generation e0) ->
         let b' := (handle_gossip (cmd_keys (Parser_parse (gossip_args view))) b).1 in
         nodes_ b' !! local_id (cl_mem c) = None /\ physical_nodes_ (mb_ring_ b') !! local_id (cl_mem c) = None) /\
    (forall t k st, (forall i, rb_clk env i <= t) -> vs_view t k (cl_cache c) = Some st ->
       exists v old owners, stamp_of_vv v = st /\ old_owners placed k = Some old /\
         Cluster_preference_list k (cl_mem c') = Some owners /\ local_id (cl_mem c) ∉ (cn_id <$> owners) /\
         (forall n, n ∈ owners -> cn_id n ∉ old -> mkPush n k v (rb_send env k n) ∈ pushes) /\
         (vs_view t k (cl_cache c') = Some st \/
          vs_view t k (cl_cache c') = None /\ forall n, n ∈ owners -> cn_id n ∈ old \/ rb_send env k n = true)).
Proof. apply leave_pass. Qed.

(** What the node says about itself stands when the news is not newer. *)
Lemma merge_self_same remote s e :
  (forall m, m ∈ remote -> cn_id (mi_node m) = local_id s -> mi_generation m <= mi_generation e) ->
  members_ s !! local_id s = Some e -> members_ (Cluster_merge_gossip remote s).1 !! local_id s = Some e.
Proof.
  intros HF He. unfold Cluster_merge_gossip.
  assert (G : local_node_ (mc_state (apply_members remote s).1) = local_node_ s /\
    members_ (mc_state (apply_members remote s).1) !! local_id s = Some e).
  { induction remote as [|m remote IH] using rev_ind; [done|].
    destruct IH as [El E1]; [intros x Hx; apply HF, elem_of_app; by left|]. rewrite apply_members_snoc.
    destruct (apply_members remote s) as [c changed]. cbn [fst] in *.
    assert (Hm : cn_id (mi_node m) = local_id s -> mi_generation m <= mi_generation e) by (apply HF, elem_of_app; right; by left).
    assert (Hacc : cn_id (mi_node m) <> local_id s -> local_node_ (mc_state (accept_member m c).1) = local_node_ s /\
      members_ (mc_state (accept_member m c).1) !! local_id s = Some e).
    { intros Hn. unfold accept_member. repeat case_match; cbn [fst mc_state local_node_ members_ with_members]; by rewrite lookup_insert_ne. }
    unfold apply_member_locked. change (local_id (mc_state c)) with (cn_id (local_node_ (mc_state c))). rewrite El.
    destruct (decide (cn_id (mi_node m) = local_id s)) as [Hi|Hi].
    - rewrite Hi, E1. rewrite (proj2 (Z.leb_le _ _)) by auto. done.
    - change (cn_id (local_node_ s)) with (local_id s). rewrite bytes_eqb_ne by done. specialize (Hacc Hi).
      destruct (accept_member m c) as [c' b]. by repeat case_match; simplify_eq/=. }
  destruct (apply_members remote s) as [c changed]. cbn [fst] in *. destruct G as [_ G]. by destruct changed.
Qed.

(** A node that knows only itself has nobody but its seeds to talk to. *)
Lemma alone_peers a self : mem_wf a -> members_ a = {[local_id a := self]} -> gossip_peers a = [].
Proof.
  intros W Hm. unfold gossip_peers. assert (E : delete (local_id a) (nodes_ a) = ∅); [|by rewrite E, map_to_list_empty].
  apply map_eq. intros id. rewrite lookup_empty. destruct (decide (id = local_id a)) as [->|Hne]; [apply lookup_delete_eq|].
  rewrite lookup_delete_ne by done. destruct (nodes_ a !! id) as [n|] eqn:E; [|done].
  assert (Ha : is_Some (nodes_ a !! id)) by eauto. apply (mw_alive a W) in Ha as (m & Hl & _). by rewrite Hm, lookup_singleton_ne in Hl.
Qed.

(** The entries of a view about one node. *)
Lemma joined_view id (s : Membership) : mem_wf s -> joined id (Cluster_members s) None = members_ s !! id.
Proof.
  intros W. pose proof (joined_max id (Cluster_members s) None) as J. specialize (J (fun x Hx => ltac:(discriminate Hx))).
  destruct (joined id (Cluster_members s) None) as [w|].
  - destruct J as (E & [?|Hw] & _); [done|]. apply members_elem in Hw as [i Hi]. pose proof (mw_ids s W i w Hi). by replace id with i by congruence.
  - destruct J as [_ J]. destruct (members_ s !! id) as [w|] eqn:E; [|done]. exfalso. apply (J w); [apply members_elem; eauto|].
    by apply (mw_ids s W).
Qed.

(** C24: A new node joins through a seed in one round of gossip.  A node that knows
    only itself and one seed calls the seed; if the seed has heard nothing newer
    about it, afterwards both hold the same entry for every member, the new
    node is on the seed's ring, and both rings hold the same nodes. *)
Theorem gossip_join a b self addr r1 r2 :
  mem_wf a -> mem_wf b -> local_id a <> local_id b -> members_ a = {[local_id a := self]} -> mi_status self = Alive ->
  seeds_ a = [addr] -> (forall known, members_ b !! local_id a = Some known -> mi_generation known < mi_generation self) ->
  Forall member_ok (Cluster_members a) -> Forall member_ok (Cluster_members (Cluster_merge_gossip (Cluster_members a) b).1) ->
  let '(b', reply) := handle_gossip (cmd_keys (Parser_parse (gossip_args (Cluster_members a)))) b in
  let '(a', called) := gossip_once r1 r2 (fun _ => Some (rr_success reply)) a in
  called = [addr] /\ members_ a' = members_ b' /\ dom (nodes_ a') = dom (nodes_ b') /\ is_Some (nodes_ b' !! local_id a).
Proof.
  intros Wa Wb Hab Hm Hs Hseed Hk Fa Fb. rewrite parse_gossip. cbn [cmd_keys]. unfold handle_gossip. rewrite decode_member_fields by done.
  pose proof (merge_view (Cluster_members a) b) as Ev. destruct (merge_gossip_ok (Cluster_members a) b Wb) as (Wb' & _).
  pose proof (merge_lookup (Cluster_members a) b (local_id a) Hab) as Eb.
  destruct (Cluster_merge_gossip (Cluster_members a) b) as [b' view]. cbn [fst snd] in *. subst view.
  unfold gossip_once. rewrite (alone_peers a self) by done. cbn [lookup list_lookup length]. rewrite Hseed. cbn [length]. rewrite Nat.mod_1_r.
  cbn [lookup list_lookup Nat.ltb Nat.leb app].
  assert (Er : reply_members (rr_success (RespArray (BulkString <$> concat (member_fields <$> Cluster_members b')))) = Some (Cluster_members b')).
  { unfold reply_members. cbn. rewrite <-list_fmap_compose, (list_fmap_ext _ id), list_fmap_id by done. by apply decode_member_fields. }
  destruct (merge_gossip_ok (Cluster_members b') a Wa) as (Wa' & _). set (a' := (Cluster_merge_gossip (Cluster_members b') a).1) in *.
  assert (Hself : members_ a !! local_id a = Some self) by (rewrite Hm; apply lookup_singleton_eq).
  assert (Ebs : members_ b' !! local_id a = Some self).
  { rewrite Eb. unfold Cluster_members. rewrite Hm, map_to_list_singleton. cbn. unfold joined. cbn [foldl].
    rewrite decide_True by (by apply (mw_ids a Wa)). destruct (members_ b !! local_id a) as [known|] eqn:Ek; [|done]. cbn.
    specialize (Hk known eq_refl). by rewrite (proj2 (Z.leb_gt _ _)) by lia. }
  assert (Em : members_ a' = members_ b').
  { apply map_eq. intros id. destruct (decide (id = local_id a)) as [->|Hne].
    - rewrite Ebs. apply merge_self_same; [|done]. intros m [i Hi]%members_elem Hid. pose proof (mw_ids b' Wb' i m Hi).
      assert (i = local_id a) as -> by congruence. rewrite Ebs in Hi. simplify_eq. lia.
    - unfold a'. rewrite merge_lookup by done. rewrite Hm, lookup_singleton_ne by done. by apply joined_view. }
  cbv beta iota zeta. rewrite lookup_nil. cbv beta iota zeta. match goal with |- context [exchange_gossip ?r a] => assert (Ex : (exchange_gossip r a).1 = a') by (rewrite exchange_merges; cbn [mbind option_bind]; by rewrite Er) end.
  rewrite Ex. split; [done|]. split; [done|]. split.
  - apply set_eq. intros id. rewrite !elem_of_dom, (mw_alive a' Wa'), (mw_alive b' Wb'). by rewrite Em.
  - apply (mw_alive b' Wb'). by exists self.
Qed.

(** ** A round of hinted handoff *)

(** What happens to one queue depends on nothing but the queue and the
    members. *)
Lemma replay_node_frame now sent id (c : Server) :
  let c' := (replay_node now sent id c).1 in
  cl_mem c' = cl_mem c /\ forall id', id' <> id -> cl_hints c' !! id' = cl_hints c !! id'.
Proof.
  unfold replay_node, replay_take. destruct (negb _); [done|]. destruct (nodes_ (cl_mem c) !! id) as [node|]; cbn [fst].
  - destruct (replay_deliver _ _ _) as [[rem n] cmds]. unfold replay_put_back. cbn [fst]. destruct rem as [|h rem]; cbn; (split; [done|]);
      intros id' Hne; by rewrite !lookup_insert_ne.
  - split; [done|]. intros id' Hne. cbn. by rewrite lookup_insert_ne.
Qed.

Lemma replay_node_agree now sent id (c1 c2 : Server) :
  cl_mem c1 = cl_mem c2 -> cl_hints c1 !! id = cl_hints c2 !! id ->
  (replay_node now sent id c1).2 = (replay_node now sent id c2).2 /\
  cl_hints (replay_node now sent id c1).1 !! id = cl_hints (replay_node now sent id c2).1 !! id.
Proof.
  intros Em Eh. unfold replay_node, replay_take. rewrite Em, Eh. destruct (negb _); [done|].
  destruct (nodes_ (cl_mem c2) !! id) as [node|]; cbn [fst snd].
  - destruct (replay_deliver _ _ _) as [[rem n] cmds]. split; [done|]. unfold replay_put_back. cbn.
    destruct rem as [|h rem]; cbn; by rewrite !lookup_insert_eq.
  - split; [done|]. cbn. by rewrite !lookup_insert_eq.
Qed.

(** The order in which the hash table yields the nodes does not matter: every
    queue ends as if its node had been served alone, and each node is sent the
    same commands. *)
Theorem hints_round_any_order now sent ids (c : Server) :
  NoDup ids ->
  let '(c', cmds) := replay_hints now sent ids c in
  cl_mem c' = cl_mem c /\ cmds = (fun id => (id, (replay_node (now id) (sent id) id c).2)) <$> ids /\
  forall id, cl_hints c' !! id = if decide (id ∈ ids) then cl_hints (replay_node (now id) (sent id) id c).1 !! id else cl_hints c !! id.
Proof.
  intros ND. revert c. induction ND as [|i ids Hi ND IH]; intros c; cbn [replay_hints]; [done|].
  destruct (replay_node (now i) (sent i) i c) as [c1 cmds1] eqn:E1. destruct (replay_node_frame (now i) (sent i) i c) as [M1 F1]. rewrite E1 in M1, F1. cbn [fst] in *.
  specialize (IH c1). destruct (replay_hints now sent ids c1) as [c2 more]. destruct IH as (M2 & -> & H2). split; [congruence|].
  assert (A : forall id, id ∈ ids -> (replay_node (now id) (sent id) id c1).2 = (replay_node (now id) (sent id) id c).2 /\
    cl_hints (replay_node (now id) (sent id) id c1).1 !! id = cl_hints (replay_node (now id) (sent id) id c).1 !! id)
    by (intros id Hin; apply replay_node_agree; [done|apply F1; congruence]).
  split.
  - rewrite fmap_cons, E1. f_equal. apply list_fmap_ext. intros k id Hid. f_equal. apply A. by eapply list_elem_of_lookup_2.
  - intros id. rewrite H2. destruct (decide (id ∈ ids)) as [Hin|Hin].
    + rewrite decide_True by (by right). by apply A.
    + destruct (decide (id = i)) as [->|Hne].
      * rewrite decide_True by (by left). by rewrite E1.
      * rewrite decide_False by (rewrite elem_of_cons; tauto). by apply F1.
Qed.

(** *** Witness: node a, which holds a key, leaves; b answers and c does not *)

Definition leaving_cache : ShardedCache :=
  from_option (fun r => r.1.1) small_sharded (vs_apply 0 sample_key (mkVV (lit "v") 150 false None) small_sharded).

Lemma leaving_cache_ok : vs_wf leaving_cache /\ vs_view 0 sample_key leaving_cache = Some (stamp_of_vv (mkVV (lit "v") 150 false None)).
Proof.
  assert (W : vs_wf small_sharded) by (apply sharded_new_wf; lia).
  split; [|vm_compute; reflexivity]. unfold leaving_cache.
  destruct (vs_apply_law 0 sample_key (mkVV (lit "v") 150 false None) small_sharded W) as (s & ch & live & E & Ws & _). rewrite E. exact Ws.
Qed.

Definition leaving_server : Server :=
  mkCluster (mkConfig 0 0 10 Quorum) view_of_a 100 leaving_cache ∅ (mkCounters 0 0 0 0 0 0) [].

Definition leaving_answer (p : CacheNode) : option (RequestResult RespValue) :=
  if bytes_eqb (cn_id p) (lit "b")
  then Some (rr_success (handle_gossip (concat (member_fields <$> Cluster_members (Cluster_leave view_of_a).1)) view_of_b).2)
  else None.

Lemma leaving_answer_ok p remote : (leaving_answer p ≫= reply_members) = Some remote -> Forall no_wrap remote.
Proof.
  unfold leaving_answer. destruct (bytes_eqb (cn_id p) (lit "b")); [|done]. intros H. revert remote H.
  assert (G : from_option (forallb no_wrapb) true (Some (rr_success (handle_gossip (concat (member_fields <$> Cluster_members (Cluster_leave view_of_a).1)) view_of_b).2)
    ≫= reply_members) = true) by (vm_compute; reflexivity).
  intros remote H. rewrite H in G. by apply no_wrap_check.
Qed.

Lemma leave_hands_over_witness :
  exists c' pushes sent view,
    Cluster_leave_now sample_rebalance leaving_answer 5 None leaving_server = Some (c', Some (5, routing_ (cl_mem c')), pushes, sent) /\
    (node_b, gossip_args view) ∈ sent /\
    (exists v owners, Cluster_preference_list sample_key (cl_mem c') = Some owners /\ lit "a" ∉ (cn_id <$> owners) /\
       forall n, n ∈ owners -> mkPush n sample_key v (rb_send sample_rebalance sample_key n) ∈ pushes).
Proof.
  destruct leaving_cache_ok as [Wc Hv].
  destruct (leave_hands_over sample_rebalance leaving_answer 5 None leaving_server info_a) as (c' & pushes & sent & E & _ & P & K).
  - split; [exact Wc|cbn; lia| |].
    + intros id q Hq. cbn [cl_hints leaving_server] in Hq. rewrite lookup_empty in Hq. discriminate Hq.
    + destruct (Membership_run_ok node_a 2 100 [MAdd node_b; MMerge [info_b; info_c]]) as (Wm & E1 & E2 & Y). fold view_of_a in Wm, E1, E2, Y.
      exists (mb_ring_ view_of_a). destruct (mw_ring _ Wm) as (ops & Er & _). split; [rewrite Er; apply Ring_run_wf|].
      split; [vm_compute; discriminate|]. apply Y. intros id H. rewrite !elem_of_cons in H. destruct H as [H|[H|H]]; [discriminate H|discriminate H|].
      by apply elem_of_nil in H.
  - exact view_of_a_ok.
  - vm_compute. reflexivity.
  - split; [discriminate|reflexivity].
  - intros p remote _. apply leaving_answer_ok.
  - vm_compute. discriminate.
  - discriminate.
  - intros key. exists []. reflexivity.
  - exists c', pushes, sent. destruct (P node_b) as (view & Hs & _).
    + apply list_elem_of_lookup_2 with (from_option fst 0%nat (list_find (node_b =.) (Cluster_leave view_of_a).2)). vm_compute. reflexivity.
    + unfold leaving_answer. cbn [cn_id node_b]. eexists. reflexivity.
    + exists view. split; [exact E|]. split; [exact Hs|].
      destruct (K 0 sample_key _ (fun _ => Z.le_refl 0) Hv) as (v & old & owners & _ & Ho & Hp & Hn & Hpush & _).
      exists v, owners. split; [exact Hp|]. split; [exact Hn|]. injection Ho as <-. intros n Hin. apply (Hpush n Hin). apply not_elem_of_nil.
Defined.

(** Node c, which left earlier, comes back and knows only the address of b. *)
Definition joining_node : Membership := Cluster_add_seed (lit "10.0.0.2") 6379 (Membership_init node_c 2 900).

Lemma gossip_join_witness :
  exists a', (gossip_once 3 4 (fun _ => Some (rr_success
    (handle_gossip (cmd_keys (Parser_parse (gossip_args (Cluster_members joining_node)))) view_of_b).2)) joining_node).1 = a' /\
    dom (nodes_ a') = dom (nodes_ (handle_gossip (cmd_keys (Parser_parse (gossip_args (Cluster_members joining_node)))) view_of_b).1).
Proof.
  pose proof (gossip_join joining_node view_of_b (mkMI node_c 900 Alive) (lit "10.0.0.2", 6379) 3 4) as J.
  destruct (handle_gossip (cmd_keys (Parser_parse (gossip_args (Cluster_members joining_node)))) view_of_b) as [b' reply].
  destruct (gossip_once 3 4 (fun _ => Some (rr_success reply)) joining_node) as [a' called] eqn:E. cbn [fst snd]. rewrite E.
  exists a'. split; [reflexivity|]. apply J.
  - exact (proj1 (Membership_exec_ok _ (MSeed (lit "10.0.0.2") 6379) (proj1 (Membership_init_ok node_c 2 900)))).
  - exact view_of_b_ok.
  - discriminate.
  - vm_compute. reflexivity.
  - reflexivity.
  - reflexivity.
  - intros known H. assert (K : (fun m => mi_generation m) <$> members_ view_of_b !! local_id joining_node = Some 301) by (vm_compute; reflexivity).
    rewrite H in K. injection K as ->. reflexivity.
  - constructor; [|constructor]. split; [split; [discriminate|reflexivity]|]. split; [split; [discriminate|reflexivity]|]. split; vm_compute; discriminate.
  - apply (Forall_impl (fun m => bool_decide (0 <= cn_port (mi_node m) < 2 ^ 16 /\ 0 <= mi_generation m < 2 ^ 64 /\
      (length (cn_id (mi_node m)) <= 100)%nat /\ (length (cn_host (mi_node m)) <= 100)%nat) = true)).
    + apply Forall_forall. intros m Hm. apply list_elem_of_In in Hm. revert m Hm. apply forallb_forall. vm_compute. reflexivity.
    + intros m Hm%bool_decide_eq_true. destruct Hm as (H1 & H2 & H3 & H4). split; [exact H1|]. split; [exact H2|].
      unfold bulk_ok, kMaxBulkLength. lia.
Defined.

(** ** EXPIRE against a concurrent DEL *)

Definition alone_server : Server :=
  mkCluster (mkConfig 0 0 10 Linearizable) (alone_mem alone_table) 100 small_sharded ∅ (mkCounters 0 0 0 0 0 0) [].
Definition alone_read : FullReadEnv := mkFullRead 0 (mkReadEnv (fun _ => 0) []) 0 (mkWriteEnv (fun _ => 0) []).
Definition alone_write : FullWriteEnv := mkFullWrite (mkReadEnv (fun _ => 0) []) 0 (mkWriteEnv (fun _ => 0) []).

(** What [expire_key] does after its read. *)
Definition expire_rest (key : bytes) (current : ReadResult) (c : Server) : option (Server * WriteResult) :=
  let '(c', t) := clock_now 0 c in
  '(c'', r, _) ← Cluster_replicate (fw_write alone_write) key (mkVV (vv_value (read_value current)) t false (Some 1000)) c';
  Some (c'', r).

Definition expire_and_del (key : bytes) (c : Server) : option (Server * bool * bool) :=
  '(c1, current, _) ← Cluster_read alone_read key c;
  '(c2, d, _) ← Cluster_del alone_write key c1;
  '(c3, r) ← expire_rest key current c2;
  Some (c3, wr_ok d && wr_existed d, wr_ok r).

(** EXPIRE reads the key and then writes what it read, and nothing keeps other
    writes out in between: a DEL acknowledged meanwhile is undone, even on one
    node in linearizable mode. *)
Theorem expire_undoes_del :
  exists c1 w1 c2 c3 r w3,
    Cluster_put alone_write (lit "k") (lit "v") None alone_server = Some (c1, mkWR true false 1, w1) /\
    expire_and_del (lit "k") c1 = Some (c2, true, true) /\
    Cluster_read alone_read (lit "k") c2 = Some (c3, r, w3) /\ read_status r = RSFound /\ vv_value (read_value r) = lit "v".
Proof.
  assert (X : ('(c1, r1, _) ← Cluster_put alone_write (lit "k") (lit "v") None alone_server;
    '(c2, d, e) ← expire_and_del (lit "k") c1;
    '(_, r, _) ← Cluster_read alone_read (lit "k") c2;
    Some (r1, d, e, read_status r, vv_value (read_value r))) = Some (mkWR true false 1, true, true, RSFound, lit "v")) by (vm_compute; reflexivity).
  destruct (Cluster_put _ _ _ _ _) as [[[c1 r1] w1]|]; [|discriminate X]. cbn [mbind option_bind] in X.
  destruct (expire_and_del _ c1) as [[[c2 d] e]|] eqn:E2; [|discriminate X]. cbn [mbind option_bind] in X.
  destruct (Cluster_read _ _ c2) as [[[c3 r] w3]|] eqn:E3; [|discriminate X]. cbn [mbind option_bind] in X.
  injection X as -> -> -> Hs Hv. exists c1, w1, c2, c3, r, w3. by rewrite E2, E3.
Qed.
