(* ===== verification/Shutdown.v ===== *)
(** * Stopping a node and starting it again

    Models the signal handler of src/main.cpp: the node leaves the cluster and
    deletes its snapshot, or, with LEAVE_ON_SHUTDOWN=0, saves one.  Between the
    start and the signal the node lives: operations of the coordinator, critical
    sections on a shard (expiry, FLUSHALL, rebalancing) and changes of the
    membership, in any order.

    The theorem says that a node that is stopped and started again with the same
    environment comes back with exactly the entries it held that have not
    expired, that a failed save leaves the older snapshot in place, and that a
    node that has left comes back empty. *)

From S2P Require Import Prelude Numerals CacheEntry Cache CacheSpec CacheRefine VersionedStore ShardedCache HybridClock ConsistentHash RoutingTable HealthChecker Membership Resp Parser ReplicaWire Cluster ClusterLemmas ClusterProps CommandHandler HandlerProps Rebalance PeerPool Snapshot Startup ClusterOps.

Local Open Scope Z_scope.

(** ** The handler *)

Record ShutdownEnv := mkShutdownEnv {
  sd_save : SaveEnv;
  sd_now : Z;
  sd_clk : nat -> Z;
  sd_removes : bool;
  sd_rebalance : RebalanceEnv;
  sd_answer : CacheNode -> option (RequestResult RespValue);
  sd_epoch : Z;
  sd_placed : option Published
}.

(** The handler of SIGTERM on a node whose state is [c]; [path] is empty if there
    are no snapshots. *)
Definition main_shutdown (env : Environment) (e : ShutdownEnv) (path : bytes) (c : Server) (fs : Files)
    : option (Server * list Push * Files) :=
  let leaves := match env (lit "LEAVE_ON_SHUTDOWN") with Some v => negb (bytes_eqb v (lit "0")) | None => true end in
  if leaves then
    '(c', _, pushes, _) ← Cluster_leave_now (sd_rebalance e) (sd_answer e) (sd_epoch e) (sd_placed e) c;
    Some (c', pushes, match path with [] => fs | _ => if sd_removes e then delete path fs else fs end)
  else
    Some (c, [], match path with [] => fs | _ => (save_snapshot (sd_save e) (sd_now e) (sd_clk e) (cl_cache c) path fs).1 end).

(** Every file operation of the save succeeds. *)
Definition save_ok (e : SaveEnv) : bool := sv_open e && match sv_write e with inl _ => true | inr _ => false end && sv_rename e.

(** ** The shape of a cache *)

Definition shape (s : ShardedCache) : list Z := capacity_ <$> shards_ s.

Lemma shape_insert i c c' s :
  shards_ s !! i = Some c -> capacity_ c' = capacity_ c -> shape (mkSharded (<[i := c']> (shards_ s))) = shape s.
Proof.
  intros Hc E. unfold shape. cbn [shards_]. rewrite list_fmap_insert, E. apply list_insert_id. by rewrite list_lookup_fmap, Hc.
Qed.

Lemma shape_fresh s s0 : sharded_wf s0 -> shape s0 = shape s -> (forall i c, shards_ s0 !! i = Some c -> lru_list_ c = []) -> fresh_like s s0.
Proof.
  intros W E Hn. split; [done|]. split.
  - apply (f_equal length) in E. unfold shape in E. by rewrite !length_fmap in E.
  - intros i c c0 Hc Hc0. split; [|by eapply Hn]. apply (f_equal (.!! i)) in E. unfold shape in E.
    rewrite !list_lookup_fmap, Hc, Hc0 in E. by injection E as ->.
Qed.

(** A critical section on a shard. *)
Lemma exec_shape i now op s s' r :
  sharded_wf s -> routed (length (shards_ s)) i op -> ShardedCache_exec i now op s = Some (s', r) ->
  sharded_wf s' /\ shape s' = shape s.
Proof.
  intros W Hr E. destruct (sharded_exec_correct i now op s W Hr) as (c & c' & r' & Hc & Ec & Es & W').
  rewrite E in Es. injection Es as -> ->. split; [done|]. apply (shape_insert i c); [done|].
  destruct (sw_shard s W i c Hc) as [[Wc _] _]. by eapply exec_capacity.
Qed.

(** The same store, with the shape as part of what is well formed: what is proved
    of the coordinator over any store keeps the shape. *)
Section Shaped.
Context (caps : list Z).

Definition shaped_store : VersionedStore ShardedCache := {|
  vs_wf s := sharded_wf s /\ shape s = caps;
  vs_apply := ShardedCache_apply;
  vs_get_versioned := ShardedCache_get_versioned;
  vs_remove := ShardedCache_remove;
  vs_snapshot := ShardedCache_snapshots
|}.

Lemma with_shard_shape {R} k s (f : Cache -> option (Cache * R)) s' r now op g :
  sharded_wf s -> op_key op = Some k -> with_shard (get_shard_index k s) f s = Some (s', r) ->
  (forall c c' x, f c = Some (c', x) -> Cache_exec now op c = Some (c', g x)) -> shape s' = shape s.
Proof.
  intros W Hk E Hf. unfold with_shard in E. destruct (shards_ s !! _) as [c|] eqn:Hc; [|done]. cbn [mbind option_bind] in E.
  destruct (f c) as [[c' x]|] eqn:Ef; [|done]. cbn [mbind option_bind] in E. injection E as <- _.
  apply (shape_insert _ c); [done|]. destruct (sw_shard s W _ c Hc) as [[Wc _] _]. eapply exec_capacity; [done|]. by apply Hf.
Qed.

Lemma shaped_laws : @VersionedStoreLaws ShardedCache shaped_store.
Proof.
  pose proof ShardedCache_store_laws as L. split; cbn [vs_wf shaped_store].
  - intros now k v s [W Es]. destruct (vs_apply_law (VersionedStoreLaws := L) now k v s W) as (s' & b & w & E & W' & H).
    exists s', b, w. split; [exact E|]. split; [|exact H]. split; [exact W'|]. rewrite <-Es. cbn [vs_apply ShardedCache_store] in E.
    unfold ShardedCache_apply in E. destruct (with_shard _ _ _) as [[s1 [b1 w1]]|] eqn:E1; [|done]. cbn [mbind option_bind] in E.
    injection E as -> _ _. eapply (with_shard_shape k s _ s' _ now (OpApply k v) (fun x => RApplied x.1 x.2) W eq_refl E1).
    intros c c' x Ef. cbn [Cache_exec]. destruct (Cache_apply now k v c) as [[[d b2] w2]|]; [|done]. cbn [mbind option_bind] in *. by injection Ef as -> <-.
  - intros now k s [W Es]. destruct (vs_get_law (VersionedStoreLaws := L) now k s W) as (s' & r & E & W' & H).
    exists s', r. split; [exact E|]. split; [|exact H]. split; [exact W'|]. rewrite <-Es.
    eapply (with_shard_shape k s _ s' r now (OpGetVersioned k) RVersioned W eq_refl E).
    intros c c' x Ef. cbn [Cache_exec]. by rewrite Ef.
  - intros now k s [W Es]. destruct (vs_remove_law (VersionedStoreLaws := L) now k s W) as (s' & r & E & W' & H).
    exists s', r. split; [exact E|]. split; [|exact H]. split; [exact W'|]. rewrite <-Es.
    eapply (with_shard_shape k s _ s' r now (OpRemove k) RBool W eq_refl E).
    intros c c' x Ef. cbn [Cache_exec]. by rewrite Ef.
  - intros t t' k s [W _]. exact (vs_age_law (VersionedStoreLaws := L) t t' k s W).
  - intros clk s k v [W _]. exact (vs_snapshot_sound (VersionedStoreLaws := L) clk s k v W).
  - intros clk t s k st [W _]. exact (vs_snapshot_complete (VersionedStoreLaws := L) clk t s k st W).
  - intros clk s [W _]. exact (vs_snapshot_nodup (VersionedStoreLaws := L) clk s W).
Qed.

(** ** The life of a node *)

Definition shaped_wf (c : Server) : Prop := @cluster_wf ShardedCache shaped_store c.

Lemma shaped_split c : shaped_wf c <-> cluster_wf c /\ shape (cl_cache c) = caps.
Proof.
  split.
  - intros [[W Es] H1 H2 H3]. split; [|done]. by split.
  - intros [[W H1 H2 H3] Es]. by split.
Qed.
End Shaped.

Inductive LifeEv :=
  | LOp (op : NodeOp)
  | LShard (i : nat) (now : Z) (op : CacheOp)
  | LMembers (m : Membership).

Definition life_step (ev : LifeEv) (c : Server) : option Server :=
  match ev with
  | LOp op => Node_exec op c
  | LShard i now op => '(s, _) ← ShardedCache_exec i now op (cl_cache c); Some (set_cache s c)
  | LMembers m => Some (set_mem m c)
  end.

Definition life_ok (ev : LifeEv) (c : Server) : Prop :=
  match ev with
  | LOp op => op_env_ok c op
  | LShard i _ op => routed (length (shards_ (cl_cache c))) i op
  | LMembers m => routing_ok m
  end.

Inductive lives (c : Server) : Server -> Prop :=
  | lives_start : lives c c
  | lives_step ev c1 c2 : lives c c1 -> life_ok ev c1 -> life_step ev c1 = Some c2 -> lives c c2.

(** Every event keeps the node well formed and its cache of the same shape. *)
Lemma life_step_shape ev c c' :
  cluster_wf c -> life_ok ev c -> life_step ev c = Some c' -> cluster_wf c' /\ shape (cl_cache c') = shape (cl_cache c).
Proof.
  intros W Hok E. destruct ev as [op|i now op|m]; cbn [life_step life_ok] in *.
  - pose proof (shaped_laws (shape (cl_cache c))) as L.
    assert (Ws : shaped_wf (shape (cl_cache c)) c) by (by apply shaped_split).
    destruct (@Node_exec_step ShardedCache (shaped_store (shape (cl_cache c))) L op c Ws Hok) as (c1 & E1 & W1 & _).
    change (Node_exec op c = Some c1) in E1. rewrite E in E1. injection E1 as <-. by apply shaped_split.
  - destruct (ShardedCache_exec i now op (cl_cache c)) as [[s r]|] eqn:Es; [|done]. cbn [mbind option_bind] in E. injection E as <-.
    destruct W as [W1 W2 W3 W4]. destruct (exec_shape i now op _ s r W1 Hok Es) as [Ws Esh]. split; [|done]. by split.
  - injection E as <-. destruct W as [W1 W2 W3 W4]. split; [|done]. by split.
Qed.

Lemma lives_shape c c' : cluster_wf c -> lives c c' -> cluster_wf c' /\ shape (cl_cache c') = shape (cl_cache c).
Proof.
  intros W L. induction L as [|ev c1 c2 L [W1 E1] Hok E]; [done|].
  destruct (life_step_shape ev c1 c2 W1 Hok E) as [W2 E2]. split; [done|]. by rewrite E2.
Qed.

(** ** Loading keeps the shape *)

Lemma apply_entries_shape now t entries n s :
  sharded_wf s -> exists s' n', apply_entries now t entries n s = Some (s', n') /\ sharded_wf s' /\ shape s' = shape s.
Proof.
  revert n s. induction entries as [|e entries IH]; intros n s W; cbn [apply_entries]; [eauto|].
  destruct (restore_entry now e) as [v|]; [|by apply IH].
  destruct (vs_apply_law (VersionedStoreLaws := shaped_laws (shape s)) t (se_key e) v s) as (s1 & b & w & E & [W1 E1] & _); [by split|].
  change (ShardedCache_apply t (se_key e) v s = Some (s1, b, w)) in E. rewrite E. cbn [mbind option_bind].
  destruct (IH (u64 (n + 1)) s1 W1) as (s' & n' & -> & W' & E'). exists s', n'. by rewrite E'.
Qed.

Lemma load_shape now t path fs s :
  sharded_wf s -> exists s' r, load_snapshot now t path fs s = Some (s', r) /\ sharded_wf s' /\ shape s' = shape s.
Proof.
  intros W. unfold load_snapshot. destruct (fs !! path) as [buf|]; [|eauto]. destruct (decode_snapshot_total buf) as [d ->].
  cbn [mbind option_bind]. destruct d as [entries|e]; [|eauto].
  destruct (apply_entries_shape now t entries 0 s W) as (s' & n & -> & H). cbn [mbind option_bind]. eauto.
Qed.

(** ** Starting again *)

Lemma add_peers_again id items m m' : is_Some (add_peers id items m) -> is_Some (add_peers id items m').
Proof.
  revert m m'. induction items as [|item items IH]; intros m m' H; cbn [add_peers] in *; [done|].
  destruct (parse_peer item) as [p|]; [|by destruct H]. cbn [mbind option_bind] in *. by eapply IH.
Qed.

Lemma add_seeds_again items m m' : is_Some (add_seeds items m) -> is_Some (add_seeds items m').
Proof.
  revert m m'. induction items as [|item items IH]; intros m m' H; cbn [add_seeds] in *; [done|].
  destruct (rsplit _ item) as [[h p]|]; [|by eapply IH]. destruct (atoi p); [|by destruct H]. cbn [mbind option_bind] in *. by eapply IH.
Qed.

Lemma env_size_nonneg env name fb n : 0 <= fb -> env_size env name fb = Some n -> 0 <= n.
Proof.
  intros Hf E. unfold env_size, env_int in E. destruct (env name) as [v|]; [|by injection E as <-].
  destruct (atoi v) as [k|]; [|done]. cbn in E. injection E as <-. lia.
Qed.

Lemma env_int_again env name f fb fb' n : env_int env name f fb = Some n -> is_Some (env_int env name f fb').
Proof. unfold env_int. destruct (env name) as [v|]; [|eauto]. intros E. by rewrite E. Qed.

Lemma settings_capacity env cfg : main_settings env = Some (Some cfg) -> 0 <= set_cache_capacity cfg.
Proof.
  intros E. unfold main_settings in E.
  destruct (env_size env (lit "REPLICATION_FACTOR") 3); [|done]. cbn [mbind option_bind] in E.
  destruct (env_size env (lit "READ_QUORUM") 0); [|done]. cbn [mbind option_bind] in E.
  destruct (env_size env (lit "WRITE_QUORUM") 0); [|done]. cbn [mbind option_bind] in E.
  destruct (env_size env (lit "CACHE_CAPACITY") 1000000) as [cap|] eqn:Ec; [|done]. cbn [mbind option_bind] in E.
  apply env_size_nonneg in Ec; [|lia]. destruct (env (lit "CONSISTENCY")) as [v|]; [|by injection E as <-].
  destruct (bytes_eqb v _); [by injection E as <-|]. destruct (negb _); [done|]. by injection E as <-.
Qed.

(** The membership [main] builds is well formed. *)
Definition mem_ok (m : Membership) : Prop := mem_wf m /\ routing_in_sync m.

Lemma exec_mem_ok op m : (forall id, op <> MRemove id) -> mem_ok m -> mem_ok (Membership_exec m op).
Proof. intros Hop [W Y]. destruct (Membership_exec_ok m op W) as (W1 & _ & _ & Y1). split; [done|by apply Y1]. Qed.

Lemma add_peers_ok id items m m' : mem_ok m -> add_peers id items m = Some m' -> mem_ok m'.
Proof.
  revert m. induction items as [|item items IH]; intros m W E; cbn [add_peers] in E; [by injection E as <-|].
  destruct (parse_peer item) as [p|]; [|done]. cbn [mbind option_bind] in E. revert E. destruct p as [node|]; [|by apply IH].
  destruct (bytes_eqb _ _); [by apply IH|]. apply IH. by apply (exec_mem_ok (MAdd node)).
Qed.

Lemma add_seeds_ok items m m' : mem_ok m -> add_seeds items m = Some m' -> mem_ok m'.
Proof.
  revert m. induction items as [|item items IH]; intros m W E; cbn [add_seeds] in E; [by injection E as <-|].
  destruct (rsplit _ item) as [[h p]|]; [|by eapply IH]. destruct (atoi p) as [n|]; [|done]. cbn [mbind option_bind] in E.
  eapply IH; [|exact E]. by apply (exec_mem_ok (MSeed h (u16 n))).
Qed.

Lemma mem_ok_routing m : mem_ok m -> Z.of_nat (size (nodes_ m)) <= 65536 -> routing_ok m.
Proof.
  intros [W Y] Hz. destruct (mw_ring m W) as (ops & Er & _). exists (mb_ring_ m). split; [rewrite Er; apply Ring_run_wf|].
  pose proof (point_owners_nodes m W). split; [lia|done].
Qed.

(** What a start made of the environment, and that a later start with the same
    environment differs by its clocks and files only. *)
Lemma start_again env argv cores boot now t fs nd :
  main_start env argv cores boot now t fs = Some (Some nd) ->
  let path := env_string env (lit "SNAPSHOT_PATH") [] in
  nd_snapshot_path nd = path /\
  exists cap, 0 <= cap /\ let s0 := ShardedCache_new cap 16 default_tombstone_ttl in
    shape (cl_cache (nd_cluster nd)) = shape s0 /\
    (Z.of_nat (size (nodes_ (cl_mem (nd_cluster nd)))) <= 65536 -> cluster_wf (nd_cluster nd)) /\
    (path <> [] -> forall cores' boot' now' t' fs' s' r, load_snapshot now' t' path fs' s0 = Some (s', r) ->
       exists nd', main_start env argv cores' boot' now' t' fs' = Some (Some nd') /\ cl_cache (nd_cluster nd') = s').
Proof.
  intros E. cbv zeta. unfold main_start in E |- *.
  destruct (main_identity env argv) as [[local peers]|]; [|done]. cbn [mbind option_bind] in E |- *.
  destruct (env_int env (lit "IO_THREADS") _ (Z.max 1 cores)) as [io|] eqn:Eio; [|done]. cbn [mbind option_bind] in E.
  destruct (env_int env (lit "RPC_THREADS") _ _) as [rpc|]; [|done]. cbn [mbind option_bind] in E |- *.
  destruct (main_settings env) as [[cfg|]|] eqn:Ecfg; [|done..]. cbn [mbind option_bind] in E |- *.
  destruct (add_peers _ _ (cl_mem (Cluster_new local cfg boot))) as [m|] eqn:Em; [|done]. cbn [mbind option_bind] in E.
  destruct (match env (lit "SEEDS") with Some seeds => _ | None => _ end) as [m'|] eqn:Es; [|done]. cbn [mbind option_bind] in E.
  destruct (env_int env (lit "SNAPSHOT_INTERVAL_SEC") _ _) as [iv|]; [|done]. cbn [mbind option_bind] in E |- *.
  set (path := env_string env (lit "SNAPSHOT_PATH") []) in *.
  destruct (match path with [] => _ | _ => _ end) as [cache|] eqn:Ecache; [|done]. cbn [mbind option_bind] in E.
  destruct (env_int env (lit "METRICS_PORT") _ _) as [mp|] eqn:Emp; [|done]. cbn [mbind option_bind] in E |- *.
  injection E as <-. split; [done|]. pose proof (settings_capacity env cfg Ecfg) as Hcap.
  exists (set_cache_capacity cfg). split; [done|]. set (s0 := ShardedCache_new _ _ _).
  assert (W0 : sharded_wf s0) by (apply sharded_new_wf; unfold default_tombstone_ttl; lia).
  assert (Hc : sharded_wf cache /\ shape cache = shape s0).
  { change (cl_cache (set_mem m' (Cluster_new local cfg boot))) with s0 in Ecache. destruct path; [by injection Ecache as <-|].
    destruct (load_shape now t (a :: path) fs s0 W0) as (s' & r & E' & H). rewrite E' in Ecache. by injection Ecache as <-. }
  split; [apply Hc|]. split.
  { assert (Hm : mem_ok m').
    { assert (H1 : mem_ok m) by (eapply add_peers_ok; [|exact Em]; apply Membership_init_ok).
      destruct (env (lit "SEEDS")); [by eapply add_seeds_ok|by injection Es as <-]. }
    intros Hz. split; [apply Hc|apply Nat.ltb_lt; vm_compute; reflexivity|done|by apply mem_ok_routing]. }
  intros Hne cores' boot' now' t' fs' s' r El.
  destruct (env_int_again _ _ _ _ (Z.max 1 cores') _ Eio) as [io' ->]. cbn [mbind option_bind].
  destruct (add_peers_again _ _ _ (cl_mem (Cluster_new local cfg boot')) (ex_intro _ m Em)) as [m1 ->]. cbn [mbind option_bind].
  assert (Hs : exists m2, match env (lit "SEEDS") with
      | Some seeds => add_seeds (getlines (length seeds) "," seeds) m1 | None => Some m1 end = Some m2).
  { destruct (env (lit "SEEDS")); [|eauto]. by apply (add_seeds_again _ m). }
  destruct Hs as [m2 ->]. cbn [mbind option_bind]. change (cl_cache (set_mem m2 (Cluster_new local cfg boot'))) with s0.
  destruct path as [|a path']; [done|]. rewrite El. cbn [fmap option_fmap option_map mbind option_bind fst].
  eexists. split; [reflexivity|done].
Qed.

Lemma save_cases env now clk s path fs :
  save_ok env = true /\
    match save_snapshot env now clk s path fs with
    | (fs', inl stats) => save_snapshot (mkSaveEnv true (inl tt) true) now clk s path fs = (fs', inl stats)
    | (_, inr _) => False
    end \/
  save_ok env = false /\ exists err, save_snapshot env now clk s path fs = ((save_snapshot env now clk s path fs).1, inr err).
Proof.
  unfold save_ok, save_snapshot. destruct (sv_open env), (sv_write env) as [[]|], (sv_rename env); cbn [negb andb fst]; eauto.
Qed.

Lemma start_fresh cap s : 0 <= cap -> shape s = shape (ShardedCache_new cap 16 default_tombstone_ttl) ->
  fresh_like s (ShardedCache_new cap 16 default_tombstone_ttl).
Proof.
  intros Hc E. apply shape_fresh; [apply sharded_new_wf; unfold default_tombstone_ttl; lia|done|].
  intros i c Hi. unfold ShardedCache_new in Hi. cbn [shards_] in Hi. by apply lookup_replicate in Hi as [-> _].
Qed.

(** ** Properties *)

(** C21: A stopped node comes back with its data.  A node started with snapshots
    and LEAVE_ON_SHUTDOWN=0 that has lived through anything is stopped: if the
    save succeeds, a later start with the same environment holds for every key
    saved that has not expired in wall time its value, version and tombstone
    flag, and nothing for any other key; if any file operation of the save fails
    the older snapshot is still there.  If the node leaves instead and its
    snapshot is deleted, a later start begins with no entry. *)
Theorem restart_restores env argv cores boot now t fs nd c e fs1 :
  let path := nd_snapshot_path nd in
  let saved := concat (ShardedCache_snapshots (sd_clk e) (cl_cache c)) in
  main_start env argv cores boot now t fs = Some (Some nd) ->
  Z.of_nat (size (nodes_ (cl_mem (nd_cluster nd)))) <= 65536 -> lives (nd_cluster nd) c -> path <> [] ->
  (env (lit "LEAVE_ON_SHUTDOWN") = Some (lit "0") ->
     exists fs2, main_shutdown env e path c fs1 = Some (c, [], fs2) /\
     if save_ok (sd_save e) then
       Forall (encodable (sd_now e)) saved -> Z.of_nat (length saved) < 2 ^ 64 ->
       forall cores' boot' now' t', exists nd', main_start env argv cores' boot' now' t' fs2 = Some (Some nd') /\
         (forall k v, (k, v) ∈ saved ->
            vs_view t' k (cl_cache (nd_cluster nd')) =
              match vv_ttl v with
              | Some ttl => if (0 <=? sd_now e + ttl) && (sd_now e + ttl <=? now') then None else Some (stamp_of_vv v)
              | None => Some (stamp_of_vv v)
              end) /\
         (forall k, k ∉ saved.*1 -> vs_view t' k (cl_cache (nd_cluster nd')) = None)
     else fs2 !! path = fs1 !! path) /\
  (forall c' pushes fs2, env (lit "LEAVE_ON_SHUTDOWN") <> Some (lit "0") -> sd_removes e = true ->
     main_shutdown env e path c fs1 = Some (c', pushes, fs2) ->
     forall cores' boot' now' t', exists nd', main_start env argv cores' boot' now' t' fs2 = Some (Some nd') /\
       forall k, vs_view t' k (cl_cache (nd_cluster nd')) = None).
Proof.
  cbv zeta. intros Est Hz L Hne. destruct (start_again _ _ _ _ _ _ _ _ Est) as (Ep & cap & Hcap & Esh & Wst & Hst).
  cbv zeta in Ep, Esh, Wst, Hst. rewrite Ep in *. set (path := env_string env (lit "SNAPSHOT_PATH") []) in *.
  destruct (lives_shape _ c (Wst Hz) L) as [Wc Ec]. rewrite Esh in Ec. pose proof (start_fresh cap _ Hcap Ec) as Fr.
  set (s0 := ShardedCache_new cap 16 default_tombstone_ttl) in *. split.
  - intros Hl. unfold main_shutdown. rewrite Hl, bytes_eqb_refl. cbn [negb].
    assert (Eq : forall x : Files, match path with [] => fs1 | _ => x end = x) by (by destruct path). rewrite Eq.
    eexists. split; [reflexivity|]. destruct (save_cases (sd_save e) (sd_now e) (sd_clk e) (cl_cache c) path fs1) as [Hs|Hs].
    + destruct Hs as (-> & Hs). intros HF HL cores' boot' now' t'. destruct (save_snapshot (sd_save e) _ _ _ path fs1) as [fs2 r]. cbn [fst].
      destruct r as [stats|]; [|done].
      destruct (snapshot_restores (sd_now e) (sd_clk e) (cl_cache c) path fs1 fs2 stats now' t' s0) as (s' & n & E' & _ & V1 & V2); try done.
      { apply Wc. }
      destruct (Hst Hne cores' boot' now' t' fs2 _ _ E') as (nd' & En & <-). eauto.
    + destruct Hs as (-> & err & Hs). rewrite <-(save_failed _ _ _ _ _ _ _ _ Hs). by rewrite Hs.
  - intros c' pushes fs2 Hl Hrm Esd cores' boot' now' t'.
    assert (Hn : load_snapshot now' t' path fs2 s0 = Some (s0, inr (lit "no snapshot at " ++ path))).
    { unfold main_shutdown in Esd. assert (El : (match env (lit "LEAVE_ON_SHUTDOWN") with
        Some v => negb (bytes_eqb v (lit "0")) | None => true end) = true).
      { destruct (env _) as [v|]; [|done]. apply negb_true_iff, not_true_iff_false. intros Hv. apply Hl. f_equal. by apply bytes_eqb_eq. }
      rewrite El in Esd. destruct (Cluster_leave_now _ _ _ _ _) as [[[[d p] q] w]|]; [|done]. cbn [mbind option_bind] in Esd.
      injection Esd as _ _ <-. rewrite Hrm. unfold load_snapshot. destruct path; [done|]. by rewrite lookup_delete_eq. }
    destruct (Hst Hne cores' boot' now' t' fs2 _ _ Hn) as (nd' & En & Ecache). exists nd'. split; [done|].
    intros k. rewrite Ecache. apply (fresh_view (cl_cache c)); [apply Wc|done].
Qed.

(** *** Witness: a node on its own stores a key, is stopped and started again *)

Definition lone_env : Environment :=
  env_of [(lit "NODE_ID", lit "a"); (lit "CACHE_CAPACITY", lit "32"); (lit "SNAPSHOT_PATH", lit "/tmp/snap");
          (lit "LEAVE_ON_SHUTDOWN", lit "0")].

Definition lone_cache : ShardedCache := ShardedCache_new 32 16 default_tombstone_ttl.
Definition lone_value : VersionedValue := mkVV (lit "v") 7 false (Some 5000).
Definition filled_cache : ShardedCache :=
  match ShardedCache_apply 10 (lit "k") lone_value lone_cache with Some (s, _, _) => s | None => lone_cache end.

Definition lone_shutdown : ShutdownEnv :=
  mkShutdownEnv (mkSaveEnv true (inl tt) true) 1000 (fun _ => 20) true sample_rebalance (fun _ => None) 1 None.

Lemma lone_start : exists nd, main_start lone_env [lit "shardcache_app"] 1 1000 0 0 ∅ = Some (Some nd) /\
  cl_cache (nd_cluster nd) = lone_cache /\ Z.of_nat (size (nodes_ (cl_mem (nd_cluster nd)))) <= 65536 /\
  nd_snapshot_path nd = lit "/tmp/snap".
Proof.
  eexists. split; [reflexivity|]. split; [reflexivity|]. split; [|reflexivity].
  transitivity (Z.of_nat 1); [|lia]. apply Nat2Z.inj_le, Nat.eq_le_incl, (map_size_singleton (lit "a")).
Qed.

Lemma lone_life nd :
  cl_cache (nd_cluster nd) = lone_cache -> exists c, lives (nd_cluster nd) c /\ cl_cache c = filled_cache.
Proof.
  intros E. set (ev := LOp (NReplicaWrite 10 (lit "k") lone_value)).
  assert (H : exists c, life_step ev (nd_cluster nd) = Some c /\ cl_cache c = filled_cache).
  { subst ev. cbn [life_step Node_exec]. unfold Cluster_apply_replica_write. cbn [vs_apply ShardedCache_store cl_cache set_clock].
    rewrite E. unfold filled_cache. destruct (ShardedCache_apply 10 (lit "k") lone_value lone_cache) as [[[s b] w]|] eqn:Ea.
    - cbn [mbind option_bind]. eexists. split; [reflexivity|done].
    - vm_compute in Ea. discriminate Ea. }
  destruct H as (c & Es & Ec). exists c. split; [|done]. eapply lives_step; [apply lives_start| |exact Es]. exact I.
Qed.

Lemma filled_saved : exists ttl, concat (ShardedCache_snapshots (fun _ => 20) filled_cache) = [(lit "k", mkVV (lit "v") 7 false (Some ttl))] /\ 4000 <= ttl <= 5000.
Proof. eexists. split; [vm_compute; reflexivity|]. lia. Qed.

Lemma restart_restores_witness : exists nd c fs2 nd',
  main_start lone_env [lit "shardcache_app"] 1 1000 0 0 ∅ = Some (Some nd) /\
  main_shutdown lone_env lone_shutdown (nd_snapshot_path nd) c ∅ = Some (c, [], fs2) /\
  main_start lone_env [lit "shardcache_app"] 1 3000 3000 0 fs2 = Some (Some nd') /\
  vs_view 0 (lit "k") (cl_cache (nd_cluster nd')) = Some (mkStamp 7 false (lit "v")).
Proof.
  destruct lone_start as (nd & Est & Ec & Hz & Ep). destruct (lone_life nd Ec) as (c & L & Ef).
  destruct filled_saved as (ttl & Esv & Ht).
  destruct (restart_restores lone_env [lit "shardcache_app"] 1 1000 0 0 ∅ nd c lone_shutdown ∅ Est Hz L) as [R _].
  { rewrite Ep. discriminate. }
  destruct (R eq_refl) as (fs2 & E2 & H). cbn [sd_save lone_shutdown save_ok sv_open sv_write sv_rename andb sd_clk sd_now] in H.
  rewrite Ef, Esv in H. destruct (H) with (cores' := 1) (boot' := 3000) (now' := 3000) (t' := 0) as (nd' & En & V & _).
  - constructor; [|constructor]. unfold encodable. cbn. split; [lia|]. split; [lia|]. split; [lia|]. intros x [= <-]. lia.
  - cbn. lia.
  - exists nd, c, fs2, nd'. split; [exact Est|]. split; [exact E2|]. split; [exact En|].
    rewrite (V (lit "k") (mkVV (lit "v") 7 false (Some ttl))) by left. cbn [vv_ttl].
    rewrite (proj2 (Z.leb_gt (1000 + ttl) 3000)) by lia. by rewrite andb_false_r.
Defined.
