(* ===== verification/MetricsServer.v ===== *)
(** * The metrics endpoint

    Models network/metrics_server.cpp: the Prometheus text [render_metrics] makes
    of a handler, and the HTTP response of a connection.  A read of the request
    gives the bytes received when the blank line has arrived.

    The theorems say that a response carries exactly its body, that the body is
    read back as the samples it was made of, no series twice, and that the
    samples of a command report the commands the handler has executed. *)

From Stdlib Require Import SpecFloat.
From S2P Require Import Prelude Numerals CacheEntry Cache VersionedStore ShardedCache ConsistentHash RoutingTable Membership Resp Parser ReplicaWire Cluster ClusterLemmas ClusterProps Doubles Metrics CommandHandler HandlerProps Startup ClusterOps.

Local Open Scope Z_scope.

(** ** Rendering *)

Definition command_label (t : CommandType) : bytes :=
  match t with
  | CGet => lit "get"
  | CSet => lit "set"
  | CDelete => lit "del"
  | CExists => lit "exists"
  | CExpire => lit "expire"
  | CTtl => lit "ttl"
  | CPttl => lit "pttl"
  | CStats => lit "info"
  | CPing => lit "ping"
  | CEcho => lit "echo"
  | CDbSize => lit "dbsize"
  | CFlushAll => lit "flushall"
  | CCommandDocs => lit "command"
  | CConfig => lit "config"
  | CSelect => lit "select"
  | CClient => lit "client"
  | CQuit => lit "quit"
  | CReplSet => lit "repl_set"
  | CReplDelete => lit "repl_del"
  | CReplGet => lit "repl_get"
  | CClusterGossip => lit "cluster_gossip"
  | CClusterNodes => lit "cluster_nodes"
  | CUnknown => lit "unknown"
  end.

Definition DQUOTE : ascii := ascii_of_nat 34.
Definition SP : ascii := " "%char.

Definition metric (out name type help : bytes) : bytes :=
  out ++ lit "# HELP " ++ name ++ SP :: help ++ LF :: lit "# TYPE " ++ name ++ SP :: type ++ [LF].

(** The metrics of a command type; the array has one element per type. *)
Definition handler_metrics (h : CommandHandler) (t : CommandType) : CommandMetrics :=
  default CommandMetrics_new (ch_metrics h !! type_index t).

(** A line "name{cmd="label"} value". *)
Definition labelled (name label value : bytes) : bytes :=
  name ++ lit "{cmd=" ++ DQUOTE :: label ++ DQUOTE :: lit "} " ++ value ++ [LF].

(** The loops over the counters. *)
Definition render_calls (h : CommandHandler) (out : bytes) (t : CommandType) : bytes :=
  let n := StripedCounter_value (cm_calls (handler_metrics h t)) in
  if 0 <? n then out ++ labelled (lit "shardcache_commands_total") (command_label t) (to_dec n) else out.

Definition render_errors (h : CommandHandler) (out : bytes) (t : CommandType) : bytes :=
  let n := StripedCounter_value (cm_errors (handler_metrics h t)) in
  if 0 <? n then out ++ labelled (lit "shardcache_command_errors_total") (command_label t) (to_dec n) else out.

(** One bucket's line. *)
Definition bucket_line (label le : bytes) (n : Z) : bytes :=
  lit "shardcache_command_duration_seconds_bucket{cmd=" ++ DQUOTE :: label ++ DQUOTE :: lit ",le=" ++
  DQUOTE :: le ++ DQUOTE :: lit "} " ++ to_dec n ++ [LF].

(** The loop over the buckets, with the running total. *)
Definition render_bucket (label : bytes) (m : LatencyHistogram) (acc : bytes * Z) (b : nat) : bytes * Z :=
  let n := u64 (acc.2 + LatencyHistogram_bucket b m) in
  (acc.1 ++ bucket_line label (show_double (LatencyHistogram_bound b)) n, n).

Definition render_latency (h : CommandHandler) (out : bytes) (t : CommandType) : bytes :=
  let m := cm_latency (handler_metrics h t) in
  if LatencyHistogram_count m =? 0 then out
  else
    let label := command_label t in
    let '(out, n) := foldl (render_bucket label m) (out, 0) (seq 0 kBuckets) in
    let n := u64 (n + LatencyHistogram_bucket kBuckets m) in
    out ++ bucket_line label (lit "+Inf") n ++
    labelled (lit "shardcache_command_duration_seconds_sum") label (show_double (LatencyHistogram_sum_seconds m)) ++
    labelled (lit "shardcache_command_duration_seconds_count") label (to_dec n).

Definition counter (name help : bytes) (v : Z) (out : bytes) : bytes :=
  metric out name (lit "counter") help ++ name ++ SP :: to_dec v ++ [LF].

(** The value is a [double]: the number converted, and printed with six digits. *)
Definition gauge (name help : bytes) (v : Z) (out : bytes) : bytes :=
  metric out name (lit "gauge") help ++ name ++ SP :: show_double (double_of v) ++ [LF].

Definition render_metrics (h : CommandHandler) : bytes :=
  let c := ch_cluster h in
  let cache := ShardedCache_totals (cl_cache c) in
  let stats := Cluster_stats c in
  let out := metric [] (lit "shardcache_commands_total") (lit "counter") (lit "Commands executed, by command.") in
  let out := foldl (render_calls h) out command_types in
  let out := metric out (lit "shardcache_command_errors_total") (lit "counter") (lit "Commands answered with an error reply.") in
  let out := foldl (render_errors h) out command_types in
  let out := metric out (lit "shardcache_command_duration_seconds") (lit "histogram") (lit "Command execution time on this node.") in
  let out := foldl (render_latency h) out command_types in
  let out := counter (lit "shardcache_cache_hits_total") (lit "Local cache lookups that found a live key.") (hits cache) out in
  let out := counter (lit "shardcache_cache_misses_total") (lit "Local cache lookups that found nothing.") (misses cache) out in
  let out := counter (lit "shardcache_cache_evictions_total") (lit "Entries evicted by the LRU policy.") (evictions cache) out in
  let out := counter (lit "shardcache_cache_expirations_total") (lit "Entries removed because their TTL elapsed.") (expirations cache) out in
  let out := gauge (lit "shardcache_cache_keys") (lit "Live keys stored on this node.") (ShardedCache_size (cl_cache c)) out in
  let out := gauge (lit "shardcache_cache_capacity") (lit "Maximum entries this node stores.") (ShardedCache_capacity (cl_cache c)) out in
  let out := counter (lit "shardcache_read_quorum_failures_total") (lit "Reads that could not reach R replicas.") (read_quorum_failures (cs_counters stats)) out in
  let out := counter (lit "shardcache_write_quorum_failures_total") (lit "Writes that could not reach W replicas.") (write_quorum_failures (cs_counters stats)) out in
  let out := counter (lit "shardcache_read_repairs_total") (lit "Stale replicas repaired by reads.") (read_repairs (cs_counters stats)) out in
  let out := counter (lit "shardcache_hints_delivered_total") (lit "Missed writes delivered by hinted handoff.") (hints_delivered (cs_counters stats)) out in
  let out := counter (lit "shardcache_hints_dropped_total") (lit "Hints discarded because a queue was full.") (hints_dropped (cs_counters stats)) out in
  let out := counter (lit "shardcache_rebalance_keys_moved_total") (lit "Keys streamed to new owners after membership changes.") (keys_moved (cs_counters stats)) out in
  let out := gauge (lit "shardcache_hints_pending") (lit "Missed writes queued for unreachable replicas.") (cs_hints_pending stats) out in
  let out := gauge (lit "shardcache_cluster_nodes") (lit "Nodes in this node's ring.") (cs_ring_nodes stats) out in
  let out := gauge (lit "shardcache_cluster_healthy_nodes") (lit "Ring nodes currently passing health checks.") (cs_healthy_nodes stats) out in
  let out := counter (lit "shardcache_connections_total") (lit "Client connections accepted.") (StripedCounter_value (ch_connections_total h)) out in
  gauge (lit "shardcache_connections_active") (lit "Client connections currently open.") (ch_connections_active h) out.

(** ** The HTTP connection *)

(** [is >> word]: white space is skipped, then the word goes up to white space;
    empty at the end of the input. *)
Fixpoint take_word (s : bytes) : bytes * bytes :=
  match s with
  | [] => ([], [])
  | c :: s' => if is_space c then ([], s) else let '(w, rest) := take_word s' in (c :: w, rest)
  end.

Definition read_word (s : bytes) : bytes * bytes := take_word (drop_spaces s).

Definition http_head (status type : bytes) (len : Z) : bytes :=
  lit "HTTP/1.1 " ++ status ++ CRLF ++ lit "Content-Type: " ++ type ++ CRLF ++ lit "Content-Length: " ++
  to_dec len ++ CRLF ++ lit "Connection: close" ++ CRLF ++ CRLF.

Definition respond (method path : bytes) (h : CommandHandler) : bytes :=
  let text := lit "text/plain; version=0.0.4; charset=utf-8" in
  let '(status, type, body) :=
    if negb (bytes_eqb method (lit "GET")) then (lit "405 Method Not Allowed", text, lit "method not allowed" ++ [LF])
    else if bytes_eqb path (lit "/metrics") then (lit "200 OK", text, render_metrics h)
    else if bytes_eqb path (lit "/health") || bytes_eqb path (lit "/healthz")
    then (lit "200 OK", lit "text/plain; charset=utf-8", lit "ok" ++ [LF])
    else (lit "404 Not Found", text, lit "not found" ++ [LF]) in
  http_head status type (Z.of_nat (length body)) ++ body.

(** The limit of the request buffer. *)
Definition kMaxRequest : nat := Z.to_nat 8192.

(** Whether the blank line that ends a request is there. *)
Fixpoint find_blank (s : bytes) : bool :=
  match s with
  | [] => false
  | _ :: s' => bool_decide (take 4 s = CRLF ++ CRLF) || find_blank s'
  end.

(** [HttpConnection::start]: [None] while the end of the request has not
    arrived; the read fails, with no response, when the buffer is full before. *)
Definition http_request (received : bytes) (h : CommandHandler) : option (option bytes) :=
  match find_blank (take kMaxRequest received) with
  | true =>
      let '(method, rest) := read_word (take kMaxRequest received) in
      let '(path, _) := read_word rest in
      Some (Some (respond method path h))
  | false => if (kMaxRequest <=? length received)%nat then Some None else None
  end.

(** ** Reading the text back *)

Inductive Item := Meta (name type help : bytes) | Sample (series value : bytes).

Definition item_text (x : Item) : bytes :=
  match x with
  | Meta name type help => lit "# HELP " ++ name ++ SP :: help ++ LF :: lit "# TYPE " ++ name ++ SP :: type ++ [LF]
  | Sample series value => series ++ SP :: value ++ [LF]
  end.

Definition text (l : list Item) : bytes := concat (item_text <$> l).

(** A scraper: every line that is no comment is a series and, after the last
    blank, its value. *)
Definition sample_of (line : bytes) : option (bytes * bytes) :=
  match line with
  | c :: _ => if Ascii.eqb c "#" then None else rsplit SP line
  | [] => None
  end.

Definition scrape (body : bytes) : list (bytes * bytes) := omap sample_of (getlines (length body) LF body).

Definition clean (s : bytes) : Prop := SP ∉ s /\ LF ∉ s.

Definition item_ok (x : Item) : Prop :=
  match x with
  | Meta name type help => LF ∉ name /\ LF ∉ type /\ LF ∉ help
  | Sample series value => LF ∉ series /\ clean value /\ match series with c :: _ => Ascii.eqb c "#" = false | [] => False end
  end.

Definition item_samples (x : Item) : list (bytes * bytes) :=
  match x with Meta _ _ _ => [] | Sample series value => [(series, value)] end.

Lemma rsplit_none d s : d ∉ s -> rsplit d s = None.
Proof.
  induction s as [|c s IH]; intros H; [done|]. rewrite not_elem_of_cons in H. destruct H as [Hc Hs]. cbn. rewrite IH by done.
  destruct (Ascii.eqb_spec c d) as [->|_]; [|done]. by destruct Hc.
Qed.

Lemma rsplit_at d a b : d ∉ b -> rsplit d (a ++ d :: b) = Some (a, b).
Proof.
  intros H. induction a as [|c a IH]; cbn; [rewrite rsplit_none by done; by rewrite Ascii.eqb_refl|]. by rewrite IH.
Qed.

Lemma getlines_cons d x rest fuel :
  d ∉ x -> (length (x ++ d :: rest) <= fuel)%nat -> exists fuel', (length rest <= fuel')%nat /\
    getlines fuel d (x ++ d :: rest) = x :: getlines fuel' d rest.
Proof.
  intros Hx Hf. destruct fuel as [|fuel]; [rewrite length_app in Hf; cbn in Hf; lia|]. exists fuel. rewrite length_app in Hf. cbn in Hf.
  split; [lia|]. cbn [getlines]. by rewrite getline_at.
Qed.

Lemma not_in_app (c : ascii) (a b : bytes) : c ∉ a -> c ∉ b -> c ∉ a ++ b.
Proof. rewrite elem_of_app. tauto. Qed.

Lemma not_in_cons (c x : ascii) (s : bytes) : x <> c -> c ∉ s -> c ∉ x :: s.
Proof. rewrite elem_of_cons. intuition congruence. Qed.

(** What the scraper reads of one item. *)
Lemma scrape_item x rest fuel :
  item_ok x -> (length (item_text x ++ rest) <= fuel)%nat -> exists fuel', (length rest <= fuel')%nat /\
    omap sample_of (getlines fuel LF (item_text x ++ rest)) = item_samples x ++ omap sample_of (getlines fuel' LF rest).
Proof.
  destruct x as [name type help|series value]; cbn [item_ok item_text item_samples]; intros Hok Hf.
  - destruct Hok as (Hn & Ht & Hh).
    replace ((lit "# HELP " ++ name ++ SP :: help ++ LF :: lit "# TYPE " ++ name ++ SP :: type ++ [LF]) ++ rest)
      with ((lit "# HELP " ++ name ++ SP :: help) ++ LF :: (lit "# TYPE " ++ name ++ SP :: type) ++ LF :: rest) in *
      by (repeat (rewrite <-!app_assoc; cbn [app]); reflexivity).
    destruct (getlines_cons LF (lit "# HELP " ++ name ++ SP :: help) ((lit "# TYPE " ++ name ++ SP :: type) ++ LF :: rest) fuel) as (f1 & H1 & ->); [|done|].
    { apply not_in_app; [by apply (bool_decide_eq_true_1 _)|]. apply not_in_app; [done|]. by apply not_in_cons. }
    destruct (getlines_cons LF (lit "# TYPE " ++ name ++ SP :: type) rest f1) as (f2 & H2 & ->); [|done|].
    { apply not_in_app; [by apply (bool_decide_eq_true_1 _)|]. apply not_in_app; [done|]. by apply not_in_cons. }
    exists f2. by split.
  - destruct Hok as (Hs & [Hv1 Hv2] & Hh).
    replace ((series ++ SP :: value ++ [LF]) ++ rest) with ((series ++ SP :: value) ++ LF :: rest) in *
      by (repeat (rewrite <-!app_assoc; cbn [app]); reflexivity).
    destruct (getlines_cons LF (series ++ SP :: value) rest fuel) as (f1 & H1 & ->); [by apply not_in_app; [|apply not_in_cons]|done|].
    exists f1. split; [done|]. cbn [omap list_omap].
    assert (E : sample_of (series ++ SP :: value) = Some (series, value)).
    { unfold sample_of. pose proof (rsplit_at SP series value Hv1) as E. destruct series as [|c series]; [done|]. cbn [app] in *. by rewrite Hh. }
    by rewrite E.
Qed.

Lemma scrape_text l : Forall item_ok l -> scrape (text l) = concat (item_samples <$> l).
Proof.
  intros HF. unfold scrape. assert (G : forall fuel, (length (text l) <= fuel)%nat ->
    omap sample_of (getlines fuel LF (text l)) = concat (item_samples <$> l)); [|by apply G].
  induction HF as [|x l Hx HF IH]; intros fuel Hf; [by destruct fuel|]. unfold text in *. cbn [fmap list_fmap concat] in *.
  destruct (scrape_item x (concat (item_text <$> l)) fuel Hx Hf) as (f1 & H1 & ->). by rewrite IH.
Qed.

(** ** What is rendered *)

Lemma text_app l1 l2 : text (l1 ++ l2) = text l1 ++ text l2.
Proof. unfold text. by rewrite fmap_app, concat_app. Qed.

Definition series_of (name label : bytes) : bytes := name ++ lit "{cmd=" ++ DQUOTE :: label ++ [DQUOTE; "}"%char].

Definition bucket_series (label le : bytes) : bytes :=
  lit "shardcache_command_duration_seconds_bucket{cmd=" ++ DQUOTE :: label ++ DQUOTE :: lit ",le=" ++ DQUOTE :: le ++ [DQUOTE; "}"%char].

Definition calls_series (t : CommandType) : bytes := series_of (lit "shardcache_commands_total") (command_label t).
Definition errors_series (t : CommandType) : bytes := series_of (lit "shardcache_command_errors_total") (command_label t).
Definition le_series (t : CommandType) (b : nat) : bytes := bucket_series (command_label t) (show_double (LatencyHistogram_bound b)).
Definition inf_series (t : CommandType) : bytes := bucket_series (command_label t) (lit "+Inf").
Definition sum_series (t : CommandType) : bytes := series_of (lit "shardcache_command_duration_seconds_sum") (command_label t).
Definition count_series (t : CommandType) : bytes := series_of (lit "shardcache_command_duration_seconds_count") (command_label t).

Definition calls_items (h : CommandHandler) (t : CommandType) : list Item :=
  let n := StripedCounter_value (cm_calls (handler_metrics h t)) in
  if 0 <? n then [Sample (calls_series t) (to_dec n)] else [].

Definition errors_items (h : CommandHandler) (t : CommandType) : list Item :=
  let n := StripedCounter_value (cm_errors (handler_metrics h t)) in
  if 0 <? n then [Sample (errors_series t) (to_dec n)] else [].

Definition latency_items (h : CommandHandler) (t : CommandType) : list Item :=
  let m := cm_latency (handler_metrics h t) in
  if LatencyHistogram_count m =? 0 then []
  else
    ((fun b => Sample (le_series t b) (to_dec (cumulative b m))) <$> seq 0 kBuckets) ++
    [Sample (inf_series t) (to_dec (cumulative kBuckets m));
     Sample (sum_series t) (show_double (LatencyHistogram_sum_seconds m));
     Sample (count_series t) (to_dec (cumulative kBuckets m))].

Definition counter_items (name help : bytes) (v : Z) : list Item := [Meta name (lit "counter") help; Sample name (to_dec v)].
Definition gauge_items (name help : bytes) (v : Z) : list Item := [Meta name (lit "gauge") help; Sample name (show_double (double_of v))].

Definition node_items (h : CommandHandler) : list Item :=
  counter_items (lit "shardcache_cache_hits_total") (lit "Local cache lookups that found a live key.") (hits (ShardedCache_totals (cl_cache (ch_cluster h)))) ++
  counter_items (lit "shardcache_cache_misses_total") (lit "Local cache lookups that found nothing.") (misses (ShardedCache_totals (cl_cache (ch_cluster h)))) ++
  counter_items (lit "shardcache_cache_evictions_total") (lit "Entries evicted by the LRU policy.") (evictions (ShardedCache_totals (cl_cache (ch_cluster h)))) ++
  counter_items (lit "shardcache_cache_expirations_total") (lit "Entries removed because their TTL elapsed.") (expirations (ShardedCache_totals (cl_cache (ch_cluster h)))) ++
  gauge_items (lit "shardcache_cache_keys") (lit "Live keys stored on this node.") (ShardedCache_size (cl_cache (ch_cluster h))) ++
  gauge_items (lit "shardcache_cache_capacity") (lit "Maximum entries this node stores.") (ShardedCache_capacity (cl_cache (ch_cluster h))) ++
  counter_items (lit "shardcache_read_quorum_failures_total") (lit "Reads that could not reach R replicas.") (read_quorum_failures (cs_counters (Cluster_stats (ch_cluster h)))) ++
  counter_items (lit "shardcache_write_quorum_failures_total") (lit "Writes that could not reach W replicas.") (write_quorum_failures (cs_counters (Cluster_stats (ch_cluster h)))) ++
  counter_items (lit "shardcache_read_repairs_total") (lit "Stale replicas repaired by reads.") (read_repairs (cs_counters (Cluster_stats (ch_cluster h)))) ++
  counter_items (lit "shardcache_hints_delivered_total") (lit "Missed writes delivered by hinted handoff.") (hints_delivered (cs_counters (Cluster_stats (ch_cluster h)))) ++
  counter_items (lit "shardcache_hints_dropped_total") (lit "Hints discarded because a queue was full.") (hints_dropped (cs_counters (Cluster_stats (ch_cluster h)))) ++
  counter_items (lit "shardcache_rebalance_keys_moved_total") (lit "Keys streamed to new owners after membership changes.") (keys_moved (cs_counters (Cluster_stats (ch_cluster h)))) ++
  gauge_items (lit "shardcache_hints_pending") (lit "Missed writes queued for unreachable replicas.") (cs_hints_pending (Cluster_stats (ch_cluster h))) ++
  gauge_items (lit "shardcache_cluster_nodes") (lit "Nodes in this node's ring.") (cs_ring_nodes (Cluster_stats (ch_cluster h))) ++
  gauge_items (lit "shardcache_cluster_healthy_nodes") (lit "Ring nodes currently passing health checks.") (cs_healthy_nodes (Cluster_stats (ch_cluster h))) ++
  counter_items (lit "shardcache_connections_total") (lit "Client connections accepted.") (StripedCounter_value (ch_connections_total h)) ++
  gauge_items (lit "shardcache_connections_active") (lit "Client connections currently open.") (ch_connections_active h).

Definition items (h : CommandHandler) : list Item :=
  [Meta (lit "shardcache_commands_total") (lit "counter") (lit "Commands executed, by command.")] ++ concat (calls_items h <$> command_types) ++
  [Meta (lit "shardcache_command_errors_total") (lit "counter") (lit "Commands answered with an error reply.")] ++ concat (errors_items h <$> command_types) ++
  [Meta (lit "shardcache_command_duration_seconds") (lit "histogram") (lit "Command execution time on this node.")] ++
  concat (latency_items h <$> command_types) ++ node_items h.

Ltac flatten := repeat (rewrite <-!app_assoc; cbn [app]); reflexivity.

Lemma metric_text out name type help : metric out name type help = out ++ text [Meta name type help].
Proof. unfold metric, text. cbn [fmap list_fmap concat item_text]. by rewrite app_nil_r. Qed.

Lemma labelled_text name label value : labelled name label value = text [Sample (series_of name label) value].
Proof. unfold labelled, text, series_of. cbn [fmap list_fmap concat item_text]. rewrite app_nil_r. flatten. Qed.

Lemma bucket_text label le n : bucket_line label le n = text [Sample (bucket_series label le) (to_dec n)].
Proof. unfold bucket_line, text, bucket_series. cbn [fmap list_fmap concat item_text]. rewrite app_nil_r. flatten. Qed.

Lemma counter_text name help v out : counter name help v out = out ++ text (counter_items name help v).
Proof. unfold counter, counter_items. rewrite metric_text. unfold text. cbn [fmap list_fmap concat item_text]. rewrite !app_nil_r. flatten. Qed.

Lemma gauge_text name help v out : gauge name help v out = out ++ text (gauge_items name help v).
Proof. unfold gauge, gauge_items. rewrite metric_text. unfold text. cbn [fmap list_fmap concat item_text]. rewrite !app_nil_r. flatten. Qed.

(** A loop that appends the text of some items for each command type. *)
Lemma loop_text (f : bytes -> CommandType -> bytes) (g : CommandType -> list Item) ts out :
  (forall out t, f out t = out ++ text (g t)) -> foldl f out ts = out ++ text (concat (g <$> ts)).
Proof.
  intros H. revert out. induction ts as [|t ts IH]; intros out; [by rewrite app_nil_r|]. cbn [foldl fmap list_fmap concat].
  rewrite IH, H, text_app. by rewrite <-app_assoc.
Qed.

Lemma buckets_text label m out k :
  foldl (render_bucket label m) (out, 0) (seq 0 (S k)) =
  (out ++ text ((fun b => Sample (bucket_series label (show_double (LatencyHistogram_bound b))) (to_dec (cumulative b m))) <$> seq 0 (S k)), cumulative k m).
Proof.
  induction k as [|k IH].
  - cbn [seq foldl fmap list_fmap]. unfold render_bucket. cbn [fst snd]. by rewrite bucket_text.
  - rewrite (seq_S (S k) 0), foldl_app, IH, fmap_app, text_app, app_assoc. cbn [foldl fmap list_fmap plus].
    unfold render_bucket. cbn [fst snd]. rewrite bucket_text. done.
Qed.

Lemma cumulative_S k m : u64 (cumulative k m + LatencyHistogram_bucket (S k) m) = cumulative (S k) m.
Proof. done. Qed.

Lemma latency_text h out t : render_latency h out t = out ++ text (latency_items h t).
Proof.
  unfold render_latency, latency_items. destruct (_ =? 0); [by rewrite app_nil_r|]. change kBuckets with (S 18).
  rewrite buckets_text. cbv beta iota zeta. rewrite cumulative_S.
  rewrite bucket_text, !labelled_text, text_app, <-!app_assoc. do 2 f_equal. by rewrite <-!text_app.
Qed.

Lemma calls_text h out t : render_calls h out t = out ++ text (calls_items h t).
Proof. unfold render_calls, calls_items. destruct (0 <? _); [by rewrite labelled_text|by rewrite app_nil_r]. Qed.

Lemma errors_text h out t : render_errors h out t = out ++ text (errors_items h t).
Proof. unfold render_errors, errors_items. destruct (0 <? _); [by rewrite labelled_text|by rewrite app_nil_r]. Qed.

Lemma render_text h : render_metrics h = text (items h).
Proof.
  unfold render_metrics. cbv zeta. rewrite (loop_text _ _ _ _ (latency_text h)), (loop_text _ _ _ _ (errors_text h)), (loop_text _ _ _ _ (calls_text h)).
  repeat (rewrite counter_text || rewrite gauge_text). rewrite !metric_text. unfold items, node_items. rewrite !text_app, <-!app_assoc. reflexivity.
Qed.

(** ** Series and values *)

Lemma clean_app a b : clean a -> clean b -> clean (a ++ b).
Proof. intros [? ?] [? ?]. split; by apply not_in_app. Qed.

Lemma clean_check s : forallb (fun c => negb (Ascii.eqb c SP) && negb (Ascii.eqb c LF)) s = true -> clean s.
Proof.
  rewrite forallb_forall. intros H. split; intros Hin; apply list_elem_of_In, H in Hin; vm_compute in Hin; discriminate Hin.
Qed.

Lemma clean_dec n : clean (to_dec n).
Proof. split; by apply to_dec_not_in. Qed.

Lemma clean_pad w n : clean (pad_dec w n).
Proof.
  unfold pad_dec. apply clean_app; [|apply clean_dec]. split; intros H; apply elem_of_replicate in H as [H _]; discriminate H.
Qed.

Lemma drop_zeros_elem c s : c ∈ drop_zeros s -> c ∈ s.
Proof. induction s as [|x s IH]; [done|]. cbn. destruct (Ascii.eqb x "0"); [|done]. intros H. right. auto. Qed.

Lemma clean_fraction s : clean s -> clean (fraction s).
Proof.
  intros [H1 H2]. unfold fraction. assert (H : forall c, c ∈ rev (drop_zeros (rev s)) -> c ∈ s).
  { intros c. rewrite !list_elem_of_In, <-in_rev, <-list_elem_of_In. intros Hc%drop_zeros_elem. by rewrite list_elem_of_In, <-in_rev in Hc. }
  destruct (rev (drop_zeros (rev s))) as [|c l]; [by apply clean_check|]. apply clean_app; [by apply clean_check|]. split; intros Hin; auto.
Qed.

Lemma clean_sign b s : clean s -> clean (with_sign b s).
Proof. intros H. destruct b; [|done]. apply clean_app; [by apply clean_check|done]. Qed.

Lemma clean_double v : clean (show_double v).
Proof.
  destruct v as [b|b| |b m e]; cbn [show_double]; try (by apply clean_sign, clean_check); [by apply clean_check|].
  destruct (ratio m e) as [x y]. destruct (leading6 x y) as [d k]. apply clean_sign. destruct (_ && _).
  - apply clean_app; [apply clean_dec|apply clean_fraction, clean_pad].
  - apply clean_app; [apply clean_dec|]. apply clean_app; [apply clean_fraction, clean_pad|]. apply clean_app; [by apply clean_check|].
    apply clean_app; [|apply clean_pad]. destruct (_ <? _); by apply clean_check.
Qed.

(** Every series there can be. *)
Definition latency_series (t : CommandType) : list bytes :=
  (le_series t <$> seq 0 kBuckets) ++ [inf_series t; sum_series t; count_series t].

Definition node_series : list bytes :=
  lit <$> ["shardcache_cache_hits_total"; "shardcache_cache_misses_total"; "shardcache_cache_evictions_total"; "shardcache_cache_expirations_total"; "shardcache_cache_keys"; "shardcache_cache_capacity"; "shardcache_read_quorum_failures_total"; "shardcache_write_quorum_failures_total"; "shardcache_read_repairs_total"; "shardcache_hints_delivered_total"; "shardcache_hints_dropped_total"; "shardcache_rebalance_keys_moved_total"; "shardcache_hints_pending"; "shardcache_cluster_nodes"; "shardcache_cluster_healthy_nodes"; "shardcache_connections_total"; "shardcache_connections_active"]%string.

Definition all_series : list bytes :=
  (calls_series <$> command_types) ++ (errors_series <$> command_types) ++ concat (latency_series <$> command_types) ++ node_series.

Definition plain_series (s : bytes) : bool :=
  forallb (fun c => negb (Ascii.eqb c LF)) s && match s with c :: _ => negb (Ascii.eqb c "#") | [] => false end.

Fixpoint same_text (a b : bytes) : bool :=
  match a, b with
  | [], [] => true
  | x :: a', y :: b' => if Ascii.eqb x y then same_text a' b' else false
  | _, _ => false
  end.

Lemma same_text_refl a : same_text a a = true.
Proof. induction a as [|c a IH]; [done|]. cbn. by rewrite Ascii.eqb_refl. Qed.

(** Series end differently, so they are compared from the end. *)
Fixpoint nodupb (l : list bytes) : bool :=
  match l with
  | [] => true
  | x :: l' => forallb (fun y => negb (same_text x y)) l' && nodupb l'
  end.

Lemma nodupb_ok l : nodupb l = true -> NoDup l.
Proof.
  induction l as [|x l IH]; cbn; [constructor|]. rewrite andb_true_iff, forallb_forall. intros [H Hl]. constructor; [|by apply IH].
  intros Hin. apply list_elem_of_In, H in Hin. by rewrite same_text_refl in Hin.
Qed.

Lemma all_series_nodup : NoDup all_series.
Proof.
  assert (H : nodupb (@rev ascii <$> all_series) = true) by (vm_compute; reflexivity). apply nodupb_ok in H. by eapply NoDup_fmap_1.
Qed.

Lemma all_series_plain : forallb plain_series all_series = true.
Proof. vm_compute. reflexivity. Qed.

Definition item_series (x : Item) : list bytes := match x with Meta _ _ _ => [] | Sample series _ => [series] end.

Definition series_in (l : list Item) : list bytes := concat (item_series <$> l).

Lemma series_in_app l1 l2 : series_in (l1 ++ l2) = series_in l1 ++ series_in l2.
Proof. unfold series_in. by rewrite fmap_app, concat_app. Qed.

Lemma loop_series (g : CommandType -> list Item) (f : CommandType -> list bytes) ts :
  (forall t, series_in (g t) `sublist_of` f t) -> series_in (concat (g <$> ts)) `sublist_of` concat (f <$> ts).
Proof. intros H. induction ts as [|t ts IH]; [done|]. cbn [fmap list_fmap concat]. rewrite series_in_app. by apply sublist_app. Qed.

Lemma concat_singleton {A} (f : CommandType -> A) ts : concat ((fun t => [f t]) <$> ts) = f <$> ts.
Proof. induction ts as [|t ts IH]; [done|]. cbn [fmap list_fmap concat app]. by rewrite IH. Qed.

Lemma series_in_samples {A} (s v : A -> bytes) l : series_in ((fun b => Sample (s b) (v b)) <$> l) = s <$> l.
Proof. induction l as [|b l IH]; [done|]. unfold series_in in *. cbn [fmap list_fmap concat app item_series]. by rewrite IH. Qed.

Lemma items_series h : series_in (items h) `sublist_of` all_series.
Proof.
  assert (M : forall a b c, series_in [Meta a b c] = []) by done.
  unfold items, all_series. rewrite !series_in_app, !M, !app_nil_l. apply sublist_app.
  { rewrite <-(concat_singleton calls_series). apply loop_series. intros t. unfold calls_items. destruct (0 <? _); repeat constructor. }
  apply sublist_app.
  { rewrite <-(concat_singleton errors_series). apply loop_series. intros t. unfold errors_items. destruct (0 <? _); repeat constructor. }
  apply sublist_app; [|reflexivity].
  apply loop_series. intros t. unfold latency_items, latency_series. destruct (_ =? 0); [apply sublist_nil_l|].
  rewrite series_in_app, series_in_samples. reflexivity.
Qed.

(** Comments hold no line end, and values no blank either. *)
Definition item_clean (x : Item) : Prop :=
  match x with
  | Meta name type help => forallb (fun c => negb (Ascii.eqb c LF)) (name ++ type ++ help) = true
  | Sample _ value => clean value
  end.

Lemma items_clean h : Forall item_clean (items h).
Proof.
  assert (L : forall (g : CommandType -> list Item) ts, (forall t, Forall item_clean (g t)) -> Forall item_clean (concat (g <$> ts))).
  { intros g ts Hg. induction ts as [|t ts IH]; [constructor|]. cbn [fmap list_fmap concat]. by apply Forall_app. }
  assert (C : forall name help v, forallb (fun c => negb (Ascii.eqb c LF)) (name ++ lit "counter" ++ help) = true -> Forall item_clean (counter_items name help v)).
  { intros name help v H. repeat constructor; [exact H|apply clean_dec..]. }
  assert (G : forall name help v, forallb (fun c => negb (Ascii.eqb c LF)) (name ++ lit "gauge" ++ help) = true -> Forall item_clean (gauge_items name help v)).
  { intros name help v H. repeat constructor; [exact H|apply clean_double..]. }
  assert (M : forall a b c, forallb (fun c => negb (Ascii.eqb c LF)) (a ++ b ++ c) = true -> Forall item_clean [Meta a b c]) by (by repeat constructor).
  unfold items. rewrite !Forall_app. split; [apply M; vm_compute; reflexivity|]. split.
  { apply L. intros t. unfold calls_items. destruct (0 <? _); repeat constructor; apply clean_dec. }
  split; [apply M; vm_compute; reflexivity|]. split.
  { apply L. intros t. unfold errors_items. destruct (0 <? _); repeat constructor; apply clean_dec. }
  split; [apply M; vm_compute; reflexivity|]. split.
  { apply L. intros t. unfold latency_items. destruct (_ =? 0); [constructor|]. apply Forall_app. split.
    - apply Forall_fmap, Forall_forall. intros b _. apply clean_dec.
    - repeat constructor; try apply clean_dec; apply clean_double. }
  unfold node_items. rewrite !Forall_app. repeat (first [split; [first [apply C | apply G]; vm_compute; reflexivity|] | apply G; vm_compute; reflexivity]).
Qed.

Lemma items_ok h : Forall item_ok (items h).
Proof.
  pose proof (items_clean h) as HC. rewrite Forall_forall in *. intros x Hx. specialize (HC x Hx). destruct x as [a b c|s v].
  - cbn in HC. rewrite !forallb_app, !andb_true_iff in HC.
    assert (N : forall s, forallb (fun c => negb (Ascii.eqb c LF)) s = true -> LF ∉ s).
    { intros s Hs Hin. rewrite forallb_forall in Hs. apply list_elem_of_In, Hs in Hin. by vm_compute in Hin. }
    destruct HC as (? & ? & ?). by split_and!; apply N.
  - assert (Hs : s ∈ series_in (items h)).
    { unfold series_in. apply elem_of_concat. exists [s]. split; [by left|]. by apply (list_elem_of_fmap_2 item_series _ (Sample s v)). }
    assert (Ha : s ∈ all_series) by (by eapply elem_of_sublist; [|apply items_series]). pose proof all_series_plain as P.
    rewrite forallb_forall in P. apply list_elem_of_In, P in Ha. unfold plain_series in Ha. apply andb_true_iff in Ha as [H1 H2].
    split; [|split; [done|destruct s; [done|by apply negb_true_iff]]].
    intros Hin. rewrite forallb_forall in H1. apply list_elem_of_In, H1 in Hin. by vm_compute in Hin.
Qed.

Lemma scrape_render h : scrape (render_metrics h) = concat (item_samples <$> items h).
Proof. rewrite render_text. apply scrape_text, items_ok. Qed.

Lemma scrape_series h : (scrape (render_metrics h)).*1 = series_in (items h).
Proof.
  rewrite scrape_render. unfold series_in. induction (items h) as [|x l IH]; [done|]. cbn [fmap list_fmap concat].
  rewrite fmap_app, IH. by destruct x.
Qed.

(** ** What a handler has executed *)

Inductive HandlerEv :=
  | HExecute (env : DispatchEnv) (t : nat) (start stop : Z) (cmd : Command)
  | HOpened (t : nat)
  | HClosed.

Definition handler_step (h : CommandHandler) (e : HandlerEv) : option CommandHandler :=
  match e with
  | HExecute env t start stop cmd => fst <$> execute env t start stop cmd h []
  | HOpened t => Some (connection_opened t h)
  | HClosed => Some (connection_closed h)
  end.

Definition handler_run (evs : list HandlerEv) (h : CommandHandler) : option CommandHandler :=
  foldl (fun o e => o ≫= fun h => handler_step h e) (Some h) evs.

(** The commands of a type that were executed: the thread and the duration. *)
Definition executed_of (ty : CommandType) (evs : list HandlerEv) : list (nat * Z) :=
  omap (fun e => match e with
                 | HExecute _ t start stop cmd => if decide (cmd_type cmd = ty) then Some (t, stop - start) else None
                 | _ => None
                 end) evs.

Lemma type_index_spec t : command_types !! type_index t = Some t.
Proof. by destruct t. Qed.

Lemma type_index_inj t t' : type_index t = type_index t' -> t = t'.
Proof. intros E. pose proof (type_index_spec t) as H. rewrite E, type_index_spec in H. by simplify_eq. Qed.

Record reports (obs : list (nat * Z)) (m : CommandMetrics) : Prop := {
  rp_latency : cm_latency m = observed obs;
  rp_calls_ok : striped_ok (cm_calls m);
  rp_calls : StripedCounter_value (cm_calls m) = u64 (Z.of_nat (length obs))
}.

Lemma record_reports obs t failed d m : reports obs m -> reports (obs ++ [(t, d)]) (record_command t failed d m).
Proof.
  intros [E1 E2 E3]. destruct (striped_add t 1 (cm_calls m) E2) as [K1 K2]. split; cbn [cm_latency cm_calls record_command].
  - by rewrite E1, observed_snoc.
  - done.
  - rewrite K2, E3, wrap_add_l, length_app. f_equal. cbn. lia.
Qed.

Lemma handler_run_reports evs c h :
  handler_run evs (CommandHandler_new c) = Some h ->
  length (ch_metrics h) = kCommandTypes /\ forall ty, reports (executed_of ty evs) (handler_metrics h ty).
Proof.
  revert h. induction evs as [|e evs IH] using rev_ind; intros h E.
  { change (Some (CommandHandler_new c) = Some h) in E. injection E as <-. split; [done|]. intros ty. unfold handler_metrics, CommandHandler_new. cbn [ch_metrics].
    rewrite (lookup_replicate_2 kCommandTypes CommandMetrics_new (type_index ty)) by (destruct ty; vm_compute; lia).
    split; [done| |]; apply striped_new. }
  unfold handler_run in E. rewrite foldl_app in E. cbn [foldl] in E. fold (handler_run evs (CommandHandler_new c)) in E.
  destruct (handler_run evs (CommandHandler_new c)) as [h1|]; [|done]. cbn [mbind option_bind] in E.
  destruct (IH h1 eq_refl) as [L R]. unfold executed_of. setoid_rewrite omap_app.
  destruct e as [env t start stop cmd|t|]; cbn [handler_step] in E.
  - unfold execute in E. destruct (dispatch env cmd (ch_cluster h1) []) as [[c1 out]|]; [|done].
    cbn [mbind option_bind fmap option_fmap option_map fst] in E. injection E as <-. cbn [ch_metrics].
    split; [by rewrite length_alter|]. intros ty. unfold handler_metrics. cbn [ch_metrics omap list_omap].
    destruct (decide (cmd_type cmd = ty)) as [<-|Hne].
    + rewrite list_lookup_alter_eq. destruct (lookup_lt_is_Some_2 (ch_metrics h1) (type_index (cmd_type cmd))) as [m Hm].
      { rewrite L. destruct (cmd_type cmd); vm_compute; lia. }
      specialize (R (cmd_type cmd)). unfold handler_metrics in R. rewrite Hm in *. by apply record_reports.
    + rewrite app_nil_r, list_lookup_alter_ne; [apply R|]. intros Ei. by apply Hne, type_index_inj.
  - simplify_eq. split; [done|]. intros ty. cbn. rewrite app_nil_r. apply R.
  - simplify_eq. split; [done|]. intros ty. cbn. rewrite app_nil_r. apply R.
Qed.

(** ** Properties *)

Lemma sample_in h x s v : x ∈ items h -> x = Sample s v -> (s, v) ∈ scrape (render_metrics h).
Proof.
  intros Hx ->. rewrite scrape_render. apply elem_of_concat. exists [(s, v)]. split; [by left|]. by apply (list_elem_of_fmap_2 item_samples _ (Sample s v)).
Qed.

Lemma type_in t : t ∈ command_types.
Proof. eapply list_elem_of_lookup_2, type_index_spec. Qed.

Lemma in_loop {A} (g : CommandType -> list A) x t : x ∈ g t -> x ∈ concat (g <$> command_types).
Proof. intros H. apply elem_of_concat. exists (g t). split; [done|]. apply list_elem_of_fmap_2, type_in. Qed.

(** Gauges are printed with six significant digits: different numbers of keys
    above a million look the same. *)
Theorem gauge_rounds name help out : gauge name help 1234567 out = gauge name help 1234571 out.
Proof. unfold gauge. do 3 f_equal. Qed.

(** ** The HTTP client's view *)

Fixpoint http_headers (fuel : nat) (s : bytes) : option (list bytes * bytes) :=
  match fuel with
  | O => None
  | S fuel' =>
      '(line, rest) ← find_crlf s;
      match line with
      | [] => Some ([], rest)
      | _ => '(lines, body) ← http_headers fuel' rest; Some (line :: lines, body)
      end
  end.

Definition content_length (lines : list bytes) : option Z :=
  line ← List.find (fun l => bytes_eqb (take 16 l) (lit "Content-Length: ")) lines; parse_u64 (drop 16 line).

(** The status line and the body. *)
Definition http_read (s : bytes) : option (bytes * bytes) :=
  '(lines, rest) ← http_headers (S (length s)) s;
  status ← head lines;
  n ← content_length lines;
  if n <=? Z.of_nat (length rest) then Some (status, take (Z.to_nat n) rest) else None.

Definition no_cr (s : bytes) : bool := forallb (fun c => negb (Ascii.eqb c CR)) s.

Lemma headers_line line rest fuel :
  no_cr line = true -> line <> [] ->
  http_headers (S fuel) (line ++ CRLF ++ rest) = '(lines, body) ← http_headers fuel rest; Some (line :: lines, body).
Proof. intros H Hl. cbn [http_headers]. rewrite find_crlf_line by (by apply no_cr_find_crlf). cbn [mbind option_bind]. by destruct line. Qed.

Lemma headers_end rest fuel : http_headers (S fuel) (CRLF ++ rest) = Some ([], rest).
Proof. cbn [http_headers]. pose proof (find_crlf_line [] rest eq_refl) as E. cbn [app] in E. by rewrite E. Qed.

Lemma http_read_head status type body :
  no_cr status = true -> no_cr type = true -> Z.of_nat (length body) < 2 ^ 64 ->
  http_read (http_head status type (Z.of_nat (length body)) ++ body) = Some (lit "HTTP/1.1 " ++ status, body).
Proof.
  intros Hs Ht Hl. unfold http_read.
  assert (E : http_head status type (Z.of_nat (length body)) ++ body =
    (lit "HTTP/1.1 " ++ status) ++ CRLF ++ (lit "Content-Type: " ++ type) ++ CRLF ++
    (lit "Content-Length: " ++ to_dec (Z.of_nat (length body))) ++ CRLF ++ lit "Connection: close" ++ CRLF ++ CRLF ++ body).
  { unfold http_head. flatten. }
  assert (Hf : exists fuel, length (http_head status type (Z.of_nat (length body)) ++ body) = (S (S (S (S fuel))))).
  { rewrite length_app. unfold http_head. rewrite length_app. cbn [length lit]. eexists. reflexivity. }
  destruct Hf as [fuel Hf]. rewrite Hf. clear Hf. rewrite E. clear E.
  assert (Hd : no_cr (to_dec (Z.of_nat (length body))) = true).
  { unfold no_cr. apply forallb_forall. intros c Hc. destruct (Ascii.eqb_spec c CR) as [->|]; [|done].
    apply list_elem_of_In in Hc. by apply to_dec_not_in in Hc. }
  assert (N : forall a b, no_cr a = true -> no_cr b = true -> no_cr (a ++ b) = true) by (intros a b Ha Hb; unfold no_cr in *; by rewrite forallb_app, Ha).
  rewrite headers_line; [|by apply N|done]. rewrite headers_line; [|by apply N|done]. rewrite headers_line; [|by apply N|done].
  rewrite headers_line by done. rewrite headers_end. cbn [mbind option_bind head].
  assert (C : content_length [lit "HTTP/1.1 " ++ status; lit "Content-Type: " ++ type; lit "Content-Length: " ++ to_dec (Z.of_nat (length body)); lit "Connection: close"] = Some (Z.of_nat (length body))).
  { unfold content_length. cbn [List.find].
    rewrite (bytes_eqb_ne (take 16 (lit "HTTP/1.1 " ++ status))) by done. rewrite (bytes_eqb_ne (take 16 (lit "Content-Type: " ++ type))) by done.
    replace (take 16 (lit "Content-Length: " ++ to_dec (Z.of_nat (length body)))) with (lit "Content-Length: ") by done. rewrite bytes_eqb_refl.
    cbn [mbind option_bind]. replace (drop 16 (lit "Content-Length: " ++ to_dec (Z.of_nat (length body)))) with (to_dec (Z.of_nat (length body))) by done.
    apply parse_u64_to_dec. lia. }
  rewrite C. cbn [mbind option_bind]. rewrite (proj2 (Z.leb_le _ _)) by lia. by rewrite Nat2Z.id, take_ge.
Qed.

(** The response to any request is complete and framed by its own header: the
    client reads back the status and exactly the body. *)
Lemma http_response_framed method path h :
  Z.of_nat (length (render_metrics h)) < 2 ^ 64 ->
  http_read (respond method path h) = Some
    (if negb (bytes_eqb method (lit "GET")) then (lit "HTTP/1.1 405 Method Not Allowed", lit "method not allowed" ++ [LF])
     else if bytes_eqb path (lit "/metrics") then (lit "HTTP/1.1 200 OK", render_metrics h)
     else if bytes_eqb path (lit "/health") || bytes_eqb path (lit "/healthz") then (lit "HTTP/1.1 200 OK", lit "ok" ++ [LF])
     else (lit "HTTP/1.1 404 Not Found", lit "not found" ++ [LF])).
Proof.
  intros Hl. unfold respond. destruct (negb _); [by apply (http_read_head (lit "405 Method Not Allowed"))|].
  destruct (bytes_eqb path (lit "/metrics")); [by apply (http_read_head (lit "200 OK"))|].
  destruct (_ || _); [by apply (http_read_head (lit "200 OK"))|by apply (http_read_head (lit "404 Not Found"))].
Qed.

(** C29: The metrics page reports what happened.  After any commands executed and
    connections opened and closed, an HTTP client that asks for the page reads
    back its samples, with no series twice; and for each command type with executed commands, their
    number is the value of the command counter, of the +Inf bucket and of the
    histogram's count, and every other bucket holds the number of those that
    took at most its bound. *)
Theorem metrics_report evs c h t :
  handler_run evs (CommandHandler_new c) = Some h -> Z.of_nat (length (render_metrics h)) < 2 ^ 64 ->
  let n := u64 (Z.of_nat (length (executed_of t evs))) in
  exists page, http_read (respond (lit "GET") (lit "/metrics") h) = Some (lit "HTTP/1.1 200 OK", page) /\ NoDup (scrape page).*1 /\
  (0 < n ->
     (calls_series t, to_dec n) ∈ scrape page /\ (inf_series t, to_dec n) ∈ scrape page /\
     (count_series t, to_dec n) ∈ scrape page /\
     forall b, (b < kBuckets)%nat ->
       (le_series t b, to_dec (u64 (Z.of_nat (length (List.filter (fun '(_, d) => micros d <=? 10 * 2 ^ Z.of_nat b) (executed_of t evs))))))
         ∈ scrape page).
Proof.
  intros E Hz n. exists (render_metrics h). split; [by rewrite http_response_framed|]. destruct (handler_run_reports evs c h E) as [_ R]. destruct (R t) as [E1 _ E3].
  split; [rewrite scrape_series; eapply sublist_NoDup; [apply all_series_nodup|apply items_series]|]. intros Hn.
  destruct (histogram_cumulative (executed_of t evs) 0) as [[C1 C2] _]. rewrite <-E1 in C1, C2. fold n in C1, C2, E3.
  assert (Hl : forall x, x ∈ latency_items h t -> x ∈ items h).
  { intros x Hx. unfold items. rewrite !elem_of_app. do 5 right. left. by eapply in_loop. }
  unfold latency_items in Hl. rewrite C1, C2, (proj2 (Z.eqb_neq n 0)) in Hl by lia. split_and!.
  - eapply sample_in; [|reflexivity]. unfold items. rewrite !elem_of_app. right; left. apply (in_loop (calls_items h) _ t).
    unfold calls_items. rewrite E3, (proj2 (Z.ltb_lt 0 n)) by done. by left.
  - eapply sample_in; [|reflexivity]. apply Hl. rewrite elem_of_app. right. by left.
  - eapply sample_in; [|reflexivity]. apply Hl. rewrite elem_of_app. right. by do 2 right; left.
  - intros b Hb. destruct (histogram_cumulative (executed_of t evs) b) as [_ Cb]. rewrite <-(Cb Hb), <-E1.
    eapply sample_in; [|reflexivity]. apply Hl. rewrite elem_of_app. left.
    apply (list_elem_of_fmap_2 (fun b => Sample (le_series t b) (to_dec (cumulative b (cm_latency (handler_metrics h t)))))). apply elem_of_seq. lia.
Qed.

(** *** Witness: two PINGs on different threads *)

Definition sample_handler_run : list HandlerEv :=
  [HOpened 1; HExecute sample_env 1 0 5000 (Parser_parse [lit "PING"]); HExecute sample_env 2 0 30000 (Parser_parse [lit "PING"; lit "x"])].

Lemma metrics_report_witness :
  exists h page, handler_run sample_handler_run (CommandHandler_new (sample_server Quorum)) = Some h /\
    http_read (respond (lit "GET") (lit "/metrics") h) = Some (lit "HTTP/1.1 200 OK", page) /\
    (calls_series CPing, lit "2") ∈ scrape page /\ (le_series CPing 0, lit "1") ∈ scrape page.
Proof.
  destruct (handler_run sample_handler_run (CommandHandler_new (sample_server Quorum))) as [h|] eqn:E; [|vm_compute in E; discriminate E].
  exists h. destruct (metrics_report sample_handler_run (sample_server Quorum) h CPing E) as (page & Hp & _ & S).
  - assert (L : (fun h => Z.of_nat (length (render_metrics h)) <? 2 ^ 64) <$> handler_run sample_handler_run (CommandHandler_new (sample_server Quorum)) = Some true)
      by (vm_compute; reflexivity). rewrite E in L. apply (inj Some) in L. apply Z.ltb_lt. exact L.
  - exists page. split; [reflexivity|]. split; [exact Hp|]. destruct S as (S1 & _ & _ & S4); [reflexivity|]. split; [exact S1|].
    specialize (S4 0%nat (Nat.lt_0_succ _)). exact S4.
Defined.
