(* ===== verification/Process.v ===== *)
(** * The process around the server

    Models IoContextPool (start, stop, join and the destructor) of
    network/io_context_pool.cpp, the part of src/main.cpp from the construction of
    the servers to the end of [main], and what the objects destroyed there own:
    ClientSession and its RPC tasks (network/session.cpp), CommandHandler and its
    thread pool (network/command_handler.cpp), Cluster.

    The main thread executes a list of statements; constructors, destructors and
    the signal handler are expanded in place.  The I/O threads, the tasks on the
    RPC pool and the main thread interleave freely.  A session is kept alive by a
    handler of its I/O context (a pending read, write or completion) and by its
    tasks, and keeps the command handler alive, as the server does.  Stopping
    the snapshot thread, leaving the cluster and stopping it are one statement each
    here; they are modelled in Workers.v, Shutdown.v and ClusterOps.v.

    Steps that touch a destroyed context or cluster, and the destruction of the
    thread pool by one of its own threads, are undefined behaviour. *)

From S2P Require Import Prelude.

Local Open Scope nat_scope.

(** ** State *)

(** A thread of the pool: not created, in [run], returned from it, joined. *)
Inductive IoThread := TNone | TRunning | TDone | TJoined.

#[global] Instance IoThread_eq_dec : EqDecision IoThread.
Proof. solve_decision. Defined.

Record Ctx := mkCtx { cx_guard : bool; cx_stopped : bool; cx_thread : IoThread; cx_alive : bool }.

(** A session: its context, and whether a handler of that context holds it. *)
Record Sess := mkSess { ss_ctx : nat; ss_io : bool }.

(** The stages of the lambda [run_remote] posts to the RPC pool. *)
Inductive Stage := TkQueued | TkExecuted | TkPosted.

Inductive Exit := ExStatus (code : Z) | ExTerminate.

(** The statements of the main thread. *)
Inductive PStmt :=
  | SSpawn (i : nat)
  | SRun
  | SClearGuards
  | SStopCtx (i : nat)
  | SJoin (i : nat)
  | SStopSnapshots
  | SLeave
  | SClusterStop
  | SAcceptStop
  | SDropServer
  | SDropCtx (i : nat)
  | SDropAccept
  | SDropLocals
  | SExit (code : Z).

#[global] Instance PStmt_eq_dec : EqDecision PStmt.
Proof. solve_decision. Defined.

Record Process := mkProcess {
  pp_ctxs : list Ctx;
  pp_sessions : gmap nat Sess;
  pp_tasks : list (nat * Stage);
  pp_accepted : nat;
  pp_server : bool;
  pp_stopped : bool;
  pp_signal : bool;
  pp_snapshots : bool;
  pp_cluster : bool;
  pp_todo : list PStmt;
  pp_exit : option Exit
}.

(** ** The program *)

(** [IoContextPool::start], [stop], [join] and the destructor, on a pool of
    [n]. *)
Definition IoContextPool_start (n : nat) : list PStmt := SSpawn <$> seq 0 n.
Definition IoContextPool_stop (n : nat) : list PStmt := SClearGuards :: (SStopCtx <$> seq 0 n).
Definition IoContextPool_join (n : nat) : list PStmt := SJoin <$> seq 0 n.
Definition IoContextPool_destroy (n : nat) : list PStmt :=
  IoContextPool_stop n ++ IoContextPool_join n ++ (SDropCtx <$> seq 0 n).

(** The handler of SIGINT and SIGTERM. *)
Definition signal_handler (n : nat) : list PStmt :=
  [SStopSnapshots; SLeave; SClusterStop] ++ IoContextPool_stop n ++ [SAcceptStop].

(** Leaving the try block: the objects built so far are destroyed. *)
Definition unwind (n : nat) (server : bool) : list PStmt :=
  (if server then [SDropServer] else []) ++ IoContextPool_destroy n ++ [SDropAccept].

(** From the accept loop on. *)
Definition after_run (n : nat) : list PStmt :=
  IoContextPool_join n ++ [SStopSnapshots] ++ unwind n true ++ [SDropLocals; SExit 0].

(** The try block; [bind_ok] and [metrics_ok] tell whether the constructors of
    TCPServer and MetricsServer return. *)
Definition main_try (n : nat) (bind_ok metrics_ok : bool) : list PStmt :=
  if bind_ok && metrics_ok then IoContextPool_start n ++ SRun :: after_run n
  else unwind n bind_ok ++ [SDropLocals; SExit 1].

(** Before the first statement; the pool has at least one context. *)
Definition process_start (n : nat) (snapshots bind_ok metrics_ok : bool) : Process :=
  let n := if n =? 0 then 1 else n in
  mkProcess (replicate n (mkCtx true false TNone true)) ∅ [] 0 bind_ok false false snapshots true (main_try n bind_ok metrics_ok) None.

(** ** Steps *)

Definition set_ctxs (l : list Ctx) (p : Process) : Process :=
  mkProcess l (pp_sessions p) (pp_tasks p) (pp_accepted p) (pp_server p) (pp_stopped p) (pp_signal p) (pp_snapshots p) (pp_cluster p) (pp_todo p) (pp_exit p).
Definition set_refs (m : gmap nat Sess) (ts : list (nat * Stage)) (p : Process) : Process :=
  mkProcess (pp_ctxs p) m ts (pp_accepted p) (pp_server p) (pp_stopped p) (pp_signal p) (pp_snapshots p) (pp_cluster p) (pp_todo p) (pp_exit p).
Definition set_todo (l : list PStmt) (p : Process) : Process :=
  mkProcess (pp_ctxs p) (pp_sessions p) (pp_tasks p) (pp_accepted p) (pp_server p) (pp_stopped p) (pp_signal p) (pp_snapshots p) (pp_cluster p) l (pp_exit p).

(** What a statement changes besides the contexts and sessions. *)
Definition set_flags (server stopped snapshots cluster : bool) (exit : option Exit) (p : Process) : Process :=
  mkProcess (pp_ctxs p) (pp_sessions p) (pp_tasks p) (pp_accepted p) server stopped (pp_signal p) snapshots cluster (pp_todo p) exit.

Definition with_thread (t : IoThread) (c : Ctx) : Ctx := mkCtx (cx_guard c) (cx_stopped c) t (cx_alive c).
Definition without_guard (c : Ctx) : Ctx := mkCtx false (cx_stopped c) (cx_thread c) (cx_alive c).
Definition stopped_ctx (c : Ctx) : Ctx := mkCtx (cx_guard c) true (cx_thread c) (cx_alive c).
Definition dead_ctx (c : Ctx) : Ctx := mkCtx (cx_guard c) (cx_stopped c) (cx_thread c) false.

(** A session nothing refers to is destroyed. *)
Definition held (ts : list (nat * Stage)) (x : nat * Sess) : Prop := ss_io x.2 = true \/ x.1 ∈ ts.*1.

#[global] Instance held_dec ts x : Decision (held ts x).
Proof. unfold held. apply _. Defined.

Definition collect (ts : list (nat * Stage)) (m : gmap nat Sess) : gmap nat Sess := filter (held ts) m.

(** The handler is alive as long as the server or a session refers to it. *)
Definition handler_alive (p : Process) : bool := pp_server p || negb (bool_decide (pp_sessions p = ∅)).

Definition ctx_alive (i : nat) (p : Process) : bool := from_option cx_alive false (pp_ctxs p !! i).
Definition ctx_runs (i : nat) (p : Process) : bool := from_option (fun c => bool_decide (cx_thread c = TRunning)) false (pp_ctxs p !! i).

Inductive PResult := PNext (p : Process) | PBlocked | PUndefined.

(** The context is destroyed with the handlers it holds. *)
Definition drop_io (i : nat) (s : Sess) : Sess := if ss_ctx s =? i then mkSess (ss_ctx s) false else s.

Definition main_exec (x : PStmt) (p : Process) : PResult :=
  match x with
  | SSpawn i => PNext (set_ctxs (alter (with_thread TRunning) i (pp_ctxs p)) p)
  | SRun => if pp_stopped p then PNext p else PBlocked
  | SClearGuards => PNext (set_ctxs (without_guard <$> pp_ctxs p) p)
  | SStopCtx i => PNext (set_ctxs (alter stopped_ctx i (pp_ctxs p)) p)
  | SJoin i =>
      match cx_thread <$> pp_ctxs p !! i with
      | Some TRunning => PBlocked
      | Some TDone => PNext (set_ctxs (alter (with_thread TJoined) i (pp_ctxs p)) p)
      | _ => PNext p
      end
  | SStopSnapshots => PNext (set_flags (pp_server p) (pp_stopped p) false (pp_cluster p) (pp_exit p) p)
  | SLeave | SClusterStop | SDropAccept => PNext p
  | SAcceptStop => PNext (set_flags (pp_server p) true (pp_snapshots p) (pp_cluster p) (pp_exit p) p)
  | SDropServer => PNext (set_flags false (pp_stopped p) (pp_snapshots p) (pp_cluster p) (pp_exit p) p)
  | SDropCtx i =>
      PNext (set_refs (collect (pp_tasks p) (drop_io i <$> pp_sessions p)) (pp_tasks p) (set_ctxs (alter dead_ctx i (pp_ctxs p)) p))
  | SDropLocals =>
      if pp_snapshots p then PNext (set_flags (pp_server p) (pp_stopped p) (pp_snapshots p) (pp_cluster p) (Some ExTerminate) p)
      else PNext (set_flags (pp_server p) (pp_stopped p) (pp_snapshots p) false (pp_exit p) p)
  | SExit code => PNext (set_flags (pp_server p) (pp_stopped p) (pp_snapshots p) (pp_cluster p) (Some (ExStatus code)) p)
  end.

Definition main_step (p : Process) : PResult :=
  match pp_todo p with
  | [] => PBlocked
  | x :: rest => main_exec x (set_todo rest p)
  end.

(** Events: a step of the main thread; a signal, or a connection accepted for a
    context, while it runs the accept context; on an I/O thread, a session hands a
    command to the RPC pool, resumes or reads on, or is closed; an I/O thread
    returns; a task executes its command, posts the reply to the session's
    context, and is destroyed. *)
Inductive ProcEv :=
  | PvMain
  | PvSignal
  | PvAccept (ctx : nat)
  | PvHandoff (s : nat)
  | PvClose (s : nat)
  | PvIoDone (i : nat)
  | PvExecute (k : nat)
  | PvPost (k : nat)
  | PvEnd (k : nat).

Definition in_run (p : Process) : bool := bool_decide (head (pp_todo p) = Some SRun) && negb (pp_stopped p).

(** A handler of session [s] on its I/O thread. *)
Definition on_io (s : nat) (p : Process) (f : Sess -> Process) : PResult :=
  match pp_sessions p !! s with
  | Some x => if ctx_runs (ss_ctx x) p && ss_io x then if ctx_alive (ss_ctx x) p then PNext (f x) else PUndefined else PBlocked
  | None => PBlocked
  end.

Definition process_step (e : ProcEv) (p : Process) : PResult :=
  match pp_exit p with Some _ => PBlocked | None =>
  match e with
  | PvMain => main_step p
  | PvSignal =>
      if in_run p && negb (pp_signal p) then
        PNext (mkProcess (pp_ctxs p) (pp_sessions p) (pp_tasks p) (pp_accepted p) (pp_server p) (pp_stopped p) true (pp_snapshots p) (pp_cluster p)
          (signal_handler (length (pp_ctxs p)) ++ pp_todo p) (pp_exit p))
      else PBlocked
  | PvAccept i =>
      if in_run p && (i <? length (pp_ctxs p)) then
        PNext (mkProcess (pp_ctxs p) (<[pp_accepted p := mkSess i true]> (pp_sessions p)) (pp_tasks p) (S (pp_accepted p)) (pp_server p)
          (pp_stopped p) (pp_signal p) (pp_snapshots p) (pp_cluster p) (pp_todo p) (pp_exit p))
      else PBlocked
  | PvHandoff s => on_io s p (fun x => set_refs (<[s := mkSess (ss_ctx x) false]> (pp_sessions p)) (pp_tasks p ++ [(s, TkQueued)]) p)
  | PvClose s => on_io s p (fun x => set_refs (collect (pp_tasks p) (<[s := mkSess (ss_ctx x) false]> (pp_sessions p))) (pp_tasks p) p)
  | PvIoDone i =>
      match pp_ctxs p !! i with
      | Some c =>
          if bool_decide (cx_thread c = TRunning) &&
             (cx_stopped c || (negb (cx_guard c) && bool_decide (map_Forall (fun _ s => ss_ctx s <> i \/ ss_io s = false) (pp_sessions p)))) then
            if cx_alive c then PNext (set_ctxs (alter (with_thread TDone) i (pp_ctxs p)) p) else PUndefined
          else PBlocked
      | None => PBlocked
      end
  | PvExecute k =>
      match pp_tasks p !! k with
      | Some (s, TkQueued) => if pp_cluster p then PNext (set_refs (pp_sessions p) (<[k := (s, TkExecuted)]> (pp_tasks p)) p) else PUndefined
      | _ => PBlocked
      end
  | PvPost k =>
      match pp_tasks p !! k with
      | Some (s, TkExecuted) =>
          match pp_sessions p !! s with
          | Some x =>
              if ctx_alive (ss_ctx x) p
              then PNext (set_refs (<[s := mkSess (ss_ctx x) true]> (pp_sessions p)) (<[k := (s, TkPosted)]> (pp_tasks p)) p)
              else PUndefined
          | None => PUndefined
          end
      | _ => PBlocked
      end
  | PvEnd k =>
      match pp_tasks p !! k with
      | Some (s, TkPosted) =>
          let ts := delete k (pp_tasks p) in
          let p' := set_refs (collect ts (pp_sessions p)) ts p in
          match pp_sessions p !! s with
          | None => PUndefined
          | Some x =>
              if bool_decide (pp_sessions p' !! s = None) && negb (ctx_alive (ss_ctx x) p) then PUndefined
              else if handler_alive p && negb (handler_alive p') then PUndefined
              else PNext p'
          end
      | _ => PBlocked
      end
  end
  end.

Fixpoint process_run (evs : list ProcEv) (p : Process) : PResult :=
  match evs with
  | [] => PNext p
  | e :: rest => match process_step e p with PNext p' => process_run rest p' | r => r end
  end.

(** ** The position of the main thread *)

(** What the main thread executes from the start of the pool to the end, with or
    without a signal. *)
Definition full (n : nat) (signal : bool) : list PStmt :=
  IoContextPool_start n ++ (if signal then signal_handler n else []) ++ SRun :: after_run n.

(** What comes before the first [x] comes before it. *)
Lemma prefix_before {A} (l1 l2 pre post : list A) x : l1 ++ x :: l2 = pre ++ post -> x ∉ pre -> pre `prefix_of` l1.
Proof.
  revert l1. induction pre as [|y pre IH]; intros l1 E Hx; [apply prefix_nil|]. rewrite not_elem_of_cons in Hx.
  destruct l1 as [|z l1]; cbn in E; injection E as -> E; [by destruct Hx|]. apply prefix_cons. apply IH; [done|tauto].
Qed.

Lemma before_done {A} (done todo pre post : list A) x :
  done ++ todo = pre ++ post -> x ∉ pre -> x ∈ done \/ head todo = Some x -> forall y, y ∈ pre -> y ∈ done.
Proof.
  intros E Hx [Hin|Hh] y Hy.
  - apply list_elem_of_split in Hin as (d1 & d2 & ->). rewrite <-app_assoc in E. cbn in E. apply prefix_before in E; [|done].
    apply elem_of_app. left. destruct E as [k ->]. apply elem_of_app. by left.
  - destruct todo as [|z todo]; [done|]. injection Hh as ->. apply prefix_before in E as [k ->]; [|done]. apply elem_of_app. by left.
Qed.

(** Membership in the parts of the program. *)
Ltac in_prog :=
  unfold full, after_run, signal_handler, unwind, IoContextPool_destroy, IoContextPool_stop, IoContextPool_join, IoContextPool_start in *;
  cbn [app] in *;
  repeat first [rewrite elem_of_app in * | rewrite elem_of_cons in * | rewrite list_elem_of_fmap in * | rewrite elem_of_nil in * | rewrite elem_of_seq in *];
  try (destruct_or?; naive_solver lia).

Section positions.
Context (n : nat) (sg : bool) (done todo : list PStmt).
Hypothesis pos : done ++ todo = full n sg.

(** [x] has been executed or is next. *)
Definition executed_or_next (x : PStmt) : Prop := x ∈ done \/ head todo = Some x.

Definition before_server : list PStmt :=
  IoContextPool_start n ++ (if sg then signal_handler n else []) ++ SRun :: IoContextPool_join n ++ [SStopSnapshots].

Lemma full_server : full n sg = before_server ++ SDropServer :: IoContextPool_destroy n ++ [SDropAccept; SDropLocals; SExit 0].
Proof using Type. unfold full, before_server, after_run, unwind. rewrite <-!app_assoc. cbn. by rewrite <-!app_assoc. Qed.

Lemma reached_server x : x ∉ before_server -> x <> SDropServer -> executed_or_next x ->
  SDropServer ∈ done /\ (forall i, i < n -> SJoin i ∈ done) /\ SStopSnapshots ∈ done.
Proof using pos.
  intros H1 H2 Hx. rewrite full_server in pos.
  assert (G : forall y, y ∈ before_server ++ [SDropServer] -> y ∈ done).
  { eapply (before_done done todo _ (IoContextPool_destroy n ++ [SDropAccept; SDropLocals; SExit 0]) x); [by rewrite <-app_assoc| |exact Hx].
    rewrite elem_of_app. intros [?|?%list_elem_of_singleton]; done. }
  split; [apply G; rewrite elem_of_app; right; by left|]. split.
  - intros i Hi. apply G. unfold before_server. rewrite !elem_of_app, elem_of_cons, elem_of_app. left. right. right. right. left.
    apply list_elem_of_fmap. exists i. split; [done|]. apply elem_of_seq. lia.
  - apply G. unfold before_server. rewrite !elem_of_app, elem_of_cons, elem_of_app. left. right. right. right. right. by left.
Qed.

Lemma reached_drop i : executed_or_next (SDropCtx i) -> SDropServer ∈ done /\ (forall j, j < n -> SJoin j ∈ done) /\ SStopSnapshots ∈ done.
Proof using pos. apply reached_server; [|done]. unfold before_server. destruct sg; intros H; in_prog. Qed.

Lemma reached_locals : executed_or_next SDropLocals -> SDropServer ∈ done /\ (forall j, j < n -> SJoin j ∈ done) /\ SStopSnapshots ∈ done.
Proof using pos. apply reached_server; [|done]. unfold before_server. destruct sg; intros H; in_prog. Qed.

Lemma server_joined : SDropServer ∈ done -> forall i, i < n -> SJoin i ∈ done.
Proof using pos.
  intros H i Hi. rewrite full_server in pos. eapply (before_done done todo _ _ SDropServer pos); [|by left|].
  - unfold before_server. destruct sg; intros H'; in_prog.
  - unfold before_server. rewrite !elem_of_app, elem_of_cons, elem_of_app. right. right. right. left.
    apply list_elem_of_fmap. exists i. split; [done|]. apply elem_of_seq. lia.
Qed.

(** Threads are created before anything else happens. *)
Lemma spawn_first i x : head todo = Some (SSpawn i) -> x ∈ done -> exists j, x = SSpawn j.
Proof using pos.
  intros Hh Hx. destruct todo as [|y rest]; [done|]. injection Hh as ->.
  assert (P : done `prefix_of` IoContextPool_start n).
  { unfold full in pos. destruct (prefix_weak_total done (IoContextPool_start n) (full n sg)) as [P|P];
      [exists (SSpawn i :: rest); by rewrite pos|by eexists|done|].
    destruct P as [k ->]. rewrite <-app_assoc in pos. apply app_inv_head in pos.
    assert (Hin : SSpawn i ∈ (if sg then signal_handler n else []) ++ SRun :: after_run n) by (rewrite <-pos, elem_of_app; right; by left).
    exfalso. destruct sg; in_prog. }
  destruct P as [k E]. assert (Hs : x ∈ IoContextPool_start n) by (rewrite E, elem_of_app; by left).
  apply list_elem_of_fmap in Hs as (j & -> & _). by exists j.
Qed.
End positions.

(** At the accept loop, after a signal. *)
Lemma run_stopped n done todo : done ++ todo = full n true -> executed_or_next done todo SRun -> SAcceptStop ∈ done.
Proof.
  intros E H. unfold full in E. rewrite app_assoc in E. eapply (before_done _ _ _ _ SRun E); [|exact H|]; unfold signal_handler.
  - intros H'. in_prog.
  - rewrite !elem_of_app. right. right. right. by left.
Qed.

Lemma join_stopped n done todo i : done ++ todo = full n true -> executed_or_next done todo (SJoin i) -> i < n -> SStopCtx i ∈ done.
Proof.
  intros E H Hi. unfold full in E. rewrite app_assoc in E. eapply (before_done _ _ _ _ (SJoin i) E); [|exact H|].
  - intros H'. in_prog.
  - unfold signal_handler, IoContextPool_stop. rewrite !elem_of_app, !elem_of_cons, list_elem_of_fmap. right. right. left. right.
    exists i. split; [done|]. apply elem_of_seq. lia.
Qed.

(** Without a signal the accept loop is not left. *)
Lemma no_signal_run n done todo : done ++ todo = full n false -> SRun ∉ done ->
  (head todo = Some SRun -> done = IoContextPool_start n /\ todo = SRun :: after_run n) /\ exists t, todo = t ++ SRun :: after_run n.
Proof.
  intros E Hn. unfold full in E. cbn [app] in E. destruct (prefix_weak_total done (IoContextPool_start n) (done ++ todo)) as [[k P]|[k P]];
    [by eexists|rewrite E; by eexists| |].
  - rewrite P, <-app_assoc in E. apply app_inv_head in E as ->. split; [|by eexists]. destruct k as [|x k]; [by rewrite app_nil_r in P|].
    cbn. intros [= ->]. assert (Hin : SRun ∈ IoContextPool_start n) by (rewrite P, elem_of_app; right; by left).
    exfalso. in_prog.
  - rewrite P, <-app_assoc in E. apply app_inv_head in E. destruct k as [|x k]; cbn in E.
    + rewrite app_nil_r in P. rewrite E. split; [done|by exists []].
    + injection E as -> E. exfalso. apply Hn. rewrite P, elem_of_app. right. by left.
Qed.

(** ** The invariant *)

(** What the executed statements have brought about. *)
Record program_effects (n : nat) (done : list PStmt) (p : Process) : Prop := {
  ef_stop : forall i c, pp_ctxs p !! i = Some c -> SStopCtx i ∈ done -> cx_stopped c = true;
  ef_join : forall i c, pp_ctxs p !! i = Some c -> SJoin i ∈ done -> cx_thread c <> TRunning;
  ef_alive : forall i c, pp_ctxs p !! i = Some c -> cx_alive c = false -> SDropCtx i ∈ done;
  ef_server : pp_server p = false <-> SDropServer ∈ done;
  ef_cluster : pp_cluster p = false -> SDropLocals ∈ done;
  ef_stopped : SAcceptStop ∈ done -> pp_stopped p = true;
  ef_run : pp_signal p = false -> (SRun ∉ done) /\ pp_stopped p = false;
  ef_snap : SStopSnapshots ∈ done -> pp_snapshots p = false;
  ef_exit : pp_exit p = None /\ (SExit 0 ∉ done) \/ pp_exit p = Some (ExStatus 0)
}.

Record refs_ok (n : nat) (p : Process) : Prop := {
  rf_tasks : forall s st, (s, st) ∈ pp_tasks p -> is_Some (pp_sessions p !! s);
  rf_ctx : forall s x, pp_sessions p !! s = Some x -> ss_ctx x < n
}.

Definition process_inv (n : nat) (p : Process) : Prop :=
  length (pp_ctxs p) = n /\ refs_ok n p /\ exists done, done ++ pp_todo p = full n (pp_signal p) /\ program_effects n done p.

Lemma process_start_inv n snapshots : process_inv (if n =? 0 then 1 else n) (process_start n snapshots true true).
Proof.
  unfold process_start. set (m := if n =? 0 then 1 else n). split; [apply length_replicate|]. split; [split; set_solver|].
  exists []. split; [done|]. split; cbn; try set_solver.
  intros i c Hc. apply lookup_replicate in Hc as [-> _]. done.
Qed.

(** Changing one context. *)
Lemma alter_lookup (f : Ctx -> Ctx) (i : nat) (l : list Ctx) (j : nat) c :
  alter f i l !! j = Some c -> exists c0, l !! j = Some c0 /\ (j = i /\ c = f c0 \/ j <> i /\ c = c0).
Proof.
  intros H. destruct (decide (j = i)) as [->|Hne].
  - rewrite list_lookup_alter_eq in H. destruct (l !! i) as [c0|]; [|done]. injection H as <-. eauto.
  - rewrite list_lookup_alter_ne in H by done. eauto.
Qed.

Lemma set_todo_effects n done rest p : program_effects n done (set_todo rest p) <-> program_effects n done p.
Proof. split; intros [H1 H2 H3 H4 H5 H6 H7 H8 H9]; by split. Qed.

Lemma collect_lookup ts m s x : collect ts m !! s = Some x <-> m !! s = Some x /\ held ts (s, x).
Proof. unfold collect. by rewrite map_lookup_filter_Some. Qed.

(** A statement that touches neither contexts nor references. *)
Lemma main_exec_refs n x p p' : main_exec x p = PNext p' -> length (pp_ctxs p) = n -> refs_ok n p ->
  length (pp_ctxs p') = n /\ refs_ok n p' /\ pp_signal p' = pp_signal p /\ pp_todo p' = pp_todo p /\ pp_tasks p' = pp_tasks p.
Proof.
  intros H HL [R1 R2]. destruct x; cbn in H; repeat case_match; simplify_eq; cbn; rewrite ?length_alter, ?length_fmap; split_and!; try done.
  split; cbn.
  - intros s st Hs. destruct (R1 s st Hs) as [x Hx]. exists (drop_io i x). apply collect_lookup. rewrite lookup_fmap, Hx. split; [done|].
    right. cbn. apply list_elem_of_fmap. by exists (s, st).
  - intros s x Hs. apply collect_lookup in Hs as [Hs _]. rewrite lookup_fmap in Hs. destruct (pp_sessions p !! s) as [x0|] eqn:E; [|done].
    injection Hs as <-. specialize (R2 s x0 E). unfold drop_io. by destruct (ss_ctx x0 =? i).
Qed.

(** What a statement does to a context. *)
Lemma main_exec_ctx x p p' j c' : main_exec x p = PNext p' -> pp_ctxs p' !! j = Some c' ->
  exists c, pp_ctxs p !! j = Some c /\
    (cx_stopped c = true \/ x = SStopCtx j -> cx_stopped c' = true) /\
    (cx_alive c' = false -> cx_alive c = false \/ x = SDropCtx j) /\
    (cx_thread c' = TRunning -> (cx_thread c = TRunning /\ x <> SJoin j) \/ x = SSpawn j).
Proof.
  intros H Hc. destruct x as [i| | |i|i| | | | | |i| | |code]; cbn in H.
  1, 4, 11: injection H as <-; cbn in Hc; apply alter_lookup in Hc as (c & Hc & [[-> ->]|[Hne ->]]); exists c; cbn; naive_solver.
  3: { destruct (pp_ctxs p !! i) as [ci|] eqn:Ei; cbn in H.
       - destruct (cx_thread ci) eqn:Et; try done; injection H as <-; cbn in Hc.
         2: apply alter_lookup in Hc as (c & Hc & [[-> ->]|[Hne ->]]).
         all: eexists; split; [exact Hc|]; cbn; split; [naive_solver|]; split; [naive_solver|]; intros Hr; try done; left; (split; [congruence|]); intros Hj; simplify_eq; congruence.
       - injection H as <-. exists c'. split; [done|]. split; [naive_solver|]. split; [naive_solver|]. intros Hr. left. split; [done|]. intros Hj. simplify_eq. }
  2: { injection H as <-. cbn in Hc. rewrite list_lookup_fmap in Hc. destruct (pp_ctxs p !! j) as [c|]; [|done]. injection Hc as <-. exists c. cbn. naive_solver. }
  all: repeat case_match; simplify_eq; exists c'; cbn in *; naive_solver.
Qed.

(** ... and to the rest. *)
Lemma main_exec_flags x p p' : main_exec x p = PNext p' ->
  (pp_server p' = false <-> pp_server p = false \/ x = SDropServer) /\
  (pp_cluster p' = false -> pp_cluster p = false \/ x = SDropLocals) /\
  (pp_stopped p' = true <-> pp_stopped p = true \/ x = SAcceptStop) /\
  (pp_snapshots p = false \/ x = SStopSnapshots -> pp_snapshots p' = false) /\
  (x = SRun -> pp_stopped p = true) /\
  (pp_exit p' = pp_exit p /\ (forall code, x <> SExit code) \/ (exists code, x = SExit code /\ pp_exit p' = Some (ExStatus code)) \/
   x = SDropLocals /\ pp_snapshots p = true).
Proof. destruct x; cbn; intros H; repeat case_match; simplify_eq; cbn; split_and!; naive_solver. Qed.

(** The effect of the next statement. *)
Lemma main_exec_effects n x done rest p p' :
  done ++ x :: rest = full n (pp_signal p) -> length (pp_ctxs p) = n -> program_effects n done p -> pp_exit p = None -> main_exec x p = PNext p' ->
  pp_signal p' = pp_signal p -> program_effects n (done ++ [x]) p'.
Proof.
  intros E HL [F1 F2 F3 F4 F5 F6 F7 F8 F9] Hx H Hs. destruct F9 as [[_ F9]|F9]; [|congruence].
  assert (Hin : x ∈ full n (pp_signal p)) by (rewrite <-E, elem_of_app; right; by left).
  pose proof (fun j c' => main_exec_ctx x p p' j c' H) as C. destruct (main_exec_flags x p p' H) as (G1 & G2 & G3 & G4 & G5 & G6).
  assert (M : forall y, y ∈ done ++ [x] <-> y ∈ done \/ y = x) by (intros y; by rewrite elem_of_app, list_elem_of_singleton).
  split; setoid_rewrite M.
  - intros j c' Hc Hd. destruct (C j c' Hc) as (c & Hc0 & K & _). apply K. destruct Hd as [Hd| ->]; [left; eauto|by right].
  - intros j c' Hc Hd Hr. destruct (C j c' Hc) as (c & Hc0 & _ & _ & K). destruct (K Hr) as [[Hr' Hne]| ->].
    + destruct Hd as [Hd|Hd]; [by apply (F2 j c Hc0 Hd)|by rewrite Hd in Hne].
    + destruct Hd as [Hd|Hd]; [|done]. by destruct (spawn_first n (pp_signal p) done (SSpawn j :: rest) E j (SJoin j) eq_refl Hd).
  - intros j c' Hc Ha. destruct (C j c' Hc) as (c & Hc0 & _ & K & _). destruct (K Ha) as [Ha'| ->]; [left; eauto|by right].
  - rewrite G1, F4. split; (intros [?|?]; [by left|right; congruence]).
  - intros Hc. destruct (G2 Hc) as [?| ->]; [left; auto|by right].
  - intros [Hd|Hd]; apply G3; [left; auto|right; done].
  - rewrite Hs. intros Hf. destruct (F7 Hf) as [K1 K2]. split.
    + intros [?|Hr]; [done|]. symmetry in Hr. apply G5 in Hr. congruence.
    + destruct (pp_stopped p') eqn:Es; [|done]. destruct (proj1 G3 eq_refl) as [?| ->]; [congruence|].
      rewrite Hf in Hin. exfalso. in_prog.
  - intros [Hd|Hd]; apply G4; [left; auto|by right].
  - destruct G6 as [[Ge Gn]|[(code & -> & Ge)|[-> Gs]]].
    + left. split; [congruence|]. intros [?|Hd]; [done|]. by apply (Gn 0%Z).
    + right. assert (code = 0%Z) as ->; [|done]. destruct (pp_signal p); in_prog.
    + destruct (reached_locals n (pp_signal p) done (SDropLocals :: rest) E) as (_ & _ & Hd); [by right|]. rewrite (F8 Hd) in Gs. done.
Qed.

(** ** Every step keeps the invariant *)

Lemma main_step_inv n p p' : process_inv n p -> pp_exit p = None -> main_step p = PNext p' -> process_inv n p'.
Proof.
  intros (HL & HR & done & E & F) Hx H. unfold main_step in H. destruct (pp_todo p) as [|x rest] eqn:Et; [done|].
  destruct (main_exec_refs n x (set_todo rest p) p' H HL) as (HL' & HR' & Es & Et' & _); [by destruct HR|].
  split; [done|]. split; [done|]. exists (done ++ [x]). rewrite Es, Et'. cbn [set_todo pp_todo pp_signal]. rewrite <-app_assoc. split; [done|].
  eapply (main_exec_effects n x done rest (set_todo rest p)); [done|done|by apply set_todo_effects|done|done|done].
Qed.

(** An event that changes neither the main thread's position nor the flags. *)
Lemma same_position n p p' :
  process_inv n p -> pp_todo p' = pp_todo p -> pp_signal p' = pp_signal p ->
  pp_server p' = pp_server p -> pp_cluster p' = pp_cluster p -> pp_stopped p' = pp_stopped p -> pp_snapshots p' = pp_snapshots p -> pp_exit p' = pp_exit p ->
  length (pp_ctxs p') = n -> refs_ok n p' ->
  (forall i c', pp_ctxs p' !! i = Some c' -> exists c, pp_ctxs p !! i = Some c /\ (cx_stopped c = true -> cx_stopped c' = true) /\
     cx_alive c' = cx_alive c /\ (cx_thread c' = TRunning -> cx_thread c = TRunning)) ->
  process_inv n p'.
Proof.
  intros (HL & _ & done & E & [F1 F2 F3 F4 F5 F6 F7 F8 F9]) E1 E2 E3 E4 E5 E6 E7 HL' HR C. split; [done|]. split; [done|]. exists done.
  rewrite E1, E2. split; [done|]. split; rewrite ?E2, ?E3, ?E4, ?E5, ?E6, ?E7; try done.
  - intros i c' Hc Hd. destruct (C i c' Hc) as (c & Hc0 & K & _). eauto.
  - intros i c' Hc Hd Hr. destruct (C i c' Hc) as (c & Hc0 & _ & _ & K). by apply (F2 i c Hc0 Hd), K.
  - intros i c' Hc Ha. destruct (C i c' Hc) as (c & Hc0 & _ & K & _). apply (F3 i c Hc0). congruence.
Qed.

Lemma set_refs_inv n m ts p : process_inv n p -> refs_ok n (set_refs m ts p) -> process_inv n (set_refs m ts p).
Proof. intros I R. eapply same_position; [exact I|done..|apply I|done|]. intros i c Hc. exists c. by split_and!. Qed.

Lemma signal_inv n p : process_inv n p -> in_run p = true -> pp_signal p = false ->
  process_inv n (mkProcess (pp_ctxs p) (pp_sessions p) (pp_tasks p) (pp_accepted p) (pp_server p) (pp_stopped p) true (pp_snapshots p) (pp_cluster p)
    (signal_handler (length (pp_ctxs p)) ++ pp_todo p) (pp_exit p)).
Proof.
  intros (HL & [R1 R2] & done & E & [F1 F2 F3 F4 F5 F6 F7 F8 F9]) Hr Hs. unfold in_run in Hr. bool_facts.
  split; [done|]. split; [by split|]. exists done. cbn. rewrite HL. split; [|by split].
  rewrite Hs in E. destruct (no_signal_run n done (pp_todo p) E) as [K _]; [by apply F7|]. destruct K as [-> ->]; [done|]. done.
Qed.

Lemma on_io_next s p f p' : on_io s p f = PNext p' ->
  exists x, pp_sessions p !! s = Some x /\ ss_io x = true /\ ctx_runs (ss_ctx x) p = true /\ p' = f x.
Proof.
  unfold on_io. destruct (pp_sessions p !! s) as [x|]; [|done]. destruct (ctx_runs _ p) eqn:Er; cbn; [|done].
  destruct (ss_io x) eqn:Ei; [|done]. destruct (ctx_alive _ p); [|done]. intros [= <-]. by exists x.
Qed.

Lemma collect_refs n ts m p :
  (forall s st, (s, st) ∈ ts -> is_Some (m !! s)) -> (forall s x, m !! s = Some x -> ss_ctx x < n) -> refs_ok n (set_refs (collect ts m) ts p).
Proof.
  intros H1 H2. split; cbn.
  - intros s st Hs. destruct (H1 s st Hs) as [x Hx]. exists x. apply collect_lookup. split; [done|]. right. cbn. apply list_elem_of_fmap. by exists (s, st).
  - intros s x Hs. apply collect_lookup in Hs as [Hs _]. by eapply H2.
Qed.

Lemma process_step_inv n e p p' : process_inv n p -> process_step e p = PNext p' -> process_inv n p'.
Proof.
  intros I H. pose proof I as (HL & [R1 R2] & _). unfold process_step in H. destruct (pp_exit p) as [ex|] eqn:Ex; [done|].
  assert (U : forall s x y, pp_sessions p !! s = Some x -> ss_ctx y = ss_ctx x ->
    (forall s' st, (s', st) ∈ pp_tasks p -> is_Some (<[s := y]> (pp_sessions p) !! s')) /\
    (forall s' x', <[s := y]> (pp_sessions p) !! s' = Some x' -> ss_ctx x' < n)).
  { intros s x y Hs Ey. split.
    - intros s' st Hin. destruct (decide (s = s')) as [<-|Hne]; [by rewrite lookup_insert_eq|]. rewrite lookup_insert_ne by done. by eapply R1.
    - intros s' x' Hs'. apply lookup_insert_Some in Hs' as [[<- <-]|[_ Hs']]; [rewrite Ey|]; by eapply R2. }
  destruct e as [| |i|s|s|i|k|k|k].
  - by eapply main_step_inv.
  - destruct (in_run p && negb (pp_signal p)) eqn:Er; [|done]. injection H as <-. apply andb_true_iff in Er as [Er Es].
    apply negb_true_iff in Es. pose proof (signal_inv n p I Er Es) as J. rewrite Ex in J. exact J.
  - destruct (in_run p && (i <? length (pp_ctxs p))) eqn:Er; [|done]. injection H as <-. bool_facts.
    eapply same_position; [exact I|done..|apply I| |].
    + split; cbn.
      * intros s st Hs. destruct (decide (pp_accepted p = s)) as [<-|Hne]; [by rewrite lookup_insert_eq|]. rewrite lookup_insert_ne by done. by eapply R1.
      * intros s x Hs. apply lookup_insert_Some in Hs as [[<- <-]|[_ Hs]]; [cbn; lia|by eapply R2].
    + intros j c Hc. exists c. by split_and!.
  - apply on_io_next in H as (x & Hs & Hi & _ & ->). destruct (U s x (mkSess (ss_ctx x) false) Hs eq_refl) as [U1 U2].
    apply set_refs_inv; [done|]. split; cbn; [|done]. intros s' st Hin. apply elem_of_app in Hin as [Hin|Hin]; [by eapply U1|].
    apply list_elem_of_singleton in Hin as [= -> _]. by rewrite lookup_insert_eq.
  - apply on_io_next in H as (x & Hs & Hi & _ & ->). destruct (U s x (mkSess (ss_ctx x) false) Hs eq_refl) as [U1 U2].
    apply set_refs_inv; [done|]. by apply collect_refs.
  - destruct (pp_ctxs p !! i) as [c|] eqn:Ei; [|done]. destruct (_ && _); [|done]. destruct (cx_alive c); [|done]. injection H as <-.
    eapply same_position; [exact I|done..|cbn; by rewrite length_alter|by split|]. cbn. intros j c' Hc'.
    apply alter_lookup in Hc' as (c0 & Hc0 & [[-> ->]|[_ ->]]); exists c0; by split_and!.
  - destruct (pp_tasks p !! k) as [[s []]|] eqn:Ek; try done. destruct (pp_cluster p); [|done]. injection H as <-.
    apply set_refs_inv; [done|]. split; cbn; [|done]. intros s' st Hin. apply list_elem_of_lookup in Hin as [j Hj].
    apply list_lookup_insert_Some in Hj as [(<- & [= <- _] & _)|[_ Hj]]; [eapply R1, list_elem_of_lookup_2, Ek|eapply R1, list_elem_of_lookup_2, Hj].
  - destruct (pp_tasks p !! k) as [[s []]|] eqn:Ek; try done. destruct (pp_sessions p !! s) as [x|] eqn:Es; [|done].
    destruct (ctx_alive _ p); [|done]. injection H as <-. destruct (U s x (mkSess (ss_ctx x) true) Es eq_refl) as [U1 U2].
    apply set_refs_inv; [done|]. split; cbn; [|done]. intros s' st Hin. apply list_elem_of_lookup in Hin as [j Hj].
    apply list_lookup_insert_Some in Hj as [(<- & [= <- _] & _)|[_ Hj]]; [by rewrite lookup_insert_eq|eapply U1, list_elem_of_lookup_2, Hj].
  - destruct (pp_tasks p !! k) as [[s []]|] eqn:Ek; try done. destruct (pp_sessions p !! s) as [x|]; [|done].
    destruct (_ && _); [done|]. destruct (_ && _); [done|]. injection H as <-. apply set_refs_inv; [done|]. apply collect_refs; [|done].
    intros s' st Hin. eapply R1. by eapply elem_of_submseteq, submseteq_delete.
Qed.

Lemma process_run_inv n evs p p' : process_inv n p -> process_run evs p = PNext p' -> process_inv n p'.
Proof.
  revert p. induction evs as [|e evs IH]; intros p I H; cbn in H; [by injection H as <-|].
  destruct (process_step e p) as [p1| |] eqn:E; [|done..]. by eapply IH; [eapply process_step_inv|].
Qed.

(** ** Nothing destroyed is used while the RPC pool is idle *)

Lemma running_alive n p i : process_inv n p -> ctx_runs i p = true -> ctx_alive i p = true.
Proof.
  intros (HL & _ & done & E & F). unfold ctx_runs, ctx_alive. destruct (pp_ctxs p !! i) as [c|] eqn:Ec; [|done]. cbn. intros Hr.
  apply bool_decide_eq_true_1 in Hr. destruct (cx_alive c) eqn:Ea; [done|]. exfalso.
  pose proof (ef_alive _ _ _ F i c Ec Ea) as Hd. destruct (reached_drop n (pp_signal p) done (pp_todo p) E i) as (_ & J & _); [by left|].
  apply (ef_join _ _ _ F i c Ec); [|done]. apply J. rewrite <-HL. by eapply lookup_lt_Some.
Qed.

Lemma serving_alive n p i : process_inv n p -> pp_server p = true -> i < n -> ctx_alive i p = true /\ pp_cluster p = true.
Proof.
  intros (HL & _ & done & E & F) Hs Hi. assert (Hn : SDropServer ∉ done) by (intros Hd; apply (ef_server _ _ _ F) in Hd; congruence). split.
  - unfold ctx_alive. destruct (lookup_lt_is_Some_2 (pp_ctxs p) i) as [c Ec]; [lia|]. rewrite Ec. cbn. destruct (cx_alive c) eqn:Ea; [done|].
    exfalso. apply Hn. apply (reached_drop n (pp_signal p) done (pp_todo p) E i). left. by eapply (ef_alive _ _ _ F).
  - destruct (pp_cluster p) eqn:Ec; [done|]. exfalso. apply Hn. apply (reached_locals n (pp_signal p) done (pp_todo p) E). left. by apply (ef_cluster _ _ _ F).
Qed.

Lemma step_defined n e p : process_inv n p -> pp_server p = true \/ pp_tasks p = [] -> process_step e p <> PUndefined.
Proof.
  intros I HT. pose proof I as (HL & [R1 R2] & _). unfold process_step. destruct (pp_exit p); [done|].
  assert (IO : forall s f, on_io s p f <> PUndefined).
  { intros s f. unfold on_io. destruct (pp_sessions p !! s) as [x|]; [|done]. destruct (ctx_runs _ p) eqn:Er; cbn; [|done].
    rewrite (running_alive n p _ I Er). by destruct (ss_io x). }
  assert (T : forall k x, pp_tasks p !! k = Some x -> pp_server p = true) by (intros k x Hk; destruct HT as [?|E]; [done|]; by rewrite E in Hk).
  destruct e as [| |i|s|s|i|k|k|k]; try apply IO.
  - unfold main_step. destruct (pp_todo p) as [|x rest]; [done|]. destruct x; cbn; try done; repeat case_match; done.
  - by destruct (_ && _).
  - by destruct (_ && _).
  - destruct (pp_ctxs p !! i) as [c|] eqn:Ei; [|done]. destruct (bool_decide (cx_thread c = TRunning)) eqn:Er; cbn; [|done].
    destruct (_ || _); [|done]. pose proof (running_alive n p i I) as A. unfold ctx_runs, ctx_alive in A. rewrite Ei in A. cbn in A. by rewrite A.
  - destruct (pp_tasks p !! k) as [[s []]|] eqn:Ek; try done. destruct (pp_cluster p) eqn:Ec; [done|].
    destruct (R1 s TkQueued) as [x Hx]; [by eapply list_elem_of_lookup_2|].
    destruct (serving_alive n p (ss_ctx x) I (T _ _ Ek) (R2 s x Hx)) as [_ ?]. congruence.
  - destruct (pp_tasks p !! k) as [[s []]|] eqn:Ek; try done. destruct (R1 s TkExecuted) as [x Hx]; [by eapply list_elem_of_lookup_2|].
    rewrite Hx. by destruct (serving_alive n p (ss_ctx x) I (T _ _ Ek) (R2 s x Hx)) as [-> _].
  - destruct (pp_tasks p !! k) as [[s []]|] eqn:Ek; try done. destruct (R1 s TkPosted) as [x Hx]; [by eapply list_elem_of_lookup_2|].
    rewrite Hx. destruct (serving_alive n p (ss_ctx x) I (T _ _ Ek) (R2 s x Hx)) as [-> _]. cbn [negb]. rewrite andb_false_r.
    unfold handler_alive. cbn [pp_server set_refs]. rewrite (T _ _ Ek). done.
Qed.

(** Once the server is gone and the pool idle, it stays so. *)
Lemma idle_stays n e p p' : process_inv n p -> pp_server p = false -> pp_tasks p = [] -> process_step e p = PNext p' ->
  pp_server p' = false /\ pp_tasks p' = [].
Proof.
  intros (HL & [R1 R2] & done & E & F) Hs Ht H. assert (Hd : SDropServer ∈ done) by (by apply (ef_server _ _ _ F)).
  assert (NR : forall i, ctx_runs i p = false).
  { intros i. unfold ctx_runs. destruct (pp_ctxs p !! i) as [c|] eqn:Ec; [|done]. cbn. apply bool_decide_eq_false_2.
    apply (ef_join _ _ _ F i c Ec). eapply (server_joined n (pp_signal p) done (pp_todo p) E Hd). rewrite <-HL. by eapply lookup_lt_Some. }
  unfold process_step in H. destruct (pp_exit p); [done|]. rewrite Ht in H. destruct e as [| |i|s|s|i|k|k|k]; try (by rewrite lookup_nil in H).
  - unfold main_step in H. destruct (pp_todo p) as [|x rest] eqn:Et; [done|].
    destruct (main_exec_flags x _ _ H) as (G & _). destruct (main_exec_refs n x (set_todo rest p) p' H HL) as (_ & _ & _ & _ & ->); [by split|].
    split; [|done]. apply G. by left.
  - destruct (_ && _); [|done]. by injection H as <-.
  - destruct (_ && _); [|done]. by injection H as <-.
  - apply on_io_next in H as (x & _ & _ & Hr & _). by rewrite NR in Hr.
  - apply on_io_next in H as (x & _ & _ & Hr & _). by rewrite NR in Hr.
  - destruct (pp_ctxs p !! i) as [c|]; [|done]. destruct (_ && _); [|done]. destruct (cx_alive c); [|done]. by injection H as <-.
Qed.

Lemma idle_defined n evs p : process_inv n p -> pp_server p = false -> pp_tasks p = [] -> process_run evs p <> PUndefined.
Proof.
  revert p. induction evs as [|e evs IH]; intros p I Hs Ht; cbn; [done|].
  destruct (process_step e p) as [p1| |] eqn:E; [|done|by destruct (step_defined n e p I (or_intror Ht))].
  destruct (idle_stays n e p p1 I Hs Ht E). apply IH; [by eapply process_step_inv|done..].
Qed.

(** ** The process ends *)

(** A step of the main thread that it can take. *)
Lemma main_moves n p x rest p' :
  process_inv n p -> pp_exit p = None -> pp_todo p = x :: rest -> main_exec x (set_todo rest p) = PNext p' ->
  process_run [PvMain] p = PNext p' /\ process_inv n p' /\ pp_signal p' = pp_signal p /\ pp_todo p' = rest.
Proof.
  intros I Ex Et H. assert (E : process_step PvMain p = PNext p') by (unfold process_step, main_step; by rewrite Ex, Et).
  split; [cbn [process_run]; by rewrite E|]. split; [by eapply process_step_inv|].
  pose proof I as (HL & [R1 R2] & _). destruct (main_exec_refs n x (set_todo rest p) p' H HL) as (_ & _ & ? & ? & _); [by split|done].
Qed.

(** After a signal the main thread gets on, once the I/O thread it waits for has
    returned. *)
Lemma main_progress n p : process_inv n p -> pp_signal p = true -> pp_exit p = None ->
  exists evs p', process_run evs p = PNext p' /\ process_inv n p' /\ pp_signal p' = true /\ length (pp_todo p') < length (pp_todo p).
Proof.
  intros I Hs Ex. pose proof I as (HL & HR & done & E & F). rewrite Hs in E.
  assert (W : forall x rest p', pp_todo p = x :: rest -> main_exec x (set_todo rest p) = PNext p' ->
    exists evs p', process_run evs p = PNext p' /\ process_inv n p' /\ pp_signal p' = true /\ length (pp_todo p') < length (pp_todo p)).
  { intros x rest p' Et H. destruct (main_moves n p x rest p' I Ex Et H) as (Hr & I' & Es & Et'). exists [PvMain], p'.
    split_and!; [done|done|congruence|]. rewrite Et, Et'. cbn. lia. }
  destruct (pp_todo p) as [|x rest] eqn:Et.
  { rewrite app_nil_r in E. destruct (ef_exit _ _ _ F) as [[_ Hn]|?]; [|congruence]. exfalso. apply Hn. rewrite E. in_prog. }
  destruct x as [i| | |i|i| | | | | |i| | |code]; try (by eapply W).
  - eapply (W SRun rest); [done|]. cbn. by rewrite (ef_stopped _ _ _ F) by (eapply (run_stopped n done (SRun :: rest)); [done|by right]).
  - destruct (pp_ctxs p !! i) as [c|] eqn:Ec.
    2: { eapply (W (SJoin i) rest); [done|]. cbn. by rewrite Ec. }
    destruct (decide (cx_thread c = TRunning)) as [Er|Hne].
    2: { destruct (cx_thread c) eqn:Eth; [..|]; try done; eapply (W (SJoin i) rest); try done; cbn; rewrite Ec; cbn; by rewrite Eth. }
    assert (Hi : i < n) by (rewrite <-HL; by eapply lookup_lt_Some).
    pose proof (ef_stop _ _ _ F i c Ec (join_stopped n done (SJoin i :: rest) i E ltac:(by right) Hi)) as Hst.
    set (p1 := set_ctxs (alter (with_thread TDone) i (pp_ctxs p)) p).
    assert (S1 : process_step (PvIoDone i) p = PNext p1).
    { pose proof (running_alive n p i I) as A. unfold ctx_runs, ctx_alive in A. rewrite Ec in A. cbn in A. rewrite (bool_decide_eq_true_2 _ Er) in A.
      unfold process_step. rewrite Ex, Ec, (bool_decide_eq_true_2 _ Er), Hst. cbn. by rewrite A. }
    pose proof (process_step_inv n _ p p1 I S1) as I1.
    destruct (main_moves n p1 (SJoin i) rest (set_ctxs (alter (with_thread TJoined) i (pp_ctxs p1)) (set_todo rest p1)) I1 Ex Et) as (Hr & I' & Es & Et').
    { cbn. rewrite list_lookup_alter_eq, Ec. done. }
    exists [PvIoDone i; PvMain], (set_ctxs (alter (with_thread TJoined) i (pp_ctxs p1)) (set_todo rest p1)). split_and!.
    + cbn [process_run]. rewrite S1. exact Hr.
    + done.
    + done.
    + cbn. lia.
  - assert (Sn : pp_snapshots p = false).
    { apply (ef_snap _ _ _ F). apply (reached_locals n true done (SDropLocals :: rest) E). by right. }
    eapply (W SDropLocals rest); [done|]. cbn. by rewrite Sn.
Qed.

Lemma process_run_app evs1 evs2 p p1 : process_run evs1 p = PNext p1 -> process_run (evs1 ++ evs2) p = process_run evs2 p1.
Proof.
  revert p. induction evs1 as [|e evs1 IH]; intros p H; cbn in *; [by injection H as ->|]. destruct (process_step e p); [by apply IH|done..].
Qed.

Lemma process_ends n p : process_inv n p -> pp_signal p = true -> exists evs p', process_run evs p = PNext p' /\ pp_exit p' = Some (ExStatus 0).
Proof.
  remember (length (pp_todo p)) as k eqn:Ek. revert p Ek. induction k as [k IH] using lt_wf_ind. intros p -> I Hs.
  destruct (pp_exit p) as [ex|] eqn:Ex.
  { exists [], p. split; [done|]. destruct I as (_ & _ & done & _ & F). destruct (ef_exit _ _ _ F) as [[? _]|?]; congruence. }
  destruct (main_progress n p I Hs Ex) as (evs1 & p1 & R1 & I1 & S1 & L1).
  destruct (IH _ L1 p1 eq_refl I1 S1) as (evs2 & p2 & R2 & X2). exists (evs1 ++ evs2), p2. split; [|done].
  by rewrite (process_run_app _ _ _ _ R1).
Qed.

(** C36: A node that is told to stop stops.  Whatever connections, commands in flight
    and interleaving of threads, after a signal the process can always reach its
    end, with exit status 0 and no other; and it destroys nothing that is still
    used, as long as no command is executing on the RPC pool when the server
    object is destroyed: before that, and from then on if the pool is idle, no step
    of any thread is undefined. *)
Theorem process_shuts_down n snapshots evs p :
  process_run evs (process_start n snapshots true true) = PNext p ->
  (pp_exit p = None \/ pp_exit p = Some (ExStatus 0)) /\
  (pp_signal p = true -> exists evs' p', process_run evs' p = PNext p' /\ pp_exit p' = Some (ExStatus 0)) /\
  (pp_server p = true -> forall e, process_step e p <> PUndefined) /\
  (pp_server p = false -> pp_tasks p = [] -> forall evs', process_run evs' p <> PUndefined).
Proof.
  intros H. pose proof (process_run_inv _ evs _ p (process_start_inv n snapshots) H) as I. split; [|split; [|split]].
  - destruct I as (_ & _ & done & _ & F). destruct (ef_exit _ _ _ F) as [[? _]|?]; auto.
  - by eapply process_ends.
  - intros Hs e. eapply step_defined; [exact I|by left].
  - intros Hs Ht evs'. by eapply idle_defined.
Qed.

(** The guarantee ends there: nothing waits for the tasks of the RPC pool before
    the I/O contexts are destroyed.  A command that is still executing when the node
    is stopped posts its reply to a context that no longer exists, or is the last to
    refer to the command handler and destroys the thread pool it runs on. *)
Definition stop_one : list ProcEv := repeat PvMain 6 ++ [PvIoDone 0] ++ repeat PvMain 4.

(** [r] is a defined run after which [e] is undefined. *)
Definition breaks (e : ProcEv) (r : PResult) : bool :=
  match r with PNext p => match process_step e p with PUndefined => true | _ => false end | _ => false end.

Theorem shutdown_race snapshots :
  breaks (PvPost 0) (process_run ([PvMain; PvAccept 0; PvHandoff 0; PvSignal] ++ stop_one ++ repeat PvMain 4 ++ [PvExecute 0])
    (process_start 1 snapshots true true)) = true /\
  breaks (PvEnd 0) (process_run ([PvMain; PvAccept 0; PvHandoff 0; PvExecute 0; PvPost 0; PvClose 0; PvSignal] ++ stop_one)
    (process_start 1 snapshots true true)) = true.
Proof. destruct snapshots; split; vm_compute; reflexivity. Qed.

(** ** A server that cannot be built *)

(** The end of a process whose try block was left by an exception. *)
Definition failed_exit (snapshots : bool) : Exit := if snapshots then ExTerminate else ExStatus 1.

Definition unwinds (x : PStmt) : bool :=
  match x with SClearGuards | SStopCtx _ | SJoin _ | SDropServer | SDropCtx _ | SDropAccept => true | _ => false end.

(** No thread was created and no connection accepted. *)
Record failed_inv (snapshots : bool) (p : Process) : Prop := {
  fi_sessions : pp_sessions p = ∅;
  fi_tasks : pp_tasks p = [];
  fi_threads : Forall (fun c => cx_thread c = TNone) (pp_ctxs p);
  fi_snapshots : pp_snapshots p = snapshots;
  fi_todo : pp_exit p = None /\ (exists l, pp_todo p = l ++ [SDropLocals; SExit 1] /\ forallb unwinds l = true) \/
    pp_exit p = None /\ pp_todo p = [SExit 1] /\ snapshots = false \/ pp_exit p = Some (failed_exit snapshots)
}.

Lemma failed_start_inv n snapshots bind_ok metrics_ok :
  bind_ok && metrics_ok = false -> failed_inv snapshots (process_start n snapshots bind_ok metrics_ok).
Proof.
  intros H. unfold process_start, main_try. rewrite H. split; try done.
  - cbn. apply Forall_replicate. done.
  - left. split; [done|]. eexists. split; [done|]. apply forallb_forall. intros x Hx. apply list_elem_of_In in Hx.
    destruct bind_ok; in_prog.
Qed.

Lemma failed_main snapshots p : failed_inv snapshots p -> pp_exit p = None ->
  exists p', main_step p = PNext p' /\ failed_inv snapshots p' /\ length (pp_todo p') < length (pp_todo p).
Proof.
  intros [F1 F2 F3 F4 F5] Ex. unfold main_step. destruct F5 as [[_ (l & Et & Hl)]|[(_ & Et & Hs)|?]]; [| |congruence].
  - rewrite Et. destruct l as [|x l]; cbn [app].
    + cbn. rewrite F4. destruct snapshots; eexists; (split; [reflexivity|]); (split; [split; cbn; try done|cbn; lia]).
      * by right; right.
      * by right; left.
    + cbn in Hl. apply andb_true_iff in Hl as [Hx Hl].
      assert (T : forall ctxs p', main_exec x (set_todo (l ++ [SDropLocals; SExit 1]) p) = PNext p' -> pp_sessions p' = ∅ -> pp_tasks p' = [] ->
        pp_ctxs p' = ctxs -> Forall (fun c => cx_thread c = TNone) ctxs -> pp_snapshots p' = snapshots -> pp_exit p' = None ->
        pp_todo p' = l ++ [SDropLocals; SExit 1] ->
        exists p', main_exec x (set_todo (l ++ [SDropLocals; SExit 1]) p) = PNext p' /\ failed_inv snapshots p' /\
          length (pp_todo p') < length (x :: l ++ [SDropLocals; SExit 1])).
      { intros ctxs p' E T1 T2 T3 T4 T5 T6 T7. exists p'. split; [done|]. split; [|rewrite T7; cbn; lia]. split; try done; [by rewrite T3|].
        left. split; [done|]. by exists l. }
      assert (A : forall (f : Ctx -> Ctx) i, (forall c, cx_thread (f c) = cx_thread c) -> Forall (fun c => cx_thread c = TNone) (alter f i (pp_ctxs p))).
      { intros f i Hf. apply Forall_forall. intros c Hc. apply list_elem_of_lookup in Hc as [j Hj]. rewrite Forall_forall in F3.
        apply alter_lookup in Hj as (c0 & Hc0%list_elem_of_lookup_2 & [[_ ->]|[_ ->]]); [rewrite Hf|]; by apply F3. }
      destruct x as [i| | |i|i| | | | | |i| | |code]; try done.
      * eapply T; try done. apply Forall_fmap. eapply Forall_impl; [exact F3|done].
      * eapply T; try done. by apply A.
      * destruct (pp_ctxs p !! i) as [c|] eqn:Ec.
        -- apply (T (pp_ctxs p) (set_todo (l ++ [SDropLocals; SExit 1]) p)); try done. cbn. rewrite Ec. cbn.
           by rewrite (proj1 (Forall_forall _ _) F3 c) by (by eapply list_elem_of_lookup_2).
        -- apply (T (pp_ctxs p) (set_todo (l ++ [SDropLocals; SExit 1]) p)); try done. cbn. by rewrite Ec.
      * by eapply T; try done.
      * eapply T; try done; [|by apply A]. cbn. rewrite F1, fmap_empty. unfold collect. by rewrite map_filter_empty.
      * by eapply T; try done.
  - rewrite Et. cbn. eexists. split; [reflexivity|]. split; [split; cbn; try done|cbn; lia]. right; right. by rewrite Hs.
Qed.

Lemma failed_step snapshots e p : failed_inv snapshots p ->
  process_step e p <> PUndefined /\ forall p', process_step e p = PNext p' -> failed_inv snapshots p'.
Proof.
  intros F. pose proof F as [F1 F2 F3 F4 F5]. unfold process_step. destruct (pp_exit p) as [ex|] eqn:Ex; [done|].
  assert (NR : in_run p = false).
  { unfold in_run. destruct F5 as [[_ (l & -> & Hl)]|[(_ & -> & _)|?]]; [|done|done]. destruct l as [|x l]; [done|]. cbn in *.
    apply andb_true_iff in Hl as [Hx _]. by destruct x. }
  destruct e as [| |i|s|s|i|k|k|k]; rewrite ?NR, ?F2; unfold on_io; rewrite ?F1, ?lookup_empty, ?lookup_nil; try done.
  - destruct (failed_main snapshots p F Ex) as (p1 & -> & F' & _). split; [done|]. by intros p' [= <-].
  - destruct (pp_ctxs p !! i) as [c|] eqn:Ec; [|done]. rewrite Forall_forall in F3. rewrite (F3 c) by (by eapply list_elem_of_lookup_2). done.
Qed.

(** If a server cannot be built, for instance because its port is in use, the
    process ends with status 1 and everything built is destroyed, unless there are
    snapshots: then the snapshot thread is still running when [main] returns,
    and the program is terminated. *)
Theorem failed_start_exit n snapshots bind_ok metrics_ok :
  bind_ok && metrics_ok = false ->
  (exists evs p, process_run evs (process_start n snapshots bind_ok metrics_ok) = PNext p /\ pp_exit p = Some (failed_exit snapshots)) /\
  forall evs, process_run evs (process_start n snapshots bind_ok metrics_ok) <> PUndefined /\
    forall p, process_run evs (process_start n snapshots bind_ok metrics_ok) = PNext p -> pp_exit p = None \/ pp_exit p = Some (failed_exit snapshots).
Proof.
  intros H. pose proof (failed_start_inv n snapshots bind_ok metrics_ok H) as F. revert F. generalize (process_start n snapshots bind_ok metrics_ok). clear H.
  intros p F. split.
  - remember (length (pp_todo p)) as k eqn:Ek. revert p Ek F. induction k as [k IH] using lt_wf_ind. intros p -> F.
    destruct (pp_exit p) as [ex|] eqn:Ex.
    + exists [], p. split; [done|]. destruct (fi_todo _ _ F) as [[? _]|[(? & _)|?]]; congruence.
    + destruct (failed_main snapshots p F Ex) as (p1 & E1 & F1 & L1). destruct (IH _ L1 p1 eq_refl F1) as (evs & p2 & R & X).
      exists (PvMain :: evs), p2. split; [|done]. cbn [process_run]. unfold process_step. by rewrite Ex, E1.
  - intros evs. revert p F. induction evs as [|e evs IH]; intros p F.
    + cbn. split; [done|]. intros p' [= <-]. destruct (fi_todo _ _ F) as [[? _]|[(? & _)|?]]; auto.
    + cbn [process_run]. destruct (failed_step snapshots e p F) as [N S]. destruct (process_step e p) as [p1| |]; [|done|done]. by apply IH, S.
Qed.

(** ** Witnesses *)

(** A connection, a command on the RPC pool that finishes, a signal. *)
Definition sample_life : list ProcEv := [PvMain; PvMain; PvAccept 0; PvAccept 1; PvHandoff 1; PvExecute 0; PvPost 0; PvEnd 0; PvSignal; PvMain].

Definition sample_process : Process :=
  match process_run sample_life (process_start 2 true true true) with PNext p => p | _ => process_start 2 true true true end.

Lemma process_shuts_down_witness :
  pp_signal sample_process = true /\ size (pp_sessions sample_process) = 2 /\
  exists evs' p', process_run evs' sample_process = PNext p' /\ pp_exit p' = Some (ExStatus 0).
Proof.
  assert (E : process_run sample_life (process_start 2 true true true) = PNext sample_process) by (vm_compute; reflexivity).
  split; [vm_compute; reflexivity|]. split; [vm_compute; reflexivity|].
  destruct (process_shuts_down 2 true sample_life sample_process E) as (_ & L & _). apply L. vm_compute. reflexivity.
Defined.

Lemma failed_start_exit_witness : exists evs p,
  process_run evs (process_start 4 true true false) = PNext p /\ pp_exit p = Some ExTerminate.
Proof. exact (proj1 (failed_start_exit 4 true true false eq_refl)). Defined.
