(* ===== verification/Chaos.v ===== *)
(** * The chaos test's checker

    Models chaos/model.go and chaos/anomaly.go, and how chaos/main.go records
    what clients saw: the key-value model handed to Porcupine, the partition of
    a history by key, and the two definite anomalies the test reports.
    [linearizable] is what Porcupine decides for a model: some order of the
    operations that never puts an operation before one that had returned when it
    was called, and in which every step is legal.

    The theorems say what the reports mean: checking the keys one by one is as
    good as checking the whole history, and an anomaly is reported only if the
    history is not linearizable. *)

From S2P Require Import Prelude.
From stdpp Require Import sorting.

Local Open Scope Z_scope.

(** ** The model *)

Inductive kvOp := opGet | opPut | opDel.

#[export] Instance kvOp_eq_dec : EqDecision kvOp.
Proof. solve_decision. Defined.

Record kvInput := mkInput { in_op : kvOp; in_key : bytes; in_value : bytes }.
Record kvOutput := mkOutput { out_found : bool; out_value : bytes }.
Record kvState := mkState { kv_found : bool; kv_value : bytes }.

(** [porcupine.Operation]. *)
Record Operation := mkOperation {
  h_client : Z;
  h_input : kvInput;
  h_call : Z;
  h_output : kvOutput;
  h_return : Z
}.

Definition h_key (o : Operation) : bytes := in_key (h_input o).
Definition h_op (o : Operation) : kvOp := in_op (h_input o).

(** [math.MaxInt64], the return time of a write whose outcome is unknown. *)
Definition kMaxInt64 : Z := 2 ^ 63 - 1.

(** [kvModel.Partition]. *)
Definition partition_step (acc : gmap bytes (list Operation) * list bytes) (op : Operation)
    : gmap bytes (list Operation) * list bytes :=
  let '(byKey, keys) := acc in
  let k := h_key op in
  (<[k := default [] (byKey !! k) ++ [op]]> byKey,
   match byKey !! k with Some _ => keys | None => keys ++ [k] end).

Definition kvPartition (history : list Operation) : list (list Operation) :=
  let '(byKey, keys) := foldl partition_step (∅, []) history in
  (fun k => default [] (byKey !! k)) <$> keys.

(** [kvModel.Init] and [kvModel.Step]. *)
Definition kvInit : kvState := mkState false [].

Definition kvStep (st : kvState) (input : kvInput) (out : kvOutput) : bool * kvState :=
  match in_op input with
  | opGet => (Bool.eqb (out_found out) (kv_found st) && (negb (out_found out) || bytes_eqb (out_value out) (kv_value st)), st)
  | opPut => (true, mkState true (in_value input))
  | opDel => (true, mkState false [])
  end.

(** ** What the clients record *)

(** The outcome of [client.Do] as [runClient] uses it: a reply, which is nil or
    holds a string, or an error. *)
Inductive DoResult := DoReply (value : option bytes) | DoError.

(** [runClient], after the reply of an operation. *)
Definition record_op (client : Z) (input : kvInput) (call : Z) (res : DoResult) (ret : Z) : option Operation :=
  match res, in_op input with
  | DoReply (Some v), opGet => Some (mkOperation client input call (mkOutput true v) ret)
  | DoReply _, _ => Some (mkOperation client input call (mkOutput false []) ret)
  | DoError, opGet => None
  | DoError, _ => Some (mkOperation client input call (mkOutput false []) kMaxInt64)
  end.

(** ** The anomalies *)

(** [sort.Slice] with a comparison of one number: some sorted permutation. *)
Class SortSlice := {
  sort_slice : forall {A : Type}, (A -> Z) -> list A -> list A;
  sort_slice_perm : forall A (num : A -> Z) l, sort_slice num l ≡ₚ l;
  sort_slice_sorted : forall A (num : A -> Z) l, StronglySorted (fun x y => num x <= num y) (sort_slice num l)
}.

(** [sort.Search]: the first index at which the condition holds, or the
    length. *)
Fixpoint sort_search {A} (f : A -> bool) (l : list A) : nat :=
  match l with
  | [] => 0
  | x :: l' => if f x then 0 else S (sort_search f l')
  end.

Record write := mkWrite { w_call : Z; w_ret : Z; w_op : Operation }.

Record index := mkIndex { ix_writes : list write; ix_minRet : list Z }.

(** The first loop of [staleReads]. *)
Definition stale_collect (acc : gmap bytes (list write) * gmap bytes Operation) (op : Operation)
    : gmap bytes (list write) * gmap bytes Operation :=
  let '(writesByKey, writerOf) := acc in
  if bool_decide (h_op op = opGet) || (h_return op =? kMaxInt64) then acc
  else
    (<[h_key op := default [] (writesByKey !! h_key op) ++ [mkWrite (h_call op) (h_return op) op]]> writesByKey,
     if bool_decide (h_op op = opPut) then <[in_value (h_input op) := op]> writerOf else writerOf).

(** The suffix minima of the return times. *)
Definition suffix_min (ws : list write) : list Z :=
  foldr (fun w acc => Z.min (w_ret w) (default kMaxInt64 (head acc)) :: acc) [kMaxInt64] ws.

Section anomalies.
Context `{SortSlice}.

(** The second loop. *)
Definition make_index (ws : list write) : index :=
  let ws := sort_slice w_call ws in mkIndex ws (suffix_min ws).

(** The test of the third loop, and the write it shows. *)
Definition stale_read (idx : gmap bytes index) (writerOf : gmap bytes Operation) (op : Operation)
    : option (Operation * Operation * option write) :=
  if negb (bool_decide (h_op op = opGet) && out_found (h_output op)) then None
  else
    w1 ← writerOf !! out_value (h_output op);
    let ix := default (mkIndex [] []) (idx !! h_key op) in
    let i := sort_search (fun w => h_return w1 <? w_call w) (ix_writes ix) in
    if (i <? length (ix_writes ix))%nat && (default 0 (ix_minRet ix !! i) <? h_call op)
    then Some (op, w1, List.find (fun w => w_ret w <? h_call op) (drop i (ix_writes ix)))
    else None.

(** [staleReads]: the count, and the first three. *)
Definition staleReads (history : list Operation) : nat * list (Operation * Operation * option write) :=
  let '(writesByKey, writerOf) := foldl stale_collect (∅, ∅) history in
  let found := omap (stale_read (make_index <$> writesByKey) writerOf) history in
  (length found, take 3 found).

(** [inversions]. *)
Record read := mkRead { r_op : Operation; r_writer : Operation }.

Definition writers (history : list Operation) : gmap bytes Operation :=
  foldl (fun m op => if bool_decide (h_op op = opPut) then <[in_value (h_input op) := op]> m else m) ∅ history.

Definition reads_collect (writerOf : gmap bytes Operation) (acc : gmap bytes (list read)) (op : Operation)
    : gmap bytes (list read) :=
  if negb (bool_decide (h_op op = opGet) && out_found (h_output op)) then acc
  else match writerOf !! out_value (h_output op) with
  | Some w => <[h_key op := default [] (acc !! h_key op) ++ [mkRead op w]]> acc
  | None => acc
  end.

Definition inverted (r1 r2 : read) : bool :=
  negb ((h_call (r_op r2) <=? h_return (r_op r1)) || (h_call (r_writer r1) <=? h_return (r_writer r2))).

Fixpoint inversion_pairs (reads : list read) : list (read * read) :=
  match reads with
  | [] => []
  | r1 :: rest => (pair r1 <$> List.filter (inverted r1) rest) ++ inversion_pairs rest
  end.

Definition inversions (history : list Operation) : nat * list (read * read) :=
  let readsByKey := foldl (reads_collect (writers history)) ∅ history in
  let found := concat ((fun kr => inversion_pairs (sort_slice (fun r => h_call (r_op r)) kr.2)) <$> map_to_list readsByKey) in
  (length found, take 3 found).

End anomalies.

(** ** Linearizability *)

(** [a] may come before [b]: [b] had not returned when [a] was called. *)
Definition in_order (a b : Operation) : Prop := h_call a <= h_return b.

Fixpoint kv_legal (st : kvState) (l : list Operation) : Prop :=
  match l with
  | [] => True
  | o :: l' => (kvStep st (h_input o) (h_output o)).1 = true /\ kv_legal (kvStep st (h_input o) (h_output o)).2 l'
  end.

(** A history of one key. *)
Definition linearizable (h : list Operation) : Prop :=
  exists l, l ≡ₚ h /\ StronglySorted in_order l /\ kv_legal kvInit l.

(** A history of a whole store, which maps keys to registers. *)
Fixpoint store_legal (m : gmap bytes kvState) (l : list Operation) : Prop :=
  match l with
  | [] => True
  | o :: l' =>
      let r := kvStep (default kvInit (m !! h_key o)) (h_input o) (h_output o) in
      r.1 = true /\ store_legal (<[h_key o := r.2]> m) l'
  end.

Definition store_linearizable (h : list Operation) : Prop :=
  exists l, l ≡ₚ h /\ StronglySorted in_order l /\ store_legal ∅ l.

(** A history as the clients record it: calls come before returns, and no two
    writes share a value. *)
Definition times_ok (h : list Operation) : Prop :=
  Forall (fun o => h_call o <= h_return o /\ h_call o <= kMaxInt64) h.

Definition put_values (h : list Operation) : list bytes :=
  omap (fun o => if bool_decide (h_op o = opPut) then Some (in_value (h_input o)) else None) h.

Definition unique_values (h : list Operation) : Prop := NoDup (put_values h).

(** ** Keys *)

Definition of_key (k : bytes) (h : list Operation) : list Operation := List.filter (fun o => bytes_eqb (h_key o) k) h.

Lemma of_key_app k h1 h2 : of_key k (h1 ++ h2) = of_key k h1 ++ of_key k h2.
Proof. apply List.filter_app. Qed.

Lemma of_key_cons k o h : of_key k (o :: h) = if bytes_eqb (h_key o) k then o :: of_key k h else of_key k h.
Proof. done. Qed.

Lemma of_key_elem k h o : o ∈ of_key k h <-> o ∈ h /\ h_key o = k.
Proof. unfold of_key. rewrite !list_elem_of_In, List.filter_In, bytes_eqb_eq. done. Qed.

Lemma of_key_perm k h1 h2 : h1 ≡ₚ h2 -> of_key k h1 ≡ₚ of_key k h2.
Proof.
  induction 1 as [|x l1 l2 _ IH|x y l|l1 l2 l3 _ IH1 _ IH2]; cbn; [done|by case_match; rewrite IH| |by etrans].
  repeat case_match; try done. constructor.
Qed.

Lemma of_key_sorted k h (R : relation Operation) : StronglySorted R h -> StronglySorted R (of_key k h).
Proof.
  induction 1 as [|x l Hs IH Hf]; cbn; [constructor|]. case_match; [|done]. constructor; [done|].
  apply Forall_forall. intros y Hy. apply of_key_elem in Hy as [Hy _]. by eapply Forall_forall in Hf.
Qed.

(** The partition gives each key its operations, in order. *)
Lemma partition_fold h :
  let '(byKey, keys) := foldl partition_step (∅, []) h in
  NoDup keys /\ (forall k, k ∈ keys <-> is_Some (byKey !! k)) /\ forall k, default [] (byKey !! k) = of_key k h.
Proof.
  induction h as [|op h IH] using rev_ind; [cbn; split; [constructor|]; split; [|done]; intros k; rewrite lookup_empty; split; [by intros ?%elem_of_nil|by intros [? ?]]|].
  rewrite foldl_app. destruct (foldl partition_step _ h) as [byKey keys]. destruct IH as (ND & Hk & Hf). cbn.
  split; [|split].
  - destruct (byKey !! h_key op) eqn:E; [done|]. apply NoDup_app. split; [done|]. split; [|apply NoDup_singleton].
    intros k Hin ->%list_elem_of_singleton. apply Hk in Hin. rewrite E in Hin. by destruct Hin.
  - intros k. rewrite lookup_insert_is_Some. destruct (byKey !! h_key op) eqn:E.
    + rewrite Hk. split; [destruct (decide (h_key op = k)); auto|]. intros [<-|[_ ?]]; [by rewrite E|done].
    + rewrite elem_of_app, list_elem_of_singleton, Hk. split; [intros [?| ->]; [|by left]|intros [<-|[_ ?]]; auto].
      destruct (decide (h_key op = k)); auto.
  - intros k. rewrite of_key_app, <-(Hf k). unfold of_key. cbn. destruct (bytes_eqb_spec (h_key op) k) as [<-|Hne].
    + by rewrite lookup_insert_eq.
    + rewrite lookup_insert_ne by done. by rewrite app_nil_r.
Qed.

Lemma partition_spec h :
  exists keys, kvPartition h = (fun k => of_key k h) <$> keys /\ NoDup keys /\ forall o, o ∈ h -> h_key o ∈ keys.
Proof.
  unfold kvPartition. pose proof (partition_fold h) as P. destruct (foldl partition_step _ h) as [byKey keys].
  destruct P as (ND & Hk & Hf). exists keys. split; [by apply list_fmap_ext; intros ? k _; cbn; rewrite Hf|]. split; [done|].
  intros o Ho. apply Hk. specialize (Hf (h_key o)). destruct (byKey !! h_key o); [eauto|]. cbn in Hf.
  assert (Hin : o ∈ of_key (h_key o) h) by (by apply of_key_elem). rewrite <-Hf in Hin. by apply elem_of_nil in Hin.
Qed.

(** A sequence is legal for the store exactly when it is for every key. *)
Lemma store_legal_keys m l :
  store_legal m l <-> forall k, kv_legal (default kvInit (m !! k)) (of_key k l).
Proof.
  revert m. induction l as [|o l IH]; intros m; [done|]. cbn [store_legal of_key List.filter]. rewrite IH. split.
  - intros [Ho Hl] k. specialize (Hl k). fold (of_key k l). destruct (bytes_eqb_spec (h_key o) k) as [<-|Hne].
    + rewrite lookup_insert_eq in Hl. by split.
    + rewrite lookup_insert_ne in Hl by done. done.
  - intros Hl. split; [specialize (Hl (h_key o)); rewrite bytes_eqb_refl in Hl; by destruct Hl|].
    intros k. specialize (Hl k). fold (of_key k l) in Hl. destruct (bytes_eqb_spec (h_key o) k) as [Ek|Hne].
    + subst k. rewrite lookup_insert_eq. by destruct Hl.
    + rewrite lookup_insert_ne by done. done.
Qed.

(** ** Merging the keys *)

(** An operation with the instant at which it takes effect. *)
Definition at_le (x y : Z * Operation) : Prop := x.1 <= y.1.

#[local] Instance at_le_dec : RelDecision at_le.
Proof. intros x y. unfold at_le. apply _. Defined.
#[local] Instance at_le_total : Total at_le.
Proof. intros x y. unfold at_le. lia. Qed.
#[local] Instance at_le_trans : Transitive at_le.
Proof. intros x y z. unfold at_le. lia. Qed.

Definition timed_of_key (k : bytes) (l : list (Z * Operation)) : list (Z * Operation) :=
  List.filter (fun x => bytes_eqb (h_key x.2) k) l.

Lemma timed_of_key_cons k x l :
  timed_of_key k (x :: l) = if bytes_eqb (h_key x.2) k then x :: timed_of_key k l else timed_of_key k l.
Proof. done. Qed.

Lemma timed_of_key_ops k l : (timed_of_key k l).*2 = of_key k l.*2.
Proof. induction l as [|x l IH]; [done|]. rewrite timed_of_key_cons, fmap_cons, of_key_cons, <-IH. by case_match. Qed.

Lemma timed_of_key_all k l : Forall (fun x => h_key x.2 = k) l -> timed_of_key k l = l.
Proof. induction 1 as [|x l <- Hl IH]; [done|]. by rewrite timed_of_key_cons, bytes_eqb_refl, IH. Qed.

Lemma timed_of_key_none k l : Forall (fun x => h_key x.2 <> k) l -> timed_of_key k l = [].
Proof. induction 1 as [|x l Hx Hl IH]; [done|]. by rewrite timed_of_key_cons, bytes_eqb_ne. Qed.

(** Merging changes neither list's own order. *)
Lemma merge_of_key_l k l1 l2 :
  Forall (fun x => h_key x.2 <> k) l2 -> timed_of_key k (list_merge at_le l1 l2) = timed_of_key k l1.
Proof.
  revert l2. induction l1 as [|x1 l1 IH1]; intros l2 H2; [by rewrite list_merge_nil_l, timed_of_key_none|].
  induction H2 as [|x2 l2 Hx H2 IH2]; [done|]. rewrite list_merge_cons. case_decide.
  - rewrite !timed_of_key_cons, IH1; [done|by constructor].
  - rewrite timed_of_key_cons, (bytes_eqb_ne _ _ Hx). exact IH2.
Qed.

Lemma merge_of_key_r k l1 l2 :
  Forall (fun x => h_key x.2 <> k) l1 -> timed_of_key k (list_merge at_le l1 l2) = timed_of_key k l2.
Proof.
  intros H1. revert l2. induction H1 as [|x1 l1 Hx H1 IH1]; intros l2; [by rewrite list_merge_nil_l|].
  induction l2 as [|x2 l2 IH2]; [by rewrite list_merge_nil_r, timed_of_key_none by (by constructor)|].
  rewrite list_merge_cons. case_decide.
  - rewrite timed_of_key_cons, (bytes_eqb_ne _ _ Hx). apply IH1.
  - by rewrite !timed_of_key_cons, IH2.
Qed.

(** The instants of a sequence: each operation takes effect when the last of
    those up to it has been called. *)
Fixpoint instants (now : Z) (l : list Operation) : list (Z * Operation) :=
  match l with
  | [] => []
  | o :: l' => let t := Z.max now (h_call o) in (t, o) :: instants t l'
  end.

Lemma instants_ops now l : (instants now l).*2 = l.
Proof. revert now. induction l as [|o l IH]; intros now; [done|]. cbn. by rewrite IH. Qed.

Lemma instants_from now l : Forall (fun x => now <= x.1) (instants now l).
Proof.
  revert now. induction l as [|o l IH]; intros now; [constructor|]. cbn. constructor; [cbn; lia|].
  eapply Forall_impl; [apply IH|]. cbn. intros x ?. lia.
Qed.

Lemma instants_sorted now l : StronglySorted at_le (instants now l).
Proof.
  revert now. induction l as [|o l IH]; intros now; [constructor|]. cbn. constructor; [done|].
  eapply Forall_impl; [apply instants_from|]. done.
Qed.

Lemma instants_inside now l :
  StronglySorted in_order l -> times_ok l -> Forall (fun o => now <= h_return o) l ->
  Forall (fun x => h_call x.2 <= x.1 <= h_return x.2) (instants now l).
Proof.
  intros Hs Ht. revert now. induction Hs as [|o l Hs IH Hf]; intros now Hn; [constructor|].
  apply Forall_cons in Ht as [[Ho _] Ht]. apply Forall_cons in Hn as [Hno Hn]. cbn. constructor; [cbn; lia|].
  apply IH; [done|]. rewrite Forall_forall in Hf, Hn |- *. intros x Hx. specialize (Hf x Hx). specialize (Hn x Hx).
  unfold in_order in Hf. lia.
Qed.

Definition key_instants (l : list Operation) : list (Z * Operation) :=
  instants (default 0 (h_call <$> head l)) l.

Lemma key_instants_inside l :
  StronglySorted in_order l -> times_ok l -> Forall (fun x => h_call x.2 <= x.1 <= h_return x.2) (key_instants l).
Proof.
  intros Hs Ht. unfold key_instants. apply instants_inside; [done|done|]. destruct l as [|o l]; [constructor|]. cbn.
  inversion Hs as [|? ? _ Hf]; subst. apply Forall_cons in Ht as [[Ho _] _]. constructor; [done|]. exact Hf.
Qed.

Lemma merge_keys h keys :
  NoDup keys -> times_ok h -> (forall k, k ∈ keys -> linearizable (of_key k h)) ->
  exists L, StronglySorted at_le L /\ Forall (fun x => h_call x.2 <= x.1 <= h_return x.2) L /\
    Forall (fun x => h_key x.2 ∈ keys) L /\
    forall k, k ∈ keys -> of_key k L.*2 ≡ₚ of_key k h /\ kv_legal kvInit (of_key k L.*2).
Proof.
  intros ND Ht Hk. induction ND as [|k keys Hn ND IH].
  { exists []. split; [constructor|]. split; [constructor|]. split; [constructor|]. intros k Hin. by apply elem_of_nil in Hin. }
  destruct IH as (L & Hs & Hi & Hks & HL); [intros k' Hin; apply Hk; by right|].
  destruct (Hk k) as (l & Hp & Ho & Hl); [by left|].
  assert (Htl : times_ok l) by (unfold times_ok; rewrite Hp; apply Forall_forall; intros o [Hin _]%of_key_elem; by eapply Forall_forall in Ht).
  set (K := key_instants l).
  assert (HK : Forall (fun x => h_key x.2 = k) K).
  { apply Forall_forall. intros x Hx. assert (Hx2 : x.2 ∈ K.*2) by (by apply list_elem_of_fmap_2). unfold K, key_instants in Hx2.
    rewrite instants_ops, Hp in Hx2. by apply of_key_elem in Hx2 as [_ ?]. }
  assert (HLk : Forall (fun x => h_key x.2 <> k) L) by (eapply Forall_impl; [exact Hks|]; cbn; intros x Hx E; by rewrite E in Hx).
  assert (Htk : of_key k (list_merge at_le K L).*2 = l).
  { rewrite <-timed_of_key_ops, merge_of_key_l by done. rewrite timed_of_key_all by done. apply instants_ops. }
  exists (list_merge at_le K L). split; [|split; [|split]].
  - apply Sorted_StronglySorted; [apply _|]. apply Sorted_list_merge; [apply _|apply StronglySorted_Sorted..]; [apply instants_sorted|done].
  - rewrite merge_Permutation. apply Forall_app. split; [by apply key_instants_inside|done].
  - rewrite merge_Permutation. apply Forall_app. split; [eapply Forall_impl; [exact HK|]; cbn; intros x ->; by left|].
    eapply Forall_impl; [exact Hks|]. cbn. intros x Hx. by right.
  - intros k' [->|Hin]%elem_of_cons; [by rewrite Htk|].
    rewrite <-timed_of_key_ops, merge_of_key_r, timed_of_key_ops; [by apply HL|].
    eapply Forall_impl; [exact HK|]. cbn. intros x Hx E. congruence.
Qed.

Lemma keys_perm (h1 h2 : list Operation) : (forall k, of_key k h1 ≡ₚ of_key k h2) -> h1 ≡ₚ h2.
Proof.
  revert h2. induction h1 as [|o h1 IH]; intros h2 E.
  - destruct h2 as [|o h2]; [done|]. specialize (E (h_key o)). rewrite of_key_cons, bytes_eqb_refl in E.
    by apply Permutation_nil_cons in E.
  - assert (Hin : o ∈ h2).
    { assert (Ho : o ∈ of_key (h_key o) h2) by (rewrite <-(E (h_key o)), of_key_cons, bytes_eqb_refl; by left).
      by apply of_key_elem in Ho as [? _]. }
    apply list_elem_of_split in Hin as (a & b & ->). rewrite <-Permutation_middle. constructor. apply IH. intros k.
    specialize (E k). rewrite (of_key_perm k _ _ (symmetry (Permutation_middle a b o))), !of_key_cons in E.
    case_match; [|done]. by apply Permutation_cons_inv in E.
Qed.

Lemma at_in_order L :
  StronglySorted at_le L -> Forall (fun x => h_call x.2 <= x.1 <= h_return x.2) L -> StronglySorted in_order L.*2.
Proof.
  induction 1 as [|x L Hs IH Hf]; intros Hi; [constructor|]. apply Forall_cons in Hi as [Hx Hi]. cbn.
  constructor; [by apply IH|]. apply Forall_fmap. rewrite Forall_forall in Hf, Hi |- *. intros y Hy.
  specialize (Hf y Hy). specialize (Hi y Hy). unfold in_order, at_le in *. cbn in *. lia.
Qed.

Lemma partition_local h :
  times_ok h -> store_linearizable h <-> Forall linearizable (kvPartition h).
Proof.
  intros Ht. destruct (partition_spec h) as (keys & -> & ND & Hkeys). rewrite Forall_fmap, Forall_forall. split.
  - intros (l & Hp & Hs & Hl) k Hk. exists (of_key k l). split; [by apply of_key_perm|]. split; [by apply of_key_sorted|].
    apply store_legal_keys with (k := k) in Hl. by rewrite lookup_empty in Hl.
  - intros Hk. destruct (merge_keys h keys ND Ht Hk) as (L & Hs & Hi & Hks & HL).
    assert (Hother : forall k, k ∉ keys -> of_key k L.*2 = []).
    { intros k Hn. rewrite <-timed_of_key_ops, timed_of_key_none; [done|].
      eapply Forall_impl; [exact Hks|]. cbn. intros x Hx E. by rewrite E in Hx. }
    exists L.*2. split; [|split].
    + apply keys_perm. intros k. destruct (decide (k ∈ keys)) as [Hin|Hn]; [by apply HL|]. rewrite Hother by done.
      destruct (of_key k h) as [|o r] eqn:E; [done|]. exfalso. apply Hn.
      assert (Ho : o ∈ of_key k h) by (rewrite E; by left). apply of_key_elem in Ho as [Ho <-]. by apply Hkeys.
    + by apply at_in_order.
    + apply store_legal_keys. intros k. rewrite lookup_empty. cbn.
      destruct (decide (k ∈ keys)) as [Hin|Hn]; [by apply HL|]. by rewrite Hother.
Qed.

(** Checking key by key loses nothing: a recorded history of the whole
    store is linearizable exactly when each part [Partition] splits it into is a
    linearizable history of one register. *)
Theorem chaos_partition_local h :
  times_ok h -> store_linearizable h <-> Forall linearizable (kvPartition h).
Proof. apply partition_local. Qed.

(** ** What an anomaly shows *)

Definition kv_after (st : kvState) (l : list Operation) : kvState :=
  foldl (fun st o => (kvStep st (h_input o) (h_output o)).2) st l.

Lemma kv_legal_app st l1 l2 : kv_legal st (l1 ++ l2) <-> kv_legal st l1 /\ kv_legal (kv_after st l1) l2.
Proof. revert st. induction l1 as [|o l1 IH]; intros st; cbn; [naive_solver|]. rewrite IH. naive_solver. Qed.

(** A register that holds a value holds that of the last write. *)
Lemma kv_after_found l :
  kv_found (kv_after kvInit l) = true ->
  exists a w b, l = a ++ w :: b /\ h_op w = opPut /\ in_value (h_input w) = kv_value (kv_after kvInit l) /\
    Forall (fun o => h_op o = opGet) b.
Proof.
  induction l as [|o l IH] using rev_ind; [done|]. unfold kv_after. rewrite foldl_app. fold (kv_after kvInit l). cbn.
  unfold kvStep, h_op. destruct (in_op (h_input o)) eqn:Eo; cbn; [|intros _; by exists l, o, []|done].
  intros (a & w & b & -> & Hw & Hv & Hb)%IH. exists a, w, (b ++ [o]). rewrite <-app_assoc. split; [done|].
  split; [done|]. split; [done|]. apply Forall_app. split; [done|]. by constructor.
Qed.

Lemma legal_read a r b :
  kv_legal kvInit (a ++ r :: b) -> h_op r = opGet -> out_found (h_output r) = true ->
  exists a1 w a2, a = a1 ++ w :: a2 /\ h_op w = opPut /\ in_value (h_input w) = out_value (h_output r) /\
    Forall (fun o => h_op o = opGet) a2.
Proof.
  intros [_ [Hr _]]%kv_legal_app Eo Ef. unfold kvStep, h_op in *. rewrite Eo, Ef in Hr. cbn in Hr.
  apply andb_true_iff in Hr as [H1 H2]. apply bytes_eqb_eq in H2. rewrite H2.
  apply kv_after_found. by destruct (kv_found (kv_after kvInit a)).
Qed.

Lemma put_unique h o1 o2 :
  unique_values h -> o1 ∈ h -> o2 ∈ h -> h_op o1 = opPut -> h_op o2 = opPut ->
  in_value (h_input o1) = in_value (h_input o2) -> o1 = o2.
Proof.
  unfold unique_values, put_values. intros ND [i1 H1]%list_elem_of_lookup [i2 H2]%list_elem_of_lookup E1 E2 Ev.
  assert (K : forall i1 i2 o1 o2, (i1 < i2)%nat -> h !! i1 = Some o1 -> h !! i2 = Some o2 -> h_op o1 = opPut -> h_op o2 = opPut ->
    in_value (h_input o1) = in_value (h_input o2) -> False).
  { clear - ND. intros i1 i2 o1 o2 Hlt H1 H2 E1 E2 Ev. apply list_elem_of_split_length in H1 as (a & b & -> & ->).
    rewrite lookup_app_r in H2 by lia. replace (i2 - length a)%nat with (S (i2 - length a - 1)) in H2 by lia. cbn in H2.
    apply list_elem_of_lookup_2 in H2. rewrite omap_app in ND. cbn in ND. rewrite bool_decide_eq_true_2 in ND by done.
    apply NoDup_app in ND as (_ & _ & ND). apply NoDup_cons in ND as [Hn _]. apply Hn, list_elem_of_omap. exists o2.
    split; [done|]. rewrite bool_decide_eq_true_2 by done. by rewrite Ev. }
  destruct (Nat.lt_trichotomy i1 i2) as [Hlt|[->|Hlt]].
  - exfalso. by eapply (K i1 i2).
  - congruence.
  - exfalso. by eapply (K i2 i1).
Qed.

(** The writes before a point in a sequence that respects real time. *)
Lemma sorted_split {A} (R : relation A) a x b y :
  StronglySorted R (a ++ x :: b) -> y ∈ a ++ x :: b -> y = x \/ y ∈ a /\ R y x \/ y ∈ b /\ R x y.
Proof.
  intros Hs Hy. apply elem_of_app in Hy as [Hy|[->|Hy]%elem_of_cons]; [|by left|].
  - right; left. split; [done|]. eapply (StronglySorted_app_1_elem_of R); [exact Hs|done|by left].
  - right; right. split; [done|]. apply StronglySorted_app_1_r in Hs. inversion Hs as [|? ? _ Hf]; subst.
    by eapply Forall_forall in Hf.
Qed.

Section one_key.
Variables (h l : list Operation).
Hypotheses (l_sub : forall o, o ∈ l -> o ∈ h) (h_times : times_ok h) (h_unique : unique_values h).
Hypotheses (l_sorted : StronglySorted in_order l) (l_legal : kv_legal kvInit l).

Definition reads_from (r w : Operation) : Prop :=
  h_op r = opGet /\ out_found (h_output r) = true /\ h_op w = opPut /\ in_value (h_input w) = out_value (h_output r).

Lemma times_in o : o ∈ h -> h_call o <= h_return o.
Proof using h_times. intros Ho. by eapply Forall_forall in h_times as [? _]. Qed.

(** The writer of a read comes before it with no write in between. *)
Lemma read_split a r b w :
  l = a ++ r :: b -> w ∈ h -> reads_from r w ->
  exists a1 a2, a = a1 ++ w :: a2 /\ Forall (fun o => h_op o = opGet) a2.
Proof using l_sub h_unique l_legal.
  intros El Hw (R1 & R2 & R3 & R4). pose proof l_legal as Hl. rewrite El in Hl.
  destruct (legal_read a r b Hl R1 R2) as (a1 & w' & a2 & -> & W1 & W2 & Ha2).
  assert (w' = w) as ->; [|by exists a1, a2]. apply (put_unique h); try done; [|congruence].
  apply l_sub. rewrite El. apply elem_of_app. left. apply elem_of_app. right. by left.
Qed.

(** A write that comes after the writer of a read does not come before the
    read. *)
Lemma no_write_between a r b w x :
  l = a ++ r :: b -> w ∈ h -> reads_from r w -> h_op x <> opGet -> h_return w < h_call x -> x ∈ a -> False.
Proof using All.
  intros El Hw Hr Hx Hlt Hin. destruct (read_split a r b w El Hw Hr) as (a1 & a2 & -> & Ha2).
  pose proof l_sorted as Hs. rewrite El in Hs. apply StronglySorted_app_1_l in Hs.
  pose proof (times_in w Hw).
  destruct (sorted_split in_order a1 w a2 x Hs Hin) as [->|[[_ Ho]|[Hin2 _]]]; unfold in_order in *; [lia|lia|].
  rewrite Forall_forall in Ha2. by apply Hx, Ha2.
Qed.

Lemma no_stale_read r w1 w2 :
  r ∈ l -> w1 ∈ h -> reads_from r w1 -> w2 ∈ l -> h_op w2 <> opGet ->
  h_return w1 < h_call w2 -> h_return w2 < h_call r -> False.
Proof using All.
  intros Hr Hw1 Hf Hw2 Hop H12 H2r. apply list_elem_of_split in Hr as (a & b & El). pose proof l_sorted as Hs. rewrite El in Hs, Hw2.
  destruct (sorted_split in_order a r b w2 Hs Hw2) as [->|[[Hin _]|[_ Ho]]].
  - by destruct Hf.
  - by eapply no_write_between.
  - unfold in_order in Ho. lia.
Qed.

Lemma no_inversion r1 r2 w u :
  r1 ∈ l -> r2 ∈ l -> w ∈ h -> u ∈ h -> reads_from r1 w -> reads_from r2 u ->
  h_return r1 < h_call r2 -> h_return u < h_call w -> False.
Proof using All.
  intros H1 H2 Hw Hu F1 F2 H12 Huw. apply list_elem_of_split in H2 as (a & b & El). pose proof l_sorted as Hs. rewrite El in Hs, H1.
  pose proof (times_in r1 (l_sub r1 ltac:(by rewrite El))) as Ht1.
  assert (Hw' : w ∈ a); [|eapply (no_write_between a r2 b u w); try done; by destruct F1 as (_ & _ & -> & _)].
  destruct (sorted_split in_order a r2 b r1 Hs H1) as [->|[[Hin _]|[_ Ho]]]; unfold in_order in *; [lia| |lia].
  apply list_elem_of_split in Hin as (a' & b' & ->).
  destruct (read_split a' r1 (b' ++ r2 :: b) w) as (a1 & a2 & -> & _); [by rewrite El, <-app_assoc|done|done|].
  apply elem_of_app. left. apply elem_of_app. right. by left.
Qed.
End one_key.

(** ** The loops of the checks *)

Lemma stale_collect_spec h :
  let '(writesByKey, writerOf) := foldl stale_collect (∅, ∅) h in
  (forall k w, w ∈ default [] (writesByKey !! k) -> exists o, o ∈ h /\ h_key o = k /\ h_op o <> opGet /\ w = mkWrite (h_call o) (h_return o) o) /\
  (forall v o, writerOf !! v = Some o -> o ∈ h /\ h_op o = opPut /\ in_value (h_input o) = v).
Proof.
  induction h as [|op h IH] using rev_ind.
  { cbn. split; [intros k w; rewrite lookup_empty; by intros ?%elem_of_nil|by intros v o; rewrite lookup_empty]. }
  rewrite foldl_app. destruct (foldl stale_collect _ h) as [wbk wo]. destruct IH as [H1 H2]. cbn.
  assert (W1 : forall k w, w ∈ default [] (wbk !! k) -> exists o, o ∈ h ++ [op] /\ h_key o = k /\ h_op o <> opGet /\ w = mkWrite (h_call o) (h_return o) o).
  { intros k w Hw. destruct (H1 k w Hw) as (o & Ho & ?). exists o. split; [apply elem_of_app; by left|done]. }
  assert (W2 : forall v o, wo !! v = Some o -> o ∈ h ++ [op] /\ h_op o = opPut /\ in_value (h_input o) = v).
  { intros v o Hv. destruct (H2 v o Hv) as (Ho & ?). split; [apply elem_of_app; by left|done]. }
  assert (Hop : op ∈ h ++ [op]) by (apply elem_of_app; right; by left).
  case_bool_decide as Eg; cbn; [done|]. destruct (h_return op =? kMaxInt64); [done|]. split.
  - intros k w. destruct (decide (h_key op = k)) as [<-|Hne]; [|rewrite lookup_insert_ne by done; apply W1].
    rewrite lookup_insert_eq. cbn. intros [Hw| ->%list_elem_of_singleton]%elem_of_app; [by apply W1|eauto].
  - case_bool_decide as Ep; [|done]. intros v o. rewrite lookup_insert_Some. intros [[<- <-]|[_ Hv]]; [done|by apply W2].
Qed.

Lemma writers_spec h v o : writers h !! v = Some o -> o ∈ h /\ h_op o = opPut /\ in_value (h_input o) = v.
Proof.
  unfold writers. induction h as [|op h IH] using rev_ind; [cbn; by rewrite lookup_empty|]. rewrite foldl_app. cbn.
  case_bool_decide as Ep; [rewrite lookup_insert_Some; intros [[<- <-]|[_ Hv]]|intros Hv]; rewrite elem_of_app.
  - split; [right; by left|done].
  - destruct (IH Hv) as [? ?]. split; [by left|done].
  - destruct (IH Hv) as [? ?]. split; [by left|done].
Qed.

Lemma reads_collect_spec writerOf h k r :
  r ∈ default [] (foldl (reads_collect writerOf) ∅ h !! k) ->
  r_op r ∈ h /\ h_key (r_op r) = k /\ h_op (r_op r) = opGet /\ out_found (h_output (r_op r)) = true /\
  writerOf !! out_value (h_output (r_op r)) = Some (r_writer r).
Proof.
  induction h as [|op h IH] using rev_ind; [cbn; rewrite lookup_empty; by intros ?%elem_of_nil|].
  rewrite foldl_app. cbn. set (m := foldl _ _ h) in *. unfold reads_collect. rewrite elem_of_app.
  destruct (negb _) eqn:En; [intros Hr; destruct (IH Hr) as [? ?]; split; [by left|done]|].
  apply negb_false_iff, andb_true_iff in En as [Eg Ef]. apply bool_decide_eq_true_1 in Eg.
  destruct (writerOf !! out_value (h_output op)) as [w|] eqn:Ew; [|intros Hr; destruct (IH Hr) as [? ?]; split; [by left|done]].
  destruct (decide (h_key op = k)) as [<-|Hne].
  - rewrite lookup_insert_eq. cbn. intros [Hr| ->%list_elem_of_singleton]%elem_of_app.
    + destruct (IH Hr) as [? ?]. split; [by left|done].
    + split; [right; by left|done].
  - rewrite lookup_insert_ne by done. intros Hr. destruct (IH Hr) as [? ?]. split; [by left|done].
Qed.

Lemma suffix_min_below ws i m c :
  suffix_min ws !! i = Some m -> m < c -> c <= kMaxInt64 -> exists w, w ∈ drop i ws /\ w_ret w < c.
Proof.
  revert i m. induction ws as [|w ws IH]; intros i m.
  - destruct i; cbn; [intros [= <-]; lia|done].
  - destruct i as [|i]; cbn; [|apply IH]. intros [= <-] Hlt Hc.
    destruct (Z.lt_ge_cases (w_ret w) c) as [Hw|Hw]; [exists w; split; [by left|done]|].
    fold (suffix_min ws) in Hlt. destruct (suffix_min ws) as [|m' r] eqn:E; [by destruct ws|]. cbn in Hlt.
    destruct (IH 0%nat m') as (w' & Hin & Hr); [done|lia|done|]. exists w'. split; [right; by rewrite drop_0 in Hin|done].
Qed.

Lemma sort_search_after {A} (num : A -> Z) b ws x :
  StronglySorted (fun x y => num x <= num y) ws -> x ∈ drop (sort_search (fun w => b <? num w) ws) ws -> b < num x.
Proof.
  induction 1 as [|w ws Hs IH Hf]; cbn; [by intros ?%elem_of_nil|]. destruct (b <? num w) eqn:E; [|apply IH].
  apply Z.ltb_lt in E. intros [->|Hx]%elem_of_cons; [done|]. eapply Forall_forall in Hf; [|exact Hx]. lia.
Qed.

Section sound.
Context `{SortSlice}.

Lemma inversion_pairs_elem reads r1 r2 :
  (r1, r2) ∈ inversion_pairs reads -> r1 ∈ reads /\ r2 ∈ reads /\ inverted r1 r2 = true.
Proof.
  induction reads as [|r reads IH]; cbn; [by intros ?%elem_of_nil|]. rewrite !elem_of_cons. intros [Hin|Hin]%elem_of_app.
  - apply list_elem_of_fmap in Hin as (r' & [= <- <-] & Hin). apply list_elem_of_In, List.filter_In in Hin as [Hin Hi].
    apply list_elem_of_In in Hin. auto.
  - destruct (IH Hin) as (? & ? & ?). auto.
Qed.

Lemma suffix_min_length ws : length (suffix_min ws) = S (length ws).
Proof. unfold suffix_min. induction ws as [|w ws IH]; [done|]. cbn. by rewrite IH. Qed.

Lemma stale_read_spec wbk wo r x :
  stale_read (make_index <$> wbk) wo r = Some x -> h_call r <= kMaxInt64 ->
  exists w1 w2, h_op r = opGet /\ out_found (h_output r) = true /\ wo !! out_value (h_output r) = Some w1 /\
    w2 ∈ default [] (wbk !! h_key r) /\ h_return w1 < w_call w2 /\ w_ret w2 < h_call r.
Proof.
  unfold stale_read. intros Es Hc. destruct (negb _) eqn:En; [done|].
  apply negb_false_iff, andb_true_iff in En as [Eg Ef]. apply bool_decide_eq_true_1 in Eg.
  destruct (wo !! _) as [w1|] eqn:Ew; [|done]. cbn [mbind option_bind] in Es. rewrite lookup_fmap in Es.
  destruct (wbk !! h_key r) as [ws|] eqn:Ek; [|done]. unfold make_index in Es.
  cbn [fmap option_fmap option_map from_option id ix_writes ix_minRet] in Es.
  set (sorted := sort_slice w_call ws) in Es. set (i := sort_search _ sorted) in Es.
  destruct (andb _ _) eqn:Eb in Es; [|done]. apply andb_true_iff in Eb as [Ei Em]. apply Nat.ltb_lt in Ei. apply Z.ltb_lt in Em.
  destruct (suffix_min sorted !! i) as [m|] eqn:Emi; cbn in Em.
  2: { apply lookup_ge_None in Emi. rewrite suffix_min_length in Emi. lia. }
  destruct (suffix_min_below sorted i m (h_call r) Emi Em Hc) as (w2 & Hin & Hret).
  pose proof (sort_search_after w_call _ sorted w2 (sort_slice_sorted _ _ _) Hin) as Hcall.
  exists w1, w2. split_and!; try done. cbn. rewrite <-(sort_slice_perm _ w_call ws).
  apply list_elem_of_lookup in Hin as [j Hj]. rewrite lookup_drop in Hj. by eapply list_elem_of_lookup_2.
Qed.

Lemma anomalies_sound hist :
  times_ok hist -> unique_values hist -> Forall linearizable (kvPartition hist) ->
  staleReads hist = (0%nat, []) /\ inversions hist = (0%nat, []).
Proof.
  intros Ht Hu Hlin. destruct (partition_spec hist) as (keys & Ep & _ & Hkeys). rewrite Ep, Forall_fmap, Forall_forall in Hlin.
  assert (HL : forall o, o ∈ hist -> exists l, l ≡ₚ of_key (h_key o) hist /\ StronglySorted in_order l /\ kv_legal kvInit l)
    by (intros o Ho; by apply Hlin, Hkeys).
  assert (Sub : forall k l, l ≡ₚ of_key k hist -> forall o, o ∈ l -> o ∈ hist)
    by (intros k l Hp o Ho; rewrite Hp in Ho; by apply of_key_elem in Ho as [? _]).
  split.
  - unfold staleReads. pose proof (stale_collect_spec hist) as C. destruct (foldl stale_collect _ hist) as [wbk wo].
    destruct C as [C1 C2]. assert (E : omap (stale_read (make_index <$> wbk) wo) hist = []); [|by rewrite E].
    apply elem_of_nil_inv. intros x Hx. apply list_elem_of_omap in Hx as (r & Hr & Es).
    destruct (stale_read_spec wbk wo r x Es) as (w1 & w2 & Eg & Ef & Ew & Hw2 & Hcall & Hret);
      [by eapply Forall_forall in Ht as [_ ?]|].
    destruct (C2 _ _ Ew) as (Hw1 & Hp1 & Hv1). destruct (C1 _ _ Hw2) as (o & Ho & Hk & Hop & ->). cbn in Hret, Hcall.
    destruct (HL r Hr) as (l & Hp & Hs & Hl).
    apply (no_stale_read hist l (Sub _ l Hp) Ht Hu Hs Hl r w1 o); try done.
    + rewrite Hp. by apply of_key_elem.
    + rewrite Hp. by apply of_key_elem.
  - unfold inversions. set (found := concat _). assert (E : found = []); [|by rewrite E]. apply elem_of_nil_inv.
    intros [r1 r2] Hin. apply elem_of_concat in Hin as (ps & Hin & Hps). apply list_elem_of_fmap in Hps as ([k rs] & -> & Hrs).
    apply elem_of_map_to_list in Hrs. apply inversion_pairs_elem in Hin as (H1 & H2 & Hi). cbn in H1, H2.
    rewrite (sort_slice_perm _ _ rs) in H1, H2.
    assert (R : forall r, r ∈ rs -> r_op r ∈ hist /\ h_key (r_op r) = k /\ r_writer r ∈ hist /\ reads_from (r_op r) (r_writer r)).
    { intros r Hr. destruct (reads_collect_spec (writers hist) hist k r) as (Hh & Hk & Hg & Hf & Hw); [by rewrite Hrs|].
      apply writers_spec in Hw as (? & ? & ?). split; [done|]. split; [done|]. split; [done|]. by split. }
    destruct (R r1 H1) as (A1 & K1 & B1 & F1). destruct (R r2 H2) as (A2 & K2 & B2 & F2).
    destruct (HL (r_op r1) A1) as (l & Hp & Hs & Hl). rewrite K1 in Hp.
    unfold inverted in Hi. apply negb_true_iff, orb_false_iff in Hi as [I1 I2]. apply Z.leb_gt in I1, I2.
    apply (no_inversion hist l (Sub _ l Hp) Ht Hu Hs Hl (r_op r1) (r_op r2) (r_writer r1) (r_writer r2)); try done.
    + rewrite Hp. by apply of_key_elem.
    + rewrite Hp. by apply of_key_elem.
Qed.

(** The anomalies the test reports are real: in a history recorded with
    sane times and unique values, if some order of the operations explains what
    the clients saw on every key, no read is counted stale and no pair of reads
    is counted as an inversion. *)
Theorem chaos_anomalies_sound hist :
  times_ok hist -> unique_values hist -> Forall linearizable (kvPartition hist) ->
  staleReads hist = (0%nat, []) /\ inversions hist = (0%nat, []).
Proof. apply anomalies_sound. Qed.
End sound.

(** ** Examples *)

#[local] Instance num_le_dec {A} (num : A -> Z) : RelDecision (fun x y : A => num x <= num y).
Proof. intros x y. apply _. Defined.

Definition merge_sort_slice : SortSlice.
Proof.
  refine {| sort_slice A num l := merge_sort (fun x y => num x <= num y) l |}.
  - intros A num l. apply merge_sort_Permutation.
  - intros A num l. apply StronglySorted_merge_sort; intros ?; intros; cbn in *; lia.
Defined.

(** Two clients on two keys: a write that overlaps the read that sees it, a
    delete whose outcome is unknown, and a read that misses it. *)
Definition sample_history : list Operation :=
  [mkOperation 0 (mkInput opPut (lit "k0") (lit "c0-0")) 0 (mkOutput false []) 30;
   mkOperation 1 (mkInput opGet (lit "k0") []) 10 (mkOutput true (lit "c0-0")) 20;
   mkOperation 1 (mkInput opDel (lit "k1") []) 25 (mkOutput false []) kMaxInt64;
   mkOperation 0 (mkInput opPut (lit "k1") (lit "c0-1")) 35 (mkOutput false []) 40;
   mkOperation 1 (mkInput opGet (lit "k1") []) 45 (mkOutput true (lit "c0-1")) 50].

Lemma sample_history_ok : times_ok sample_history /\ unique_values sample_history.
Proof. split; [repeat constructor; cbn; unfold kMaxInt64; lia|by_eval]. Qed.

(** The delete may come last, or before the write. *)
Lemma sample_history_parts : Forall linearizable (kvPartition sample_history).
Proof.
  assert (E : exists a b c d e, sample_history = [a; b; c; d; e] /\ kvPartition sample_history = [[a; b]; [c; d; e]] /\
    StronglySorted in_order [a; b] /\ kv_legal kvInit [a; b] /\ StronglySorted in_order [c; d; e] /\ kv_legal kvInit [c; d; e]).
  { eexists _, _, _, _, _. split; [reflexivity|]. split; [vm_compute; reflexivity|].
    unfold in_order. split; [repeat constructor; cbn; lia|]. split; [by split|].
    split; [repeat constructor; cbn; unfold kMaxInt64; lia|]. by split. }
  destruct E as (a & b & c & d & e & _ & -> & S1 & L1 & S2 & L2). repeat constructor; [by exists [a; b]|by exists [c; d; e]].
Qed.

Lemma chaos_partition_local_witness : times_ok sample_history /\ store_linearizable sample_history.
Proof.
  destruct sample_history_ok as [Ht _]. split; [exact Ht|].
  apply (chaos_partition_local sample_history Ht). exact sample_history_parts.
Defined.

(** The same history with the last read returning the value of an overwritten
    write is reported. *)
Definition stale_history : list Operation :=
  [mkOperation 0 (mkInput opPut (lit "k") (lit "c0-0")) 0 (mkOutput false []) 10;
   mkOperation 0 (mkInput opPut (lit "k") (lit "c0-1")) 20 (mkOutput false []) 30;
   mkOperation 1 (mkInput opGet (lit "k") []) 32 (mkOutput true (lit "c0-1")) 35;
   mkOperation 1 (mkInput opGet (lit "k") []) 40 (mkOutput true (lit "c0-0")) 50].

Lemma chaos_anomalies_sound_witness :
  staleReads (H := merge_sort_slice) sample_history = (0%nat, []) /\
  inversions (H := merge_sort_slice) sample_history = (0%nat, []) /\
  (staleReads (H := merge_sort_slice) stale_history).1 = 1%nat /\
  (inversions (H := merge_sort_slice) stale_history).1 = 1%nat.
Proof.
  destruct sample_history_ok as [Ht Hu].
  destruct (chaos_anomalies_sound (H := merge_sort_slice) sample_history Ht Hu sample_history_parts) as [E1 E2].
  split; [exact E1|]. split; [exact E2|]. split; vm_compute; reflexivity.
Defined.
