(* ===== verification/ChaosClient.v ===== *)
(** * The chaos test's client

    Models chaos/resp.go: how the Go client of the chaos test encodes a command
    and reads a reply.  [readReply] works on the bytes received so far; [GoWait]
    is a read that blocks for more of them, which the deadline of the connection
    turns into an error.  The theorem runs a command all the way: the bytes the
    client sends, the server's parser and handler, the bytes of the reply and
    what the client makes of it. *)

From S2P Require Import Prelude Numerals CacheEntry VersionedStore ShardedCache Membership Resp Parser ReplicaWire Cluster ClusterLemmas ClusterProps Metrics CommandHandler HandlerProps Chaos.

Local Open Scope Z_scope.

(** ** The client *)

Record Reply := mkReply { rp_kind : ascii; rp_str : bytes; rp_int : Z; rp_nil : bool }.

Inductive GoRead :=
  | GoWait
  | GoReply (r : Reply) (rest : bytes)
  | GoServerError (msg rest : bytes)
  | GoError.

(** The request [Do] writes. *)
Definition go_command (args : list bytes) : bytes :=
  foldl (fun buf a => buf ++ lit "$" ++ to_dec (Z.of_nat (length a)) ++ CRLF ++ a ++ CRLF)
    (lit "*" ++ to_dec (Z.of_nat (length args)) ++ CRLF) args.

(** [ReadString('\n')]: up to and with the first line feed. *)
Fixpoint go_read_string (buf : bytes) : option (bytes * bytes) :=
  match buf with
  | [] => None
  | c :: buf' =>
      if Ascii.eqb c LF then Some ([c], buf')
      else '(line, rest) ← go_read_string buf'; Some (c :: line, rest)
  end.

(** [readLine]; [Some None] is a malformed line. *)
Definition readLine (buf : bytes) : option (option bytes * bytes) :=
  '(line, rest) ← go_read_string buf;
  let n := length line in
  Some (if (n <? 2)%nat || negb (bool_decide (line !! (n - 2)%nat = Some CR)) then (None, rest)
        else (Some (take (n - 2) line), rest)).

(** [strconv.ParseInt(s, 10, 64)] and [strconv.Atoi]. *)
Definition go_parse_int (s : bytes) : option Z :=
  match s with
  | [] => None
  | c :: s' =>
      if Ascii.eqb c "+" then if all_digits s' && (dec_value s' <? 2 ^ 63) then Some (dec_value s') else None
      else parse_int s
  end.

Definition readReply (buf : bytes) : GoRead :=
  match readLine buf with
  | None => GoWait
  | Some (None, _) => GoError
  | Some (Some [], _) => GoError
  | Some (Some (c :: line), rest) =>
      if Ascii.eqb c "+" then GoReply (mkReply c line 0 false) rest
      else if Ascii.eqb c "-" then GoServerError line rest
      else if Ascii.eqb c ":" then
        match go_parse_int line with
        | Some n => GoReply (mkReply c [] n false) rest
        | None => GoError
        end
      else if Ascii.eqb c "$" then
        match go_parse_int line with
        | None => GoError
        | Some n =>
            if n <? 0 then GoReply (mkReply c [] 0 true) rest
            else if Z.of_nat (length rest) <? n + 2 then GoWait
            else GoReply (mkReply c (take (Z.to_nat n) rest) 0 false) (drop (Z.to_nat n + 2) rest)
        end
      else GoError
  end.

(** What [runClient] uses of the result of [Do], once the reply is there. *)
Definition do_result (r : GoRead) : DoResult :=
  match r with
  | GoReply r _ => DoReply (if rp_nil r then None else Some (rp_str r))
  | _ => DoError
  end.

(** The command [runClient] sends for an operation. *)
Definition op_args (input : kvInput) : list bytes :=
  match in_op input with
  | opGet => [lit "GET"; in_key input]
  | opPut => [lit "SET"; in_key input; in_value input]
  | opDel => [lit "DEL"; in_key input]
  end.

(** ** Reading replies *)

Lemma go_command_resp args : go_command args = resp_command args.
Proof. done. Qed.

(** A line feed ends a line, wherever it is. *)
Definition no_lf (s : bytes) : Prop := LF ∉ s.

Lemma go_read_string_line s rest : no_lf s -> go_read_string (s ++ CRLF ++ rest) = Some (s ++ CRLF, rest).
Proof.
  unfold no_lf. induction s as [|c s IH]; intros H; [done|]. rewrite not_elem_of_cons in H. destruct H as [Hc Hs]. cbn [app go_read_string].
  destruct (Ascii.eqb_spec c LF) as [->|_]; [done|]. by rewrite IH.
Qed.

Lemma readLine_line s rest : no_lf s -> readLine (s ++ CRLF ++ rest) = Some (Some s, rest).
Proof.
  intros H. unfold readLine. rewrite go_read_string_line by done. cbn [mbind option_bind].
  rewrite length_app. change (length CRLF) with 2%nat. replace (length s + 2 - 2)%nat with (length s) by lia.
  assert (El : (s ++ CRLF) !! length s = Some CR) by (by apply list_lookup_middle). rewrite El, bool_decide_eq_true_2 by done. cbn [negb].
  destruct (Nat.ltb_spec (length s + 2) 2) as [?|_]; [lia|]. cbn [orb]. by rewrite take_app_length.
Qed.

Lemma to_dec_no_lf n : no_lf (to_dec n).
Proof.
  intros Hin. pose proof (to_dec_chars n) as H. rewrite forallb_forall in H. apply list_elem_of_In in Hin.
  specialize (H _ Hin). vm_compute in H. discriminate H.
Qed.

Lemma go_parse_to_dec n : - 2 ^ 63 <= n < 2 ^ 63 -> go_parse_int (to_dec n) = Some n.
Proof.
  intros H. pose proof (parse_int_to_dec n H) as E. pose proof (to_dec_chars n) as Hc. unfold go_parse_int.
  destruct (to_dec n) as [|c s]; [done|]. destruct (Ascii.eqb_spec c "+") as [->|_]; [|done].
  cbn in Hc. discriminate Hc.
Qed.

(** What the client reads of a reply. *)
Definition go_read (v : RespValue) (rest : bytes) : GoRead :=
  match v with
  | SimpleString s => GoReply (mkReply "+" s 0 false) rest
  | RespError s => GoServerError s rest
  | RespInteger n => GoReply (mkReply ":" [] n false) rest
  | BulkString s => GoReply (mkReply "$" s 0 false) rest
  | RespNull => GoReply (mkReply "$" [] 0 true) rest
  | RespArray _ => GoError
  end.

(** Replies whose lines hold no line feed, and that fit 64-bit integers. *)
Definition go_readable (v : RespValue) : Prop :=
  match v with
  | SimpleString s | RespError s => no_lf s
  | RespInteger n => - 2 ^ 63 <= n < 2 ^ 63
  | BulkString s => Z.of_nat (length s) < 2 ^ 63
  | RespNull => True
  | RespArray l => False
  end.

Lemma readReply_value v rest : go_readable v -> readReply (append_value [] v ++ rest) = go_read v rest.
Proof.
  assert (L : forall c s rest', no_lf s -> Ascii.eqb c LF = false -> readLine ((c :: s) ++ CRLF ++ rest') = Some (Some (c :: s), rest')).
  { intros c s rest' Hs Hc. apply readLine_line. unfold no_lf. rewrite not_elem_of_cons. split; [|done]. intros <-. by rewrite Ascii.eqb_refl in Hc. }
  unfold readReply. destruct v as [s|s|n|s| |l]; cbn [go_readable append_value]; intros H; [| | | | |done].
  - unfold append_simple. rewrite app_nil_l, <-!app_assoc. change (lit "+" ++ s ++ CRLF ++ rest) with (("+"%char :: s) ++ CRLF ++ rest).
    by rewrite L.
  - unfold append_error. rewrite app_nil_l, <-!app_assoc. change (lit "-" ++ s ++ CRLF ++ rest) with (("-"%char :: s) ++ CRLF ++ rest).
    by rewrite L.
  - unfold append_integer. rewrite app_nil_l, <-!app_assoc.
    change (lit ":" ++ to_dec n ++ CRLF ++ rest) with ((":"%char :: to_dec n) ++ CRLF ++ rest).
    rewrite L by (done || apply to_dec_no_lf). cbn [Ascii.eqb Bool.eqb]. rewrite go_parse_to_dec by done. done.
  - unfold append_bulk. rewrite app_nil_l, <-!app_assoc. set (tail := s ++ CRLF ++ rest).
    change (lit "$" ++ to_dec (Z.of_nat (length s)) ++ CRLF ++ tail) with (("$"%char :: to_dec (Z.of_nat (length s))) ++ CRLF ++ tail).
    rewrite L by (done || apply to_dec_no_lf). cbn [Ascii.eqb Bool.eqb]. rewrite go_parse_to_dec by lia.
    rewrite (proj2 (Z.ltb_ge _ _)) by lia. unfold tail. rewrite !length_app. change (length CRLF) with 2%nat.
    rewrite (proj2 (Z.ltb_ge _ _)) by lia. rewrite Nat2Z.id, take_app_length. cbn [go_read]. do 2 f_equal.
    rewrite <-drop_drop. by rewrite drop_app_length.
  - unfold append_null. rewrite app_nil_l, <-!app_assoc. change (lit "$-1" ++ CRLF ++ rest) with (("$"%char :: lit "-1") ++ CRLF ++ rest).
    rewrite L; [done| |done]. unfold no_lf. by_eval.
Qed.

(** ** A command all the way *)

(** An operation of the cluster as the client of its coordinator sees it. *)
Definition op_outcome (env : DispatchEnv) (input : kvInput) (c : Server) : option (Server * DoResult) :=
  match in_op input with
  | opGet =>
      '(c', r, _) ← Cluster_read (de_read env 0%nat) (in_key input) c;
      Some (c', match read_status r with
                | RSFound => DoReply (Some (vv_value (read_value r)))
                | RSNotFound => DoReply None
                | RSUnavailable => DoError
                end)
  | opPut =>
      '(c', r, _) ← Cluster_put (de_write env 0%nat) (in_key input) (in_value input) None c;
      Some (c', if wr_ok r then DoReply (Some (lit "OK")) else DoError)
  | opDel =>
      '(c', r, _) ← Cluster_del (de_write env 0%nat) (in_key input) c;
      Some (c', if wr_ok r then DoReply (Some []) else DoError)
  end.

Lemma do_result_value v rest :
  go_readable v -> do_result (readReply (append_value [] v ++ rest)) = do_result (go_read v []).
Proof. intros H. rewrite readReply_value by done. by destruct v. Qed.

(** What the chaos test records is what the coordinator did: the server
    parses the bytes the Go client sends for a GET, SET or DEL, and the client
    reads its reply as the value, the absence or the success the coordinator
    found, and as an error exactly when the quorum was not reached. *)
Theorem chaos_client_sees env input c rest rest' :
  bulk_ok (in_key input) -> bulk_ok (in_value input) ->
  (forall c' r w, Cluster_read (de_read env 0%nat) (in_key input) c = Some (c', r, w) ->
     Z.of_nat (length (vv_value (read_value r))) < 2 ^ 63) ->
  parse_request (go_command (op_args input) ++ rest) = POk (op_args input) (length (go_command (op_args input))) /\
  (fun '(c', out) => (c', do_result (readReply (out ++ rest')))) <$> dispatch env (Parser_parse (op_args input)) c [] =
    op_outcome env input c.
Proof.
  intros Hk Hv Hlen. assert (E : forall s, bool_decide (LF ∉ s) = true -> no_lf s) by (intros s; apply bool_decide_eq_true_1).
  split.
  { rewrite go_command_resp. apply parse_command. unfold op_args.
    destruct (in_op input); (split; [vm_compute; discriminate|]); repeat constructor; done || (unfold bulk_ok; vm_compute; discriminate). }
  unfold op_outcome, op_args. destruct (in_op input).
  - change (Parser_parse [lit "GET"; in_key input]) with (mkCommand CGet (in_key input) [] [] None 0 []).
    unfold dispatch. cbn [cmd_type cmd_key]. destruct (Cluster_read _ _ _) as [[[c' r] w]|] eqn:Er; [|done].
    cbn [mbind option_bind fmap option_fmap option_map]. do 2 f_equal. specialize (Hlen c' r w eq_refl). destruct (read_status r).
    + by apply (do_result_value (BulkString (vv_value (read_value r)))).
    + by apply (do_result_value RespNull).
    + apply (do_result_value (RespError kReadUnavailable)), E. vm_compute. reflexivity.
  - change (Parser_parse [lit "SET"; in_key input; in_value input]) with (mkCommand CSet (in_key input) [] (in_value input) None 0 []).
    unfold dispatch. cbn [cmd_type cmd_key cmd_value cmd_ttl_ms]. change (to_ttl None) with (@None Z).
    destruct (Cluster_put _ _ _ _ _) as [[[c' r] w]|]; [|done].
    cbn [mbind option_bind fmap option_fmap option_map]. do 2 f_equal. destruct (wr_ok r).
    + apply (do_result_value (SimpleString (lit "OK"))), E. vm_compute. reflexivity.
    + apply (do_result_value (RespError kWriteUnavailable)), E. vm_compute. reflexivity.
  - change (Parser_parse [lit "DEL"; in_key input]) with (mkCommand CDelete (in_key input) [in_key input] [] None 0 []).
    unfold dispatch. cbn [cmd_type cmd_keys delete_keys]. destruct (Cluster_del _ _ _) as [[[c' r] w]|]; [|done].
    cbn [mbind option_bind]. destruct (wr_ok r); cbn [negb fmap option_fmap option_map]; [|done]. do 2 f_equal.
    apply (do_result_value (RespInteger (0 + if wr_existed r then 1 else 0))). cbn. destruct (wr_existed r); lia.
Qed.

Lemma chaos_client_sees_witness :
  parse_request (go_command [lit "GET"; sample_key]) = POk [lit "GET"; sample_key] (length (go_command [lit "GET"; sample_key])) /\
  is_Some (op_outcome sample_env (mkInput opGet sample_key []) (sample_server Quorum)) /\
  (fun x => do_result (readReply x.2)) <$> dispatch sample_env (Parser_parse [lit "GET"; sample_key]) (sample_server Quorum) [] =
    snd <$> op_outcome sample_env (mkInput opGet sample_key []) (sample_server Quorum).
Proof.
  destruct (chaos_client_sees sample_env (mkInput opGet sample_key []) (sample_server Quorum) [] []) as [P D].
  - vm_compute. discriminate.
  - vm_compute. discriminate.
  - intros c' r w Er.
    assert (L : (fun x => length (vv_value (read_value x.1.2))) <$> Cluster_read (de_read sample_env 0%nat) sample_key (sample_server Quorum) = Some 3%nat)
      by (vm_compute; reflexivity).
    cbn [in_key] in Er. rewrite Er in L. apply (inj Some) in L. cbn [fst snd] in L. rewrite L. reflexivity.
  - rewrite app_nil_r in P. split; [exact P|]. cbn [op_args in_op in_key] in D. rewrite <-D.
    split; [by_eval|].
    destruct (dispatch _ _ _ _) as [[c' out]|]; [|reflexivity]. cbn. by rewrite app_nil_r.
Defined.
