(* ===== verification/ChaosRuns.v ===== *)
(** * The chaos test on the linearizable register

    Links the register of Linearizability.v to the checker of Chaos.v: whatever
    clients record of a run, Porcupine's verdict on it is Ok.  A client's
    interval holds the operation's own: it starts the clock before it sends the
    request and stops it after the reply. *)

From S2P Require Import Prelude CacheEntry Cache VersionedStore HybridClock ConsistentHash RoutingTable HealthChecker Membership Resp Parser ReplicaWire Cluster ClusterLemmas ClusterProps Register RegisterInv Linearizability Chaos.
From stdpp Require Import sorting.

Local Open Scope Z_scope.

(** ** What clients record *)

(** One turn of the loop of [runClient]: the operation it started, and what it
    saw. *)
Record Seen := mkSeen { sn_id : nat; sn_client : Z; sn_call : Z; sn_result : DoResult; sn_return : Z }.

Section runs.
Context {S : Type} `{VersionedStoreLaws S}.
Variable key : bytes.
Implicit Types (s : Sys (S := S)) (o : Op).

Definition op_input o : kvInput :=
  match op_kind o with
  | ORead => mkInput opGet key []
  | OPut value _ => mkInput opPut key value
  | ODel => mkInput opDel key []
  end.

Definition seen_op s (x : Seen) : option Operation :=
  o ← sy_ops s !! sn_id x;
  record_op (sn_client x) (op_input o) (sn_call x) (sn_result x) (sn_return x).

Definition recorded s (seen : list Seen) : list Operation := omap (seen_op s) seen.

Record all_seen s (seen : list Seen) : Prop := {
  ob_ids : NoDup (sn_id <$> seen);
  ob_times : forall x, x ∈ seen -> sn_call x <= sn_return x <= kMaxInt64;
  ob_reply : forall x v o, x ∈ seen -> sn_result x = DoReply v -> sy_ops s !! sn_id x = Some o ->
    is_returned (op_status o) = true /\ (op_kind o = ORead -> v = read_answer o);
  ob_writes : forall id o, sy_ops s !! id = Some o -> is_write (op_kind o) = true -> exists x, x ∈ seen /\ sn_id x = id;
  ob_order : forall x y v o, x ∈ seen -> y ∈ seen -> sn_result x = DoReply v -> sn_return x < sn_call y ->
    sy_ops s !! sn_id y = Some o -> sn_id x ∈ take (op_floor o) (sy_done s)
}.

(** ** The recorded operations of a linearization *)

Definition find_seen (seen : list Seen) (id : nat) : option Seen :=
  List.find (fun x => Nat.eqb (sn_id x) id) seen.

Lemma find_seen_spec seen id x :
  NoDup (sn_id <$> seen) -> find_seen seen id = Some x <-> x ∈ seen /\ sn_id x = id.
Proof.
  intros ND. split.
  - intros E. apply List.find_some in E as [Hin E]. apply Nat.eqb_eq in E. by apply list_elem_of_In in Hin.
  - intros [Hin <-]. destruct (find_seen seen (sn_id x)) as [y|] eqn:E.
    + apply List.find_some in E as [Hy E]. apply Nat.eqb_eq in E. apply list_elem_of_In in Hy.
      apply list_elem_of_lookup in Hin as [i Hi]. apply list_elem_of_lookup in Hy as [j Hj].
      assert (j = i) as ->; [|congruence].
      eapply (NoDup_lookup (sn_id <$> seen)); [done|by rewrite list_lookup_fmap, Hj|]. by rewrite list_lookup_fmap, Hi; cbn; rewrite E.
    + exfalso. eapply List.find_none in E; [|by apply list_elem_of_In]. by rewrite Nat.eqb_refl in E.
Qed.

Lemma omap_perm {A B} (f : A -> option B) (l1 l2 : list A) : l1 ≡ₚ l2 -> omap f l1 ≡ₚ omap f l2.
Proof. intros E. by rewrite E. Qed.

Lemma omap_omap {A B C} (f : A -> option B) (g : B -> option C) (l : list A) : omap g (omap f l) = omap (fun x => f x ≫= g) l.
Proof.
  induction l as [|x l IH]; [done|]. cbn. destruct (f x) as [y|]; cbn; [|done]. destruct (g y); by rewrite IH.
Qed.

Lemma omap_sorted {A B} (f : A -> option B) (R : relation B) (l : list A) :
  (forall i j a b x y, (i < j)%nat -> l !! i = Some a -> l !! j = Some b -> f a = Some x -> f b = Some y -> R x y) ->
  StronglySorted R (omap f l).
Proof.
  induction l as [|a l IH]; intros K; [constructor|]. cbn.
  assert (Hl : StronglySorted R (omap f l)) by (apply IH; intros i j; intros; by eapply (K (Datatypes.S i) (Datatypes.S j)); [lia|..]).
  destruct (f a) as [x|] eqn:Ea; [|done]. constructor; [done|]. apply Forall_forall. intros y Hy.
  apply list_elem_of_omap in Hy as (b & Hb & Eb). apply list_elem_of_lookup in Hb as [j Hj].
  by eapply (K 0%nat (Datatypes.S j)); [lia|..].
Qed.

(** The recorded operations split into those of the sequence and the rest. *)
Lemma recorded_split s seen L :
  NoDup L -> NoDup (sn_id <$> seen) ->
  omap (fun id => find_seen seen id ≫= seen_op s) L ++
  omap (seen_op s) (List.filter (fun x => negb (bool_decide (sn_id x ∈ L))) seen) ≡ₚ recorded s seen.
Proof.
  intros NL NS. unfold recorded. rewrite <-omap_omap, <-omap_app. apply omap_perm.
  assert (E : omap (find_seen seen) L ≡ₚ List.filter (fun x => bool_decide (sn_id x ∈ L)) seen).
  { apply NoDup_Permutation.
    - clear - NL NS. induction NL as [|id L Hn NL IH]; [constructor|]. cbn. destruct (find_seen seen id) as [x|] eqn:E; [|done].
      constructor; [|done]. intros Hin. apply list_elem_of_omap in Hin as (id' & Hin & E').
      apply (find_seen_spec seen id x NS) in E as [_ <-]. apply (find_seen_spec seen id' x NS) in E' as [_ <-]. done.
    - apply NoDup_ListNoDup, List.NoDup_filter, NoDup_ListNoDup. by eapply NoDup_fmap_1.
    - intros x. rewrite list_elem_of_omap, list_elem_of_In, List.filter_In, <-list_elem_of_In, bool_decide_eq_true. split.
      + intros (id & Hin & E). apply find_seen_spec in E as [? <-]; [done|done].
      + intros [Hx Hin]. exists (sn_id x). split; [done|]. by apply find_seen_spec. }
  rewrite E. clear. induction seen as [|x seen IH]; [done|]. cbn. destruct (bool_decide (sn_id x ∈ L)); cbn.
  - by rewrite IH.
  - by rewrite <-Permutation_middle, IH.
Qed.

(** A recorded operation, as an operation of the model. *)
Lemma seen_op_spec s seen x op :
  all_seen s seen -> x ∈ seen -> seen_op s x = Some op ->
  exists o, sy_ops s !! sn_id x = Some o /\ h_input op = op_input o /\ h_call op = sn_call x /\ h_call op <= h_return op /\
    h_call op <= kMaxInt64 /\
    ((exists v, sn_result x = DoReply v /\ h_return op = sn_return x /\
       (op_kind o = ORead -> v = read_answer o /\ h_output op = mkOutput (bool_decide (is_Some v)) (default [] v))) \/
     sn_result x = DoError /\ is_write (op_kind o) = true /\ h_return op = kMaxInt64).
Proof.
  intros Ob Hx E. unfold seen_op in E. destruct (sy_ops s !! sn_id x) as [o|] eqn:Eo; [|done]. cbn [mbind option_bind] in E.
  exists o. split; [done|]. pose proof (ob_times _ _ Ob x Hx) as Ht. unfold record_op, op_input in *.
  destruct (sn_result x) as [v|] eqn:Er.
  - pose proof (ob_reply _ _ Ob x v o Hx Er Eo) as [_ Hv].
    destruct (op_kind o), v as [v|]; cbn in E; injection E as <-; cbn; (do 4 (split; [done || lia|])); left;
      eexists; (split; [done|]); (split; [done|]); intros Hk; try done; by rewrite <-Hv by done.
  - destruct (op_kind o); cbn in E; [done|injection E as <-..]; cbn; (do 4 (split; [done || lia|])); right; done.
Qed.

Lemma write_recorded s x o : sy_ops s !! sn_id x = Some o -> is_write (op_kind o) = true -> is_Some (seen_op s x).
Proof.
  intros Eo Hw. unfold seen_op. rewrite Eo. cbn [mbind option_bind]. unfold record_op, op_input.
  destruct (op_kind o); [done|destruct (sn_result x) as [[v|]|]; cbn; eauto..].
Qed.

Definition reg_state (cur : option bytes) : kvState := mkState (bool_decide (is_Some cur)) (default [] cur).

(** The reads that were not recorded can be left out. *)
Lemma recorded_legal s seen L cur :
  all_seen s seen -> (forall id, id ∈ L -> is_Some (sy_ops s !! id)) ->
  legal cur (omap (fun id => sy_ops s !! id) L) ->
  kv_legal (reg_state cur) (omap (fun id => find_seen seen id ≫= seen_op s) L).
Proof.
  intros Ob. revert cur. induction L as [|id L IH]; intros cur Hs Hl; [done|].
  destruct (Hs id) as [o Eo]; [by left|]. cbn in Hl. rewrite Eo in Hl. cbn [legal] in Hl.
  assert (Hs' : forall id, id ∈ L -> is_Some (sy_ops s !! id)) by (intros ? ?; apply Hs; by right).
  cbn. destruct (find_seen seen id) as [x|] eqn:Ex; cbn.
  - apply (find_seen_spec _ _ _ (ob_ids _ _ Ob)) in Ex as [Hx <-]. destruct (seen_op s x) as [op|] eqn:Ep.
    + destruct (seen_op_spec s seen x op Ob Hx Ep) as (o' & Eo' & Hin & _ & _ & _ & Hout). rewrite Eo in Eo'. injection Eo' as <-.
      cbn [kv_legal]. rewrite Hin. unfold op_input, kvStep in *. destruct (op_kind o) as [|value ttl|]; cbn [in_op in_value fst snd].
      * destruct Hl as [Ha Hl]. destruct Hout as [(v & _ & _ & Hv)|(_ & Hw & _)]; [|done].
        destruct (Hv eq_refl) as [-> ->]. rewrite Ha. split; [|by apply IH]. cbn. rewrite Bool.eqb_reflx. cbn.
        by destruct cur; cbn; [apply bytes_eqb_refl|].
      * split; [done|]. by apply (IH (Some value)).
      * split; [done|]. by apply (IH None).
    + destruct (op_kind o) eqn:Ek; [destruct Hl; by apply IH|..]; exfalso;
        (destruct (write_recorded s x o Eo) as [? E]; [by rewrite Ek|congruence]).
  - destruct (op_kind o) eqn:Ek; [destruct Hl; by apply IH|..]; exfalso;
      (destruct (ob_writes _ _ Ob id o Eo) as (x & Hx & Hid); [by rewrite Ek|];
       apply (conj Hx), (find_seen_spec _ _ _ (ob_ids _ _ Ob)) in Hid; congruence).
Qed.

(** Operations that are not part of the sequence are writes that may still take
    effect. *)
Lemma unseen_writes s seen L op :
  linearization s L -> all_seen s seen ->
  op ∈ omap (seen_op s) (List.filter (fun x => negb (bool_decide (sn_id x ∈ L))) seen) ->
  h_return op = kMaxInt64 /\ h_op op <> opGet /\ h_call op <= kMaxInt64.
Proof.
  intros [[_ HL] _] Ob Hop. apply list_elem_of_omap in Hop as (x & Hx & Ep).
  apply list_elem_of_In, List.filter_In in Hx as [Hx Hn]. apply list_elem_of_In in Hx. apply negb_true_iff, bool_decide_eq_false in Hn.
  destruct (seen_op_spec s seen x op Ob Hx Ep) as (o & Eo & Hin & _ & _ & Hc & [(v & Er & _)|(_ & Hw & Hr)]).
  - exfalso. apply Hn, HL. exists o. split; [done|]. unfold takes_effect.
    destruct (ob_reply _ _ Ob x v o Hx Er Eo) as [-> _]. done.
  - split; [done|]. split; [|done]. unfold h_op. rewrite Hin. unfold op_input. by destruct (op_kind o).
Qed.

Lemma writes_legal st l : Forall (fun op => h_op op <> opGet) l -> kv_legal st l.
Proof.
  intros Hf. revert st. induction Hf as [|op l Hop _ IH]; intros st; [done|]. cbn. unfold kvStep, h_op in *.
  destruct (in_op (h_input op)); [done|split; [done|apply IH]..].
Qed.

Lemma recorded_linearizable s seen L : linearization s L -> all_seen s seen -> linearizable (recorded s seen).
Proof.
  intros HL Ob. pose proof HL as [[NL Hin] [Hleg Hord]].
  exists (omap (fun id => find_seen seen id ≫= seen_op s) L ++
    omap (seen_op s) (List.filter (fun x => negb (bool_decide (sn_id x ∈ L))) seen)).
  assert (Spec : forall id op, (find_seen seen id ≫= seen_op s) = Some op -> exists x, x ∈ seen /\ sn_id x = id /\ seen_op s x = Some op).
  { intros id op E. destruct (find_seen seen id) as [x|] eqn:Ex; [|done]. cbn in E.
    apply (find_seen_spec _ _ _ (ob_ids _ _ Ob)) in Ex as [Hx <-]. eauto. }
  split; [apply recorded_split; [done|apply Ob]|]. split.
  - apply StronglySorted_app_2.
    + intros a b Ha Hb. apply (unseen_writes s seen L b HL Ob) in Hb as (Hb & _). apply list_elem_of_omap in Ha as (id & _ & Ha).
      destruct (Spec id a Ha) as (x & Hx & _ & Ex). destruct (seen_op_spec s seen x a Ob Hx Ex) as (? & _ & _ & _ & _ & Hc & _).
      unfold in_order. lia.
    + apply omap_sorted. intros i j ia ib a b Hij Hi Hj Ea Eb. unfold in_order.
      destruct (Spec ia a Ea) as (x & Hx & <- & Ex). destruct (Spec ib b Eb) as (y & Hy & <- & Ey).
      destruct (seen_op_spec s seen x a Ob Hx Ex) as (oa & Eoa & _ & Hca & _ & Hma & _).
      destruct (seen_op_spec s seen y b Ob Hy Ey) as (ob & Eob & _ & _ & _ & _ & [(v & Er & Hr & _)|(_ & _ & Hr)]); [|lia].
      destruct (Z.le_gt_cases (h_call a) (h_return b)) as [|Hlt]; [done|exfalso].
      assert (Hd : sn_id y ∈ take (op_floor oa) (sy_done s)) by (eapply (ob_order _ _ Ob y x v oa); try done; lia).
      pose proof (Hord j i _ _ oa Hj Hi Eoa Hd). lia.
    + apply omap_sorted. intros i j a b x y _ Ha Hb Ea Eb. unfold in_order.
      assert (Hy : y ∈ omap (seen_op s) (List.filter (fun x => negb (bool_decide (sn_id x ∈ L))) seen)) by (apply list_elem_of_omap; exists b; split; [by eapply list_elem_of_lookup_2|done]).
      assert (Hx : x ∈ omap (seen_op s) (List.filter (fun x => negb (bool_decide (sn_id x ∈ L))) seen)) by (apply list_elem_of_omap; exists a; split; [by eapply list_elem_of_lookup_2|done]).
      apply (unseen_writes s seen L y HL Ob) in Hy as (-> & _). by apply (unseen_writes s seen L x HL Ob) in Hx as (_ & _ & ?).
  - apply kv_legal_app. split.
    + apply (recorded_legal s seen L None Ob); [|done]. intros id Hid. apply Hin in Hid as (o & -> & _). eauto.
    + apply writes_legal, Forall_forall. intros op Hop. by apply (unseen_writes s seen L op HL Ob) in Hop as (_ & ? & _).
Qed.
End runs.

(** The operations of [hist] on [k] were recorded on a run of the register of
    [k] in which read and write quorums overlap. *)
Definition key_run {S : Type} `{VersionedStore S} (k : bytes) (hist : list Operation) : Prop :=
  exists (T : list CacheNode) (R W : nat) (s0 s : Sys (S := S)) (seen : list Seen),
    NoDup (cn_id <$> T) /\ (length T < R + W)%nat /\ (W <= length T)%nat /\
    fresh_system k T R W s0 /\ lasting k s0 /\ reachable k T s0 s /\
    all_seen s seen /\ of_key k hist ≡ₚ recorded k s seen.

Lemma linearizable_perm h1 h2 : h1 ≡ₚ h2 -> linearizable h1 -> linearizable h2.
Proof. intros E (l & Hp & Hs & Hl). exists l. split; [by rewrite Hp|]. by split. Qed.

Lemma run_passes {S : Type} `{VersionedStoreLaws S} (hist : list Operation) :
  (forall op, op ∈ hist -> key_run (S := S) (h_key op) hist) -> Forall linearizable (kvPartition hist).
Proof.
  intros Hr. destruct (partition_spec hist) as (keys & -> & _ & _). rewrite Forall_fmap. apply Forall_forall. intros k _. cbn.
  destruct (of_key k hist) as [|op h] eqn:E; [exists []; split; [done|]; split; [constructor|done]|].
  assert (Hop : op ∈ of_key k hist) by (rewrite E; by left). apply of_key_elem in Hop as [Hop <-].
  destruct (Hr op Hop) as (T & R & W & s0 & s & seen & HT & HQ & HW & F & Hl & Hs & Ob & Hp). rewrite E in Hp.
  destruct (linearization_exists (h_key op) T R W s HT HQ HW (reachable_inv (h_key op) T R W HT HQ HW s0 s F Hl Hs)) as [L HL].
  eapply linearizable_perm; [symmetry; exact Hp|]. by eapply recorded_linearizable.
Qed.

(** The linearizable mode passes the chaos test: whatever the clients record
    of runs in which quorums overlap and no replica loses its memory, replies
    lost and writes of unknown outcome included, every part of the history the
    checker looks at is linearizable. *)
Theorem chaos_run_passes {S : Type} `{VersionedStoreLaws S} (hist : list Operation) :
  (forall op, op ∈ hist -> key_run (S := S) (h_key op) hist) -> Forall linearizable (kvPartition hist).
Proof. apply run_passes. Qed.

(** The run of Linearizability.v: a client of node a writes, then a client of
    node c reads. *)
Definition sample_seen : list Seen :=
  [mkSeen 0 0 0 (DoReply (Some (lit "OK"))) 10; mkSeen 1 1 20 (DoReply (Some (lit "c0-0"))) 30].

Definition sample_recorded : list Operation :=
  [mkOperation 0 (mkInput opPut sample_key (lit "c0-0")) 0 (mkOutput false []) 10;
   mkOperation 1 (mkInput opGet sample_key []) 20 (mkOutput true (lit "c0-0")) 30].

Lemma sample_key_run : key_run (S := Cache) sample_key sample_recorded.
Proof.
  assert (X : (fun s => (recorded sample_key s sample_seen, op_floor <$> sy_ops s, sy_done s, is_returned ∘ op_status <$> sy_ops s,
      read_answer <$> sy_ops s, is_write ∘ op_kind <$> sy_ops s)) <$>
    run sample_key sample_targets sample_actions sample_sys =
    Some (sample_recorded, [0%nat; 1%nat], [0%nat; 1%nat], [true; true], [None; Some (lit "c0-0")], [true; false])) by (vm_compute; reflexivity).
  destruct (run sample_key sample_targets sample_actions sample_sys) as [s|] eqn:E; [|discriminate X].
  cbn [fmap option_fmap option_map] in X. apply (inj Some) in X.
  apply pair_equal_spec in X as [X X6]. apply pair_equal_spec in X as [X X5]. apply pair_equal_spec in X as [X X4]. apply pair_equal_spec in X as [X X3].
  apply pair_equal_spec in X as [X1 X2].
  destruct sample_fresh as [F Hl]. exists sample_targets, 2%nat, 2%nat, sample_sys, s, sample_seen.
  split; [by_eval|]. split; [vm_compute; lia|]. split; [vm_compute; lia|].
  split; [exact F|]. split; [exact Hl|]. split; [eapply run_reachable; [apply reach_start|exact E]|].
  assert (Lk : forall id o, sy_ops s !! id = Some o -> ([0%nat; 1%nat] !! id = Some (op_floor o)) /\
    [true; true] !! id = Some (is_returned (op_status o)) /\ [None; Some (lit "c0-0")] !! id = Some (read_answer o) /\
    [true; false] !! id = Some (is_write (op_kind o))).
  { intros id o Ho. rewrite <-X2, <-X4, <-X5, <-X6, !list_lookup_fmap, Ho. split; [reflexivity|]. split; [reflexivity|]. split; reflexivity. }
  clear X2 X4 X5 X6 E.
  split; [|rewrite X1; reflexivity].
  split.
  - by_eval.
  - intros x Hx. unfold kMaxInt64. apply elem_of_cons in Hx as [-> | Hx]; [cbn; lia|]. apply list_elem_of_singleton in Hx as ->. cbn. lia.
  - intros x v o Hx Er Ho. destruct (Lk _ _ Ho) as (_ & L2 & L3 & L4). apply elem_of_cons in Hx as [-> | Hx].
    + injection L2 as <-. injection L4 as L4. split; [reflexivity|]. intros Hk. rewrite Hk in L4. discriminate L4.
    + apply list_elem_of_singleton in Hx as ->. injection L2 as <-. split; [reflexivity|]. intros _.
      apply (inj Some) in L3. rewrite <-L3. injection Er as <-. reflexivity.
  - intros id o Ho _. destruct (Lk _ _ Ho) as (L1 & _). destruct id as [|[|id]]; [| |discriminate L1].
    + eexists. split; [left|reflexivity].
    + eexists. split; [right; left|reflexivity].
  - intros x y v o Hx Hy _ Hlt Ho. destruct (Lk _ _ Ho) as (L1 & _). rewrite X3.
    apply elem_of_cons in Hx as [-> | Hx]; [|apply list_elem_of_singleton in Hx as ->];
    (apply elem_of_cons in Hy as [-> | Hy]; [|apply list_elem_of_singleton in Hy as ->]); cbn in *; [lia| |lia|lia].
    injection L1 as <-. left.
Qed.

Lemma sample_recorded_runs op : op ∈ sample_recorded -> key_run (S := Cache) (h_key op) sample_recorded.
Proof.
  intros Hop. assert (h_key op = sample_key) as ->; [|exact sample_key_run].
  apply elem_of_cons in Hop as [-> | Hop]; [reflexivity|]. apply list_elem_of_singleton in Hop as ->. reflexivity.
Qed.

Lemma chaos_run_passes_witness : Forall linearizable (kvPartition sample_recorded).
Proof. apply (chaos_run_passes (S := Cache)). exact sample_recorded_runs. Defined.
