(* ===== verification/ChaosProxy.v ===== *)
(** * The fault-injecting proxy of the chaos test

    Models chaos/proxy.go: a proxy forwards one directed link between two nodes
    and can be partitioned.  Its goroutines run side by side: the accept loop,
    one [handle] per connection, the two [pipe]s of a forwarded connection, and
    the caller of [SetPartitioned].  Each step of [proxy_step] is one atomic
    access of one of them (a load or store of the flag, a section under the
    mutex, a read, a write or a close of a socket), so a run is any interleaving.
    What the sockets do is part of the events: how many bytes a read returns,
    whether a write fails and after how many bytes, whether the dial succeeds.
    The random delay of [pipe] is a step that may come arbitrarily late.

    The theorems say what the chaos test relies on: whatever is forwarded is, per
    direction, a prefix of what the sender sent, even across partitions; and once
    [SetPartitioned(true)] has returned, nothing is forwarded until the partition
    is healed, and the connections that were being served never forward again. *)

From S2P Require Import Prelude.

Local Open Scope nat_scope.

(** ** Connections *)

(** A socket of the proxy: not yet closed by it, the bytes that have arrived,
    how many of them were read, and the bytes written. *)
Record Socket := mkSocket { so_open : bool; so_arrived : bytes; so_read : nat; so_sent : bytes }.

Definition so_pending (s : Socket) : bytes := drop (so_read s) (so_arrived s).

Definition close_socket (s : Socket) : Socket := mkSocket false (so_arrived s) (so_read s) (so_sent s).

(** The two sockets of a connection, and the two directions of its pipes. *)
Inductive Side := ClientSide | UpstreamSide.
Inductive Direction := ToUpstream | ToClient.

#[export] Instance Side_eq_dec : EqDecision Side.
Proof. solve_decision. Defined.
#[export] Instance Direction_eq_dec : EqDecision Direction.
Proof. solve_decision. Defined.

Definition dst (d : Direction) : Side := match d with ToUpstream => UpstreamSide | ToClient => ClientSide end.
Definition src (d : Direction) : Side := match d with ToUpstream => ClientSide | ToClient => UpstreamSide end.

(** Where a [pipe] is, with the chunk it holds and the error of its read. *)
Inductive PipePc :=
  | PipeIdle                               (** not started *)
  | PipeRead                               (** n, err := src.Read(buf) *)
  | PipeSleep (chunk : bytes) (err : bool) (** time.Sleep *)
  | PipeTest (chunk : bytes) (err : bool)  (** n > 0 && !p.partitioned.Load() *)
  | PipeWrite (chunk : bytes) (err : bool) (** dst.Write(buf[:n]) *)
  | PipeCloseDst
  | PipeCloseSrc
  | PipeDone.

(** Where a [handle] is. *)
Inductive HandlePc :=
  | HTrack         (** p.track(client) *)
  | HLoad          (** if p.partitioned.Load() *)
  | HDiscard       (** io.Copy(io.Discard, client) *)
  | HCloseClient   (** client.Close(); return *)
  | HDial          (** net.Dial("tcp", p.target) *)
  | HTrackUpstream (** p.track(upstream) *)
  | HPiped         (** both pipes run *)
  | HReturned.

Record Link := mkLink {
  lk_pc : HandlePc;
  lk_client : Socket;
  lk_upstream : Socket;
  lk_to_upstream : PipePc;
  lk_to_client : PipePc
}.

Definition link_socket (sd : Side) (l : Link) : Socket :=
  match sd with ClientSide => lk_client l | UpstreamSide => lk_upstream l end.
Definition set_socket (sd : Side) (s : Socket) (l : Link) : Link :=
  match sd with
  | ClientSide => mkLink (lk_pc l) s (lk_upstream l) (lk_to_upstream l) (lk_to_client l)
  | UpstreamSide => mkLink (lk_pc l) (lk_client l) s (lk_to_upstream l) (lk_to_client l)
  end.
Definition link_pipe (d : Direction) (l : Link) : PipePc :=
  match d with ToUpstream => lk_to_upstream l | ToClient => lk_to_client l end.
Definition set_pipe (d : Direction) (pc : PipePc) (l : Link) : Link :=
  match d with
  | ToUpstream => mkLink (lk_pc l) (lk_client l) (lk_upstream l) pc (lk_to_client l)
  | ToClient => mkLink (lk_pc l) (lk_client l) (lk_upstream l) (lk_to_upstream l) pc
  end.
Definition set_handle (pc : HandlePc) (l : Link) : Link :=
  mkLink pc (lk_client l) (lk_upstream l) (lk_to_upstream l) (lk_to_client l).

(** An accepted connection. *)
Definition new_link : Link := mkLink HTrack (mkSocket true [] 0 []) (mkSocket false [] 0 []) PipeIdle PipeIdle.

(** ** The proxy *)

Definition ProxyConn : Type := nat * Side.

(** Where the caller of [SetPartitioned] is: elsewhere, about to take the mutex,
    or with the mutex and these connections left to close. *)
Inductive SetPc := SetIdle | SetLocking | SetCutting (todo : list ProxyConn).

Record Proxy := mkProxy {
  px_listening : bool;
  px_partitioned : bool;
  px_max_latency : Z;
  px_conns : list ProxyConn;
  px_links : list Link;
  px_set : SetPc
}.

Definition NewProxy (max_latency : Z) : Proxy := mkProxy true false max_latency [] [] SetIdle.

Definition set_link (k : nat) (l : Link) (p : Proxy) : Proxy :=
  mkProxy (px_listening p) (px_partitioned p) (px_max_latency p) (px_conns p) (<[k := l]> (px_links p)) (px_set p).

(** [track]: blocked while the mutex is held; the connections are a set. *)
Definition track (c : ProxyConn) (p : Proxy) : option Proxy :=
  match px_set p with
  | SetCutting _ => None
  | _ =>
      Some (mkProxy (px_listening p) (px_partitioned p) (px_max_latency p)
              (if decide (c ∈ px_conns p) then px_conns p else c :: px_conns p) (px_links p) (px_set p))
  end.

(** The first statement of [SetPartitioned]. *)
Definition SetPartitioned (on : bool) (p : Proxy) : option Proxy :=
  match px_set p with
  | SetIdle =>
      Some (mkProxy (px_listening p) on (px_max_latency p) (px_conns p) (px_links p)
              (if on then SetLocking else SetIdle))
  | _ => None
  end.

(** The rest of it, when partitioning: lock, close the connections in the order
    the map gives them, replace the map and unlock. *)
Definition cut_step (i : nat) (p : Proxy) : option Proxy :=
  match px_set p with
  | SetIdle => None
  | SetLocking =>
      Some (mkProxy (px_listening p) (px_partitioned p) (px_max_latency p) (px_conns p) (px_links p)
              (SetCutting (px_conns p)))
  | SetCutting [] =>
      Some (mkProxy (px_listening p) (px_partitioned p) (px_max_latency p) [] (px_links p) SetIdle)
  | SetCutting todo =>
      '(k, sd) ← todo !! i;
      l ← px_links p !! k;
      Some (mkProxy (px_listening p) (px_partitioned p) (px_max_latency p) (px_conns p)
              (<[k := set_socket sd (close_socket (link_socket sd l)) l]> (px_links p)) (SetCutting (delete i todo)))
  end.

(** [acceptLoop]; the loop ends when the listener is closed. *)
Definition accept_step (p : Proxy) : option Proxy :=
  if px_listening p then
    Some (mkProxy (px_listening p) (px_partitioned p) (px_max_latency p) (px_conns p) (px_links p ++ [new_link]) (px_set p))
  else None.

(** [handle] on connection [k].  [n] and [stop] tell what the copy to nowhere
    reads and whether it ends, [stop] also that the dial fails. *)
Definition handle_step (k n : nat) (stop : bool) (p : Proxy) : option Proxy :=
  l ← px_links p !! k;
  match lk_pc l with
  | HTrack => track (k, ClientSide) (set_link k (set_handle HLoad l) p)
  | HLoad => Some (set_link k (set_handle (if px_partitioned p then HDiscard else HDial) l) p)
  | HDiscard =>
      let s := lk_client l in
      if negb (so_open s) then Some (set_link k (set_handle HCloseClient l) p)
      else if n <=? length (so_pending s) then
        Some (set_link k (set_socket ClientSide (mkSocket true (so_arrived s) (so_read s + n) (so_sent s))
                            (set_handle (if stop then HCloseClient else HDiscard) l)) p)
      else None
  | HCloseClient => Some (set_link k (set_socket ClientSide (close_socket (lk_client l)) (set_handle HReturned l)) p)
  | HDial =>
      Some (set_link k
              (if stop then set_handle HCloseClient l
               else mkLink HTrackUpstream (lk_client l) (mkSocket true [] 0 []) PipeIdle PipeIdle) p)
  | HTrackUpstream =>
      track (k, UpstreamSide) (set_link k (mkLink HPiped (lk_client l) (lk_upstream l) PipeRead PipeRead) p)
  | HPiped | HReturned => None
  end.

(** One iteration's statements of [pipe].  [n] and [err] are the result of the
    read or of the write: a read returns at most 32 KiB of what has arrived, and
    returns nothing only with an error; a write that returns no error has
    written everything. *)
Definition pipe_step (partitioned : bool) (max_latency : Z) (d : Direction) (n : nat) (err : bool) (l : Link) : option Link :=
  match link_pipe d l with
  | PipeRead =>
      let s := link_socket (src d) l in
      if negb (so_open s) then Some (set_pipe d (PipeTest [] true) l)
      else if (Z.of_nat n <=? 32 * 1024)%Z && (n <=? length (so_pending s)) && ((0 <? n) || err) then
        let chunk := take n (so_pending s) in
        Some (set_pipe d (if (0 <? n) && (0 <? max_latency)%Z then PipeSleep chunk err else PipeTest chunk err)
                (set_socket (src d) (mkSocket true (so_arrived s) (so_read s + n) (so_sent s)) l))
      else None
  | PipeSleep chunk e => Some (set_pipe d (PipeTest chunk e) l)
  | PipeTest chunk e =>
      Some (set_pipe d (if negb (bool_decide (chunk = [])) && negb partitioned then PipeWrite chunk e
                        else if e then PipeCloseDst else PipeRead) l)
  | PipeWrite chunk e =>
      let s := link_socket (dst d) l in
      if negb (so_open s) then Some (set_pipe d PipeCloseDst l)
      else if (n <=? length chunk) && (err || (length chunk <=? n)) then
        Some (set_pipe d (if err || e then PipeCloseDst else PipeRead)
                (set_socket (dst d) (mkSocket true (so_arrived s) (so_read s) (so_sent s ++ take n chunk)) l))
      else None
  | PipeCloseDst => Some (set_pipe d PipeCloseSrc (set_socket (dst d) (close_socket (link_socket (dst d) l)) l))
  | PipeCloseSrc => Some (set_pipe d PipeDone (set_socket (src d) (close_socket (link_socket (src d) l)) l))
  | PipeIdle | PipeDone => None
  end.

(** Bytes arrive at an open socket. *)
Definition arrive (sd : Side) (data : bytes) (l : Link) : option Link :=
  let s := link_socket sd l in
  if so_open s then Some (set_socket sd (mkSocket true (so_arrived s ++ data) (so_read s) (so_sent s)) l) else None.

Inductive ProxyEv :=
  | EvSet (on : bool)
  | EvCut (i : nat)
  | EvListenerClose
  | EvAccept
  | EvHandle (k n : nat) (stop : bool)
  | EvPipe (k : nat) (d : Direction) (n : nat) (err : bool)
  | EvArrive (k : nat) (sd : Side) (data : bytes).

Definition proxy_step (ev : ProxyEv) (p : Proxy) : option Proxy :=
  match ev with
  | EvSet on => SetPartitioned on p
  | EvCut i => cut_step i p
  | EvListenerClose =>
      Some (mkProxy false (px_partitioned p) (px_max_latency p) (px_conns p) (px_links p) (px_set p))
  | EvAccept => accept_step p
  | EvHandle k n stop => handle_step k n stop p
  | EvPipe k d n err =>
      l ← px_links p !! k;
      l' ← pipe_step (px_partitioned p) (px_max_latency p) d n err l;
      Some (set_link k l' p)
  | EvArrive k sd data => l ← px_links p !! k; l' ← arrive sd data l; Some (set_link k l' p)
  end.

Fixpoint proxy_run (evs : list ProxyEv) (p : Proxy) : option Proxy :=
  match evs with
  | [] => Some p
  | ev :: rest => p' ← proxy_step ev p; proxy_run rest p'
  end.

(** [Close] is the two calls [EvListenerClose] and [EvSet true]. *)
Definition Proxy_Close : list ProxyEv := [EvListenerClose; EvSet true].

(** ** The invariant *)

Definition carried (pc : PipePc) : bytes :=
  match pc with PipeSleep c _ | PipeTest c _ | PipeWrite c _ => c | _ => [] end.

Definition ending (pc : PipePc) : bool := match pc with PipeCloseDst | PipeCloseSrc | PipeDone => true | _ => false end.
Definition writing (pc : PipePc) : bool := match pc with PipeWrite _ _ => true | _ => false end.

(** Before anything is read of the connection, and past the test of the flag. *)
Definition unread (pc : HandlePc) : bool := match pc with HTrack | HLoad | HDial | HTrackUpstream => true | _ => false end.
Definition served (pc : HandlePc) : bool := match pc with HDial | HTrackUpstream | HPiped => true | _ => false end.

Definition closed (sd : Side) (l : Link) : Prop := so_open (link_socket sd l) = false.

(** The call under way will close this connection. *)
Definition being_cut (set : SetPc) (conns : list ProxyConn) (c : ProxyConn) : Prop :=
  match set with SetIdle => False | SetLocking => c ∈ conns | SetCutting todo => c ∈ todo end.

(** One direction: all that was read is written or in hand; or something was
    dropped, and then nothing more is written. *)
Definition stream_ok (part : bool) (set : SetPc) (conns : list ProxyConn) (k : nat) (d : Direction) (l : Link) : Prop :=
  let s := link_socket (src d) l in
  let sent := so_sent (link_socket (dst d) l) in
  let pc := link_pipe d l in
  take (so_read s) (so_arrived s) = sent ++ carried pc \/
  (sent `prefix_of` so_arrived s /\
   (ending pc = true \/ closed (dst d) l \/
    (part = true /\ being_cut set conns (k, dst d) /\ writing pc = false))).

Record link_inv (part : bool) (set : SetPc) (conns : list ProxyConn) (k : nat) (l : Link) : Prop := {
  li_fresh : lk_pc l <> HPiped ->
    so_sent (lk_client l) = [] /\ so_sent (lk_upstream l) = [] /\ lk_to_upstream l = PipeIdle /\ lk_to_client l = PipeIdle;
  li_read : forall sd, so_read (link_socket sd l) <= length (so_arrived (link_socket sd l));
  li_unread : unread (lk_pc l) = true -> so_read (lk_client l) = 0;
  li_dialed : lk_pc l = HTrackUpstream -> so_read (lk_upstream l) = 0;
  li_untracked : (k, UpstreamSide) ∈ conns -> lk_pc l = HPiped;
  li_client : lk_pc l <> HTrack -> closed ClientSide l \/ (k, ClientSide) ∈ conns;
  li_upstream : lk_pc l = HPiped -> closed UpstreamSide l \/ (k, UpstreamSide) ∈ conns;
  li_cutting : forall todo sd, set = SetCutting todo -> (k, sd) ∈ conns -> (k, sd) ∈ todo \/ closed sd l;
  li_cut : part = true -> set = SetIdle -> served (lk_pc l) = true -> closed ClientSide l;
  li_late : part = true -> set = SetIdle -> lk_pc l = HPiped -> closed UpstreamSide l \/ carried (lk_to_upstream l) = [];
  li_stream : lk_pc l = HPiped -> forall d, stream_ok part set conns k d l
}.

Record proxy_inv (p : Proxy) : Prop := {
  pi_links : forall k l, px_links p !! k = Some l -> link_inv (px_partitioned p) (px_set p) (px_conns p) k l;
  pi_conns : forall k sd, (k, sd) ∈ px_conns p -> is_Some (px_links p !! k);
  pi_flag : px_set p <> SetIdle -> px_partitioned p = true;
  pi_todo : forall todo c, px_set p = SetCutting todo -> c ∈ todo -> c ∈ px_conns p
}.

(** Whatever the call does, a connection of a partitioned proxy that holds a
    chunk is closed or will be. *)
Lemma cut_dst part set conns k d l :
  link_inv part set conns k l -> lk_pc l = HPiped -> part = true -> carried (link_pipe d l) <> [] ->
  closed (dst d) l \/ being_cut set conns (k, dst d).
Proof.
  intros I Hp Ht Hc. assert (T : closed (dst d) l \/ (k, dst d) ∈ conns).
  { destruct d; cbn [dst]; [by apply (li_upstream _ _ _ _ _ I)|]. apply (li_client _ _ _ _ _ I). by rewrite Hp. }
  destruct set as [| |todo] eqn:Es; cbn [being_cut].
  - left. destruct d; cbn [dst] in *; [|apply (li_cut _ _ _ _ _ I); rewrite ?Hp; done].
    by destruct (li_late _ _ _ _ _ I Ht eq_refl Hp).
  - done.
  - destruct T as [T|T]; [by left|]. destruct (li_cutting _ _ _ _ _ I todo (dst d) eq_refl T); auto.
Qed.

(** A pure form of [stream_ok], for one direction's bytes. *)
Definition flow (dead : bool -> Prop) (arrived : bytes) (read : nat) (sent : bytes) (pc : PipePc) : Prop :=
  take read arrived = sent ++ carried pc \/
  (sent `prefix_of` arrived /\ (ending pc = true \/ dead (writing pc))).

Lemma stream_flow part set conns k d l :
  stream_ok part set conns k d l <->
  flow (fun w => closed (dst d) l \/ (part = true /\ being_cut set conns (k, dst d) /\ w = false))
    (so_arrived (link_socket (src d) l)) (so_read (link_socket (src d) l)) (so_sent (link_socket (dst d) l)) (link_pipe d l).
Proof. done. Qed.

Lemma flow_prefix dead arrived read sent pc : flow dead arrived read sent pc -> sent `prefix_of` arrived.
Proof.
  intros [E|[E _]]; [|done]. rewrite <-(take_drop read arrived), E, <-app_assoc. by eexists.
Qed.

(** Reading, writing and dropping a chunk. *)
Lemma flow_read dead arrived read sent pc n :
  flow dead arrived read sent PipeRead -> carried pc = take n (drop read arrived) -> writing pc = false ->
  flow dead arrived (read + n) sent pc.
Proof.
  intros F Hc Hw. destruct F as [F|[F1 F2]]; [left|right].
  - cbn [carried] in F. rewrite app_nil_r in F. by rewrite <-take_take_drop, F, Hc.
  - split; [done|]. rewrite Hw. destruct F2; [done|by right].
Qed.

Lemma flow_write (dead dead' : bool -> Prop) arrived read sent c e n :
  flow dead arrived read sent (PipeWrite c e) -> ~ dead true -> flow dead' arrived read (sent ++ take n c) PipeCloseDst.
Proof.
  intros [F|[F1 [?|?]]] Hd; [|done..]. right. split; [|by left]. cbn [carried] in F.
  rewrite <-(take_drop read arrived), F. rewrite <-(take_drop n c) at 2. rewrite <-!app_assoc. eexists. by rewrite app_assoc.
Qed.

Lemma flow_wrote (dead dead' : bool -> Prop) arrived read sent c e :
  flow dead arrived read sent (PipeWrite c e) -> ~ dead true -> flow dead' arrived read (sent ++ c) PipeRead.
Proof. intros [F|[F1 [?|?]]] Hd; [|done..]. left. cbn [carried] in *. by rewrite app_nil_r. Qed.

(** Going on to the end, or to another point with the same chunk in hand. *)
Lemma flow_end dead arrived read sent pc pc' :
  flow dead arrived read sent pc -> ending pc' = true -> flow dead arrived read sent pc'.
Proof. intros F H. right. split; [by eapply flow_prefix|by left]. Qed.

Lemma flow_same (dead dead' : bool -> Prop) arrived read sent pc pc' :
  flow dead arrived read sent pc -> carried pc' = carried pc -> ending pc = false \/ ending pc' = true ->
  (dead (writing pc) -> dead' (writing pc')) -> flow dead' arrived read sent pc'.
Proof.
  intros [F|[F1 [F2|F2]]] Hc He Hd; [left; by rewrite Hc|right; split; [done|left]|right; split; [done|right; auto]].
  destruct He; congruence.
Qed.

Lemma flow_drop (dead : bool -> Prop) arrived read sent pc :
  flow dead arrived read sent pc -> dead false -> flow dead arrived read sent PipeRead.
Proof. intros F H. right. split; [by eapply flow_prefix|by right]. Qed.

Lemma flow_mono (dead dead' : bool -> Prop) arrived read sent pc :
  (forall w, dead w -> dead' w) -> flow dead arrived read sent pc -> flow dead' arrived read sent pc.
Proof. intros H [F|[F1 [F2|F2]]]; [by left|right; auto..]. Qed.

Lemma flow_arrive (dead : bool -> Prop) arrived data read sent pc :
  flow dead arrived read sent pc -> read <= length arrived -> flow dead (arrived ++ data) read sent pc.
Proof.
  intros [F|[F1 F2]] Hr; [left|right]; [by rewrite take_app_le|]. split; [by apply prefix_app_r|done].
Qed.

(** What a step of a pipe does to its own stream. *)
Lemma pipe_stream part lat set conns k d n err l l' :
  link_inv part set conns k l -> lk_pc l = HPiped -> pipe_step part lat d n err l = Some l' -> stream_ok part set conns k d l'.
Proof.
  intros I Hp E. pose proof (li_stream _ _ _ _ _ I Hp d) as F. pose proof (cut_dst _ _ _ _ d _ I Hp) as Hcut. clear I Hp.
  rewrite stream_flow in F |- *. unfold pipe_step, so_pending, closed in *.
  destruct l as [h c u pu pc], d; cbn in *; [destruct pu as [| |ch e|ch e|ch e| | |]|destruct pc as [| |ch e|ch e|ch e| | |]];
    cbn in *; repeat case_hyp E; try discriminate E; injection E as <-; cbn; bool_facts; subst.
  all: try solve [eapply flow_end; [exact F|done]].
  all: try solve [eapply flow_read; [exact F|done|done]].
  all: try solve [eapply flow_same; [exact F|done|by left|tauto]].
  all: try solve [right; split; [by eapply flow_prefix|by left]].
  all: try solve [eapply flow_write; [exact F|intros [?|(_ & _ & ?)]; congruence]].
  all: try solve [rewrite take_ge by (cbn in *; bool_facts; lia); eapply flow_wrote; [exact F|intros [?|(_ & _ & ?)]; congruence]].
  all: try solve [eapply flow_same; [exact F|done|by left|naive_solver]].
  all: destruct (decide (ch = [])) as [->|Hc]; [eapply flow_same; [exact F|done|by left|naive_solver]|].
  all: rewrite bool_decide_eq_false_2 in * by done; destruct part; [|done].
  all: eapply flow_drop; [exact F|]; destruct (Hcut eq_refl Hc); auto.
Qed.

(** What a step of a pipe leaves alone. *)
Definition other_way (d : Direction) : Direction := match d with ToUpstream => ToClient | ToClient => ToUpstream end.

Lemma pipe_frame part lat d n err l l' :
  pipe_step part lat d n err l = Some l' ->
  lk_pc l' = lk_pc l /\ link_pipe (other_way d) l' = link_pipe (other_way d) l /\
  so_read (link_socket (dst d) l') = so_read (link_socket (dst d) l) /\
  so_sent (link_socket (src d) l') = so_sent (link_socket (src d) l) /\
  forall sd, so_arrived (link_socket sd l') = so_arrived (link_socket sd l) /\ (closed sd l -> closed sd l').
Proof.
  unfold pipe_step, closed. intros E. destruct l as [h c u pu pc], d; cbn in *;
    repeat case_hyp E; try discriminate E; injection E as <-; cbn; bool_facts;
    do 4 (split; [done|]); intros [|]; cbn; split; congruence.
Qed.

(** A pipe with nothing in hand whose source is closed gets nothing any more, and
    a pipe writes what it holds to an open socket only. *)
Lemma pipe_quiet part lat d n err l l' :
  pipe_step part lat d n err l = Some l' -> closed (src d) l -> carried (link_pipe d l) = [] -> carried (link_pipe d l') = [].
Proof.
  unfold pipe_step, closed. intros E Hs Hc. destruct l as [h c u pu pc], d; cbn in *;
    repeat case_hyp E; try discriminate E; injection E as <-; cbn in *; bool_facts; subst; try done; congruence.
Qed.

Lemma pipe_silent part lat d n err l l' :
  pipe_step part lat d n err l = Some l' -> closed (dst d) l \/ carried (link_pipe d l) = [] ->
  so_sent (link_socket (dst d) l') = so_sent (link_socket (dst d) l).
Proof.
  unfold pipe_step, closed. intros E Hs. destruct l as [h c u pu pc], d; cbn in *;
    repeat case_hyp E; try discriminate E; injection E as <-; cbn in *; bool_facts; subst; try done;
    (destruct Hs as [Hs| ->]; [congruence|]; by rewrite take_nil, app_nil_r).
Qed.

#[export] Instance HandlePc_eq_dec : EqDecision HandlePc.
Proof. solve_decision. Defined.

Lemma pipe_running part set conns k lat d n err l l' :
  link_inv part set conns k l -> pipe_step part lat d n err l = Some l' -> lk_pc l = HPiped.
Proof.
  intros I E. destruct (decide (lk_pc l = HPiped)) as [|Hp]; [done|]. exfalso.
  destruct (li_fresh _ _ _ _ _ I Hp) as (_ & _ & E1 & E2). unfold pipe_step in E. destruct d; cbn in E; by rewrite ?E1, ?E2 in E.
Qed.

Lemma pipe_bound part lat d n err l l' :
  pipe_step part lat d n err l = Some l' ->
  (forall sd, so_read (link_socket sd l) <= length (so_arrived (link_socket sd l))) ->
  forall sd, so_read (link_socket sd l') <= length (so_arrived (link_socket sd l')).
Proof.
  unfold pipe_step, so_pending. intros E H sd. specialize (H sd). destruct l as [h c u pu pc], d, sd; cbn in *;
    repeat case_hyp E; try discriminate E; injection E as <-; cbn in *; bool_facts; rewrite ?length_drop in *; try lia;
    (destruct (length _ - _) eqn:?; [done|]; bool_facts; lia).
Qed.

Lemma pipe_inv part set conns k lat d n err l l' :
  link_inv part set conns k l -> pipe_step part lat d n err l = Some l' -> link_inv part set conns k l'.
Proof.
  intros I E. pose proof (pipe_running _ _ _ _ _ _ _ _ _ _ I E) as Hp.
  destruct (pipe_frame _ _ _ _ _ _ _ E) as (Ep & Eo & Er & Es & Ea). rewrite Hp in Ep.
  split; rewrite ?Ep; try done.
  - eapply pipe_bound; [exact E|apply I].
  - intros _. destruct (li_client _ _ _ _ _ I) as [H|H]; [by rewrite Hp|left; by apply Ea|by right].
  - intros _. destruct (li_upstream _ _ _ _ _ I Hp) as [H|H]; [left; by apply Ea|by right].
  - intros todo sd Et Hin. destruct (li_cutting _ _ _ _ _ I todo sd Et Hin) as [H|H]; [by left|right; by apply Ea].
  - intros Ht Hs _. apply Ea, (li_cut _ _ _ _ _ I Ht Hs). by rewrite Hp.
  - intros Ht Hs _. destruct (li_late _ _ _ _ _ I Ht Hs Hp) as [H|H]; [left; by apply Ea|right].
    destruct d; [|cbn in Eo; by rewrite Eo]. eapply (pipe_quiet _ _ ToUpstream); [exact E| |exact H].
    apply (li_cut _ _ _ _ _ I Ht Hs). by rewrite Hp.
  - intros _ d'. destruct (decide (d' = d)) as [->|Hd]; [by eapply pipe_stream|].
    pose proof (li_stream _ _ _ _ _ I Hp d') as F. rewrite stream_flow in F |- *.
    assert (Hsd : d' = other_way d) by (by destruct d, d'). subst d'.
    assert (S1 : src (other_way d) = dst d) by (by destruct d). assert (S2 : dst (other_way d) = src d) by (by destruct d).
    rewrite S1, S2 in *. rewrite Eo, Er, Es, (proj1 (Ea _)). eapply flow_mono; [|exact F].
    intros w [H|H]; [left; by apply Ea|by right].
Qed.

Lemma arrive_inv part set conns k sd data l l' :
  link_inv part set conns k l -> arrive sd data l = Some l' -> link_inv part set conns k l'.
Proof.
  intros I E. unfold arrive in E. destruct (so_open (link_socket sd l)) eqn:Eo; [|done]. injection E as <-.
  set (s' := mkSocket _ _ _ _).
  assert (C : forall sd', closed sd' (set_socket sd s' l) <-> closed sd' l).
  { intros sd'. unfold closed, s'. destruct sd, sd'; cbn in *; rewrite ?Eo; done. }
  assert (P : lk_pc (set_socket sd s' l) = lk_pc l) by (by destruct sd).
  destruct I as [I1 I0 I2 I3 I4 I5 I6 I7 I8 I9 I10].
  split; rewrite ?P; try setoid_rewrite C; try done; try (destruct sd; exact I1 || exact I2 || exact I3 || exact I9).
  - intros sd'. specialize (I0 sd'). unfold s'. destruct sd, sd'; cbn in *; rewrite ?length_app; lia.
  - intros Hp d. specialize (I10 Hp d). rewrite stream_flow in I10 |- *. specialize (I0 (src d)).
    apply (flow_mono (fun w => closed (dst d) l \/ (part = true /\ being_cut set conns (k, dst d) /\ w = false)));
      [intros w [H|H]; [left; by apply C|by right]|]. unfold s'. destruct sd, d; cbn in *; try exact I10; by apply flow_arrive.
Qed.

(** Closing a socket. *)
Lemma close_inv part set conns k sd l :
  link_inv part set conns k l -> link_inv part set conns k (set_socket sd (close_socket (link_socket sd l)) l).
Proof.
  intros [I1 I0 I2 I3 I4 I5 I6 I7 I8 I9 I10]. set (l' := set_socket _ _ _).
  assert (C : forall sd', closed sd' l -> closed sd' l') by (intros sd'; unfold closed; destruct sd, sd'; cbn; done).
  assert (P : lk_pc l' = lk_pc l) by (by destruct sd).
  assert (A : forall sd', so_arrived (link_socket sd' l') = so_arrived (link_socket sd' l) /\ so_read (link_socket sd' l') = so_read (link_socket sd' l) /\
    so_sent (link_socket sd' l') = so_sent (link_socket sd' l)) by (intros sd'; destruct sd, sd'; done).
  assert (Q : forall d, link_pipe d l' = link_pipe d l) by (intros d; by destruct sd, d).
  split; rewrite ?P.
  - intros H. destruct (I1 H) as (H1 & H2 & H3 & H4). by destruct sd.
  - intros sd'. destruct (A sd') as (-> & -> & _). apply I0.
  - intros H. rewrite <-(I2 H). apply (A ClientSide).
  - intros H. rewrite <-(I3 H). apply (A UpstreamSide).
  - done.
  - intros H. destruct (I5 H); auto.
  - intros H. destruct (I6 H); auto.
  - intros todo sd' H1 H2. destruct (I7 todo sd' H1 H2); auto.
  - intros H1 H2 H3. auto.
  - intros H1 H2 H3. destruct (I9 H1 H2 H3) as [H|H]; [auto|right]. by rewrite <-H; apply (f_equal carried), (Q ToUpstream).
  - intros Hp d. specialize (I10 Hp d). rewrite stream_flow in I10 |- *. rewrite Q. destruct (A (src d)) as (-> & -> & _).
    destruct (A (dst d)) as (_ & _ & ->). eapply flow_mono; [|exact I10]. intros w [H|H]; [left; by apply C|by right].
Qed.

(** The steps of [handle] before the pipes run. *)
Lemma handle_move part set conns k l pc :
  link_inv part set conns k l -> lk_pc l <> HPiped -> lk_pc l <> HTrack -> pc <> HPiped -> pc <> HTrackUpstream ->
  (unread pc = true -> unread (lk_pc l) = true) -> (served pc = true -> part = false \/ served (lk_pc l) = true) ->
  link_inv part set conns k (set_handle pc l).
Proof.
  intros [I1 I0 I2 I3 I4 I5 I6 I7 I8 I9 I10] H1 H2 H3 H4 H5 H6. split; cbn [set_handle lk_pc]; try done.
  - intros _. by apply I1.
  - intros H. apply I2. auto.
  - intros H. by apply I4 in H.
  - intros _. by apply I5.
  - intros Ht Hs Hd. destruct (H6 Hd); [congruence|]. by apply I8.
Qed.

(** The dial. *)
Lemma handle_dial part set conns k l :
  link_inv part set conns k l -> lk_pc l = HDial ->
  link_inv part set conns k (mkLink HTrackUpstream (lk_client l) (mkSocket true [] 0 []) PipeIdle PipeIdle).
Proof.
  intros [I1 I0 I2 I3 I4 I5 I6 I7 I8 I9 I10] Hp. rewrite Hp in *. split; cbn [lk_pc lk_client lk_upstream lk_to_upstream lk_to_client]; try done.
  - intros _. by destruct (I1 ltac:(done)) as (? & _).
  - intros [|]; [apply (I0 ClientSide)|done].
  - intros H. by apply I4 in H.
  - intros _. by apply I5.
  - intros todo [|] H1 H2; [by apply (I7 todo ClientSide)|]. by apply I4 in H2.
Qed.

(** Bytes read from the client and thrown away. *)
Lemma handle_discard part set conns k l n pc :
  link_inv part set conns k l -> lk_pc l = HDiscard -> so_open (lk_client l) = true -> n <= length (so_pending (lk_client l)) ->
  pc = HDiscard \/ pc = HCloseClient ->
  link_inv part set conns k
    (set_socket ClientSide (mkSocket true (so_arrived (lk_client l)) (so_read (lk_client l) + n) (so_sent (lk_client l))) (set_handle pc l)).
Proof.
  intros I Hp Ho Hn Hpc. unfold so_pending in Hn. rewrite length_drop in Hn. pose proof (li_read _ _ _ _ _ I ClientSide) as Hr. cbn in Hr.
  assert (I' : link_inv part set conns k (set_handle pc l)).
  { apply handle_move; rewrite ?Hp; try done; destruct Hpc as [-> | ->]; done. }
  destruct I' as [I1 I0 I2 I3 I4 I5 I6 I7 I8 I9 I10]. split; try done.
  - intros [|]; cbn; [lia|apply (I0 UpstreamSide)].
  - destruct Hpc as [-> | ->]; done.
  - intros H. destruct (I5 H) as [H'|H']; [|by right]. cbn in H'. unfold closed in H'. cbn in H'. congruence.
  - intros todo [|] H1 H2; [|by apply (I7 todo UpstreamSide)]. destruct (I7 todo ClientSide H1 H2) as [H|H]; [by left|].
    unfold closed in H. cbn in H. congruence.
  - destruct Hpc as [-> | ->]; done.
  - destruct Hpc as [-> | ->]; done.
Qed.

(** What the flag, the call under way and the set of connections may become. *)
Lemma link_inv_env part set conns part' set' conns' k l :
  link_inv part set conns k l ->
  ((k, UpstreamSide) ∈ conns' -> lk_pc l = HPiped) ->
  (lk_pc l <> HTrack -> closed ClientSide l \/ (k, ClientSide) ∈ conns') ->
  (lk_pc l = HPiped -> closed UpstreamSide l \/ (k, UpstreamSide) ∈ conns') ->
  (forall todo sd, set' = SetCutting todo -> (k, sd) ∈ conns' -> (k, sd) ∈ todo \/ closed sd l) ->
  (part' = true -> set' = SetIdle -> served (lk_pc l) = true -> closed ClientSide l) ->
  (part' = true -> set' = SetIdle -> lk_pc l = HPiped -> closed UpstreamSide l \/ carried (lk_to_upstream l) = []) ->
  (forall sd, part = true -> being_cut set conns (k, sd) -> closed sd l \/ (part' = true /\ being_cut set' conns' (k, sd))) ->
  link_inv part' set' conns' k l.
Proof.
  intros [I1 I0 I2 I3 I4 I5 I6 I7 I8 I9 I10] H4 H5 H6 H7 H8 H9 H10. split; try done.
  intros Hp d. specialize (I10 Hp d). rewrite stream_flow in I10 |- *. eapply flow_mono; [|exact I10].
  intros w [H|(Ht & Hc & Hw)]; [by left|]. destruct (H10 (dst d) Ht Hc) as [H|[H H']]; auto.
Qed.

Lemma insert_exists {A} (k j : nat) (x : A) (l : list A) : is_Some (l !! j) -> is_Some (<[k := x]> l !! j).
Proof. by rewrite !lookup_lt_is_Some, length_insert. Qed.

Lemma set_link_inv k l l' p :
  proxy_inv p -> px_links p !! k = Some l -> link_inv (px_partitioned p) (px_set p) (px_conns p) k l' -> proxy_inv (set_link k l' p).
Proof.
  intros [P1 P2 P3 P4] Hk I. split; cbn [set_link px_links px_partitioned px_set px_conns]; try done.
  - intros k' l1 Hl. apply list_lookup_insert_Some in Hl as [(<- & -> & _)|[_ Hl]]; auto.
  - intros k' sd Hin. by eapply insert_exists, P2.
Qed.

(** [track] for connection [k], whose link becomes [l']. *)
Lemma track_inv k sd l l' p p' :
  proxy_inv p -> px_links p !! k = Some l -> track (k, sd) (set_link k l' p) = Some p' ->
  (forall conns', (k, sd) ∈ conns' -> (forall x, x ∈ px_conns p -> x ∈ conns') -> (forall x, x ∈ conns' -> x = (k, sd) \/ x ∈ px_conns p) ->
     (forall todo, px_set p <> SetCutting todo) -> link_inv (px_partitioned p) (px_set p) conns' k l') -> proxy_inv p'.
Proof.
  intros [P1 P2 P3 P4] Hk E HI. unfold track in E. cbn [set_link px_set px_conns px_partitioned px_links px_listening px_max_latency] in E.
  set (conns' := if decide _ then _ else _) in E.
  assert (C1 : (k, sd) ∈ conns') by (unfold conns'; case_decide; set_solver).
  assert (C2 : forall x, x ∈ px_conns p -> x ∈ conns') by (intros x; unfold conns'; case_decide; set_solver).
  assert (C3 : forall x, x ∈ conns' -> x = (k, sd) \/ x ∈ px_conns p) by (intros x; unfold conns'; case_decide; set_solver).
  assert (Hs : forall todo, px_set p <> SetCutting todo) by (intros todo Et; by rewrite Et in E).
  destruct (px_set p) eqn:Es; [| |by destruct (Hs todo)]; injection E as <-.
  all: split; cbn [px_links px_partitioned px_set px_conns]; rewrite ?Es; try done.
  all: try (intros k' sd' Hin; apply insert_exists; destruct (C3 _ Hin) as [[= -> ->]|Hin']; [by eexists|by eapply P2]).
  all: intros k' l1 Hl; apply list_lookup_insert_Some in Hl as [(<- & -> & _)|[Hne Hl]]; [by apply HI|].
  all: pose proof (P1 k' l1 Hl) as I; eapply link_inv_env; [exact I|..]; try done; try apply I.
  all: try (intros H; destruct (C3 _ H) as [[= -> _]|H']; [done|by apply (li_untracked _ _ _ _ _ I)]).
  all: try (intros H; first [destruct (li_client _ _ _ _ _ I H)|destruct (li_upstream _ _ _ _ _ I H)]; auto; fail).
  all: intros sd' Ht H; cbn in *; auto.
Qed.

Lemma handle_inv k n stop p p' : proxy_inv p -> handle_step k n stop p = Some p' -> proxy_inv p'.
Proof.
  intros P E. unfold handle_step in E. destruct (px_links p !! k) as [l|] eqn:Hk; [|done]. cbn [mbind option_bind] in E.
  pose proof (pi_links p P k l Hk) as I. destruct (lk_pc l) eqn:Hp; try done.
  - eapply track_inv; [exact P|exact Hk|exact E|]. intros conns' C1 C2 C3 Hs. destruct I as [I1 I0 I2 I3 I4 I5 I6 I7 I8 I9 I10]. rewrite Hp in *.
    split; cbn [set_handle lk_pc]; try done; [by intros _; apply I1| |by right|intros todo sd Et; by destruct (Hs todo)].
    intros H. destruct (C3 _ H) as [[=]|H']. by apply I4 in H'.
  - injection E as <-. eapply set_link_inv; [exact P|exact Hk|]. apply handle_move; rewrite ?Hp; try done; destruct (px_partitioned p); try done; by left.
  - destruct (so_open (lk_client l)) eqn:Eo; cbn [negb] in E.
    + destruct (n <=? _) eqn:En; [|done]. injection E as <-. apply Nat.leb_le in En. eapply set_link_inv; [exact P|exact Hk|].
      apply (handle_discard _ _ _ _ l n); try done. destruct stop; auto.
    + injection E as <-. eapply set_link_inv; [exact P|exact Hk|]. by apply handle_move; rewrite ?Hp.
  - injection E as <-. eapply set_link_inv; [exact P|exact Hk|]. apply (close_inv _ _ _ _ ClientSide (set_handle HReturned l)).
    by apply handle_move; rewrite ?Hp.
  - injection E as <-. eapply set_link_inv; [exact P|exact Hk|]. destruct stop; [|by apply handle_dial]. by apply handle_move; rewrite ?Hp.
  - eapply track_inv; [exact P|exact Hk|exact E|]. intros conns' C1 C2 C3 Hs. destruct I as [I1 I0 I2 I3 I4 I5 I6 I7 I8 I9 I10]. rewrite Hp in *.
    destruct (I1 ltac:(done)) as (S1 & S2 & _ & _). specialize (I2 eq_refl). specialize (I3 eq_refl).
    split; cbn [lk_pc lk_client lk_upstream lk_to_upstream lk_to_client]; try done.
    + intros _. destruct (I5 ltac:(done)); auto.
    + by right.
    + intros todo sd Et. by destruct (Hs todo).
    + intros _ _ _. by right.
    + intros _ d. left. destruct d; cbn; by rewrite ?I2, ?I3, ?S1, ?S2.
Qed.

(** One connection is closed. *)
Lemma cut_one_inv i todo k sd l p :
  proxy_inv p -> px_set p = SetCutting todo -> todo !! i = Some (k, sd) -> px_links p !! k = Some l ->
  proxy_inv (mkProxy (px_listening p) (px_partitioned p) (px_max_latency p) (px_conns p)
    (<[k := set_socket sd (close_socket (link_socket sd l)) l]> (px_links p)) (SetCutting (delete i todo))).
Proof.
  intros [P1 P2 P3 P4] Es Ei Hk. rewrite Es in *.
  assert (R : forall x, x ∈ todo -> x = (k, sd) \/ x ∈ delete i todo).
  { intros x Hx. rewrite (delete_Permutation _ _ _ Ei) in Hx. by apply elem_of_cons in Hx. }
  assert (R' : forall x, x ∈ delete i todo -> x ∈ todo).
  { intros x Hx. rewrite (delete_Permutation _ _ _ Ei). by right. }
  split; cbn [px_links px_partitioned px_set px_conns]; try done.
  - intros k' l1 Hl. assert (J : link_inv (px_partitioned p) (SetCutting todo) (px_conns p) k' l1 /\ (k' = k -> closed sd l1)).
    { apply list_lookup_insert_Some in Hl as [(<- & <- & _)|[Hne Hl]].
      - split; [by apply close_inv, P1|intros _; by destruct sd].
      - split; [by apply P1|]. by intros ->. }
    destruct J as [I Hc]. eapply link_inv_env; [exact I|..]; try done; try apply I.
    + intros todo' sd' [= <-] Hin. destruct (li_cutting _ _ _ _ _ I _ sd' eq_refl Hin) as [H|H]; [|by right].
      destruct (R _ H) as [[= -> ->]|H']; [right; auto|by left].
    + intros sd' Ht H. destruct (R _ H) as [[= -> ->]|H']; [left; auto|right; by split].
  - intros k' sd' Hin. by eapply insert_exists, P2.
  - intros _. by apply P3.
  - intros todo' x [= <-] Hx. eapply P4; [done|auto].
Qed.

Lemma cut_inv i p p' : proxy_inv p -> cut_step i p = Some p' -> proxy_inv p'.
Proof.
  intros P E. unfold cut_step in E. destruct P as [P1 P2 P3 P4]. destruct (px_set p) as [| |[|c todo]] eqn:Es; [done|..].
  - injection E as <-. split; cbn [px_links px_partitioned px_set px_conns]; try done; [|auto|by intros todo c [= <-]].
    intros k l Hl. pose proof (P1 k l Hl) as I. eapply link_inv_env; [exact I|..]; try done; try apply I.
    + intros todo sd [= <-]. by left.
    + intros sd Ht H. right. by split.
  - injection E as <-. split; cbn [px_links px_partitioned px_set px_conns]; try done; [|intros k sd H; by apply elem_of_nil in H].
    intros k l Hl. pose proof (P1 k l Hl) as I.
    assert (Cl : forall sd, closed sd l \/ (k, sd) ∈ px_conns p -> closed sd l).
    { intros sd [H|H]; [done|]. destruct (li_cutting _ _ _ _ _ I [] sd eq_refl H) as [H'|H']; [by apply elem_of_nil in H'|done]. }
    assert (C5 : lk_pc l <> HTrack -> closed ClientSide l) by (intros H; apply Cl, (li_client _ _ _ _ _ I H)).
    assert (C6 : lk_pc l = HPiped -> closed UpstreamSide l) by (intros H; apply Cl, (li_upstream _ _ _ _ _ I H)).
    eapply link_inv_env; [exact I|..]; try done.
    + intros H. by apply elem_of_nil in H.
    + intros H. left. auto.
    + intros H. left. auto.
    + intros _ _ H. apply C5. intros H'. by rewrite H' in H.
    + intros _ _ H. left. auto.
    + intros sd _ H. by apply elem_of_nil in H.
  - destruct ((c :: todo) !! i) as [[k sd]|] eqn:Ei; [|done]. cbn [mbind option_bind] in E.
    destruct (px_links p !! k) as [l|] eqn:Hk; [|done]. cbn [mbind option_bind] in E. injection E as <-.
    apply cut_one_inv; [split; rewrite ?Es; assumption|done..].
Qed.

Lemma proxy_step_inv ev p p' : proxy_inv p -> proxy_step ev p = Some p' -> proxy_inv p'.
Proof.
  intros P E. destruct ev as [on|i| | |k n stop|k d n err|k sd data]; cbn [proxy_step] in E.
  - unfold SetPartitioned in E. destruct P as [P1 P2 P3 P4]. destruct (px_set p) eqn:Es; [|done..]. injection E as <-.
    split; cbn [px_links px_partitioned px_set px_conns]; try done; [|by destruct on|by destruct on].
    intros k l Hl. pose proof (P1 k l Hl) as I. eapply link_inv_env; [exact I|..]; try done; try apply I; by destruct on.
  - by eapply cut_inv.
  - injection E as <-. destruct P as [P1 P2 P3 P4]. by split.
  - unfold accept_step in E. destruct (px_listening p); [|done]. injection E as <-. destruct P as [P1 P2 P3 P4].
    split; cbn [px_links px_partitioned px_set px_conns]; try done.
    + intros k l Hl. apply lookup_app_Some in Hl as [Hl|[Hge Hl]]; [by apply P1|]. apply list_lookup_singleton_Some in Hl as [Hk <-].
      assert (k = length (px_links p)) as -> by lia.
      assert (N : forall sd, (length (px_links p), sd) ∉ px_conns p).
      { intros sd H. apply P2, lookup_lt_is_Some in H. lia. }
      split; cbn; try done; [by intros [|]|intros H; by destruct (N UpstreamSide)|intros todo sd _ H; by destruct (N sd)].
    + intros k sd H. apply P2, lookup_lt_is_Some in H. apply lookup_lt_is_Some. rewrite length_app. cbn. lia.
  - by eapply handle_inv.
  - destruct (px_links p !! k) as [l|] eqn:Hk; [|done]. cbn [mbind option_bind] in E. destruct (pipe_step _ _ _ _ _ l) as [l'|] eqn:El; [|done].
    cbn [mbind option_bind] in E. injection E as <-. eapply set_link_inv; [exact P|exact Hk|]. eapply pipe_inv; [by apply P|exact El].
  - destruct (px_links p !! k) as [l|] eqn:Hk; [|done]. cbn [mbind option_bind] in E. destruct (arrive sd data l) as [l'|] eqn:El; [|done].
    cbn [mbind option_bind] in E. injection E as <-. eapply set_link_inv; [exact P|exact Hk|]. eapply arrive_inv; [by apply P|exact El].
Qed.

Lemma proxy_run_inv evs p p' : proxy_inv p -> proxy_run evs p = Some p' -> proxy_inv p'.
Proof.
  revert p. induction evs as [|ev evs IH]; intros p P E; cbn [proxy_run] in E; [by injection E as <-|].
  destruct (proxy_step ev p) as [p1|] eqn:E1; [|done]. cbn [mbind option_bind] in E. eapply IH; [|exact E]. by eapply proxy_step_inv.
Qed.

Lemma new_proxy_inv lat : proxy_inv (NewProxy lat).
Proof. split; cbn; try done. intros k sd H. by apply elem_of_nil in H. Qed.

(** ** What a cut connection can do *)

(** Past the test of the flag. *)
Definition past_test (pc : HandlePc) : bool := match pc with HTrack | HLoad => false | _ => true end.

(** A connection being served whose client is closed, and which has nothing in
    hand for an open upstream. *)
Definition calm (l : Link) : Prop :=
  served (lk_pc l) = true -> closed ClientSide l /\ (lk_pc l = HPiped -> closed UpstreamSide l \/ carried (lk_to_upstream l) = []).

Definition same_sent (l l' : Link) : Prop := forall sd, so_sent (link_socket sd l') = so_sent (link_socket sd l).

(** What a step of some goroutine did to a calm connection. *)
Definition calm_step (l l' : Link) : Prop :=
  calm l' /\ same_sent l l' /\ (past_test (lk_pc l) = true -> past_test (lk_pc l') = true).

Lemma calm_refl l : calm l -> calm_step l l.
Proof. done. Qed.

Lemma calm_close l sd : calm l -> calm_step l (set_socket sd (close_socket (link_socket sd l)) l).
Proof.
  intros C. split; [|split; [by intros [|]; destruct sd|by destruct sd]]. intros Hs.
  destruct (C ltac:(by destruct sd)) as [H1 H2]. split; [by destruct sd|]. intros Hp. destruct (H2 ltac:(by destruct sd)); destruct sd; auto; by left.
Qed.

Lemma calm_pipe part set conns k lat d n err l l' :
  link_inv part set conns k l -> calm l -> pipe_step part lat d n err l = Some l' -> calm_step l l'.
Proof.
  intros I C E. pose proof (pipe_running _ _ _ _ _ _ _ _ _ _ I E) as Hp. destruct (C ltac:(by rewrite Hp)) as [Hc Hu]. specialize (Hu Hp).
  destruct (pipe_frame _ _ _ _ _ _ _ E) as (Ep & Eo & _ & Es & Ea).
  assert (Hd : closed (dst d) l \/ carried (link_pipe d l) = []) by (destruct d; cbn; auto).
  split; [|split].
  - intros _. split; [by apply Ea|]. intros _. destruct Hu as [Hu|Hu]; [left; by apply Ea|right].
    destruct d; [by eapply (pipe_quiet _ _ ToUpstream)|cbn in Eo; by rewrite Eo].
  - intros sd. pose proof (pipe_silent _ _ _ _ _ _ _ E Hd). destruct d, sd; cbn in *; done.
  - by rewrite Ep.
Qed.

Lemma calm_arrive sd data l l' : calm l -> arrive sd data l = Some l' -> calm_step l l'.
Proof.
  intros C E. unfold arrive in E. destruct (so_open (link_socket sd l)) eqn:Eo; [|done]. injection E as <-.
  split; [|split; [by intros [|]; destruct sd|by destruct sd]]. intros Hs. destruct (C ltac:(by destruct sd)) as [H1 H2]. unfold closed in *.
  destruct sd; cbn in *; [congruence|]. split; [done|]. intros Hp. destruct (H2 Hp); [congruence|by right].
Qed.

(** [handle], when the proxy is partitioned or the test is over. *)
Lemma calm_handle part set conns k l n stop p p' :
  link_inv part set conns k l -> calm l -> px_partitioned p = true \/ past_test (lk_pc l) = true -> px_links p !! k = Some l ->
  handle_step k n stop p = Some p' -> exists l', px_links p' !! k = Some l' /\ calm_step l l'.
Proof.
  intros I C Hpt Hk E. pose proof (lookup_lt_Some _ _ _ Hk) as Hlt. unfold handle_step in E. rewrite Hk in E. cbn [mbind option_bind] in E.
  assert (T : forall c l0, track c (set_link k l0 p) = Some p' -> px_links p' !! k = Some l0).
  { intros c l0 Et. unfold track in Et. destruct (px_set _); [..|done]; injection Et as <-; cbn; by apply list_lookup_insert_eq. }
  assert (L : forall l0, Some (set_link k l0 p) = Some p' -> px_links p' !! k = Some l0) by (intros l0 [= <-]; cbn; by apply list_lookup_insert_eq).
  unfold calm_step, calm, same_sent in *.
  destruct (lk_pc l) eqn:Hp; cbn in *; try discriminate E.
  - eexists. split; [by eapply T|]. cbn. split; [done|]. split; [by intros [|]|done].
  - eexists. split; [by eapply L|]. destruct Hpt as [-> |]; [|done]. cbn. split; [done|]. split; [by intros [|]|done].
  - destruct (so_open _); cbn [negb] in E; [destruct (n <=? _); [|done]|]; (eexists; split; [by eapply L|]); destruct stop; cbn; (split; [done|]); (split; [by intros [|]|done]).
  - eexists. split; [by eapply L|]. cbn. split; [done|]. split; [by intros [|]|done].
  - eexists. split; [by eapply L|]. destruct (C eq_refl) as [Hc _]. destruct (li_fresh _ _ _ _ _ I) as (S1 & S2 & _); [by rewrite Hp|].
    destruct stop; cbn; (split; [done|]); (split; [by intros [|]|done]).
  - eexists. split; [by eapply T|]. destruct (C eq_refl) as [Hc _]. cbn. split; [intros _; split; [done|by right]|]. split; [by intros [|]|done].
Qed.

(** Steps on other connections leave this one alone. *)
Lemma handle_other k j n stop p p' : handle_step j n stop p = Some p' -> j <> k -> px_links p' !! k = px_links p !! k.
Proof.
  intros E Hj. unfold handle_step in E. destruct (px_links p !! j) as [l|]; [|done]. cbn [mbind option_bind] in E.
  assert (T : forall c l0, track c (set_link j l0 p) = Some p' -> px_links p' !! k = px_links p !! k).
  { intros c l0 Et. unfold track in Et. destruct (px_set _); [..|done]; injection Et as <-; cbn; by apply list_lookup_insert_ne. }
  assert (L : forall l0, Some (set_link j l0 p) = Some p' -> px_links p' !! k = px_links p !! k) by (intros l0 [= <-]; cbn; by apply list_lookup_insert_ne).
  destruct (lk_pc l); try discriminate E; try (by eapply T); try (by eapply L).
  destruct (negb _); [by eapply L|]. destruct (n <=? _); [by eapply L|done].
Qed.

Lemma calm_proxy_step ev p p' k l :
  proxy_inv p -> px_links p !! k = Some l -> calm l -> px_partitioned p = true \/ past_test (lk_pc l) = true ->
  proxy_step ev p = Some p' -> exists l', px_links p' !! k = Some l' /\ calm_step l l'.
Proof.
  intros P Hk C Hpt E. pose proof (pi_links p P k l Hk) as I. pose proof (lookup_lt_Some _ _ _ Hk) as Hlt.
  destruct ev as [on|i| | |j n stop|j d n err|j sd data]; cbn [proxy_step] in E.
  - unfold SetPartitioned in E. destruct (px_set p); [|done..]. injection E as <-. exists l. by split; [|apply calm_refl].
  - unfold cut_step in E. destruct (px_set p) as [| |[|c todo]]; [done|injection E as <-; exists l; by split; [|apply calm_refl]..|].
    destruct (_ !! i) as [[j sd]|]; [|done]. cbn [mbind option_bind] in E. destruct (px_links p !! j) as [lj|] eqn:Hj; [|done].
    cbn [mbind option_bind] in E. injection E as <-. cbn [px_links]. destruct (decide (j = k)) as [->|Hne].
    + rewrite Hk in Hj. injection Hj as <-. rewrite list_lookup_insert_eq by done. eexists. split; [done|by apply calm_close].
    + rewrite list_lookup_insert_ne by done. exists l. by split; [|apply calm_refl].
  - injection E as <-. exists l. by split; [|apply calm_refl].
  - unfold accept_step in E. destruct (px_listening p); [|done]. injection E as <-. exists l. cbn [px_links].
    rewrite lookup_app_l by done. by split; [|apply calm_refl].
  - destruct (decide (j = k)) as [->|Hne]; [by eapply calm_handle|]. exists l. rewrite (handle_other _ _ _ _ _ _ E Hne). by split; [|apply calm_refl].
  - destruct (px_links p !! j) as [lj|] eqn:Hj; [|done]. cbn [mbind option_bind] in E. destruct (pipe_step _ _ _ _ _ lj) as [l'|] eqn:El; [|done].
    cbn [mbind option_bind] in E. injection E as <-. cbn [set_link px_links]. destruct (decide (j = k)) as [->|Hne].
    + rewrite Hk in Hj. injection Hj as <-. rewrite list_lookup_insert_eq by done. exists l'. split; [done|]. by eapply calm_pipe.
    + rewrite list_lookup_insert_ne by done. exists l. by split; [|apply calm_refl].
  - destruct (px_links p !! j) as [lj|] eqn:Hj; [|done]. cbn [mbind option_bind] in E. destruct (arrive sd data lj) as [l'|] eqn:El; [|done].
    cbn [mbind option_bind] in E. injection E as <-. cbn [set_link px_links]. destruct (decide (j = k)) as [->|Hne].
    + rewrite Hk in Hj. injection Hj as <-. rewrite list_lookup_insert_eq by done. exists l'. split; [done|]. by eapply calm_arrive.
    + rewrite list_lookup_insert_ne by done. exists l. by split; [|apply calm_refl].
Qed.

(** Connections come from the accept loop, and only [SetPartitioned] changes the
    flag. *)
Lemma step_links ev p p' :
  proxy_step ev p = Some p' ->
  (px_partitioned p' = px_partitioned p \/ ev = EvSet (px_partitioned p')) /\
  forall j l', px_links p !! j = None -> px_links p' !! j = Some l' -> l' = new_link.
Proof.
  assert (T : forall (j k : nat) (l0 l' : Link), px_links p !! j = None -> <[k := l0]> (px_links p) !! j = Some l' -> l' = new_link).
  { intros j k l0 l' H1 H2. assert (is_Some (px_links p !! j)) as [? H3] by (rewrite lookup_lt_is_Some, <-(length_insert _ k l0); by apply lookup_lt_is_Some).
    congruence. }
  assert (Tr : forall c k l0, track c (set_link k l0 p) = Some p' -> px_partitioned p' = px_partitioned p /\ px_links p' = <[k := l0]> (px_links p)).
  { intros c k l0 Et. unfold track in Et. destruct (px_set _); [..|done]; by injection Et as <-. }
  intros E. destruct ev as [on|i| | |j n stop|j d n err|j sd data]; cbn [proxy_step] in E.
  - unfold SetPartitioned in E. destruct (px_set p); [|done..]. injection E as <-. cbn. split; [by right|]. intros j l' H1 H2. congruence.
  - unfold cut_step in E. destruct (px_set p) as [| |[|c todo]]; [done|injection E as <-; (split; [by left|]); cbn; intros; congruence..|].
    destruct (_ !! i) as [[j sd]|]; [|done]. cbn [mbind option_bind] in E. destruct (px_links p !! j) as [lj|]; [|done].
    cbn [mbind option_bind] in E. injection E as <-. split; [by left|]. intros *. apply T.
  - injection E as <-. split; [by left|]. cbn. intros; congruence.
  - unfold accept_step in E. destruct (px_listening p); [|done]. injection E as <-. split; [by left|]. cbn [px_links].
    intros j l' H1 H2. apply lookup_app_Some in H2 as [H2|[_ H2]]; [congruence|]. by apply list_lookup_singleton_Some in H2 as [_ <-].
  - unfold handle_step in E. destruct (px_links p !! j) as [l|]; [|done]. cbn [mbind option_bind] in E.
    destruct (lk_pc l); repeat case_hyp E; try discriminate E; try (injection E as <-; split; [by left|]; intros *; apply T);
      destruct (Tr _ _ _ E) as [-> ->]; (split; [by left|]); intros *; apply T.
  - destruct (px_links p !! j) as [lj|]; [|done]. cbn [mbind option_bind] in E. destruct (pipe_step _ _ _ _ _ lj); [|done].
    cbn [mbind option_bind] in E. injection E as <-. split; [by left|]. intros *. apply T.
  - destruct (px_links p !! j) as [lj|]; [|done]. cbn [mbind option_bind] in E. destruct (arrive sd data lj); [|done].
    cbn [mbind option_bind] in E. injection E as <-. split; [by left|]. intros *. apply T.
Qed.

(** Once served and calm, for ever. *)
Lemma calm_run evs p p' k l :
  proxy_inv p -> px_links p !! k = Some l -> calm l -> past_test (lk_pc l) = true -> proxy_run evs p = Some p' ->
  exists l', px_links p' !! k = Some l' /\ same_sent l l'.
Proof.
  revert p l. induction evs as [|ev evs IH]; intros p l P Hk C Hp E; cbn [proxy_run] in E; [injection E as <-; by exists l|].
  destruct (proxy_step ev p) as [p1|] eqn:E1; [|done]. cbn [mbind option_bind] in E.
  destruct (calm_proxy_step ev p p1 k l P Hk C (or_intror Hp) E1) as (l1 & H1 & C1 & S1 & T1).
  destruct (IH p1 l1 (proxy_step_inv _ _ _ P E1) H1 C1 (T1 Hp) E) as (l' & H' & S'). exists l'. split; [done|].
  intros sd. by rewrite S', S1.
Qed.

(** What connection [k] has forwarded to that side. *)
Definition forwarded (p : Proxy) (k : nat) (sd : Side) : bytes :=
  match px_links p !! k with Some l => so_sent (link_socket sd l) | None => [] end.

(** While the flag is set, nothing is. *)
Lemma calm_partition evs p p' :
  proxy_inv p -> px_partitioned p = true -> (forall k l, px_links p !! k = Some l -> calm l) -> EvSet false ∉ evs -> proxy_run evs p = Some p' ->
  forall k sd, forwarded p' k sd = forwarded p k sd.
Proof.
  revert p. induction evs as [|ev evs IH]; intros p P Ht C Hev E k sd; cbn [proxy_run] in E; [by injection E as <-|].
  destruct (proxy_step ev p) as [p1|] eqn:E1; [|done]. cbn [mbind option_bind] in E. rewrite not_elem_of_cons in Hev. destruct Hev as [Hne Hev].
  pose proof (proxy_step_inv _ _ _ P E1) as P1.
  destruct (step_links _ _ _ E1) as [F N].
  assert (T1 : px_partitioned p1 = true) by (destruct F as [->|Ee]; [done|destruct (px_partitioned p1); congruence]).
  assert (C1 : forall j l1, px_links p1 !! j = Some l1 -> calm l1).
  { intros j l1 H1. destruct (px_links p !! j) as [l|] eqn:Hj; [|rewrite (N j l1 Hj H1); done].
    destruct (calm_proxy_step ev p p1 j l P Hj (C j l Hj) (or_introl Ht) E1) as (l2 & H2 & C2 & _). rewrite H1 in H2. by injection H2 as ->. }
  rewrite (IH p1 P1 T1 C1 Hev E). unfold forwarded. destruct (px_links p !! k) as [l|] eqn:Hk.
  - destruct (calm_proxy_step ev p p1 k l P Hk (C k l Hk) (or_introl Ht) E1) as (l2 & -> & _ & S2 & _). apply S2.
  - destruct (px_links p1 !! k) as [l1|] eqn:H1; [|done]. rewrite (N k l1 Hk H1). by destruct sd.
Qed.

(** After a call of [SetPartitioned(true)] every connection is calm. *)
Lemma partition_calm p : proxy_inv p -> px_partitioned p = true -> px_set p = SetIdle -> forall k l, px_links p !! k = Some l -> calm l.
Proof.
  intros P Ht Hs k l Hk Hsv. pose proof (pi_links p P k l Hk) as I. split; [by apply (li_cut _ _ _ _ _ I)|by apply (li_late _ _ _ _ _ I)].
Qed.

(** ** Properties *)

(** The steps a call of [SetPartitioned(true)] has left. *)
Definition cut_left (p : Proxy) : nat :=
  match px_set p with SetIdle => 0 | SetLocking => length (px_conns p) + 2 | SetCutting todo => length todo + 1 end.

Lemma cut_progress p : proxy_inv p -> px_set p <> SetIdle -> exists p', cut_step 0 p = Some p' /\ cut_left p = S (cut_left p').
Proof.
  intros P Hs. unfold cut_step, cut_left. destruct (px_set p) as [| |[|[k sd] todo]] eqn:Es; [done|..].
  - eexists. split; [done|]. cbn. lia.
  - eexists. by split.
  - destruct (pi_conns p P k sd) as [l Hl]; [eapply (pi_todo p P); [exact Es|left]|]. cbn. rewrite Hl. eexists. by split.
Qed.

Lemma cut_completes p : proxy_inv p -> exists p', proxy_run (replicate (cut_left p) (EvCut 0)) p = Some p' /\ px_set p' = SetIdle.
Proof.
  intros P. remember (cut_left p) as n eqn:En. revert p P En. induction n as [|n IH]; intros p P En.
  - exists p. split; [done|]. unfold cut_left in En. destruct (px_set p) as [| |[|]]; cbn in *; [done|lia..].
  - destruct (cut_progress p P) as (p1 & E1 & En1); [intros Hs; unfold cut_left in En; by rewrite Hs in En|].
    rewrite En1 in En. injection En as En. cbn [replicate proxy_run proxy_step]. rewrite E1. cbn [mbind option_bind].
    apply IH; [|done]. by eapply (proxy_step_inv (EvCut 0)).
Qed.

(** C34: A partition cuts the link, however its goroutines interleave.  A call of
    [SetPartitioned(true)] is never blocked and returns.  From its return until
    the partition is healed no connection, old or new, forwards a byte in either
    direction; and the connections that were being forwarded when it returned
    never forward another byte, even after the partition is healed, although some
    of their chunks may still wait out their delay. *)
Theorem proxy_partition_cuts lat evs p :
  proxy_run evs (NewProxy lat) = Some p ->
  (exists p1, proxy_run (replicate (cut_left p) (EvCut 0)) p = Some p1 /\ px_set p1 = SetIdle) /\
  (px_partitioned p = true -> px_set p = SetIdle -> forall evs' p', proxy_run evs' p = Some p' ->
     (EvSet false ∉ evs' -> forall k sd, forwarded p' k sd = forwarded p k sd) /\
     (forall k l, px_links p !! k = Some l -> served (lk_pc l) = true -> forall sd, forwarded p' k sd = forwarded p k sd)).
Proof.
  intros E. pose proof (proxy_run_inv _ _ _ (new_proxy_inv lat) E) as P. split; [by apply cut_completes|].
  intros Ht Hs evs' p' E'. pose proof (partition_calm p P Ht Hs) as C.
  split; [intros Hev; by eapply calm_partition|]. intros k l Hk Hsv sd.
  destruct (calm_run evs' p p' k l P Hk (C k l Hk)) as (l' & Hl' & S); [by destruct (lk_pc l)|done|].
  unfold forwarded. rewrite Hk, Hl'. apply S.
Qed.

(** A proxy with a delay; a request has been read and waits out its delay when
    the link is partitioned. *)
Definition proxy_example : list ProxyEv :=
  [EvAccept; EvHandle 0 0 false; EvHandle 0 0 false; EvHandle 0 0 false; EvHandle 0 0 false; EvArrive 0 ClientSide (lit "PING");
   EvPipe 0 ToUpstream 4 false; EvSet true; EvCut 0; EvCut 1; EvCut 0; EvCut 0].

(** The partition is healed and the delayed pipe goes on. *)
Definition proxy_example_after : list ProxyEv :=
  [EvSet false; EvPipe 0 ToUpstream 0 false; EvPipe 0 ToUpstream 0 false; EvPipe 0 ToUpstream 4 false; EvPipe 0 ToUpstream 0 false].

Definition proxy_at (evs : list ProxyEv) : Proxy := default (NewProxy 5) (proxy_run evs (NewProxy 5)).

Lemma proxy_partition_cuts_witness :
  exists p p', proxy_run proxy_example (NewProxy 5) = Some p /\ proxy_run proxy_example_after p = Some p' /\
    px_partitioned p = true /\ px_partitioned p' = false /\ forwarded p' 0 UpstreamSide = forwarded p 0 UpstreamSide.
Proof.
  exists (proxy_at proxy_example), (proxy_at (proxy_example ++ proxy_example_after)).
  assert (E : proxy_run proxy_example (NewProxy 5) = Some (proxy_at proxy_example)) by (vm_compute; reflexivity).
  assert (E' : proxy_run proxy_example_after (proxy_at proxy_example) = Some (proxy_at (proxy_example ++ proxy_example_after))) by (vm_compute; reflexivity).
  assert (Hk : px_links (proxy_at proxy_example) !! 0 = Some (default new_link (px_links (proxy_at proxy_example) !! 0))) by (vm_compute; reflexivity).
  split; [exact E|]. split; [exact E'|]. split; [vm_compute; reflexivity|]. split; [vm_compute; reflexivity|].
  apply (proj2 (proj2 (proxy_partition_cuts 5 proxy_example _ E) ltac:(vm_compute; reflexivity) ltac:(vm_compute; reflexivity) proxy_example_after _ E')
    0 _ Hk). vm_compute. reflexivity.
Defined.

(** The proxy neither alters, reorders nor invents data: what a connection has
    forwarded is at any time a prefix of what its sender has sent, also across
    partitions; and outside a partition, as long as the pipe runs and its
    destination is open, what was read of the sender is forwarded but for the
    chunk in hand. *)
Theorem proxy_stream_prefix lat evs p k l d :
  proxy_run evs (NewProxy lat) = Some p -> px_links p !! k = Some l ->
  let sent := so_sent (link_socket (dst d) l) in
  let from := link_socket (src d) l in
  lk_pc l = HPiped ->
  sent `prefix_of` so_arrived from /\
  (px_partitioned p = false -> ending (link_pipe d l) = false -> so_open (link_socket (dst d) l) = true ->
     take (so_read from) (so_arrived from) = sent ++ carried (link_pipe d l)).
Proof.
  intros E Hk sent from Hp. pose proof (proxy_run_inv _ _ _ (new_proxy_inv lat) E) as P.
  pose proof (li_stream _ _ _ _ _ (pi_links p P k l Hk) Hp d) as F. rewrite stream_flow in F. split; [by eapply flow_prefix|].
  intros Hf He Ho. destruct F as [F|[_ [?|[Hc|[? _]]]]]; [done|congruence| |congruence]. unfold closed in Hc. congruence.
Qed.

(** The request is written after its delay, and a second one has arrived. *)
Definition proxy_forwarding : list ProxyEv :=
  take 7 proxy_example ++ [EvPipe 0 ToUpstream 0 false; EvArrive 0 ClientSide (lit "+OK"); EvPipe 0 ToUpstream 0 false; EvPipe 0 ToUpstream 4 false].

Lemma proxy_stream_prefix_witness :
  proxy_run proxy_forwarding (NewProxy 5) = Some (proxy_at proxy_forwarding) /\
  forwarded (proxy_at proxy_forwarding) 0 UpstreamSide = lit "PING" /\ lit "PING" `prefix_of` lit "PING+OK".
Proof.
  assert (E : proxy_run proxy_forwarding (NewProxy 5) = Some (proxy_at proxy_forwarding)) by (vm_compute; reflexivity).
  assert (Hk : px_links (proxy_at proxy_forwarding) !! 0 = Some (default new_link (px_links (proxy_at proxy_forwarding) !! 0))) by (vm_compute; reflexivity).
  split; [exact E|]. split; [vm_compute; reflexivity|].
  destruct (proxy_stream_prefix 5 proxy_forwarding _ 0 _ ToUpstream E Hk) as [P _]; [vm_compute; reflexivity|].
  vm_compute in P. exact P.
Defined.
