(* ===== verification/ChaosNemesis.v ===== *)
(** * The nemesis of the chaos test

    Models the part of chaos/main.go that starts the cluster, injects faults and
    cleans up: [cluster.start], [stop], [isolate], [signal], [restart] and
    [runNemesis], over the proxies of ChaosProxy.v.  What the nemesis executes is
    a list of statements computed from its random draws; the statements run one
    by one, interleaved with the goroutines of all the proxies.  Processes are
    started or not, alive or not, and paused or not; what a node does is not
    part of this file.

    The theorems say that the test injects the faults it means to: at any time at
    most one node is cut off, paused or down, so the other two can reach each
    other; while the nemesis holds a partition of a node, nothing is forwarded to
    or from that node, whatever the proxies were doing; when the nemesis is done
    every link is healed and every node runs; and whichever way [run] ends, no
    process and no proxy outlives it. *)

From S2P Require Import Prelude Numerals ChaosProxy.

Local Open Scope nat_scope.

(** ** The cluster under test *)

Definition numNodes : nat := 3.

Definition nodeId (i : nat) : bytes := lit "n" ++ to_dec (Z.of_nat i + 1).

(** [struct node]: whether a process was ever started for it, and the state of
    that process. *)
Record Proc := mkProc { pr_started : bool; pr_alive : bool; pr_paused : bool }.

Definition not_started : Proc := mkProc false false false.
Definition running : Proc := mkProc true true false.

(** The directed links, in the order [start] makes their proxies. *)
Definition links : list (nat * nat) :=
  filter (fun ft => ft.1 <> ft.2) (f ← seq 0 numNodes; t ← seq 0 numNodes; [(f, t)]).

(** ** Statements *)

Inductive Signal := SIGSTOP | SIGCONT | SIGKILL.

Inductive Stmt :=
  | SLog (msg : bytes)
  | SSleep                           (** sleepOrStop *)
  | SSet (from to : nat) (on : bool) (** proxies[from][to].SetPartitioned(on) *)
  | SReturn (from to : nat)          (** the same call, once begun *)
  | SListenerClose (from to : nat)
  | SSignal (i : nat) (sig : Signal)
  | SExited (i : nat)                (** <-n.exited *)
  | SLaunch (i : nat) (ok : bool).   (** launch; [ok] if the process was started *)

#[export] Instance Signal_eq_dec : EqDecision Signal.
Proof. solve_decision. Defined.
#[export] Instance Stmt_eq_dec : EqDecision Stmt.
Proof. solve_decision. Defined.

Record ChaosCluster := mkChaos {
  cc_procs : list Proc;
  cc_proxies : gmap (nat * nat) Proxy;
  cc_todo : list Stmt
}.

Definition deliver (sig : Signal) (p : Proc) : Proc :=
  if pr_alive p then
    match sig with
    | SIGSTOP => mkProc (pr_started p) true true
    | SIGCONT => mkProc (pr_started p) true false
    | SIGKILL => mkProc (pr_started p) false false
    end
  else p.

(** The next statement of the goroutine that controls the cluster; [None] if it
    has to wait. *)
Definition stmt_step (c : ChaosCluster) : option ChaosCluster :=
  match cc_todo c with
  | [] => None
  | SLog _ :: rest | SSleep :: rest => Some (mkChaos (cc_procs c) (cc_proxies c) rest)
  | SSet f t on :: rest =>
      p ← cc_proxies c !! (f, t);
      p' ← SetPartitioned on p;
      Some (mkChaos (cc_procs c) (<[(f, t) := p']> (cc_proxies c)) (SReturn f t :: rest))
  | SReturn f t :: rest =>
      p ← cc_proxies c !! (f, t);
      match px_set p with SetIdle => Some (mkChaos (cc_procs c) (cc_proxies c) rest) | _ => None end
  | SListenerClose f t :: rest =>
      p ← cc_proxies c !! (f, t);
      p' ← proxy_step EvListenerClose p;
      Some (mkChaos (cc_procs c) (<[(f, t) := p']> (cc_proxies c)) rest)
  | SSignal i sig :: rest => Some (mkChaos (alter (deliver sig) i (cc_procs c)) (cc_proxies c) rest)
  | SExited i :: rest =>
      p ← cc_procs c !! i;
      if pr_alive p then None else Some (mkChaos (cc_procs c) (cc_proxies c) rest)
  | SLaunch i ok :: rest => Some (mkChaos (if ok then <[i := running]> (cc_procs c) else cc_procs c) (cc_proxies c) rest)
  end.

(** The steps of a proxy's own goroutines, and the rest of a call of
    [SetPartitioned]. *)
Definition own_event (ev : ProxyEv) : bool := match ev with EvSet _ | EvListenerClose => false | _ => true end.

Inductive ChaosEv := CStmt | CProxy (from to : nat) (ev : ProxyEv).

Definition chaos_step (ev : ChaosEv) (c : ChaosCluster) : option ChaosCluster :=
  match ev with
  | CStmt => stmt_step c
  | CProxy f t pev =>
      if own_event pev then
        p ← cc_proxies c !! (f, t);
        p' ← proxy_step pev p;
        Some (mkChaos (cc_procs c) (<[(f, t) := p']> (cc_proxies c)) (cc_todo c))
      else None
  end.

Fixpoint chaos_run (evs : list ChaosEv) (c : ChaosCluster) : option ChaosCluster :=
  match evs with
  | [] => Some c
  | ev :: rest => c' ← chaos_step ev c; chaos_run rest c'
  end.

(** ** Starting and stopping *)

(** The loops of [start]; each ends at the first failure.  [listens] tells which
    proxies can listen, [launches] which processes can be started. *)
Definition start_proxies (listens : nat * nat -> bool) (latency : Z) : gmap (nat * nat) Proxy * bool :=
  foldl (fun '(m, ok) ft => if ok && listens ft then (<[ft := NewProxy latency]> m, true) else (m, false)) (∅, true) links.

Definition start_nodes (launches : nat -> bool) (procs : list Proc) : list Proc * bool :=
  foldl (fun '(ps, ok) i => if ok && launches i then (<[i := running]> ps, true) else (ps, false)) (procs, true) (seq 0 numNodes).

(** [start]; [ready] is the answer of [waitReady]. *)
Definition cluster_start (listens : nat * nat -> bool) (launches : nat -> bool) (ready : bool) (latency : Z) : ChaosCluster * bool :=
  let nodes := replicate numNodes not_started in
  let '(proxies, ok) := start_proxies listens latency in
  if negb ok then (mkChaos nodes proxies [], false)
  else
    let '(procs, ok) := start_nodes launches nodes in
    (mkChaos procs proxies [], ok && ready).

(** [stop]: the nodes that were started, then the proxies there are. *)
Definition cluster_stop (c : ChaosCluster) : list Stmt :=
  (i ← seq 0 numNodes;
   match cc_procs c !! i with
   | Some p => if pr_started p then [SSignal i SIGCONT; SSignal i SIGKILL; SExited i] else []
   | None => []
   end) ++
  (ft ← links;
   match cc_proxies c !! ft with
   | Some _ => [SListenerClose ft.1 ft.2; SSet ft.1 ft.2 true]
   | None => []
   end).

(** ** The nemesis *)

Definition isolate (i : nat) (on : bool) : list Stmt :=
  j ← seq 0 numNodes; if j =? i then [] else [SSet i j on; SSet j i on].

(** [restart]; [err] is what [launch] returned, if it failed. *)
Definition restart (i : nat) (err : option bytes) : list Stmt :=
  [SSignal i SIGKILL; SExited i; SLaunch i (bool_decide (err = None))].

(** The draws of one round, and the error of its restart: [launch] failed, or
    the new process did not answer. *)
Record Draw := mkDraw { dr_target : nat; dr_kind : nat; dr_launch : option bytes; dr_ready : option bytes }.

Definition restart_error (d : Draw) : option bytes :=
  match dr_launch d with Some e => Some e | None => dr_ready d end.

Definition nemesis_round (kinds : list bytes) (d : Draw) : list Stmt :=
  let target := dr_target d in
  match kinds !! dr_kind d with
  | None => []
  | Some kind =>
      if bytes_eqb kind (lit "partition") then
        SLog (lit "partition: isolate " ++ nodeId target) ::
        isolate target true ++ SSleep :: isolate target false ++ [SLog (lit "heal partition")]
      else if bytes_eqb kind (lit "pause") then
        [SLog (lit "pause " ++ nodeId target ++ lit " (SIGSTOP)"); SSignal target SIGSTOP; SSleep; SSignal target SIGCONT;
         SLog (lit "resume " ++ nodeId target)]
      else if bytes_eqb kind (lit "kill") then
        SLog (lit "crash and restart " ++ nodeId target ++ lit " (memory lost)") :: restart target (dr_launch d) ++
        match restart_error d with Some e => [SLog (lit "restart failed: " ++ e)] | None => [] end
      else []
  end.

(** [runNemesis] until it is told to stop; a hold cut short by the stop still
    heals. *)
Definition runNemesis (kinds : list bytes) (draws : list Draw) : list Stmt :=
  match kinds with
  | [] => []
  | k :: _ => if bytes_eqb k (lit "none") then [] else draws ≫= nemesis_round kinds
  end.

(** ** What has been executed *)

(** The links cut and the processes after these statements. *)
Definition cut_after (cut : gset (nat * nat)) (done : list Stmt) : gset (nat * nat) :=
  foldl (fun s x => match x with SSet f t on => if on then {[(f, t)]} ∪ s else s ∖ {[(f, t)]} | _ => s end) cut done.

Definition procs_after (procs : list Proc) (done : list Stmt) : list Proc :=
  foldl (fun ps x => match x with
                     | SSignal i sig => alter (deliver sig) i ps
                     | SLaunch i true => <[i := running]> ps
                     | _ => ps
                     end) procs done.

Lemma cut_after_app s l1 l2 : cut_after s (l1 ++ l2) = cut_after (cut_after s l1) l2.
Proof. unfold cut_after. by rewrite foldl_app. Qed.

Lemma procs_after_app ps l1 l2 : procs_after ps (l1 ++ l2) = procs_after (procs_after ps l1) l2.
Proof. unfold procs_after. by rewrite foldl_app. Qed.

Lemma procs_after_length ps l : length (procs_after ps l) = length ps.
Proof.
  revert ps. induction l as [|x l IH]; intros ps; [done|]. change (length (procs_after (procs_after ps [x]) l) = length ps).
  rewrite IH. destruct x as [| | | | |i sig|i|i []]; cbn; rewrite ?length_alter, ?length_insert; done.
Qed.

(** A proxy as the statements left it. *)
Record proxy_as (cut : bool) (open : bool) (p : Proxy) : Prop := {
  pa_inv : proxy_inv p;
  pa_cut : px_partitioned p = cut;
  pa_open : px_listening p = open
}.

Section program.
Variables (procs : list Proc) (cut : gset (nat * nat)) (at_links : gset (nat * nat)) (prog : list Stmt).

(** The statements [done] have been executed, the call at the front of the list
    perhaps not yet to its end. *)
Record executed_so_far (done : list Stmt) (c : ChaosCluster) : Prop := {
  xs_split : exists rest, prog = done ++ rest /\
    ((cc_todo c = rest /\ forall ft p, cc_proxies c !! ft = Some p -> px_set p = SetIdle) \/
     (exists f t on, cc_todo c = SReturn f t :: rest /\ (f, t) ∈ at_links /\ last done = Some (SSet f t on) /\
        forall ft p, cc_proxies c !! ft = Some p -> ft <> (f, t) -> px_set p = SetIdle));
  xs_procs : cc_procs c = procs_after procs done;
  xs_dom : dom (cc_proxies c) = at_links;
  xs_proxies : forall ft p, cc_proxies c !! ft = Some p ->
    proxy_as (bool_decide (ft ∈ cut_after cut done)) (negb (bool_decide (SListenerClose ft.1 ft.2 ∈ done))) p
}.

Definition chaos_ok (c : ChaosCluster) : Prop := exists done, executed_so_far done c.

Lemma own_event_flags ev p p' : own_event ev = true -> proxy_step ev p = Some p' -> px_partitioned p' = px_partitioned p /\ px_listening p' = px_listening p.
Proof.
  intros Ho E. destruct ev as [on|i| | |j n stop|j d n err|j sd data]; try done; cbn [proxy_step] in E.
  - unfold cut_step in E. destruct (px_set p) as [| |[|c todo]]; [done|by injection E as <-..|].
    destruct (_ !! i) as [[j sd]|]; [|done]. cbn [mbind option_bind] in E. destruct (px_links p !! j); [|done]. by injection E as <-.
  - unfold accept_step in E. destruct (px_listening p) eqn:El; [|done]. by injection E as <-.
  - unfold handle_step in E. destruct (px_links p !! j) as [l|]; [|done]. cbn [mbind option_bind] in E.
    assert (T : forall c l0, track c (set_link j l0 p) = Some p' -> px_partitioned p' = px_partitioned p /\ px_listening p' = px_listening p).
    { intros c l0 Et. unfold track in Et. destruct (px_set _); [..|done]; by injection Et as <-. }
    destruct (lk_pc l); repeat case_hyp E; try discriminate E; try (by injection E as <-); by eapply T.
  - destruct (px_links p !! j); [|done]. cbn [mbind option_bind] in E. destruct (pipe_step _ _ _ _ _ _); [|done]. by injection E as <-.
  - destruct (px_links p !! j); [|done]. cbn [mbind option_bind] in E. destruct (arrive _ _ _); [|done]. by injection E as <-.
Qed.

Lemma own_event_set ev p p' : own_event ev = true -> proxy_step ev p = Some p' -> px_set p = SetIdle -> px_set p' = SetIdle.
Proof.
  intros Ho E Hs. destruct ev as [on|i| | |j n stop|j d n err|j sd data]; try done; cbn [proxy_step] in E.
  - unfold cut_step in E. by rewrite Hs in E.
  - unfold accept_step in E. destruct (px_listening p); [|done]. by injection E as <-.
  - unfold handle_step in E. destruct (px_links p !! j) as [l|]; [|done]. cbn [mbind option_bind] in E.
    assert (T : forall c l0, track c (set_link j l0 p) = Some p' -> px_set p' = SetIdle).
    { intros c l0 Et. unfold track in Et. cbn [set_link px_set] in Et. rewrite Hs in Et. by injection Et as <-. }
    destruct (lk_pc l); repeat case_hyp E; try discriminate E; try (by injection E as <-); by eapply T.
  - destruct (px_links p !! j); [|done]. cbn [mbind option_bind] in E. destruct (pipe_step _ _ _ _ _ _); [|done]. by injection E as <-.
  - destruct (px_links p !! j); [|done]. cbn [mbind option_bind] in E. destruct (arrive _ _ _); [|done]. by injection E as <-.
Qed.

Lemma proxy_event_done done f t ev c c' :
  executed_so_far done c -> chaos_step (CProxy f t ev) c = Some c' -> executed_so_far done c' /\ cc_todo c' = cc_todo c.
Proof.
  intros [Xs Xp Xd Xq] E. cbn [chaos_step] in E. destruct (own_event ev) eqn:Ho; [|done].
  destruct (cc_proxies c !! (f, t)) as [p|] eqn:Hp; [|done]. cbn [mbind option_bind] in E.
  destruct (proxy_step ev p) as [p'|] eqn:Ep; [|done]. cbn [mbind option_bind] in E. injection E as <-. split; [|done]. split; cbn [cc_todo cc_proxies cc_procs].
  - destruct Xs as (rest & Er & Hr). exists rest. split; [done|]. destruct Hr as [[Et Hi]|(f' & t' & on & Et & Hl & Hla & Hi)].
    + left. split; [done|]. intros ft q Hq. apply lookup_insert_Some in Hq as [[<- <-]|[_ Hq]]; [|by eapply Hi].
      eapply own_event_set; [done..|by eapply Hi].
    + right. exists f', t', on. split; [done|]. split; [done|]. split; [done|]. intros ft q Hq Hne. apply lookup_insert_Some in Hq as [[<- <-]|[_ Hq]]; [|by eapply Hi].
      eapply own_event_set; [done..|by eapply Hi].
  - done.
  - rewrite dom_insert_L, <-Xd. apply elem_of_dom_2 in Hp. set_solver.
  - intros ft q Hq. apply lookup_insert_Some in Hq as [[<- <-]|[_ Hq]]; [|by apply Xq].
    destruct (Xq _ _ Hp) as [Q1 Q2 Q3]. destruct (own_event_flags _ _ _ Ho Ep) as [F1 F2].
    split; [by eapply proxy_step_inv|congruence|congruence].
Qed.

(** The end of a call. *)
Lemma return_done done rest c :
  executed_so_far done c -> prog = done ++ rest -> (forall ft p, cc_proxies c !! ft = Some p -> px_set p = SetIdle) ->
  executed_so_far done (mkChaos (cc_procs c) (cc_proxies c) rest).
Proof. intros [Xs Xp Xd Xq] Er Hi. split; try done. exists rest. split; [done|]. by left. Qed.

(** A statement that leaves the proxies alone. *)
Lemma stmt_done done x rest c procs' :
  executed_so_far done c -> cc_todo c = x :: rest -> (forall ft p, cc_proxies c !! ft = Some p -> px_set p = SetIdle) -> prog = done ++ x :: rest ->
  cut_after cut (done ++ [x]) = cut_after cut done -> procs_after procs (done ++ [x]) = procs' ->
  (forall f t, x <> SListenerClose f t) -> executed_so_far (done ++ [x]) (mkChaos procs' (cc_proxies c) rest).
Proof.
  intros [Xs Xp Xd Xq] Et Hi Er Hc Hp Hx. split; cbn [cc_todo cc_proxies cc_procs]; try done.
  - exists rest. split; [by rewrite <-app_assoc|]. by left.
  - intros ft p Hq. rewrite Hc. replace (bool_decide (SListenerClose ft.1 ft.2 ∈ done ++ [x])) with (bool_decide (SListenerClose ft.1 ft.2 ∈ done)); [by apply Xq|].
    apply bool_decide_ext. rewrite elem_of_app, list_elem_of_singleton. split; [by left|]. intros [?|E]; [done|]. by destruct (Hx ft.1 ft.2).
Qed.

(** A statement on the proxy of a link. *)
Lemma stmt_proxy done x rest todo f t p p' c :
  executed_so_far done c -> prog = done ++ x :: rest -> cc_proxies c !! (f, t) = Some p -> proxy_inv p' ->
  (forall ft q, cc_proxies c !! ft = Some q -> px_set q = SetIdle) ->
  (todo = rest /\ px_set p' = SetIdle \/ (todo = SReturn f t :: rest /\ exists on, x = SSet f t on)) ->
  (forall ft, ft ∈ cut_after cut (done ++ [x]) <-> if decide (ft = (f, t)) then px_partitioned p' = true else ft ∈ cut_after cut done) ->
  (forall g u, SListenerClose g u ∈ done ++ [x] <-> if decide ((g, u) = (f, t)) then px_listening p' = false else SListenerClose g u ∈ done) ->
  procs_after procs (done ++ [x]) = procs_after procs done ->
  executed_so_far (done ++ [x]) (mkChaos (cc_procs c) (<[(f, t) := p']> (cc_proxies c)) todo).
Proof.
  intros [Xs Xp Xd Xq] Er Hp P' Hi Ht Hc Ho Hps. pose proof (elem_of_dom_2 _ _ _ Hp) as Hd. split; cbn [cc_todo cc_proxies cc_procs].
  - exists rest. split; [by rewrite <-app_assoc|]. destruct Ht as [[-> Hs]|[-> [on ->]]]; [left|right; exists f, t, on].
    + split; [done|]. intros ft q Hq. apply lookup_insert_Some in Hq as [[<- <-]|[_ Hq]]; [done|by eapply Hi].
    + split; [done|]. split; [set_solver|]. split; [by rewrite last_snoc|]. intros ft q Hq Hne. rewrite lookup_insert_ne in Hq by done. by eapply Hi.
  - by rewrite Hps.
  - rewrite dom_insert_L. set_solver.
  - intros [g u] q Hq. specialize (Hc (g, u)). specialize (Ho g u). apply lookup_insert_Some in Hq as [[E <-]|[Hne Hq]].
    + rewrite decide_True in Hc, Ho by done. split; [done|..].
      * destruct (px_partitioned p'); [rewrite bool_decide_eq_true_2|rewrite bool_decide_eq_false_2]; [done|by apply Hc|done|].
        intros H. by apply Hc in H.
      * cbn [fst snd]. destruct (px_listening p'); [rewrite bool_decide_eq_false_2|rewrite bool_decide_eq_true_2]; [done| |done|by apply Ho].
        intros H. by apply Ho in H.
    + rewrite decide_False in Hc, Ho by congruence. cbn [fst snd]. rewrite (bool_decide_ext _ _ Hc), (bool_decide_ext _ _ Ho). apply (Xq (g, u) q Hq).
Qed.

Lemma set_partitioned_step on p p' :
  proxy_inv p -> SetPartitioned on p = Some p' -> proxy_inv p' /\ px_partitioned p' = on /\ px_listening p' = px_listening p.
Proof.
  intros P E. split; [by eapply (proxy_step_inv (EvSet on))|]. unfold SetPartitioned in E. destruct (px_set p); [|done..]. by injection E as <-.
Qed.

(** A statement has run. *)
Lemma stmt_next done x rest c c' :
  executed_so_far done c -> cc_todo c = x :: rest -> prog = done ++ x :: rest -> (forall ft p, cc_proxies c !! ft = Some p -> px_set p = SetIdle) ->
  stmt_step c = Some c' -> executed_so_far (done ++ [x]) c' /\ (cc_todo c' = rest \/ exists f t, cc_todo c' = SReturn f t :: rest).
Proof.
  intros X Et Er Hi E. unfold stmt_step in E. rewrite Et in E.
  assert (N : forall procs', cut_after cut (done ++ [x]) = cut_after cut done -> procs_after procs (done ++ [x]) = procs' ->
    (forall f t, x <> SListenerClose f t) -> Some (mkChaos procs' (cc_proxies c) rest) = Some c' ->
    executed_so_far (done ++ [x]) c' /\ (cc_todo c' = rest \/ exists f t, cc_todo c' = SReturn f t :: rest)).
  { intros procs' H1 H2 H3 [= <-]. split; [by eapply stmt_done|by left]. }
  rewrite (xs_procs _ _ X) in E.
  destruct x as [m| |f t on|f t|f t|i sig|i|i ok]; try (destruct (cc_proxies c !! (f, t)) as [p|] eqn:Hp; [|done]; cbn [mbind option_bind] in E).
  - eapply N; [by rewrite cut_after_app|by rewrite procs_after_app|done|exact E].
  - eapply N; [by rewrite cut_after_app|by rewrite procs_after_app|done|exact E].
  - destruct (SetPartitioned on p) as [p'|] eqn:Ep; [|done]. cbn [mbind option_bind] in E. injection E as <-. split; [|right; by exists f, t].
    destruct (set_partitioned_step on p p') as (P1 & P2 & P3); [by eapply (xs_proxies _ _ X)|done|].
    rewrite <-(xs_procs _ _ X). eapply stmt_proxy; try done; [right; split; [done|by exists on]| | |by rewrite procs_after_app].
    + intros ft. rewrite cut_after_app, P2. cbn. destruct on; case_decide; set_solver.
    + intros g u. rewrite elem_of_app, list_elem_of_singleton, P3. pose proof (pa_open _ _ _ (xs_proxies _ _ X _ _ Hp)) as Ho. cbn [fst snd] in Ho.
      destruct (decide ((g, u) = (f, t))) as [[= -> ->]|Hd]; [|naive_solver]. rewrite Ho, negb_false_iff, bool_decide_eq_true. naive_solver.
  - destruct (px_set p); [|done..]. eapply N; [by rewrite cut_after_app|by rewrite procs_after_app|done|exact E].
  - cbn [proxy_step mbind option_bind] in E. injection E as <-. split; [|by left]. rewrite <-(xs_procs _ _ X). eapply stmt_proxy; try done.
    + eapply (proxy_step_inv EvListenerClose); [by eapply (xs_proxies _ _ X)|done].
    + left. split; [done|]. exact (Hi _ _ Hp).
    + intros ft. rewrite cut_after_app. cbn. pose proof (pa_cut _ _ _ (xs_proxies _ _ X _ _ Hp)) as Ho. destruct (decide (ft = (f, t))) as [->|Hd]; [|done].
      by rewrite Ho, bool_decide_eq_true.
    + intros g u. rewrite elem_of_app, list_elem_of_singleton. cbn. destruct (decide ((g, u) = (f, t))) as [[= -> ->]|Hd]; naive_solver.
    + by rewrite procs_after_app.
  - eapply N; [by rewrite cut_after_app|by rewrite procs_after_app|done|exact E].
  - destruct (_ !! i) as [p|]; [|done]. cbn [mbind option_bind] in E. destruct (pr_alive p); [done|].
    eapply N; [by rewrite cut_after_app|by rewrite procs_after_app|done|exact E].
  - eapply N; [by rewrite cut_after_app|rewrite procs_after_app; by destruct ok|done|exact E].
Qed.

Lemma stmt_ok c c' : chaos_ok c -> stmt_step c = Some c' -> chaos_ok c'.
Proof.
  intros (done & X) E. pose proof (xs_split _ _ X) as (rest & Er & [[Et Hi]|(f & t & on & Et & Hl & _ & Hi)]).
  - destruct rest as [|x rest]; [unfold stmt_step in E; by rewrite Et in E|]. destruct (stmt_next done x rest c c' X Et Er Hi E) as [X' _]. by eexists.
  - unfold stmt_step in E. rewrite Et in E. destruct (cc_proxies c !! (f, t)) as [p|] eqn:Hp; [|done]. cbn [mbind option_bind] in E.
    destruct (px_set p) eqn:Es; [|done..]. injection E as <-. exists done. apply return_done; [done..|].
    intros ft q Hq. destruct (decide (ft = (f, t))) as [->|Hne]; [congruence|by eapply Hi].
Qed.

Lemma chaos_step_ok ev c c' : chaos_ok c -> chaos_step ev c = Some c' -> chaos_ok c'.
Proof. intros X E. destruct ev as [|f t pev]; [by eapply stmt_ok|]. destruct X as [done X]. exists done. by eapply proxy_event_done. Qed.

Lemma chaos_run_ok evs c c' : chaos_ok c -> chaos_run evs c = Some c' -> chaos_ok c'.
Proof.
  revert c. induction evs as [|ev evs IH]; intros c X E; cbn [chaos_run] in E; [by injection E as <-|].
  destruct (chaos_step ev c) as [c1|] eqn:E1; [|done]. cbn [mbind option_bind] in E. eapply IH; [|exact E]. by eapply chaos_step_ok.
Qed.

(** ** Running to the end *)

(** Each statement can run when its turn comes. *)
Definition runnable_at (done : list Stmt) (x : Stmt) : Prop :=
  match x with
  | SSet f t _ | SListenerClose f t => (f, t) ∈ at_links
  | SReturn _ _ => False
  | SExited i => exists p, procs_after procs done !! i = Some p /\ pr_alive p = false
  | _ => True
  end.

Hypothesis runnable : forall done x rest, prog = done ++ x :: rest -> runnable_at done x.

Lemma chaos_run_app evs1 evs2 c : chaos_run (evs1 ++ evs2) c = chaos_run evs1 c ≫= chaos_run evs2.
Proof.
  revert c. induction evs1 as [|ev evs1 IH]; intros c; [done|]. cbn [app chaos_run]. destruct (chaos_step ev c); [|done]. cbn. apply IH.
Qed.

Lemma chaos_cuts n f t p p' c :
  cc_proxies c !! (f, t) = Some p -> proxy_run (replicate n (EvCut 0)) p = Some p' ->
  chaos_run (replicate n (CProxy f t (EvCut 0))) c = Some (mkChaos (cc_procs c) (<[(f, t) := p']> (cc_proxies c)) (cc_todo c)).
Proof.
  revert p c. induction n as [|n IH]; intros p c Hp E; cbn [replicate chaos_run proxy_run] in *.
  - injection E as <-. rewrite insert_id by done. by destruct c.
  - destruct (proxy_step (EvCut 0) p) as [p1|] eqn:E1; [|done]. cbn [mbind option_bind] in E. cbn [chaos_step own_event]. rewrite Hp. cbn [mbind option_bind].
    rewrite E1. cbn [mbind option_bind]. rewrite (IH p1) by (done || apply lookup_insert_eq). cbn [cc_procs cc_proxies cc_todo]. by rewrite insert_insert_eq.
Qed.

Lemma cuts_done done n f t c c' :
  executed_so_far done c -> chaos_run (replicate n (CProxy f t (EvCut 0))) c = Some c' -> executed_so_far done c' /\ cc_todo c' = cc_todo c.
Proof.
  revert c. induction n as [|n IH]; intros c X E; cbn [replicate chaos_run] in E; [by injection E as <-|].
  destruct (chaos_step _ c) as [c1|] eqn:E1; [|done]. cbn [mbind option_bind] in E.
  destruct (proxy_event_done _ _ _ _ _ _ X E1) as [X1 T1]. destruct (IH c1 X1 E) as [X2 T2]. by rewrite T2.
Qed.

(** A call of [SetPartitioned] under way comes to its end. *)
Lemma call_returns done f t rest c :
  executed_so_far done c -> cc_todo c = SReturn f t :: rest -> prog = done ++ rest ->
  exists evs c', chaos_run evs c = Some c' /\ executed_so_far done c' /\ cc_todo c' = rest.
Proof.
  intros X Et Er. assert (Hl : (f, t) ∈ at_links).
  { destruct (xs_split _ _ X) as (rest' & Er' & [[Et' _]|(f' & t' & on & Et' & Hl & _)]).
    - exfalso. apply (runnable done (SReturn f t) rest). by rewrite Er', <-Et', Et.
    - rewrite Et in Et'. by injection Et' as -> ->. }
  rewrite <-(xs_dom _ _ X) in Hl. apply elem_of_dom in Hl as [p Hp].
  destruct (cut_completes p) as (p' & Ec & Es); [by eapply (xs_proxies _ _ X)|].
  exists (replicate (cut_left p) (CProxy f t (EvCut 0)) ++ [CStmt]). rewrite chaos_run_app, (chaos_cuts _ _ _ _ _ _ Hp Ec).
  set (c1 := mkChaos _ _ _). cbn [mbind option_bind chaos_run chaos_step].
  assert (E1 : stmt_step c1 = Some (mkChaos (cc_procs c1) (cc_proxies c1) rest)).
  { unfold stmt_step. cbn [c1 cc_todo]. rewrite Et. cbn [cc_proxies c1]. rewrite lookup_insert_eq. cbn [mbind option_bind]. by rewrite Es. }
  rewrite E1. cbn [mbind option_bind]. eexists. split; [done|]. split; [|done].
  assert (X1 : executed_so_far done c1 /\ cc_todo c1 = cc_todo c) by (eapply cuts_done; [exact X|by apply (chaos_cuts _ _ _ p p')]).
  destruct X1 as [X1 _]. apply return_done; [done..|]. intros ft q Hq. destruct (decide (ft = (f, t))) as [->|Hne].
  - cbn [c1 cc_proxies] in Hq. rewrite lookup_insert_eq in Hq. by injection Hq as <-.
  - destruct (xs_split _ _ X1) as (rest' & _ & [[_ Hi]|(f' & t' & on & Et' & _ & _ & Hi)]); [by eapply Hi|].
    cbn [c1 cc_todo] in Et'. rewrite Et in Et'. injection Et' as <- <- _. by eapply Hi.
Qed.

(** Every statement runs when its turn comes. *)
Lemma stmt_runs done x rest c :
  executed_so_far done c -> cc_todo c = x :: rest -> prog = done ++ x :: rest -> (forall ft p, cc_proxies c !! ft = Some p -> px_set p = SetIdle) ->
  is_Some (stmt_step c).
Proof.
  intros X Et Er Hi. pose proof (runnable done x rest Er) as Hen. unfold stmt_step. rewrite Et. rewrite (xs_procs _ _ X).
  destruct x as [m| |f t on|f t|f t|i sig|i|i ok]; cbn [runnable_at] in Hen; [eexists; reflexivity..| |done| |eexists; reflexivity| |eexists; reflexivity].
  - rewrite <-(xs_dom _ _ X) in Hen. apply elem_of_dom in Hen as [p Hp]. rewrite Hp. cbn [mbind option_bind].
    unfold SetPartitioned. rewrite (Hi _ _ Hp). cbn [mbind option_bind]. by eexists.
  - rewrite <-(xs_dom _ _ X) in Hen. apply elem_of_dom in Hen as [p Hp]. rewrite Hp. cbn [mbind option_bind proxy_step]. by eexists.
  - destruct Hen as (p & -> & Ha). cbn [mbind option_bind]. rewrite Ha. by eexists.
Qed.

Lemma chaos_finishes c : chaos_ok c -> exists evs c', chaos_run evs c = Some c' /\ cc_todo c' = [].
Proof.
  intros (done & X). destruct (xs_split _ _ X) as (rest & Er & _). revert done c X Er. induction rest as [|x rest IH]; intros done c X Er.
  - destruct (xs_split _ _ X) as (rest' & Er' & [[Et _]|(f & t & on & Et & _)]).
    + assert (rest' = []) as -> by (by eapply (app_inv_head done); congruence). by exists [], c.
    + assert (rest' = []) as -> by (by eapply (app_inv_head done); congruence).
      destruct (call_returns done f t [] c X Et Er) as (evs & c' & E & _ & Et'). by exists evs, c'.
  - assert (S : exists evs c1, chaos_run evs c = Some c1 /\ executed_so_far done c1 /\ cc_todo c1 = x :: rest /\
      forall ft p, cc_proxies c1 !! ft = Some p -> px_set p = SetIdle).
    { destruct (xs_split _ _ X) as (rest' & Er' & Hr). assert (rest' = x :: rest) as -> by (by eapply (app_inv_head done); congruence).
      destruct Hr as [[Et Hi]|(f & t & on & Et & _)]; [by exists [], c|].
      destruct (call_returns done f t (x :: rest) c X Et Er) as (evs & c1 & E1 & X1 & Et1). exists evs, c1. split_and!; [done..|].
      destruct (xs_split _ _ X1) as (r1 & Er1 & [[_ Hi]|(f1 & t1 & on1 & Et1' & _)]); [done|]. exfalso. rewrite Et1 in Et1'. injection Et1' as -> ->.
      by apply (runnable done (SReturn f1 t1) r1). }
    destruct S as (evs & c1 & E1 & X1 & Et1 & Hi1). destruct (stmt_runs done x rest c1 X1 Et1 Er Hi1) as [c2 E2].
    destruct (stmt_next done x rest c1 c2 X1 Et1 Er Hi1 E2) as [X2 _].
    destruct (IH (done ++ [x]) c2 X2) as (evs' & c' & E' & Et'); [by rewrite <-app_assoc|].
    exists (evs ++ CStmt :: evs'), c'. split; [|done]. rewrite chaos_run_app, E1. cbn [mbind option_bind chaos_run chaos_step]. by rewrite E2.
Qed.
End program.

(** ** What the statements of a program do *)

(** Each statement can follow the one before it, on these links and nodes. *)
Definition follows (ls : gset (nat * nat)) (n : nat) (prev : option Stmt) (x : Stmt) : bool :=
  match x with
  | SSet f t _ | SListenerClose f t => bool_decide ((f, t) ∈ ls)
  | SReturn _ _ => false
  | SExited i => bool_decide (prev = Some (SSignal i SIGKILL)) && (i <? n)
  | _ => true
  end.

Fixpoint in_sequence (ls : gset (nat * nat)) (n : nat) (prev : option Stmt) (l : list Stmt) : bool :=
  match l with
  | [] => true
  | x :: l' => follows ls n prev x && in_sequence ls n (Some x) l'
  end.

Lemma in_sequence_weaken ls n prev l : in_sequence ls n None l = true -> in_sequence ls n prev l = true.
Proof.
  destruct l as [|x l]; [done|]. cbn. rewrite !andb_true_iff. intros [H ->]. split; [|done]. by destruct x.
Qed.

Lemma in_sequence_app ls n prev l1 l2 :
  in_sequence ls n prev l1 = true -> in_sequence ls n None l2 = true -> in_sequence ls n prev (l1 ++ l2) = true.
Proof.
  revert prev. induction l1 as [|x l1 IH]; intros prev H1 H2; [by apply in_sequence_weaken|]. cbn in *. apply andb_true_iff in H1 as [-> H1].
  by rewrite IH.
Qed.

Lemma in_sequence_bind {A} ls n (f : A -> list Stmt) l :
  Forall (fun a => in_sequence ls n None (f a) = true) l -> in_sequence ls n None (l ≫= f) = true.
Proof. induction 1 as [|a l Ha HF IH]; [done|]. cbn. by apply in_sequence_app. Qed.

Lemma in_sequence_at ls n prev done x rest :
  in_sequence ls n prev (done ++ x :: rest) = true -> follows ls n (match last done with Some y => Some y | None => prev end) x = true.
Proof.
  revert prev. induction done as [|y done IH]; intros prev H; cbn in H; apply andb_true_iff in H as [H1 H2]; [done|].
  apply IH in H2. rewrite last_cons. by destruct (last done).
Qed.

Lemma in_sequence_enabled ls procs prog :
  in_sequence ls (length procs) None prog = true -> forall done x rest, prog = done ++ x :: rest -> runnable_at procs ls done x.
Proof.
  intros H done x rest ->. apply in_sequence_at in H. destruct x as [m| |f t on|f t|f t|i sig|i|i ok]; cbn [follows runnable_at] in *; try done.
  - by apply bool_decide_eq_true in H.
  - by apply bool_decide_eq_true in H.
  - bool_facts. destruct (last done) as [y|] eqn:El; [|done]. apply last_Some in El as [done' ->].
    match goal with H : Some y = _ |- _ => injection H as -> end.
    destruct (lookup_lt_is_Some_2 (procs_after procs done') i) as [p Hp]; [by rewrite procs_after_length|].
    rewrite procs_after_app. cbn. rewrite list_lookup_alter_eq, Hp. cbn. eexists. split; [done|]. unfold deliver. by destruct (pr_alive p) eqn:?.
Qed.

(** Statements about one node only, that close no listener. *)
Definition touches (i : nat) (x : Stmt) : Prop :=
  match x with
  | SSet f t _ => f = i \/ t = i
  | SReturn _ _ | SListenerClose _ _ => False
  | SSignal j _ | SExited j | SLaunch j _ => j = i
  | _ => True
  end.

Lemma touches_cut i l s f t : Forall (touches i) l -> f <> i -> t <> i -> (f, t) ∈ cut_after s l <-> (f, t) ∈ s.
Proof.
  intros HF Hf Ht. revert s. induction HF as [|x l Hx HF IH]; intros s; [done|]. change (cut_after s (x :: l)) with (cut_after (cut_after s [x]) l).
  rewrite IH. destruct x as [| |g u []| | | | |]; cbn in *; set_solver.
Qed.

Lemma touches_procs i l ps j : Forall (touches i) l -> j <> i -> procs_after ps l !! j = ps !! j.
Proof.
  intros HF Hj. revert ps. induction HF as [|x l Hx HF IH]; intros ps; [done|]. change (procs_after ps (x :: l)) with (procs_after (procs_after ps [x]) l).
  rewrite IH. destruct x as [| | | | |k sig| |k []]; cbn in *; try done; subst; by rewrite ?list_lookup_alter_ne, ?list_lookup_insert_ne by done.
Qed.

(** ** The rounds of the nemesis *)

Definition all_links : gset (nat * nat) := list_to_set links.
Definition all_running : list Proc := replicate numNodes running.

Lemma isolate_touches i on : Forall (touches i) (isolate i on).
Proof. unfold isolate, numNodes. cbn. repeat case_match; cbn; repeat first [apply Forall_nil_2|apply Forall_cons_2; [cbn; auto|]]. Qed.

Lemma round_touches kinds d : Forall (touches (dr_target d)) (nemesis_round kinds d).
Proof.
  unfold nemesis_round. destruct (kinds !! dr_kind d) as [k|]; [|constructor].
  destruct (bytes_eqb k (lit "partition")); [|destruct (bytes_eqb k (lit "pause")); [|destruct (bytes_eqb k (lit "kill"))]]; [..|constructor].
  - constructor; [done|]. apply Forall_app. split; [apply isolate_touches|]. constructor; [done|]. apply Forall_app. split; [apply isolate_touches|].
    by constructor.
  - repeat constructor.
  - constructor; [done|]. apply Forall_app. split; [repeat constructor|]. destruct (restart_error d); by repeat constructor.
Qed.

(** A round on its own heals what it did. *)
Definition draw_ok (d : Draw) : Prop := dr_target d < numNodes /\ dr_launch d = None.

Lemma round_heals kinds d :
  draw_ok d -> cut_after ∅ (nemesis_round kinds d) = ∅ /\ procs_after all_running (nemesis_round kinds d) = all_running /\
  in_sequence all_links numNodes None (nemesis_round kinds d) = true.
Proof.
  intros [Ht Hl]. unfold nemesis_round, numNodes in *. rewrite Hl. destruct (kinds !! dr_kind d) as [k|]; [|done].
  destruct (bytes_eqb k (lit "partition")); [|destruct (bytes_eqb k (lit "pause")); [|destruct (bytes_eqb k (lit "kill"))]]; [..|done].
  - destruct (dr_target d) as [|[|[|]]]; [..|lia]; (split; [vm_compute; reflexivity|]); (split; [vm_compute; reflexivity|]); vm_compute; reflexivity.
  - destruct (dr_target d) as [|[|[|]]]; [..|lia]; (split; [vm_compute; reflexivity|]); (split; [vm_compute; reflexivity|]); vm_compute; reflexivity.
  - destruct (restart_error d) as [e|]; destruct (dr_target d) as [|[|[|]]]; try lia; (split; [vm_compute; reflexivity|]); (split; [vm_compute; reflexivity|]); vm_compute; reflexivity.
Qed.

Lemma rounds_heal kinds draws :
  Forall draw_ok draws ->
  cut_after ∅ (draws ≫= nemesis_round kinds) = ∅ /\ procs_after all_running (draws ≫= nemesis_round kinds) = all_running.
Proof.
  induction 1 as [|d draws Hd HF [IH1 IH2]]; [done|]. destruct (round_heals kinds d Hd) as (H1 & H2 & _). rewrite bind_cons.
  by rewrite cut_after_app, procs_after_app, H1, H2.
Qed.

Lemma bind_split {A B} (f : A -> list B) l done rest :
  (l ≫= f) = done ++ rest ->
  (done = [] /\ rest = (l ≫= f)) \/
  exists before a after pre post, l = before ++ a :: after /\ f a = pre ++ post /\ pre <> [] /\ done = (before ≫= f) ++ pre /\ rest = post ++ (after ≫= f).
Proof.
  destruct (decide (done = [])) as [->|Hd]; [by left|]. intros E. right. revert done Hd E. induction l as [|a l IH]; intros done Hd E; cbn in E.
  - symmetry in E. by apply app_nil in E as [-> _].
  - destruct (decide (length done <= length (f a))) as [Hle|Hgt].
    + exists [], a, l, done, (drop (length done) (f a)). split; [done|].
      assert (Ed : f a = done ++ drop (length done) (f a)).
      { rewrite <-(take_drop (length done) (f a)) at 1. f_equal. apply (f_equal (take (length done))) in E.
        rewrite take_app_le, take_app_length in E by done. done. }
      split; [done|]. split; [done|]. split; [done|]. rewrite Ed, <-app_assoc in E at 1. by apply app_inv_head in E.
    + assert (Ed : done = f a ++ drop (length (f a)) done).
      { rewrite <-(take_drop (length (f a)) done) at 1. f_equal. apply (f_equal (take (length (f a)))) in E.
        rewrite take_app_length, take_app_le in E by lia. done. }
      rewrite Ed, <-app_assoc in E. apply app_inv_head in E.
      assert (Hd' : drop (length (f a)) done <> []) by (intros E'; apply (f_equal length) in E'; rewrite length_drop in E'; cbn in E'; lia).
      destruct (IH _ Hd' E) as (before & x & after & pre & post & -> & H2 & Hp & H3 & H4).
      exists (a :: before), x, after, pre, post. split; [done|]. split; [done|]. split; [done|]. split; [|done]. rewrite Ed, H3. cbn. by rewrite app_assoc.
Qed.

(** At any point of the nemesis one node at most is affected, by the last
    statement too. *)
Lemma one_target kinds draws done rest :
  Forall draw_ok draws -> (draws ≫= nemesis_round kinds) = done ++ rest ->
  exists i, (forall f t, f <> i -> t <> i -> (f, t) ∉ cut_after ∅ done) /\
    (forall j, j <> i -> procs_after all_running done !! j = all_running !! j) /\ (forall x, last done = Some x -> touches i x).
Proof.
  intros HF E. destruct (bind_split _ _ _ _ E) as [[-> _]|(before & d & after & pre & post & -> & Ed & Hp & -> & _)].
  - exists 0. split; [cbn; set_solver|done].
  - apply Forall_app in HF as [HF _]. destruct (rounds_heal kinds before HF) as [H1 H2]. rewrite cut_after_app, procs_after_app, H1, H2.
    pose proof (round_touches kinds d) as T. rewrite Ed in T. apply Forall_app in T as [T _]. exists (dr_target d). split; [|split].
    + intros f t Hf Ht. rewrite touches_cut by done. set_solver.
    + intros j Hj. by apply touches_procs with (i := dr_target d).
    + intros x Hx. rewrite last_app in Hx. destruct (last pre) as [y|] eqn:El; [|by apply last_None in El]. injection Hx as <-.
      apply last_Some in El as [pre' ->]. apply Forall_app in T as [_ T]. inversion T; subst; done.
Qed.

(** ** Starting *)

Definition run_program (prog : list Stmt) (c : ChaosCluster) : ChaosCluster := mkChaos (cc_procs c) (cc_proxies c) prog.

(** Every proxy made so far is new and every process started runs. *)
Record just_started (latency : Z) (c : ChaosCluster) : Prop := {
  js_proxies : forall ft p, cc_proxies c !! ft = Some p -> p = NewProxy latency /\ ft ∈ links;
  js_procs : Forall (fun p => p = running \/ p = not_started) (cc_procs c);
  js_nodes : length (cc_procs c) = numNodes
}.

Lemma start_proxies_spec listens latency m ok :
  start_proxies listens latency = (m, ok) ->
  (forall ft p, m !! ft = Some p -> p = NewProxy latency /\ ft ∈ links) /\ (ok = true -> dom m = all_links).
Proof.
  unfold start_proxies, all_links. induction links as [|ft l IH] using rev_ind in m, ok |- *; [cbn; intros [= <- <-]; split; [intros ft p H; by rewrite lookup_empty in H|set_solver]|].
  rewrite foldl_app. destruct (foldl _ _ l) as [m1 ok1] eqn:E1. cbn [foldl]. destruct (IH m1 ok1 eq_refl) as [H1 H2]. intros E.
  destruct (ok1 && listens ft) eqn:Eo; injection E as <- <-.
  - apply andb_true_iff in Eo as [-> _]. split.
    + intros gu p H. apply lookup_insert_Some in H as [[<- <-]|[_ H]]; [split; [done|apply elem_of_app; right; by left]|].
      destruct (H1 gu p H) as [-> Hin]. split; [done|]. apply elem_of_app. by left.
    + intros _. rewrite dom_insert_L, H2 by done. rewrite list_to_set_app_L. cbn. set_solver.
  - split; [|done]. intros gu p H. destruct (H1 gu p H) as [-> Hin]. split; [done|]. apply elem_of_app. by left.
Qed.

Lemma start_nodes_spec launches procs ok :
  start_nodes launches (replicate numNodes not_started) = (procs, ok) ->
  Forall (fun p => p = running \/ p = not_started) procs /\ length procs = numNodes /\ (ok = true -> procs = all_running).
Proof.
  unfold start_nodes, numNodes. cbn. destruct (launches 0); cbn; destruct (launches 1); cbn; destruct (launches 2); cbn; intros E; apply pair_equal_spec in E as [<- <-]; (split; [|by split]);
    repeat first [apply Forall_nil_2|apply Forall_cons_2; [auto|]].
Qed.

Lemma start_spec listens launches ready latency c ok :
  cluster_start listens launches ready latency = (c, ok) ->
  just_started latency c /\ cc_todo c = [] /\ (ok = true -> dom (cc_proxies c) = all_links /\ cc_procs c = all_running).
Proof.
  unfold cluster_start. destruct (start_proxies listens latency) as [m ok1] eqn:E1. destruct (start_proxies_spec _ _ _ _ E1) as [H1 H2].
  destruct ok1; cbn [negb].
  - destruct (start_nodes _ _) as [ps ok2] eqn:E2. destruct (start_nodes_spec _ _ _ E2) as (H3 & H4 & H5). intros [= <- <-].
    split; [by split|]. split; [done|]. intros H. apply andb_true_iff in H as [-> _]. cbn [cc_proxies cc_procs]. auto.
  - intros [= <- <-]. split; [|done]. split; cbn; [done|repeat first [apply Forall_nil_2|apply Forall_cons_2; [auto|]]|done].
Qed.

(** Before the first statement. *)
Lemma program_from cut c prog :
  (forall ft p, cc_proxies c !! ft = Some p -> proxy_as (bool_decide (ft ∈ cut)) true p /\ px_set p = SetIdle) ->
  chaos_ok (cc_procs c) cut (dom (cc_proxies c)) prog (run_program prog c).
Proof.
  intros H. exists []. split; cbn [run_program cc_todo cc_procs cc_proxies]; try done.
  - exists prog. split; [done|]. left. split; [done|]. intros ft p Hp. by apply (H ft p).
  - intros ft p Hp. by apply (H ft p).
Qed.

Lemma program_starts latency c prog :
  just_started latency c -> chaos_ok (cc_procs c) ∅ (dom (cc_proxies c)) prog (run_program prog c).
Proof.
  intros [J1 J2 J3]. apply program_from. intros ft p H. destruct (J1 ft p H) as [-> _]. split; [|done]. split; [apply new_proxy_inv|done|done].
Qed.

(** ** Properties *)

(** The proxy of the link is healed, or cut, and no call is under way. *)
Definition link_is (cut : bool) (c : ChaosCluster) (f t : nat) : Prop :=
  exists p, cc_proxies c !! (f, t) = Some p /\ px_partitioned p = cut /\ px_set p = SetIdle.

Lemma links_elem f t : (f, t) ∈ all_links <-> f < numNodes /\ t < numNodes /\ f <> t.
Proof.
  unfold all_links. rewrite elem_of_list_to_set.
  assert (links = [(0, 1); (0, 2); (1, 0); (1, 2); (2, 0); (2, 1)]) as -> by (vm_compute; reflexivity). rewrite !elem_of_cons, elem_of_nil.
  unfold numNodes. split; [intros H; repeat destruct H as [[= -> ->]|H]; lia|]. intros (Hf & Ht & Hne).
  destruct f as [|[|[|]]], t as [|[|[|]]]; try lia; auto 10.
Qed.

(** The state of a link when no call of it is under way. *)
Lemma link_state procs cut ls prog done c f t :
  executed_so_far procs cut ls prog done c -> (f, t) ∈ ls -> (forall on, last done <> Some (SSet f t on)) \/ (forall rest, cc_todo c <> SReturn f t :: rest) ->
  link_is (bool_decide ((f, t) ∈ cut_after cut done)) c f t.
Proof.
  intros X Hl Hn. rewrite <-(xs_dom _ _ _ _ _ _ X) in Hl. apply elem_of_dom in Hl as [p Hp]. exists p. split; [done|].
  split; [apply (xs_proxies _ _ _ _ _ _ X _ _ Hp)|].
  destruct (xs_split _ _ _ _ _ _ X) as (rest & _ & [[_ Hi]|(g & u & on & Et & _ & Hla & Hi)]); [by eapply Hi|].
  eapply Hi; [exact Hp|]. intros [= -> ->]. destruct Hn as [Hn|Hn]; [by apply (Hn on)|by apply (Hn rest)].
Qed.

(** The nemesis at work. *)
Section nemesis.
Variables (listens : nat * nat -> bool) (launches : nat -> bool) (ready : bool) (latency : Z) (c0 : ChaosCluster).
Hypothesis started : cluster_start listens launches ready latency = (c0, true).
Variables (kinds : list bytes) (draws : list Draw).
Hypothesis draws_ok : Forall draw_ok draws.

Let prog := draws ≫= nemesis_round kinds.

Lemma nemesis_executed evs c :
  chaos_run evs (run_program prog c0) = Some c -> chaos_ok all_running ∅ all_links prog c.
Proof using started.
  intros E. destruct (start_spec _ _ _ _ _ _ started) as (J & _ & Hd). destruct (Hd eq_refl) as [H1 H2].
  eapply chaos_run_ok; [|exact E]. rewrite <-H1, <-H2. by eapply program_starts.
Qed.

Lemma nemesis_runnable done x rest : prog = done ++ x :: rest -> runnable_at all_running all_links done x.
Proof using draws_ok.
  apply in_sequence_enabled. unfold prog. change (length all_running) with numNodes. apply in_sequence_bind. eapply Forall_impl; [exact draws_ok|].
  intros d Hd. by apply round_heals.
Qed.

(** One node at most is affected. *)
Lemma nemesis_one_target c :
  chaos_ok all_running ∅ all_links prog c ->
  exists i, (forall f t, (f, t) ∈ all_links -> f <> i -> t <> i -> link_is false c f t) /\
            (forall j, j <> i -> cc_procs c !! j = all_running !! j).
Proof using draws_ok.
  intros (done & X). destruct (xs_split _ _ _ _ _ _ X) as (rest & Er & _).
  destruct (one_target kinds draws done rest draws_ok Er) as (i & H1 & H2 & H3). exists i. split.
  - intros f t Hl Hf Ht. rewrite <-(bool_decide_eq_false_2 _ (H1 f t Hf Ht)). eapply link_state; [exact X|done|].
    left. intros on Hla. destruct (H3 _ Hla); congruence.
  - intros j Hj. rewrite (xs_procs _ _ _ _ _ _ X). by apply H2.
Qed.

(** At the end everything is healed. *)
Lemma nemesis_healed c :
  chaos_ok all_running ∅ all_links prog c -> cc_todo c = [] ->
  cc_procs c = all_running /\ forall f t, (f, t) ∈ all_links -> link_is false c f t.
Proof using draws_ok.
  intros (done & X) Et. destruct (xs_split _ _ _ _ _ _ X) as (rest & Er & [[Et' _]|(f & t & on & Et' & _)]); [|congruence].
  rewrite Et in Et'. subst rest. rewrite app_nil_r in Er. subst done. destruct (rounds_heal kinds draws draws_ok) as [H1 H2].
  split; [by rewrite (xs_procs _ _ _ _ _ _ X)|]. intros f t Hl.
  pose proof (link_state _ _ _ _ _ _ f t X Hl ltac:(right; intros r; congruence)) as L.
  unfold prog in L. rewrite H1, bool_decide_eq_false_2 in L by apply not_elem_of_empty. done.
Qed.

(** While it holds a partition the target is cut off. *)
Lemma nemesis_holds before d after c i :
  chaos_ok all_running ∅ all_links prog c -> draws = before ++ d :: after -> kinds !! dr_kind d = Some (lit "partition") -> dr_target d = i ->
  cc_todo c = SSleep :: isolate i false ++ SLog (lit "heal partition") :: (after ≫= nemesis_round kinds) ->
  forall j, j < numNodes -> j <> i -> link_is true c i j /\ link_is true c j i.
Proof using draws_ok.
  intros (done & X) Ed Ek <- Et j Hj Hne. destruct (xs_split _ _ _ _ _ _ X) as (rest & Er & [[Et' _]|(f & t & on & Et' & _)]); [|congruence].
  rewrite Et in Et'. subst rest. unfold prog in Er. rewrite Ed, bind_app, bind_cons in Er. unfold nemesis_round at 2 in Er. rewrite Ek, bytes_eqb_refl in Er.
  set (w := SLog (lit "partition: isolate " ++ nodeId (dr_target d)) :: isolate (dr_target d) true).
  assert (Edone : done = (before ≫= nemesis_round kinds) ++ w).
  { apply (app_inv_tail (SSleep :: isolate (dr_target d) false ++ SLog (lit "heal partition") :: (after ≫= nemesis_round kinds))).
    rewrite <-Er. unfold w. rewrite <-app_assoc. f_equal. cbn [app]. f_equal. rewrite <-app_assoc. f_equal. cbn [app]. f_equal. by rewrite <-app_assoc. }
  assert (Hok : draw_ok d /\ Forall draw_ok before) by (rewrite Ed, Forall_app, Forall_cons in draws_ok; tauto). destruct Hok as [[Ht _] HF].
  assert (Hc : (dr_target d, j) ∈ cut_after ∅ done /\ (j, dr_target d) ∈ cut_after ∅ done).
  { rewrite Edone, cut_after_app. destruct (rounds_heal kinds before HF) as [-> _]. subst w. unfold numNodes in *.
    destruct (dr_target d) as [|[|[|]]], j as [|[|[|]]]; try lia; split; by_eval. }
  split.
  - rewrite <-(bool_decide_eq_true_2 _ (proj1 Hc)). eapply link_state; [exact X|by apply links_elem|right; intros r; congruence].
  - rewrite <-(bool_decide_eq_true_2 _ (proj2 Hc)). eapply link_state; [exact X|by apply links_elem|right; intros r; congruence].
Qed.
End nemesis.

(** While the goroutine that controls the cluster waits, each proxy runs on its
    own. *)
Lemma proxies_alone evs c c' ft p :
  chaos_run evs c = Some c' -> CStmt ∉ evs -> cc_proxies c !! ft = Some p ->
  exists pevs p', proxy_run pevs p = Some p' /\ (EvSet false ∉ pevs) /\ cc_proxies c' !! ft = Some p'.
Proof.
  revert c p. induction evs as [|ev evs IH]; intros c p E Hev Hp; cbn [chaos_run] in E.
  - injection E as <-. exists [], p. split; [done|]. split; [apply not_elem_of_nil|done].
  - rewrite not_elem_of_cons in Hev. destruct Hev as [He Hev]. destruct (chaos_step ev c) as [c1|] eqn:E1; [|done]. cbn [mbind option_bind] in E.
    destruct ev as [|f t pev]; [done|]. cbn [chaos_step] in E1. destruct (own_event pev) eqn:Ho; [|done].
    destruct (cc_proxies c !! (f, t)) as [q|] eqn:Hq; [|done]. cbn [mbind option_bind] in E1. destruct (proxy_step pev q) as [q'|] eqn:Eq; [|done].
    cbn [mbind option_bind] in E1. injection E1 as <-. destruct (decide (ft = (f, t))) as [->|Hne].
    + rewrite Hq in Hp. injection Hp as ->. destruct (IH _ q' E Hev) as (pevs & p' & H1 & H2 & H3); [apply lookup_insert_eq|].
      exists (pev :: pevs), p'. split; [cbn [proxy_run]; by rewrite Eq|]. split; [|done]. rewrite not_elem_of_cons. split; [|done]. intros <-. done.
    + apply (IH _ p E Hev). cbn [cc_proxies]. by rewrite lookup_insert_ne.
Qed.

(** Nothing crosses a cut link then. *)
Definition silent (f t : nat) (c c' : ChaosCluster) : Prop :=
  exists p p', cc_proxies c !! (f, t) = Some p /\ cc_proxies c' !! (f, t) = Some p' /\ forall k sd, forwarded p' k sd = forwarded p k sd.

Lemma cut_link_silent procs cut ls prog evs c c' f t :
  chaos_ok procs cut ls prog c -> link_is true c f t -> chaos_run evs c = Some c' -> CStmt ∉ evs -> silent f t c c'.
Proof.
  intros (done & X) (p & Hp & Ht & Hs) E Hev. destruct (proxies_alone evs c c' (f, t) p E Hev Hp) as (pevs & p' & E' & Hn & Hp').
  exists p, p'. split; [done|]. split; [done|]. intros k sd. assert (P : proxy_inv p) by (by eapply (xs_proxies _ _ _ _ _ _ X)).
  eapply calm_partition; [done|done|by apply partition_calm|done|done].
Qed.

(** The rounds [runNemesis] goes through. *)
Definition rounds (kinds : list bytes) (draws : list Draw) : list Draw :=
  match kinds with [] => [] | k :: _ => if bytes_eqb k (lit "none") then [] else draws end.

Lemma runNemesis_rounds kinds draws : runNemesis kinds draws = (rounds kinds draws ≫= nemesis_round kinds).
Proof. unfold runNemesis, rounds. destruct kinds as [|k kinds]; [done|]. by destruct (bytes_eqb k _). Qed.


(** Node n2 is isolated while a connection of n1 to it is being forwarded. *)
Definition isolation_example : list ChaosEv :=
  let cuts f t n := CStmt :: replicate n (CProxy f t (EvCut 0)) ++ [CStmt] in
  [CProxy 0 1 EvAccept; CProxy 0 1 (EvHandle 0 0 false); CProxy 0 1 (EvHandle 0 0 false); CProxy 0 1 (EvHandle 0 0 false);
   CProxy 0 1 (EvHandle 0 0 false); CProxy 0 1 (EvArrive 0 ClientSide (lit "PING")); CStmt] ++
  cuts 1 0 2 ++ cuts 0 1 4 ++ cuts 1 2 2 ++ cuts 2 1 2.

Definition example_start : ChaosCluster := (cluster_start (fun _ => true) (fun _ => true) true 0).1.

Definition example_at (evs : list ChaosEv) : ChaosCluster :=
  default example_start (chaos_run evs (run_program (runNemesis [lit "partition"; lit "pause"] [mkDraw 1 0 None None]) example_start)).

(** A pipe of the connection tries to go on. *)
Definition example_hold : list ChaosEv := [CProxy 0 1 (EvPipe 0 ToUpstream 4 false); CProxy 0 1 (EvPipe 0 ToUpstream 4 false)].


(** ** Cleaning up *)

(** Without a launch, what is dead stays dead, and what is killed is. *)
Definition no_launch (l : list Stmt) : Prop := forall i ok, SLaunch i ok ∉ l.

Lemma dead_stays l ps i p :
  no_launch l -> (ps !! i = Some p -> pr_alive p = false) \/ SSignal i SIGKILL ∈ l ->
  forall q, ps !! i = Some p -> procs_after ps l !! i = Some q -> pr_alive q = false.
Proof.
  revert ps p. induction l as [|x l IH]; intros ps p Hn Hd q Hp Hq.
  - destruct Hd as [Hd|Hd]; [|by apply elem_of_nil in Hd]. cbn in Hq. rewrite Hp in Hq. injection Hq as <-. auto.
  - change (procs_after ps (x :: l)) with (procs_after (procs_after ps [x]) l) in Hq.
    assert (Hn' : no_launch l) by (intros j ok H; apply (Hn j ok); by right).
    assert (Hx : exists p', procs_after ps [x] !! i = Some p' /\ (pr_alive p = false -> pr_alive p' = false) /\ (x = SSignal i SIGKILL -> pr_alive p' = false)).
    { destruct x as [| | | | |k sig| |k ok]; try (exists p; by split_and!).
      - destruct (decide (k = i)) as [->|Hk]; cbn.
        + rewrite list_lookup_alter_eq, Hp. cbn. eexists. split; [done|]. unfold deliver. split; [intros H; by rewrite H|intros [= ->]; by destruct (pr_alive p) eqn:?].
        + rewrite list_lookup_alter_ne by done. exists p. split; [done|]. split; [done|]. intros [= ->]. done.
      - destruct (Hn k ok). left. }
    destruct Hx as (p' & Hp' & H1 & H2). eapply (IH _ p' Hn'); [|exact Hp'|exact Hq].
    destruct Hd as [Hd|Hd]; [left; auto|]. apply elem_of_cons in Hd as [<-|Hd]; [left; auto|by right].
Qed.

(** What is partitioned last stays so, without a heal. *)
Lemma cut_stays l s f t :
  (forall g u, SSet g u false ∉ l) -> (f, t) ∈ s \/ SSet f t true ∈ l -> (f, t) ∈ cut_after s l.
Proof.
  revert s. induction l as [|x l IH]; intros s Hn Hd; [destruct Hd as [Hd|Hd]; [done|by apply elem_of_nil in Hd]|].
  change (cut_after s (x :: l)) with (cut_after (cut_after s [x]) l). apply IH; [intros g u H; apply (Hn g u); by right|].
  destruct Hd as [Hd|Hd].
  - left. destruct x as [| |g u []| | | | |]; cbn; try done; [set_solver|]. destruct (Hn g u). left.
  - apply elem_of_cons in Hd as [<-|Hd]; [left; cbn; set_solver|by right].
Qed.

Lemma stop_elem x c :
  x ∈ cluster_stop c ->
  (exists i p, cc_procs c !! i = Some p /\ pr_started p = true /\ (x = SSignal i SIGCONT \/ x = SSignal i SIGKILL \/ x = SExited i)) \/
  (exists f t, is_Some (cc_proxies c !! (f, t)) /\ (x = SListenerClose f t \/ x = SSet f t true)).
Proof.
  unfold cluster_stop. rewrite elem_of_app, !list_elem_of_bind. intros [(i & Hx & _)|([f t] & Hx & _)]; [left|right].
  - destruct (cc_procs c !! i) as [p|] eqn:Hp; [|by apply elem_of_nil in Hx]. destruct (pr_started p) eqn:Es; [|by apply elem_of_nil in Hx].
    exists i, p. rewrite !elem_of_cons, elem_of_nil in Hx. naive_solver.
  - destruct (cc_proxies c !! (f, t)) as [p|] eqn:Hp; [|by apply elem_of_nil in Hx]. exists f, t. rewrite !elem_of_cons, elem_of_nil in Hx. naive_solver.
Qed.

Lemma stop_in_sequence c : length (cc_procs c) = numNodes -> in_sequence (dom (cc_proxies c)) numNodes None (cluster_stop c) = true.
Proof.
  intros Hl. unfold cluster_stop. apply in_sequence_app; apply in_sequence_bind, Forall_forall.
  - intros i Hi. destruct (cc_procs c !! i) as [p|] eqn:Hp; [|done]. destruct (pr_started p); [|done]. cbn.
    apply lookup_lt_Some in Hp. rewrite Hl in Hp. rewrite bool_decide_eq_true_2 by done. cbn. rewrite andb_true_r. unfold numNodes in Hp. apply Nat.leb_le. lia.
  - intros [f t] _. destruct (cc_proxies c !! (f, t)) as [p|] eqn:Hp; [|done]. apply elem_of_dom_2 in Hp. cbn. by rewrite bool_decide_eq_true_2.
Qed.

(** A process that is alive was started. *)
Definition alive_started (p : Proc) : Prop := pr_alive p = true -> pr_started p = true.

Lemma procs_after_started ps l : Forall alive_started ps -> Forall alive_started (procs_after ps l).
Proof.
  revert ps. induction l as [|x l IH]; intros ps HF; [done|]. change (procs_after ps (x :: l)) with (procs_after (procs_after ps [x]) l). apply IH.
  destruct x as [| | | | |k sig| |k []]; cbn; try done; apply Forall_lookup; intros i p Hp.
  - destruct (decide (k = i)) as [->|Hk]; [|rewrite list_lookup_alter_ne in Hp by done; by apply (Forall_lookup_1 _ _ _ _ HF Hp)].
    rewrite list_lookup_alter_eq in Hp. destruct (ps !! i) as [q|] eqn:Hq; [|done]. injection Hp as <-. pose proof (Forall_lookup_1 _ _ _ _ HF Hq) as H.
    unfold alive_started, deliver in *. destruct (pr_alive q) eqn:Ha; [destruct sig|]; cbn; auto; congruence.
  - apply list_lookup_insert_Some in Hp as [(-> & <- & _)|[_ Hp]]; [done|]. by apply (Forall_lookup_1 _ _ _ _ HF Hp).
Qed.

(** What [stop] is given: nothing under way, and every listener open. *)
Record stoppable (cut : gset (nat * nat)) (c : ChaosCluster) : Prop := {
  sp_proxies : forall ft p, cc_proxies c !! ft = Some p -> proxy_as (bool_decide (ft ∈ cut)) true p /\ px_set p = SetIdle;
  sp_procs : Forall alive_started (cc_procs c);
  sb_nodes : length (cc_procs c) = numNodes;
  sp_links : dom (cc_proxies c) ⊆ all_links
}.

Lemma started_stoppable latency c : just_started latency c -> stoppable ∅ c.
Proof.
  intros [J1 J2 J3]. split; [|eapply Forall_impl; [exact J2|]; by intros p [-> | ->]|done|].
  - intros ft p H. destruct (J1 ft p H) as [-> _]. split; [|done]. split; [apply new_proxy_inv|done|done].
  - intros ft Hd. apply elem_of_dom in Hd as [p Hp]. apply elem_of_list_to_set. by apply (J1 ft p Hp).
Qed.

Lemma nemesis_stoppable kinds draws c :
  chaos_ok all_running ∅ all_links (draws ≫= nemesis_round kinds) c -> cc_todo c = [] -> exists cut, stoppable cut c.
Proof.
  intros (done & X) Et. destruct (xs_split _ _ _ _ _ _ X) as (rest & Er & [[Et' Hi]|(f & t & on & Et' & _)]); [|congruence].
  exists (cut_after ∅ done). split.
  - intros ft p Hp. split; [|by eapply Hi]. pose proof (xs_proxies _ _ _ _ _ _ X ft p Hp) as Q. rewrite (bool_decide_eq_false_2 (SListenerClose _ _ ∈ _)) in Q; [exact Q|].
    intros Hin. assert (Hin' : SListenerClose ft.1 ft.2 ∈ draws ≫= nemesis_round kinds) by (rewrite Er; apply elem_of_app; by left).
    apply list_elem_of_bind in Hin' as (d & Hd & _). by apply (proj1 (Forall_forall _ _) (round_touches kinds d)) in Hd.
  - rewrite (xs_procs _ _ _ _ _ _ X). apply procs_after_started. unfold all_running. by apply Forall_replicate.
  - rewrite (xs_procs _ _ _ _ _ _ X), procs_after_length. done.
  - by rewrite (xs_dom _ _ _ _ _ _ X).
Qed.

(** C33: [run] leaves nothing behind.  Whatever of [start] fails, and whatever the
    nemesis drew if it succeeds, launches that fail included: [stop] can always
    go on to its end, however the proxies behave meanwhile, and when it is there
    no process is alive, and every proxy that was made is closed and forwards
    nothing. *)
Theorem chaos_cleans_up listens launches ready latency c0 ok kinds draws c evs c' :
  cluster_start listens launches ready latency = (c0, ok) ->
  (if ok then (exists evs0, chaos_run evs0 (run_program (runNemesis kinds draws) c0) = Some c) /\ cc_todo c = [] else c = c0) ->
  chaos_run evs (run_program (cluster_stop c) c) = Some c' ->
  (exists evs' c'', chaos_run evs' c' = Some c'' /\ cc_todo c'' = []) /\
  (cc_todo c' = [] ->
     Forall (fun p => pr_alive p = false) (cc_procs c') /\
     forall f t, is_Some (cc_proxies c0 !! (f, t)) -> link_is true c' f t /\ (px_listening <$> cc_proxies c' !! (f, t)) = Some false).
Proof.
  intros Hs Hc E. destruct (start_spec _ _ _ _ _ _ Hs) as (J & _ & Hd).
  assert (S : exists cut, stoppable cut c /\ dom (cc_proxies c) = dom (cc_proxies c0)).
  { destruct ok; [|subst c; exists ∅; split; [by eapply started_stoppable|done]]. destruct Hc as [[evs0 E0] Et]. rewrite runNemesis_rounds in E0.
    pose proof (nemesis_executed _ _ _ _ _ Hs _ _ _ _ E0) as X. destruct (nemesis_stoppable _ _ _ X Et) as [cut S]. exists cut. split; [done|].
    destruct X as [done X]. by rewrite (xs_dom _ _ _ _ _ _ X), (proj1 (Hd eq_refl)). }
  destruct S as (cut & S & Edom). pose proof (program_from cut c (cluster_stop c) (sp_proxies _ _ S)) as X0.
  pose proof (chaos_run_ok _ _ _ _ evs _ _ X0 E) as X. split.
  { eapply chaos_finishes; [|exact X]. apply in_sequence_enabled. rewrite (sb_nodes _ _ S). by apply stop_in_sequence, (sb_nodes _ _ S). }
  intros Et. destruct X as (done & X). destruct (xs_split _ _ _ _ _ _ X) as (rest & Er & [[Et' Hi]|(f & t & on & Et' & _)]); [|congruence].
  rewrite Et in Et'. subst rest. rewrite app_nil_r in Er. subst done. split.
  - rewrite (xs_procs _ _ _ _ _ _ X). apply Forall_lookup. intros i q Hq. assert (Hi' : is_Some (cc_procs c !! i)).
    { apply lookup_lt_is_Some. apply lookup_lt_Some in Hq. by rewrite procs_after_length in Hq. }
    destruct Hi' as [p Hp]. eapply dead_stays; [| |exact Hp|exact Hq].
    + intros j ok' Hin. apply stop_elem in Hin as [(? & ? & _ & _ & [?|[?|?]])|(? & ? & _ & [?|?])]; done.
    + destruct (pr_started p) eqn:Es.
      * right. unfold cluster_stop. apply elem_of_app. left. apply list_elem_of_bind. exists i. rewrite Hp, Es.
        split; [right; left|]. apply elem_of_seq. apply lookup_lt_Some in Hp. rewrite (sb_nodes _ _ S) in Hp. lia.
      * left. intros _. pose proof (Forall_lookup_1 _ _ _ _ (sp_procs _ _ S) Hp) as H. unfold alive_started in H. destruct (pr_alive p); [|done]. by rewrite H in Es.
  - intros f t Hft. assert (Hl : (f, t) ∈ dom (cc_proxies c)) by (rewrite Edom; by apply elem_of_dom).
    assert (Hin : forall x, x = SListenerClose f t \/ x = SSet f t true -> x ∈ cluster_stop c).
    { intros x Hx. unfold cluster_stop. apply elem_of_app. right. apply list_elem_of_bind. exists (f, t). pose proof Hl as [p Hp]%elem_of_dom. rewrite Hp.
      split; [destruct Hx as [-> | ->]; [left|right; left]|]. assert (Ha : (f, t) ∈ all_links) by (by apply (sp_links _ _ S)). by apply elem_of_list_to_set in Ha. }
    assert (Hcut : (f, t) ∈ cut_after cut (cluster_stop c)).
    { apply cut_stays; [|right; by apply Hin; right]. intros g u Hg. apply stop_elem in Hg as [(? & ? & _ & _ & [?|[?|?]])|(? & ? & _ & [?|?])]; done. }
    split.
    + rewrite <-(bool_decide_eq_true_2 _ Hcut). eapply link_state; [exact X|done|right; intros r; congruence].
    + assert (Hl' : (f, t) ∈ dom (cc_proxies c')) by (by rewrite (xs_dom _ _ _ _ _ _ X)). apply elem_of_dom in Hl' as [p Hp]. rewrite Hp. cbn. f_equal.
      pose proof (pa_open _ _ _ (xs_proxies _ _ _ _ _ _ X _ _ Hp)) as ->. cbn [fst snd]. rewrite bool_decide_eq_true_2; [done|]. apply Hin. by left.
Qed.

(** The proxy of the link n2 -> n3 cannot listen; three proxies were made before
    it. *)
Definition failed_start : ChaosCluster := (cluster_start (fun ft => negb (bool_decide (ft = (1, 2)))) (fun _ => true) true 0).1.

Definition failed_stop : list ChaosEv :=
  ft ← [(0, 1); (0, 2); (1, 0)]; [CStmt; CStmt; CProxy ft.1 ft.2 (EvCut 0); CProxy ft.1 ft.2 (EvCut 0); CStmt].

Definition after_failed_stop : ChaosCluster := default failed_start (chaos_run failed_stop (run_program (cluster_stop failed_start) failed_start)).

Lemma chaos_cleans_up_witness :
  cluster_start (fun ft => negb (bool_decide (ft = (1, 2)))) (fun _ => true) true 0 = (failed_start, false) /\
  chaos_run failed_stop (run_program (cluster_stop failed_start) failed_start) = Some after_failed_stop /\
  link_is true after_failed_stop 0 2 /\ (px_listening <$> cc_proxies after_failed_stop !! (0, 2)) = Some false.
Proof.
  assert (E0 : cluster_start (fun ft => negb (bool_decide (ft = (1, 2)))) (fun _ => true) true 0 = (failed_start, false)) by (vm_compute; reflexivity).
  assert (E : chaos_run failed_stop (run_program (cluster_stop failed_start) failed_start) = Some after_failed_stop) by (vm_compute; reflexivity).
  split; [exact E0|]. split; [exact E|].
  apply (proj2 (chaos_cleans_up _ _ _ _ _ _ [] [] failed_start failed_stop _ E0 eq_refl E)); [vm_compute; reflexivity|].
  by_eval.
Defined.
