(* ===== verification/ChaosLaunch.v ===== *)
(** * The nodes of the chaos test

    Models [launch] of chaos/main.go, the environment it gives each node, and what
    the nodes make of it: a node reaches itself directly and every other node
    through the proxy of its own directed link, so nodes know each other under
    different addresses.  The nodes then exchange membership by gossip, which
    also carries addresses.

    The theorems say that every launched node starts, or exits when the
    consistency mode is not one it knows; and that gossip, in any order and with
    messages lost, repeated or delayed, and restarts never change the addresses a
    node uses, so that all traffic between nodes stays on the proxies, while all
    nodes place every key on the same replicas. *)

From S2P Require Import Prelude Numerals ConsistentHash RoutingTable HealthChecker Membership Resp Parser ReplicaWire Cluster ClusterLemmas ClusterProps CommandHandler HandlerProps Snapshot ShardedCache Startup ChaosProxy ChaosNemesis.

Local Open Scope Z_scope.

(** ** Launching *)

Section launch.
Variable basePort : Z.

Definition proxyPort (from to : nat) : Z := basePort + 100 + Z.of_nat from * 10 + Z.of_nat to.

Definition nodePort (i : nat) : Z := basePort + Z.of_nat i.

(** The port under which node [i] reaches node [j]. *)
Definition peerPort (i j : nat) : Z := if Nat.eqb j i then nodePort j else proxyPort i j.

Definition launch_peers (i : nat) : bytes :=
  join "," ((fun j => nodeId j ++ lit ":127.0.0.1:" ++ to_dec (peerPort i j)) <$> seq 0 numNodes).

(** What [launch] appends to the environment. *)
Definition launch_vars (consistency : bytes) (i : nat) : list (bytes * bytes) :=
  [(lit "NODE_ID", nodeId i); (lit "PORT", to_dec (nodePort i)); (lit "CLUSTER_PEERS", launch_peers i);
   (lit "IO_THREADS", lit "2"); (lit "RPC_THREADS", lit "16")] ++
  match consistency with [] => [] | _ => [(lit "CONSISTENCY", consistency)] end.

(** The environment of the process: the last value of a name counts. *)
Definition launch_env (inherited : Environment) (consistency : bytes) (i : nat) : Environment :=
  fun name => match env_of (rev (launch_vars consistency i)) name with Some v => Some v | None => inherited name end.

(** The addresses node [i] is given. *)
Definition address (i j : nat) : CacheNode := mkCN (nodeId j) (lit "127.0.0.1") (peerPort i j).
Definition addresses (i : nat) : list CacheNode := address i <$> seq 0 numNodes.

Lemma launch_peers_string i : launch_peers i = peers_string (addresses i).
Proof. done. Qed.

Hypothesis ports_ok : 0 <= basePort /\ basePort + 122 < 65536.

Lemma peerPort_range i j : (i < numNodes)%nat -> (j < numNodes)%nat -> 0 <= peerPort i j < 65536.
Proof using ports_ok. unfold peerPort, nodePort, proxyPort, numNodes. intros Hi Hj. destruct (Nat.eqb j i); lia. Qed.

Lemma addresses_ok i : (i < numNodes)%nat ->
  Forall writable_address (addresses i) /\ NoDup (cn_id <$> addresses i) /\ address i i ∈ addresses i /\
  (list_to_set (cn_id <$> addresses i) : gset bytes) = list_to_set (nodeId <$> seq 0 numNodes).
Proof using ports_ok.
  intros Hi. assert (Ei : cn_id <$> addresses i = nodeId <$> seq 0 numNodes) by (unfold addresses; by rewrite <-list_fmap_compose).
  split; [|split; [|split]].
  - apply Forall_fmap, Forall_forall. intros j Hj. apply elem_of_seq in Hj. pose proof (peerPort_range i j Hi ltac:(lia)) as Hp.
    unfold numNodes in Hj. unfold writable_address. cbn [address cn_id cn_host cn_port]. 
    destruct j as [|[|[|]]]; [..|lia]; (split; [by_eval|]);
      (split; [by_eval|]); (split; [by_eval|]);
      (split; [by_eval|]); exact Hp.
  - rewrite Ei. by_eval.
  - apply list_elem_of_fmap. exists i. split; [done|]. apply elem_of_seq. lia.
  - by rewrite Ei.
Qed.

(** The variables of the program that [launch] leaves to the environment it was
    itself started in. *)
Definition other_vars : list bytes :=
  [lit "ADVERTISE_HOST"; lit "REPLICATION_FACTOR"; lit "READ_QUORUM"; lit "WRITE_QUORUM"; lit "CACHE_CAPACITY"; lit "CONSISTENCY";
   lit "SEEDS"; lit "SNAPSHOT_PATH"; lit "SNAPSHOT_INTERVAL_SEC"; lit "METRICS_PORT"].

Variable inherited : Environment.
Hypothesis inherited_none : forall name, name ∈ other_vars -> inherited name = None.

Lemma launch_unset consistency i name :
  name ∈ other_vars -> name <> lit "CONSISTENCY" -> launch_env inherited consistency i name = None.
Proof using inherited_none.
  intros Hin Hne. unfold launch_env. pose proof (inherited_none name Hin) as E. unfold other_vars in Hin.
  repeat (apply elem_of_cons in Hin as [->|Hin]; [destruct consistency; cbn; solve [exact E | done]|]). by apply elem_of_nil in Hin.
Qed.



Lemma launch_identity consistency i prog :
  (i < numNodes)%nat -> main_identity (launch_env inherited consistency i) [prog] = Some (address i i, peers_string (addresses i)).
Proof using ports_ok inherited_none.
  intros Hi. assert (V : forall name v, env_of (rev (launch_vars consistency i)) name = Some v -> launch_env inherited consistency i name = Some v)
    by (intros name v E; unfold launch_env; by rewrite E).
  unfold main_identity, env_int, env_string. rewrite (launch_unset _ _ (lit "ADVERTISE_HOST")) by by_eval.
  rewrite (V (lit "NODE_ID") (nodeId i)), (V (lit "PORT") (to_dec (nodePort i))), (V (lit "CLUSTER_PEERS") (launch_peers i)) by (by destruct consistency).
  pose proof (peerPort_range i i Hi Hi) as Hp. unfold peerPort in Hp. rewrite Nat.eqb_refl in Hp.
  rewrite atoi_to_dec by lia. cbn [fmap option_fmap option_map mbind option_bind lookup list_lookup from_option id].
  rewrite wrap_small by lia. unfold address, peerPort. by rewrite Nat.eqb_refl.
Qed.

(** The settings, by the consistency mode of the test. *)
Definition launch_settings (consistency : bytes) : option Settings :=
  let cfg := mkSettings 3 0 0 1000000 in
  match consistency with
  | [] => Some (cfg Quorum)
  | _ => if bytes_eqb consistency (lit "linearizable") then Some (cfg Linearizable)
         else if negb (bytes_eqb consistency (lit "quorum")) then None else Some (cfg Quorum)
  end.

Lemma launch_main_settings consistency i : main_settings (launch_env inherited consistency i) = Some (launch_settings consistency).
Proof using inherited_none.
  unfold main_settings, env_size, env_int. rewrite (launch_unset _ _ (lit "REPLICATION_FACTOR")), (launch_unset _ _ (lit "READ_QUORUM")), (launch_unset _ _ (lit "WRITE_QUORUM")),
    (launch_unset _ _ (lit "CACHE_CAPACITY")) by by_eval. cbn [mbind option_bind].
  unfold launch_settings. destruct consistency as [|c rest].
  - assert (H0 : launch_env inherited [] i (lit "CONSISTENCY") = None)
      by (unfold launch_env; cbn; apply inherited_none; by_eval).
    by rewrite H0.
  - by assert (launch_env inherited (c :: rest) i (lit "CONSISTENCY") = Some (c :: rest)) as -> by done.
Qed.

(** What [main] does on a launched node. *)
Lemma launch_starts consistency i prog cores boot now t fs :
  (i < numNodes)%nat ->
  match launch_settings consistency with
  | None => main_start (launch_env inherited consistency i) [prog] cores boot now t fs = Some None
  | Some cfg => set_replication_factor cfg = 3 /\
      exists nd, main_start (launch_env inherited consistency i) [prog] cores boot now t fs = Some (Some nd) /\
        nd_cluster nd = set_mem (started (addresses i) 3 (address i i) boot) (Cluster_new (address i i) cfg boot)
  end.
Proof using ports_ok inherited_none.
  intros Hi. pose proof (launch_identity consistency i prog Hi) as Ei. pose proof (launch_main_settings consistency i) as Es.
  assert (Vn : launch_env inherited consistency i (lit "IO_THREADS") = Some (lit "2") /\
    launch_env inherited consistency i (lit "RPC_THREADS") = Some (lit "16")) by (unfold launch_env; by destruct consistency).
  destruct (launch_settings consistency) as [cfg|] eqn:Ec.
  - assert (Hrf : set_replication_factor cfg = 3).
    { unfold launch_settings in Ec. destruct consistency; [by simplify_eq|]. repeat case_match; by simplify_eq. }
    split; [done|]. destruct (start_members (addresses i) (address i i) cfg (launch_env inherited consistency i) [prog] cores boot now t fs) as (nd & E & En);
      try done; [by apply addresses_ok|apply launch_unset; by_eval..| |].
    + intros name v Hin Hv. repeat (apply elem_of_cons in Hin as [->|Hin]); [..|by apply elem_of_nil in Hin].
      * rewrite (proj1 Vn) in Hv. injection Hv as <-. by eexists.
      * rewrite (proj2 Vn) in Hv. injection Hv as <-. by eexists.
      * by rewrite launch_unset in Hv by by_eval.
      * by rewrite launch_unset in Hv by by_eval.
    + exists nd. split; [done|]. rewrite En, Hrf. reflexivity.
  - unfold main_start. rewrite Ei. cbn [mbind option_bind]. unfold env_int. rewrite (proj1 Vn), (proj2 Vn).
    assert (atoi (lit "2") = Some 2) as -> by done. assert (atoi (lit "16") = Some 16) as -> by done.
    cbn [fmap option_fmap option_map mbind option_bind]. by rewrite Es.
Qed.
End launch.

(** ** Merging entries about known nodes *)

Lemma accept_member_members m c :
  members_ (mc_state (accept_member m c).1) = <[cn_id (mi_node m) := m]> (members_ (mc_state c)).
Proof. unfold accept_member. destruct (_ && _); [done|]. by destruct (_ && _). Qed.

(** A property of entries that raising the generation keeps is kept by merging
    entries that have it. *)
Lemma apply_members_entries (P : MemberInfo -> Prop) remote s :
  (forall m g, P m -> P (mkMI (mi_node m) (u64 g) (mi_status m))) -> Forall P remote -> map_Forall (fun _ => P) (members_ s) ->
  map_Forall (fun _ => P) (members_ (mc_state (apply_members remote s).1)).
Proof.
  intros Hb HF H. induction remote as [|m remote IH] using rev_ind; [done|]. apply Forall_app in HF as [HF Hm]. rewrite Forall_singleton in Hm.
  rewrite apply_members_snoc. specialize (IH HF). destruct (apply_members remote s) as [c changed]. cbn [fst] in IH.
  assert (G : map_Forall (fun _ => P) (members_ (mc_state (apply_member_locked m c).1))).
  { assert (A : map_Forall (fun _ => P) (<[cn_id (mi_node m) := m]> (members_ (mc_state c)))) by (by apply (map_Forall_insert_2 (fun _ => P))).
    rewrite <-(accept_member_members m c) in A. unfold apply_member_locked.
    destruct (members_ (mc_state c) !! _) as [known|] eqn:Ek; [|done]. destruct (_ <=? _); [done|]. destruct (bytes_eqb _ _); [|done].
    cbn. apply (map_Forall_insert_2 (fun _ => P)); [|done]. by eapply Hb, IH. }
  by destruct (apply_member_locked m c).
Qed.

(** The nodes a merge adds are among those it is told of. *)
Lemma apply_members_added (Q : CacheNode -> Prop) remote s :
  Forall (fun m => Q (mi_node m)) remote -> Forall Q (mc_added (apply_members remote s).1) /\
  health_checker_ (mc_state (apply_members remote s).1) = health_checker_ s.
Proof.
  intros HF. induction remote as [|m remote IH] using rev_ind; [done|]. apply Forall_app in HF as [HF Hm]. rewrite Forall_singleton in Hm.
  rewrite apply_members_snoc. specialize (IH HF). destruct (apply_members remote s) as [c changed]. cbn [fst] in IH. destruct IH as [I1 I2].
  assert (G : Forall Q (mc_added (apply_member_locked m c).1) /\ health_checker_ (mc_state (apply_member_locked m c).1) = health_checker_ s).
  { assert (A : Forall Q (mc_added (accept_member m c).1) /\ health_checker_ (mc_state (accept_member m c).1) = health_checker_ s).
    { unfold accept_member. destruct (_ && _); [|by destruct (_ && _)]. cbn. split; [|done]. apply Forall_app. split; [done|by apply Forall_singleton]. }
    unfold apply_member_locked. destruct (members_ (mc_state c) !! _); [|done]. destruct (_ <=? _); [done|]. by destruct (bytes_eqb _ _). }
  by destruct (apply_member_locked m c).
Qed.

Lemma merge_entries (P : MemberInfo -> Prop) remote s :
  (forall m g, P m -> P (mkMI (mi_node m) (u64 g) (mi_status m))) -> Forall P remote -> map_Forall (fun _ => P) (members_ s) ->
  map_Forall (fun _ => P) (members_ (Cluster_merge_gossip remote s).1).
Proof.
  intros Hb HF H. pose proof (apply_members_entries P remote s Hb HF H) as G. unfold Cluster_merge_gossip.
  destruct (apply_members remote s) as [c changed]. by destruct changed.
Qed.

(** ... and so are those it monitors. *)
Lemma merge_monitors (Q : CacheNode -> Prop) remote s :
  Forall (fun m => Q (mi_node m)) remote -> Forall Q (hc_nodes_ (health_checker_ s)) ->
  Forall Q (hc_nodes_ (health_checker_ (Cluster_merge_gossip remote s).1)).
Proof.
  intros HF H. destruct (apply_members_added Q remote s HF) as [G1 G2]. unfold Cluster_merge_gossip.
  destruct (apply_members remote s) as [c changed]. cbn [fst] in *.
  assert (E : forall s', health_checker_ s' = health_checker_ s -> Forall Q (hc_nodes_ (health_checker_ (after_membership_change (mc_added c) (mc_removed c) s')))).
  { intros s' Es. unfold after_membership_change. cbn [health_checker_]. rewrite Es.
    assert (A : forall l h, Forall Q (hc_nodes_ h) -> Forall Q (hc_nodes_ (foldl (fun h id => HealthChecker_remove_node id h) h l))).
    { intros l. induction l as [|id l IH]; intros h Hh; [done|]. cbn [foldl]. apply IH. cbn. apply Forall_forall. intros n Hn. apply list_elem_of_filter in Hn as [_ Hn]. by eapply Forall_forall in Hh. }
    apply A. clear A. revert H. generalize (health_checker_ s). induction G1 as [|n l Hn _ IH]; intros h Hh; [done|]. cbn [foldl].
    apply IH. destruct (bytes_eqb _ _); [done|]. cbn. apply Forall_app. split; [done|]. by apply Forall_singleton. }
  apply E. by destruct changed.
Qed.

(** News that known nodes are alive changes no address, no route and no
    monitoring. *)
Lemma merge_known remote s :
  Forall (fun m => mi_status m = Alive /\ is_Some (nodes_ s !! cn_id (mi_node m))) remote ->
  let s' := (Cluster_merge_gossip remote s).1 in
  nodes_ s' = nodes_ s /\ mb_ring_ s' = mb_ring_ s /\ routing_ s' = routing_ s /\ health_checker_ s' = health_checker_ s /\
  rebalance_requested_ s' = rebalance_requested_ s /\ node_health_ s' = node_health_ s.
Proof.
  intros HF. assert (G : exists c, apply_members remote s = (c, false) /\ mc_added c = [] /\ mc_removed c = [] /\
    mc_state c = with_members (members_ (mc_state c)) s).
  { induction remote as [|m remote IH] using rev_ind; [exists (mkChange s [] []); by destruct s|].
    apply Forall_app in HF as [HF Hm]. rewrite Forall_singleton in Hm; destruct Hm as [Ha Hk]. destruct (IH HF) as (c & E & A & R & M).
    rewrite apply_members_snoc, E. 
    assert (Ek : nodes_ (mc_state c) = nodes_ s) by (by rewrite M).
    assert (X : apply_member_locked m c = (c, false) \/
      exists mems, apply_member_locked m c = (mkChange (with_members mems (mc_state c)) (mc_added c) (mc_removed c), false)).
    { unfold apply_member_locked, accept_member. rewrite Ek, Ha.
      rewrite (bool_decide_eq_true_2 (is_Some _)) by done. cbn. rewrite andb_false_r.
      destruct (members_ (mc_state c) !! _); [|eauto]. destruct (_ <=? _); [eauto|]. destruct (bytes_eqb _ _); eauto. }
    destruct X as [-> |[mems ->]].
    - exists c. by split_and!.
    - eexists. split_and!; [reflexivity|done..|]. cbn [mc_state]. by rewrite M. }
  destruct G as (c & E & A & R & M). unfold Cluster_merge_gossip. rewrite E. cbv zeta iota beta. rewrite A, R, M. done.
Qed.

(** ** The placement of keys depends only on the node ids *)

Definition same_point (p q : Z * CacheNode) : Prop := p.1 = q.1 /\ cn_id p.2 = cn_id q.2.

(** The point with the address of its node forgotten. *)
Definition bare_point (p : Z * CacheNode) : Z * CacheNode := (p.1, mkCN (cn_id p.2) [] 0).

Lemma rings_same_points v ids ops ops' :
  disjoint_vnodes v ids ->
  Forall (fun op => ring_op_id op ∈ ids) ops -> Forall (fun op => ring_op_id op ∈ ids) ops' ->
  dom (physical_nodes_ (Ring_run v ops)) = dom (physical_nodes_ (Ring_run v ops')) ->
  Forall2 same_point (ring_ (Ring_run v ops)) (ring_ (Ring_run v ops')).
Proof.
  intros D H H' E. assert (X : bare_point <$> ring_ (Ring_run v ops) = bare_point <$> ring_ (Ring_run v ops')).
  { assert (Hs : forall o, points_sorted (bare_point <$> ring_ (Ring_run v o))).
    { intros o. unfold points_sorted. rewrite <-list_fmap_compose. exact (rw_sorted _ (Ring_run_wf v o)). }
    assert (Hin : forall o o', ring_complete (Ring_run v o') -> dom (physical_nodes_ (Ring_run v o)) = dom (physical_nodes_ (Ring_run v o')) ->
      forall p, p ∈ bare_point <$> ring_ (Ring_run v o) -> p ∈ bare_point <$> ring_ (Ring_run v o')).
    { intros o o' C Ep p Hp. apply list_elem_of_fmap in Hp as ([h n] & -> & Hp). destruct (rw_point _ (Ring_run_wf v o) _ Hp) as [H1 H2].
      cbn [fst snd] in *. rewrite Ring_run_vnodes in H2.
      assert (Hd : cn_id n ∈ dom (physical_nodes_ (Ring_run v o'))) by (rewrite <-Ep; apply elem_of_dom; eauto).
      apply elem_of_dom in Hd as [n' Hn']. pose proof (rw_ids _ (Ring_run_wf v o') _ _ Hn') as Hi.
      apply list_elem_of_fmap. exists (h, n'). split; [unfold bare_point; cbn; by rewrite Hi|]. apply (C (cn_id n)); [done|].
      by rewrite Ring_run_vnodes. }
    destruct (Ring_run_complete v ids ops D H) as [C _]. destruct (Ring_run_complete v ids ops' D H') as [C' _].
    apply sorted_ext; [apply Hs..|]. intros p. split; by apply Hin. }
  revert X. generalize (ring_ (Ring_run v ops)) (ring_ (Ring_run v ops')). intros l. induction l as [|p l IH]; intros [|q l'] X; [constructor|done|done|].
  rewrite !fmap_cons in X. injection X as X1 X2 X3. constructor; [done|by apply IH].
Qed.

Lemma Forall2_same_filter (P : Z -> Prop) `{!forall z, Decision (P z)} l l' :
  Forall2 same_point l l' -> Forall2 same_point (filter (fun p => P p.1) l) (filter (fun p => P p.1) l').
Proof.
  induction 1 as [|p q l l' [E1 E2] _ IH]; [constructor|]. rewrite !filter_cons. rewrite <-E1.
  case_decide; [by constructor|done].
Qed.

Lemma same_points_successors key r r' :
  Forall2 same_point (ring_ r) (ring_ r') -> cn_id <$> successors key r = cn_id <$> successors key r'.
Proof.
  intros H. assert (W : Forall2 (fun n n' => cn_id n = cn_id n') (successors key r) (successors key r')).
  { unfold successors. apply Forall2_dedup_by; [intros x y x' y' -> ->; done|]. apply Forall2_fmap.
    apply (Forall2_impl same_point); [|by intros p q [_ ?]]. unfold walk. apply Forall2_app.
    - exact (Forall2_same_filter (fun z => hash_fn key <= z) _ _ H).
    - exact (Forall2_same_filter (fun z => z < hash_fn key) _ _ H). }
  induction W as [|n n' l l' E _ IH]; [done|]. rewrite !fmap_cons. by f_equal.
Qed.

(** Members that agree on the ids of the alive nodes place every key on the same
    ids, whatever addresses they know. *)
Lemma same_ids_same_placement s1 s2 key :
  mem_wf s1 -> mem_wf s2 -> routing_in_sync s1 -> routing_in_sync s2 -> replication_factor s1 = replication_factor s2 ->
  dom (nodes_ s1) = dom (nodes_ s2) -> Z.of_nat (size (nodes_ s1)) <= 65536 ->
  disjoint_vnodes 256 (dom (members_ s1) ∪ dom (members_ s2)) ->
  exists T1 T2, Cluster_preference_list key s1 = Some T1 /\ Cluster_preference_list key s2 = Some T2 /\ cn_id <$> T1 = cn_id <$> T2.
Proof.
  intros W1 W2 Y1 Y2 Erf En Hsize D.
  destruct (mw_ring s1 W1) as (ops1 & R1 & F1). destruct (mw_ring s2 W2) as (ops2 & R2 & F2).
  assert (Hring : Forall2 same_point (ring_ (mb_ring_ s1)) (ring_ (mb_ring_ s2))).
  { rewrite R1, R2. eapply (rings_same_points 256); [exact D|..].
    - eapply Forall_impl; [exact F1|]. cbn. intros op Hop. apply elem_of_union. by left.
    - eapply Forall_impl; [exact F2|]. cbn. intros op Hop. apply elem_of_union. by right.
    - by rewrite <-R1, <-R2, (mw_phys s1 W1), (mw_phys s2 W2). }
  unfold Cluster_preference_list. rewrite Y1, Y2, Erf.
  pose proof (point_owners_nodes s1 W1) as Hb1. pose proof (point_owners_nodes s2 W2) as Hb2.
  assert (Hs2 : size (nodes_ s2) = size (nodes_ s1)) by (by rewrite <-!size_dom, En).
  assert (Wr1 : ring_wf (mb_ring_ s1)) by (rewrite R1; apply Ring_run_wf). assert (Wr2 : ring_wf (mb_ring_ s2)) by (rewrite R2; apply Ring_run_wf).
  destruct (routing_table_correct (mb_ring_ s1) (replication_factor s2) (local_id s1) key Wr1) as [-> _]; [lia|].
  destruct (routing_table_correct (mb_ring_ s2) (replication_factor s2) (local_id s2) key Wr2) as [-> _]; [lia|].
  eexists _, _. split; [done|]. split; [done|]. rewrite !locate_replicas_walk by eauto with shard. rewrite !fmap_take. f_equal. by apply same_points_successors.
Qed.

(** A complete ring has a point of every node. *)
Lemma complete_owners r : ring_complete r -> (0 < num_vnodes_ r)%nat -> ring_wf r -> dom (physical_nodes_ r) ⊆ point_owners r.
Proof.
  intros C Hv W id Hid. apply elem_of_dom in Hid as [n Hn]. unfold point_owners. apply elem_of_list_to_set, list_elem_of_fmap.
  exists (vnode_hash id 0, n). split; [symmetry; by apply (rw_ids r W)|]. apply (C id); [done|]. exists 0%nat. by split.
Qed.

(** A member without colliding vnodes places every key on as many nodes as asked
    for, or on all. *)
Lemma placement_length s key T :
  mem_wf s -> routing_in_sync s -> disjoint_vnodes 256 (dom (members_ s)) -> Z.of_nat (size (nodes_ s)) <= 65536 ->
  Cluster_preference_list key s = Some T ->
  length T = (replication_factor s `min` size (nodes_ s))%nat /\ forall n, n ∈ T -> nodes_ s !! cn_id n = Some n.
Proof.
  intros W Y D Hsize. destruct (mw_ring s W) as (ops & R & F). pose proof (point_owners_nodes s W) as Hb.
  assert (Wr : ring_wf (mb_ring_ s)) by (rewrite R; apply Ring_run_wf).
  unfold Cluster_preference_list. rewrite Y.
  destruct (routing_table_correct (mb_ring_ s) (replication_factor s) (local_id s) key Wr) as [-> _]; [lia|]. intros [= <-].
  rewrite locate_replicas_walk by eauto with shard. fold (successors key (mb_ring_ s)). split.
  - rewrite length_take, successors_size. assert (Hc : (size (nodes_ s) <= size (point_owners (mb_ring_ s)))%nat); [|lia].
    rewrite <-size_dom, <-(mw_phys s W). apply subseteq_size. apply complete_owners; [..|done].
    + rewrite R. by apply (Ring_run_complete 256 (dom (members_ s))).
    + rewrite R, Ring_run_vnodes. lia.
  - intros n Hn. apply elem_of_take in Hn as (i & Hi%list_elem_of_lookup_2 & _). rewrite <-(mw_phys s W). by apply (successors_registered key).
Qed.

(** ** Gossip between launched nodes *)

(** What the nodes have sent each other: requests and replies. *)
Inductive GossipMsg := GRequest (args : list bytes) | GReply (reply : RespValue).

(** The memberships of the running nodes, and all messages ever sent. *)
Record Views := mkViews { vw_nodes : list (option Membership); vw_sent : list GossipMsg }.

Definition no_views : Views := mkViews (replicate numNodes None) [].

(** A node is launched, is killed, starts an exchange, serves a request, receives
    a reply, probes the nodes it monitors, or is told of a node's health.
    Messages are never removed: they may be lost, repeated and arrive in any
    order, at a node started since. *)
Inductive ViewEv :=
  | VLaunch (i : nat) (cores boot now t : Z) (fs : Files)
  | VKill (i : nat)
  | VAsk (i : nat)
  | VServe (i k : nat)
  | VLearn (i k : nat)
  | VProbe (i : nat) (ping : CacheNode -> bool)
  | VHealth (i : nat) (id : bytes) (healthy : bool).

(** A node's membership with its health checker replaced. *)
Definition with_checker (h : HealthChecker) (s : Membership) : Membership :=
  mkMembership (local_node_ s) (replication_factor s) (mb_ring_ s) (nodes_ s) (node_health_ s) (members_ s) (routing_ s) h
    (rebalance_requested_ s) (seeds_ s).

Section views.
Variables (basePort : Z) (inherited : Environment) (consistency prog : bytes).

Definition view_step (e : ViewEv) (w : Views) : option Views :=
  let running i (f : Membership -> option (Membership * list GossipMsg)) :=
    s ← (vw_nodes w !! i) ≫= id;
    '(s', msgs) ← f s;
    Some (mkViews (<[i := Some s']> (vw_nodes w)) (vw_sent w ++ msgs)) in
  match e with
  | VLaunch i cores boot now t fs =>
      if bool_decide (0 <= boot < 2 ^ 64) then
        match vw_nodes w !! i, main_start (launch_env basePort inherited consistency i) [prog] cores boot now t fs with
        | Some None, Some (Some nd) => Some (mkViews (<[i := Some (cl_mem (nd_cluster nd))]> (vw_nodes w)) (vw_sent w))
        | _, _ => None
        end
      else None
  | VKill i => Some (mkViews (<[i := None]> (vw_nodes w)) (vw_sent w))
  | VAsk i => running i (fun s => Some (s, [GRequest (gossip_args (Cluster_members s))]))
  | VServe i k => running i (fun s =>
      match vw_sent w !! k with
      | Some (GRequest args) => let '(s', reply) := handle_gossip (cmd_keys (Parser_parse args)) s in Some (s', [GReply reply])
      | _ => None
      end)
  | VLearn i k => running i (fun s =>
      match vw_sent w !! k with
      | Some (GReply reply) => Some ((exchange_gossip_result (rr_success reply) s).1, [])
      | _ => None
      end)
  | VProbe i ping => running i (fun s => Some (with_checker (HealthChecker_run_check ping (health_checker_ s)).1 s, []))
  | VHealth i id healthy => running i (fun s => Some ((Cluster_set_node_health id healthy s).1, []))
  end.

Definition view_run (evs : list ViewEv) (w : Views) : option Views := foldl (fun w e => w ≫= view_step e) (Some w) evs.

(** The proxy that listens on a port. *)
Definition proxy_on_port (port : Z) : option (nat * nat) := List.find (fun ft => proxyPort basePort ft.1 ft.2 =? port) links.

Hypothesis ports_ok : 0 <= basePort /\ basePort + 122 < 65536.
Hypothesis inherited_none : forall name, name ∈ other_vars -> inherited name = None.

(** ** The invariant *)

(** An entry of a member table: a node alive, under the address some node uses. *)
Definition entry_ok (m : MemberInfo) : Prop :=
  mi_status m = Alive /\ 0 <= mi_generation m < 2 ^ 64 /\
  exists i j, (i < numNodes)%nat /\ (j < numNodes)%nat /\ mi_node m = address basePort i j.

Record view_ok (i : nat) (s : Membership) : Prop := {
  vo_wf : mem_wf s;
  vo_sync : routing_in_sync s;
  vo_local : local_node_ s = address basePort i i;
  vo_rf : replication_factor s = 3%nat;
  vo_nodes : forall id n, nodes_ s !! id = Some n <-> n ∈ addresses basePort i /\ cn_id n = id;
  vo_entries : map_Forall (fun _ => entry_ok) (members_ s);
  vo_monitored : Forall (fun n => n ∈ addresses basePort i) (hc_nodes_ (health_checker_ s))
}.

Definition msg_ok (m : GossipMsg) : Prop :=
  exists view, Forall entry_ok view /\
    match m with
    | GRequest args => args = gossip_args view
    | GReply reply => reply = RespArray (BulkString <$> concat (member_fields <$> view))
    end.

Definition views_ok (w : Views) : Prop :=
  length (vw_nodes w) = numNodes /\ Forall msg_ok (vw_sent w) /\
  forall i s, vw_nodes w !! i = Some (Some s) -> view_ok i s.

Lemma entry_member_ok m : entry_ok m -> member_ok m.
Proof using ports_ok.
  intros (_ & Hg & i & j & Hi & Hj & E). unfold member_ok. rewrite E. cbn [address cn_port cn_id cn_host].
  pose proof (peerPort_range basePort ports_ok i j Hi Hj). split; [lia|]. split; [done|].
  unfold numNodes in Hj. destruct j as [|[|[|]]]; [..|lia]; split; by vm_compute.
Qed.

Lemma entry_bump m g : entry_ok m -> entry_ok (mkMI (mi_node m) (u64 g) (mi_status m)).
Proof using Type. intros (Ha & _ & H). split; [done|]. split; [apply wrap_range; lia|done]. Qed.

Lemma entry_known i s m : view_ok i s -> entry_ok m -> mi_status m = Alive /\ is_Some (nodes_ s !! cn_id (mi_node m)).
Proof using Type.
  intros V (Ha & _ & i' & j & Hi & Hj & E). split; [done|]. exists (address basePort i j). apply (vo_nodes i s V). rewrite E.
  split; [|done]. apply list_elem_of_fmap. exists j. split; [done|]. apply elem_of_seq. lia.
Qed.

Lemma merge_view_ok i remote s : view_ok i s -> Forall entry_ok remote -> view_ok i (Cluster_merge_gossip remote s).1.
Proof using Type.
  intros V HF. destruct (merge_known remote s) as (E1 & _ & _ & E2 & _).
  { eapply Forall_impl; [exact HF|]. intros m. by apply entry_known with i. }
  destruct (merge_gossip_ok remote s (vo_wf i s V)) as (W & El & Er & Y). split.
  - done.
  - apply Y, V.
  - rewrite El. apply V.
  - rewrite Er. apply V.
  - intros id n. rewrite E1. apply V.
  - apply merge_entries; [apply entry_bump|done|apply V].
  - rewrite E2. apply V.
Qed.

Lemma view_members i s : view_ok i s -> Forall entry_ok (Cluster_members s).
Proof using Type. intros V. apply Forall_forall. intros m [id Hm]%members_elem. exact (vo_entries i s V id m Hm). Qed.

Lemma view_ids i s : view_ok i s -> (i < numNodes)%nat ->
  dom (nodes_ s) = list_to_set (nodeId <$> seq 0 numNodes) /\ dom (members_ s) = list_to_set (nodeId <$> seq 0 numNodes).
Proof using ports_ok.
  intros V Hi. destruct (addresses_ok basePort ports_ok i Hi) as (_ & _ & _ & Ea). rewrite <-Ea.
  assert (Hn : dom (nodes_ s) = list_to_set (cn_id <$> addresses basePort i)).
  { apply set_eq. intros id. rewrite elem_of_dom, elem_of_list_to_set, list_elem_of_fmap. split.
    - intros [n Hn]. apply (vo_nodes i s V) in Hn as [Hn <-]. by exists n.
    - intros (n & -> & Hn). exists n. by apply (vo_nodes i s V). }
  split; [done|]. rewrite <-Hn. apply set_eq. intros id. rewrite !elem_of_dom, (mw_alive s (vo_wf i s V)). split.
  - intros [m Hm]. exists m. split; [done|]. by apply (vo_entries i s V id m).
  - intros (m & Hm & _). by exists m.
Qed.

(** ** Every step keeps it *)

(** The membership a launched node starts with. *)
Lemma launched_view i boot : (i < numNodes)%nat -> 0 <= boot < 2 ^ 64 ->
  view_ok i (started (addresses basePort i) 3 (address basePort i i) boot).
Proof using ports_ok.
  intros Hi Hb. destruct (addresses_ok basePort ports_ok i Hi) as (_ & ND & Hme & _).
  destruct (started_ok (addresses basePort i) 3 (address basePort i i) boot) as (W & Y & El & Er).
  destruct (started_nodes (addresses basePort i) 3 ND (address basePort i i) boot Hme) as [N _].
  assert (K : forall l s, Forall (fun n => n ∈ addresses basePort i) l -> map_Forall (fun _ => entry_ok) (members_ s) ->
    Forall (fun n => n ∈ addresses basePort i) (hc_nodes_ (health_checker_ s)) ->
    let s' := with_peers (nodeId i) l s in
    map_Forall (fun _ => entry_ok) (members_ s') /\ Forall (fun n => n ∈ addresses basePort i) (hc_nodes_ (health_checker_ s'))).
  { intros l s HF. revert s. induction HF as [|n l Hn _ IH]; intros s Hm Hh; [done|]. unfold with_peers. cbn [foldl].
    apply IH; destruct (bytes_eqb _ _); try done; unfold Cluster_add_node.
    - apply merge_entries; [apply entry_bump| |done]. apply Forall_singleton. split; [done|]. split; [cbn; lia|].
      apply list_elem_of_fmap in Hn as (j & -> & Hj). apply elem_of_seq in Hj. exists i, j. split; [done|]. split; [lia|done].
    - apply merge_monitors; [by apply Forall_singleton|done]. }
  destruct (K (addresses basePort i) (Membership_init (address basePort i i) 3 boot)) as [K1 K2].
  - by apply Forall_forall.
  - unfold Membership_init, publish_routing_locked. cbn [members_]. intros id m Hm. apply lookup_singleton_Some in Hm as [_ <-]. split; [done|]. split; [done|]. by exists i, i.
  - constructor.
  - by split.
Qed.

Lemma run_check_nodes ping h : hc_nodes_ (HealthChecker_run_check ping h).1 = hc_nodes_ h.
Proof using Type.
  unfold HealthChecker_run_check. assert (A : forall l acc, hc_nodes_ (check_loop ping l acc).1 = hc_nodes_ acc.1).
  { intros l. induction l as [|n l IH]; intros [h' evs]; [done|]. unfold check_loop in *. cbn [foldl]. rewrite IH.
    unfold check_node. by destruct (probe_step _ _). }
  apply A.
Qed.

Lemma with_checker_ok i ping s : view_ok i s -> view_ok i (with_checker (HealthChecker_run_check ping (health_checker_ s)).1 s).
Proof using Type. intros [[W1 W2 W3 W4 W5] Y L R N E M]. split; try done. cbn. by rewrite run_check_nodes. Qed.

Lemma set_health_ok i id healthy s : view_ok i s -> view_ok i (Cluster_set_node_health id healthy s).1.
Proof using Type. by intros [[W1 W2 W3 W4 W5] Y L R N E M]. Qed.

(** A request brings the entries of its sender, and the reply those of the
    server. *)
Lemma serve_ok i args s : view_ok i s -> msg_ok (GRequest args) ->
  view_ok i (handle_gossip (cmd_keys (Parser_parse args)) s).1 /\ msg_ok (GReply (handle_gossip (cmd_keys (Parser_parse args)) s).2).
Proof using ports_ok.
  intros V (view & HF & ->). rewrite parse_gossip. cbn [cmd_keys]. unfold handle_gossip.
  rewrite decode_member_fields by (eapply Forall_impl; [exact HF|apply entry_member_ok]).
  pose proof (merge_view_ok i view s V HF) as V'. pose proof (merge_view view s) as Ev.
  destruct (Cluster_merge_gossip view s) as [s' view']. cbn [fst snd] in *. subst view'. split; [done|].
  exists (Cluster_members s'). split; [by apply view_members with i|done].
Qed.

Lemma learn_ok i reply s : view_ok i s -> msg_ok (GReply reply) -> view_ok i (exchange_gossip_result (rr_success reply) s).1.
Proof using ports_ok.
  intros V (view & HF & ->). unfold exchange_gossip_result. cbn.
  rewrite <-list_fmap_compose, (list_fmap_ext _ id), list_fmap_id by done.
  rewrite decode_member_fields by (eapply Forall_impl; [exact HF|apply entry_member_ok]). by apply merge_view_ok.
Qed.

Lemma views_ok_update i s msgs w :
  views_ok w -> view_ok i s -> Forall msg_ok msgs -> views_ok (mkViews (<[i := Some s]> (vw_nodes w)) (vw_sent w ++ msgs)).
Proof using Type.
  intros (HL & HM & HV) V Hm. split; [by cbn; rewrite length_insert|]. split; [by apply Forall_app|]. cbn. intros i' s' H.
  apply list_lookup_insert_Some in H as [(<- & ? & _)|[_ H]]; [by simplify_eq|by apply HV].
Qed.

Lemma view_step_ok e w w' : views_ok w -> view_step e w = Some w' -> views_ok w'.
Proof using ports_ok inherited_none.
  intros K H. pose proof K as (HL & HM & HV). destruct e as [i cores boot now t fs|i|i|i k|i k|i ping|i id b]; cbn in H.
  - case_bool_decide as Hb; [|done]. destruct (vw_nodes w !! i) as [[s|]|] eqn:Ei; [done| |done].
    pose proof (lookup_lt_Some _ _ _ Ei) as Hi. rewrite HL in Hi.
    pose proof (launch_starts basePort ports_ok inherited inherited_none consistency i prog cores boot now t fs Hi) as S.
    destruct (launch_settings consistency) as [cfg|]; [|by rewrite S in H]. destruct S as (_ & nd & Es & En). rewrite Es in H.
    injection H as <-. rewrite <-(app_nil_r (vw_sent w)). apply views_ok_update; [done| |constructor].
    rewrite En. by apply launched_view.
  - injection H as <-. split; [by cbn; rewrite length_insert|]. split; [done|]. cbn. intros i' s' H.
    apply list_lookup_insert_Some in H as [(_ & ? & _)|[_ H]]; [done|by apply HV].
  - destruct (vw_nodes w !! i) as [[s|]|] eqn:Ei; [|done..]. cbn in H. injection H as <-. pose proof (HV i s Ei) as V.
    apply views_ok_update; [done..|]. apply Forall_singleton. exists (Cluster_members s). split; [by apply view_members with i|done].
  - destruct (vw_nodes w !! i) as [[s|]|] eqn:Ei; [|done..]. cbn in H. pose proof (HV i s Ei) as V.
    destruct (vw_sent w !! k) as [[args|]|] eqn:Ek; [|done..].
    destruct (serve_ok i args s V) as [S1 S2]; [by eapply Forall_lookup_1|].
    destruct (handle_gossip _ s) as [s' reply]. cbn in H. injection H as <-. apply views_ok_update; [done..|]. by apply Forall_singleton.
  - destruct (vw_nodes w !! i) as [[s|]|] eqn:Ei; [|done..]. cbn in H. pose proof (HV i s Ei) as V.
    destruct (vw_sent w !! k) as [[|reply]|] eqn:Ek; [done| |done]. cbn in H. injection H as <-.
    apply views_ok_update; [done| |constructor]. apply learn_ok; [done|]. by eapply Forall_lookup_1.
  - destruct (vw_nodes w !! i) as [[s|]|] eqn:Ei; [|done..]. cbn in H. injection H as <-.
    apply views_ok_update; [done| |constructor]. by apply with_checker_ok, HV.
  - destruct (vw_nodes w !! i) as [[s|]|] eqn:Ei; [|done..]. cbn in H. injection H as <-.
    apply views_ok_update; [done| |constructor]. by apply set_health_ok, HV.
Qed.

Lemma view_run_ok evs w : view_run evs no_views = Some w -> views_ok w.
Proof using ports_ok inherited_none.
  unfold view_run. revert w. induction evs as [|e evs IH] using rev_ind; intros w H.
  - injection H as <-. split; [done|]. split; [constructor|]. intros i s Hi. cbn in Hi. by destruct i as [|[|[|]]].
  - rewrite foldl_app in H. cbn [foldl] in H. apply bind_Some in H as (w1 & H1 & H2). by apply (view_step_ok e w1); [apply IH|].
Qed.

(** ** Where the traffic goes *)

Lemma node_ids_apart : disjoint_vnodes 256 (list_to_set (nodeId <$> seq 0 numNodes)).
Proof using Type. apply disjoint_vnodes_check. by_eval. Qed.

(** An address of another node is that of the proxy of the link to it. *)
Lemma address_proxied i n : (i < numNodes)%nat -> n ∈ addresses basePort i -> cn_id n <> nodeId i ->
  exists j, (j < numNodes)%nat /\ cn_id n = nodeId j /\ proxy_on_port (cn_port n) = Some (i, j).
Proof using ports_ok.
  intros Hi Hn Hne. apply list_elem_of_fmap in Hn as (j & -> & Hj). apply elem_of_seq in Hj. cbn [address cn_id cn_port] in *.
  exists j. split; [lia|]. split; [done|]. unfold peerPort. destruct (Nat.eqb_spec j i) as [->|Hji]; [done|].
  unfold proxy_on_port. assert (links = [(0, 1); (0, 2); (1, 0); (1, 2); (2, 0); (2, 1)]%nat) as -> by reflexivity.
  unfold numNodes in *. cbn [List.find fst snd]. unfold proxyPort.
  destruct i as [|[|[|]]]; [..|lia]; (destruct j as [|[|[|]]]; [..|lia]); try done;
    repeat (rewrite (proj2 (Z.eqb_neq _ _)) by lia); by rewrite Z.eqb_refl.
Qed.

(** The nodes a member sends anything to. *)
Definition contacts (key : bytes) (s : Membership) : list CacheNode :=
  default [] (Cluster_preference_list key s) ++ (map_to_list (nodes_ s)).*2 ++ gossip_peers s ++ hc_nodes_ (health_checker_ s).

Lemma contacts_addresses i key s n : (i < numNodes)%nat -> view_ok i s -> n ∈ contacts key s -> n ∈ addresses basePort i.
Proof using ports_ok.
  intros Hi V Hn. destruct (view_ids i s V Hi) as [_ Em].
  assert (Hs : size (nodes_ s) = 3%nat) by (rewrite <-size_dom, (proj1 (view_ids i s V Hi)); by vm_compute).
  unfold contacts in Hn. rewrite !elem_of_app in Hn. destruct Hn as [Hn|[Hn|[Hn|Hn]]].
  - destruct (Cluster_preference_list key s) as [T|] eqn:ET; [|by apply elem_of_nil in Hn].
    destruct (placement_length s key T (vo_wf i s V) (vo_sync i s V)) as [_ P]; [rewrite Em; apply node_ids_apart|lia|done|].
    by apply P, (vo_nodes i s V) in Hn as [? _].
  - apply list_elem_of_fmap in Hn as ([id n'] & -> & Hn). apply elem_of_map_to_list in Hn. by apply (vo_nodes i s V) in Hn as [? _].
  - unfold gossip_peers in Hn. apply list_elem_of_fmap in Hn as ([id n'] & -> & Hn). apply list_elem_of_filter in Hn as [_ Hn].
    apply elem_of_map_to_list, lookup_delete_Some in Hn as [_ Hn]. by apply (vo_nodes i s V) in Hn as [? _].
  - by eapply Forall_forall in Hn; [|apply (vo_monitored i s V)].
Qed.

(** Every node places every key on the three nodes, in one order. *)
Lemma view_placement i i' s s' key : (i < numNodes)%nat -> (i' < numNodes)%nat -> view_ok i s -> view_ok i' s' ->
  exists T T', Cluster_preference_list key s = Some T /\ Cluster_preference_list key s' = Some T' /\
    cn_id <$> T ≡ₚ nodeId <$> seq 0 numNodes /\ cn_id <$> T = cn_id <$> T'.
Proof using ports_ok.
  intros Hi Hi' V V'. destruct (view_ids i s V Hi) as [En Em]. destruct (view_ids i' s' V' Hi') as [En' Em'].
  assert (Hs : size (nodes_ s) = 3%nat) by (rewrite <-size_dom, En; by vm_compute).
  destruct (same_ids_same_placement s s' key) as (T & T' & ET & ET' & E); try apply V; try apply V'.
  - by rewrite (vo_rf i s V), (vo_rf i' s' V').
  - by rewrite En, En'.
  - lia.
  - rewrite Em, Em', union_idemp_L. apply node_ids_apart.
  - exists T, T'. split; [done|]. split; [done|]. split; [|done].
    destruct (placement_length s key T (vo_wf i s V) (vo_sync i s V)) as [PL P]; [rewrite Em; apply node_ids_apart|lia|done|].
    assert (R : routing_ok s).
    { destruct (mw_ring s (vo_wf i s V)) as (ops & Er & _). exists (mb_ring_ s). split; [rewrite Er; apply Ring_run_wf|].
      pose proof (point_owners_nodes s (vo_wf i s V)). split; [lia|apply V]. }
    destruct (targets_exist key s R) as (T0 & ET0 & ND & _). assert (T0 = T) as -> by congruence.
    apply submseteq_length_Permutation.
    + apply NoDup_submseteq; [done|]. intros id Hid. apply list_elem_of_fmap in Hid as (n & -> & Hn). apply P in Hn.
      apply elem_of_dom_2 in Hn. rewrite En in Hn. by apply elem_of_list_to_set in Hn.
    + rewrite !length_fmap, length_seq, PL, (vo_rf i s V), Hs. done.
Qed.
End views.

(** ** The theorem *)

(** C35: In the chaos test all traffic between nodes stays on the proxies of the
    links it belongs to, and all nodes place keys alike.  A node that is not
    running can be started whenever the consistency mode is one it knows.  After
    any sequence of starts, kills, gossip exchanges (with messages lost, repeated,
    delayed and received by a later process), probes and health reports, every
    node a member sends requests, gossip or probes to is the node itself or is
    reached through the proxy of the link from the member to that node, though the
    members tell each other different addresses; and all members place every key
    on all three nodes, in the same order. *)
Theorem chaos_routes_proxied basePort inherited consistency prog evs w :
  0 <= basePort /\ basePort + 122 < 65536 -> (forall name, name ∈ other_vars -> inherited name = None) ->
  view_run basePort inherited consistency prog evs no_views = Some w ->
  (forall i cores boot now t fs, launch_settings consistency <> None -> vw_nodes w !! i = Some None -> 0 <= boot < 2 ^ 64 ->
     is_Some (view_step basePort inherited consistency prog (VLaunch i cores boot now t fs) w)) /\
  forall i s, vw_nodes w !! i = Some (Some s) ->
    (forall key n, n ∈ contacts key s -> cn_id n <> nodeId i ->
       exists j, (j < numNodes)%nat /\ cn_id n = nodeId j /\ proxy_on_port basePort (cn_port n) = Some (i, j)) /\
    forall key i' s', vw_nodes w !! i' = Some (Some s') ->
      exists T T', Cluster_preference_list key s = Some T /\ Cluster_preference_list key s' = Some T' /\
        cn_id <$> T ≡ₚ nodeId <$> seq 0 numNodes /\ cn_id <$> T = cn_id <$> T'.
Proof.
  intros HP HN H. destruct (view_run_ok basePort inherited consistency prog HP HN evs w H) as (HL & _ & HV).
  assert (B : forall i x, vw_nodes w !! i = Some x -> (i < numNodes)%nat) by (intros i x Hx; rewrite <-HL; by eapply lookup_lt_Some).
  split.
  - intros i cores boot now t fs Hc Hi Hb. pose proof (B i _ Hi) as Hlt. cbn [view_step]. rewrite (bool_decide_eq_true_2 _ Hb), Hi.
    pose proof (launch_starts basePort HP inherited HN consistency i prog cores boot now t fs Hlt) as S.
    destruct (launch_settings consistency); [|done]. destruct S as (_ & nd & -> & _). by eexists.
  - intros i s Hi. pose proof (B i _ Hi) as Hlt. split.
    + intros key n Hn Hne. eapply address_proxied; [done..| |done]. by eapply contacts_addresses, Hn; [..|apply HV].
    + intros key i' s' Hi'. apply (view_placement basePort HP i i'); eauto.
Qed.

(** Three nodes are started and exchange views; the first is killed and started
    again, and gets a reply to a request of its former process. *)
Definition sample_views : list ViewEv :=
  [VLaunch 0 4 1000 0 0 ∅; VLaunch 1 4 1001 0 0 ∅; VAsk 0; VServe 1 0; VLearn 0 1;
   VLaunch 2 4 1002 0 0 ∅; VKill 0; VLaunch 0 4 2000 0 0 ∅; VLearn 0 1; VAsk 0; VServe 2 2].

Definition sample_run : option Views :=
  view_run 17500 (fun _ => None) (lit "linearizable") (lit "cache_server") sample_views no_views.

(** All three nodes run in the end. *)
Definition all_up (w : Views) : bool :=
  match vw_nodes w with [Some _; Some _; Some _] => true | _ => false end.

Lemma all_up_views r : from_option all_up false r = true ->
  exists w s0 s1 s2, r = Some w /\ vw_nodes w = [Some s0; Some s1; Some s2].
Proof.
  destruct r as [w|]; [|done]. cbn. unfold all_up. destruct (vw_nodes w) as [|[s0|] [|[s1|] [|[s2|] [|]]]] eqn:E; try done.
  intros _. by exists w, s0, s1, s2.
Qed.

Lemma chaos_routes_proxied_witness : exists w s0 s2 T0 T2,
  sample_run = Some w /\ vw_nodes w !! 0%nat = Some (Some s0) /\ vw_nodes w !! 2%nat = Some (Some s2) /\
  Cluster_preference_list (lit "k1") s0 = Some T0 /\ Cluster_preference_list (lit "k1") s2 = Some T2 /\ cn_id <$> T0 = cn_id <$> T2.
Proof.
  assert (R : from_option all_up false sample_run = true) by (vm_compute; reflexivity).
  destruct (all_up_views sample_run R) as (w & s0 & s1 & s2 & E & Ew). clear R.
  destruct (chaos_routes_proxied 17500 (fun _ => None) (lit "linearizable") (lit "cache_server") sample_views w) as [_ K];
    [lia|intros name _; reflexivity|exact E|].
  destruct (K 0%nat s0) as [_ P]; [by rewrite Ew|]. destruct (P (lit "k1") 2%nat s2) as (T0 & T2 & E0 & E2 & _ & ET); [by rewrite Ew|].
  exists w, s0, s2, T0, T2. split; [exact E|]. clear E. by rewrite Ew.
Defined.
