(* ===== verification/ChaosWorkload.v ===== *)
(** * The workload and the verdict of the chaos test

    Models [Do] of chaos/resp.go with the state of its connection, and
    [waitReady], [stats], [runClient] and [run] of chaos/main.go.

    A call of [Do] meets an environment: whether dialling and writing succeed,
    what the server answers, and how many of the bytes on their way arrive before
    the deadline.  A turn of [runClient]'s loop has the two random draws and the
    times at which it looks at the clock.  The clients run concurrently and share
    only the counters, which a mutex protects: the order in which the increments
    happen is an argument of [run_test].  Counters are unbounded integers.
    Porcupine is a parameter, of which only its contract is used: the verdict Ok
    means that every part of the history is linearizable, the verdict Illegal that
    some part is not.

    The theorems say that a reply is never taken for the reply to another
    request, whatever is lost or late; and that the verdict and the reports of
    anomalies are about the whole store, that the history satisfies what the
    checker relies on, and that the counters account for every operation. *)

From S2P Require Import Prelude Numerals CacheEntry Cache VersionedStore Resp Cluster ClusterProps Register Linearizability Chaos ChaosClient ChaosRuns.

Local Open Scope Z_scope.

(** ** The connection of a client *)

(** Bytes received and not read, and bytes the server has sent that have not
    arrived. *)
Record GoConn := mkGoConn { gc_unread : bytes; gc_inflight : bytes }.

(** What happens during a call: whether dialling and writing succeed, the answer
    to the request, and how many bytes arrive before the deadline. *)
Record DoEnv := mkDoEnv { dv_dial : bool; dv_write : bool; dv_reply : option RespValue; dv_arrive : nat }.

Inductive DoOutcome := OutReply (r : Reply) | OutServerError (msg : bytes) | OutError.

Definition RespClient_Close (conn : option GoConn) : option GoConn := None.

(** [Do]: the connection after the call, the result, and what was written. *)
Definition RespClient_Do (args : list bytes) (e : DoEnv) (conn : option GoConn) : option GoConn * DoOutcome * bytes :=
  match (match conn with Some c => Some c | None => if dv_dial e then Some (mkGoConn [] []) else None end) with
  | None => (None, OutError, [])
  | Some c =>
      let buf := go_command args in
      if negb (dv_write e) then (RespClient_Close (Some c), OutError, [])
      else
        let inflight := gc_inflight c ++ from_option (append_value []) [] (dv_reply e) in
        let received := gc_unread c ++ take (dv_arrive e) inflight in
        let left := drop (dv_arrive e) inflight in
        match readReply received with
        | GoReply r rest => (Some (mkGoConn rest left), OutReply r, buf)
        | GoServerError msg rest => (Some (mkGoConn rest left), OutServerError msg, buf)
        | GoWait | GoError => (RespClient_Close (Some c), OutError, buf)
        end
  end.

(** The calls of a client, one after the other. *)
Fixpoint do_all (calls : list (list bytes * DoEnv)) (conn : option GoConn) : list DoOutcome :=
  match calls with
  | [] => []
  | (args, e) :: rest => let '(conn', out, _) := RespClient_Do args e conn in out :: do_all rest conn'
  end.

(** ** Waiting for the nodes *)

(** One attempt: a PING on a connection of its own. *)
Definition ping_ready (e : DoEnv) : bool :=
  match (RespClient_Do [lit "PING"] e None).1.2 with
  | OutReply r => bytes_eqb (rp_str r) (lit "PONG")
  | _ => false
  end.

(** Per node, whether it has exited after 150 ms, and the outcomes of the
    attempts. *)
Record Boot := mkBoot { bt_id : bytes; bt_exited : bool; bt_tries : list DoEnv }.

Fixpoint waitReady (nodes : list Boot) : option bytes :=
  match nodes with
  | [] => None
  | n :: rest =>
      if bt_exited n then Some (lit "node " ++ bt_id n ++ lit " exited during startup; see " ++ bt_id n ++ lit ".log")
      else if existsb ping_ready (take 100 (bt_tries n)) then waitReady rest
      else Some (lit "node " ++ bt_id n ++ lit " did not start")
  end.

(** ** Statistics *)

Inductive Bucket := StOk | StFailed | StIndeterminate | StErrors.

#[global] Instance Bucket_eq_dec : EqDecision Bucket.
Proof. solve_decision. Defined.

(** One call of [add]. *)
Abbreviation Count := (Bucket * bytes)%type.

Record TestStats := mkTestStats { ts_ok : gmap bytes Z; ts_failed : gmap bytes Z; ts_indeterminate : gmap bytes Z; ts_errors : gmap bytes Z }.

Definition newStats : TestStats := mkTestStats ∅ ∅ ∅ ∅.

Definition bump (k : bytes) (m : gmap bytes Z) : gmap bytes Z := <[k := default 0 (m !! k) + 1]> m.

Definition stats_add (s : TestStats) (c : Count) : TestStats :=
  match c.1 with
  | StOk => mkTestStats (bump c.2 (ts_ok s)) (ts_failed s) (ts_indeterminate s) (ts_errors s)
  | StFailed => mkTestStats (ts_ok s) (bump c.2 (ts_failed s)) (ts_indeterminate s) (ts_errors s)
  | StIndeterminate => mkTestStats (ts_ok s) (ts_failed s) (bump c.2 (ts_indeterminate s)) (ts_errors s)
  | StErrors => mkTestStats (ts_ok s) (ts_failed s) (ts_indeterminate s) (bump c.2 (ts_errors s))
  end.

(** ** The clients *)

(** One turn of the loop: the clock at its start, the draws, the clock before and
    after the call, and the call's environment. *)
Record Turn := mkTurn { tn_now : Z; tn_key : Z; tn_draw : Z; tn_call : Z; tn_return : Z; tn_env : DoEnv }.

Definition turn_input (id seq : Z) (t : Turn) : kvInput :=
  let key := lit "k" ++ to_dec (tn_key t) in
  if tn_draw t <? 5 then mkInput opGet key []
  else if tn_draw t <? 9 then mkInput opPut key (lit "c" ++ to_dec id ++ lit "-" ++ to_dec seq)
  else mkInput opDel key [].

Definition op_name (input : kvInput) : bytes := default [] (head (op_args input)).

Definition outcome_result (out : DoOutcome) : DoResult :=
  match out with
  | OutReply r => DoReply (if rp_nil r then None else Some (rp_str r))
  | OutServerError _ | OutError => DoError
  end.

(** The counters the outcome of an operation increments. *)
Definition turn_counts (input : kvInput) (out : DoOutcome) : list Count :=
  match out, in_op input with
  | OutReply _, _ => [(StOk, op_name input)]
  | _, opGet => [(StFailed, op_name input)]
  | OutServerError msg, _ => [(StFailed, op_name input); (StErrors, msg)]
  | OutError, _ => [(StIndeterminate, op_name input)]
  end.

(** What a turn leaves: the operation issued, the entry in the history, and the
    counts. *)
Record Done := mkDone { dn_input : kvInput; dn_out : DoOutcome; dn_entry : option Operation; dn_counts : list Count }.

(** The loop of [runClient]. *)
Fixpoint client_loop (deadline id seq : Z) (turns : list Turn) (conn : option GoConn) : list Done :=
  match turns with
  | [] => []
  | t :: rest =>
      if tn_now t <? deadline then
        let input := turn_input id seq t in
        let '(conn', out, _) := RespClient_Do (op_args input) (tn_env t) conn in
        mkDone input out (record_op id input (tn_call t) (outcome_result out) (tn_return t)) (turn_counts input out) ::
          client_loop deadline id (seq + 1) rest conn'
      else []
  end.

Definition runClient (deadline id : Z) (turns : list Turn) : list Done := client_loop deadline id 0 turns None.

(** ** The test *)

(** The verdict of Porcupine. *)
Inductive CheckResult := CheckOk | CheckIllegal | CheckUnknown.

Record TestReport := mkReport {
  tr_history : list Operation;
  tr_stats : TestStats;
  tr_stale : nat * list (Operation * Operation * option write);
  tr_inversions : nat * list (read * read)
}.

(** What the clients do; [turns] has a list for each of them. *)
Definition all_done (deadline : Z) (turns : list (list Turn)) : list Done :=
  concat (imap (fun i ts => runClient deadline (Z.of_nat i) ts) turns).

(** [run]: the exit status, and what is reported.  [adds] are the increments of
    the counters in the order in which they happen. *)
Definition run_test `{SortSlice} (check : list Operation -> CheckResult) (mkdir_ok start_ok : bool) (deadline : Z) (turns : list (list Turn))
    (adds : list Count) : Z * option TestReport :=
  if negb mkdir_ok then (2, None)
  else if negb start_ok then (2, None)
  else
    let history := omap dn_entry (all_done deadline turns) in
    (match check history with CheckOk => 0 | CheckIllegal => 1 | CheckUnknown => 3 end,
     Some (mkReport history (foldl stats_add newStats adds) (staleReads history) (inversions history))).

(** ** A reply belongs to its request *)

(** What [Do] makes of a reply that arrives whole. *)
Definition value_outcome (v : RespValue) : DoOutcome :=
  match go_read v [] with
  | GoReply r _ => OutReply r
  | GoServerError msg _ => OutServerError msg
  | GoWait | GoError => OutError
  end.

Lemma go_read_string_none s : no_lf s -> go_read_string s = None.
Proof.
  induction s as [|c s IH]; intros H; [done|]. unfold no_lf in H. apply not_elem_of_cons in H as [Hc Hs]. cbn.
  destruct (Ascii.eqb_spec c LF) as [->|_]; [done|]. by rewrite IH.
Qed.

(** A line that has not arrived whole. *)
Lemma readLine_prefix s n : no_lf s -> (n < length (s ++ CRLF))%nat -> readLine (take n (s ++ CRLF)) = None.
Proof.
  intros Hs Hn. unfold readLine. rewrite go_read_string_none; [done|]. unfold no_lf. rewrite length_app in Hn. change (length CRLF) with 2%nat in Hn.
  destruct (decide (n <= length s)%nat) as [L|L].
  - rewrite take_app_le by done. intros Hin. apply elem_of_take in Hin as (i & Hi%list_elem_of_lookup_2 & _). done.
  - assert (n = length s + 1)%nat as -> by lia. rewrite take_app_add. rewrite elem_of_app. intros [Hin|Hin]; [done|].
    cbn in Hin. apply list_elem_of_singleton in Hin. by vm_compute in Hin.
Qed.

Lemma readReply_prefix v n : go_readable v -> (n < length (append_value [] v))%nat -> readReply (take n (append_value [] v)) = GoWait.
Proof.
  assert (L : forall c s, no_lf s -> Ascii.eqb c LF = false -> no_lf (c :: s)).
  { intros c s Hs Hc. unfold no_lf. rewrite not_elem_of_cons. split; [|done]. intros <-. by rewrite Ascii.eqb_refl in Hc. }
  assert (G : forall c s n, no_lf s -> Ascii.eqb c LF = false -> (n < length ((c :: s) ++ CRLF))%nat -> readReply (take n ((c :: s) ++ CRLF)) = GoWait).
  { intros c s m Hs Hc Hm. unfold readReply. by rewrite readLine_prefix by auto. }
  destruct v as [s|s|z|s| |l]; cbn [go_readable append_value]; intros H Hn; [..|done].
  - by apply (G "+"%char).
  - by apply (G "-"%char).
  - apply (G ":"%char); [apply to_dec_no_lf|done|done].
  - unfold append_bulk in *. rewrite app_nil_l in *. set (d := to_dec (Z.of_nat (length s))) in *.
    change (lit "$" ++ d ++ CRLF ++ s ++ CRLF) with (("$"%char :: d) ++ CRLF ++ (s ++ CRLF)) in *. rewrite app_assoc in *.
    destruct (decide (n < length (("$"%char :: d) ++ CRLF))%nat) as [Hlt|Hge].
    + rewrite take_app_le by lia. apply (G "$"%char); [apply to_dec_no_lf|done|done].
    + rewrite take_app_ge by lia. rewrite <-app_assoc. unfold readReply.
      rewrite readLine_line by (apply L; [apply to_dec_no_lf|done]). cbn [Ascii.eqb Bool.eqb].
      assert (go_parse_int d = Some (Z.of_nat (length s))) as -> by (apply go_parse_to_dec; lia).
      rewrite (proj2 (Z.ltb_ge _ _)) by lia. rewrite (proj2 (Z.ltb_lt _ _)); [done|].
      rewrite length_take. rewrite !length_app in *. change (length CRLF) with 2%nat in *. lia.
  - apply (G "$"%char (lit "-1")); [unfold no_lf; by_eval|done|done].
Qed.

Definition conn_clean (conn : option GoConn) : Prop := conn = None \/ conn = Some (mkGoConn [] []).

Definition reply_readable (e : DoEnv) : Prop := forall v, dv_reply e = Some v -> go_readable v.

(** The reply arrives in time. *)
Definition reply_arrives (e : DoEnv) (v : RespValue) : Prop :=
  dv_dial e = true /\ dv_write e = true /\ dv_reply e = Some v /\ (length (append_value [] v) <= dv_arrive e)%nat.

(** The outcome of a call is that of its own request. *)
Definition own_outcome (e : DoEnv) (out : DoOutcome) : Prop :=
  (out = OutError \/ exists v, dv_reply e = Some v /\ out = value_outcome v) /\
  forall v, reply_arrives e v -> out = value_outcome v.

Lemma do_clean args e conn : conn_clean conn -> reply_readable e ->
  conn_clean (RespClient_Do args e conn).1.1 /\ own_outcome e (RespClient_Do args e conn).1.2.
Proof.
  intros HC HR. unfold RespClient_Do. set (c := match conn with Some c => Some c | None => if dv_dial e then _ else _ end).
  assert (Ec : c = None /\ dv_dial e = false \/ c = Some (mkGoConn [] [])).
  { unfold c. destruct HC as [-> | ->]; [destruct (dv_dial e); auto|by right]. }
  destruct Ec as [[-> Ed]| ->].
  { split; [by left|]. split; [by left|]. intros v (Hd & _). congruence. }
  destruct (dv_write e) eqn:Ew; cbn [negb fst snd].
  2: { split; [by left|]. split; [by left|]. intros v (_ & Hw & _). congruence. }
  cbn [gc_inflight gc_unread app]. destruct (dv_reply e) as [v|] eqn:Ev; cbn [from_option].
  2: { rewrite take_nil. cbn. split; [by left|]. split; [by left|]. intros v (_ & _ & Hv & _). congruence. }
  pose proof (HR v Ev) as Hv. destruct (decide (dv_arrive e < length (append_value [] v))%nat) as [Hlt|Hge].
  - rewrite readReply_prefix by done. split; [by left|]. split; [by left|]. intros v' (_ & _ & Hv' & Hn). simplify_eq. lia.
  - rewrite take_ge, drop_ge by lia. rewrite <-(app_nil_r (append_value [] v)), readReply_value by done.
    assert (O : own_outcome e (value_outcome v)).
    { split; [right; by exists v|]. intros v' (_ & _ & ? & _). congruence. }
    destruct v; [..|done]; (split; [by right|exact O]).
Qed.

(** C31: Every call of a client gets an error or the reply to its own request,
    never that to an earlier one, whatever is lost, cut off or late; and it gets the
    reply when nothing fails and it arrives before the deadline. *)
Theorem chaos_replies_own calls :
  Forall (fun call => reply_readable call.2) calls ->
  Forall2 (fun call out => own_outcome call.2 out) calls (do_all calls None).
Proof.
  assert (G : forall conn, conn_clean conn -> Forall (fun call => reply_readable call.2) calls ->
    Forall2 (fun call out => own_outcome call.2 out) calls (do_all calls conn)).
  { induction calls as [|[args e] calls IH]; intros conn HC HF; [constructor|]. apply Forall_cons in HF as [He HF]. cbn [do_all].
    destruct (do_clean args e conn HC He) as [HC' Ho]. destruct (RespClient_Do args e conn) as [[conn' out] sent]. constructor; [done|].
    by apply IH. }
  apply G. by left.
Qed.

(** The nodes are up when [waitReady] succeeds. *)
Lemma waitReady_up nodes :
  waitReady nodes = None <-> Forall (fun n => bt_exited n = false /\ exists e, e ∈ take 100 (bt_tries n) /\ ping_ready e = true) nodes.
Proof.
  induction nodes as [|n nodes IH]; [done|]. cbn [waitReady]. rewrite Forall_cons.
  destruct (bt_exited n); [split; [done|by intros [[? _] _]]|]. destruct (existsb ping_ready (take 100 (bt_tries n))) eqn:E.
  - rewrite IH. apply existsb_exists in E as (e & He & Hp). apply list_elem_of_In in He. split; [|by intros [_ ?]].
    intros H. split; [|done]. split; [done|]. by exists e.
  - split; [done|]. intros [[_ (e & He & Hp)] _]. assert (X : existsb ping_ready (take 100 (bt_tries n)) = true); [|congruence].
    apply existsb_exists. exists e. split; [by apply list_elem_of_In|done].
Qed.

(** ** The history of a run *)

(** The clock never runs backwards between the two readings of a turn. *)
Definition turn_ok (t : Turn) : Prop := tn_call t <= tn_return t /\ tn_return t <= kMaxInt64.

(** What every turn leaves. *)
Record done_ok (id : Z) (d : Done) : Prop := {
  do_counts : dn_counts d = turn_counts (dn_input d) (dn_out d);
  do_entry : exists call ret, dn_entry d = record_op id (dn_input d) call (outcome_result (dn_out d)) ret /\ call <= ret /\ ret <= kMaxInt64
}.

Lemma client_loop_ok deadline id seq turns conn : Forall turn_ok turns -> Forall (done_ok id) (client_loop deadline id seq turns conn).
Proof.
  intros HF. revert seq conn. induction HF as [|t turns [H1 H2] _ IH]; intros seq conn; [constructor|]. cbn [client_loop].
  destruct (tn_now t <? deadline); [|constructor]. destruct (RespClient_Do _ _ conn) as [[conn' out] sent].
  constructor; [|apply IH]. split; [done|]. by exists (tn_call t), (tn_return t).
Qed.

Lemma record_op_entry id input call res ret o :
  record_op id input call res ret = Some o -> call <= ret -> ret <= kMaxInt64 ->
  h_input o = input /\ h_call o <= h_return o /\ h_call o <= kMaxInt64.
Proof. unfold record_op. destruct res as [[v|]|], (in_op input); intros [= <-] H1 H2; cbn; split_and!; try done; lia. Qed.

Lemma done_entry id d o : done_ok id d -> dn_entry d = Some o -> h_input o = dn_input d /\ h_call o <= h_return o /\ h_call o <= kMaxInt64.
Proof. intros [_ (call & ret & E & H1 & H2)] Ho. rewrite E in Ho. by eapply record_op_entry. Qed.

(** ** The values written are distinct *)

Definition turn_value (id seq : Z) : bytes := lit "c" ++ to_dec id ++ lit "-" ++ to_dec seq.

Lemma to_dec_no_dash n : 0 <= n -> "-"%char ∉ to_dec n.
Proof.
  intros Hn Hin. unfold to_dec in Hin. rewrite (proj2 (Z.ltb_ge _ _)) in Hin by done. destruct (udec_spec n Hn) as [H _].
  destruct (udec n) as [|c s]; [by apply elem_of_nil in Hin|]. cbn [all_digits] in H. rewrite forallb_forall in H.
  apply list_elem_of_In in Hin. specialize (H _ Hin). by vm_compute in H.
Qed.

Lemma to_dec_inj n n' : 0 <= n -> 0 <= n' -> to_dec n = to_dec n' -> n = n'.
Proof. intros H H' E. pose proof (strto_to_dec n H) as E1. rewrite E, strto_to_dec in E1 by done. by simplify_eq. Qed.

Lemma app_sep_inj (c : ascii) a a' b b' : c ∉ a -> c ∉ a' -> a ++ c :: b = a' ++ c :: b' -> a = a' /\ b = b'.
Proof.
  revert a'. induction a as [|x a IH]; intros [|x' a'] H H' E; cbn in E; simplify_eq; try done.
  - exfalso. apply H'. by left.
  - exfalso. apply H. by left.
  - rewrite not_elem_of_cons in H, H'. destruct (IH a') as [-> ->]; try tauto.
Qed.

Lemma turn_value_inj id seq id' seq' :
  0 <= id -> 0 <= id' -> 0 <= seq -> 0 <= seq' -> turn_value id seq = turn_value id' seq' -> id = id' /\ seq = seq'.
Proof.
  unfold turn_value. intros H1 H2 H3 H4 E. apply app_inv_head in E.
  apply app_sep_inj in E as [E1 E2]; [|by apply to_dec_no_dash..]. split; by apply to_dec_inj.
Qed.

(** The value written by a turn, if it is a SET. *)
Definition put_value (d : Done) : option bytes :=
  o ← dn_entry d; if bool_decide (h_op o = opPut) then Some (in_value (h_input o)) else None.

Lemma put_values_done l : put_values (omap dn_entry l) = omap put_value l.
Proof.
  unfold put_values. induction l as [|d l IH]; [done|]. cbn [omap list_omap]. unfold put_value at 1.
  destruct (dn_entry d) as [o|]; cbn [mbind option_bind]; [|done]. cbn [omap list_omap]. by rewrite <-IH.
Qed.

Lemma client_values deadline id seq turns conn : 0 <= id -> 0 <= seq -> Forall turn_ok turns ->
  let l := omap put_value (client_loop deadline id seq turns conn) in
  NoDup l /\ forall v, v ∈ l -> exists n, seq <= n /\ v = turn_value id n.
Proof.
  intros Hid Hs HF. revert seq conn Hs. induction HF as [|t turns [H1 H2] _ IH]; intros seq conn Hs; cbn [client_loop];
    [split; [constructor|by intros v Hv%elem_of_nil]|].
  destruct (tn_now t <? deadline); [|split; [constructor|by intros v Hv%elem_of_nil]].
  destruct (RespClient_Do _ _ conn) as [[conn' out] sent]. destruct (IH (seq + 1) conn') as [I1 I2]; [lia|].
  set (input := turn_input id seq t). set (d := mkDone input out _ _).
  assert (V : forall v, put_value d = Some v -> v = turn_value id seq).
  { intros v Hv. unfold put_value in Hv. apply bind_Some in Hv as (o & Eo & Hv). case_bool_decide as Hp; [|done]. injection Hv as <-.
    apply record_op_entry in Eo as [Ei _]; [|done..]. unfold h_op in Hp. rewrite Ei in *. unfold input, turn_input in *.
    destruct (tn_draw t <? 5); [done|]. destruct (tn_draw t <? 9); [done|done]. }
  change (omap put_value (d :: client_loop deadline id (seq + 1) turns conn')) with
    (match put_value d with Some v => v :: omap put_value (client_loop deadline id (seq + 1) turns conn')
     | None => omap put_value (client_loop deadline id (seq + 1) turns conn') end).
  destruct (put_value d) as [v|].
  - rewrite (V v eq_refl). split.
    + constructor; [|done]. intros Hin. apply I2 in Hin as (n & Hn & E). apply turn_value_inj in E as [_ E]; lia.
    + intros v' [->|Hv']%elem_of_cons; [exists seq; split; [lia|done]|]. apply I2 in Hv' as (n & Hn & ->). exists n. split; [lia|done].
  - split; [done|]. intros v' Hv'. apply I2 in Hv' as (n & Hn & ->). exists n. split; [lia|done].
Qed.

Definition done_from (deadline : Z) (k : nat) (turns : list (list Turn)) : list Done :=
  concat (imap (fun i ts => runClient deadline (Z.of_nat (k + i)) ts) turns).

Lemma done_from_cons deadline k ts turns :
  done_from deadline k (ts :: turns) = runClient deadline (Z.of_nat k) ts ++ done_from deadline (S k) turns.
Proof.
  unfold done_from. rewrite imap_cons. cbn [concat]. rewrite Nat.add_0_r. do 2 f_equal. apply imap_ext. intros i x _. cbn.
  by rewrite Nat.add_succ_r.
Qed.

Lemma all_values deadline k turns : Forall (Forall turn_ok) turns ->
  let l := omap put_value (done_from deadline k turns) in
  NoDup l /\ forall v, v ∈ l -> exists id n, Z.of_nat k <= id /\ 0 <= n /\ v = turn_value id n.
Proof.
  intros HF. revert k. induction HF as [|ts turns Ht _ IH]; intros k; [split; [constructor|by intros v Hv%elem_of_nil]|].
  cbv zeta. rewrite done_from_cons, omap_app. destruct (IH (S k)) as [I1 I2].
  destruct (client_values deadline (Z.of_nat k) 0 ts None) as [C1 C2]; [lia|done|done|]. fold (runClient deadline (Z.of_nat k) ts) in C1, C2. split.
  - apply NoDup_app. split; [done|]. split; [|done]. intros v Hv Hv'. apply C2 in Hv as (n & Hn & ->). apply I2 in Hv' as (id & n' & Hid & Hn' & E).
    apply turn_value_inj in E as [E _]; lia.
  - intros v Hv. apply elem_of_app in Hv as [Hv|Hv].
    + apply C2 in Hv as (n & Hn & ->). by exists (Z.of_nat k), n.
    + apply I2 in Hv as (id & n & Hid & Hn & ->). exists id, n. split_and!; [lia|done|done].
Qed.

Lemma done_from_ok deadline k turns : Forall (Forall turn_ok) turns -> Forall (fun d => exists id, done_ok id d) (done_from deadline k turns).
Proof.
  intros HF. revert k. induction HF as [|ts turns Ht _ IH]; intros k; [constructor|]. rewrite done_from_cons. apply Forall_app. split; [|apply IH].
  eapply Forall_impl; [by apply client_loop_ok|]. intros d Hd. by exists (Z.of_nat k).
Qed.

(** ** The counters *)

Definition tally (b : Bucket) (k : bytes) (adds : list Count) : nat := length (filter (fun c => c = (b, k)) adds).

Definition stat_bucket (b : Bucket) (s : TestStats) : gmap bytes Z :=
  match b with StOk => ts_ok s | StFailed => ts_failed s | StIndeterminate => ts_indeterminate s | StErrors => ts_errors s end.

(** A counter of the statistics. *)
Definition stat_of (b : Bucket) (k : bytes) (s : TestStats) : Z := default 0 (stat_bucket b s !! k).

Lemma stats_tally b k adds : stat_of b k (foldl stats_add newStats adds) = Z.of_nat (tally b k adds).
Proof.
  assert (G : forall s, stat_of b k (foldl stats_add s adds) = stat_of b k s + Z.of_nat (tally b k adds)).
  { unfold tally. induction adds as [|[b' k'] adds IH]; intros s; [cbn; lia|]. cbn [foldl]. rewrite IH, filter_cons.
    assert (E : stat_of b k (stats_add s (b', k')) = stat_of b k s + if decide ((b', k') = (b, k)) then 1 else 0).
    { destruct (decide ((b', k') = (b, k))) as [[= -> ->]|Hne].
      - unfold stat_of. destruct b; cbn; unfold bump; by rewrite lookup_insert_eq.
      - unfold stat_of. destruct (decide (b' = b)) as [->|Hb].
        + assert (k' <> k) by congruence. destruct b; cbn; unfold bump; rewrite lookup_insert_ne by done; lia.
        + destruct b', b; cbn; try done; lia. }
    rewrite E. case_decide; cbn [length]; lia. }
  rewrite G. unfold stat_of, newStats. destruct b; cbn; by rewrite lookup_empty.
Qed.

Lemma tally_perm b k l l' : l ≡ₚ l' -> tally b k l = tally b k l'.
Proof. intros E. unfold tally. by rewrite E. Qed.

Lemma tally_app b k l l' : tally b k (l ++ l') = (tally b k l + tally b k l')%nat.
Proof. unfold tally. by rewrite filter_app, length_app. Qed.

(** How many operations of a kind were issued, and how many recorded. *)
Definition issued_ops (name : bytes) (l : list Done) : nat := length (filter (fun d => op_name (dn_input d) = name) l).
Definition kept (name : bytes) (h : list Operation) : nat := length (filter (fun o => op_name (h_input o) = name) h).

Lemma tally_hit b k l : tally b k ((b, k) :: l) = S (tally b k l).
Proof. unfold tally. by rewrite filter_cons, decide_True. Qed.

Lemma tally_miss b k c l : c <> (b, k) -> tally b k (c :: l) = tally b k l.
Proof. intros H. unfold tally. by rewrite filter_cons, decide_False. Qed.

Lemma op_name_get input : op_name input = lit "GET" <-> in_op input = opGet.
Proof. unfold op_name, op_args. by destruct (in_op input). Qed.

(** The counts of a turn: one of the three outcomes, and whether it is recorded. *)
Lemma tally_done id d name : done_ok id d ->
  (tally StOk name (dn_counts d) + tally StFailed name (dn_counts d) + tally StIndeterminate name (dn_counts d))%nat = issued_ops name [d] /\
  kept name (from_option (fun o => [o]) [] (dn_entry d)) =
    (tally StOk name (dn_counts d) +
     if decide (name = lit "GET") then 0 else tally StFailed name (dn_counts d) + tally StIndeterminate name (dn_counts d))%nat.
Proof.
  intros [-> (call & ret & -> & _)]. pose proof (op_name_get (dn_input d)) as G.
  assert (I : issued_ops name [d] = if decide (op_name (dn_input d) = name) then 1%nat else 0%nat)
    by (unfold issued_ops; rewrite filter_cons, filter_nil; by case_decide).
  assert (K : forall o, h_input o = dn_input d -> kept name [o] = if decide (op_name (dn_input d) = name) then 1%nat else 0%nat)
    by (intros o E; unfold kept; rewrite filter_cons, filter_nil, E; by case_decide).
  rewrite I. unfold turn_counts, record_op. destruct (dn_out d) as [r|msg|]; cbn [outcome_result]; [destruct (rp_nil r)|..];
    destruct (in_op (dn_input d)) eqn:Eo; cbn [from_option]; rewrite ?K by done; clear I K;
    (destruct (decide (op_name (dn_input d) = name)) as [<-|Hne]; repeat (rewrite tally_hit || rewrite tally_miss by congruence);
     (split; [done|]); case_decide as Hg; first [done | by apply G in Hg | by (destruct Hg; apply G)]).
Qed.

Lemma issued_cons name d l : issued_ops name (d :: l) = (issued_ops name [d] + issued_ops name l)%nat.
Proof. unfold issued_ops. by rewrite <-length_app, <-filter_app. Qed.

Lemma kept_app name h h' : kept name (h ++ h') = (kept name h + kept name h')%nat.
Proof. unfold kept. by rewrite filter_app, length_app. Qed.

Lemma tally_all l name : Forall (fun d => exists id, done_ok id d) l ->
  let adds := concat (dn_counts <$> l) in
  (tally StOk name adds + tally StFailed name adds + tally StIndeterminate name adds)%nat = issued_ops name l /\
  kept name (omap dn_entry l) =
    (tally StOk name adds + if decide (name = lit "GET") then 0 else tally StFailed name adds + tally StIndeterminate name adds)%nat.
Proof.
  induction 1 as [|d l [id Hd] _ IH]; [split; [done|by case_decide]|]. cbv zeta in *. rewrite fmap_cons. cbn [concat]. rewrite !tally_app.
  destruct (tally_done id d name Hd) as [T1 T2]. destruct IH as [I1 I2]. rewrite issued_cons.
  assert (E : omap dn_entry (d :: l) = from_option (fun o => [o]) [] (dn_entry d) ++ omap dn_entry l) by (cbn; by destruct (dn_entry d)).
  rewrite E, kept_app, T2, I2. split; [lia|]. case_decide; lia.
Qed.

(** ** The verdict *)

(** The history satisfies what the checker and the reports rely on. *)
Lemma history_ok deadline turns : Forall (Forall turn_ok) turns ->
  times_ok (omap dn_entry (all_done deadline turns)) /\ unique_values (omap dn_entry (all_done deadline turns)).
Proof.
  intros HF. pose proof (done_from_ok deadline 0 turns HF) as HD. pose proof (all_values deadline 0 turns HF) as [HU _].
  change (done_from deadline 0 turns) with (all_done deadline turns) in *. split.
  - apply Forall_forall. intros o Ho. apply list_elem_of_omap in Ho as (d & Hd & Eo). rewrite Forall_forall in HD.
    destruct (HD d Hd) as [id Hid]. by apply (done_entry id d o Hid) in Eo as [_ ?].
  - unfold unique_values. by rewrite put_values_done.
Qed.

(** C30: What the test says is about the whole store.  With clocks that do not run
    backwards and a checker that keeps its contract, the recorded history has
    sane times and unique values, whatever the random draws, the interleaving
    of the clients and the outcomes of the calls; exit status 0 means that the
    history of the whole store is linearizable and that neither report of
    anomalies shows any, status 1 that it is not linearizable, and the history is
    linearizable only if both reports are empty.  The counters account for every
    operation: each is counted once as ok, failed or indeterminate, and the history
    holds the successful ones and the writes of unknown outcome. *)
Theorem chaos_verdict `{SortSlice} check deadline turns adds code rep :
  (forall h, check h = CheckOk -> Forall linearizable (kvPartition h)) ->
  (forall h, check h = CheckIllegal -> ~ Forall linearizable (kvPartition h)) ->
  Forall (Forall turn_ok) turns -> adds ≡ₚ concat (dn_counts <$> all_done deadline turns) ->
  run_test check true true deadline turns adds = (code, Some rep) ->
  times_ok (tr_history rep) /\ unique_values (tr_history rep) /\
  (code = 0 -> store_linearizable (tr_history rep)) /\ (code = 1 -> ~ store_linearizable (tr_history rep)) /\
  (store_linearizable (tr_history rep) -> tr_stale rep = (0%nat, []) /\ tr_inversions rep = (0%nat, [])) /\
  forall name,
    let count b := stat_of b name (tr_stats rep) in
    count StOk + count StFailed + count StIndeterminate = Z.of_nat (issued_ops name (all_done deadline turns)) /\
    Z.of_nat (kept name (tr_history rep)) =
      count StOk + if decide (name = lit "GET") then 0 else count StFailed + count StIndeterminate.
Proof.
  intros Hok Hill HF Hp E. cbn in E. injection E as Ec <-. cbn [tr_history tr_stats tr_stale tr_inversions].
  pose proof (done_from_ok deadline 0 turns HF) as HD. change (done_from deadline 0 turns) with (all_done deadline turns) in HD.
  destruct (history_ok deadline turns HF) as [HT HV]. set (hist := omap dn_entry (all_done deadline turns)) in *.
  split; [done|]. split; [done|]. split; [|split; [|split]].
  - intros ->. apply partition_local; [done|]. apply Hok. by destruct (check hist).
  - intros ->. rewrite partition_local by done. apply Hill. by destruct (check hist).
  - intros HL. apply anomalies_sound; [done..|]. by apply partition_local.
  - intros name. cbv zeta beta. rewrite !stats_tally, !(tally_perm _ _ _ _ Hp). destruct (tally_all (all_done deadline turns) name HD) as [T1 T2].
    split; [lia|]. unfold hist. rewrite T2. case_decide; lia.
Qed.

(** C2: The linearizable mode passes the test, from the draws of the clients to the
    exit status: if what the clients record on each key comes from a run of the
    register with overlapping quorums in which no replica loses its memory, replies
    lost and writes of unknown outcome included, the history of the whole store is
    linearizable, a checker that keeps its contract does not find it illegal, the
    exit status is 0 as soon as it decides, and no anomaly is reported. *)
Theorem chaos_test_passes {S : Type} `{VersionedStoreLaws S} `{SortSlice} check deadline turns adds code rep :
  (forall h, check h = CheckIllegal -> ~ Forall linearizable (kvPartition h)) ->
  Forall (Forall turn_ok) turns -> run_test check true true deadline turns adds = (code, Some rep) ->
  (forall op, op ∈ tr_history rep -> key_run (S := S) (h_key op) (tr_history rep)) ->
  store_linearizable (tr_history rep) /\ code <> 1 /\ (check (tr_history rep) <> CheckUnknown -> code = 0) /\ tr_stale rep = (0%nat, []) /\ tr_inversions rep = (0%nat, []).
Proof.
  intros Hill HF E Hk. cbn in E. injection E as Ec <-. cbn [tr_history tr_stats tr_stale tr_inversions] in *.
  destruct (history_ok deadline turns HF) as [HT HV]. set (hist := omap dn_entry (all_done deadline turns)) in *.
  pose proof (run_passes hist Hk) as HL. specialize (Hill hist).
  split; [by apply partition_local|]. split; [|split; [|by apply anomalies_sound]]; destruct (check hist); subst code; try done; by destruct Hill.
Qed.

(** ** Examples *)

(** A reply is cut off by the deadline; the next call dials again and does not see
    the rest of it. *)
Definition sample_do_calls : list (list bytes * DoEnv) :=
  [([lit "GET"; lit "k0"], mkDoEnv true true (Some (BulkString (lit "c0-0"))) 6);
   ([lit "GET"; lit "k1"], mkDoEnv true true (Some RespNull) 100);
   ([lit "SET"; lit "k1"; lit "x"], mkDoEnv true true (Some (RespError (lit "ERR quorum"))) 100);
   ([lit "DEL"; lit "k1"], mkDoEnv false true (Some (RespInteger 1)) 100)].

Lemma chaos_replies_own_witness :
  do_all sample_do_calls None =
    [OutError; OutReply (mkReply "$" [] 0 true); OutServerError (lit "ERR quorum"); OutReply (mkReply ":" [] 1 false)] /\
  Forall2 (fun call out => own_outcome call.2 out) sample_do_calls (do_all sample_do_calls None).
Proof.
  split; [vm_compute; reflexivity|]. apply chaos_replies_own.
  repeat constructor; intros v [= <-]; cbn; unfold no_lf; first [done | lia | by_eval].
Defined.

(** A checker that keeps the contract: it decides the empty history, and
    histories with a stale read. *)
Definition sample_check (h : list Operation) : CheckResult :=
  match h with
  | [] => CheckOk
  | _ => if bool_decide (times_ok h /\ unique_values h) && (0 <? (staleReads (H := merge_sort_slice) h).1)%nat then CheckIllegal else CheckUnknown
  end.

Lemma sample_check_ok :
  (forall h, sample_check h = CheckOk -> Forall linearizable (kvPartition h)) /\
  (forall h, sample_check h = CheckIllegal -> ~ Forall linearizable (kvPartition h)).
Proof.
  split; intros [|o h]; cbn [sample_check]; [intros _; constructor|by destruct (_ && _)|done|].
  destruct (_ && _) eqn:E; [|done]. apply andb_true_iff in E as [E1 E2]. apply bool_decide_eq_true_1 in E1 as [Ht Hu]. intros _ HL.
  destruct (anomalies_sound (H := merge_sort_slice) (o :: h) Ht Hu HL) as [E _]. by rewrite E in E2.
Qed.

(** Two clients; the second one reads an overwritten value, and never gets a reply
    to its write. *)
Definition sample_turns : list (list Turn) :=
  [[mkTurn 0 0 5 1 2 (mkDoEnv true true (Some (SimpleString (lit "OK"))) 100);
    mkTurn 3 0 6 4 5 (mkDoEnv true true (Some (SimpleString (lit "OK"))) 100)];
   [mkTurn 6 0 0 7 8 (mkDoEnv true true (Some (BulkString (lit "c0-0"))) 100);
    mkTurn 9 1 8 10 11 (mkDoEnv true true None 0); mkTurn 100 1 1 101 102 (mkDoEnv true true None 0)]].

Definition sample_adds : list Count := [(StOk, lit "SET"); (StOk, lit "SET"); (StOk, lit "GET"); (StIndeterminate, lit "SET")].

Lemma chaos_verdict_witness : exists rep,
  run_test (H := merge_sort_slice) sample_check true true 50 sample_turns sample_adds = (1, Some rep) /\
  ~ store_linearizable (tr_history rep) /\ (tr_stale rep).1 = 1%nat /\ kept (lit "SET") (tr_history rep) = 3%nat /\
  stat_of StOk (lit "SET") (tr_stats rep) + stat_of StFailed (lit "SET") (tr_stats rep) + stat_of StIndeterminate (lit "SET") (tr_stats rep) = 3.
Proof.
  assert (E : (run_test (H := merge_sort_slice) sample_check true true 50 sample_turns sample_adds).1 = 1) by (vm_compute; reflexivity).
  eexists. split; [unfold run_test in *; cbn [negb fst] in *; by rewrite E|].
  assert (HF : Forall (Forall turn_ok) sample_turns) by (repeat constructor; cbn; unfold kMaxInt64; lia).
  assert (Hp : sample_adds ≡ₚ concat (dn_counts <$> all_done 50 sample_turns)) by (vm_compute; reflexivity).
  destruct sample_check_ok as [C1 C2].
  destruct (chaos_verdict (H := merge_sort_slice) sample_check 50 sample_turns sample_adds 1 _ C1 C2 HF Hp
    ltac:(unfold run_test in *; cbn [negb fst] in *; rewrite E; reflexivity)) as (_ & _ & _ & HN & _ & HC).
  split; [exact (HN eq_refl)|]. split; [vm_compute; reflexivity|]. split; [vm_compute; reflexivity|].
  destruct (HC (lit "SET")) as [C _]. rewrite C. vm_compute. reflexivity.
Defined.

(** The run of ChaosRuns.v as its two clients drive it. *)
Definition passing_turns : list (list Turn) :=
  [[mkTurn 0 3 5 0 10 (mkDoEnv true true (Some (SimpleString (lit "OK"))) 100)];
   [mkTurn 15 3 0 20 30 (mkDoEnv true true (Some (BulkString (lit "c0-0"))) 100)]].

Lemma chaos_test_passes_witness : exists rep,
  run_test (H := merge_sort_slice) sample_check true true 50 passing_turns [] = (3, Some rep) /\
  tr_history rep = sample_recorded /\ store_linearizable (tr_history rep) /\ tr_stale rep = (0%nat, []).
Proof.
  assert (E : (run_test (H := merge_sort_slice) sample_check true true 50 passing_turns []).1 = 3) by (vm_compute; reflexivity).
  assert (Eh : omap dn_entry (all_done 50 passing_turns) = sample_recorded) by (vm_compute; reflexivity).
  eexists. split; [unfold run_test in *; cbn [negb fst] in *; by rewrite E|]. split; [exact Eh|].
  destruct (chaos_test_passes (S := Cache) (H1 := merge_sort_slice) sample_check 50 passing_turns [] 3
    (mkReport (omap dn_entry (all_done 50 passing_turns)) newStats (staleReads (H := merge_sort_slice) (omap dn_entry (all_done 50 passing_turns)))
      (inversions (H := merge_sort_slice) (omap dn_entry (all_done 50 passing_turns))))) as (HL & _ & _ & K & _).
  - exact (proj2 sample_check_ok).
  - repeat constructor; cbn; unfold kMaxInt64; lia.
  - unfold run_test in *. cbn [negb fst foldl] in *. by rewrite E.
  - cbn [tr_history]. rewrite Eh. exact sample_recorded_runs.
  - split; [exact HL|exact K].
Defined.
